(* ===== verification/_CoqProject ===== *)
-Q . S2P
Prelude.v
GoErrors.v
Prog.v
Api.v
Kube.v
Duration.v
Samples.v
Backoff.v
Values.v
Yaml.v
Fetch.v
TestValues.v
TestRbac.v
TestUtils.v
Fixtures.v
JobBuilder.v
Admission.v
Logs.v
Rbac.v
Registry.v
Controller.v
Runs.v
Server.v
Scenarios.v
Safety.v
Listing.v
Delivery.v
Lifecycle.v
Policy.v
Jobs.v
System.v
Chains.v
Convergence.v
Progress.v
Undeployable.v
Polling.v
Cluster.v
Queue.v
Conditional.v
Machine.v
Deployments.v
Unchanged.v
Flags.v
Main.v
Heap.v
DeepCopy.v
