(* ===== verification/Prelude.v ===== *)
(** * A verification development of the werf operator

    The operator (a Kubernetes controller in Go) watches WerfBundle resources.  A
    reconciliation polls an OCI registry for the tags of a bundle and, when the
    greatest tag is not the one last applied, creates a Job that runs
    [werf converge], watches it, and records the outcome in the bundle's status.
    This development models that program and proves what makes it correct; where
    the code does not do what it means to, the theorem states what it does.

    ** The parts, and the file that models each

    - Api.v          api/v1alpha1/werfbundle_types.go: the resource, the CRD's
                     validation markers as boolean predicates, the
                     cross-namespace validation; GetTargetNamespace.
    - Duration.v     time.ParseDuration, which reads spec.registry.pollInterval,
                     and the grammar of the CRD's pattern.
    - Backoff.v      internal/registry/backoff.go: CalculateBackoff, AddJitter.
    - Values.v       internal/values/merge.go, cli.go and helpers.go (merging,
                     escaping, --set flags), and ExtractSetFlags of
                     internal/testing/values.go, which reads the flags back.
    - Yaml.v         internal/values/yaml.go: parseYAML and flattenValue.
    - Fetch.v        internal/values/fetch.go, implementation.go, resolver.go:
                     the two-namespace lookup and ResolveValues, with an abstract
                     specification over a snapshot of the cluster.
    - JobBuilder.v   internal/converge/job.go: Build and its helpers; Admission.v
                     compares the names and labels of a built job with the form
                     Kubernetes documents.
    - Logs.v         internal/converge/logs.go: CaptureJobLogs and getPodLogs.
    - Rbac.v         internal/rbac/validator.go.
    - Registry.v     internal/registry/etag_transport.go and client.go: the ETag
                     transport, the OCI client, and the interface the controller
                     uses ([RegistryClient]) with its contract
                     ([RegistryContract]), which the OCI client is proved to keep.
    - Controller.v   controllers/werfbundle_controller.go: Reconcile and all its
                     handlers.
    - Flags.v        cmd/main.go: the command line, with flag.Parse.
    - Main.v         cmd/main.go: the options of the servers and the manager, the
                     start-up and its exits; SetupWithManager; the scheme
                     registration of groupversion_info.go.
    - Heap.v and DeepCopy.v
                     api/v1alpha1/zz_generated.deepcopy.go: the API structs as
                     they lie in memory, and every generated copy.
    - TestValues.v   internal/testing/values.go: the ConfigMaps and Secrets made
                     from dotted keys, the assertions on the flags of a job.
    - TestRbac.v     internal/testing/rbac.go: the setup of a namespace and its
                     rollback.
    - TestUtils.v    test/utils/utils.go: the commands of the end-to-end tests,
                     UncommentCode.
    - Fixtures.v     internal/values/testdata/helpers.go: loading a fixture.

    The files that carry them: Prelude.v (this one: machine integers, Go strings,
    sorting, tactics, hint databases), GoErrors.v (error values, wrapping,
    errors.Is and errors.As), Prog.v (effectful programs), Kube.v (the calls and
    the libraries), Samples.v, Scenarios.v and Cluster.v (concrete parameters,
    answers and a cluster for the witnesses, part of no theorem).

    What one reconciliation does: Runs.v, Server.v, Safety.v, Listing.v,
    Delivery.v, Lifecycle.v, Policy.v and Jobs.v.

    The operator in its cluster: System.v makes the reconciler of Controller.v one
    process of a transition system, whose world keeps the versions of the bundle
    the API server has stored and the jobs; Machine.v refines it to an abstract
    deployment machine; Chains.v, Deployments.v, Unchanged.v, Convergence.v,
    Progress.v, Undeployable.v, Polling.v and Conditional.v state what else holds
    of its executions; Queue.v adds the work queue; and Main.v shows that the
    reconciler main wires, with the OCI client, is one they apply to.

    What users, the API server and crashes may do in System.v is a parameter, the
    class [Conduct]; a theorem that needs more than the server's documented checks
    says which conduct it needs.  [orderly] is the conduct under which there is one
    job at a time.  A condition on the registry is always one on the listing that a
    reconciliation makes: Safety.v finds it in the trace ([listing_in], [lists]),
    and Listing.v shows that there is at most one and computes it for the
    witnesses, all of which run the OCI client.

    ** How the program is modelled

    A Go function without effects is a Rocq function.  A function that talks to
    its environment is a [prog] (Prog.v): a finite tree whose nodes are calls and
    whose branches are the possible answers.  The calls (Kube.v, [kcall]) are the
    requests to the API server, the pod logs, the HTTP round trips, the clock, the
    random generators, the YAML decoder, and a range over a map, whose order Go
    leaves open.  [exec p t o] says that with the calls and answers of the trace
    [t] the program ends in [o], a value or a panic; [run] is the executable form.
    A theorem about [exec] holds for every answer the environment could give.
    Where it needs more, the condition is on the trace and states documented
    behaviour: [go_ok] (the Go language and standard library), [server_ok] (the
    API server: keys, optimistic concurrency, the status subresource), and the
    classes [MachineryOk] and [RegistryLibOk] (the client libraries).

    Code outside the repository is a parameter: the class [Machinery] (API error
    tests, quantities, schemes, finalizers, controller references) and the class
    [RegistryLib] (go-containerregistry; remote.List is a program whose only calls
    are requests to the transport it is given).  The witnesses instantiate both.

    In the controller a bundle passed by pointer is passed and returned by value:
    no two live pointers to one bundle are used.  Where sharing is the point, in
    the deep copies, the model has a heap, and a copy is a state transformer.  A
    successful update replaces the bundle by the server's answer, as the client
    does.  int32 and int64 arithmetic wraps
    around ([wrap_s]); strings are sequences of bytes; times are seconds.

    ** What the theorems show

    - One reconciliation (Safety.v, Delivery.v, Progress.v, Lifecycle.v, Policy.v,
      Jobs.v), by cases on its runs: Runs.v gives, for each handler, the relation
      of its paths and shows that every execution is one of them; Server.v bounds
      the calls of each component.  When a job is created, and that it is at most
      one; that it deploys the greatest tag with the values of the bundle's
      sources; that a new tag does get its job, and under which conditions - and
      after a registry error a tag already deployed once more; which objects are
      touched; what is written and that the CRD accepts it; how it
      ends: errors, delays, panics; the finalizer; the retry policy, over one
      error and over an outage; watching a job and storing its logs; what the
      phase Synced means.
    - Many reconciliations (System.v, Chains.v, Machine.v, Convergence.v,
      Polling.v, Queue.v, Deployments.v, Unchanged.v).  In System.v users edit and
      delete the bundle and jobs run, end and vanish between any two calls, reads
      of the bundle and of its job may be stale, calls fail, the process crashes;
      the invariant is proved by induction on the steps.  At most one job of a
      bundle is unfinished, and it is the one the status names.  The status always
      shows a state of the deployment machine and moves as the machine can, so
      that its fields agree with each other.  Writes follow the optimistic
      concurrency protocol.  Three reconciliations settle a bundle whose registry
      is quiet, by a measure; a bundle on its way always has a reconciliation
      coming.  The outcome of a job is not recorded as long as its tag stays the
      newest; with a registry that answers "not modified" deployments are not
      confirmed, and a tag can be skipped.  A tag for which no job can be made ends
      as Synced without one (Undeployable.v).  Each of the conditions of [orderly]
      - jobs recorded, target namespaces kept, answers about jobs accurate - has a
      theorem that shows a second job started without it (Deployments.v).
    - The process (Flags.v, Main.v): the flags, the servers' options, the order of
      the start-up, the exit status, the wiring of the controller.
    - Deep copies (DeepCopy.v): same content, new memory, independence.
    - Values: flattening against the paths of a document, merging and resolution
      against their specifications; escaping and the flags as round trips.
    - Jobs: the content of a built job, its name, its retention; the panics; which
      jobs have names and labels that Kubernetes accepts (Admission.v).
    - The registry: classification of responses, ETags, order of tags; the
      requests of a reconciliation are conditional on the recorded ETag, and which
      ETag it records (Conditional.v).
    - Durations, backoff and jitter: exactness, bounds and overflow.
    - The helpers of the tests: what they write is what the operator reads
      (TestValues.v, through the parser of Fetch.v); a setup is all or nothing
      (TestRbac.v); a commented block comes back (TestUtils.v); fixtures do not
      share memory (Fixtures.v).

    ** Bounds and fuel

    The loop of ParseDuration has the length of the string as fuel; every turn
    consumes a character (lemma [parse_loop_fuel]).  The search for the shortest
    decimal form of a double (Yaml.v) tries up to 18 digits, and 17 identify every
    double; its decimal exponent is looked for between -330 and 370.  Everything
    else is structural recursion, so that every program ends for every environment
    ([exec_total]).

    ** What is not modelled

    Log lines, contexts and cancellation, the certificates and servers behind the
    manager's options, what the test utilities print, and the tests themselves.
    Of the Kubernetes objects the fields the operator reads or writes are kept, and
    of the API server's validation of jobs the form of names and labels, which is
    the condition [admission] of Undeployable.v on the answers to a creation.
    In System.v no two reconciliations of one bundle run at a time
    (controller-runtime never does).  When reconciliations are started is left open, except in
    Queue.v, whose queue is what controller-runtime documents.  In a deep copy,
    apimachinery's own copies of metadata are parameters, and what is made with
    new or make appears with its final content. *)
From Stdlib Require Export ZArith Ascii String Lia.
From Stdlib Require Import DecimalString.
From stdpp Require Export base gmap strings list sorting.

#[global] Open Scope Z_scope.

(** ** Scope, hint databases and tactics of the development *)

Declare Scope go_scope.
Delimit Scope go_scope with go.
#[global] Open Scope go_scope.

Create HintDb gostr discriminated.
Create Rewrite HintDb gostr.
Create HintDb goint discriminated.

(** [kill] closes the goals that follow from contradictory equations or
    linear arithmetic once the hypotheses are simplified. *)
Ltac kill := simplify_eq/=; try (first [done | lia | congruence]).

(** [case_all] destructs every [match] of the goal in turn, keeping the
    equation, and simplifies. *)
Ltac case_all := repeat (case_match; simplify_eq/=).

(** [split_and_all] splits a conjunction and closes what is immediate. *)
Ltac split_all := repeat match goal with |- _ ∧ _ => split end.

(** ** Machine integers *)

(** The value a Go signed integer of [w] bits holds after an operation whose
    mathematical result is [z] (two's complement wrap-around). *)
Definition wrap_s (w z : Z) : Z := (z + 2 ^ (w - 1)) mod 2 ^ w - 2 ^ (w - 1).

(** The same for an unsigned integer. *)
Definition wrap_u (w z : Z) : Z := z mod 2 ^ w.

Abbreviation int32 := (wrap_s 32).
Abbreviation int64 := (wrap_s 64).
Abbreviation uint32 := (wrap_u 32).

Definition in_int32 (z : Z) : Prop := - 2 ^ 31 <= z < 2 ^ 31.
Definition in_int64 (z : Z) : Prop := - 2 ^ 63 <= z < 2 ^ 63.

#[global] Instance in_int32_dec z : Decision (in_int32 z).
Proof. unfold in_int32. apply _. Defined.
#[global] Instance in_int64_dec z : Decision (in_int64 z).
Proof. unfold in_int64. apply _. Defined.

Lemma wrap_s_small w z : 0 < w → - 2 ^ (w - 1) <= z < 2 ^ (w - 1) → wrap_s w z = z.
Proof.
  intros Hw Hz. unfold wrap_s.
  assert (2 ^ w = 2 * 2 ^ (w - 1)) as E.
  { rewrite <- Z.pow_succ_r by lia. f_equal. lia. }
  rewrite Z.mod_small by lia. lia.
Qed.

Lemma wrap_s_range w z : 0 < w → - 2 ^ (w - 1) <= wrap_s w z < 2 ^ (w - 1).
Proof.
  intros Hw. unfold wrap_s.
  assert (2 ^ w = 2 * 2 ^ (w - 1)) as E.
  { rewrite <- Z.pow_succ_r by lia. f_equal. lia. }
  pose proof (Z.mod_pos_bound (z + 2 ^ (w - 1)) (2 ^ w)). lia.
Qed.

Lemma int32_small z : in_int32 z → int32 z = z.
Proof. intros H. apply wrap_s_small; [lia | exact H]. Qed.
Lemma int64_small z : in_int64 z → int64 z = z.
Proof. intros H. apply wrap_s_small; [lia | exact H]. Qed.
Lemma int32_range z : in_int32 (int32 z).
Proof. apply (wrap_s_range 32). lia. Qed.
Lemma int64_range z : in_int64 (int64 z).
Proof. apply (wrap_s_range 64). lia. Qed.

#[export] Hint Resolve int32_range int64_range : goint.

(** ** Strings

    A Go string is a sequence of bytes; [string] is that sequence here, one
    [ascii] per byte. *)

(** The empty string. *)
Abbreviation empty_str := EmptyString.

(** The double quote, U+0022. *)
Definition dquote : string := String "034" EmptyString.

(** Go's [len] of a string. *)
Definition str_len (s : string) : Z := Z.of_nat (String.length s).

(** [s[:n]] and [s[n:]] within bounds. *)
Fixpoint str_take (n : nat) (s : string) : string :=
  match n, s with
  | S n, String c s => String c (str_take n s)
  | _, _ => EmptyString
  end.

Fixpoint str_drop (n : nat) (s : string) : string :=
  match n, s with
  | O, _ => s
  | S n, String _ s => str_drop n s
  | S _, EmptyString => EmptyString
  end.

Definition str_eqb (a b : string) : bool := bool_decide (a = b).

Fixpoint str_forall (P : ascii → bool) (s : string) : bool :=
  match s with
  | EmptyString => true
  | String c s => P c && str_forall P s
  end.

Fixpoint str_contains (c : ascii) (s : string) : bool :=
  match s with
  | EmptyString => false
  | String d s => bool_decide (c = d) || str_contains c s
  end.

(** strings.ReplaceAll with a one-byte old string. *)
Fixpoint replace_char (old : ascii) (new s : string) : string :=
  match s with
  | EmptyString => EmptyString
  | String c s =>
      if decide (c = old) then new +:+ replace_char old new s
      else String c (replace_char old new s)
  end.

(** strings.Join. *)
Fixpoint join (sep : string) (l : list string) : string :=
  match l with
  | [] => EmptyString
  | [s] => s
  | s :: l => s +:+ sep +:+ join sep l
  end.

(** strings.Split with a one-byte separator. *)
Fixpoint Split (sep : ascii) (s : string) : list string :=
  match s with
  | EmptyString => [EmptyString]
  | String c s =>
      if decide (c = sep) then EmptyString :: Split sep s
      else match Split sep s with
           | [] => [String c EmptyString]
           | p :: ps => String c p :: ps
           end
  end.

(** strings.SplitN(s, sep, 2) with a one-byte separator: [None] is the
    one-element result (no separator found). *)
Fixpoint split_once (sep : ascii) (s : string) : option (string * string) :=
  match s with
  | EmptyString => None
  | String c s =>
      if decide (c = sep) then Some (EmptyString, s)
      else prod_map (String c) id <$> split_once sep s
  end.

(** strconv.Itoa / the %d verb. *)
Definition itoa (z : Z) : string := NilZero.string_of_int (Z.to_int z).

(** A lower-case hexadecimal digit, for 0 <= d < 16. *)
Definition hex_digit (d : Z) : ascii :=
  ascii_of_N (Z.to_N (if d <? 10 then 48 + d else 87 + d)).

(** The [n] low hexadecimal digits of [z], most significant first. *)
Fixpoint hex_fixed (n : nat) (z : Z) : string :=
  match n with
  | O => EmptyString
  | S m => String (hex_digit ((z / 16 ^ Z.of_nat m) mod 16)) (hex_fixed m z)
  end.

(** Drops leading zeros, keeping at least one digit. *)
Fixpoint strip_zeros (s : string) : string :=
  match s with
  | String c ((String _ _) as s') => if decide (c = "0"%char) then strip_zeros s' else s
  | _ => s
  end.

(** The %x verb on a uint32: no padding. *)
Definition format_x32 (z : Z) : string := strip_zeros (hex_fixed 8 z).

(** encoding/hex.EncodeToString. *)
Fixpoint hex_encode (bytes : list Z) : string :=
  match bytes with
  | [] => EmptyString
  | b :: bs => hex_fixed 2 b +:+ hex_encode bs
  end.

(** ** Lemmas on strings *)

Lemma string_app_nil_r s : s +:+ EmptyString = s.
Proof. induction s as [|c s IH]; [done|]. unfold append in *. cbn. by rewrite IH. Qed.

Lemma string_app_assoc a b c : a +:+ (b +:+ c) = (a +:+ b) +:+ c.
Proof. induction a as [|x a IH]; [done|]. unfold append in *. cbn. by rewrite IH. Qed.

Lemma string_app_cons c s t : String c s +:+ t = String c (s +:+ t).
Proof. done. Qed.

Lemma string_app_nil_l t : EmptyString +:+ t = t.
Proof. done. Qed.

Lemma Split_cons sep s : ∃ p ps, Split sep s = p :: ps.
Proof.
  induction s as [|c s (p & ps & E)]; cbn; [by eexists _, _|].
  rewrite E. destruct (decide (c = sep)); by eexists _, _.
Qed.

Lemma Split_nonempty sep s : Split sep s ≠ [].
Proof. by destruct (Split_cons sep s) as (p & ps & ->). Qed.

Lemma join_strings_cons sep p ps : ps ≠ [] → join sep (p :: ps) = p +:+ sep +:+ join sep ps.
Proof. by destruct ps. Qed.

Lemma join_strings_app sep ps qs :
  ps ≠ [] → qs ≠ [] → join sep (ps ++ qs) = join sep ps +:+ sep +:+ join sep qs.
Proof.
  intros Hp Hq. induction ps as [|p ps IH]; [done|].
  destruct ps as [|p' ps]; [by apply join_strings_cons|].
  cbn [app]. rewrite (join_strings_cons sep p) by done.
  change (p' :: ps ++ qs) with ((p' :: ps) ++ qs). rewrite IH by done.
  rewrite (join_strings_cons sep p) by done. by rewrite !string_app_assoc.
Qed.

(** Joining the parts gives the string back. *)
Lemma join_Split sep s : join (String sep EmptyString) (Split sep s) = s.
Proof.
  induction s as [|c s IH]; [done|]. cbn [Split].
  destruct (Split_cons sep s) as (p & ps & E). rewrite E in *.
  destruct (decide (c = sep)) as [->|].
  - by rewrite join_strings_cons, IH.
  - rewrite <- IH. by destruct ps.
Qed.

(** Splitting gives back parts without the separator. *)
Lemma Split_app sep a s :
  str_contains sep a = false → Split sep (a +:+ String sep s) = a :: Split sep s.
Proof.
  induction a as [|c a IH]; intros H.
  - rewrite string_app_nil_l. cbn. by rewrite decide_True.
  - cbn in H. apply orb_false_iff in H as [H Ha]. apply bool_decide_eq_false in H.
    rewrite string_app_cons. cbn. rewrite decide_False by done. by rewrite IH.
Qed.

Lemma Split_single sep a : str_contains sep a = false → Split sep a = [a].
Proof.
  induction a as [|c a IH]; intros H; cbn; [done|].
  cbn in H. apply orb_false_iff in H as [H Ha]. apply bool_decide_eq_false in H.
  rewrite decide_False by done. by rewrite IH.
Qed.

Lemma Split_join sep ls :
  ls ≠ [] → Forall (λ l, str_contains sep l = false) ls →
  Split sep (join (String sep EmptyString) ls) = ls.
Proof.
  intros Hne Hl. induction Hl as [|l ls Hl Hls IH]; [done|].
  destruct (decide (ls = [])) as [->|Hn]; [by apply Split_single|].
  rewrite join_strings_cons by done.
  change (String sep EmptyString +:+ ?x) with (String sep x). by rewrite Split_app, IH.
Qed.

Lemma string_length_app a b :
  String.length (a +:+ b) = (String.length a + String.length b)%nat.
Proof. induction a as [|c a IH]; [done|]. rewrite string_app_cons. cbn. by rewrite IH. Qed.

Lemma str_len_app a b : str_len (a +:+ b) = str_len a + str_len b.
Proof. unfold str_len. rewrite string_length_app. lia. Qed.

Lemma str_len_cons c s : str_len (String c s) = 1 + str_len s.
Proof. unfold str_len. cbn [String.length]. lia. Qed.

Lemma str_len_nonneg s : 0 <= str_len s.
Proof. unfold str_len. lia. Qed.

Lemma str_len_zero s : str_len s = 0 → s = EmptyString.
Proof. destruct s; [done|]. rewrite str_len_cons. pose proof (str_len_nonneg s). lia. Qed.

#[export] Hint Rewrite string_app_cons string_app_nil_l string_app_nil_r
  str_len_app str_len_cons : gostr.
#[export] Hint Resolve str_len_nonneg : gostr.

Lemma str_take_drop n s : str_take n s +:+ str_drop n s = s.
Proof.
  revert s. induction n as [|n IH]; intros [|c s]; cbn; try done.
  rewrite string_app_cons. by rewrite IH.
Qed.

Lemma str_take_length n s : (n <= String.length s)%nat → String.length (str_take n s) = n.
Proof.
  revert s. induction n as [|n IH]; intros [|c s] H; cbn in *; try lia.
  rewrite IH; lia.
Qed.

Lemma str_take_all n s : (String.length s <= n)%nat → str_take n s = s.
Proof.
  revert s. induction n as [|n IH]; intros [|c s] H; cbn in *; try done; try lia.
  rewrite IH; [done | lia].
Qed.

Lemma str_drop_length n s :
  String.length (str_drop n s) = (String.length s - n)%nat.
Proof. revert s. induction n as [|n IH]; intros [|c s]; cbn; done. Qed.

Lemma str_take_len n s : 0 <= n <= str_len s → str_len (str_take (Z.to_nat n) s) = n.
Proof. unfold str_len. intros H. rewrite str_take_length; lia. Qed.

Lemma str_forall_app P a b : str_forall P (a +:+ b) = str_forall P a && str_forall P b.
Proof.
  induction a as [|c a IH]; [done|]. rewrite string_app_cons. cbn. rewrite IH.
  by rewrite andb_assoc.
Qed.

Lemma str_contains_app c a b :
  str_contains c (a +:+ b) = str_contains c a || str_contains c b.
Proof.
  induction a as [|d a IH]; [done|]. rewrite string_app_cons. cbn. rewrite IH.
  by rewrite orb_assoc.
Qed.

Lemma replace_char_app old new a b :
  replace_char old new (a +:+ b) = replace_char old new a +:+ replace_char old new b.
Proof.
  induction a as [|c a IH]; [done|]. rewrite string_app_cons. cbn.
  case_decide; rewrite IH; [by rewrite string_app_assoc | done].
Qed.

Lemma split_once_none sep s : split_once sep s = None ↔ str_contains sep s = false.
Proof.
  induction s as [|c s IH]; cbn; [done|].
  case_decide; subst; cbn.
  - rewrite bool_decide_true by done. done.
  - rewrite bool_decide_false by congruence. cbn. rewrite <- IH.
    by destruct (split_once sep s).
Qed.

Lemma split_once_app sep a b :
  str_contains sep a = false → split_once sep (a +:+ String sep b) = Some (a, b).
Proof.
  induction a as [|c a IH]; cbn; intros H.
  - rewrite string_app_nil_l. cbn. by rewrite decide_True.
  - apply orb_false_iff in H as [Hc Ha].
    apply bool_decide_eq_false in Hc. rewrite string_app_cons. cbn.
    rewrite decide_False by congruence. by rewrite IH.
Qed.

Lemma split_once_some sep s a b :
  split_once sep s = Some (a, b) →
  s = a +:+ String sep b ∧ str_contains sep a = false.
Proof.
  revert a. induction s as [|c s IH]; intros a; cbn; [done|].
  case_decide; subst.
  - by intros [= <- <-].
  - destruct (split_once sep s) as [[x y]|]; cbn; [|done].
    intros [= <- <-]. destruct (IH x) as [-> Hx]; [done|].
    split; [done|]. cbn. rewrite Hx. by rewrite bool_decide_false by congruence.
Qed.

Lemma join_length_cons sep s t l :
  str_len (join sep (s :: t :: l)) = str_len s + str_len sep + str_len (join sep (t :: l)).
Proof. cbn [join]. rewrite !str_len_app. lia. Qed.

(** ** Hexadecimal *)

Lemma hex_fixed_length n z : String.length (hex_fixed n z) = n.
Proof. induction n as [|n IH]; [done|]. cbn. by rewrite IH. Qed.

Lemma hex_encode_length bs : String.length (hex_encode bs) = (2 * length bs)%nat.
Proof.
  induction bs as [|b bs IH]; [done|]. cbn [hex_encode length].
  rewrite string_length_app, hex_fixed_length, IH. lia.
Qed.

Lemma hex_digit_zero d : 0 <= d < 16 → hex_digit d = "0"%char → d = 0.
Proof.
  intros Hd. assert (d = 0 ∨ 1 <= d < 16) as [->|H] by lia; [done|].
  intros E. exfalso. unfold hex_digit in E.
  apply (f_equal N_of_ascii) in E.
  replace (N_of_ascii "0") with 48%N in E by reflexivity.
  rewrite N_ascii_embedding in E; revert E; destruct (Z.ltb_spec d 10); lia.
Qed.

Lemma strip_zeros_length_le s : (String.length (strip_zeros s) <= String.length s)%nat.
Proof.
  induction s as [|c s IH]; [done|]. destruct s as [|d s]; [done|].
  change (strip_zeros (String c (String d s)))
    with (if decide (c = "0"%char) then strip_zeros (String d s) else String c (String d s)).
  case_decide; cbn [String.length] in *; lia.
Qed.

Lemma strip_zeros_keep c s : c ≠ "0"%char → strip_zeros (String c s) = String c s.
Proof. intros H. destruct s; cbn; [done|]. by rewrite decide_False. Qed.

Lemma format_x32_length z :
  0 <= z < 2 ^ 32 → (String.length (format_x32 z) = 8)%nat ↔ 2 ^ 28 <= z.
Proof.
  intros Hz. unfold format_x32.
  assert (0 <= (z / 16 ^ 7) mod 16 < 16) as Hd by (apply Z.mod_pos_bound; lia).
  assert ((z / 16 ^ 7) mod 16 = z / 2 ^ 28) as Ed.
  { change (16 ^ 7) with (2 ^ 28). apply Z.mod_small. split.
    - apply Z.div_pos; lia.
    - apply Z.div_lt_upper_bound; lia. }
  assert (2 ^ 28 <= z ↔ 1 <= z / 2 ^ 28) as ->.
  { split; intros H.
    - apply Z.div_le_lower_bound; lia.
    - pose proof (Z.mul_div_le z (2 ^ 28)). lia. }
  rewrite <- Ed. clear Ed.
  change (hex_fixed 8 z) with (String (hex_digit ((z / 16 ^ 7) mod 16)) (hex_fixed 7 z)).
  destruct (decide (hex_digit ((z / 16 ^ 7) mod 16) = "0"%char)) as [E|E].
  - apply hex_digit_zero in E as E0; [|lia]. rewrite E. rewrite E0.
    split; [|lia]. intros L. exfalso.
    assert (String.length (hex_fixed 7 z) = 7%nat) as L7 by apply hex_fixed_length.
    destruct (hex_fixed 7 z) as [|c s] eqn:Es; [done|].
    cbn [strip_zeros] in L. rewrite decide_True in L by done.
    pose proof (strip_zeros_length_le (String c s)). cbn in *. lia.
  - rewrite strip_zeros_keep by done. cbn [String.length]. rewrite hex_fixed_length.
    split; [|done]. intros _.
    destruct (Z.eq_dec ((z / 16 ^ 7) mod 16) 0) as [E0|]; [|lia].
    by rewrite E0 in E.
Qed.

(** ** The order of sort.Strings: bytewise lexicographic *)

Definition str_le (a b : string) : Prop := String.leb a b = true.

#[global] Instance str_le_dec : RelDecision str_le.
Proof. intros a b. unfold str_le. apply _. Defined.

Lemma ascii_compare_lt a b : Ascii.compare a b = Lt ↔ (N_of_ascii a < N_of_ascii b)%N.
Proof. unfold Ascii.compare. apply N.compare_lt_iff. Qed.

Lemma ascii_compare_eq a b : Ascii.compare a b = Eq ↔ a = b.
Proof.
  unfold Ascii.compare. rewrite N.compare_eq_iff. split; [|by intros ->].
  intros H. by rewrite <- (ascii_N_embedding a), H, ascii_N_embedding.
Qed.

Lemma str_le_cons a x b y :
  str_le (String a x) (String b y) ↔ (N_of_ascii a < N_of_ascii b)%N ∨ a = b ∧ str_le x y.
Proof.
  unfold str_le, String.leb. cbn. rewrite <- ascii_compare_lt, <- ascii_compare_eq.
  destruct (Ascii.compare a b); split; intros H; auto; try done.
  all: by destruct H as [|[]].
Qed.

#[global] Instance str_le_preorder : PreOrder str_le.
Proof.
  split.
  - intros a. induction a as [|c a IH]; [done|]. rewrite str_le_cons. by right.
  - intros a. induction a as [|c a IH]; intros b d; [by destruct d|].
    destruct b as [|e b]; [done|]. destruct d as [|f d]; [done|].
    rewrite !str_le_cons. intros [?|[-> ?]] [?|[-> ?]]; try (left; lia).
    right. split; [done|]. by apply (IH b).
Qed.

#[global] Instance str_le_total : Total str_le.
Proof. intros a b. apply String.leb_total. Qed.

#[global] Instance str_le_antisymm : AntiSymm (=) str_le.
Proof. intros a b. apply String.leb_antisym. Qed.

(** sort.Strings. *)
Definition sort_strings (l : list string) : list string := merge_sort str_le l.

Lemma sort_strings_sorted l : Sorted str_le (sort_strings l).
Proof. apply Sorted_merge_sort. apply _. Qed.

Lemma sort_strings_perm l : sort_strings l ≡ₚ l.
Proof. apply merge_sort_Permutation. Qed.

(** Sorting forgets the order of its argument: what a range over a map
    collected is sorted to the same slice whatever the iteration order. *)
#[global] Instance sort_strings_proper : Proper ((≡ₚ) ==> (=)) sort_strings.
Proof.
  intros l k E. apply (Sorted_unique str_le).
  - apply sort_strings_sorted.
  - apply sort_strings_sorted.
  - by rewrite !sort_strings_perm.
Qed.

Lemma sort_strings_id l : Sorted str_le l → sort_strings l = l.
Proof.
  intros H. apply (Sorted_unique str_le); [apply sort_strings_sorted | done |].
  apply sort_strings_perm.
Qed.

(** The last element of a sorted list is its maximum. *)
Lemma sorted_last_max l x :
  Sorted str_le l → last l = Some x → Forall (λ y, str_le y x) l.
Proof.
  intros Hs%Sorted_StronglySorted; [|apply _]. revert x.
  induction Hs as [|a l Hs IH Ha]; [done|]. intros x Hx.
  destruct l as [|b l].
  - injection Hx as ->. by repeat constructor.
  - constructor; [|by apply IH].
    rewrite last_cons_cons in Hx.
    eapply Forall_forall; [exact Ha|]. apply last_Some_elem_of. done.
Qed.

(** ** strconv.Quote (the %q verb)

    Printable ASCII is kept, the named escapes and control bytes are written
    as Go writes them; bytes above 127 are kept, as Go does for the bytes of a
    printable UTF-8 rune. *)
Definition quote_byte (c : ascii) : string :=
  let n := Z.of_N (N_of_ascii c) in
  let bs := String "092" in
  if n =? 34 then bs dquote
  else if n =? 92 then bs (String "092" EmptyString)
  else if n =? 7 then bs "a"
  else if n =? 8 then bs "b"
  else if n =? 12 then bs "f"
  else if n =? 10 then bs "n"
  else if n =? 13 then bs "r"
  else if n =? 9 then bs "t"
  else if n =? 11 then bs "v"
  else if (n <? 32) || (n =? 127) then bs ("x" +:+ hex_fixed 2 n)
  else String c EmptyString.

Fixpoint quote_bytes (s : string) : string :=
  match s with
  | EmptyString => EmptyString
  | String c s => quote_byte c +:+ quote_bytes s
  end.

Definition quote (s : string) : string := dquote +:+ quote_bytes s +:+ dquote.

(** ** Lists *)

Lemma last_app_snoc {A} (l : list A) x : last (l ++ [x]) = Some x.
Proof. apply last_snoc. Qed.

Lemma sum_list_perm (l k : list nat) : l ≡ₚ k → sum_list l = sum_list k.
Proof. induction 1; cbn; lia. Qed.

(** [list_foldl_insert]: writing the pairs of a list with distinct keys into
    a map gives the left-biased union, in whatever order they are written. *)
Definition write_all {V} (l : list (string * V)) (m : gmap string V) : gmap string V :=
  foldl (λ r kv, <[kv.1 := kv.2]> r) m l.

Lemma write_all_cons {V} k (v : V) l m :
  write_all ((k, v) :: l) m = write_all l (<[k := v]> m).
Proof. done. Qed.

Lemma write_all_app {V} (l k : list (string * V)) m :
  write_all (l ++ k) m = write_all k (write_all l m).
Proof. unfold write_all. apply foldl_app. Qed.

Lemma write_all_lookup_notin {V} (l : list (string * V)) m k :
  k ∉ l.*1 → write_all l m !! k = m !! k.
Proof.
  revert m. induction l as [|[a v] l IH]; intros m H; [done|].
  cbn in H. apply not_elem_of_cons in H as [Ha Hl].
  rewrite write_all_cons, IH by done. by rewrite lookup_insert_ne.
Qed.

Lemma write_all_union {V} (l : list (string * V)) m :
  NoDup l.*1 → write_all l m = list_to_map l ∪ m.
Proof.
  revert m. induction l as [|[a v] l IH]; intros m H.
  - cbn. by rewrite (left_id_L ∅ (∪)).
  - apply NoDup_cons in H as [Ha Hl]. rewrite write_all_cons, IH by done. cbn.
    rewrite <- insert_union_l. rewrite <- insert_union_r; [done|].
    by apply not_elem_of_list_to_map_1.
Qed.

Lemma write_all_map {V} (l : list (string * V)) (x m : gmap string V) :
  l ≡ₚ map_to_list x → write_all l m = x ∪ m.
Proof.
  intros E.
  assert (NoDup l.*1) as Hnd by (rewrite E; apply NoDup_fst_map_to_list).
  rewrite write_all_union by done. f_equal.
  rewrite <- (list_to_map_to_list x). by apply list_to_map_proper.
Qed.
