(* ===== verification/GoErrors.v ===== *)
(** * Go error values

    The errors the operator creates, wraps, prints and tests.  The error types
    of internal/registry/client.go and the sentinel of internal/values/fetch.go
    are constructors; an error value of a package outside the repository is a
    [Foreign] value (its text, an opaque identity, and what its Unwrap method
    returns). *)
From S2P Require Import Prelude.

(** The dynamic values an [error] interface holds. *)
Inductive error :=
| ErrorString (msg : string)
| WrapError (prefix : string) (err : error)
| ErrNotFound
| NotModifiedError
| NetworkError (Err : error)
| AuthError (Err : error)
| NotFoundError (Err : error)
| Foreign (id : Z) (msg : string)
| ForeignWrap (id : Z) (msg : string) (err : error).

#[global] Instance error_eq_dec : EqDecision error.
Proof. solve_decision. Defined.

(** The result of a Go function returning (A, error). *)
Inductive result (A : Type) :=
| Ok (a : A)
| Err (e : error).
Arguments Ok {A} a.
Arguments Err {A} e.

(** The Error method of each value. *)
Fixpoint Error (e : error) : string :=
  match e with
  | ErrorString msg => msg
  | WrapError prefix err => prefix +:+ ": " +:+ Error err
  | ErrNotFound => "resource not found"
  | NotModifiedError => "registry returned 304 Not Modified (cached response is valid)"
  | NetworkError err => "network error: " +:+ Error err
  | AuthError err => "authentication error: " +:+ Error err
  | NotFoundError err => "repository not found: " +:+ Error err
  | Foreign _ msg => msg
  | ForeignWrap _ msg _ => msg
  end.

(** The Unwrap method, where the value has one. *)
Definition Unwrap (e : error) : option error :=
  match e with
  | WrapError _ err | NetworkError err | AuthError err | NotFoundError err
  | ForeignWrap _ _ err => Some err
  | _ => None
  end.

(** The chain errors.Is and errors.As walk: the value, then what its Unwrap
    method returns, and so on. *)
Fixpoint chain (e : error) : list error :=
  e :: match e with
       | WrapError _ err | NetworkError err | AuthError err | NotFoundError err
       | ForeignWrap _ _ err => chain err
       | _ => []
       end.

Lemma chain_unwrap e :
  chain e = e :: match Unwrap e with Some err => chain err | None => [] end.
Proof. by destruct e. Qed.

Definition is_not_modified (e : error) : bool :=
  match e with NotModifiedError => true | _ => false end.

(** errors.As(err, &notModified) with notModified a *NotModifiedError. *)
Definition As_NotModified (e : error) : bool := existsb is_not_modified (chain e).

(** errors.Is(err, ErrNotFound). *)
Definition Is_ErrNotFound (e : error) : bool :=
  existsb (λ x, bool_decide (x = ErrNotFound)) (chain e).

Lemma As_NotModified_wrap p e : As_NotModified (WrapError p e) = As_NotModified e.
Proof. done. Qed.

Lemma Is_ErrNotFound_wrap p e : Is_ErrNotFound (WrapError p e) = Is_ErrNotFound e.
Proof. done. Qed.
