(* ===== verification/Prog.v ===== *)
(** * Effectful programs

    A Go function that talks to its environment (the Kubernetes API server, the
    OCI registry, the clock, the random generators) is a finite tree of calls:
    a node names the call and its arguments, its branches are indexed by the
    answers.  Nothing is assumed of the environment: a property of [exec] holds
    for every answer it could give, errors included.  Documented behaviour of
    the environment is stated as a condition on the events of the trace. *)
From S2P Require Import Prelude.

(** The calls a program makes and the type of the answer to each. *)
Class Sig := {
  call : Type;
  ans : call → Type;
}.

Section Prog.
Context `{Sig}.

Inductive prog (A : Type) : Type :=
| Ret (a : A)
| Panic (msg : string)
| Do (c : call) (k : ans c → prog A).
Arguments Ret {A} a.
Arguments Panic {A} msg.
Arguments Do {A} c k.

(** One call, its answer returned. *)
Definition perform (c : call) : prog (ans c) := Do c Ret.

#[global] Instance prog_ret : MRet prog := @Ret.
#[global] Instance prog_bind : MBind prog :=
  λ A B f, fix go (p : prog A) : prog B :=
    match p with
    | Ret a => f a
    | Panic msg => Panic msg
    | Do c k => Do c (λ a, go (k a))
    end.

(** ** Executions *)

(** A call with the answer it got. *)
Record event := Ev { ev_call : call; ev_ans : ans ev_call }.

Inductive outcome (A : Type) :=
| Done (a : A)
| Panicked (msg : string).
Arguments Done {A} a.
Arguments Panicked {A} msg.

(** [exec p t o]: with the answers of the trace [t], in order, [p] ends in [o]. *)
Inductive exec {A} : prog A → list event → outcome A → Prop :=
| exec_ret a : exec (Ret a) [] (Done a)
| exec_panic msg : exec (Panic msg) [] (Panicked msg)
| exec_do c k a t o : exec (k a) t o → exec (Do c k) (Ev c a :: t) o.

Lemma exec_ret_inv {A} (a : A) t o : exec (Ret a) t o → t = [] ∧ o = Done a.
Proof. by inversion 1. Qed.

Lemma exec_do_inv {A} c (k : ans c → prog A) t o :
  exec (Do c k) t o → ∃ a t', t = Ev c a :: t' ∧ exec (k a) t' o.
Proof.
  intros He. exact (match He in exec p t o return
    match p with Do c k => ∃ a t', t = Ev c a :: t' ∧ exec (k a) t' o | _ => True end
  with exec_do _ _ _ _ _ Hk => ex_intro _ _ (ex_intro _ _ (conj eq_refl Hk)) | _ => I end).
Qed.

(** The executable form: an environment with a state answers each call. *)
Fixpoint run {W A} (h : W → ∀ c, ans c * W) (w : W) (p : prog A)
    : list event * outcome A * W :=
  match p with
  | Ret a => ([], Done a, w)
  | Panic msg => ([], Panicked msg, w)
  | Do c k =>
      let '(a, w) := h w c in
      let '(t, o, w) := run h w (k a) in
      (Ev c a :: t, o, w)
  end.

Lemma run_exec {W A} (h : W → ∀ c, ans c * W) (p : prog A) w t o w' :
  run h w p = (t, o, w') → exec p t o.
Proof.
  revert w t. induction p as [a|msg|c k IH]; intros w t; cbn.
  - intros [= <- <- _]. constructor.
  - intros [= <- <- _]. constructor.
  - destruct (h w c) as [a w1]. destruct (run h w1 (k a)) as [[t1 o1] w2] eqn:E.
    intros [= <- <- <-]. constructor. by eapply IH.
Qed.

(** The run of a program in an environment without state. *)
Definition answered {A} (f : ∀ c, ans c) (p : prog A) : list event * outcome A :=
  (run (λ (_ : unit) c, (f c, tt)) tt p).1.

Lemma answered_exec {A} f (p : prog A) : exec p (answered f p).1 (answered f p).2.
Proof.
  unfold answered. destruct (run _ tt p) as [[t o] w] eqn:E. cbn. by eapply run_exec.
Qed.

Lemma answered_legal {A} f (p : prog A) (legal : event → Prop) :
  (∀ c, legal (Ev c (f c))) → Forall legal (answered f p).1.
Proof.
  intros Hf. unfold answered. induction p as [a|msg|c k IH]; cbn; [constructor..|].
  specialize (IH (f c)). destruct (run _ tt (k (f c))) as [[t o] w]. by constructor.
Qed.

(** ** A weakest-precondition calculus over executions

    [wp legal p Q]: every execution of [p] whose answers are [legal] ends with a
    trace and an outcome satisfying [Q]. *)

Fixpoint wp {A} (legal : event → Prop) (p : prog A)
    (Q : list event → outcome A → Prop) : Prop :=
  match p with
  | Ret a => Q [] (Done a)
  | Panic msg => Q [] (Panicked msg)
  | Do c k => ∀ a, legal (Ev c a) → wp legal (k a) (λ t o, Q (Ev c a :: t) o)
  end.

(** The unconstrained environment. *)
Definition any (e : event) : Prop := True.

Lemma wp_exec {A} legal (p : prog A) Q t o :
  wp legal p Q → exec p t o → Forall legal t → Q t o.
Proof.
  intros Hw He. revert Q Hw. induction He as [a|msg|c k a t o He IH]; intros Q Hw Ht.
  - exact Hw.
  - exact Hw.
  - inversion Ht as [|? ? He0 Ht0]; subst.
    exact (IH (λ t o, Q (Ev c a :: t) o) (Hw a He0) Ht0).
Qed.

Lemma Forall_any t : Forall any t.
Proof. induction t; constructor; done. Qed.

Lemma wp_any {A} (p : prog A) Q t o : wp any p Q → exec p t o → Q t o.
Proof. intros Hw He. eapply wp_exec; [exact Hw | exact He | apply Forall_any]. Qed.

Lemma exec_wp {A} legal (p : prog A) Q :
  (∀ t o, exec p t o → Forall legal t → Q t o) → wp legal p Q.
Proof.
  revert Q. induction p as [a|msg|c k IH]; intros Q HQ; cbn.
  - apply HQ; constructor.
  - apply HQ; constructor.
  - intros a Ha. apply IH. intros t o He Ht. apply HQ; constructor; done.
Qed.

Lemma wp_mono {A} legal (p : prog A) (Q R : list event → outcome A → Prop) :
  wp legal p Q → (∀ t o, Q t o → R t o) → wp legal p R.
Proof.
  revert Q R. induction p as [a|msg|c k IH]; cbn; intros Q R Hw HQR.
  - by apply HQR.
  - by apply HQR.
  - intros a Ha. eapply IH; [by apply Hw|]. cbn. intros. by apply HQR.
Qed.

Lemma wp_legal_mono {A} (l1 l2 : event → Prop) (p : prog A) Q :
  (∀ e, l2 e → l1 e) → wp l1 p Q → wp l2 p Q.
Proof.
  intros Hl. revert Q. induction p as [a|msg|c k IH]; cbn; intros Q Hw; try done.
  intros a Ha. apply IH, Hw. by apply Hl.
Qed.

Lemma wp_conj {A} legal (p : prog A) (Q R : list event → outcome A → Prop) :
  wp legal p Q → wp legal p R → wp legal p (λ t o, Q t o ∧ R t o).
Proof.
  revert Q R. induction p as [a|msg|c k IH]; cbn; intros Q R HQ HR; try done.
  intros a Ha. by apply IH; [apply HQ | apply HR].
Qed.

(** What follows a sub-program, given how it ended. *)
Definition after {A B} legal (f : A → prog B) (Q : list event → outcome B → Prop)
    (t : list event) (o : outcome A) : Prop :=
  match o with
  | Done a => wp legal (f a) (λ t' o', Q (t ++ t') o')
  | Panicked msg => Q t (Panicked msg)
  end.

Lemma wp_bind {A B} legal (p : prog A) (f : A → prog B) Q :
  wp legal p (after legal f Q) → wp legal (p ≫= f) Q.
Proof.
  unfold mbind. revert Q. induction p as [a|msg|c k IH]; cbn; intros Q Hw.
  - exact Hw.
  - exact Hw.
  - intros a Ha. apply IH. eapply wp_mono; [by apply Hw|].
    intros t [b|msg]; done.
Qed.

(** The specification of a sub-program is used where it is called. *)
Lemma wp_call {A B} legal (p : prog A) (f : A → prog B) (R : list event → outcome A → Prop) Q :
  wp legal p R → (∀ t o, R t o → after legal f Q t o) → wp legal (p ≫= f) Q.
Proof. intros Hp HR. apply wp_bind. by eapply wp_mono. Qed.

Lemma exec_bind {A B} (p : prog A) (f : A → prog B) t a t' o :
  exec p t (Done a) → exec (f a) t' o → exec (p ≫= f) (t ++ t') o.
Proof.
  unfold mbind. intros He Hf. remember (Done a) as oa eqn:E.
  induction He as [b|msg|c k b t ob He IH]; cbn.
  - by injection E as ->.
  - done.
  - constructor. by apply IH.
Qed.

(** What is left of a program after the first calls of an execution. *)
Lemma exec_prefix {A} (p : prog A) t t' o :
  exec p (t ++ t') o → ∃ q : prog A, ∀ t2 o2, exec q t2 o2 → exec p (t ++ t2) o2.
Proof.
  revert p. induction t as [|e t IH]; intros p He; [by exists p|].
  inversion He as [| |c k a t0 o0 Hk]; subst. destruct (IH _ Hk) as [q Hq].
  exists q. intros t2 o2 H2. cbn. constructor. by apply Hq.
Qed.

(** The execution of a sub-program, as its own specification. *)
Lemma wp_self {A} legal (p : prog A) : wp legal p (λ t o, exec p t o).
Proof. by apply exec_wp. Qed.

(** Programs that do not panic, whatever they are answered. *)
Definition no_panic {A} (p : prog A) : Prop := wp any p (λ _ o, ∃ a, o = Done a).

Lemma no_panic_ret {A} (a : A) : no_panic (mret a).
Proof. by exists a. Qed.

Lemma no_panic_perform {B} c (f : ans c → prog B) :
  (∀ a, no_panic (f a)) → no_panic (perform c ≫= f).
Proof. intros Hf a _. apply Hf. Qed.

Lemma no_panic_bind {A B} (p : prog A) (f : A → prog B) :
  no_panic p → (∀ a, no_panic (f a)) → no_panic (p ≫= f).
Proof.
  intros Hp Hf. eapply wp_call; [exact Hp|]. intros t o [a ->]. apply Hf.
Qed.

(** Programs all of whose calls, with whatever answers, satisfy [P]. *)
Definition calls {A} (P : event → Prop) (p : prog A) : Prop := wp any p (λ t _, Forall P t).

Lemma calls_ret {A} P (a : A) : calls P (mret a).
Proof. exact (Forall_nil_2 P). Qed.

Lemma calls_panic {A} P msg : calls P (@Panic A msg).
Proof. exact (Forall_nil_2 P). Qed.

Lemma calls_perform {B} (P : event → Prop) c (f : ans c → prog B) :
  (∀ a, P (Ev c a)) → (∀ a, calls P (f a)) → calls P (perform c ≫= f).
Proof.
  intros HP Hf a _. eapply wp_mono; [apply Hf|]. cbn. intros t o Ht. by constructor.
Qed.

Lemma calls_bind {A B} (P : event → Prop) (p : prog A) (f : A → prog B) :
  calls P p → (∀ a, calls P (f a)) → calls P (p ≫= f).
Proof.
  intros Hp Hf. eapply wp_call; [exact Hp|]. intros t [a|m] Ht; cbn [after]; [|done].
  eapply wp_mono; [apply Hf|]. cbn. intros t' o Ht'. by apply Forall_app.
Qed.

Lemma calls_mono {A} (P Q : event → Prop) (p : prog A) :
  (∀ e, P e → Q e) → calls P p → calls Q p.
Proof.
  intros HPQ Hp. eapply wp_mono; [exact Hp|]. intros t o Ht. exact (Forall_impl _ _ _ Ht HPQ).
Qed.

Lemma calls_exec {A} (P : event → Prop) (p : prog A) t o : calls P p → exec p t o → Forall P t.
Proof. intros Hp He. exact (wp_any _ _ _ _ Hp He). Qed.

(** Events that carry nothing of interest contribute nothing. *)
Lemma omap_nothing {B} (f : event → option B) (P : event → Prop) t :
  (∀ e, P e → f e = None) → Forall P t → omap f t = [].
Proof.
  intros Hf. induction 1 as [|e t He Ht IH]; [done|]. cbn. by rewrite (Hf e He).
Qed.

(** Every execution ends: for every environment there is one. *)
Lemma exec_total {W A} (h : W → ∀ c, ans c * W) (w : W) (p : prog A) :
  ∃ t o, exec p t o.
Proof.
  destruct (run h w p) as [[t o] w'] eqn:E. exists t, o. by eapply run_exec.
Qed.

End Prog.

Arguments Ret {_ A} a.
Arguments Panic {_ A} msg.
Arguments Do {_ A} c k.
Arguments Done {A} a.
Arguments Panicked {A} msg.
Arguments Ev {_} ev_call ev_ans.

Create HintDb nopanic.
#[export] Hint Resolve no_panic_ret no_panic_perform no_panic_bind : nopanic.

(** Simplifies the binds of a program whose head is known. *)
Ltac prog_simpl := cbn [mbind prog_bind mret prog_ret wp perform after app].

(** Turns a goal about an execution into a weakest precondition: [by_wp] for the
    unconstrained environment, [by_wp_legal] when the trace is known to meet a
    condition. *)
Ltac by_wp He :=
  match type of He with
  | exec ?p ?t ?o => pattern t, o; refine (wp_any p _ t o _ He); cbv beta
  end.

Ltac by_wp_legal He Ht :=
  match type of He with
  | exec ?p ?t ?o => pattern t, o; refine (wp_exec _ p _ t o _ He Ht); cbv beta
  end.

(** One goal per event of a listed trace. *)
Ltac each_event := repeat first [apply Forall_nil_2 | apply Forall_cons_2].
