(* ===== verification/Api.v ===== *)
(** * The WerfBundle API (api/v1alpha1/werfbundle_types.go)

    The custom resource as the Go structs declare it, its constants, the
    validation markers of the CRD as decidable predicates, and
    ValidateCrossNamespaceDeployment. *)
From S2P Require Import Prelude GoErrors.

(** ** Constants *)

Definition PhaseSyncing : string := "Syncing".
Definition PhaseSynced : string := "Synced".
Definition PhaseFailed : string := "Failed".
Definition JobStatusRunning : string := "Running".
Definition JobStatusSucceeded : string := "Succeeded".
Definition JobStatusFailed : string := "Failed".

(** ** Metadata

    The fields of metav1.ObjectMeta the operator reads or writes, and the version
    the API server compares on every write. *)

Record OwnerReference := {
  owner_APIVersion : string;
  owner_Kind : string;
  owner_Name : string;
  owner_UID : string;
  owner_Controller : bool;
}.

Record ObjectMeta := {
  Name : string;
  Namespace : string;
  UID : string;
  ResourceVersion : string;
  Labels : gmap string string;
  Finalizers : list string;
  DeletionTimestamp : option Z;
  OwnerReferences : list OwnerReference;
}.

(** A types.NamespacedName. *)
Record NamespacedName := { key_Name : string; key_Namespace : string }.
#[export] Instance NamespacedName_eq_dec : EqDecision NamespacedName.
Proof. solve_decision. Defined.

Definition key_of (m : ObjectMeta) : NamespacedName :=
  {| key_Name := Name m; key_Namespace := Namespace m |}.

(** corev1.LocalObjectReference. *)
Record LocalObjectReference := { ref_Name : string }.

(** ** The resource *)

Record ResourceLimitsConfig := { CPU : string; Memory : string }.

Record ValuesSource := {
  ConfigMapRef : option LocalObjectReference;
  SecretRef : option LocalObjectReference;
  Optional : bool;
}.

Record RegistryConfig := {
  URL : string;
  Registry_SecretRef : option LocalObjectReference;
  PollInterval : string;
}.

Record ConvergeConfig := {
  ServiceAccountName : string;
  TargetNamespace : string;
  ResourceLimits : option ResourceLimitsConfig;
  LogRetentionDays : option Z;
  ValuesFrom : list ValuesSource;
}.

Record WerfBundleSpec := { Registry : RegistryConfig; Converge : ConvergeConfig }.

Record WerfBundleStatus := {
  Phase : string;
  LastAppliedTag : string;
  LastSyncTime : option Z;
  LastErrorMessage : string;
  LastETag : string;
  ConsecutiveFailures : Z;
  LastErrorTime : option Z;
  ActiveJobName : string;
  LastJobStatus : string;
  LastJobLogs : string;
  ResolvedTargetNamespace : string;
}.

Record WerfBundle := {
  Meta : ObjectMeta;
  Spec : WerfBundleSpec;
  Status : WerfBundleStatus;
}.

(** A bundle that has just been created has the zero status. *)
Definition zero_status : WerfBundleStatus :=
  {| Phase := EmptyString; LastAppliedTag := EmptyString; LastSyncTime := None;
     LastErrorMessage := EmptyString; LastETag := EmptyString; ConsecutiveFailures := 0;
     LastErrorTime := None; ActiveJobName := EmptyString; LastJobStatus := EmptyString;
     LastJobLogs := EmptyString; ResolvedTargetNamespace := EmptyString |}.

(** ** Assignments to fields

    Go assigns fields of the bundle in place; each assignment is a function on
    the record. *)

Definition set_Phase (x : string) (s : WerfBundleStatus) : WerfBundleStatus :=
  {| Phase := x; LastAppliedTag := LastAppliedTag s; LastSyncTime := LastSyncTime s;
     LastErrorMessage := LastErrorMessage s; LastETag := LastETag s;
     ConsecutiveFailures := ConsecutiveFailures s; LastErrorTime := LastErrorTime s;
     ActiveJobName := ActiveJobName s; LastJobStatus := LastJobStatus s; LastJobLogs
     := LastJobLogs s; ResolvedTargetNamespace := ResolvedTargetNamespace s |}.
Definition set_LastAppliedTag (x : string) (s : WerfBundleStatus) : WerfBundleStatus :=
  {| Phase := Phase s; LastAppliedTag := x; LastSyncTime := LastSyncTime s;
     LastErrorMessage := LastErrorMessage s; LastETag := LastETag s;
     ConsecutiveFailures := ConsecutiveFailures s; LastErrorTime := LastErrorTime s;
     ActiveJobName := ActiveJobName s; LastJobStatus := LastJobStatus s; LastJobLogs
     := LastJobLogs s; ResolvedTargetNamespace := ResolvedTargetNamespace s |}.
Definition set_LastSyncTime (x : option Z) (s : WerfBundleStatus) : WerfBundleStatus :=
  {| Phase := Phase s; LastAppliedTag := LastAppliedTag s; LastSyncTime := x;
     LastErrorMessage := LastErrorMessage s; LastETag := LastETag s;
     ConsecutiveFailures := ConsecutiveFailures s; LastErrorTime := LastErrorTime s;
     ActiveJobName := ActiveJobName s; LastJobStatus := LastJobStatus s; LastJobLogs
     := LastJobLogs s; ResolvedTargetNamespace := ResolvedTargetNamespace s |}.
Definition set_LastErrorMessage (x : string) (s : WerfBundleStatus) : WerfBundleStatus :=
  {| Phase := Phase s; LastAppliedTag := LastAppliedTag s; LastSyncTime :=
     LastSyncTime s; LastErrorMessage := x; LastETag := LastETag s;
     ConsecutiveFailures := ConsecutiveFailures s; LastErrorTime := LastErrorTime s;
     ActiveJobName := ActiveJobName s; LastJobStatus := LastJobStatus s; LastJobLogs
     := LastJobLogs s; ResolvedTargetNamespace := ResolvedTargetNamespace s |}.
Definition set_LastETag (x : string) (s : WerfBundleStatus) : WerfBundleStatus :=
  {| Phase := Phase s; LastAppliedTag := LastAppliedTag s; LastSyncTime :=
     LastSyncTime s; LastErrorMessage := LastErrorMessage s; LastETag := x;
     ConsecutiveFailures := ConsecutiveFailures s; LastErrorTime := LastErrorTime s;
     ActiveJobName := ActiveJobName s; LastJobStatus := LastJobStatus s; LastJobLogs
     := LastJobLogs s; ResolvedTargetNamespace := ResolvedTargetNamespace s |}.
Definition set_ConsecutiveFailures (x : Z) (s : WerfBundleStatus) : WerfBundleStatus :=
  {| Phase := Phase s; LastAppliedTag := LastAppliedTag s; LastSyncTime :=
     LastSyncTime s; LastErrorMessage := LastErrorMessage s; LastETag := LastETag s;
     ConsecutiveFailures := x; LastErrorTime := LastErrorTime s; ActiveJobName :=
     ActiveJobName s; LastJobStatus := LastJobStatus s; LastJobLogs := LastJobLogs s;
     ResolvedTargetNamespace := ResolvedTargetNamespace s |}.
Definition set_LastErrorTime (x : option Z) (s : WerfBundleStatus) : WerfBundleStatus :=
  {| Phase := Phase s; LastAppliedTag := LastAppliedTag s; LastSyncTime :=
     LastSyncTime s; LastErrorMessage := LastErrorMessage s; LastETag := LastETag s;
     ConsecutiveFailures := ConsecutiveFailures s; LastErrorTime := x; ActiveJobName
     := ActiveJobName s; LastJobStatus := LastJobStatus s; LastJobLogs := LastJobLogs
     s; ResolvedTargetNamespace := ResolvedTargetNamespace s |}.
Definition set_ActiveJobName (x : string) (s : WerfBundleStatus) : WerfBundleStatus :=
  {| Phase := Phase s; LastAppliedTag := LastAppliedTag s; LastSyncTime :=
     LastSyncTime s; LastErrorMessage := LastErrorMessage s; LastETag := LastETag s;
     ConsecutiveFailures := ConsecutiveFailures s; LastErrorTime := LastErrorTime s;
     ActiveJobName := x; LastJobStatus := LastJobStatus s; LastJobLogs := LastJobLogs
     s; ResolvedTargetNamespace := ResolvedTargetNamespace s |}.
Definition set_LastJobStatus (x : string) (s : WerfBundleStatus) : WerfBundleStatus :=
  {| Phase := Phase s; LastAppliedTag := LastAppliedTag s; LastSyncTime :=
     LastSyncTime s; LastErrorMessage := LastErrorMessage s; LastETag := LastETag s;
     ConsecutiveFailures := ConsecutiveFailures s; LastErrorTime := LastErrorTime s;
     ActiveJobName := ActiveJobName s; LastJobStatus := x; LastJobLogs := LastJobLogs
     s; ResolvedTargetNamespace := ResolvedTargetNamespace s |}.
Definition set_LastJobLogs (x : string) (s : WerfBundleStatus) : WerfBundleStatus :=
  {| Phase := Phase s; LastAppliedTag := LastAppliedTag s; LastSyncTime :=
     LastSyncTime s; LastErrorMessage := LastErrorMessage s; LastETag := LastETag s;
     ConsecutiveFailures := ConsecutiveFailures s; LastErrorTime := LastErrorTime s;
     ActiveJobName := ActiveJobName s; LastJobStatus := LastJobStatus s; LastJobLogs
     := x; ResolvedTargetNamespace := ResolvedTargetNamespace s |}.
Definition set_ResolvedTargetNamespace (x : string) (s : WerfBundleStatus) : WerfBundleStatus :=
  {| Phase := Phase s; LastAppliedTag := LastAppliedTag s; LastSyncTime :=
     LastSyncTime s; LastErrorMessage := LastErrorMessage s; LastETag := LastETag s;
     ConsecutiveFailures := ConsecutiveFailures s; LastErrorTime := LastErrorTime s;
     ActiveJobName := ActiveJobName s; LastJobStatus := LastJobStatus s; LastJobLogs
     := LastJobLogs s; ResolvedTargetNamespace := x |}.

Definition set_Status (s : WerfBundleStatus) (b : WerfBundle) : WerfBundle :=
  {| Meta := Meta b; Spec := Spec b; Status := s |}.

(** [bundle.Status.F = x] for the assignment [f] to the field F. *)
Definition on_Status (f : WerfBundleStatus → WerfBundleStatus) (b : WerfBundle) : WerfBundle :=
  set_Status (f (Status b)) b.

Definition set_Finalizers (l : list string) (b : WerfBundle) : WerfBundle :=
  {| Meta := {| Name := Name (Meta b); Namespace := Namespace (Meta b); UID := UID (Meta b);
                ResourceVersion := ResourceVersion (Meta b); Labels := Labels (Meta b); Finalizers := l;
                DeletionTimestamp := DeletionTimestamp (Meta b);
                OwnerReferences := OwnerReferences (Meta b) |};
     Spec := Spec b; Status := Status b |}.

(** ** The CRD's validation of the status

    The kubebuilder markers of WerfBundleStatus: the enumerations of phase and
    lastJobStatus (an empty field is omitted from the serialized object and is
    not validated) and the bounds of consecutiveFailures. *)

Definition phase_valid (p : string) : bool :=
  bool_decide (p ∈ [EmptyString; PhaseSyncing; PhaseSynced; PhaseFailed]).

Definition job_status_valid (p : string) : bool :=
  bool_decide (p ∈ [EmptyString; JobStatusSucceeded; JobStatusFailed; JobStatusRunning]).

Definition status_valid (s : WerfBundleStatus) : bool :=
  phase_valid (Phase s) && job_status_valid (LastJobStatus s)
  && (0 <=? ConsecutiveFailures s) && (ConsecutiveFailures s <=? 6).

(** ValuesSource's XValidation rule: exactly one of the references is set. *)
Definition source_valid (s : ValuesSource) : bool :=
  match ConfigMapRef s, SecretRef s with
  | Some _, None | None, Some _ => true
  | _, _ => false
  end.

(** ** ValidateCrossNamespaceDeployment *)

Definition ValidateCrossNamespaceDeployment (wb : WerfBundle) : option error :=
  let targetNs := TargetNamespace (Converge (Spec wb)) in
  let bundleNs := Namespace (Meta wb) in
  let saName := ServiceAccountName (Converge (Spec wb)) in
  if decide (targetNs = EmptyString) then None
  else if decide (targetNs = bundleNs) then None
  else if decide (saName = EmptyString) then
    Some (ErrorString ("serviceAccountName is required for cross-namespace deployment from "
                         +:+ bundleNs +:+ " to " +:+ targetNs))
  else None.

(** internal/values/helpers.go: the namespace a bundle deploys to. *)
Definition GetTargetNamespace (convergeConfig : ConvergeConfig) (bundleNamespace : string) : string :=
  if decide (TargetNamespace convergeConfig = EmptyString) then bundleNamespace
  else TargetNamespace convergeConfig.

(** The target namespace of a bundle, as the controller computes it. *)
Definition target_of (b : WerfBundle) : string :=
  GetTargetNamespace (Converge (Spec b)) (Namespace (Meta b)).

(** A deployment into another namespace than the bundle's. *)
Definition cross_namespace (b : WerfBundle) : Prop := target_of b ≠ Namespace (Meta b).

#[global] Instance cross_namespace_dec b : Decision (cross_namespace b).
Proof. unfold cross_namespace. apply _. Defined.

(** ** Properties *)

(** Validation rejects exactly the deployments into another namespace that name
    no service account, and the message names both namespaces. *)
Lemma validate_cross_namespace_none wb :
  ValidateCrossNamespaceDeployment wb = None ↔
  (cross_namespace wb → ServiceAccountName (Converge (Spec wb)) ≠ EmptyString).
Proof.
  unfold ValidateCrossNamespaceDeployment, cross_namespace, target_of, GetTargetNamespace.
  repeat case_decide; naive_solver.
Qed.
