(* ===== verification/Kube.v ===== *)
(** * The environment of the operator

    What the operator uses of Kubernetes' client libraries, and the calls it
    makes to the world outside the process.  The library functions are code
    outside the repository: they are the parameters of the class [Machinery].
    The calls to the API server, to the pod log endpoint, to the registry's HTTP
    server, to the clock and to the random generators are the constructors of
    [kcall]; a Go range statement over a map, whose order the language leaves
    open, is a call too. *)
From S2P Require Import Prelude GoErrors Prog Api.

(** ** Objects *)

Record ConfigMap := {
  cm_Meta : ObjectMeta;
  cm_Data : gmap string string;
}.

(** Secret.Data maps a key to bytes. *)
Record Secret := {
  secret_Meta : ObjectMeta;
  secret_Data : gmap string (list Byte.byte);
}.

Record PodContainer := { pc_Name : string }.
Record Pod := { pod_Meta : ObjectMeta; pod_Containers : list PodContainer }.

Record GroupVersionKind := { gvk_Group : string; gvk_Version : string; gvk_Kind : string }.

(** ** The libraries *)

(** k8s.io/apimachinery and controller-runtime, as far as the operator calls
    them: tests on API errors, quantities, schemes, finalizers and controller
    references. *)
Class Machinery := {
  IsNotFound : error → bool;
  IsAlreadyExists : error → bool;
  Quantity : Type;
  ParseQuantity : string → result Quantity;
  Scheme : Type;
  ObjectKinds : Scheme → WerfBundle → result (list GroupVersionKind);
  GroupVersion_String : GroupVersionKind → string;
  ContainsFinalizer : WerfBundle → string → bool;
  AddFinalizer : WerfBundle → string → WerfBundle;
  RemoveFinalizer : WerfBundle → string → WerfBundle;
  SetControllerReference : WerfBundle → ConfigMap → option Scheme → result ConfigMap;
}.

(** ** Jobs (batch/v1, the fields the operator reads or writes) *)

Section Jobs.
Context `{Machinery}.

Record Container := {
  c_Name : string;
  c_Image : string;
  c_Args : list string;
  c_Requests : gmap string Quantity;
  c_Limits : gmap string Quantity;
}.

Record PodSpec := {
  RestartPolicy : string;
  ps_ServiceAccountName : string;
  Containers : list Container;
}.

Record JobSpec := {
  BackoffLimit : option Z;
  TTLSecondsAfterFinished : option Z;
  Template_Labels : gmap string string;
  Template_Spec : PodSpec;
}.

Record JobStatus := { Succeeded : Z; Failed : Z }.

Record Job := {
  job_Meta : ObjectMeta;
  job_Spec : JobSpec;
  job_Status : JobStatus;
}.

(** ** HTTP messages (net/http, as far as the registry transport uses them) *)

(** Header maps a canonical key to its values. *)
Record Request := { req_URL : string; req_Header : gmap string (list string) }.
Record Response := { StatusCode : Z; resp_Header : gmap string (list string); Body : string }.

(** ** Calls *)

Inductive kcall :=
| GetBundle (key : NamespacedName)
| UpdateBundle (b : WerfBundle)
| StatusUpdate (b : WerfBundle)
| GetServiceAccount (key : NamespacedName)
| GetJob (key : NamespacedName)
| CreateJob (j : Job)
| GetConfigMap (key : NamespacedName)
| CreateConfigMap (cm : ConfigMap)
| UpdateConfigMap (cm : ConfigMap)
| GetSecret (key : NamespacedName)
| ListPods (namespace : string) (labels : gmap string string)
| StreamLogs (namespace pod container : string) (tailLines : Z)
| ReadStream (namespace pod container : string)
| CloseStream (namespace pod container : string)
| HttpRoundTrip (req : Request)
| YamlUnmarshal (doc : string)
| RangeStrings (m : gmap string string)
| TimeNow
| RandIntn (n : Z)
| CryptoRead (n : Z).

End Jobs.

(** ** Decoded YAML

    The dynamic values the interface{} of yaml.Unmarshal holds.  The pairs of a
    map are listed in the order in which the one range statement over that map
    visits them; [YOther] stands for a value of any other type, with its %v
    rendering.  A float64 is an IEEE 754 double. *)
From Stdlib Require Import Floats.SpecFloat.

Inductive yval :=
| YMap (kvs : list (string * yval))
| YSeq (l : list yval)
| YString (s : string)
| YInt (z : Z)
| YInt64 (z : Z)
| YFloat64 (f : spec_float)
| YBool (b : bool)
| YNil
| YOther (rendered : string).

(** ** Answers *)

Definition kans `{Machinery} (c : kcall) : Type :=
  match c with
  | GetBundle _ | UpdateBundle _ | StatusUpdate _ => result WerfBundle
  | GetServiceAccount _ => result unit
  | GetJob _ | CreateJob _ => result Job
  | GetConfigMap _ | CreateConfigMap _ | UpdateConfigMap _ => result ConfigMap
  | GetSecret _ => result Secret
  | ListPods _ _ => result (list Pod)
  | StreamLogs _ _ _ _ => result unit
  | ReadStream _ _ _ => result string
  | CloseStream _ _ _ => option error
  | HttpRoundTrip _ => result Response
  | YamlUnmarshal _ => result yval
  | RangeStrings _ => list (string * string)
  | TimeNow => Z
  | RandIntn _ => Z
  | CryptoRead _ => result (list Z)
  end.

#[export] Instance kube_sig `{Machinery} : Sig := { call := kcall; ans := kans }.

(** The answers the Go language and its standard library guarantee: a range
    visits each pair of the map once, rand.Intn(n) is in [0, n), rand.Read fills
    the slice with bytes. *)
Definition go_ok `{Machinery} (e : event) : Prop :=
  match e with
  | Ev (RangeStrings m) l => l ≡ₚ map_to_list m
  | Ev (RandIntn n) r => 0 < n → 0 <= r < n
  | Ev (CryptoRead n) (Ok bs) => Z.of_nat (length bs) = n ∧ Forall (λ b, 0 <= b < 256) bs
  | _ => True
  end.
