(* ===== verification/Duration.v ===== *)
(** * time.ParseDuration

    The controller parses spec.registry.pollInterval with time.ParseDuration;
    this file follows the standard library's function, uint64 wrap-around and
    the double arithmetic of fractions included, and shows what it computes on
    the strings the CRD accepts for that field. *)
From S2P Require Import Prelude GoErrors.
From Stdlib Require Import Floats.SpecFloat.

(** ** Durations in nanoseconds *)

Definition Nanosecond : Z := 1.
Definition Microsecond : Z := 1000 * Nanosecond.
Definition Millisecond : Z := 1000 * Microsecond.
Definition Second : Z := 1000 * Millisecond.
Definition Minute : Z := 60 * Second.
Definition Hour : Z := 60 * Minute.

(** ** The parser *)

(** "µs" with U+00B5 and with U+03BC. *)
Definition micro1 : string := String "194" (String "181" "s").
Definition micro2 : string := String "206" (String "188" "s").

(** unitMap. *)
Definition unitMap (u : string) : option Z :=
  if decide (u = "ns") then Some Nanosecond
  else if decide (u = "us") then Some Microsecond
  else if decide (u = micro1) then Some Microsecond
  else if decide (u = micro2) then Some Microsecond
  else if decide (u = "ms") then Some Millisecond
  else if decide (u = "s") then Some Second
  else if decide (u = "m") then Some Minute
  else if decide (u = "h") then Some Hour
  else None.

Definition is_digit (c : ascii) : bool :=
  (48 <=? Z.of_N (N_of_ascii c)) && (Z.of_N (N_of_ascii c) <=? 57).
Definition digit_val (c : ascii) : Z := Z.of_N (N_of_ascii c) - 48.

(** leadingInt: [None] is errLeadingInt (overflow). *)
Fixpoint leadingInt (x : Z) (s : string) : option (Z * string) :=
  match s with
  | String c s' =>
      if is_digit c then
        if x >? 2 ^ 63 / 10 then None
        else
          let x := wrap_u 64 (x * 10 + digit_val c) in
          if x >? 2 ^ 63 then None else leadingInt x s'
      else Some (x, s)
  | EmptyString => Some (x, s)
  end.

(** leadingFraction: the digits, the power of ten that scales them, the rest. *)
Fixpoint leadingFraction (x scale : Z) (overflow : bool) (s : string) : Z * Z * string :=
  match s with
  | String c s' =>
      if is_digit c then
        if overflow then leadingFraction x scale true s'
        else if x >? (2 ^ 63 - 1) / 10 then leadingFraction x scale true s'
        else
          let y := wrap_u 64 (x * 10 + digit_val c) in
          if y >? 2 ^ 63 then leadingFraction x scale true s'
          else leadingFraction y (scale * 10) false s'
      else (x, scale, s)
  | EmptyString => (x, scale, s)
  end.

(** float64(z) and uint64(f) for the non-negative values at hand. *)
Definition float64_of (z : Z) : spec_float := binary_normalize 53 1024 z 0 false.
Definition trunc64 (f : spec_float) : Z :=
  match f with
  | S754_finite false m e =>
      if 0 <=? e then Z.pos m * 2 ^ e else Z.pos m / 2 ^ (- e)
  | _ => 0
  end.

(** uint64(float64(f) * (float64(unit) / scale)). *)
Definition fraction_part (f unit scale : Z) : Z :=
  trunc64 (SFmul 53 1024 (float64_of f)
             (SFdiv 53 1024 (float64_of unit) (float64_of scale))).

(** The unit: everything up to a digit or a period. *)
Fixpoint take_unit (s : string) : string * string :=
  match s with
  | String c s' =>
      if decide (c = "."%char) then (EmptyString, s)
      else if is_digit c then (EmptyString, s)
      else prod_map (String c) id (take_unit s')
  | EmptyString => (EmptyString, EmptyString)
  end.

Definition invalid (orig : string) : error := ErrorString ("time: invalid duration " +:+ quote orig).

(** The optional fraction: its digits, their scale, what follows, and whether
    any digit was consumed. *)
Definition fraction (s : string) : Z * Z * string * bool :=
  match s with
  | String c s' =>
      if decide (c = "."%char) then
        let '(f, scale, r) := leadingFraction 0 1 false s' in
        (f, scale, r, negb (str_len s' =? str_len r))
      else (0, 1, s, false)
  | EmptyString => (0, 1, s, false)
  end.

(** One turn of the loop: the duration so far and the rest of the string. *)
Definition parse_step (orig : string) (d : Z) (s : string) : result (Z * string) :=
  match s with
  | EmptyString => Err (invalid orig)
  | String c _ =>
      if negb (bool_decide (c = "."%char) || is_digit c) then Err (invalid orig)
      else
        match leadingInt 0 s with
        | None => Err (invalid orig)
        | Some (v, s1) =>
            let pre := negb (str_len s =? str_len s1) in
            let '(f, scale, s2, post) := fraction s1 in
            if negb pre && negb post then Err (invalid orig)
            else
              let '(u, s3) := take_unit s2 in
              if decide (u = EmptyString) then
                Err (ErrorString ("time: missing unit in duration " +:+ quote orig))
              else
                match unitMap u with
                | None => Err (ErrorString ("time: unknown unit " +:+ quote u
                                              +:+ " in duration " +:+ quote orig))
                | Some unit =>
                    if v >? 2 ^ 63 / unit then Err (invalid orig)
                    else
                      let v := wrap_u 64 (v * unit) in
                      let v := if f >? 0 then wrap_u 64 (v + fraction_part f unit scale) else v in
                      if (f >? 0) && (v >? 2 ^ 63) then Err (invalid orig)
                      else
                        let d := wrap_u 64 (d + v) in
                        if d >? 2 ^ 63 then Err (invalid orig) else Ok (d, s3)
                end
        end
  end.

(** The loop; every turn consumes at least the unit, so the length of the
    string is enough fuel (lemma [parse_loop_fuel]). *)
Fixpoint parse_loop (fuel : nat) (orig : string) (d : Z) (s : string) : result Z :=
  match s, fuel with
  | EmptyString, _ => Ok d
  | _, O => Err (invalid orig)
  | _, S fuel =>
      match parse_step orig d s with
      | Err e => Err e
      | Ok (d, s) => parse_loop fuel orig d s
      end
  end.

Definition ParseDuration (s : string) : result Z :=
  let '(neg, r) :=
    match s with
    | String "-" r => (true, r)
    | String "+" r => (false, r)
    | _ => (false, s)
    end in
  if decide (r = "0") then Ok 0
  else if decide (r = EmptyString) then Err (invalid s)
  else
    match parse_loop (String.length r) s 0 r with
    | Err e => Err e
    | Ok d =>
        if neg then Ok (int64 (- d))
        else if d >? 2 ^ 63 - 1 then Err (invalid s)
        else Ok d
    end.

Example parse_15m : ParseDuration "15m" = Ok (15 * Minute).
Proof. vm_compute. reflexivity. Qed.
Example parse_1h30m : ParseDuration "1h30m" = Ok (90 * Minute).
Proof. vm_compute. reflexivity. Qed.
Example parse_frac : ParseDuration "-1.5h" = Ok (- (90 * Minute)).
Proof. vm_compute. reflexivity. Qed.
Example parse_bad : ParseDuration "15" = Err (ErrorString ("time: missing unit in duration " +:+ quote "15")).
Proof. vm_compute. reflexivity. Qed.

(** ** The fuel is enough *)

Lemma leadingInt_length x s v r : leadingInt x s = Some (v, r) → str_len r <= str_len s.
Proof.
  revert x. induction s as [|c s IH]; intros x; cbn.
  - by intros [= _ <-].
  - rewrite str_len_cons. case_all; intros Hr; try done.
    + apply IH in Hr. lia.
    + injection Hr as _ <-. by rewrite str_len_cons.
Qed.

Lemma leadingFraction_length x sc o s v sc' r :
  leadingFraction x sc o s = (v, sc', r) → str_len r <= str_len s.
Proof.
  revert x sc o. induction s as [|c s IH]; intros x sc o; cbn.
  - by intros [= _ _ <-].
  - rewrite str_len_cons. case_all; intros Hr; try (apply IH in Hr; lia).
    injection Hr as _ _ <-. by rewrite str_len_cons.
Qed.

Lemma fraction_length s f sc r post :
  fraction s = (f, sc, r, post) → str_len r <= str_len s.
Proof.
  unfold fraction. destruct s as [|c s]; [by intros [= _ _ <- _]|].
  case_decide; [|by intros [= _ _ <- _]].
  destruct (leadingFraction 0 1 false s) as [[f' sc'] r'] eqn:E.
  intros [= _ _ <- _]. apply leadingFraction_length in E. rewrite str_len_cons. lia.
Qed.

Lemma take_unit_split s u r : take_unit s = (u, r) → s = u +:+ r.
Proof.
  revert u. induction s as [|c s IH]; intros u; cbn.
  - by intros [= <- <-].
  - case_all; try (by intros [= <- <-]).
    destruct (take_unit s) as [u' r']. cbn. intros [= <- <-].
    rewrite string_app_cons. f_equal. by apply IH.
Qed.

(** A turn of the loop makes the string shorter. *)
Lemma parse_step_length orig d s d' r :
  parse_step orig d s = Ok (d', r) → str_len r < str_len s.
Proof.
  unfold parse_step. destruct s as [|c s0]; [done|].
  destruct (negb _); [done|].
  destruct (leadingInt 0 (String c s0)) as [[v s1]|] eqn:E1; [|done].
  apply leadingInt_length in E1.
  destruct (fraction s1) as [[[f sc] s2] post] eqn:E2.
  apply fraction_length in E2.
  destruct (negb _ && negb post); [done|].
  destruct (take_unit s2) as [u s3] eqn:Es.
  apply take_unit_split in Es as ->. rewrite str_len_app in E2.
  destruct u as [|a u]; [done|]. rewrite str_len_cons in E2.
  pose proof (str_len_nonneg u).
  repeat case_match; try done; intros [= <- <-]; lia.
Qed.

Lemma parse_loop_fuel fuel1 fuel2 orig d s :
  str_len s <= Z.of_nat fuel1 → str_len s <= Z.of_nat fuel2 →
  parse_loop fuel1 orig d s = parse_loop fuel2 orig d s.
Proof.
  revert fuel2 d s. induction fuel1 as [|f1 IH]; intros f2 d s H1 H2.
  { destruct s as [|c s]; [by destruct f2|].
    rewrite str_len_cons in H1. pose proof (str_len_nonneg s). lia. }
  destruct s as [|c s]; [by destruct f2|].
  rewrite str_len_cons in *. pose proof (str_len_nonneg s).
  destruct f2 as [|f2]; [lia|]. cbn [parse_loop].
  destruct (parse_step orig d (String c s)) as [[d' r]|e] eqn:E; [|done].
  apply parse_step_length in E. rewrite str_len_cons in E. apply IH; lia.
Qed.

(** ** The strings the CRD accepts

    The validation pattern of spec.registry.pollInterval is
    [^([0-9]+(ns|us|µs|ms|s|m|h))+$]: a non-empty sequence of components, each a
    non-empty run of digits and a unit. *)

Record component := { digits : string; unit_name : string }.

Definition crd_units : list string := ["ns"; "us"; micro1; "ms"; "s"; "m"; "h"].

Definition component_ok (c : component) : Prop :=
  digits c ≠ EmptyString ∧ str_forall is_digit (digits c) = true ∧ unit_name c ∈ crd_units.

Fixpoint render (cs : list component) : string :=
  match cs with
  | [] => EmptyString
  | c :: cs => digits c +:+ unit_name c +:+ render cs
  end.

(** The number a run of digits denotes. *)
Fixpoint digits_value (x : Z) (s : string) : Z :=
  match s with
  | EmptyString => x
  | String c s => digits_value (x * 10 + digit_val c) s
  end.

Definition component_value (c : component) : Z :=
  digits_value 0 (digits c) * default 0 (unitMap (unit_name c)).

Fixpoint total (cs : list component) : Z :=
  match cs with
  | [] => 0
  | c :: cs => component_value c + total cs
  end.

Lemma digit_val_range c : is_digit c = true → 0 <= digit_val c <= 9.
Proof. unfold is_digit, digit_val. intros [H1 H2]%andb_true_iff. lia. Qed.

Lemma digits_value_ge x s : 0 <= x → str_forall is_digit s = true → x <= digits_value x s.
Proof.
  revert x. induction s as [|c s IH]; intros x Hx; cbn; [lia|].
  intros [Hc Hs]%andb_true_iff. apply digit_val_range in Hc.
  specialize (IH (x * 10 + digit_val c) ltac:(lia) Hs). lia.
Qed.

(** What a run of digits is followed by: nothing, or a byte that is no digit. *)
Definition no_digit_head (s : string) : Prop :=
  match s with EmptyString => True | String c _ => is_digit c = false end.

Lemma leadingInt_digits x ds r :
  0 <= x → str_forall is_digit ds = true → no_digit_head r →
  (x <= 2 ^ 63) →
  leadingInt x (ds +:+ r)
  = if decide (digits_value x ds <= 2 ^ 63) then Some (digits_value x ds, r) else None.
Proof.
  intros Hx0 Hd Hr. revert x Hx0. induction ds as [|c ds IH]; intros x Hx0 Hx.
  - rewrite string_app_nil_l. cbn [digits_value]. rewrite decide_True by lia.
    destruct r as [|c r]; [done|]. cbn in *. by rewrite Hr.
  - cbn in Hd. apply andb_true_iff in Hd as [Hc Hs]. rewrite string_app_cons.
    cbn [leadingInt digits_value]. rewrite Hc. apply digit_val_range in Hc as Hv.
    assert (x * 10 + digit_val c <= digits_value (x * 10 + digit_val c) ds) as Hge
      by (apply digits_value_ge; [lia|done]).
    change (2 ^ 63 / 10) with 922337203685477580.
    destruct (x >? 922337203685477580) eqn:E1.
    { rewrite decide_False; [done|]. lia. }
    assert (wrap_u 64 (x * 10 + digit_val c) = x * 10 + digit_val c) as ->
      by (apply Z.mod_small; lia).
    destruct (x * 10 + digit_val c >? 2 ^ 63) eqn:E2.
    { rewrite decide_False; [done|]. lia. }
    apply IH; [done | lia | lia].
Qed.

Lemma take_unit_crd u r :
  u ∈ crd_units → (r = EmptyString ∨ ∃ c r', r = String c r' ∧ is_digit c = true) →
  take_unit (u +:+ r) = (u, r).
Proof.
  intros Hu Hr.
  assert (take_unit r = (EmptyString, r)) as E.
  { destruct Hr as [->|(c & r' & -> & Hc)]; [done|]. cbn.
    case_decide; [done|]. by rewrite Hc. }
  unfold crd_units, micro1 in Hu. repeat rewrite elem_of_cons in Hu.
  destruct Hu as [->|[->|[->|[->|[->|[->|[->|Hu]]]]]]];
    [..|by apply not_elem_of_nil in Hu];
    rewrite ?string_app_cons, ?string_app_nil_l; cbn; by rewrite E.
Qed.

Lemma crd_unit_known u : u ∈ crd_units → ∃ z, unitMap u = Some z ∧ 0 < z < 2 ^ 63.
Proof.
  intros Hu. unfold crd_units in Hu. repeat rewrite elem_of_cons in Hu.
  destruct Hu as [->|[->|[->|[->|[->|[->|[->|Hu]]]]]]];
    [..|by apply not_elem_of_nil in Hu];
    eexists; (split; [reflexivity | vm_compute; done]).
Qed.

(** What follows a component: nothing, or the digits of the next one. *)
Definition digit_head (r : string) : Prop :=
  r = EmptyString ∨ ∃ c r', r = String c r' ∧ is_digit c = true.

Lemma render_digit_head cs : Forall component_ok cs → digit_head (render cs).
Proof.
  intros H. destruct H as [|c cs (Hne & Hd & _) _]; [by left|].
  right. destruct (digits c) as [|a ds] eqn:E; [done|].
  cbn in Hd. apply andb_true_iff in Hd as [Ha _].
  exists a, (ds +:+ unit_name c +:+ render cs). cbn. by rewrite E.
Qed.

Lemma crd_unit_head u r :
  u ∈ crd_units →
  ∃ c u', u +:+ r = String c u' ∧ is_digit c = false ∧ c ≠ "."%char.
Proof.
  intros Hu. unfold crd_units, micro1 in Hu. repeat rewrite elem_of_cons in Hu.
  destruct Hu as [->|[->|[->|[->|[->|[->|[->|Hu]]]]]]];
    [..|by apply not_elem_of_nil in Hu];
    rewrite ?string_app_cons; by do 2 eexists.
Qed.

Lemma component_value_nonneg c : component_ok c → 0 <= component_value c.
Proof.
  intros (_ & Hd & Hu). unfold component_value.
  destruct (crd_unit_known _ Hu) as (z & -> & Hz). cbn.
  pose proof (digits_value_ge 0 (digits c) ltac:(lia) Hd). nia.
Qed.

(** One turn of the loop on a component. *)
Lemma parse_step_component orig d c r :
  component_ok c → digit_head r → 0 <= d <= 2 ^ 63 →
  (d + component_value c < 2 ^ 64 ∨ 2 ^ 63 < component_value c) →
  parse_step orig d (digits c +:+ unit_name c +:+ r)
  = if decide (d + component_value c <= 2 ^ 63) then Ok (d + component_value c, r)
    else Err (invalid orig).
Proof.
  intros Hc Hr Hd Hsum.
  pose proof (component_value_nonneg c Hc) as Hv0.
  destruct Hc as (Hne & Hds & Hu). unfold component_value in *.
  destruct (crd_unit_known _ Hu) as (z & Ez & Hz).
  rewrite Ez in *. cbn [default id] in *.
  destruct (crd_unit_head (unit_name c) r Hu) as (a & u' & Ea & Ha & Hdot).
  pose proof (take_unit_crd (unit_name c) r Hu Hr) as Et.
  assert (no_digit_head (unit_name c +:+ r)) as Hnd by (rewrite Ea; exact Ha).
  pose proof (leadingInt_digits 0 (digits c) _ ltac:(lia) Hds Hnd ltac:(lia)) as El.
  destruct (digits c) as [|b ds] eqn:Eds; [done|].
  unfold parse_step. rewrite string_app_cons in *. rewrite El. clear El.
  assert (is_digit b = true) as Hb by (cbn in Hds; by apply andb_true_iff in Hds as [? _]).
  rewrite Hb, orb_true_r. cbn [negb].
  pose proof (digits_value_ge 0 (String b ds) ltac:(lia) Hds) as Hv.
  set (v := digits_value 0 (String b ds)) in *.
  assert (v <= v * z) as Hvz by nia.
  destruct (decide (v <= 2 ^ 63)) as [Hvle|Hvgt]; [|rewrite decide_False by lia; done].
  assert (fraction (unit_name c +:+ r) = (0, 1, unit_name c +:+ r, false)) as ->.
  { rewrite Ea. cbn. by rewrite decide_False. }
  assert ((str_len (String b (ds +:+ unit_name c +:+ r)) =? str_len (unit_name c +:+ r)) = false) as ->.
  { rewrite str_len_cons, str_len_app. pose proof (str_len_nonneg ds). lia. }
  cbn [negb andb]. rewrite Et. rewrite decide_False by (intros E; by rewrite E in Ez).
  rewrite Ez. change (0 >? 0) with false. cbn [andb].
  assert (v > 2 ^ 63 / z ↔ 2 ^ 63 < v * z) as Hdiv.
  { pose proof (Z.mul_div_le (2 ^ 63) z). pose proof (Z.mul_succ_div_gt (2 ^ 63) z). nia. }
  destruct (v >? 2 ^ 63 / z) eqn:Ev.
  { rewrite decide_False; [done|]. lia. }
  assert (v * z <= 2 ^ 63) by lia.
  unfold wrap_u. rewrite (Z.mod_small (v * z)) by lia. rewrite Z.mod_small by lia.
  destruct (d + v * z >? 2 ^ 63) eqn:Es.
  - rewrite decide_False; [done|lia].
  - rewrite decide_True; [done|lia].
Qed.

Lemma parse_loop_components orig cs d :
  Forall component_ok cs → 0 <= d <= 2 ^ 63 →
  d + total cs <= 2 ^ 63 ∨ Forall (λ c, component_value c ≠ 2 ^ 63) cs →
  parse_loop (String.length (render cs)) orig d (render cs)
  = if decide (d + total cs <= 2 ^ 63) then Ok (d + total cs) else Err (invalid orig).
Proof.
  intros Hcs. revert d. induction Hcs as [|c cs Hc Hcs IH]; intros d Hd Hsum.
  - cbn. rewrite decide_True by lia. by rewrite Z.add_0_r.
  - pose proof (component_value_nonneg c Hc) as Hv0.
    assert (0 <= total cs) as Ht0.
    { clear -Hcs. induction Hcs as [|c cs Hc _ IH]; cbn; [lia|].
      pose proof (component_value_nonneg c Hc). lia. }
    pose proof (parse_step_component orig d c (render cs) Hc
                  (render_digit_head _ Hcs) Hd) as Hstep.
    cbn [render total] in *.
    destruct Hc as (Hne & _ & _).
    destruct (digits c) as [|a ds] eqn:E; [done|].
    rewrite string_app_cons in *. cbn [String.length parse_loop].
    rewrite Hstep; clear Hstep.
    2: { destruct Hsum as [Hsum|Hsum]; [lia|].
         apply Forall_cons in Hsum as [Hne' _].
         destruct (Z.lt_total (component_value c) (2 ^ 63)) as [?|[?|?]]; lia. }
    destruct (decide (d + component_value c <= 2 ^ 63)) as [Hle|Hgt].
    + rewrite (parse_loop_fuel _ (String.length (render cs))).
      * rewrite IH; [|lia|].
        -- rewrite Z.add_assoc. done.
        -- destruct Hsum as [?|Hsum%Forall_cons]; [left; lia|right; apply Hsum].
      * unfold str_len. rewrite !string_length_app. lia.
      * unfold str_len. lia.
    + rewrite decide_False by lia. done.
Qed.

(** ** Properties *)

(** On every string the CRD's pattern accepts for spec.registry.pollInterval,
    time.ParseDuration is total and exact: it returns the sum of the components
    when that sum fits an int64, and an error (upon which the controller falls
    back to its default interval) when it does not. *)
Theorem parse_crd_interval cs :
  cs ≠ [] → Forall component_ok cs →
  (total cs < 2 ^ 63 → ParseDuration (render cs) = Ok (total cs)) ∧
  (2 ^ 63 <= total cs → Forall (λ c, component_value c ≠ 2 ^ 63) cs →
   ∃ e, ParseDuration (render cs) = Err e).
Proof.
  intros Hne Hcs.
  pose proof (parse_loop_components (render cs) cs 0 Hcs ltac:(lia)) as Hl.
  destruct cs as [|c cs]; [done|].
  apply Forall_cons in Hcs as Hc. destruct Hc as [(Hd & Hds & Hu) _].
  unfold ParseDuration.
  assert (∃ a r, render (c :: cs) = String a r ∧ is_digit a = true
                 ∧ String a r ≠ "0") as (a & r & E & Ha & H0).
  { destruct (digits c) as [|a ds] eqn:Eds; [done|].
    cbn in Hds. apply andb_true_iff in Hds as [Ha _].
    exists a, (ds +:+ unit_name c +:+ render cs). cbn [render]. rewrite Eds.
    split; [done|]. split; [done|]. intros E0.
    apply (f_equal String.length) in E0. cbn in E0. rewrite !string_length_app in E0.
    destruct (crd_unit_head (unit_name c) EmptyString Hu) as (x & y & Ey & _).
    rewrite string_app_nil_r in Ey. rewrite Ey in E0. cbn in E0. lia. }
  rewrite E in *.
  assert (match String a r with
          | String "-" r => (true, r)
          | String "+" r => (false, r)
          | _ => (false, String a r)
          end = (false, String a r)) as ->.
  { clear -Ha. by destruct a as [[] [] [] [] [] [] [] []]. }
  rewrite decide_False by done. rewrite decide_False by done.
  split.
  - intros Ht. rewrite Hl by (left; lia). rewrite decide_True by lia.
    rewrite Z.add_0_l. destruct (Z.gtb_spec (total (c :: cs)) (2 ^ 63 - 1)); [lia|done].
  - intros Ht Hx. rewrite Hl by (by right).
    case_decide; [|by eexists]. rewrite Z.add_0_l.
    destruct (Z.gtb_spec (total (c :: cs)) (2 ^ 63 - 1)); [by eexists|lia].
Qed.

Lemma parse_crd_interval_witness :
  let cs := [{| digits := "1"; unit_name := "h" |}; {| digits := "30"; unit_name := "m" |}] in
  ParseDuration (render cs) = Ok (90 * Minute).
Proof.
  intros cs. apply (parse_crd_interval cs).
  - discriminate.
  - repeat constructor; try discriminate; vm_compute; set_solver.
  - vm_compute. reflexivity.
Defined.
