(* ===== verification/Samples.v ===== *)
(** * Concrete library parameters for the witnesses

    The class [Machinery] leaves Kubernetes' libraries abstract; the witnesses
    of the development evaluate the definitions at this instance.  It follows
    the documented behaviour of each function on the values the witnesses use
    and is not part of any theorem. *)
From S2P Require Import Prelude GoErrors Prog Api Kube Duration.

(** API errors of the samples: the identity is the HTTP status code. *)
Definition not_found (what : string) : error := Foreign 404 (what +:+ " not found").
Definition already_exists (what : string) : error := Foreign 409 (what +:+ " already exists").
Definition server_error : error := Foreign 500 "Internal error occurred".

Definition has_code (code : Z) (e : error) : bool :=
  existsb (λ x, match x with Foreign c _ => c =? code | _ => false end) (chain e).

Definition werf_gvk : GroupVersionKind :=
  {| gvk_Group := "werf.io"; gvk_Version := "v1alpha1"; gvk_Kind := "WerfBundle" |}.

#[local] Instance sample_machinery : Machinery := {|
  IsNotFound := has_code 404;
  IsAlreadyExists := has_code 409;
  Quantity := string;
  ParseQuantity := λ s, if decide (s ∈ ["1"; "2"; "500m"; "1Gi"; "2Gi"]) then Ok s
                        else Err (Foreign 1 "quantities must match the regular expression");
  Scheme := list GroupVersionKind;
  ObjectKinds := λ s _, match s with
                        | [] => Err (Foreign 2 "no kind is registered for the type v1alpha1.WerfBundle")
                        | _ => Ok s
                        end;
  GroupVersion_String := λ g, gvk_Group g +:+ "/" +:+ gvk_Version g;
  ContainsFinalizer := λ b f, bool_decide (f ∈ Finalizers (Meta b));
  AddFinalizer := λ b f, if decide (f ∈ Finalizers (Meta b)) then b
                         else set_Finalizers (Finalizers (Meta b) ++ [f]) b;
  RemoveFinalizer := λ b f, set_Finalizers (filter (λ g, g ≠ f) (Finalizers (Meta b))) b;
  SetControllerReference := λ b cm s,
    match s with
    | None => Err (Foreign 3 "scheme is nil")
    | Some _ =>
        Ok {| cm_Meta :=
                {| Name := Name (cm_Meta cm); Namespace := Namespace (cm_Meta cm);
                   UID := UID (cm_Meta cm);
                   ResourceVersion := ResourceVersion (cm_Meta cm); Labels := Labels (cm_Meta cm);
                   Finalizers := Finalizers (cm_Meta cm);
                   DeletionTimestamp := DeletionTimestamp (cm_Meta cm);
                   OwnerReferences :=
                     OwnerReferences (cm_Meta cm)
                     ++ [{| owner_APIVersion := "werf.io/v1alpha1"; owner_Kind := "WerfBundle";
                            owner_Name := Name (Meta b); owner_UID := UID (Meta b);
                            owner_Controller := true |}] |};
              cm_Data := cm_Data cm |}
    end;
|}.

(** ** A bundle *)

Definition sample_meta : ObjectMeta :=
  {| Name := "my-app"; Namespace := "default"; UID := "uid-1"; ResourceVersion := "1"; Labels := ∅;
     Finalizers := ["werf.io/finalizer"]; DeletionTimestamp := None; OwnerReferences := [] |}.

Definition sample_spec : WerfBundleSpec :=
  {| Registry := {| URL := "ghcr.io/org/bundle"; Registry_SecretRef := None;
                    PollInterval := "15m" |};
     Converge := {| ServiceAccountName := EmptyString; TargetNamespace := EmptyString;
                    ResourceLimits := None; LogRetentionDays := Some 7; ValuesFrom := [] |} |}.

Definition sample_bundle : WerfBundle :=
  {| Meta := sample_meta; Spec := sample_spec; Status := zero_status |}.

Definition sample_request : NamespacedName :=
  {| key_Name := "my-app"; key_Namespace := "default" |}.

(** A job with the given arguments. *)
Definition flags_job (args : list string) : Job :=
  {| job_Meta := sample_meta;
     job_Spec := {| BackoffLimit := Some 0; TTLSecondsAfterFinished := None; Template_Labels := ∅;
                    Template_Spec :=
                      {| RestartPolicy := "Never"; ps_ServiceAccountName := EmptyString;
                         Containers := [{| c_Name := "werf"; c_Image := "werf"; c_Args := args;
                                           c_Requests := ∅; c_Limits := ∅ |}] |} |};
     job_Status := {| Succeeded := 0; Failed := 0 |} |}.

(** ** An environment

    Answers to every call; a witness overrides the ones it is about. *)
Definition sample_answers (c : kcall) : kans c :=
  match c with
  | GetBundle _ => Ok sample_bundle
  | UpdateBundle b => Ok b
  | StatusUpdate b => Ok b
  | GetServiceAccount _ => Ok tt
  | GetJob _ => Err (not_found "jobs.batch")
  | CreateJob j => Ok j
  | GetConfigMap _ => Err (not_found "configmaps")
  | CreateConfigMap cm => Ok cm
  | UpdateConfigMap cm => Ok cm
  | GetSecret _ => Err (not_found "secrets")
  | ListPods _ _ => Ok []
  | StreamLogs _ _ _ _ => Ok tt
  | ReadStream _ _ _ => Ok EmptyString
  | CloseStream _ _ _ => None
  | HttpRoundTrip _ => Ok {| StatusCode := 200; resp_Header := ∅; Body := EmptyString |}
  | YamlUnmarshal s => Ok (YString s)
  | RangeStrings m => map_to_list m
  | TimeNow => 1700000000
  | RandIntn _ => 0
  | CryptoRead n => if n =? 4 then Ok [18; 52; 86; 120] else Err server_error
  end.

(** The run of a program in an environment without state. *)
Definition run_with {A} (f : ∀ c : kcall, kans c) (p : prog A) : list event * outcome A :=
  answered f p.

Lemma run_with_exec {A} f (p : prog A) : exec p (run_with f p).1 (run_with f p).2.
Proof. apply answered_exec. Qed.

(** The events of such a run carry the environment's answers. *)
Lemma run_with_legal {A} f (p : prog A) (legal : event → Prop) :
  (∀ c, legal (Ev c (f c))) → Forall legal (run_with f p).1.
Proof. apply answered_legal. Qed.

(** The answers respect the Go guarantees. *)
Lemma sample_answers_go_ok c : go_ok (Ev c (sample_answers c)).
Proof.
  destruct c; try exact I; cbn; [done | lia |].
  destruct (Z.eqb_spec n 4) as [->|]; [|done]. split; [done|]. by repeat constructor.
Qed.

(** The result of a run that is known to succeed: only the test is evaluated. *)
Definition ok_of {A} (d : A) (o : outcome (result A)) : A :=
  match o with Done (Ok a) => a | _ => d end.

Definition is_ok {A} (o : outcome (result A)) : bool :=
  match o with Done (Ok _) => true | _ => false end.

Definition is_done {A} (o : outcome A) : bool :=
  match o with Done _ => true | _ => false end.

Lemma ok_of_spec {A} (d : A) (o : outcome (result A)) : is_ok o = true → o = Done (Ok (ok_of d o)).
Proof. by destruct o as [[a|e]|m]. Qed.
