(* ===== verification/Backoff.v ===== *)
(** * Backoff and jitter (internal/registry/backoff.go)

    time.Duration is an int64 of nanoseconds: the arithmetic wraps around at 64
    bits as the Go code's does. *)
From S2P Require Import Prelude GoErrors Prog Api Kube Duration Samples.

(** [1 << uint(consecutiveFailures)] is a Go int: bits shifted beyond 64 are lost. *)
Definition CalculateBackoff (consecutiveFailures : Z) : Z :=
  let baseDuration := 30 * Second in
  let maxDuration := 8 * Minute in
  if consecutiveFailures <=? 0 then baseDuration
  else
    let multiplier := int64 (Z.shiftl 1 consecutiveFailures) in
    let duration := int64 (baseDuration * multiplier) in
    if duration >? maxDuration then maxDuration else duration.

(** rand.Intn panics when its argument is not positive. *)
Definition rand_Intn `{Machinery} (n : Z) : prog Z :=
  if n <=? 0 then Panic "invalid argument to Intn"
  else Do (RandIntn n) (λ r, Ret r).

Definition AddJitter `{Machinery} (interval : Z) : prog Z :=
  if interval <=? 0 then mret interval
  else
    let jitterAmount := Z.quot interval 10 in
    r ← rand_Intn (int64 (2 * jitterAmount));
    let randomJitter := int64 (r - jitterAmount) in
    mret (int64 (interval + randomJitter)).

(** ** Lemmas *)

(** The delay as the documentation describes it. *)
Definition backoff_spec (failures : Z) : Z :=
  Z.min (30 * Second * 2 ^ Z.max 0 failures) (8 * Minute).

Lemma CalculateBackoff_spec n : n <= 28 → CalculateBackoff n = backoff_spec n.
Proof.
  intros Hn. unfold CalculateBackoff, backoff_spec.
  destruct (Z.leb_spec n 0) as [H|H].
  - rewrite Z.max_l by lia. reflexivity.
  - rewrite Z.max_r by lia. rewrite Z.shiftl_1_l.
    assert (2 ^ n <= 2 ^ 28) as Hp by (apply Z.pow_le_mono_r; lia).
    assert (0 < 2 ^ n) as H0 by (apply Z.pow_pos_nonneg; lia).
    assert (30 * Second = 30000000000) as -> by reflexivity.
    assert (8 * Minute = 480000000000) as -> by reflexivity.
    change (2 ^ 28) with 268435456 in Hp.
    rewrite (int64_small (2 ^ n)) by (unfold in_int64; lia).
    rewrite int64_small by (unfold in_int64; lia).
    rewrite Z.gtb_ltb. destruct (Z.ltb_spec 480000000000 (30000000000 * 2 ^ n)); lia.
Qed.

Lemma backoff_spec_bounds n : 30 * Second <= backoff_spec n <= 8 * Minute.
Proof.
  unfold backoff_spec.
  assert (1 <= 2 ^ Z.max 0 n) by (apply (Z.pow_le_mono_r 2 0); lia).
  assert (30 * Second = 30000000000) as -> by reflexivity.
  assert (8 * Minute = 480000000000) as -> by reflexivity.
  lia.
Qed.

Lemma backoff_spec_mono n m : n <= m → backoff_spec n <= backoff_spec m.
Proof.
  intros H. unfold backoff_spec.
  assert (2 ^ Z.max 0 n <= 2 ^ Z.max 0 m) by (apply Z.pow_le_mono_r; lia).
  assert (30 * Second = 30000000000) as -> by reflexivity. lia.
Qed.

#[export] Hint Resolve backoff_spec_bounds : goint.

Section Jitter.
Context `{Machinery}.

(** The jittered interval, for an interval of at least ten nanoseconds whose
    +10% still fits an int64. *)
Lemma wp_AddJitter interval :
  10 <= interval → interval + interval / 10 < 2 ^ 63 →
  wp go_ok (AddJitter interval) (λ t o,
    (∃ r, t = [Ev (RandIntn (2 * (interval / 10))) r]) ∧
    ∃ d, o = Done d ∧ interval - interval / 10 <= d < interval + interval / 10).
Proof.
  intros Hlo Hhi. unfold AddJitter, rand_Intn.
  destruct (Z.leb_spec interval 0); [lia|].
  rewrite Z.quot_div_nonneg by lia.
  assert (1 <= interval / 10) by (apply Z.div_le_lower_bound; lia).
  assert (interval / 10 <= interval) by (apply Z.div_le_upper_bound; lia).
  pose proof (Z.mul_div_le interval 10).
  rewrite int64_small by (unfold in_int64; lia).
  destruct (Z.leb_spec (2 * (interval / 10)) 0); [lia|].
  prog_simpl. intros r Hr. cbn in Hr. specialize (Hr ltac:(lia)). split; [by eexists|].
  rewrite (int64_small (r - _)) by (unfold in_int64; lia).
  rewrite int64_small by (unfold in_int64; lia).
  eexists. split; [done|]. lia.
Qed.

(** Every execution of AddJitter, on every interval an int64 holds. *)
Lemma wp_AddJitter_all interval :
  interval < 2 ^ 63 →
  wp any (AddJitter interval) (λ t o,
    (interval <= 0 ∧ t = [] ∧ o = Done interval) ∨
    (1 <= interval < 10 ∧ t = [] ∧ o = Panicked "invalid argument to Intn") ∨
    (10 <= interval ∧ ∃ r, t = [Ev (RandIntn (int64 (2 * (interval / 10)))) r]
       ∧ o = Done (int64 (interval + int64 (r - interval / 10))))).
Proof.
  intros Hs. unfold AddJitter, rand_Intn.
  destruct (Z.leb_spec interval 0); [by left|].
  rewrite Z.quot_div_nonneg by lia.
  destruct (Z.lt_ge_cases interval 10) as [Hlt|Hge].
  { rewrite Z.div_small by lia. change (int64 (2 * 0)) with 0. prog_simpl.
    right. left. split; [lia | done]. }
  assert (1 <= interval / 10) by (apply Z.div_le_lower_bound; lia).
  pose proof (Z.mul_div_le interval 10).
  rewrite !(int64_small (2 * _)) by (unfold in_int64; lia).
  destruct (Z.leb_spec (2 * (interval / 10)) 0); [lia|].
  prog_simpl. intros r _. right. right. split; [done|]. by eexists.
Qed.

(** ** Properties *)

(** AddJitter, on every kind of interval: a non-positive interval is
    returned as it is; an interval of 1 to 9 ns makes rand.Intn panic (its tenth
    is zero); otherwise one random number is drawn and the result lies within
    [interval - 10%, interval + 10%), without overflow. *)
Theorem AddJitter_bounds interval t o :
  exec (AddJitter interval) t o → Forall go_ok t →
  interval < 2 ^ 63 - interval / 10 →
  (interval <= 0 ∧ t = [] ∧ o = Done interval) ∨
  (1 <= interval < 10 ∧ t = [] ∧ o = Panicked "invalid argument to Intn") ∨
  (10 <= interval ∧ (∃ r, t = [Ev (RandIntn (2 * (interval / 10))) r]) ∧
   ∃ d, o = Done d ∧ interval - interval / 10 <= d < interval + interval / 10).
Proof.
  intros He Ht Hb.
  destruct (Z.lt_ge_cases interval 10) as [Hlt|Hge].
  - assert (interval < 2 ^ 63) as Hs by lia.
    destruct (wp_any _ _ _ _ (wp_AddJitter_all interval Hs) He) as [?|[?|[? _]]];
      [by left | by right; left | lia].
  - right. right. split; [done|].
    eapply (wp_exec _ _ _ _ _ (wp_AddJitter interval Hge _) He Ht).
    Unshelve. lia.
Qed.

End Jitter.

#[local] Existing Instance sample_machinery.

Lemma AddJitter_bounds_witness :
  let r := run_with sample_answers (AddJitter (15 * Minute)) in
  Forall go_ok r.1 ∧
  ((15 * Minute <= 0 ∧ r.1 = [] ∧ r.2 = Done (15 * Minute)) ∨
   (1 <= 15 * Minute < 10 ∧ r.1 = [] ∧ r.2 = Panicked "invalid argument to Intn") ∨
   (10 <= 15 * Minute ∧ (∃ x, r.1 = [Ev (RandIntn (2 * (15 * Minute / 10))) x]) ∧
    ∃ d, r.2 = Done d ∧ 15 * Minute - 15 * Minute / 10 <= d < 15 * Minute + 15 * Minute / 10)).
Proof.
  intros r. assert (Forall go_ok r.1) as Hr by (repeat constructor; vm_compute; done).
  split; [exact Hr|].
  apply AddJitter_bounds; [apply run_with_exec | exact Hr | vm_compute; reflexivity].
Defined.

(** For every counter the retry policy can hand to it (and up to 28) the
    delay is min(30 s * 2^failures, 8 min): never below 30 s, never above 8 min,
    and growing with the number of failures. *)
Theorem CalculateBackoff_correct n m :
  n <= m → m <= 28 →
  CalculateBackoff n = backoff_spec n ∧
  30 * Second <= CalculateBackoff n <= CalculateBackoff m ∧
  CalculateBackoff m <= 8 * Minute.
Proof.
  intros Hnm Hm. rewrite !CalculateBackoff_spec by lia.
  pose proof (backoff_spec_bounds n). pose proof (backoff_spec_bounds m).
  pose proof (backoff_spec_mono n m Hnm). lia.
Qed.

Lemma CalculateBackoff_correct_witness :
  CalculateBackoff 1 = 60 * Second ∧ CalculateBackoff 4 = 8 * Minute.
Proof.
  destruct (CalculateBackoff_correct 1 4 ltac:(lia) ltac:(lia)) as (E & _ & _).
  split; [exact E | reflexivity].
Defined.

(** Beyond that the multiplication wraps around and the cap no longer
    applies: a counter of 29 gives a negative delay, and from 64 on (the shift
    drops the bit) the delay is zero. *)
Theorem CalculateBackoff_overflow n :
  64 <= n → CalculateBackoff 29 < 0 ∧ CalculateBackoff n = 0.
Proof.
  intros Hn. split; [reflexivity|]. unfold CalculateBackoff.
  destruct (Z.leb_spec n 0); [lia|].
  assert (int64 (Z.shiftl 1 n) = 0) as ->; [|reflexivity].
  rewrite Z.shiftl_1_l. unfold wrap_s.
  replace (2 ^ n) with (2 ^ (n - 64) * 2 ^ 64) by (rewrite <- Z.pow_add_r by lia; f_equal; lia).
  rewrite Z.add_comm, Z.mod_add by done. reflexivity.
Qed.

Lemma CalculateBackoff_overflow_witness : CalculateBackoff 29 < 0 ∧ CalculateBackoff 64 = 0.
Proof. apply (CalculateBackoff_overflow 64). lia. Defined.
