(* ===== verification/Values.v ===== *)
(** * Merging values and rendering them as --set flags

    internal/values/merge.go, internal/values/cli.go, GenerateSetFlags of
    internal/values/helpers.go, and the reader of those flags that
    internal/testing/values.go provides (ExtractSetFlags). *)
From S2P Require Import Prelude GoErrors Prog Api Kube Samples.

(** ** merge.go *)

(** [for k, v := range m { result[k] = v }], the pairs in one of the orders the
    range may visit them ([mergeMaps_any_order]: the order does not matter). *)
Definition merge_into (result m : gmap string string) : gmap string string :=
  write_all (map_to_list m) result.

Definition mergeMaps (maps : list (gmap string string)) : gmap string string :=
  foldl merge_into ∅ maps.

(** ** cli.go *)

Definition backslash : ascii := "092"%char.

(** The backslash, then a byte. *)
Definition escaped (c : ascii) : string := String backslash (String c EmptyString).

Definition escapeValue (value : string) : string :=
  let result := replace_char backslash (escaped backslash) value in
  let result := replace_char "," (escaped ",") result in
  let result := replace_char "=" (escaped "=") result in
  let result := replace_char "[" (escaped "[") result in
  let result := replace_char "]" (escaped "]") result in
  result.

(** ** helpers.go *)

Definition set_flag (values : gmap string string) (key : string) : list string :=
  ["--set"; key +:+ "=" +:+ escapeValue (default EmptyString (values !! key))].

Definition GenerateSetFlags (values : gmap string string) : list string :=
  if decide (size values = 0%nat) then []
  else
    let keys := sort_strings (map_to_list values).*1 in
    mjoin (set_flag values <$> keys).

(** ** testing/values.go *)

(** The loop of ExtractSetFlags from some index on. *)
Fixpoint extract_flags (args : list string) (result : gmap string string) : gmap string string :=
  match args with
  | [] => result
  | a :: rest =>
      if decide (a = "--set") then
        match rest with
        | v :: rest =>
            extract_flags rest
              (match split_once "=" v with Some (k, x) => <[k := x]> result | None => result end)
        | [] => result
        end
      else extract_flags rest result
  end.

Definition ExtractSetFlags `{Machinery} (job : option Job) : gmap string string :=
  match job with
  | None => ∅
  | Some job =>
      match Containers (Template_Spec (job_Spec job)) with
      | [] => ∅
      | c :: _ => extract_flags (c_Args c) ∅
      end
  end.

(** ** Specifications *)

(** The bytes Helm gives a meaning to in a --set argument. *)
Definition special (c : ascii) : bool :=
  bool_decide (c ∈ [backslash; ","%char; "="%char; "["%char; "]"%char]).

(** Escaping in one pass. *)
Fixpoint escape_once (s : string) : string :=
  match s with
  | EmptyString => EmptyString
  | String c s => if special c then String backslash (String c (escape_once s))
                  else String c (escape_once s)
  end.

(** Reading an escaped value: a backslash makes the next byte literal. *)
Fixpoint unescape (s : string) : string :=
  match s with
  | EmptyString => EmptyString
  | String c s' =>
      if decide (c = backslash) then
        match s' with
        | String d r => String d (unescape r)
        | EmptyString => String c EmptyString
        end
      else String c (unescape s')
  end.

(** A byte occurs without a backslash before it. *)
Fixpoint occurs_bare (x : ascii) (s : string) : bool :=
  match s with
  | EmptyString => false
  | String c s' =>
      if decide (c = backslash) then
        match s' with
        | String _ r => occurs_bare x r
        | EmptyString => false
        end
      else bool_decide (c = x) || occurs_bare x s'
  end.

(** The value the last map that has the key gives it. *)
Fixpoint last_wins (k : string) (maps : list (gmap string string)) : option string :=
  match maps with
  | [] => None
  | m :: maps => match last_wins k maps with Some v => Some v | None => m !! k end
  end.

(** ** Lemmas *)

Lemma merge_into_union result m : merge_into result m = m ∪ result.
Proof. unfold merge_into. by apply write_all_map. Qed.

Lemma merge_into_lookup result m k :
  merge_into result m !! k = match m !! k with Some v => Some v | None => result !! k end.
Proof.
  rewrite merge_into_union, lookup_union.
  destruct (m !! k), (result !! k); done.
Qed.

Lemma foldl_merge_lookup maps acc k :
  foldl merge_into acc maps !! k
  = match last_wins k maps with Some v => Some v | None => acc !! k end.
Proof.
  revert acc. induction maps as [|m maps IH]; intros acc; cbn; [done|].
  rewrite IH, merge_into_lookup. by destruct (last_wins k maps).
Qed.

Lemma mergeMaps_lookup maps k : mergeMaps maps !! k = last_wins k maps.
Proof.
  unfold mergeMaps. rewrite foldl_merge_lookup, lookup_empty.
  by destruct (last_wins k maps).
Qed.

Lemma mergeMaps_snoc maps m : mergeMaps (maps ++ [m]) = m ∪ mergeMaps maps.
Proof. unfold mergeMaps. rewrite foldl_app. cbn. apply merge_into_union. Qed.

(** Whatever order each range visits its map in, the merged map is the same. *)
Lemma mergeMaps_any_order maps orders :
  Forall2 (λ m l, l ≡ₚ map_to_list m) maps orders →
  foldl (λ r l, write_all l r) ∅ orders = mergeMaps maps.
Proof.
  unfold mergeMaps. generalize (∅ : gmap string string).
  intros acc H. revert acc. induction H as [|m l maps orders Hml _ IH]; intros acc; [done|].
  cbn [foldl]. rewrite IH. f_equal. rewrite merge_into_union. by apply write_all_map.
Qed.

(** A chain of replacements acts on each byte separately. *)
Lemma escapeValue_cons c s :
  escapeValue (String c s) = escapeValue (String c EmptyString) +:+ escapeValue s.
Proof.
  change (String c s) with (String c EmptyString +:+ s).
  unfold escapeValue. by rewrite !replace_char_app.
Qed.

Lemma escapeValue_byte c :
  escapeValue (String c EmptyString)
  = if special c then escaped c else String c EmptyString.
Proof.
  destruct (special c) eqn:E.
  - apply bool_decide_eq_true in E. unfold backslash in E.
    repeat rewrite elem_of_cons in E.
    destruct E as [->|[->|[->|[->|[->|E]]]]]; try reflexivity.
    by apply not_elem_of_nil in E.
  - apply bool_decide_eq_false in E. repeat rewrite not_elem_of_cons in E.
    destruct E as (? & ? & ? & ? & ? & _).
    unfold escapeValue. cbn. repeat (rewrite decide_False by done; cbn). done.
Qed.

Lemma escapeValue_once s : escapeValue s = escape_once s.
Proof.
  induction s as [|c s IH]; [done|].
  rewrite escapeValue_cons, escapeValue_byte, IH. cbn. by destruct (special c).
Qed.

Lemma special_backslash : special backslash = true.
Proof. reflexivity. Qed.

Lemma unescape_escape s : unescape (escape_once s) = s.
Proof.
  induction s as [|c s IH]; [done|]. cbn. destruct (special c) eqn:E; cbn.
  - by rewrite IH.
  - rewrite decide_False; [by rewrite IH|].
    intros ->. by rewrite special_backslash in E.
Qed.

Lemma occurs_bare_escape x s : special x = true → occurs_bare x (escape_once s) = false.
Proof.
  intros Hx. induction s as [|c s IH]; [done|]. cbn. destruct (special c) eqn:E; cbn; [done|].
  rewrite decide_False by (intros ->; by rewrite special_backslash in E).
  rewrite IH, orb_false_r. apply bool_decide_eq_false. congruence.
Qed.

(** *** Flags *)

Lemma extract_flags_skip prefix rest acc :
  "--set" ∉ prefix → extract_flags (prefix ++ rest) acc = extract_flags rest acc.
Proof.
  intros H. induction prefix as [|a prefix IH]; [done|].
  apply not_elem_of_cons in H as [Ha Hp].
  cbn. rewrite decide_False by congruence. by apply IH.
Qed.

Lemma extract_flags_set values keys acc :
  Forall (λ k, str_contains "=" k = false) keys →
  extract_flags (mjoin (set_flag values <$> keys)) acc
  = write_all ((λ k, (k, escapeValue (default EmptyString (values !! k)))) <$> keys) acc.
Proof.
  intros H. revert acc. induction H as [|k keys Hk _ IH]; intros acc; [done|].
  change (mjoin (set_flag values <$> k :: keys))
    with (set_flag values k ++ mjoin (set_flag values <$> keys)).
  rewrite fmap_cons, write_all_cons, <- IH.
  unfold set_flag at 1. cbn [app extract_flags]. rewrite decide_True by done.
  change ("=" +:+ ?v) with (String "=" v). by rewrite split_once_app.
Qed.

(** The sorted keys carry every pair of the map. *)
Lemma sorted_pairs {B} (f : string → B) (values : gmap string string) :
  (λ k, (k, f (default EmptyString (values !! k)))) <$> sort_strings (map_to_list values).*1
  ≡ₚ map_to_list (f <$> values).
Proof.
  rewrite sort_strings_perm, map_to_list_fmap, <- list_fmap_compose.
  assert (∀ l, (∀ kv, kv ∈ l → kv ∈ map_to_list values) →
    ((λ k, (k, f (default EmptyString (values !! k)))) ∘ fst <$> l : list (string * B))
    = prod_map id f <$> l) as E.
  { induction l as [|[k v] l IH]; intros Hl; [done|].
    rewrite !fmap_cons. f_equal.
    - specialize (Hl (k, v) ltac:(left)). apply elem_of_map_to_list in Hl.
      unfold compose. cbn. by rewrite Hl.
    - apply IH. intros kv Hkv. apply Hl. by right. }
  by rewrite E.
Qed.

Lemma GenerateSetFlags_keys values :
  GenerateSetFlags values = mjoin (set_flag values <$> sort_strings (map_to_list values).*1).
Proof.
  unfold GenerateSetFlags. case_decide as H; [|done].
  apply map_size_empty_inv in H as ->. done.
Qed.

Lemma extract_generated values :
  (∀ k, is_Some (values !! k) → str_contains "=" k = false) →
  extract_flags (GenerateSetFlags values) ∅ = escapeValue <$> values.
Proof.
  intros H. rewrite GenerateSetFlags_keys, extract_flags_set.
  - erewrite write_all_map; [|apply sorted_pairs]. by rewrite map_union_empty.
  - apply Forall_forall. intros k Hk. rewrite sort_strings_perm in Hk.
    apply list_elem_of_fmap in Hk as ([k' v] & -> & Hkv).
    apply elem_of_map_to_list in Hkv. apply H. by eexists.
Qed.

Lemma GenerateSetFlags_length values :
  length (GenerateSetFlags values) = (2 * size values)%nat.
Proof.
  rewrite GenerateSetFlags_keys.
  assert (∀ keys, length (mjoin (set_flag values <$> keys)) = (2 * length keys)%nat) as E.
  { induction keys as [|k keys IH]; [done|].
    change (mjoin (set_flag values <$> k :: keys))
      with (set_flag values k ++ mjoin (set_flag values <$> keys)).
    rewrite length_app, IH. cbn. lia. }
  rewrite E, sort_strings_perm, length_fmap. by rewrite length_map_to_list.
Qed.

(** ** Properties *)

(** mergeMaps gives a key the value of the last map that has it, and the
    result does not depend on the orders in which the ranges visit the maps. *)
Theorem mergeMaps_last_wins maps orders k :
  Forall2 (λ m l, l ≡ₚ map_to_list m) maps orders →
  mergeMaps maps !! k = last_wins k maps ∧
  foldl (λ r l, write_all l r) ∅ orders = mergeMaps maps.
Proof. intros H. split; [apply mergeMaps_lookup | by apply mergeMaps_any_order]. Qed.

Lemma mergeMaps_last_wins_witness :
  let m1 : gmap string string := {["a" := "1"; "b" := "2"]} in
  let m2 : gmap string string := {["b" := "3"]} in
  mergeMaps [m1; m2] !! "b" = Some "3".
Proof.
  intros m1 m2.
  destruct (mergeMaps_last_wins [m1; m2] [rev (map_to_list m1); map_to_list m2] "b") as [E _].
  - constructor; [|by constructor]. rewrite <- (rev_involutive (map_to_list m1)) at 2.
    apply Permutation_rev.
  - rewrite E. reflexivity.
Defined.

(** The five replacements of escapeValue, run one after the other, escape
    each special byte exactly once (no double escaping): they equal the one-pass
    escape, reading the escaped value back gives the value, and no separator of
    Helm's --set syntax is left without its backslash. *)
Theorem escapeValue_correct value c :
  escapeValue value = escape_once value ∧
  unescape (escapeValue value) = value ∧
  (special c = true → occurs_bare c (escapeValue value) = false).
Proof.
  rewrite escapeValue_once.
  split; [done|]. split; [apply unescape_escape | apply occurs_bare_escape].
Qed.

Lemma escapeValue_correct_witness : occurs_bare "," (escapeValue "a,b=c") = false.
Proof. by apply (escapeValue_correct "a,b=c" ","). Defined.

(** Round trip of the flags: GenerateSetFlags writes one --set pair per key,
    and reading the arguments of the container back (ExtractSetFlags) gives the
    map with its values escaped, hence, unescaped, the map itself - provided no
    key contains an equals sign, which GenerateSetFlags does not escape. *)
Theorem set_flags_roundtrip `{Machinery} (job : Job) c cs prefix values :
  Containers (Template_Spec (job_Spec job)) = c :: cs →
  c_Args c = prefix ++ GenerateSetFlags values →
  "--set" ∉ prefix →
  (∀ k, is_Some (values !! k) → str_contains "=" k = false) →
  length (GenerateSetFlags values) = (2 * size values)%nat ∧
  ExtractSetFlags (Some job) = escapeValue <$> values ∧
  unescape <$> ExtractSetFlags (Some job) = values.
Proof.
  intros Hc Ha Hp Hk.
  assert (ExtractSetFlags (Some job) = escapeValue <$> values) as E.
  { unfold ExtractSetFlags. rewrite Hc, Ha, extract_flags_skip by done.
    by apply extract_generated. }
  split; [apply GenerateSetFlags_length|]. split; [done|].
  rewrite E, <- map_fmap_compose. rewrite <- (map_fmap_id values) at 2.
  apply map_fmap_ext. intros k v _. unfold compose.
  by rewrite escapeValue_once, unescape_escape.
Qed.

#[local] Existing Instance sample_machinery.

Lemma set_flags_roundtrip_witness :
  let values : gmap string string := {["app.name" := "a,b=c"; "n" := "3"]} in
  unescape <$> ExtractSetFlags (Some (flags_job ("converge" :: GenerateSetFlags values))) = values.
Proof.
  intros values.
  eapply (set_flags_roundtrip (flags_job ("converge" :: GenerateSetFlags values)))
    with (prefix := ["converge"]).
  - reflexivity.
  - reflexivity.
  - intros E%list_elem_of_singleton. done.
  - intros k [v Hv]. unfold values in Hv.
    apply lookup_insert_Some in Hv as [[<- _]|[_ Hv]]; [reflexivity|].
    apply lookup_singleton_Some in Hv as [<- _]. reflexivity.
Defined.
