(* ===== verification/Yaml.v ===== *)
(** * Flattening YAML documents (internal/values/yaml.go)

    parseYAML decodes a document with sigs.k8s.io/yaml (a call: the decoder is
    outside the repository) and flattens the decoded value into dotted keys.
    strconv.FormatFloat, which prints every number of a document (the decoder
    yields float64 for all of them), is modelled on its specification: the
    shortest decimal that rounds to the same double. *)
From S2P Require Import Prelude GoErrors Prog Api Kube Samples Values.
From Stdlib Require Import Floats.SpecFloat DecimalFacts DecimalZ DecimalPos DecimalString.

(** ** strconv.FormatFloat(f, 'f', -1, 64) *)

(** A non-negative rational, as numerator and denominator. *)
Definition ratio : Type := Z * Z.
Definition ratio_le (a b : ratio) : bool := a.1 * b.2 <=? b.1 * a.2.
Definition ratio_lt (a b : ratio) : bool := a.1 * b.2 <? b.1 * a.2.
(** [m * b ^ e]. *)
Definition scaled (m b e : Z) : ratio := if 0 <=? e then (m * b ^ e, 1) else (m, b ^ (- e)).

(** The least [k] in a range of exponents with [x < 10 ^ k]. *)
Fixpoint decimal_exponent (fuel : nat) (k : Z) (x : ratio) : Z :=
  match fuel with
  | O => k
  | S fuel => if ratio_lt x (scaled 1 10 k) then k else decimal_exponent fuel (k + 1) x
  end.

(** With [n] digits, the candidates are the decimals just below and just above
    [x]; one is taken if it lies in the interval of the reals that round to the
    same double, and the nearer one (an even digit on a tie) if both do. *)
Definition digits_at (x lower upper : ratio) (inclusive : bool) (k n : Z) : option (Z * Z) :=
  let p := k - n in
  let unit := scaled 1 10 p in
  let q := (x.1 * unit.2) / (x.2 * unit.1) in
  let value c := scaled c 10 p in
  let okdown := if inclusive then ratio_le lower (value q) else ratio_lt lower (value q) in
  let okup := if inclusive then ratio_le (value (q + 1)) upper else ratio_lt (value (q + 1)) upper in
  let half := scaled (2 * q + 1) 10 p in
  let twice := (2 * x.1, x.2) in
  match okdown, okup with
  | true, true =>
      if ratio_lt twice half then Some (q, p)
      else if ratio_lt half twice then Some (q + 1, p)
      else if Z.even q then Some (q, p) else Some (q + 1, p)
  | true, false => Some (q, p)
  | false, true => Some (q + 1, p)
  | false, false => None
  end.

Fixpoint shortest_from (fuel : nat) (x lower upper : ratio) (inclusive : bool) (k n : Z) : Z * Z :=
  match fuel with
  | O => (0, 0)
  | S fuel =>
      match digits_at x lower upper inclusive k n with
      | Some d => d
      | None => shortest_from fuel x lower upper inclusive k (n + 1)
      end
  end.

(** Seventeen digits always identify a double. *)
Definition shortest (m e : Z) : Z * Z :=
  let x := scaled m 2 e in
  let upper := scaled (2 * m + 1) 2 (e - 1) in
  let lower := if (m =? 2 ^ 52) && (-1074 <? e) then scaled (4 * m - 1) 2 (e - 2)
               else scaled (2 * m - 1) 2 (e - 1) in
  shortest_from 18 x lower upper (Z.even m) (decimal_exponent 700 (-330) x) 1.

(** Trailing zeros of the fraction are dropped. *)
Fixpoint trim_fraction (fuel : nat) (d p : Z) : Z * Z :=
  match fuel with
  | O => (d, p)
  | S fuel => if (p <? 0) && (d mod 10 =? 0) then trim_fraction fuel (d / 10) (p + 1) else (d, p)
  end.

Fixpoint zeros (n : nat) : string :=
  match n with O => EmptyString | S n => String "0" (zeros n) end.

(** [d * 10 ^ p] in positional notation. *)
Definition positional (d p : Z) : string :=
  if 0 <=? p then itoa d +:+ zeros (Z.to_nat p)
  else
    let frac := itoa (d mod 10 ^ (- p)) in
    itoa (d / 10 ^ (- p)) +:+ "." +:+ zeros (Z.to_nat (- p - str_len frac)) +:+ frac.

Definition FormatFloat (f : spec_float) : string :=
  match f with
  | S754_nan => "NaN"
  | S754_infinity s => if s then "-Inf" else "+Inf"
  | S754_zero s => if s then "-0" else "0"
  | S754_finite s m e =>
      let '(d, p) := shortest (Z.pos m) e in
      let '(d, p) := trim_fraction 17 d p in
      (if s then "-" else EmptyString) +:+ positional d p
  end.

(** strconv.FormatBool. *)
Definition FormatBool (b : bool) : string := if b then "true" else "false".

(** ** yaml.go *)

Definition child_prefix (prefix key : string) : string :=
  if decide (prefix = EmptyString) then key else prefix +:+ "." +:+ key.

Definition index_prefix (prefix : string) (i : Z) : string :=
  prefix +:+ "[" +:+ itoa i +:+ "]".

Fixpoint flattenValue (prefix : string) (value : yval) (result : gmap string string)
    : gmap string string :=
  match value with
  | YMap kvs =>
      (fix go (kvs : list (string * yval)) (result : gmap string string) :=
         match kvs with
         | [] => result
         | (key, val) :: kvs => go kvs (flattenValue (child_prefix prefix key) val result)
         end) kvs result
  | YSeq l =>
      (fix go (i : Z) (l : list yval) (result : gmap string string) :=
         match l with
         | [] => result
         | val :: l => go (i + 1) l (flattenValue (index_prefix prefix i) val result)
         end) 0 l result
  | YString v => <[prefix := v]> result
  | YInt v => <[prefix := itoa v]> result
  | YInt64 v => <[prefix := itoa v]> result
  | YFloat64 v => <[prefix := FormatFloat v]> result
  | YBool v => <[prefix := FormatBool v]> result
  | YNil => <[prefix := EmptyString]> result
  | YOther rendered => <[prefix := rendered]> result
  end.

Definition parseYAML `{Machinery} (yamlData : string) : prog (result (gmap string string)) :=
  if decide (yamlData = EmptyString) then mret (Ok ∅)
  else
    r ← perform (YamlUnmarshal yamlData);
    match r with
    | Err err => mret (Err (WrapError "failed to parse YAML" err))
    | Ok data => mret (Ok (flattenValue EmptyString data ∅))
    end.

Definition double (m e : Z) : spec_float := binary_normalize 53 1024 m e false.
Example format_5432 : FormatFloat (double 5432 0) = "5432".
Proof. vm_compute. reflexivity. Qed.
Example format_pi : FormatFloat (SFdiv 53 1024 (double 314 0) (double 100 0)) = "3.14".
Proof. vm_compute. reflexivity. Qed.
Example format_tenth : FormatFloat (SFdiv 53 1024 (double 1 0) (double 10 0)) = "0.1".
Proof. vm_compute. reflexivity. Qed.
Example format_big : FormatFloat (double 12345678901234567 0) = "12345678901234568".
Proof. vm_compute. reflexivity. Qed.
Example format_1e21 : FormatFloat (double 1000000000000000000000 0) = "1000000000000000000000".
Proof. vm_compute. reflexivity. Qed.
Example format_min : str_len (FormatFloat (double 1 (-1074))) = 326.
Proof. vm_compute. reflexivity. Qed.

(** ** Whole numbers *)

Lemma string_of_of_list l k :
  NilEmpty.string_of_uint (of_list (l ++ k))
  = NilEmpty.string_of_uint (of_list l) +:+ NilEmpty.string_of_uint (of_list k).
Proof. induction l as [|c l IH]; [done|]. destruct c; cbn; by rewrite IH. Qed.

Lemma string_of_app d e :
  NilEmpty.string_of_uint (Decimal.app d e)
  = NilEmpty.string_of_uint d +:+ NilEmpty.string_of_uint e.
Proof.
  rewrite <- (of_list_to_list (Decimal.app d e)), app_spec, string_of_of_list.
  by rewrite !of_list_to_list.
Qed.

Lemma string_of_zeros n : NilEmpty.string_of_uint (Nat.iter n Decimal.D0 Decimal.Nil) = zeros n.
Proof.
  induction n as [|n IH]; [done|]. change (Nat.iter (S n) ?f ?x) with (f (Nat.iter n f x)).
  cbn [NilEmpty.string_of_uint zeros]. by rewrite IH.
Qed.

Lemma string_of_nonempty d : d ≠ Decimal.Nil → NilZero.string_of_uint d = NilEmpty.string_of_uint d.
Proof. by destruct d. Qed.

(** The digits of a positive number, and of a power of ten times it. *)
Lemma to_uint_shift q n :
  Z.to_int (Z.pos q * 10 ^ Z.of_nat n)
  = Decimal.Pos (Decimal.app (Pos.to_uint q) (Nat.iter n Decimal.D0 Decimal.Nil)).
Proof.
  set (u := Pos.to_uint q). set (z := Nat.iter n Decimal.D0 Decimal.Nil).
  assert (Z.of_int (Decimal.Pos u) = Z.pos q) as Hu by exact (of_to (Z.pos q)).
  assert (Decimal.unorm u = u) as Hn.
  { pose proof (to_of (Decimal.Pos u)) as E. rewrite Hu in E. by injection E. }
  assert (u ≠ Decimal.zero) as Hz by (intros E; rewrite E in Hu; by vm_compute in Hu).
  assert (Z.of_int (Decimal.Pos (Decimal.app u z)) = Z.pos q * 10 ^ Z.of_nat n) as <-.
  { change (Z.of_int (Decimal.Pos (Decimal.app u z))) with (Z.of_uint (Decimal.app u z)).
    unfold z. rewrite of_uint_iter_D0. change (Z.of_uint u) with (Z.of_int (Decimal.Pos u)).
    rewrite Hu. clear. induction n as [|n IH]; [cbn; lia|].
    rewrite Nat2Z.inj_succ, Z.pow_succ_r by lia. change (Nat.iter (S n) ?f ?x) with (f (Nat.iter n f x)). rewrite IH. lia. }
  rewrite to_of. cbn. f_equal. rewrite unorm_app_l; [by rewrite Hn|].
  apply Nat.lt_nge. intros E%unorm_app_zero. by rewrite Hn in E.
Qed.

Lemma itoa_shift d p : 0 < d → 0 <= p → itoa (d * 10 ^ p) = itoa d +:+ zeros (Z.to_nat p).
Proof.
  intros Hd Hp. destruct d as [|q|q]; try lia. rewrite <- (Z2Nat.id p Hp) at 1. unfold itoa.
  rewrite to_uint_shift. change (Z.to_int (Z.pos q)) with (Decimal.Pos (Pos.to_uint q)). cbn [NilZero.string_of_int].
  assert (Pos.to_uint q ≠ Decimal.Nil) as Hq.
  { intros E. assert (Z.of_int (Z.to_int (Z.pos q)) = Z.pos q) as E2 by apply of_to.
    cbn in E2. rewrite E in E2. by vm_compute in E2. }
  rewrite (string_of_nonempty (Pos.to_uint q)) by done.
  rewrite string_of_nonempty.
  - by rewrite string_of_app, string_of_zeros.
  - intros E. apply (f_equal to_list) in E. rewrite app_spec in E. by destruct (Pos.to_uint q).
Qed.

Lemma itoa_opp n : 0 < n → itoa (- n) = "-" +:+ itoa n.
Proof. by destruct n. Qed.

(** The reals that round to a whole number [n] reach at most half way to its
    neighbours: with at most as many digits as [n] has, only [n] is there. *)
Section Whole.
Context (m : positive) (e n : Z).
Context (He : e <= 0) (Hm : Z.pos m = n * 2 ^ (- e)) (Hn : 0 < n < 10 ^ 16).

Let x := scaled (Z.pos m) 2 e.
Let upper := scaled (2 * Z.pos m + 1) 2 (e - 1).
Let lower := if (Z.pos m =? 2 ^ 52) && (-1074 <? e) then scaled (4 * Z.pos m - 1) 2 (e - 2)
             else scaled (2 * Z.pos m - 1) 2 (e - 1).

Lemma whole_x : x = (n * 2 ^ (- e), 2 ^ (- e)).
Proof.
  unfold x, scaled. rewrite Hm. destruct (Z.leb_spec 0 e) as [H|H]; [|done].
  assert (e = 0) as -> by lia. by rewrite !Z.mul_1_r.
Qed.

Lemma whole_scale : 1 <= 2 ^ (- e) ∧ 2 ^ (- (e - 1)) = 2 * 2 ^ (- e) ∧ 2 ^ (- (e - 2)) = 4 * 2 ^ (- e).
Proof.
  split_and!; [lia| |].
  - replace (- (e - 1)) with (1 + - e) by lia. by rewrite Z.pow_add_r by lia.
  - replace (- (e - 2)) with (2 + - e) by lia. by rewrite Z.pow_add_r by lia.
Qed.

Lemma half_way P v : 2 <= P → (n * P - 1 <= v * P → n <= v) ∧ (v * P <= n * P + 1 → v <= n).
Proof. clear. intros HP. split; nia. Qed.

(** No whole number below [n] is in the interval, [n] is, and none above. *)
Lemma whole_lower v :
  (ratio_le lower (v, 1) = true → n <= v) ∧ (ratio_lt lower (v, 1) = true → n <= v) ∧
  ratio_le lower (n, 1) = true ∧ ratio_lt lower (n, 1) = true.
Proof.
  destruct whole_scale as (H1 & H2 & H3). unfold lower, scaled, ratio_le, ratio_lt.
  rewrite !(proj2 (Z.leb_gt 0 _)) by lia. rewrite H2, H3, Hm.
  destruct (half_way (4 * 2 ^ (- e)) v) as [A _]; [lia|].
  destruct (half_way (2 * 2 ^ (- e)) v) as [B _]; [lia|].
  clear x upper lower Hm.
  destruct (_ && _); cbn [fst snd]; rewrite ?Z.leb_le, ?Z.ltb_lt; split_and!; lia.
Qed.

Lemma whole_upper v :
  (ratio_le (v, 1) upper = true → v <= n) ∧ (ratio_lt (v, 1) upper = true → v <= n).
Proof.
  destruct whole_scale as (H1 & H2 & _). unfold upper, scaled, ratio_le, ratio_lt.
  rewrite (proj2 (Z.leb_gt 0 _)) by lia. rewrite H2, Hm. cbn [fst snd].
  destruct (half_way (2 * 2 ^ (- e)) v) as [_ B]; [lia|].
  rewrite ?Z.leb_le, ?Z.ltb_lt. split; lia.
Qed.

Lemma whole_digits inclusive k j : j <= k →
  (∀ d p, digits_at x lower upper inclusive k j = Some (d, p) → 0 <= p ∧ d * 10 ^ p = n) ∧
  (j = k → is_Some (digits_at x lower upper inclusive k j)).
Proof.
  intros Hj. destruct whole_scale as (H1 & _).
  set (p := k - j). assert (1 <= 10 ^ p) as Hp by lia.
  set (q := (x.1 * (scaled 1 10 p).2) / (x.2 * (scaled 1 10 p).1)).
  assert (∀ c, scaled c 10 p = (c * 10 ^ p, 1)) as Hs.
  { intros c. unfold scaled. by rewrite (proj2 (Z.leb_le 0 p)) by lia. }
  assert (q = n / 10 ^ p) as Hq.
  { unfold q. rewrite Hs, whole_x. cbn [fst snd]. rewrite !Z.mul_1_l, Z.mul_1_r.
    rewrite (Z.mul_comm n). apply Z.div_mul_cancel_l; lia. }
  assert (q * 10 ^ p <= n < (q + 1) * 10 ^ p) as Hb.
  { rewrite Hq. pose proof (Z.mul_div_le n (10 ^ p)). pose proof (Z.mul_succ_div_gt n (10 ^ p)). lia. }
  assert ((if inclusive then ratio_le (scaled (q + 1) 10 p) upper
           else ratio_lt (scaled (q + 1) 10 p) upper) = false) as Hup.
  { rewrite Hs. destruct (whole_upper ((q + 1) * 10 ^ p)) as [A B].
    destruct inclusive; apply not_true_is_false; [intros E%A | intros E%B]; lia. }
  unfold digits_at. fold p. fold q. rewrite Hup. split.
  - intros d p'. destruct (if inclusive then ratio_le lower _ else _) eqn:El; [|done].
    intros [= <- <-]. split; [lia|]. rewrite Hs in El. destruct (whole_lower (q * 10 ^ p)) as (A & B & _).
    destruct inclusive; [apply A in El | apply B in El]; lia.
  - intros ->. rewrite Hs. unfold p in *. rewrite Z.sub_diag, Z.pow_0_r, Z.div_1_r in *.
    rewrite Hq, Z.mul_1_r. destruct (whole_lower n) as (_ & _ & A & B).
    destruct inclusive; [rewrite A | rewrite B]; by eexists.
Qed.

Lemma whole_shortest inclusive fuel k j :
  j <= k → k - j < Z.of_nat fuel →
  let '(d, p) := shortest_from fuel x lower upper inclusive k j in 0 <= p ∧ d * 10 ^ p = n.
Proof.
  revert j. induction fuel as [|fuel IH]; intros j Hj Hf; [lia|]. cbn [shortest_from].
  destruct (whole_digits inclusive k j Hj) as [Hd Hk].
  destruct (digits_at _ _ _ _ _ _) as [[d p]|] eqn:E; [by apply Hd|].
  apply IH; [|lia]. destruct (decide (j = k)) as [->|]; [|lia]. by destruct (Hk eq_refl).
Qed.

Lemma whole_below k : ratio_lt x (scaled 1 10 k) = true ↔ 0 <= k ∧ n < 10 ^ k.
Proof.
  destruct whole_scale as (H1 & _). rewrite whole_x. unfold ratio_lt, scaled.
  destruct (Z.leb_spec 0 k) as [H|H]; cbn [fst snd]; rewrite Z.ltb_lt, ?Z.mul_1_l, ?Z.mul_1_r.
  - rewrite <- Z.mul_lt_mono_pos_r by lia. split; [done | by intros [_ ?]].
  - assert (1 <= 10 ^ (- k)) by lia. split; [nia|lia].
Qed.

Lemma whole_exponent fuel k : k <= 16 → 16 - k < Z.of_nat fuel →
  1 <= decimal_exponent fuel k x <= 16.
Proof.
  revert k. induction fuel as [|fuel IH]; intros k Hk Hf; [lia|]. cbn [decimal_exponent].
  destruct (ratio_lt x (scaled 1 10 k)) eqn:L.
  - split; [|done]. apply whole_below in L. destruct L. destruct (decide (k = 0)) as [->|]; [|lia]. lia.
  - apply IH; [|lia]. destruct (decide (k = 16)) as [->|]; [|lia].
    exfalso. apply not_true_iff_false in L. apply L, whole_below. lia.
Qed.

(** A whole number is printed by its digits. *)
Lemma FormatFloat_whole s :
  FormatFloat (S754_finite s m e) = itoa (if s then - n else n).
Proof.
  unfold FormatFloat, shortest. fold x. fold upper. fold lower.
  pose proof (whole_shortest (Z.even (Z.pos m)) 18 (decimal_exponent 700 (-330) x) 1) as H.
  pose proof (whole_exponent 700 (-330) ltac:(lia) ltac:(lia)) as Hk.
  destruct (shortest_from _ _ _ _ _ _ _) as [d p]. destruct H as [Hp Hd]; [lia..|].
  assert (trim_fraction 17 d p = (d, p)) as ->.
  { unfold trim_fraction. by rewrite (proj2 (Z.ltb_ge p 0)) by lia. }
  unfold positional. rewrite (proj2 (Z.leb_le 0 p)) by lia. rewrite <- itoa_shift by nia.
  rewrite Hd. destruct s; [symmetry; apply itoa_opp; lia | done].
Qed.

End Whole.

(** ** What the flat map should hold

    A scalar is reached by a path of keys and indices.  Its key in the flat map
    spells the path out: the first key bare (empty keys before it say nothing),
    every later key after a dot, every index in brackets. *)

Inductive part := Key (k : string) | Index (i : nat).

Inductive at_path : yval → list part → yval → Prop :=
| at_here v : at_path v [] v
| at_key kvs k v path x : (k, v) ∈ kvs → at_path v path x → at_path (YMap kvs) (Key k :: path) x
| at_index l i v path x : l !! i = Some v → at_path v path x → at_path (YSeq l) (Index i :: path) x.

Fixpoint spelled (path : list part) : string :=
  match path with
  | [] => EmptyString
  | Key k :: path => "." +:+ k +:+ spelled path
  | Index i :: path => "[" +:+ itoa (Z.of_nat i) +:+ "]" +:+ spelled path
  end.

Fixpoint dotted (path : list part) : string :=
  match path with
  | Key k :: path => if decide (k = EmptyString) then dotted path else k +:+ spelled path
  | _ => spelled path
  end.

(** The text of a scalar. *)
Definition text (v : yval) : option string :=
  match v with
  | YString s | YOther s => Some s
  | YInt n | YInt64 n => Some (itoa n)
  | YFloat64 f => Some (FormatFloat f)
  | YBool b => Some (if b then "true" else "false")
  | YNil => Some EmptyString
  | YMap _ | YSeq _ => None
  end.

Definition entry (v : yval) (k s : string) : Prop :=
  ∃ path x, at_path v path x ∧ text x = Some s ∧ k = dotted path.

(** No key stands for two texts. *)
Definition unambiguous (v : yval) : Prop := ∀ k s s', entry v k s → entry v k s' → s = s'.

(** ** The entries a value flattens to *)

(** The scalars of a value with their keys, in the order they are visited. *)
Fixpoint leaves (prefix : string) (value : yval) : list (string * string) :=
  match value with
  | YMap kvs =>
      (fix go (kvs : list (string * yval)) :=
         match kvs with
         | [] => []
         | (key, val) :: kvs => leaves (child_prefix prefix key) val ++ go kvs
         end) kvs
  | YSeq l =>
      (fix go (i : Z) (l : list yval) :=
         match l with
         | [] => []
         | val :: l => leaves (index_prefix prefix i) val ++ go (i + 1) l
         end) 0 l
  | YString v => [(prefix, v)]
  | YInt v => [(prefix, itoa v)]
  | YInt64 v => [(prefix, itoa v)]
  | YFloat64 v => [(prefix, FormatFloat v)]
  | YBool v => [(prefix, FormatBool v)]
  | YNil => [(prefix, EmptyString)]
  | YOther rendered => [(prefix, rendered)]
  end.

Definition map_leaves (prefix : string) (kvs : list (string * yval)) : list (string * string) :=
  mjoin ((λ kv, leaves (child_prefix prefix kv.1) kv.2) <$> kvs).

Fixpoint seq_leaves (prefix : string) (i : Z) (l : list yval) : list (string * string) :=
  match l with
  | [] => []
  | val :: l => leaves (index_prefix prefix i) val ++ seq_leaves prefix (i + 1) l
  end.

Lemma leaves_map prefix kvs : leaves prefix (YMap kvs) = map_leaves prefix kvs.
Proof.
  cbn [leaves]. unfold map_leaves.
  induction kvs as [|[key val] kvs IH]; [done|]. by rewrite IH.
Qed.

Lemma leaves_seq prefix l : leaves prefix (YSeq l) = seq_leaves prefix 0 l.
Proof.
  cbn [leaves]. generalize 0 as i.
  induction l as [|val l IH]; intros i; [done|]. cbn. by rewrite IH.
Qed.

Lemma map_leaves_app prefix k1 k2 :
  map_leaves prefix (k1 ++ k2) = map_leaves prefix k1 ++ map_leaves prefix k2.
Proof. unfold map_leaves. rewrite fmap_app. apply join_app. Qed.

Lemma seq_leaves_app prefix i l1 l2 :
  seq_leaves prefix i (l1 ++ l2)
  = seq_leaves prefix i l1 ++ seq_leaves prefix (i + Z.of_nat (length l1)) l2.
Proof.
  revert i. induction l1 as [|v l1 IH]; intros i.
  - cbn. by rewrite Z.add_0_r.
  - cbn [app seq_leaves length]. rewrite IH, <- app_assoc. do 3 f_equal. lia.
Qed.

(** Induction on decoded values, through the lists of maps and sequences. *)
Section YvalInd.
Context (P : yval → Prop).
Context (HMap : ∀ kvs, Forall (λ kv, P kv.2) kvs → P (YMap kvs)).
Context (HSeq : ∀ l, Forall P l → P (YSeq l)).
Context (HLeaf : ∀ v, (∀ prefix, ∃ s, leaves prefix v = [(prefix, s)] ∧
                        (∀ result, flattenValue prefix v result = <[prefix := s]> result) ∧
                        text v = Some s ∧ (∀ path x, at_path v path x → path = [] ∧ x = v)) → P v).

Fixpoint yval_induction (v : yval) : P v.
Proof.
  refine (match v with
          | YMap kvs => HMap kvs _
          | YSeq l => HSeq l _
          | _ => HLeaf _ _
          end); try (intros prefix; eexists; split_and!; [reflexivity..|by inversion 1]).
  - induction kvs as [|[k w] kvs IH]; constructor; [apply yval_induction | exact IH].
  - induction l as [|w l IH]; constructor; [apply yval_induction | exact IH].
Defined.
End YvalInd.

(** flattenValue writes exactly the leaves, one after the other. *)
Lemma flattenValue_leaves v prefix result :
  flattenValue prefix v result = write_all (leaves prefix v) result.
Proof.
  revert prefix result.
  induction v as [kvs IH|l IH|v IH] using yval_induction; intros prefix result.
  - rewrite leaves_map. cbn [flattenValue]. revert result.
    induction IH as [|[key val] kvs Hv _ IH]; intros result; [done|].
    change (map_leaves prefix ((key, val) :: kvs))
      with (leaves (child_prefix prefix key) val ++ map_leaves prefix kvs).
    rewrite write_all_app, <- Hv. apply IH.
  - rewrite leaves_seq. cbn [flattenValue]. generalize 0 as i. revert result.
    induction IH as [|val l Hv _ IH]; intros result i; [done|].
    cbn [seq_leaves]. rewrite write_all_app, <- Hv. apply IH.
  - destruct (IH prefix) as (s & -> & E & _). by rewrite E.
Qed.

(** ** Values up to the order of their maps

    Two decodings of one document differ at most in the order in which the
    ranges over their maps happen to run. *)

Inductive yeq : yval → yval → Prop :=
| yeq_refl v : yeq v v
| yeq_trans v1 v2 v3 : yeq v1 v2 → yeq v2 v3 → yeq v1 v3
| yeq_order kvs kvs' : kvs ≡ₚ kvs' → yeq (YMap kvs) (YMap kvs')
| yeq_entry k1 k v v' k2 :
    yeq v v' → yeq (YMap (k1 ++ (k, v) :: k2)) (YMap (k1 ++ (k, v') :: k2))
| yeq_item l1 v v' l2 : yeq v v' → yeq (YSeq (l1 ++ v :: l2)) (YSeq (l1 ++ v' :: l2)).

#[export] Instance yeq_equivalence : Equivalence yeq.
Proof.
  split.
  - intros v. constructor.
  - intros v w. induction 1; eauto using yeq. by apply yeq_order.
  - intros v1 v2 v3. apply yeq_trans.
Qed.

#[export] Instance leaves_proper prefix : Proper (yeq ==> (≡ₚ)) (leaves prefix).
Proof.
  intros v w E. revert prefix.
  induction E as [v|v1 v2 v3 _ IH1 _ IH2|kvs kvs' E|k1 k v v' k2 _ IH|l1 v v' l2 _ IH]; intros prefix.
  - done.
  - by rewrite IH1.
  - rewrite !leaves_map. unfold map_leaves. by rewrite E.
  - rewrite !leaves_map, !map_leaves_app. apply Permutation_app_head.
    change (map_leaves prefix ((k, ?x) :: k2))
      with (leaves (child_prefix prefix k) x ++ map_leaves prefix k2).
    by rewrite (IH (child_prefix prefix k)).
  - rewrite !leaves_seq, !seq_leaves_app. apply Permutation_app_head.
    cbn [seq_leaves]. by rewrite (IH (index_prefix prefix _)).
Qed.

(** No two scalars of the value flatten to the same key. *)
Definition keys_distinct (v : yval) : Prop := NoDup (leaves EmptyString v).*1.

#[export] Instance keys_distinct_proper : Proper (yeq ==> iff) keys_distinct.
Proof. intros v w E. unfold keys_distinct. by rewrite E. Qed.

(** The flattened document. *)
Definition flat (v : yval) : gmap string string := flattenValue EmptyString v ∅.

Lemma flat_leaves v : keys_distinct v → flat v = list_to_map (leaves EmptyString v).
Proof.
  intros H. unfold flat. rewrite flattenValue_leaves, write_all_union by done.
  apply map_union_empty.
Qed.

(** It does not depend on the order in which the maps are visited. *)
Lemma flat_yeq v w : keys_distinct v → yeq v w → flat w = flat v.
Proof.
  intros Hv E. assert (keys_distinct w) as Hw by by rewrite <- E.
  rewrite !flat_leaves by done. symmetry. apply list_to_map_proper; [done|].
  by rewrite E.
Qed.

(** ** The leaves are the entries *)

(** The prefix flattenValue has reached at the end of a path. *)
Definition step_prefix (prefix : string) (p : part) : string :=
  match p with
  | Key k => child_prefix prefix k
  | Index i => index_prefix prefix (Z.of_nat i)
  end.

Lemma spelled_prefix path prefix :
  prefix ≠ EmptyString → foldl step_prefix prefix path = prefix +:+ spelled path.
Proof.
  revert prefix. induction path as [|[k|i] path IH]; intros prefix H; cbn [foldl spelled step_prefix].
  - by rewrite string_app_nil_r.
  - unfold child_prefix. rewrite decide_False by done.
    rewrite IH by (by destruct prefix). by rewrite !string_app_assoc.
  - unfold index_prefix. rewrite IH by (by destruct prefix). by rewrite !string_app_assoc.
Qed.

Lemma dotted_prefix path : foldl step_prefix EmptyString path = dotted path.
Proof.
  induction path as [|[k|i] path IH]; cbn [foldl dotted step_prefix]; [done| |].
  - unfold child_prefix. rewrite decide_True by done.
    destruct (decide (k = EmptyString)) as [->|]; [done|]. by apply spelled_prefix.
  - rewrite spelled_prefix by done. unfold index_prefix. cbn [spelled]. by rewrite !string_app_assoc.
Qed.

Lemma elem_seq_leaves prefix l i k s :
  (k, s) ∈ seq_leaves prefix i l ↔
  ∃ j v, l !! j = Some v ∧ (k, s) ∈ leaves (index_prefix prefix (i + Z.of_nat j)) v.
Proof.
  revert i. induction l as [|v l IH]; intros i; cbn [seq_leaves].
  - split; [by intros ?%not_elem_of_nil|]. by intros (j & v & E & _).
  - rewrite elem_of_app, IH. split.
    + intros [E|(j & w & Ej & E)].
      * exists 0%nat, v. by rewrite Z.add_0_r.
      * exists (S j), w. split; [done|]. by replace (i + Z.of_nat (S j)) with (i + 1 + Z.of_nat j) by lia.
    + intros ([|j] & w & Ej & E).
      * injection Ej as <-. left. by rewrite Z.add_0_r in E.
      * right. exists j, w. split; [done|]. by replace (i + 1 + Z.of_nat j) with (i + Z.of_nat (S j)) by lia.
Qed.

Lemma elem_map_leaves prefix kvs k s :
  (k, s) ∈ map_leaves prefix kvs ↔
  ∃ key v, (key, v) ∈ kvs ∧ (k, s) ∈ leaves (child_prefix prefix key) v.
Proof.
  unfold map_leaves. rewrite list_elem_of_join. setoid_rewrite list_elem_of_fmap. split.
  - intros (l & E & ([key v] & -> & Ekv)). by exists key, v.
  - intros (key & v & Ekv & E). eexists. split; [exact E|]. by exists (key, v).
Qed.

(** The leaves are the scalars with their keys. *)
Lemma elem_leaves v prefix k s :
  (k, s) ∈ leaves prefix v ↔
  ∃ path x, at_path v path x ∧ text x = Some s ∧ k = foldl step_prefix prefix path.
Proof.
  revert prefix. induction v as [kvs IH|l IH|v IH] using yval_induction; intros prefix.
  - rewrite leaves_map, elem_map_leaves. rewrite Forall_forall in IH. split.
    + intros (key & v & Ekv & (path & x & Hx & Ht & ->)%(IH _ Ekv)).
      exists (Key key :: path), x. split; [by eapply at_key|done].
    + intros (path & x & Hx & Ht & ->). inversion Hx as [|? key v path' ? Ekv Hv|]; subst; [done|].
      exists key, v. split; [done|]. apply (IH _ Ekv). by exists path', x.
  - rewrite leaves_seq, elem_seq_leaves. rewrite Forall_lookup in IH. split.
    + intros (j & v & Ej & (path & x & Hx & Ht & ->)%(IH _ _ Ej)).
      exists (Index j :: path), x. split; [by eapply at_index|done].
    + intros (path & x & Hx & Ht & ->). inversion Hx as [| |? j v path' ? Ej Hv]; subst; [done|].
      exists j, v. split; [done|]. apply (IH _ _ Ej). by exists path', x.
  - destruct (IH prefix) as (s' & -> & _ & Ht & Hp). rewrite list_elem_of_singleton. split.
    + intros [= -> ->]. exists [], v. split; [constructor|done].
    + intros (path & x & Hx & Htx & ->). apply Hp in Hx as [-> ->]. cbn. congruence.
Qed.

Lemma entry_leaves v k s : entry v k s ↔ (k, s) ∈ leaves EmptyString v.
Proof. rewrite elem_leaves. unfold entry. by setoid_rewrite dotted_prefix. Qed.

(** What is written in any order is there, if no key is written two values. *)
Lemma elem_write_all (l : list (string * string)) k s :
  (∀ k s s', (k, s) ∈ l → (k, s') ∈ l → s = s') → write_all l ∅ !! k = Some s ↔ (k, s) ∈ l.
Proof.
  intros Hl. rewrite <- (reverse_involutive l). rewrite <- (reverse_involutive l) in Hl.
  induction (reverse l) as [|[k' s'] r IH].
  - cbn. by rewrite elem_of_nil.
  - rewrite reverse_cons in *. rewrite write_all_app. cbn.
    rewrite elem_of_app, list_elem_of_singleton.
    destruct (decide (k' = k)) as [->|Hk].
    + rewrite lookup_insert_eq. split; [intros [= ->]; by right|].
      intros Hs. f_equal. apply (Hl k); [apply elem_of_app; right; by apply list_elem_of_singleton|].
      apply elem_of_app. destruct Hs as [?|[= ->]]; [by left | right; by apply list_elem_of_singleton].
    + rewrite lookup_insert_ne by done. rewrite IH; [naive_solver|].
      intros k0 s0 s1 E0 E1. apply (Hl k0); apply elem_of_app; by left.
Qed.

Lemma keys_unambiguous v : keys_distinct v → unambiguous v.
Proof.
  intros Hv k s s'. rewrite !entry_leaves, !elem_of_list_to_map by done. congruence.
Qed.

Lemma flat_entry v k s : unambiguous v → flat v !! k = Some s ↔ entry v k s.
Proof.
  intros Hv. unfold flat. rewrite flattenValue_leaves, entry_leaves. apply elem_write_all.
  intros k' s1 s2. rewrite <- !entry_leaves. apply Hv.
Qed.

Lemma entry_yeq v w k s : yeq v w → entry v k s ↔ entry w k s.
Proof. intros E. rewrite !entry_leaves. by rewrite E. Qed.

(** ** Properties *)

(** C33 flattenValue is exact: on a document in which no key stands for two
    texts, the flat map has a text under a key if and only if the document has a
    scalar of that text at a path spelled by that key - keys separated by dots,
    indices from 0 in brackets, empty keys at the front left out - whatever the
    orders in which Go visits its maps, for any other decoding of the document
    flattens to the same map.  A whole number below 10^16 appears as its decimal
    digits. *)
Theorem flattenValue_correct v w :
  unambiguous v → yeq v w →
  (∀ k s, flat v !! k = Some s ↔ entry v k s) ∧ flat w = flat v ∧
  (∀ path neg m e n, at_path v path (YFloat64 (S754_finite neg m e)) →
     e <= 0 → Z.pos m = n * 2 ^ (- e) → 0 < n < 10 ^ 16 →
     flat v !! dotted path = Some (itoa (if neg then - n else n))).
Proof.
  intros Hv E. assert (unambiguous w) as Hw.
  { intros k s s'. rewrite <- !(entry_yeq v w _ _ E). apply Hv. }
  split; [intros k s; by apply flat_entry|]. split.
  - apply map_eq. intros k. apply option_eq. intros s. rewrite !flat_entry by done. symmetry.
    by apply entry_yeq.
  - intros path neg m e n Hp He Hm Hn. apply flat_entry; [done|].
    exists path, (YFloat64 (S754_finite neg m e)). split; [exact Hp|]. split; [|reflexivity].
    apply (f_equal Some), (FormatFloat_whole m e n He Hm Hn).
Qed.

Lemma flattenValue_correct_witness :
  let v := YMap [("app", YMap [("name", YString "x"); ("port", YFloat64 (double 5432 0))]);
                 ("items", YSeq [YBool true; YNil])] in
  let w := YMap [("items", YSeq [YBool true; YNil]);
                 ("app", YMap [("name", YString "x"); ("port", YFloat64 (double 5432 0))])] in
  flat w = flat v ∧ flat v !! "app.port" = Some "5432" ∧ flat v !! "items[0]" = Some "true".
Proof.
  intros v w.
  assert (unambiguous v) as Hv.
  { apply keys_unambiguous. apply (bool_decide_unpack _). vm_compute. done. }
  destruct (flattenValue_correct v w Hv) as (Hl & Hw & Hn).
  { apply yeq_order. apply Permutation_swap. }
  split; [exact Hw|]. split.
  - apply (Hn [Key "app"; Key "port"] false 5972547162079232%positive (-40) 5432).
    + do 2 (eapply at_key; [repeat constructor|]). apply at_here.
    + lia.
    + vm_compute. reflexivity.
    + lia.
  - apply Hl. exists [Key "items"; Index 0], (YBool true). split; [|split; reflexivity].
    eapply at_key; [apply elem_of_cons; right; by left|].
    eapply at_index; [reflexivity|]. apply at_here.
Defined.

(** When keys do collide ("a.b" as a key, and b under a), the two orders in
    which Go may visit the top-level map give different values: the flags of the
    job then depend on the run. *)
Theorem flattenValue_collision_order_dependent :
  ∃ v w, yeq v w ∧ flat v !! "a.b" = Some "1" ∧ flat w !! "a.b" = Some "2".
Proof.
  exists (YMap [("a", YMap [("b", YString "2")]); ("a.b", YString "1")]).
  exists (YMap [("a.b", YString "1"); ("a", YMap [("b", YString "2")])]).
  split; [apply yeq_order, Permutation_swap|]. by vm_compute.
Qed.
