(* ===== verification/Fetch.v ===== *)
(** * Resolving values (internal/values/fetch.go, implementation.go, resolver.go)

    ConfigMaps and Secrets are looked up in the bundle's namespace first and in
    the target namespace second; every key of an object holds a YAML document;
    the sources of a bundle are merged in order. *)
From S2P Require Import Prelude GoErrors Prog Api Kube Samples Values Yaml.

Abbreviation data_map := (gmap string string).

Section Fetch.
Context `{Machinery}.

(** ** fetch.go *)

(** The loop of parseAndMergeConfigMapData over the keys in range order. *)
Fixpoint parse_documents (docs : list (string * string)) (maps : list data_map)
    : prog (result data_map) :=
  match docs with
  | [] => mret (Ok (mergeMaps maps))
  | (key, yamlData) :: docs =>
      r ← parseYAML yamlData;
      match r with
      | Err err =>
          mret (Err (WrapError ("failed to parse YAML from ConfigMap key " +:+ quote key) err))
      | Ok parsed => parse_documents docs (maps ++ [parsed])
      end
  end.

Definition parseAndMergeConfigMapData (data : data_map) : prog (result data_map) :=
  docs ← perform (RangeStrings data);
  parse_documents docs [].

(** string(v) on the bytes of a key. *)
Definition secretDataToStringMap (data : gmap string (list Byte.byte)) : data_map :=
  String.string_of_list_byte <$> data.

Definition parseAndMergeSecretData (data : gmap string (list Byte.byte)) : prog (result data_map) :=
  parseAndMergeConfigMapData (secretDataToStringMap data).

Definition named (name namespace : string) : NamespacedName :=
  {| key_Name := name; key_Namespace := namespace |}.

(** [targetNamespace != "" && targetNamespace != bundleNamespace] *)
Definition other_namespace (bundleNamespace targetNamespace : string) : bool :=
  negb (str_eqb targetNamespace EmptyString) && negb (str_eqb targetNamespace bundleNamespace).

Definition fetchConfigMap (name bundleNamespace targetNamespace : string) : prog (result data_map) :=
  r ← perform (GetConfigMap (named name bundleNamespace));
  match r with
  | Ok cm => parseAndMergeConfigMapData (cm_Data cm)
  | Err err =>
      if negb (IsNotFound err) then
        mret (Err (WrapError ("failed to get ConfigMap " +:+ quote name +:+ " from namespace "
                                +:+ quote bundleNamespace) err))
      else if other_namespace bundleNamespace targetNamespace then
        r ← perform (GetConfigMap (named name targetNamespace));
        match r with
        | Ok cm => parseAndMergeConfigMapData (cm_Data cm)
        | Err err =>
            if negb (IsNotFound err) then
              mret (Err (WrapError ("failed to get ConfigMap " +:+ quote name
                                      +:+ " from namespace " +:+ quote targetNamespace) err))
            else
              mret (Err (WrapError ("configMap " +:+ quote name +:+ " not found in namespaces "
                                      +:+ quote bundleNamespace +:+ " or "
                                      +:+ quote targetNamespace) ErrNotFound))
        end
      else
        mret (Err (WrapError ("configMap " +:+ quote name +:+ " not found in namespace "
                                +:+ quote bundleNamespace) ErrNotFound))
  end.

Definition fetchSecret (name bundleNamespace targetNamespace : string) : prog (result data_map) :=
  r ← perform (GetSecret (named name bundleNamespace));
  match r with
  | Ok secret => parseAndMergeSecretData (secret_Data secret)
  | Err err =>
      if negb (IsNotFound err) then
        mret (Err (WrapError ("failed to get Secret " +:+ quote name +:+ " from namespace "
                                +:+ quote bundleNamespace) err))
      else if other_namespace bundleNamespace targetNamespace then
        r ← perform (GetSecret (named name targetNamespace));
        match r with
        | Ok secret => parseAndMergeSecretData (secret_Data secret)
        | Err err =>
            if negb (IsNotFound err) then
              mret (Err (WrapError ("failed to get Secret " +:+ quote name
                                      +:+ " from namespace " +:+ quote targetNamespace) err))
            else
              mret (Err (WrapError ("secret " +:+ quote name +:+ " not found in namespaces "
                                      +:+ quote bundleNamespace +:+ " or "
                                      +:+ quote targetNamespace) ErrNotFound))
        end
      else
        mret (Err (WrapError ("secret " +:+ quote name +:+ " not found in namespace "
                                +:+ quote bundleNamespace) ErrNotFound))
  end.

(** ** implementation.go *)

Definition isNotFoundError (err : error) : bool :=
  if IsNotFound err then true else Is_ErrNotFound err.

(** Which object one source names, or the error for a malformed source. *)
Definition fetch_source (i : Z) (source : ValuesSource) (bundleNamespace targetNamespace : string)
    : error + prog (result data_map) :=
  match ConfigMapRef source with
  | Some ref =>
      if decide (ref_Name ref = EmptyString) then
        inl (ErrorString ("source " +:+ itoa i +:+ ": ConfigMapRef name is empty"))
      else inr (fetchConfigMap (ref_Name ref) bundleNamespace targetNamespace)
  | None =>
      match SecretRef source with
      | Some ref =>
          if decide (ref_Name ref = EmptyString) then
            inl (ErrorString ("source " +:+ itoa i +:+ ": SecretRef name is empty"))
          else inr (fetchSecret (ref_Name ref) bundleNamespace targetNamespace)
      | None =>
          inl (ErrorString ("source " +:+ itoa i +:+ ": neither ConfigMapRef nor SecretRef is set"))
      end
  end.

(** The loop of ResolveValues from source [i] on. *)
Fixpoint resolve_from (i : Z) (sources : list ValuesSource)
    (bundleNamespace targetNamespace : string) (allMaps : list data_map)
    : prog (result data_map) :=
  match sources with
  | [] => mret (Ok (mergeMaps allMaps))
  | source :: sources =>
      match fetch_source i source bundleNamespace targetNamespace with
      | inl err => mret (Err err)
      | inr fetch =>
          r ← fetch;
          match r with
          | Err err =>
              if Optional source && isNotFoundError err then
                resolve_from (i + 1) sources bundleNamespace targetNamespace allMaps
              else mret (Err (WrapError ("source " +:+ itoa i) err))
          | Ok data =>
              resolve_from (i + 1) sources bundleNamespace targetNamespace (allMaps ++ [data])
          end
      end
  end.

Definition ResolverImpl_ResolveValues (sources : list ValuesSource)
    (bundleNamespace targetNamespace : string) : prog (result data_map) :=
  resolve_from 0 sources bundleNamespace targetNamespace [].

(** ** resolver.go

    What the job builder knows of a resolver. *)
Class Resolver := {
  ResolveValues : list ValuesSource → string → string → prog (result data_map);
}.

Definition NewResolver : Resolver := {| ResolveValues := ResolverImpl_ResolveValues |}.

(** ** The specification

    What the operator should see of the cluster while it resolves the values of
    one bundle: the objects of a snapshot, and one decoding per document. *)
Record Snapshot := {
  snap_ConfigMap : NamespacedName → result ConfigMap;
  snap_Secret : NamespacedName → result Secret;
  snap_yaml : string → result yval;
}.

(** The answers agree with the snapshot; maps are visited in any order. *)
Definition agrees (snap : Snapshot) (e : event) : Prop :=
  match e with
  | Ev (GetConfigMap k) a => a = snap_ConfigMap snap k
  | Ev (GetSecret k) a => a = snap_Secret snap k
  | Ev (YamlUnmarshal d) a =>
      match a, snap_yaml snap d with
      | Ok v, Ok w => yeq w v
      | Err e1, Err e2 => e1 = e2
      | _, _ => False
      end
  | Ev (RangeStrings m) l => l ≡ₚ map_to_list m
  | _ => True
  end.

(** The flat map of one document. *)
Definition doc_flat (snap : Snapshot) (doc : string) : data_map :=
  if decide (doc = EmptyString) then ∅
  else match snap_yaml snap doc with Ok v => flat v | Err _ => ∅ end.

Definition doc_ok (snap : Snapshot) (doc : string) : Prop :=
  doc = EmptyString ∨ ∃ v, snap_yaml snap doc = Ok v ∧ keys_distinct v.

(** Any two of the maps give a common key the same value. *)
Definition compatible (maps : list data_map) : Prop :=
  ∀ m1 m2 k x y, m1 ∈ maps → m2 ∈ maps → m1 !! k = Some x → m2 !! k = Some y → x = y.

(** The documents of an object decode, and do not contradict each other. *)
Definition clean (snap : Snapshot) (data : data_map) : Prop :=
  Forall (doc_ok snap) (map_to_list data).*2 ∧
  compatible (doc_flat snap <$> (map_to_list data).*2).

Definition data_spec (snap : Snapshot) (data : data_map) : data_map :=
  mergeMaps (doc_flat snap <$> (map_to_list data).*2).

(** Where an object is looked up: the bundle's namespace, then, if it is not
    there, a different target namespace. *)
Definition find_object {X} (get : NamespacedName → result X) (Kind kind name b t : string) : result X :=
  match get (named name b) with
  | Ok x => Ok x
  | Err e =>
      if negb (IsNotFound e) then
        Err (WrapError ("failed to get " +:+ Kind +:+ quote name +:+ " from namespace " +:+ quote b) e)
      else if other_namespace b t then
        match get (named name t) with
        | Ok x => Ok x
        | Err e =>
            if negb (IsNotFound e) then
              Err (WrapError ("failed to get " +:+ Kind +:+ quote name +:+ " from namespace " +:+ quote t) e)
            else Err (WrapError (kind +:+ quote name +:+ " not found in namespaces " +:+ quote b
                                   +:+ " or " +:+ quote t) ErrNotFound)
        end
      else Err (WrapError (kind +:+ quote name +:+ " not found in namespace " +:+ quote b) ErrNotFound)
  end.

Definition result_map {X Y} (f : X → Y) (r : result X) : result Y :=
  match r with Ok x => Ok (f x) | Err e => Err e end.

(** The documents a source names in the snapshot. *)
Definition source_data (snap : Snapshot) (i : Z) (s : ValuesSource) (b t : string)
    : error + result data_map :=
  match ConfigMapRef s with
  | Some ref =>
      if decide (ref_Name ref = EmptyString) then
        inl (ErrorString ("source " +:+ itoa i +:+ ": ConfigMapRef name is empty"))
      else inr (result_map cm_Data
                  (find_object (snap_ConfigMap snap) "ConfigMap " "configMap " (ref_Name ref) b t))
  | None =>
      match SecretRef s with
      | Some ref =>
          if decide (ref_Name ref = EmptyString) then
            inl (ErrorString ("source " +:+ itoa i +:+ ": SecretRef name is empty"))
          else inr (result_map (λ x, secretDataToStringMap (secret_Data x))
                      (find_object (snap_Secret snap) "Secret " "secret " (ref_Name ref) b t))
      | None =>
          inl (ErrorString ("source " +:+ itoa i +:+ ": neither ConfigMapRef nor SecretRef is set"))
      end
  end.

(** The sources in order: the first failure ends the resolution, an optional
    source that is missing is skipped, the others are merged. *)
Fixpoint resolve_spec (snap : Snapshot) (i : Z) (sources : list ValuesSource) (b t : string)
    (acc : list data_map) : result data_map :=
  match sources with
  | [] => Ok (mergeMaps acc)
  | s :: sources =>
      match source_data snap i s b t with
      | inl e => Err e
      | inr (Ok data) => resolve_spec snap (i + 1) sources b t (acc ++ [data_spec snap data])
      | inr (Err e) =>
          if Optional s && isNotFoundError e then resolve_spec snap (i + 1) sources b t acc
          else Err (WrapError ("source " +:+ itoa i) e)
      end
  end.

(** Every object a source names in the snapshot is clean. *)
Definition source_clean (snap : Snapshot) (b t : string) (s : ValuesSource) : Prop :=
  ∀ i data, source_data snap i s b t = inr (Ok data) → clean snap data.

(** ** Lemmas *)

Lemma last_wins_elem k maps v : last_wins k maps = Some v → ∃ m, m ∈ maps ∧ m !! k = Some v.
Proof.
  induction maps as [|m maps IH]; cbn; [done|].
  destruct (last_wins k maps).
  - intros [= ->]. destruct IH as (m' & Hm & E); [done|].
    exists m'. split; [by right|done].
  - intros E. exists m. split; [by left|done].
Qed.

Lemma last_wins_none k maps m : last_wins k maps = None → m ∈ maps → m !! k = None.
Proof.
  induction maps as [|m' maps IH]; cbn; [by intros _ ?%not_elem_of_nil|].
  destruct (last_wins k maps); [done|].
  intros E [->|Hm]%elem_of_cons; [done|]. by apply IH.
Qed.

(** Compatible maps merge to the same map in any order. *)
Lemma mergeMaps_perm maps maps' :
  compatible maps → maps ≡ₚ maps' → mergeMaps maps = mergeMaps maps'.
Proof.
  intros Hc E. apply map_eq. intros k. rewrite !mergeMaps_lookup.
  destruct (last_wins k maps) as [v|] eqn:E1, (last_wins k maps') as [w|] eqn:E2; try done.
  - apply last_wins_elem in E1 as (m1 & H1 & K1), E2 as (m2 & H2 & K2).
    rewrite <- E in H2. f_equal. exact (Hc m1 m2 k v w H1 H2 K1 K2).
  - apply last_wins_elem in E1 as (m1 & H1 & K1). rewrite E in H1.
    eapply last_wins_none in E2; [|exact H1]. congruence.
  - apply last_wins_elem in E2 as (m1 & H1 & K1). rewrite <- E in H1.
    eapply last_wins_none in E1; [|exact H1]. congruence.
Qed.

Lemma wp_parse_documents snap docs maps :
  Forall (doc_ok snap) docs.*2 →
  wp (agrees snap) (parse_documents docs maps) (λ t o,
    o = Done (Ok (mergeMaps (maps ++ (doc_flat snap <$> docs.*2))))).
Proof.
  revert maps. induction docs as [|[key d] docs IH]; intros maps Hd.
  - cbn. by rewrite app_nil_r.
  - cbn [fmap list_fmap] in Hd. apply Forall_cons in Hd as [Hd Hds].
    change ((key, d).2) with d in Hd. cbn [parse_documents]. unfold parseYAML, doc_ok in *.
    assert (∀ m, m = doc_flat snap d →
      wp (agrees snap) (parse_documents docs (maps ++ [m])) (λ t o,
        o = Done (Ok (mergeMaps (maps ++ (doc_flat snap <$> ((key, d) :: docs).*2)))))) as Hnext.
    { intros m ->. eapply wp_mono; [apply IH; exact Hds|]. cbn. intros _ o ->.
      by rewrite <- app_assoc. }
    destruct (decide (d = EmptyString)) as [->|Hne].
    + apply Hnext. done.
    + destruct Hd as [?|(v & Ev & Hk)]; [done|]. cbn -[parse_documents flattenValue].
      intros a. rewrite Ev. destruct a as [w|e]; [|done]. intros E.
      apply Hnext. unfold doc_flat. rewrite decide_False by done. rewrite Ev.
      by apply flat_yeq.
Qed.

Lemma wp_parseAndMerge snap data :
  clean snap data →
  wp (agrees snap) (parseAndMergeConfigMapData data) (λ t o, o = Done (Ok (data_spec snap data))).
Proof.
  intros [Hd Hc]. unfold parseAndMergeConfigMapData. cbn -[parse_documents].
  intros l E. eapply wp_mono; [apply wp_parse_documents; by rewrite E|].
  cbn. intros _ o ->. do 2 f_equal. symmetry. apply mergeMaps_perm; [done|]. by rewrite E.
Qed.

(** What a fetch returns, given where its object is found. *)
Definition fetched (snap : Snapshot) (r : result data_map) : outcome (result data_map) :=
  Done (result_map (data_spec snap) r).

Ltac fetch_step :=
  cbn -[parseAndMergeConfigMapData]; intros ? ->.

Lemma wp_fetchConfigMap snap name b t :
  (∀ cm, find_object (snap_ConfigMap snap) "ConfigMap " "configMap " name b t = Ok cm →
         clean snap (cm_Data cm)) →
  wp (agrees snap) (fetchConfigMap name b t) (λ _ o,
    o = fetched snap (result_map cm_Data
          (find_object (snap_ConfigMap snap) "ConfigMap " "configMap " name b t))).
Proof.
  unfold fetchConfigMap, find_object, fetched. intros Hc. fetch_step.
  destruct (snap_ConfigMap snap (named name b)) as [cm|e].
  { by apply wp_parseAndMerge, Hc. }
  destruct (negb (IsNotFound e)); [done|].
  destruct (other_namespace b t); [|done]. fetch_step.
  destruct (snap_ConfigMap snap (named name t)) as [cm|e2].
  { by apply wp_parseAndMerge, Hc. }
  by destruct (negb (IsNotFound e2)).
Qed.

Lemma wp_fetchSecret snap name b t :
  (∀ x, find_object (snap_Secret snap) "Secret " "secret " name b t = Ok x →
        clean snap (secretDataToStringMap (secret_Data x))) →
  wp (agrees snap) (fetchSecret name b t) (λ _ o,
    o = fetched snap (result_map (λ x, secretDataToStringMap (secret_Data x))
          (find_object (snap_Secret snap) "Secret " "secret " name b t))).
Proof.
  unfold fetchSecret, find_object, fetched, parseAndMergeSecretData. intros Hc. fetch_step.
  destruct (snap_Secret snap (named name b)) as [x|e].
  { by apply wp_parseAndMerge, Hc. }
  destruct (negb (IsNotFound e)); [done|].
  destruct (other_namespace b t); [|done]. fetch_step.
  destruct (snap_Secret snap (named name t)) as [x|e2].
  { by apply wp_parseAndMerge, Hc. }
  by destruct (negb (IsNotFound e2)).
Qed.

(** One source: the program that fetches it, against its specification. *)
Lemma wp_fetch_source snap i s b t :
  source_clean snap b t s →
  match fetch_source i s b t, source_data snap i s b t with
  | inl e1, inl e2 => e1 = e2
  | inr p, inr r => wp (agrees snap) p (λ _ o, o = fetched snap r)
  | _, _ => False
  end.
Proof.
  unfold source_clean, fetch_source, source_data. intros Hc.
  destruct (ConfigMapRef s) as [ref|].
  - destruct (decide (ref_Name ref = EmptyString)); [done|].
    apply wp_fetchConfigMap. intros cm E. apply (Hc i). by rewrite E.
  - destruct (SecretRef s) as [ref|]; [|done].
    destruct (decide (ref_Name ref = EmptyString)); [done|].
    apply wp_fetchSecret. intros x E. apply (Hc i). by rewrite E.
Qed.

Lemma wp_resolve_from snap i sources b t acc :
  Forall (source_clean snap b t) sources →
  wp (agrees snap) (resolve_from i sources b t acc)
    (λ _ o, o = Done (resolve_spec snap i sources b t acc)).
Proof.
  intros Hs. revert i acc. induction Hs as [|s sources Hc _ IH]; intros i acc; [done|].
  cbn [resolve_from resolve_spec].
  pose proof (wp_fetch_source snap i s b t Hc) as Hw.
  destruct (fetch_source i s b t) as [e|p], (source_data snap i s b t) as [e'|r];
    [by subst | done | done |].
  eapply wp_call; [exact Hw|]. intros tr o ->. unfold fetched. cbn [after].
  destruct r as [data|e]; cbn [result_map].
  - apply IH.
  - destruct (Optional s && isNotFoundError e); [apply IH|done].
Qed.

(** The ConfigMaps an execution asks for, in order. *)
Definition cm_gets (tr : list event) : list NamespacedName :=
  omap (λ e, match ev_call e with GetConfigMap k => Some k | _ => None end) tr.

Lemma wp_parse_no_gets data :
  wp any (parseAndMergeConfigMapData data) (λ t _, cm_gets t = []).
Proof.
  unfold parseAndMergeConfigMapData. cbn -[parse_documents cm_gets]. intros docs _.
  enough (∀ maps, wp any (parse_documents docs maps) (λ t _, cm_gets t = [])) as Hd.
  { eapply wp_mono; [apply Hd|]. done. }
  induction docs as [|[key d] docs IH]; intros maps; [done|].
  cbn [parse_documents]. unfold parseYAML. destruct (decide (d = EmptyString)); [apply IH|].
  cbn -[parse_documents cm_gets]. intros [v|e] _; [|done].
  eapply wp_mono; [apply IH|]. done.
Qed.

(** Resolving values never panics. *)
Lemma no_panic_parse_documents docs maps : no_panic (parse_documents docs maps).
Proof.
  revert maps. induction docs as [|[key d] docs IH]; intros maps; cbn [parse_documents];
    [apply no_panic_ret|].
  apply no_panic_bind.
  - unfold parseYAML. case_decide; [apply no_panic_ret|].
    apply no_panic_perform. intros [v|e]; apply no_panic_ret.
  - intros [m|e]; [apply IH | apply no_panic_ret].
Qed.

Lemma no_panic_fetch i s b t p : fetch_source i s b t = inr p → no_panic p.
Proof.
  assert (∀ data, no_panic (parseAndMergeConfigMapData data)) as Hp.
  { intros data. apply no_panic_perform. intros docs. apply no_panic_parse_documents. }
  unfold fetch_source. intros E. repeat case_match; simplify_eq/=.
  all: apply no_panic_perform; intros [x|e]; [apply Hp|].
  all: repeat case_match; try apply no_panic_ret.
  all: apply no_panic_perform; intros [x|e2]; [apply Hp|].
  all: repeat case_match; apply no_panic_ret.
Qed.

Lemma no_panic_ResolveValues sources b t : no_panic (ResolverImpl_ResolveValues sources b t).
Proof.
  unfold ResolverImpl_ResolveValues. generalize 0 as i, (@nil data_map) as acc.
  induction sources as [|s sources IH]; intros i acc; cbn [resolve_from]; [apply no_panic_ret|].
  destruct (fetch_source i s b t) as [e|p] eqn:E; [apply no_panic_ret|].
  apply no_panic_bind; [by eapply no_panic_fetch|].
  intros [m|e]; [apply IH|]. destruct (_ && _); [apply IH|apply no_panic_ret].
Qed.

(** ** What a successful resolution means *)

(** The maps of the sources that were found, in order. *)
Fixpoint found_maps (snap : Snapshot) (i : Z) (sources : list ValuesSource) (b t : string)
    : list data_map :=
  match sources with
  | [] => []
  | s :: sources =>
      match source_data snap i s b t with
      | inr (Ok data) => [data_spec snap data]
      | _ => []
      end ++ found_maps snap (i + 1) sources b t
  end.

Lemma resolve_spec_ok snap i sources b t acc m :
  resolve_spec snap i sources b t acc = Ok m →
  m = mergeMaps (acc ++ found_maps snap i sources b t) ∧
  Forall (λ s, Optional s = true ∨ ∃ j data, source_data snap j s b t = inr (Ok data)) sources.
Proof.
  revert i acc. induction sources as [|s sources IH]; intros i acc; cbn.
  - intros [= <-]. by rewrite app_nil_r.
  - destruct (source_data snap i s b t) as [e|[data|e]] eqn:E; [done|..].
    + intros Hr. apply IH in Hr as [-> Hf]. rewrite <- app_assoc.
      split; [done|]. constructor; [|done]. right. by exists i, data.
    + destruct (Optional s) eqn:Eo; [|done]. destruct (isNotFoundError e); [|done].
      intros Hr. apply IH in Hr as [-> Hf]. split; [done|]. constructor; [by left|done].
Qed.

(** ** Properties *)

(** C17 Refinement: against a snapshot of the cluster whose documents decode and
    do not contradict each other, every execution of ResolveValues - whatever
    the orders in which the maps are visited - returns what the specification
    computes: bundle namespace before target namespace, first failure wins,
    optional missing sources skipped, the rest merged in order. *)
Theorem ResolveValues_refines snap sources b t tr o :
  exec (ResolverImpl_ResolveValues sources b t) tr o →
  Forall (agrees snap) tr →
  Forall (source_clean snap b t) sources →
  o = Done (resolve_spec snap 0 sources b t []).
Proof.
  intros He Ht Hs. exact (wp_exec _ _ _ _ _ (wp_resolve_from snap 0 sources b t [] Hs) He Ht).
Qed.

(** When resolution succeeds, a key has the value the last found source gives
    it, and only optional sources are missing. *)
Theorem ResolveValues_success snap sources b t tr m k :
  exec (ResolverImpl_ResolveValues sources b t) tr (Done (Ok m)) →
  Forall (agrees snap) tr →
  Forall (source_clean snap b t) sources →
  m !! k = last_wins k (found_maps snap 0 sources b t) ∧
  Forall (λ s, Optional s = true ∨ ∃ j data, source_data snap j s b t = inr (Ok data)) sources.
Proof.
  intros He Ht Hs.
  pose proof (wp_exec _ _ _ _ _ (wp_resolve_from snap 0 sources b t [] Hs) He Ht) as E.
  cbn in E. injection E as E. symmetry in E. apply resolve_spec_ok in E as [-> Hf].
  split; [|done]. cbn. apply mergeMaps_lookup.
Qed.

(** The namespace of the bundle takes precedence: its object is asked for
    first and exactly once; the target namespace is asked only when it is set,
    differs from the bundle's, and the first answer was NotFound. *)
Theorem fetchConfigMap_precedence name b t tr o :
  exec (fetchConfigMap name b t) tr o →
  cm_gets tr = [named name b] ∨
  cm_gets tr = [named name b; named name t] ∧ t ≠ EmptyString ∧ t ≠ b ∧
  ∃ e, IsNotFound e = true ∧ head tr = Some (Ev (GetConfigMap (named name b)) (Err e)).
Proof.
  intros He. by_wp He. unfold fetchConfigMap.
  cbn -[parseAndMergeConfigMapData cm_gets]. intros [cm|e] _.
  { eapply wp_mono; [apply wp_parse_no_gets|]. intros t1 o1 E. left. unfold cm_gets in *. cbn. by rewrite E. }
  destruct (IsNotFound e) eqn:Ee; [|by left]. cbn [negb].
  destruct (other_namespace b t) eqn:Eo; [|by left].
  unfold other_namespace, str_eqb in Eo. apply andb_true_iff in Eo as [E1 E2].
  rewrite negb_true_iff, bool_decide_eq_false in E1, E2.
  cbn -[parseAndMergeConfigMapData cm_gets]. intros [cm|e2] _.
  { eapply wp_mono; [apply wp_parse_no_gets|]. intros t1 o1 E. right. unfold cm_gets in *. cbn. rewrite E. eauto 8. }
  destruct (negb (IsNotFound e2)); right; cbn; eauto 8.
Qed.

End Fetch.

(** ** Witnesses *)

#[local] Existing Instance sample_machinery.

(** Two ConfigMaps, one of them in the target namespace, and no secret. *)
Definition sample_cm (name ns doc : string) : ConfigMap :=
  {| cm_Meta := {| Name := name; Namespace := ns; UID := EmptyString; ResourceVersion := EmptyString; Labels := ∅;
                   Finalizers := []; DeletionTimestamp := None; OwnerReferences := [] |};
     cm_Data := {["values.yaml" := doc]} |}.

Definition sample_snapshot : Snapshot := {|
  snap_ConfigMap := λ k,
    if decide (k.(key_Name) = "base" ∧ k.(key_Namespace) = "default") then
      Ok (sample_cm "base" "default" "doc1")
    else if decide (k.(key_Name) = "extra" ∧ k.(key_Namespace) = "prod") then
      Ok (sample_cm "extra" "prod" "doc2")
    else Err (not_found "configmaps");
  snap_Secret := λ _, Err (not_found "secrets");
  snap_yaml := λ d,
    if decide (d = "doc1") then Ok (YMap [("k", YString "1"); ("l", YString "x")])
    else Ok (YMap [("k", YString "2")]);
|}.

Definition snapshot_answers (c : kcall) : kans c :=
  match c with
  | GetConfigMap k => snap_ConfigMap sample_snapshot k
  | GetSecret k => snap_Secret sample_snapshot k
  | YamlUnmarshal d => snap_yaml sample_snapshot d
  | c => sample_answers c
  end.

Definition sample_sources : list ValuesSource :=
  [ {| ConfigMapRef := Some {| ref_Name := "base" |}; SecretRef := None; Optional := false |};
    {| ConfigMapRef := None; SecretRef := Some {| ref_Name := "creds" |}; Optional := true |};
    {| ConfigMapRef := Some {| ref_Name := "extra" |}; SecretRef := None; Optional := false |} ].

Definition sample_resolution : list event * outcome (result data_map) :=
  run_with snapshot_answers (ResolverImpl_ResolveValues sample_sources "default" "prod").

Lemma sample_resolution_agrees : Forall (agrees sample_snapshot) sample_resolution.1.
Proof.
  apply run_with_legal. intros c. destruct c; cbn; try done. by destruct (decide _).
Qed.

Lemma clean_singleton snap key doc :
  doc_ok snap doc → clean snap {[key := doc]}.
Proof.
  intros Hd. split; rewrite map_to_list_singleton.
  - by apply Forall_singleton.
  - intros m1 m2 k x y ->%list_elem_of_singleton ->%list_elem_of_singleton. congruence.
Qed.

Lemma sample_sources_clean : Forall (source_clean sample_snapshot "default" "prod") sample_sources.
Proof.
  assert (∀ doc data, doc_ok sample_snapshot doc →
            inr (Ok data) = inr (A := error) (Ok {["values.yaml" := doc]}) →
            clean sample_snapshot data) as Hc.
  { intros doc data Hd [= ->]. by apply clean_singleton. }
  assert (∀ v doc, snap_yaml sample_snapshot doc = Ok v →
            bool_decide (keys_distinct v) = true → doc_ok sample_snapshot doc) as Hd.
  { intros v doc Ev Hv. right. exists v. split; [done|]. by apply bool_decide_eq_true in Hv. }
  apply Forall_cons; split; [|apply Forall_cons; split; [|apply Forall_singleton]];
    intros i data E.
  - apply (Hc "doc1"); [|by rewrite <- E]. by eapply Hd.
  - done.
  - apply (Hc "doc2"); [|by rewrite <- E]. by eapply Hd.
Qed.

Lemma ResolveValues_refines_witness :
  sample_resolution.2 = Done (resolve_spec sample_snapshot 0 sample_sources "default" "prod" []).
Proof.
  apply (ResolveValues_refines sample_snapshot sample_sources "default" "prod" sample_resolution.1).
  - apply run_with_exec.
  - apply sample_resolution_agrees.
  - apply sample_sources_clean.
Defined.

Lemma ResolveValues_success_witness :
  ∃ m, sample_resolution.2 = Done (Ok m) ∧ m !! "k" = Some "2" ∧ m !! "l" = Some "x".
Proof.
  destruct (sample_resolution.2) as [[m|e]|msg] eqn:E; [|by vm_compute in E..].
  exists m. split; [done|].
  assert (exec (ResolverImpl_ResolveValues sample_sources "default" "prod")
            sample_resolution.1 (Done (Ok m))) as He by (rewrite <- E; apply run_with_exec).
  pose proof (λ k, proj1 (ResolveValues_success sample_snapshot sample_sources "default" "prod" _ m k
                He sample_resolution_agrees sample_sources_clean)) as Hk.
  split; rewrite Hk; vm_compute; reflexivity.
Defined.

Lemma fetchConfigMap_precedence_witness :
  cm_gets (run_with snapshot_answers (fetchConfigMap "base" "default" "prod")).1
  = [named "base" "default"].
Proof.
  destruct (fetchConfigMap_precedence "base" "default" "prod" _ _
              (run_with_exec snapshot_answers _)) as [E|(E & _)].
  - exact E.
  - by vm_compute in E.
Defined.
