(* ===== verification/TestValues.v ===== *)
(** * Values fixtures (internal/testing/values.go)

    The helpers that turn a map of dotted keys into the ConfigMap or Secret the
    operator reads: the inverse of Yaml.v.  A map[string]interface{} is a list of
    entries with distinct keys, in no order that matters ([yeq]); the pointer the
    loop moves down the tree is the recursion. *)
From S2P Require Import Prelude GoErrors Prog Api Kube Samples Values Yaml Fetch.

(** ** unflatten *)

Abbreviation object := (list (string * yval)).

(** [m[k]] and [m[k] = v]. *)
Fixpoint field (k : string) (m : object) : option yval :=
  match m with
  | [] => None
  | (k', v) :: m => if decide (k' = k) then Some v else field k m
  end.

Fixpoint assign (k : string) (v : yval) (m : object) : object :=
  match m with
  | [] => [(k, v)]
  | (k', v') :: m => if decide (k' = k) then (k, v) :: m else (k', v') :: assign k v m
  end.

(** What the loop finds below [part], or puts there. *)
Definition below (part : string) (curr : object) : object :=
  match field part curr with Some (YMap next) => next | _ => [] end.

(** The loop over the parts of a key. *)
Fixpoint insert_path (parts : list string) (v : string) (curr : object) : object :=
  match parts with
  | [] => curr
  | [part] => assign part (YString v) curr
  | part :: parts => assign part (YMap (insert_path parts v (below part curr))) curr
  end.

(** The entries of the map in the order the range visits them. *)
Definition unflatten (flat : list (string * string)) : object :=
  foldl (λ res kv, insert_path (Split "." kv.1) kv.2 res) [] flat.

(** ** The helpers *)

(** A new object of the API. *)
Definition test_meta (name namespace : string) : ObjectMeta :=
  {| Name := name; Namespace := namespace; UID := EmptyString; ResourceVersion := EmptyString;
     Labels := ∅; Finalizers := []; DeletionTimestamp := None; OwnerReferences := [] |}.

(** yaml.Marshal and the client's Create, on the two kinds of objects. *)
Inductive vcall :=
| RangeValues (m : gmap string string)
| YamlMarshal (v : yval)
| CreateConfigMap_ (cm : ConfigMap)
| CreateSecret_ (s : Secret).

Definition vans (c : vcall) : Type :=
  match c with
  | RangeValues _ => list (string * string)
  | YamlMarshal _ => result string
  | CreateConfigMap_ _ => result ConfigMap
  | CreateSecret_ _ => result Secret
  end.

Definition values_sig : Sig := {| call := vcall; ans := vans |}.
#[local] Existing Instance values_sig.

Definition convertMapToYAML (values : gmap string string) : @prog values_sig (result string) :=
  flat ← perform (RangeValues values);
  let nestedMap := YMap (unflatten flat) in
  data ← perform (YamlMarshal nestedMap);
  match data with
  | Err err => mret (Err (WrapError "failed to marshal values to YAML" err))
  | Ok data => mret (Ok data)
  end.

Definition CreateTestConfigMapWithValues (namespace name : string) (values : gmap string string)
    : @prog values_sig (result ConfigMap) :=
  yamlData ← convertMapToYAML values;
  match yamlData with
  | Err err => mret (Err (WrapError "failed to convert values to YAML" err))
  | Ok yamlData =>
      created ← perform (CreateConfigMap_
        {| cm_Meta := test_meta name namespace; cm_Data := {["values.yaml" := yamlData]} |});
      match created with
      | Err err => mret (Err (WrapError "failed to create ConfigMap" err))
      | Ok cm => mret (Ok cm)
      end
  end.

Definition CreateTestSecretWithValues (namespace name : string) (values : gmap string string)
    : @prog values_sig (result Secret) :=
  yamlData ← convertMapToYAML values;
  match yamlData with
  | Err err => mret (Err (WrapError "failed to convert values to YAML" err))
  | Ok yamlData =>
      created ← perform (CreateSecret_
        {| secret_Meta := test_meta name namespace;
           secret_Data := {["values.yaml" := String.list_byte_of_string yamlData]} |});
      match created with
      | Err err => mret (Err (WrapError "failed to create Secret" err))
      | Ok secret => mret (Ok secret)
      end
  end.

(** The assertions report to [t.Errorf]; here they return the messages. *)
Definition AssertJobHasSetFlag `{Machinery} (job : option Job) (key expectedValue : string) : list string :=
  match ExtractSetFlags job !! key with
  | None => ["expected --set flag for key " +:+ key +:+ " not found in job args"]
  | Some actualValue =>
      if decide (actualValue = expectedValue) then []
      else ["for --set flag " +:+ key +:+ ": expected " +:+ expectedValue +:+ ", got " +:+ actualValue]
  end.

(** The ranges over the expected and over the actual flags, in the orders given;
    the body of the first repeats AssertJobHasSetFlag. *)
Definition AssertJobSetFlagsEqual `{Machinery} (job : option Job) (expectedFlags : gmap string string)
    (expected_order actual_order : list (string * string)) : list string :=
  let flags := ExtractSetFlags job in
  mjoin ((λ kv, AssertJobHasSetFlag job kv.1 kv.2) <$> expected_order) ++
  mjoin ((λ kv, match expectedFlags !! kv.1 with
                | Some _ => []
                | None => ["unexpected --set flag " +:+ kv.1 +:+ "=" +:+ default EmptyString (flags !! kv.1)
                             +:+ " in job args (not in expectedFlags)"]
                end) <$> actual_order).

(** ** Splitting and joining *)

Abbreviation Join := (join ".").

Lemma Split_inj k k' : Split "." k = Split "." k' → k = k'.
Proof. intros E. by rewrite <- (join_Split "." k), E, join_Split. Qed.

(** Parts of one key that continue the parts of another. *)
Lemma Split_prefix k k' :
  Split "." k `prefix_of` Split "." k' → k' = k ∨ ∃ x, k' = k +:+ "." +:+ x.
Proof.
  intros [[|q qs] E].
  - left. apply Split_inj. by rewrite E, app_nil_r.
  - right. exists (Join (q :: qs)). rewrite <- (join_Split "." k'), E, join_strings_app, join_Split; [done| |done].
    destruct (Split_cons "." k) as (p & ps & ->). done.
Qed.

(** ** Looking up a path *)

Fixpoint get (path : list string) (v : yval) : option string :=
  match path, v with
  | [], YString s => Some s
  | part :: path, YMap m => field part m ≫= get path
  | _, _ => None
  end.

Lemma field_assign k k' v m : field k (assign k' v m) = if decide (k' = k) then Some v else field k m.
Proof.
  induction m as [|[a w] m IH]; cbn; [by destruct (decide _)|].
  destruct (decide (a = k')) as [->|]; cbn; [by destruct (decide _)|].
  rewrite IH. by repeat destruct (decide _); simplify_eq.
Qed.

Lemma get_below q part m : q ≠ [] → get q (YMap (below part m)) = get (part :: q) (YMap m).
Proof.
  intros Hq. destruct q as [|q qs]; [done|]. cbn. unfold below.
  by destruct (field part m) as [[]|].
Qed.

Lemma insert_path_cons part parts v m : parts ≠ [] →
  insert_path (part :: parts) v m = assign part (YMap (insert_path parts v (below part m))) m.
Proof. by destruct parts. Qed.

Lemma get_insert parts v m : parts ≠ [] → get parts (YMap (insert_path parts v m)) = Some v.
Proof.
  revert m. induction parts as [|part parts IH]; intros m H; [done|]. cbn [get].
  destruct (decide (parts = [])) as [->|Hp].
  - cbn. by rewrite field_assign, decide_True.
  - rewrite insert_path_cons, field_assign, decide_True by done. cbn. by apply IH.
Qed.

(** Other paths are kept, unless one continues the other. *)
Lemma get_insert_ne parts q v m :
  ¬ parts `prefix_of` q → ¬ q `prefix_of` parts →
  get q (YMap (insert_path parts v m)) = get q (YMap m).
Proof.
  revert q m. induction parts as [|part parts IH]; intros q m Hp Hq.
  { destruct Hp. apply prefix_nil. }
  destruct q as [|q qs]; [destruct Hq; apply prefix_nil|].
  destruct (decide (parts = [])) as [->|Hps].
  - cbn. rewrite field_assign, decide_False; [done|].
    intros ->. apply Hp. by exists qs.
  - rewrite insert_path_cons by done. cbn [get]. rewrite field_assign.
    destruct (decide (part = q)) as [->|]; [|done]. cbn [mbind option_bind].
    rewrite IH.
    + apply get_below. intros ->. apply Hq. by exists parts.
    + intros ?. apply Hp. by apply prefix_cons.
    + intros ?. apply Hq. by apply prefix_cons.
Qed.

(** An insertion brings no other path. *)
Lemma get_insert_inv parts q v m s : parts ≠ [] →
  get q (YMap (insert_path parts v m)) = Some s → q = parts ∧ s = v ∨ get q (YMap m) = Some s.
Proof.
  revert q m. induction parts as [|part parts IH]; intros q m H; [done|].
  destruct q as [|q qs]; [done|]. cbn [get].
  destruct (decide (parts = [])) as [->|Hps].
  - cbn. rewrite field_assign. destruct (decide (part = q)) as [->|]; [|by right].
    destruct qs; cbn; [|done]. intros [= ->]. by left.
  - rewrite insert_path_cons, field_assign by done.
    destruct (decide (part = q)) as [->|]; [|by right]. cbn [mbind option_bind].
    intros [[-> ->]|E]%IH; [by left| |done].
    right. destruct qs; [done|]. by rewrite <- E, get_below.
Qed.

(** ** Trees

    What unflatten builds: maps with distinct keys, and strings. *)

Inductive tree : yval → Prop :=
| tree_string s : tree (YString s)
| tree_map m : NoDup m.*1 → Forall (λ kv, tree kv.2) m → tree (YMap m).

Section TreeInd.
Context (P : yval → Prop).
Context (HString : ∀ s, P (YString s)).
Context (HMap : ∀ m, NoDup m.*1 → Forall (λ kv, P kv.2) m → P (YMap m)).

Fixpoint tree_induction v (T : tree v) : P v.
Proof.
  destruct T as [s|m Hm Hs]; [apply HString|]. apply (HMap _ Hm).
  induction Hs as [|kv m Hkv _ IH]; constructor; [by apply tree_induction|].
  apply IH. cbn in Hm. by apply NoDup_cons in Hm as [_ ?].
Defined.
End TreeInd.

Lemma tree_nil : tree (YMap []).
Proof. constructor; constructor. Qed.

Lemma assign_keys k v m x : x ∈ (assign k v m).*1 → x = k ∨ x ∈ m.*1.
Proof.
  induction m as [|[a w] m IH]; cbn; [set_solver|].
  destruct (decide (a = k)) as [->|]; cbn; set_solver.
Qed.

Lemma tree_assign k v m : tree v → tree (YMap m) → tree (YMap (assign k v m)).
Proof.
  intros Hv Hm. inversion Hm as [|? Hnd Hall]; subst. constructor.
  - clear Hall Hm. induction m as [|[a w] m IH]; cbn in *; [apply NoDup_singleton|].
    apply NoDup_cons in Hnd as [Ha Hnd].
    destruct (decide (a = k)) as [->|]; cbn; apply NoDup_cons; [done|]. split; [|by apply IH].
    by intros [->|?]%assign_keys.
  - clear Hnd Hm. induction m as [|[a w] m IH]; cbn in *; [by repeat constructor|].
    apply Forall_cons in Hall as [Ha Hall].
    destruct (decide (a = k)) as [->|]; constructor; auto.
Qed.

Lemma field_elem k v m : field k m = Some v → (k, v) ∈ m.
Proof.
  induction m as [|[a w] m IH]; cbn; [done|].
  destruct (decide (a = k)) as [->|]; [intros [= ->]; by left|]. intros E. right. by apply IH.
Qed.

Lemma elem_field k v m : NoDup m.*1 → (k, v) ∈ m → field k m = Some v.
Proof.
  induction m as [|[a w] m IH]; cbn; [by intros _ ?%not_elem_of_nil|].
  intros [Ha Hnd]%NoDup_cons [[= -> ->]|E]%elem_of_cons; [by rewrite decide_True|].
  rewrite decide_False; [by apply IH|]. intros ->. apply Ha.
  apply list_elem_of_fmap. by exists (k, v).
Qed.

Lemma tree_below part m : tree (YMap m) → tree (YMap (below part m)).
Proof.
  intros Hm. unfold below. destruct (field part m) as [w|] eqn:E; [|apply tree_nil].
  apply field_elem in E. inversion Hm as [|? _ Hall]; subst.
  rewrite Forall_forall in Hall. specialize (Hall _ E). cbn in Hall.
  destruct w; try apply tree_nil. done.
Qed.

Lemma tree_insert parts v m : tree (YMap m) → tree (YMap (insert_path parts v m)).
Proof.
  revert m. induction parts as [|part parts IH]; intros m Hm; [done|].
  destruct (decide (parts = [])) as [->|Hps]; [apply tree_assign; [constructor|done]|].
  rewrite insert_path_cons by done. apply tree_assign; [|done]. by apply IH, tree_below.
Qed.

(** The strings of a tree with their paths. *)
Fixpoint paths (v : yval) : list (list string * string) :=
  match v with
  | YMap m =>
      (fix go (m : object) :=
         match m with
         | [] => []
         | (k, w) :: m => (prod_map (cons k) id <$> paths w) ++ go m
         end) m
  | YString s => [([], s)]
  | _ => []
  end.

Lemma paths_cons k w m :
  paths (YMap ((k, w) :: m)) = (prod_map (cons k) id <$> paths w) ++ paths (YMap m).
Proof. done. Qed.

(** The key a path flattens to. *)
Definition path_key (prefix : string) (path : list string) : string := foldl child_prefix prefix path.

Lemma leaves_paths v prefix : tree v → leaves prefix v = prod_map (path_key prefix) id <$> paths v.
Proof.
  intros T. revert prefix. induction T as [s|m _ IH] using tree_induction; intros prefix; [done|].
  rewrite leaves_map. induction IH as [|[k w] m Hw _ IH]; [done|].
  rewrite paths_cons, fmap_app, <- IH. cbn in Hw.
  change (map_leaves prefix ((k, w) :: m))
    with (leaves (child_prefix prefix k) w ++ map_leaves prefix m).
  f_equal. rewrite Hw, <- list_fmap_compose. done.
Qed.

Lemma paths_elem m q s :
  (q, s) ∈ paths (YMap m) ↔ ∃ k w q', q = k :: q' ∧ (k, w) ∈ m ∧ (q', s) ∈ paths w.
Proof.
  induction m as [|[k w] m IH].
  - split; [by intros ?%not_elem_of_nil|]. by intros (? & ? & ? & _ & ?%not_elem_of_nil & _).
  - rewrite paths_cons, elem_of_app, IH. split.
    + intros [([q' s'] & [= -> ->] & E)%list_elem_of_fmap|(k' & w' & q' & -> & E & Eq)].
      * exists k, w, q'. split_and!; [done|by left|done].
      * exists k', w', q'. split_and!; [done|by right|done].
    + intros (k' & w' & q' & -> & [[= -> ->]|E]%elem_of_cons & Eq).
      * left. apply list_elem_of_fmap. by exists (q', s).
      * right. by exists k', w', q'.
Qed.

Lemma elem_paths v q s : tree v → (q, s) ∈ paths v ↔ get q v = Some s.
Proof.
  intros T. revert q. induction T as [s'|m Hnd IH] using tree_induction; intros q.
  - cbn. rewrite list_elem_of_singleton. destruct q; cbn; naive_solver.
  - rewrite paths_elem.
    rewrite Forall_forall in IH. split.
    + intros (k & w & q' & -> & Hkw & Hq). cbn. rewrite (elem_field _ _ _ Hnd Hkw). cbn.
      by apply (IH _ Hkw).
    + destruct q as [|k q]; [done|]. cbn. destruct (field k m) as [w|] eqn:E; [|done]. cbn.
      intros Hq. apply field_elem in E. exists k, w, q. split_and!; [done..|]. by apply (IH _ E).
Qed.

Lemma NoDup_paths v : tree v → NoDup (paths v).*1.
Proof.
  induction 1 as [s|m Hnd IH] using tree_induction; [apply NoDup_singleton|].
  induction IH as [|[k w] m Hw _ IH]; [constructor|]. cbn in Hnd.
  apply NoDup_cons in Hnd as [Hk Hnd]. rewrite paths_cons, fmap_app, <- list_fmap_compose.
  apply NoDup_app. split_and!; [|intros q|by apply IH].
  - change (fst ∘ prod_map (cons k) id) with (cons k ∘ @fst (list string) string).
    rewrite list_fmap_compose. apply NoDup_fmap_2; [apply _|done].
  - rewrite !list_elem_of_fmap. intros ([q1 s1] & -> & _) ([q2 s2] & E & E2). cbn in E. subst q2.
    apply Hk. clear - E2. induction m as [|[a w] m IH]; [by apply not_elem_of_nil in E2|].
    rewrite paths_cons in E2. apply elem_of_app in E2 as [E2|E2]; [|right; by apply IH].
    apply list_elem_of_fmap in E2 as ([? ?] & [= -> -> ->] & _). by left.
Qed.

(** ** What unflatten builds *)

(** No key starts with the separator, none continues another after it. *)
Definition nestable (keys : list string) : Prop :=
  (∀ x, "." +:+ x ∉ keys) ∧ (∀ k x, k ∈ keys → k +:+ "." +:+ x ∉ keys).

#[export] Instance nestable_proper : Proper ((≡ₚ) ==> iff) nestable.
Proof. intros l l' E. unfold nestable. by setoid_rewrite E. Qed.

Lemma path_key_join prefix ps :
  prefix ≠ EmptyString → ps ≠ [] → path_key prefix ps = prefix +:+ "." +:+ Join ps.
Proof.
  revert prefix. induction ps as [|p ps IH]; intros prefix Hp Hps; [done|].
  change (path_key prefix (p :: ps)) with (path_key (child_prefix prefix p) ps).
  unfold child_prefix. rewrite decide_False by done.
  destruct (decide (ps = [])) as [->|Hne]; [done|].
  rewrite IH, join_strings_cons by (done || by destruct prefix). by rewrite <- !string_app_assoc.
Qed.

Lemma path_key_Split k : (∀ x, k ≠ "." +:+ x) → path_key EmptyString (Split "." k) = k.
Proof.
  intros Hk. pose proof (join_Split "." k) as E. destruct (Split_cons "." k) as (p & ps & Es).
  rewrite Es in *. change (path_key EmptyString (p :: ps)) with (path_key p ps).
  destruct (decide (ps = [])) as [->|Hps]; [done|].
  rewrite join_strings_cons in E by done. rewrite path_key_join by (done || intros ->; by apply (Hk (Join ps))).
  done.
Qed.

Lemma tree_unflatten l m :
  tree (YMap m) → tree (YMap (foldl (λ res kv, insert_path (Split "." kv.1) kv.2 res) m l)).
Proof. revert m. induction l as [|kv l IH]; intros m T; [done|]. apply IH. by apply tree_insert. Qed.

(** Only the paths of the keys. *)
Lemma get_unflatten_inv l m q s :
  get q (YMap (foldl (λ res kv, insert_path (Split "." kv.1) kv.2 res) m l)) = Some s →
  (∃ k, (k, s) ∈ l ∧ q = Split "." k) ∨ get q (YMap m) = Some s.
Proof.
  revert m. induction l as [|[k v] l IH]; intros m E; [by right|].
  apply IH in E as [(k' & Hk & ->)|E].
  - left. exists k'. split; [by right|done].
  - apply get_insert_inv in E as [[-> ->]|E]; [|by right|apply Split_nonempty].
    left. exists k. split; [by left|done].
Qed.

Lemma Split_apart k k' l : k ∈ l → k' ∈ l → nestable l → k ≠ k' → ¬ Split "." k `prefix_of` Split "." k'.
Proof. intros Hk Hk' [_ Hn] Hne [->|(x & ->)]%Split_prefix; [done|]. by apply (Hn k x). Qed.

(** All the paths of the keys. *)
Lemma get_unflatten l m q s :
  NoDup l.*1 →
  (∀ k, k ∈ l.*1 → ¬ Split "." k `prefix_of` q ∧ ¬ q `prefix_of` Split "." k) →
  get q (YMap m) = Some s →
  get q (YMap (foldl (λ res kv, insert_path (Split "." kv.1) kv.2 res) m l)) = Some s.
Proof.
  revert m. induction l as [|[k v] l IH]; intros m Hnd Hq E; [done|]. cbn in Hnd.
  apply NoDup_cons in Hnd as [_ Hnd]. apply IH; [done| |].
  - intros k' Hk'. apply Hq. by right.
  - destruct (Hq k) as [Hk1 Hk2]; [by left|]. cbn [fst snd]. by rewrite get_insert_ne.
Qed.

Lemma get_unflatten_key l m k s :
  NoDup l.*1 → nestable l.*1 → (k, s) ∈ l →
  get (Split "." k) (YMap (foldl (λ res kv, insert_path (Split "." kv.1) kv.2 res) m l)) = Some s.
Proof.
  intros Hnd Hn (l1 & l2 & ->)%list_elem_of_split.
  rewrite foldl_app. cbn [foldl fst snd]. rewrite fmap_app, fmap_cons in *. cbn [fst] in *.
  pose proof Hnd as (_ & _ & [Hk Hnd2]%NoDup_cons)%NoDup_app.
  apply get_unflatten; [done| |apply get_insert, Split_nonempty].
  intros k' Hk'. assert (k ≠ k') by by intros ->.
  split; (eapply Split_apart; [| |exact Hn|]; [set_solver..|done]).
Qed.

Lemma unflatten_paths l :
  NoDup l.*1 → nestable l.*1 →
  paths (YMap (unflatten l)) ≡ₚ prod_map (Split ".") id <$> l.
Proof.
  intros Hnd Hn. pose proof (tree_unflatten l [] tree_nil) as T. fold (unflatten l) in T.
  apply NoDup_Permutation.
  - eapply NoDup_fmap_1. by apply NoDup_paths.
  - apply NoDup_fmap_2_strong; [|by eapply NoDup_fmap_1].
    intros [k s] [k' s'] _ _ [= E%Split_inj ->]. by subst.
  - intros [q s]. rewrite elem_paths, list_elem_of_fmap by done. split.
    + intros [(k & Hk & ->)|E]%get_unflatten_inv; [by exists (k, s)|by destruct q].
    + intros ([k s'] & [= -> ->] & Hk). by apply get_unflatten_key.
Qed.

Lemma unflatten_leaves l :
  NoDup l.*1 → nestable l.*1 → leaves EmptyString (YMap (unflatten l)) ≡ₚ l.
Proof.
  intros Hnd Hn. rewrite leaves_paths by apply tree_unflatten, tree_nil.
  rewrite unflatten_paths by done. rewrite <- list_fmap_compose.
  rewrite (list_fmap_ext _ id l), list_fmap_id; [done|].
  intros i [k s] Hi. cbn. f_equal. apply path_key_Split. intros x ->. destruct Hn as [Hn _].
  apply (Hn x). apply list_elem_of_fmap. exists ("." +:+ x, s). split; [done|].
  by eapply list_elem_of_lookup_2.
Qed.

(** Flattening gives back the map the tree was built from, in whatever order. *)
Lemma unflatten_flat (values : gmap string string) l :
  l ≡ₚ map_to_list values → nestable l.*1 →
  keys_distinct (YMap (unflatten l)) ∧ flat (YMap (unflatten l)) = values.
Proof.
  intros E Hn.
  assert (NoDup l.*1) as Hnd by (rewrite E; apply NoDup_fst_map_to_list).
  pose proof (unflatten_leaves l Hnd Hn) as El. split.
  - unfold keys_distinct. by rewrite El.
  - unfold flat. rewrite flattenValue_leaves, (write_all_map _ values), map_union_empty; [done|].
    by rewrite El.
Qed.

(** ** The contract of the calls

    The range visits every entry; yaml.Unmarshal reads back, up to the order of
    maps, what yaml.Marshal wrote, and a document is not empty; the API server
    stores the data it is sent. *)
Definition faithful `{Machinery} (snap : Snapshot) (e : @event values_sig) : Prop :=
  match e with
  | Ev (RangeValues m) l => l ≡ₚ map_to_list m
  | Ev (YamlMarshal v) (Ok d) => d ≠ EmptyString ∧ ∃ w, snap_yaml snap d = Ok w ∧ yeq v w
  | Ev (CreateConfigMap_ cm) (Ok cm') => cm_Data cm' = cm_Data cm
  | Ev (CreateSecret_ s) (Ok s') => secret_Data s' = secret_Data s
  | _ => True
  end.

Lemma wp_convertMapToYAML `{Machinery} snap values :
  nestable (map_to_list values).*1 →
  @wp values_sig _ (faithful snap) (convertMapToYAML values) (λ _ o,
    ∀ d, o = Done (Ok d) → doc_ok snap d ∧ doc_flat snap d = values).
Proof.
  intros Hn. cbn -[unflatten faithful]. intros l El [d|e] Ed; cbn -[unflatten]; intros d'; [|done].
  intros [= <-]. cbn [faithful] in El, Ed. destruct Ed as (Hd & w & Ew & Ey).
  destruct (unflatten_flat values l El) as [Hk Ef]; [by rewrite El|].
  split.
  - right. exists w. split; [done|]. by rewrite <- Ey.
  - unfold doc_flat. rewrite decide_False by done. rewrite Ew, <- Ef. by apply flat_yeq.
Qed.

(** One document parses to its flat map. *)
Lemma wp_one_document `{Machinery} snap key d values :
  doc_ok snap d ∧ doc_flat snap d = values →
  wp (agrees snap) (parseAndMergeConfigMapData {[key := d]}) (λ _ o, o = Done (Ok values)).
Proof.
  intros [Hd <-]. eapply wp_mono; [apply (wp_parseAndMerge snap)|].
  - unfold clean. rewrite map_to_list_singleton. split; [by apply Forall_singleton|].
    intros m1 m2 k x y. cbn. rewrite !list_elem_of_singleton. intros -> -> ->. congruence.
  - intros t o ->. unfold data_spec. rewrite map_to_list_singleton. cbn -[doc_flat]. unfold mergeMaps. cbn -[doc_flat]. by rewrite merge_into_union, map_union_empty.
Qed.

(** ** Properties *)

(** C34 What the test helpers write is what the operator reads: for any values
    whose keys can be nested (none starts with a dot, none continues another
    after a dot), the ConfigMap or the Secret a helper created is parsed, whatever
    the order in which either program ranges over its maps, to exactly the values
    it was created from. *)
Theorem fixtures_read_back `{Machinery} snap namespace name values :
  nestable (map_to_list values).*1 →
  (∀ t cm, @exec values_sig _ (CreateTestConfigMapWithValues namespace name values) t (Done (Ok cm)) →
    Forall (faithful snap) t →
    wp (agrees snap) (parseAndMergeConfigMapData (cm_Data cm)) (λ _ o, o = Done (Ok values))) ∧
  (∀ t s, @exec values_sig _ (CreateTestSecretWithValues namespace name values) t (Done (Ok s)) →
    Forall (faithful snap) t →
    wp (agrees snap) (parseAndMergeSecretData (secret_Data s)) (λ _ o, o = Done (Ok values))).
Proof.
  intros Hn. pose proof (wp_convertMapToYAML snap values Hn) as Hw. split.
  - intros t cm He Ht.
    refine (wp_exec _ _ (λ _ o, ∀ cm, o = Done (Ok cm) → _) _ _ _ He Ht cm eq_refl).
    apply wp_bind. eapply wp_mono; [exact Hw|]. intros t1 [[d|e]|msg] Hd; cbn; try done.
    intros [c|e] Hc; cbn; [|done]. intros c' [= <-]. cbn in Hc. rewrite Hc.
    by apply wp_one_document, Hd.
  - intros t s He Ht.
    refine (wp_exec _ _ (λ _ o, ∀ s, o = Done (Ok s) → _) _ _ _ He Ht s eq_refl).
    apply wp_bind. eapply wp_mono; [exact Hw|]. intros t1 [[d|e]|msg] Hd; cbn; try done.
    intros [c|e] Hc; cbn; [|done]. intros c' [= <-]. cbn in Hc.
    unfold parseAndMergeSecretData, secretDataToStringMap. rewrite Hc, map_fmap_singleton.
    rewrite String.string_of_list_byte_of_string. by apply wp_one_document, Hd.
Qed.

#[local] Existing Instance sample_machinery.

(** A document the helper writes for three keys, as yaml.Marshal and a decoder
    that visits its maps in another order see it. *)
Definition sample_doc : string :=
"app:
    name: x
    port: '80'
debug: 'true'
".

Definition fixture_snapshot : Snapshot :=
  {| snap_ConfigMap := λ _, Err ErrNotFound; snap_Secret := λ _, Err ErrNotFound;
     snap_yaml := λ d,
       if decide (d = sample_doc) then
         Ok (YMap [("debug", YString "true");
                   ("app", YMap [("port", YString "80"); ("name", YString "x")])])
       else Err (ErrorString "yaml") |}.

Definition fixture_values : gmap string string :=
  {["app.name" := "x"; "app.port" := "80"; "debug" := "true"]}.

Definition fixture_answers (c : vcall) : vans c :=
  match c with
  | RangeValues m => map_to_list m
  | YamlMarshal _ => Ok sample_doc
  | CreateConfigMap_ cm => Ok cm
  | CreateSecret_ s => Ok s
  end.

Lemma fixtures_read_back_witness :
  ∃ cm, (@answered values_sig _ fixture_answers
           (CreateTestConfigMapWithValues "default" "base" fixture_values)).2 = Done (Ok cm) ∧
  wp (agrees fixture_snapshot) (parseAndMergeConfigMapData (cm_Data cm))
     (λ _ o, o = Done (Ok fixture_values)).
Proof.
  eexists. split; [vm_compute; reflexivity|].
  assert (nestable (map_to_list fixture_values).*1) as Hn.
  { replace (map_to_list fixture_values).*1 with ["app.name"; "app.port"; "debug"]
      by (vm_compute; reflexivity).
    split; [intros x|intros k x Hk]; rewrite ?elem_of_cons, ?elem_of_nil in *;
      [|destruct Hk as [->|[->|[->|[]]]]]; cbn; intros [E|[E|[E|[]]]]; discriminate. }
  refine (proj1 (fixtures_read_back fixture_snapshot "default" "base" fixture_values Hn)
            (@answered values_sig _ fixture_answers
               (CreateTestConfigMapWithValues "default" "base" fixture_values)).1 _ _ _).
  - refine (eq_ind _ (@exec values_sig _ _ _)
              (@answered_exec values_sig _ fixture_answers _) _ _). vm_compute. reflexivity.
  - cbn -[unflatten sample_doc map_to_list]. repeat apply Forall_cons_2;
      [by cbn -[map_to_list]| |reflexivity|constructor].
    cbn -[unflatten sample_doc map_to_list]. split; [done|].
    eexists. split; [reflexivity|].
    replace (unflatten (map_to_list fixture_values))
      with [("app", YMap [("name", YString "x"); ("port", YString "80")]); ("debug", YString "true")]
      by (vm_compute; reflexivity).
    etransitivity; [apply yeq_order, Permutation_swap|].
    apply (yeq_entry [_] "app" _ _ []), yeq_order, Permutation_swap.
Defined.

(** A key that continues another cannot be nested beside it: the fixture loses
    one of the two, which one depends on the range. *)
Lemma unflatten_conflict :
  unflatten [("a", "1"); ("a.b", "2")] = [("a", YMap [("b", YString "2")])] ∧
  unflatten [("a.b", "2"); ("a", "1")] = [("a", YString "1")].
Proof. done. Qed.

Lemma mjoin_nil {A B} (f : A → list B) l : mjoin (f <$> l) = [] ↔ ∀ x, x ∈ l → f x = [].
Proof.
  induction l as [|a l IH]; cbn.
  - split; [|done]. by intros _ x ?%not_elem_of_nil.
  - rewrite app_nil, IH. setoid_rewrite elem_of_cons. naive_solver.
Qed.

(** The assertion passes exactly on a job whose flags are the expected ones,
    whatever the orders of its two ranges. *)
Theorem AssertJobSetFlagsEqual_correct `{Machinery} job expected eo ao :
  eo ≡ₚ map_to_list expected → ao ≡ₚ map_to_list (ExtractSetFlags job) →
  AssertJobSetFlagsEqual job expected eo ao = [] ↔ ExtractSetFlags job = expected.
Proof.
  intros Ee Ea. unfold AssertJobSetFlagsEqual. cbv zeta. rewrite app_nil, !mjoin_nil.
  setoid_rewrite Ee. setoid_rewrite Ea. unfold AssertJobHasSetFlag.
  split.
  - intros [He Ha]. apply map_eq. intros k. destruct (expected !! k) as [v|] eqn:Ek.
    + apply elem_of_map_to_list, He in Ek. cbn in Ek.
      destruct (ExtractSetFlags job !! k) as [w|]; [|done]. by destruct (decide (w = v)) as [->|].
    + destruct (ExtractSetFlags job !! k) as [w|] eqn:Ew; [|done].
      apply elem_of_map_to_list, Ha in Ew. cbn in Ew. by rewrite Ek in Ew.
  - intros ->. split; intros [k v] Hk%elem_of_map_to_list; cbn; rewrite Hk; [|done].
    by rewrite decide_True.
Qed.
