(* ===== verification/TestRbac.v ===== *)
(** * RBAC fixtures (internal/testing/rbac.go)

    The helpers that set up a namespace with a service account which may deploy,
    and undo the setup when one of its steps fails. *)
From S2P Require Import Prelude GoErrors Prog Api Kube TestValues.

(** ** Objects *)

Record Namespace_ := { ns_Meta : ObjectMeta }.
Record ServiceAccount := { sa_Meta : ObjectMeta }.
Record PolicyRule := { APIGroups : list string; Resources : list string; Verbs : list string }.
Record Role := { role_Meta : ObjectMeta; Rules : list PolicyRule }.
Record RoleRef := { RoleRef_APIGroup : string; RoleRef_Kind : string; RoleRef_Name : string }.
Record Subject := { Subject_Kind : string; Subject_Name : string; Subject_Namespace : string }.
Record RoleBinding := { rb_Meta : ObjectMeta; rb_RoleRef : RoleRef; Subjects : list Subject }.

Inductive object_kind := KNamespace | KServiceAccount | KRole | KRoleBinding.
#[export] Instance object_kind_eq_dec : EqDecision object_kind.
Proof. solve_decision. Defined.

(** Where the API server keeps an object. *)
Abbreviation object_key := (object_kind * NamespacedName)%type.

(** ** The client *)

Inductive rcall :=
| CreateNamespace (ns : Namespace_)
| CreateServiceAccount (sa : ServiceAccount)
| CreateRole (role : Role)
| CreateRoleBinding (rb : RoleBinding)
| Delete (kind : object_kind) (meta : ObjectMeta).

(** Create fills in the object it is given. *)
Definition rans (c : rcall) : Type :=
  match c with
  | CreateNamespace _ => result Namespace_
  | CreateServiceAccount _ => result ServiceAccount
  | CreateRole _ => result Role
  | CreateRoleBinding _ => result RoleBinding
  | Delete _ _ => option error
  end.

#[export] Instance rbac_sig : Sig := { call := rcall; ans := rans }.

(** ** The helpers *)

Definition CreateTestNamespace (name : string) : prog (result Namespace_) :=
  perform (CreateNamespace {| ns_Meta := test_meta name EmptyString |}).

Definition CreateTestServiceAccount (namespace name : string) : prog (result ServiceAccount) :=
  perform (CreateServiceAccount {| sa_Meta := test_meta name namespace |}).

Definition CreateTestRole (namespace name : string) (rules : list PolicyRule) : prog (result Role) :=
  perform (CreateRole {| role_Meta := test_meta name namespace; Rules := rules |}).

Definition CreateTestRoleBinding (namespace roleName saName : string) : prog (result RoleBinding) :=
  perform (CreateRoleBinding
    {| rb_Meta := test_meta (saName +:+ "-" +:+ roleName) namespace;
       rb_RoleRef := {| RoleRef_APIGroup := "rbac.authorization.k8s.io"; RoleRef_Kind := "Role";
                        RoleRef_Name := roleName |};
       Subjects := [{| Subject_Kind := "ServiceAccount"; Subject_Name := saName;
                       Subject_Namespace := namespace |}] |}).

(** The errors of the deletions are dropped. *)
Definition CreateNamespaceWithRBAC (namespace saName : string) (rules : list PolicyRule)
    : prog (result (Namespace_ * ServiceAccount)) :=
  ns ← CreateTestNamespace namespace;
  match ns with
  | Err err => mret (Err err)
  | Ok ns =>
      sa ← CreateTestServiceAccount namespace saName;
      match sa with
      | Err err =>
          _ ← perform (Delete KNamespace (ns_Meta ns));
          mret (Err err)
      | Ok sa =>
          role ← CreateTestRole namespace (saName +:+ "-role") rules;
          match role with
          | Err err =>
              _ ← perform (Delete KServiceAccount (sa_Meta sa));
              _ ← perform (Delete KNamespace (ns_Meta ns));
              mret (Err err)
          | Ok role =>
              rb ← CreateTestRoleBinding namespace (Name (role_Meta role)) (Name (sa_Meta sa));
              match rb with
              | Err err =>
                  _ ← perform (Delete KRole (role_Meta role));
                  _ ← perform (Delete KServiceAccount (sa_Meta sa));
                  _ ← perform (Delete KNamespace (ns_Meta ns));
                  mret (Err err)
              | Ok _ => mret (Ok (ns, sa))
              end
          end
      end
  end.

Definition deploy_rules : list PolicyRule :=
  [{| APIGroups := ["apps"]; Resources := ["deployments"; "statefulsets"; "daemonsets"];
      Verbs := ["get"; "list"; "watch"; "create"; "update"; "patch"; "delete"] |};
   {| APIGroups := [EmptyString]; Resources := ["services"; "configmaps"; "secrets"];
      Verbs := ["get"; "list"; "watch"; "create"; "update"; "patch"; "delete"] |};
   {| APIGroups := [EmptyString]; Resources := ["pods"]; Verbs := ["get"; "list"; "watch"] |}].

Definition CreateNamespaceWithDeployPermissions (namespace saName : string)
    : prog (result (Namespace_ * ServiceAccount)) :=
  CreateNamespaceWithRBAC namespace saName deploy_rules.

(** ** The API server

    A set of objects.  It creates an object only under a free key and returns it
    with its name and namespace, an error leaves everything as it was. *)
Definition created {X} (kind : object_kind) (meta : X → ObjectMeta) (x : X) (a : result X)
    (s s' : list object_key) : Prop :=
  match a with
  | Ok y => key_of (meta y) = key_of (meta x) ∧ (kind, key_of (meta x)) ∉ s
            ∧ s' = (kind, key_of (meta x)) :: s
  | Err _ => s' = s
  end.

Definition serve (e : event) (s s' : list object_key) : Prop :=
  match e with
  | Ev (CreateNamespace x) a => created KNamespace ns_Meta x a s s'
  | Ev (CreateServiceAccount x) a => created KServiceAccount sa_Meta x a s s'
  | Ev (CreateRole x) a => created KRole role_Meta x a s s'
  | Ev (CreateRoleBinding x) a => created KRoleBinding rb_Meta x a s s'
  | Ev (Delete kind meta) None => s ≡ₚ (kind, key_of meta) :: s'
  | Ev (Delete kind meta) (Some _) => s' = s
  end.

Inductive serves : list event → list object_key → list object_key → Prop :=
| serves_nil s : serves [] s s
| serves_cons e t s s1 s2 : serve e s s1 → serves t s1 s2 → serves (e :: t) s s2.

(** The deletions the server refused. *)
Definition refused_deletes (t : list event) : Prop :=
  ∃ kind meta err, Ev (Delete kind meta) (Some err) ∈ t.

(** The four objects of a setup. *)
Definition setup_keys (namespace saName : string) : list object_key :=
  let key name := {| key_Name := name; key_Namespace := namespace |} in
  [(KRoleBinding, key (saName +:+ "-" +:+ saName +:+ "-role"));
   (KRole, key (saName +:+ "-role"));
   (KServiceAccount, key saName);
   (KNamespace, {| key_Name := namespace; key_Namespace := EmptyString |})].

(** ** Undoing *)

Definition undo {A} (l : list (object_kind * ObjectMeta)) (k : prog A) : prog A :=
  foldr (λ x k, _ ← perform (Delete x.1 x.2); k) k l.

Definition keys (l : list (object_kind * ObjectMeta)) : list object_key := (prod_map id key_of) <$> l.

Lemma serves_inv e t s s2 : serves (e :: t) s s2 → ∃ s1, serve e s s1 ∧ serves t s1 s2.
Proof. inversion 1; eauto. Qed.

Lemma refused_cons e t : refused_deletes t → refused_deletes (e :: t).
Proof. intros (k & m & err & Hin). exists k, m, err. by right. Qed.

(** What a deletion after others leaves behind. *)
Lemma wp_undo {A} (l : list (object_kind * ObjectMeta)) (r : A) :
  wp any (undo l (mret r)) (λ t o, o = Done r ∧
    ∀ s s' s0, serves t s s' → s ≡ₚ keys l ++ s0 →
    ∃ l', l' `sublist_of` keys l ∧ s' ≡ₚ l' ++ s0 ∧ (l' = [] ∨ refused_deletes t)).
Proof.
  induction l as [|[kind meta] l IH].
  - cbn. split; [done|]. intros s s' s0 Hs E. inversion Hs; subst. exists []. auto.
  - cbn [undo foldr fst snd]. apply wp_bind. cbn. intros a _.
    eapply wp_mono; [exact IH|]. cbn. intros t o [-> Ht]. split; [done|].
    intros s s' s0 (s1 & He & Hs)%serves_inv E. cbn in He. destruct a as [err|].
    + subst s1. destruct (Ht s s' ((kind, key_of meta) :: s0) Hs) as (l' & Hl & El & _).
      { rewrite E. cbn. by rewrite <- Permutation_middle. }
      exists ((kind, key_of meta) :: l'). split_and!.
      * by apply sublist_skip.
      * rewrite El. cbn. by rewrite <- Permutation_middle.
      * right. exists kind, meta, err. by left.
    + destruct (Ht s1 s' s0 Hs) as (l' & Hl & El & Hr).
      { rewrite He in E. by apply Permutation_cons_inv in E. }
      exists l'. split_and!; [by apply sublist_cons|done|].
      destruct Hr; [by left|right; by apply refused_cons].
Qed.

(** ** Properties *)

(** A setup that stopped at the error of one of its creations. *)
Definition create_failed (e : error) (t : list event) : Prop :=
  (∃ x, Ev (CreateNamespace x) (Err e) ∈ t) ∨ (∃ x, Ev (CreateServiceAccount x) (Err e) ∈ t) ∨
  (∃ x, Ev (CreateRole x) (Err e) ∈ t) ∨ (∃ x, Ev (CreateRoleBinding x) (Err e) ∈ t).

(** What the setup ends in, from the objects [s] to the objects [s']. *)
Definition setup_outcome (namespace saName : string) (s s' : list object_key) (t : list event)
    (o : outcome (result (Namespace_ * ServiceAccount))) : Prop :=
  match o with
  | Done (Ok (ns, sa)) =>
      s' = setup_keys namespace saName ++ s ∧
      Name (ns_Meta ns) = namespace ∧
      key_of (sa_Meta sa) = {| key_Name := saName; key_Namespace := namespace |} ∧
      ∃ rb a, Ev (CreateRoleBinding rb) a ∈ t ∧ RoleRef_Name (rb_RoleRef rb) = saName +:+ "-role" ∧
        Subject_Name <$> Subjects rb = [saName]
  | Done (Err e) =>
      create_failed e t ∧
      ∃ l, l `sublist_of` setup_keys namespace saName ∧ s' ≡ₚ l ++ s ∧ (l = [] ∨ refused_deletes t)
  | Panicked _ => False
  end.

Lemma setup_undone namespace saName s s' s1 t2 t l e :
  serves t2 s1 s' → s1 ≡ₚ keys l ++ s → keys l `sublist_of` setup_keys namespace saName →
  t2 `suffix_of` t → create_failed e t →
  (∀ s s' s0, serves t2 s s' → s ≡ₚ keys l ++ s0 →
    ∃ l', l' `sublist_of` keys l ∧ s' ≡ₚ l' ++ s0 ∧ (l' = [] ∨ refused_deletes t2)) →
  setup_outcome namespace saName s s' t (Done (Err e)).
Proof.
  intros Hs E Hl [t1 ->] Hf Hu. split; [done|].
  destruct (Hu s1 s' s Hs E) as (l' & Hl' & El & Hr). exists l'. split_and!; [|done|].
  - by etrans.
  - destruct Hr as [?|(k & m & err & Hin)]; [by left|right].
    exists k, m, err. apply elem_of_app. by right.
Qed.

(** What the server did for the creations of a trace. *)
Ltac creations :=
  repeat match goal with
  | H : serves (_ :: _) _ _ |- _ =>
      let s1 := fresh "s1" in let He := fresh "Hev" in
      apply serves_inv in H as (s1 & He & H); cbn in He
  end;
  repeat match goal with
  | H : _ ∧ _ ∧ _ |- _ => destruct H as (? & _ & ?)
  end; subst.

Ltac sublist := repeat (apply sublist_skip || apply sublist_cons); apply sublist_nil_l.

Ltac rewrite_keys :=
  repeat match goal with H : key_of _ = _ |- _ => rewrite H; clear H end.

(** The deletions that follow a failed creation undo the others. *)
Ltac undoing l :=
  eapply wp_mono; [apply (wp_undo l)|]; cbn beta;
  intros t o [-> Hu] s s' Hs; creations;
  eapply (setup_undone _ _ _ _ _ t _ l);
    [exact Hs
    |unfold keys; cbn -[key_of]; by rewrite_keys
    |unfold keys, setup_keys; cbn -[key_of]; rewrite_keys; sublist
    |by repeat (reflexivity || apply suffix_cons_r)
    |
    |exact Hu].

Lemma wp_CreateNamespaceWithRBAC namespace saName rules :
  wp any (CreateNamespaceWithRBAC namespace saName rules) (λ t o,
    ∀ s s', serves t s s' → setup_outcome namespace saName s s' t o).
Proof.
  unfold CreateNamespaceWithRBAC, CreateTestNamespace, CreateTestServiceAccount, CreateTestRole,
    CreateTestRoleBinding.
  cbn. intros [ns|e] _; cbn.
  2: { intros s s' Hs. creations. inversion Hs; subst. split; [left; eexists; by left|].
       exists []. split_and!; [apply sublist_nil_l|done|by left]. }
  intros [sa|e] _.
  2: { undoing [(KNamespace, ns_Meta ns)]. right. left. eexists. right. by left. }
  intros [role|e] _.
  2: { undoing [(KServiceAccount, sa_Meta sa); (KNamespace, ns_Meta ns)].
       right. right. left. eexists. do 2 right. by left. }
  intros [rb|e] _.
  2: { undoing [(KRole, role_Meta role); (KServiceAccount, sa_Meta sa); (KNamespace, ns_Meta ns)].
       right. right. right. eexists. do 3 right. by left. }
  cbn. intros s s' Hs. creations. inversion Hs; subst; clear Hs.
  repeat match goal with H : key_of _ = _ |- _ => injection H as ? ? end.
  unfold setup_outcome, setup_keys, key_of, test_meta. cbn.
  split_and!; [congruence..|]. eexists _, _. split; [do 3 right; by left|].
  cbn. split; congruence.
Qed.

(** The setup of a namespace is all or nothing: if it succeeds, exactly its
    four objects are new, and the binding grants the new role to the new service
    account; if a creation fails, the error is that creation's, and every object
    already created is deleted again, so that the cluster is as it was unless it
    refused a deletion (and then no more than the setup's own objects remain). *)
Theorem CreateNamespaceWithRBAC_atomic namespace saName rules t o s s' :
  exec (CreateNamespaceWithRBAC namespace saName rules) t o → serves t s s' →
  setup_outcome namespace saName s s' t o.
Proof.
  intros He Hs. refine (wp_any _ _ _ _ (wp_CreateNamespaceWithRBAC namespace saName rules) He s s' Hs).
Qed.

(** A cluster that has no room for the binding. *)
Definition no_bindings (c : rcall) : rans c :=
  match c with
  | CreateNamespace x => Ok x
  | CreateServiceAccount x => Ok x
  | CreateRole x => Ok x
  | CreateRoleBinding _ => Err (ErrorString "quota")
  | Delete _ _ => None
  end.

Lemma CreateNamespaceWithRBAC_atomic_witness :
  let p := CreateNamespaceWithDeployPermissions "prod" "deployer" in
  let s := [(KNamespace, {| key_Name := "default"; key_Namespace := EmptyString |})] in
  (answered no_bindings p).2 = Done (Err (ErrorString "quota")) ∧
  setup_outcome "prod" "deployer" s s (answered no_bindings p).1 (answered no_bindings p).2.
Proof.
  intros p s. split; [reflexivity|].
  apply (CreateNamespaceWithRBAC_atomic _ _ deploy_rules); [apply answered_exec|].
  cbn. repeat (eapply serves_cons;
    [cbn; first [reflexivity
                |split_and!; [reflexivity|apply (bool_decide_unpack _); vm_compute; exact I|reflexivity]]|]).
  apply serves_nil.
Defined.
