(* ===== verification/TestUtils.v ===== *)
(** * End-to-end test utilities (test/utils/utils.go)

    The commands the end-to-end tests run, and UncommentCode, which switches a
    commented block of a file on.  What is printed to GinkgoWriter is left out;
    writes to a bytes.Buffer never fail. *)
From S2P Require Import Prelude GoErrors Prog.

(** ** strings and bufio *)

Definition newline : ascii := "010".
Definition nl : string := String newline EmptyString.

(** strings.Index. *)
Fixpoint Index (s substr : string) : option nat :=
  if String.prefix substr s then Some 0%nat
  else match s with
       | EmptyString => None
       | String _ s => S <$> Index s substr
       end.

Definition Contains (s substr : string) : bool :=
  match Index s substr with Some _ => true | None => false end.

Definition TrimPrefix (s prefix : string) : string :=
  if String.prefix prefix s then str_drop (String.length prefix) s else s.

(** strings.ReplaceAll with a nonempty [old]; [skip] bytes of a match remain. *)
Fixpoint replace_from (old new : string) (skip : nat) (s : string) : string :=
  match s with
  | EmptyString => EmptyString
  | String c s' =>
      match skip with
      | S skip => replace_from old new skip s'
      | O => if String.prefix old s then new +:+ replace_from old new (String.length old - 1) s'
             else String c (replace_from old new 0 s')
      end
  end.
Definition ReplaceAll (s old new : string) : string := replace_from old new 0 s.

(** bufio.ScanLines: a carriage return before the newline is dropped. *)
Fixpoint dropCR (s : string) : string :=
  match s with
  | EmptyString => EmptyString
  | String c EmptyString => if decide (c = "013"%char) then EmptyString else s
  | String c s => String c (dropCR s)
  end.

(** bufio.MaxScanTokenSize; a longer line ends the scan. *)
Definition MaxScanTokenSize : Z := 65536.

Fixpoint tokens (lines : list string) : list string :=
  match lines with
  | [] => []
  | [EmptyString] => []
  | line :: lines =>
      if decide (str_len line < MaxScanTokenSize) then dropCR line :: tokens lines else []
  end.

(** The texts of a scanner over a string. *)
Definition scan (s : string) : list string := tokens (Split newline s).

(** ** Calls *)

Record Cmd := { Args : list string; Dir : string; Env : list string }.

(** exec.Command *)
Definition Command (args : list string) : Cmd := {| Args := args; Dir := EmptyString; Env := [] |}.

Inductive ucall :=
| Getwd
| Chdir (dir : string)
| Environ
| LookupEnv (key : string)
| CombinedOutput (cmd : Cmd)
| ReadFile (filename : string)
| WriteFile (filename data : string) (perm : Z).

Definition uans (c : ucall) : Type :=
  match c with
  | Getwd => string * option error
  | Chdir _ => option error
  | Environ => list string
  | LookupEnv _ => option string
  | CombinedOutput _ => string * option error
  | ReadFile _ => result string
  | WriteFile _ _ _ => option error
  end.

#[export] Instance utils_sig : Sig := { call := ucall; ans := uans }.

(** ** Commands *)

Definition GetProjectDir : prog (string * option error) :=
  r ← perform Getwd;
  match r with
  | (wd, Some err) => mret (wd, Some (WrapError "failed to get current working directory" err))
  | (wd, None) => mret (ReplaceAll wd "/test/e2e" EmptyString, None)
  end.

Definition Run (cmd : Cmd) : prog (string * option error) :=
  d ← GetProjectDir;
  let dir := fst d in
  _ ← perform (Chdir dir);
  environ ← perform Environ;
  let cmd := {| Args := Args cmd; Dir := dir; Env := environ ++ ["GO111MODULE=on"] |} in
  let command := join " " (Args cmd) in
  r ← perform (CombinedOutput cmd);
  match r with
  | (output, Some err) =>
      mret (output, Some (WrapError (quote command +:+ " failed with error " +:+ quote output) err))
  | (output, None) => mret (output, None)
  end.

Definition certmanagerURL : string :=
  "https://github.com/cert-manager/cert-manager/releases/download/" +:+ "v1.18.2"
    +:+ "/cert-manager.yaml".

(** The failures are only printed. *)
Definition UninstallCertManager : prog unit :=
  _ ← Run (Command ["kubectl"; "delete"; "-f"; certmanagerURL]);
  (fix loop (leases : list string) : prog unit :=
     match leases with
     | [] => mret tt
     | lease :: leases =>
         _ ← Run (Command ["kubectl"; "delete"; "lease"; lease; "-n"; "kube-system";
                           "--ignore-not-found"; "--force"; "--grace-period=0"]);
         loop leases
     end) ["cert-manager-cainjector-leader-election"; "cert-manager-controller"].

Definition InstallCertManager : prog (option error) :=
  r ← Run (Command ["kubectl"; "apply"; "-f"; certmanagerURL]);
  match r with
  | (_, Some err) => mret (Some err)
  | (_, None) =>
      r ← Run (Command ["kubectl"; "wait"; "deployment.apps/cert-manager-webhook";
                        "--for"; "condition=Available"; "--namespace"; "cert-manager";
                        "--timeout"; "5m"]);
      mret (snd r)
  end.

Definition LoadImageToKindClusterWithName (name : string) : prog (option error) :=
  v ← perform (LookupEnv "KIND_CLUSTER");
  let cluster := default "kind" v in
  v ← perform (LookupEnv "KIND");
  let kindBinary := default "kind" v in
  r ← Run (Command ([kindBinary] ++ ["load"; "docker-image"; name; "--name"; cluster]));
  mret (snd r).

Definition GetNonEmptyLines (output : string) : list string :=
  filter (λ element, element ≠ EmptyString) (Split newline output).

Definition certManagerCRDs : list string :=
  ["certificates.cert-manager.io"; "issuers.cert-manager.io"; "clusterissuers.cert-manager.io";
   "certificaterequests.cert-manager.io"; "orders.acme.cert-manager.io";
   "challenges.acme.cert-manager.io"].

Definition IsCertManagerCRDsInstalled : prog bool :=
  r ← Run (Command ["kubectl"; "get"; "crds"]);
  match r with
  | (_, Some _) => mret false
  | (output, None) =>
      let crdList := GetNonEmptyLines output in
      mret (existsb (λ crd, existsb (λ line, Contains line crd) crdList) certManagerCRDs)
  end.

(** ** UncommentCode *)

(** The loop over the scanner, from the current line on. *)
Fixpoint write_lines (prefix line : string) (lines : list string) (out : string) : string :=
  let out := out +:+ TrimPrefix line prefix in
  match lines with
  | [] => out
  | line :: lines => write_lines prefix line lines (out +:+ String newline EmptyString)
  end.

Definition UncommentCode (filename target prefix : string) : prog (option error) :=
  r ← perform (ReadFile filename);
  match r with
  | Err err => mret (Some (WrapError ("failed to read file " +:+ quote filename) err))
  | Ok content =>
      match Index content target with
      | None => mret (Some (ErrorString ("unable to find the code " +:+ quote target
                                           +:+ " to be uncomment")))
      | Some idx =>
          let out := str_take idx content in
          match scan target with
          | [] => mret None
          | line :: lines =>
              let out := write_lines prefix line lines out in
              let out := out +:+ str_drop (idx + String.length target) content in
              r ← perform (WriteFile filename out 420);
              match r with
              | Some err => mret (Some (WrapError ("failed to write file " +:+ quote filename) err))
              | None => mret None
              end
          end
      end
  end.

(** ** Lemmas *)

Lemma prefix_app a b : String.prefix a (a +:+ b) = true.
Proof.
  induction a as [|c a IH]; [by destruct b|]. rewrite string_app_cons. cbn.
  by destruct (Ascii.ascii_dec c c).
Qed.

Lemma str_drop_app a b : str_drop (String.length a) (a +:+ b) = b.
Proof. induction a as [|c a IH]; [by destruct b|]. rewrite string_app_cons. exact IH. Qed.

Lemma str_take_app a b : str_take (String.length a) (a +:+ b) = a.
Proof. induction a as [|c a IH]; [by destruct b|]. rewrite string_app_cons. cbn. by rewrite IH. Qed.

Lemma TrimPrefix_app prefix s : TrimPrefix (prefix +:+ s) prefix = s.
Proof. unfold TrimPrefix. by rewrite prefix_app, str_drop_app. Qed.

(** Index finds an occurrence. *)
Lemma prefix_split a s : String.prefix a s = true → ∃ post, s = a +:+ post.
Proof.
  revert s. induction a as [|c a IH]; intros s; [by exists s|]. destruct s as [|d s]; [done|].
  cbn. destruct (Ascii.ascii_dec c d) as [->|]; [|done]. intros (post & ->)%IH. by exists post.
Qed.

Lemma Index_split s substr i :
  Index s substr = Some i → ∃ pre post, s = pre +:+ substr +:+ post ∧ String.length pre = i.
Proof.
  revert i. induction s as [|c s IH]; intros i; cbn [Index].
  - destruct (String.prefix substr EmptyString) eqn:E; [|done]. intros [= <-].
    apply prefix_split in E as (post & E). by exists EmptyString, post.
  - destruct (String.prefix substr (String c s)) eqn:E.
    + intros [= <-]. apply prefix_split in E as (post & E). by exists EmptyString, post.
    + destruct (Index s substr) as [j|]; [|done]. cbn. intros [= <-].
      destruct (IH j eq_refl) as (pre & post & -> & <-). by exists (String c pre), post.
Qed.

Lemma Contains_spec s substr : Contains s substr = true ↔ ∃ pre post, s = pre +:+ substr +:+ post.
Proof.
  unfold Contains. split.
  - destruct (Index s substr) as [i|] eqn:E; [|done]. intros _.
    apply Index_split in E as (pre & post & E & _). by exists pre, post.
  - intros (pre & post & ->). induction pre as [|c pre IH].
    + rewrite string_app_nil_l. destruct (substr +:+ post) eqn:E; cbn [Index];
        by rewrite <- E, prefix_app.
    + rewrite string_app_cons. cbn [Index]. destruct (String.prefix _ _); [done|].
      by destruct (Index (pre +:+ substr +:+ post) substr).
Qed.

Lemma dropCR_id s : str_contains "013" s = false → dropCR s = s.
Proof.
  induction s as [|c s IH]; [done|]. cbn. intros [Hc Hs]%orb_false_iff.
  apply bool_decide_eq_false in Hc. destruct s as [|d s].
  - by rewrite decide_False by congruence.
  - by rewrite IH.
Qed.

(** Lines a scanner returns as they are. *)
Definition plain (line : string) : Prop :=
  str_contains newline line = false ∧ str_contains "013" line = false ∧
  str_len line < MaxScanTokenSize.

Lemma tokens_plain ls : Forall plain ls → last ls ≠ Some EmptyString → tokens ls = ls.
Proof.
  induction 1 as [|l ls (_ & Hr & Hl) _ IH]; [done|]. intros Hlast. cbn [tokens].
  destruct l as [|c l].
  - destruct ls as [|l' ls]; [done|]. cbn [dropCR]. rewrite decide_True by done. by rewrite IH.
  - rewrite decide_True, dropCR_id by done. f_equal. apply IH.
    destruct ls; [done|exact Hlast].
Qed.

Lemma scan_join ls :
  ls ≠ [] → Forall plain ls → last ls ≠ Some EmptyString →
  scan (join nl ls) = ls.
Proof.
  intros Hne Hp Hl. unfold scan, nl. rewrite Split_join; [by apply tokens_plain|done|].
  eapply Forall_impl; [exact Hp|]. by intros l (? & _).
Qed.

(** The loop writes the lines without their prefix. *)
Lemma write_lines_spec prefix line lines out :
  write_lines prefix line lines out
  = out +:+ join nl ((λ l, TrimPrefix l prefix) <$> line :: lines).
Proof.
  revert line out. induction lines as [|l ls IH]; intros line out; [done|].
  cbn [write_lines]. rewrite IH, (fmap_cons _ line), join_strings_cons by done.
  by rewrite !string_app_assoc.
Qed.

(** ** Properties *)

(** The environment in which the file has these contents. *)
Definition file_contains (filename content : string) (e : event) : Prop :=
  match e with
  | Ev (ReadFile f) a => f = filename → a = Ok content
  | _ => True
  end.

Definition commented (prefix : string) (ls : list string) : string := join nl ((λ l, prefix +:+ l) <$> ls).

Lemma commented_scan prefix ls :
  ls ≠ [] → prefix ≠ EmptyString → Forall (λ l, plain (prefix +:+ l)) ls →
  scan (commented prefix ls) = (λ l, prefix +:+ l) <$> ls.
Proof.
  intros Hne Hp Hl. apply scan_join; [by destruct ls|by apply Forall_fmap|].
  rewrite fmap_last. destruct (last ls); [|done]. cbn. by destruct prefix.
Qed.

(** UncommentCode undoes the commenting of a block: a file with the lines of
    the block, each after the prefix, is rewritten (in one write, at the first
    place where the commented block occurs) to the same file with the lines
    themselves; in a file without the block nothing is written and the error says
    so. *)
Theorem UncommentCode_correct filename prefix ls content t o :
  ls ≠ [] → prefix ≠ EmptyString → Forall (λ l, plain (prefix +:+ l)) ls →
  exec (UncommentCode filename (commented prefix ls) prefix) t o →
  Forall (file_contains filename content) t →
  match Index content (commented prefix ls) with
  | Some i =>
      ∃ pre post r, content = pre +:+ commented prefix ls +:+ post ∧ String.length pre = i ∧
        t = [Ev (ReadFile filename) (Ok content);
             Ev (WriteFile filename (pre +:+ join nl ls +:+ post) 420) r] ∧
        o = Done (WrapError ("failed to write file " +:+ quote filename) <$> r)
  | None =>
      t = [Ev (ReadFile filename) (Ok content)] ∧
      o = Done (Some (ErrorString ("unable to find the code " +:+ quote (commented prefix ls)
                                     +:+ " to be uncomment")))
  end.
Proof.
  intros Hne Hp Hl He Ht. revert t o He Ht.
  refine (λ t o He Ht, wp_exec _ _ (λ t o, _) t o _ He Ht).
  cbn. intros a Ha. rewrite (Ha eq_refl). cbn.
  destruct (Index content (commented prefix ls)) as [i|] eqn:Ei; [|done].
  apply Index_split in Ei as (pre & post & -> & <-). rewrite commented_scan by done.
  destruct ls as [|l ls]; [done|]. cbn [fmap list_fmap].
  set (out := write_lines _ _ _ _).
  assert (out = pre +:+ join nl (l :: ls)) as ->.
  { subst out. rewrite write_lines_spec, str_take_app. do 2 f_equal.
    rewrite (fmap_cons _ (prefix +:+ l)), TrimPrefix_app, <- list_fmap_compose. f_equal.
    rewrite <- (list_fmap_id ls) at 2. apply list_fmap_ext. intros _ x _. apply TrimPrefix_app. }
  rewrite string_app_assoc, <- string_length_app, str_drop_app, <- !string_app_assoc.
  cbn. intros r _. destruct r as [e|]; cbn; by eexists _, _, _.
Qed.

Definition one_file (content : string) (c : ucall) : uans c :=
  match c with
  | ReadFile _ => Ok content
  | WriteFile _ _ _ => None
  | Getwd => (EmptyString, None)
  | Chdir _ => None
  | Environ => []
  | LookupEnv _ => None
  | CombinedOutput _ => (EmptyString, None)
  end.

Lemma UncommentCode_correct_witness :
  let content := join nl ["x:"; "# a: 1"; "# b: 2"; "y:"] in
  let p := UncommentCode "kustomization.yaml" (commented "# " ["a: 1"; "b: 2"]) "# " in
  ∃ r, (@answered utils_sig _ (one_file content) p).1
       = [Ev (ReadFile "kustomization.yaml") (Ok content);
          Ev (WriteFile "kustomization.yaml" (join nl ["x:"; "a: 1"; "b: 2"; "y:"]) 420) r].
Proof.
  intros content p.
  destruct (UncommentCode_correct "kustomization.yaml" "# " ["a: 1"; "b: 2"] content
              (@answered utils_sig _ (one_file content) p).1 (@answered utils_sig _ (one_file content) p).2)
    as (pre & post & r & E & Hpre & -> & _); [done|done| |apply answered_exec|..].
  - repeat constructor.
  - apply answered_legal. by intros [].
  - exists r. pose proof (str_take_app pre (commented "# " ["a: 1"; "b: 2"] +:+ post)) as Ep.
    pose proof (str_drop_app (pre +:+ commented "# " ["a: 1"; "b: 2"]) post) as Eq.
    rewrite <- string_app_assoc, <- E, string_length_app, Hpre in Eq.
    rewrite <- E, Hpre in Ep. vm_compute in Ep, Eq. by subst pre post.
Defined.

(** A newline at the end of the target is not written back: the block runs into
    the line after it. *)
Lemma UncommentCode_trailing_newline :
  (@answered utils_sig _ (one_file ("#a" +:+ nl +:+ "b")) (UncommentCode "f" ("#a" +:+ nl) "#")).1
  = [Ev (ReadFile "f") (Ok ("#a" +:+ nl +:+ "b")); Ev (WriteFile "f" "ab" 420) None].
Proof. reflexivity. Qed.

(** Run makes one call with the arguments given, in the project directory and with
    Go modules on, after it asked for the directory and the environment. *)
Definition ran (cmd : Cmd) (t : list event) (output : string) (err : option error) : Prop :=
  ∃ pre cmd', t = pre ++ [Ev (CombinedOutput cmd') (output, err)] ∧
    (∀ c r, Ev (CombinedOutput c) r ∉ pre) ∧
    Args cmd' = Args cmd ∧ last (Env cmd') = Some "GO111MODULE=on".

Lemma wp_Run cmd :
  wp any (Run cmd) (λ t o, ∃ output err, ran cmd t output err ∧
    o = Done (output, (λ e, WrapError (quote (join " " (Args cmd)) +:+ " failed with error "
                                         +:+ quote output) e) <$> err)).
Proof.
  unfold Run, GetProjectDir. cbn. intros [wd werr] _. destruct werr as [e|]; cbn;
    intros chdir _ environ _ [output err] _;
    (destruct err as [e'|]; cbn; [exists output, (Some e')|exists output, None]);
    (split; [|reflexivity]); eexists [_; _; _], _;
    (split_and!; [reflexivity| |reflexivity|cbn; by rewrite last_snoc]);
    intros c r; rewrite !elem_of_cons, elem_of_nil; naive_solver.
Qed.

Lemma crds_listed output :
  existsb (λ crd, existsb (λ line, Contains line crd) (GetNonEmptyLines output)) certManagerCRDs = true ↔
  ∃ crd line before rest, crd ∈ certManagerCRDs ∧ line ∈ Split newline output ∧
    line = before +:+ crd +:+ rest.
Proof.
  rewrite existsb_exists. setoid_rewrite existsb_exists. setoid_rewrite <- list_elem_of_In.
  unfold GetNonEmptyLines. setoid_rewrite list_elem_of_filter. setoid_rewrite Contains_spec. split.
  - intros (crd & Hc & line & (_ & Hl) & before & rest & E). by exists crd, line, before, rest.
  - intros (crd & line & before & rest & Hc & Hl & E). exists crd. split; [done|].
    exists line. split_and!; [|done|by exists before, rest].
    intros ->. assert (crd ≠ EmptyString) as Hn.
    { intros ->. clear - Hc. by apply (bool_decide_pack _) in Hc. }
    destruct before, crd; done.
Qed.

(** The answer is that of one kubectl call: some line of its output names a CRD of
    cert-manager; a call that fails counts as none installed. *)
Theorem IsCertManagerCRDsInstalled_correct t o :
  exec IsCertManagerCRDsInstalled t o →
  ∃ output err b, ran (Command ["kubectl"; "get"; "crds"]) t output err ∧ o = Done b ∧
    (b = true ↔ err = None ∧
      ∃ crd line before rest, crd ∈ certManagerCRDs ∧ line ∈ Split newline output ∧
        line = before +:+ crd +:+ rest).
Proof.
  intros He. refine (wp_any _ (λ t o, _) t o _ He). unfold IsCertManagerCRDsInstalled.
  apply (wp_call any _ _ _ _ (wp_Run _)). intros t1 o1 (output & err & Hr & ->).
  cbn -[certManagerCRDs Contains GetNonEmptyLines].
  destruct err as [e|]; cbn -[certManagerCRDs Contains GetNonEmptyLines];
    rewrite app_nil_r; eexists output, _, _; (split_and!; [exact Hr|reflexivity|]).
  - split; [done|]. by intros [? _].
  - rewrite crds_listed. naive_solver.
Qed.
