(* ===== verification/Fixtures.v ===== *)
(** * Values fixtures in files (internal/values/testdata/helpers.go)

    Loading a fixture allocates a new object; the helpers that set its namespace
    change the object they are given and return the same pointer. *)
From S2P Require Import Prelude GoErrors Prog Api Kube TestUtils.

Abbreviation loc := positive.

(** The objects pointers point to. *)
Record memory := { configmaps : gmap loc ConfigMap; secrets : gmap loc Secret }.

(** ** path/filepath on Unix *)

(** What Clean keeps of the elements of a path; [stack] is in reverse. *)
Fixpoint clean_elements (rooted : bool) (stack elements : list string) : list string :=
  match elements with
  | [] => reverse stack
  | e :: elements =>
      if decide (e = EmptyString ∨ e = ".") then clean_elements rooted stack elements
      else if decide (e = "..") then
        match stack with
        | top :: below =>
            if decide (top = "..") then clean_elements rooted (e :: stack) elements
            else clean_elements rooted below elements
        | [] => clean_elements rooted (if rooted then [] else [e]) elements
        end
      else clean_elements rooted (e :: stack) elements
  end.

Definition Clean (path : string) : string :=
  let rooted := String.prefix "/" path in
  let p := (if rooted then "/" else EmptyString) +:+ join "/" (clean_elements rooted [] (Split "/" path)) in
  if decide (p = EmptyString) then "." else p.

Definition Join_path (elem : list string) : string :=
  let elem := filter (λ e, e ≠ EmptyString) elem in
  if decide (elem = []) then EmptyString else Clean (join "/" elem).

(** filepath.Dir: the path up to its last slash, cleaned. *)
Definition Dir_path (path : string) : string :=
  let parts := Split "/" path in
  Clean (join "/" (take (length parts - 1) parts ++ [EmptyString])).

(** ** Calls *)

Inductive fcall :=
| Caller
| ReadFixture (path : string)
| UnmarshalConfigMap (data : string)
| UnmarshalSecret (data : string).

Definition fans (c : fcall) : Type :=
  match c with
  | Caller => option string
  | ReadFixture _ => result string
  | UnmarshalConfigMap _ => result ConfigMap
  | UnmarshalSecret _ => result Secret
  end.

#[export] Instance fixtures_sig : Sig := { call := fcall; ans := fans }.

Definition fixtureDir : prog string :=
  file ← perform Caller;
  match file with
  | None => mret "internal/values/testdata"
  | Some file => mret (Dir_path file)
  end.

(** The new object is put at a free location. *)
Definition LoadConfigMapFixture (filename : string) (m : memory) : prog (result loc * memory) :=
  dir ← fixtureDir;
  let filePath := Join_path [dir; "configmaps"; filename] in
  data ← perform (ReadFixture filePath);
  match data with
  | Err err => mret (Err (WrapError ("failed to read ConfigMap fixture " +:+ quote filename) err), m)
  | Ok data =>
      cm ← perform (UnmarshalConfigMap data);
      match cm with
      | Err err => mret (Err (WrapError ("failed to parse ConfigMap fixture " +:+ quote filename) err), m)
      | Ok cm =>
          let l := fresh (dom (configmaps m)) in
          mret (Ok l, {| configmaps := <[l := cm]> (configmaps m); secrets := secrets m |})
      end
  end.

Definition LoadSecretFixture (filename : string) (m : memory) : prog (result loc * memory) :=
  dir ← fixtureDir;
  let filePath := Join_path [dir; "secrets"; filename] in
  data ← perform (ReadFixture filePath);
  match data with
  | Err err => mret (Err (WrapError ("failed to read Secret fixture " +:+ quote filename) err), m)
  | Ok data =>
      s ← perform (UnmarshalSecret data);
      match s with
      | Err err => mret (Err (WrapError ("failed to parse Secret fixture " +:+ quote filename) err), m)
      | Ok s =>
          let l := fresh (dom (secrets m)) in
          mret (Ok l, {| configmaps := configmaps m; secrets := <[l := s]> (secrets m) |})
      end
  end.

(** ** Namespaces *)

Definition with_namespace (namespace : string) (m : ObjectMeta) : ObjectMeta :=
  {| Name := Name m; Namespace := namespace; UID := UID m; ResourceVersion := ResourceVersion m;
     Labels := Labels m; Finalizers := Finalizers m; DeletionTimestamp := DeletionTimestamp m;
     OwnerReferences := OwnerReferences m |}.

(** cm.Namespace = namespace and s.Namespace = namespace. *)
Definition set_cm_namespace (l : loc) (namespace : string) (m : memory) : memory :=
  {| configmaps := alter (λ cm, {| cm_Meta := with_namespace namespace (cm_Meta cm);
                                   cm_Data := cm_Data cm |}) l (configmaps m);
     secrets := secrets m |}.
Definition set_secret_namespace (l : loc) (namespace : string) (m : memory) : memory :=
  {| configmaps := configmaps m;
     secrets := alter (λ s, {| secret_Meta := with_namespace namespace (secret_Meta s);
                               secret_Data := secret_Data s |}) l (secrets m) |}.

(** interface{}: the dynamic types the switch tells apart, with typed nil pointers. *)
Inductive any_object :=
| AnyConfigMap (p : option loc)
| AnySecret (p : option loc)
| AnyOther (id : Z)
| AnyNil.

Definition WithNamespace (obj : any_object) (namespace : string) (m : memory) : any_object * memory :=
  let m' :=
    match obj with
    | AnyConfigMap (Some v) => set_cm_namespace v namespace m
    | AnySecret (Some v) => set_secret_namespace v namespace m
    | _ => m
    end in
  (obj, m').

Definition ConfigMapWithNamespace (cm : option loc) (namespace : string) (m : memory)
    : option loc * memory :=
  (cm, match cm with Some l => set_cm_namespace l namespace m | None => m end).

Definition SecretWithNamespace (s : option loc) (namespace : string) (m : memory)
    : option loc * memory :=
  (s, match s with Some l => set_secret_namespace l namespace m | None => m end).

Example clean_up : Join_path ["/r/internal/values/testdata"; "configmaps"; "../x.yaml"]
                   = "/r/internal/values/testdata/x.yaml".
Proof. reflexivity. Qed.
Example dir_of : Dir_path "/r/testdata/helpers.go" = "/r/testdata".
Proof. reflexivity. Qed.
Example dir_root : Dir_path "/helpers.go" = "/".
Proof. reflexivity. Qed.
Example dir_plain : Dir_path "helpers.go" = ".".
Proof. reflexivity. Qed.

(** ** Properties *)

(** The generic helper does what the typed ones do, and nothing to other objects
    and nil pointers. *)
Lemma WithNamespace_typed namespace m :
  (∀ p, WithNamespace (AnyConfigMap p) namespace m
        = prod_map AnyConfigMap id (ConfigMapWithNamespace p namespace m)) ∧
  (∀ p, WithNamespace (AnySecret p) namespace m
        = prod_map AnySecret id (SecretWithNamespace p namespace m)) ∧
  (∀ id, WithNamespace (AnyOther id) namespace m = (AnyOther id, m)) ∧
  WithNamespace AnyNil namespace m = (AnyNil, m) ∧
  ConfigMapWithNamespace None namespace m = (None, m) ∧
  SecretWithNamespace None namespace m = (None, m).
Proof. split_and!; try done; by intros []. Qed.

(** A loaded fixture belongs to the test that loaded it: it is a new object with
    the decoded content, moving it to a namespace changes nothing else of it, and no
    object any earlier pointer leads to. *)
Theorem LoadConfigMapFixture_isolated filename namespace m t l m1 :
  exec (LoadConfigMapFixture filename m) t (Done (Ok l, m1)) →
  ∃ data cm p m2, Ev (UnmarshalConfigMap data) (Ok cm) ∈ t ∧
    ConfigMapWithNamespace (Some l) namespace m1 = (p, m2) ∧ p = Some l ∧
    configmaps m !! l = None ∧
    configmaps m2 !! l = Some {| cm_Meta := with_namespace namespace (cm_Meta cm); cm_Data := cm_Data cm |} ∧
    (∀ l', l' ≠ l → configmaps m2 !! l' = configmaps m !! l') ∧ secrets m2 = secrets m.
Proof.
  intros He. refine (wp_any _ (λ t o, o = Done (Ok l, m1) → _) t _ _ He eq_refl).
  cbn. intros file _.
  destruct file as [file|]; cbn; intros [data|e] _; cbn; try done;
    intros [cm|e] _; cbn; try done; intros [= <- <-]; exists data, cm; cbn;
    eexists _, _; (split_and!; [do 2 right; by left|reflexivity|reflexivity|..]); cbn; try done;
    first [by apply not_elem_of_dom, is_fresh
          |by rewrite lookup_alter_eq, lookup_insert_eq
          |by intros l' Hl; rewrite lookup_alter_ne, lookup_insert_ne].
Qed.
