(* ===== verification/JobBuilder.v ===== *)
(** * Building the werf converge job (internal/converge/job.go) *)
From S2P Require Import Prelude GoErrors Prog Api Kube Samples Values Yaml Fetch.

(** ** hash/fnv: New32a, Write, Sum32 *)

Definition fnv_offset : Z := 2166136261.
Definition fnv_prime : Z := 16777619.

Fixpoint fnv32a_from (h : Z) (s : string) : Z :=
  match s with
  | EmptyString => h
  | String c s => fnv32a_from (uint32 (Z.lxor h (Z.of_N (N_of_ascii c)) * fnv_prime)) s
  end.

Definition fnv32a (s : string) : Z := fnv32a_from fnv_offset s.

(** ** The builder *)

Section Builder.
Context `{Machinery}.

Record Builder := {
  werf : option WerfBundle;
  scheme : option Scheme;
  valuesResolver : option Resolver;
}.

Definition NewBuilder (bundle : option WerfBundle) : Builder :=
  {| werf := bundle; scheme := None; valuesResolver := None |}.

Definition WithScheme (s : option Scheme) (b : Builder) : Builder :=
  {| werf := werf b; scheme := s; valuesResolver := valuesResolver b |}.

Definition WithValuesResolver (r : option Resolver) (b : Builder) : Builder :=
  {| werf := werf b; scheme := scheme b; valuesResolver := r |}.

(** [s[:8]] panics on a shorter string; %x does not pad. *)
Definition jobName (bundle : WerfBundle) (tag : string) : prog string :=
  let name := Name (Meta bundle) in
  let hex := format_x32 (fnv32a tag) in
  if str_len hex <? 8 then
    Panic ("runtime error: slice bounds out of range [:8] with length " +:+ itoa (str_len hex))
  else
    let tagHash := str_take 8 hex in
    r ← perform (CryptoRead 4);
    match r with
    | Err _ => mret (name +:+ "-" +:+ tagHash)
    | Ok uuidBytes =>
        let uuid := hex_encode uuidBytes in
        let fullName := name +:+ "-" +:+ tagHash +:+ "-" +:+ uuid in
        if str_len fullName <=? 253 then mret fullName
        else
          let maxBundleLen := 253 - str_len tagHash - str_len uuid - 2 in
          if maxBundleLen >? 0 then
            mret (str_take (Z.to_nat maxBundleLen) name +:+ "-" +:+ tagHash +:+ "-" +:+ uuid)
          else mret (tagHash +:+ "-" +:+ uuid)
    end.

(** [days * 24 * 60 * 60], every product in int32. *)
Definition getLogRetentionSeconds (bundle : WerfBundle) : Z :=
  let days :=
    match LogRetentionDays (Converge (Spec bundle)) with
    | Some d => if d >? 0 then d else 7
    | None => 7
    end in
  int32 (int32 (int32 (days * 24) * 60) * 60).

(** mustParseResource panics on a quantity that does not parse. *)
Definition mustParseResource (s : string) : prog Quantity :=
  match ParseQuantity s with
  | Ok q => mret q
  | Err err => Panic ("invalid resource quantity " +:+ quote s +:+ ": " +:+ Error err)
  end.

(** The string getResourceLimit parses. *)
Definition resource_value (bundle : WerfBundle) (resourceType : string) : string :=
  let value :=
    match ResourceLimits (Converge (Spec bundle)) with
    | Some limits =>
        if decide (resourceType = "cpu") then CPU limits
        else if decide (resourceType = "memory") then Memory limits
        else EmptyString
    | None => EmptyString
    end in
  if decide (value = EmptyString) then
    if decide (resourceType = "cpu") then "1"
    else if decide (resourceType = "memory") then "1Gi"
    else EmptyString
  else value.

Definition getResourceLimit (bundle : WerfBundle) (resourceType : string) : prog Quantity :=
  mustParseResource (resource_value bundle resourceType).

Definition job_labels (bundle : WerfBundle) (tag : string) : gmap string string :=
  {[ "app.kubernetes.io/name" := "werf-operator";
     "app.kubernetes.io/instance" := Name (Meta bundle);
     "app.kubernetes.io/managed-by" := "werf-operator";
     "werf.io/bundle" := Name (Meta bundle);
     "werf.io/tag" := tag ]}.

(** The arguments before the --set flags. *)
Definition base_args (bundle : WerfBundle) (tag : string) : list string :=
  ["converge"; "--log-color=false"; URL (Registry (Spec bundle)) +:+ ":" +:+ tag].

(** The Job literal of Build, and the owner reference set on it at the end. *)
Definition job_literal (bundle : WerfBundle) (tag name : string) (args : list string)
    (ttl : Z) (cpuRequest memoryRequest cpuLimit memoryLimit : Quantity)
    (owners : list OwnerReference) : Job :=
  {| job_Meta := {| Name := name; Namespace := target_of bundle; UID := EmptyString;
                    ResourceVersion := EmptyString; Labels := job_labels bundle tag; Finalizers := [];
                    DeletionTimestamp := None; OwnerReferences := owners |};
     job_Spec := {| BackoffLimit := Some 0;
                    TTLSecondsAfterFinished := Some ttl;
                    Template_Labels := job_labels bundle tag;
                    Template_Spec :=
                      {| RestartPolicy := "Never";
                         ps_ServiceAccountName := ServiceAccountName (Converge (Spec bundle));
                         Containers :=
                           [ {| c_Name := "werf"; c_Image := "ghcr.io/werf/werf:latest";
                                c_Args := args;
                                c_Requests := {[ "cpu" := cpuRequest; "memory" := memoryRequest ]};
                                c_Limits := {[ "cpu" := cpuLimit; "memory" := memoryLimit ]} |} ]
                      |} |};
     job_Status := {| Succeeded := 0; Failed := 0 |} |}.

Definition owner_of (bundle : WerfBundle) (g : GroupVersionKind) : OwnerReference :=
  {| owner_APIVersion := GroupVersion_String g; owner_Kind := gvk_Kind g;
     owner_Name := Name (Meta bundle); owner_UID := UID (Meta bundle);
     owner_Controller := false |}.

(** The end of Build: limits, the literal, the owner reference. *)
Definition finish_build (s : option Scheme) (bundle : WerfBundle) (tag name : string)
    (args : list string) : prog (result Job) :=
  let ttlSeconds := getLogRetentionSeconds bundle in
  cpuLimit ← getResourceLimit bundle "cpu";
  memoryLimit ← getResourceLimit bundle "memory";
  cpuRequest ← getResourceLimit bundle "cpu";
  memoryRequest ← getResourceLimit bundle "memory";
  match s with
  | None => mret (Err (ErrorString
              "scheme is required to set owner reference and prevent orphaned jobs"))
  | Some s =>
      match ObjectKinds s bundle with
      | Err err => mret (Err (WrapError "failed to get GroupVersionKind for WerfBundle" err))
      | Ok [] => mret (Err (ErrorString
              "no GroupVersionKind found for WerfBundle (scheme may not have WerfBundle registered)"))
      | Ok (g :: _) =>
          mret (Ok (job_literal bundle tag name args ttlSeconds
                      cpuRequest memoryRequest cpuLimit memoryLimit [owner_of bundle g]))
      end
  end.

Definition Build (b : Builder) (tag : string) : prog (result Job) :=
  match werf b with
  | None => mret (Err (ErrorString "WerfBundle is nil"))
  | Some bundle =>
      let targetNamespace := target_of bundle in
      name ← jobName bundle tag;
      let args := base_args bundle tag in
      let sources := ValuesFrom (Converge (Spec bundle)) in
      if decide (sources = []) then finish_build (scheme b) bundle tag name args
      else
        match valuesResolver b with
        | None => mret (Err (ErrorString "values resolver required when valuesFrom is configured"))
        | Some resolver =>
            r ← ResolveValues (Resolver := resolver) sources (Namespace (Meta bundle)) targetNamespace;
            match r with
            | Err err => mret (Err (WrapError "failed to resolve values" err))
            | Ok resolvedValues =>
                finish_build (scheme b) bundle tag name (args ++ GenerateSetFlags resolvedValues)
            end
        end
  end.

End Builder.

(** ** Lemmas *)

Lemma fnv32a_from_range h s : 0 <= h < 2 ^ 32 → 0 <= fnv32a_from h s < 2 ^ 32.
Proof.
  revert h. induction s as [|c s IH]; intros h Hh; cbn [fnv32a_from]; [done|].
  apply IH. by apply Z.mod_pos_bound.
Qed.

Lemma fnv32a_range s : 0 <= fnv32a s < 2 ^ 32.
Proof. by apply fnv32a_from_range. Qed.

(** The hash fills its eight digits when its top digit is not zero. *)
Lemma tag_hash_length tag :
  (str_len (format_x32 (fnv32a tag)) <? 8) = bool_decide (fnv32a tag < 2 ^ 28).
Proof.
  pose proof (format_x32_length _ (fnv32a_range tag)) as Hiff.
  assert (String.length (format_x32 (fnv32a tag)) <= 8)%nat as Hle.
  { unfold format_x32. etransitivity; [apply strip_zeros_length_le|].
    by rewrite hex_fixed_length. }
  unfold str_len. case_bool_decide; lia.
Qed.

Lemma hash_len tag : 2 ^ 28 <= fnv32a tag → str_len (format_x32 (fnv32a tag)) = 8.
Proof.
  intros Hh. pose proof (format_x32_length _ (fnv32a_range tag)) as Hiff. unfold str_len. lia.
Qed.

Section BuilderLemmas.
Context `{Machinery}.

(** The name without the random part: the bundle's name cut at 235 bytes, and
    the hash of the tag. *)
Definition name_stem (bundle : WerfBundle) (tag : string) : string :=
  str_take 235 (Name (Meta bundle)) +:+ "-" +:+ format_x32 (fnv32a tag).

Lemma name_stem_len bundle tag :
  2 ^ 28 <= fnv32a tag → str_len (name_stem bundle tag) <= 244.
Proof.
  intros Hh. unfold name_stem. rewrite !str_len_app, hash_len by done.
  change (str_len "-") with 1.
  assert (str_len (str_take 235 (Name (Meta bundle))) <= 235); [|lia].
  destruct (decide (String.length (Name (Meta bundle)) <= 235)%nat).
  - rewrite str_take_all by done. unfold str_len. lia.
  - unfold str_len. rewrite str_take_length; lia.
Qed.

(** Every execution of jobName. *)
Lemma wp_jobName bundle tag :
  wp go_ok (jobName bundle tag) (λ t o,
    (fnv32a tag < 2 ^ 28 ∧ t = [] ∧ ∃ m, o = Panicked m) ∨
    (2 ^ 28 <= fnv32a tag ∧
     ((∃ e, t = [Ev (CryptoRead 4) (Err e)] ∧
        o = Done (Name (Meta bundle) +:+ "-" +:+ format_x32 (fnv32a tag))) ∨
      (∃ bs, t = [Ev (CryptoRead 4) (Ok bs)] ∧ length bs = 4%nat ∧
        o = Done (name_stem bundle tag +:+ "-" +:+ hex_encode bs))))).
Proof.
  unfold jobName. rewrite tag_hash_length.
  destruct (bool_decide_reflect (fnv32a tag < 2 ^ 28)) as [Hlt|Hge].
  { cbn [wp]. left. eauto. }
  assert (2 ^ 28 <= fnv32a tag) as Hh by lia.
  pose proof (hash_len tag Hh) as Hl.
  assert (str_take 8 (format_x32 (fnv32a tag)) = format_x32 (fnv32a tag)) as ->.
  { apply str_take_all. unfold str_len in Hl. lia. }
  cbn -[str_take hex_encode format_x32 Z.sub]. intros [bs|e]; cbn [go_ok].
  - intros [Hbs _]. assert (length bs = 4%nat) as Hb by lia.
    assert (str_len (hex_encode bs) = 8) as Hu.
    { unfold str_len. rewrite hex_encode_length, Hb. done. }
    rewrite !str_len_app, Hl, Hu. change (str_len "-") with 1.
    change (253 - 8 - 8 - 2) with 235. change (235 >? 0) with true.
    unfold name_stem. change (Z.to_nat 235) with 235%nat.
    destruct (Z.leb_spec (str_len (Name (Meta bundle)) + (1 + (8 + (1 + 8)))) 253);
      right; (split; [done|]); right; exists bs; (split; [done|]); (split; [done|]).
    + rewrite str_take_all by (unfold str_len in *; lia). by rewrite !string_app_assoc.
    + by rewrite !string_app_assoc.
  - intros _. right. split; [done|]. left. by exists e.
Qed.

(** The end of Build, by cases on the two quantities. *)
Lemma finish_build_cases s bundle tag name args :
  finish_build s bundle tag name args
  = match ParseQuantity (resource_value bundle "cpu"), ParseQuantity (resource_value bundle "memory") with
    | Err e, _ => Panic ("invalid resource quantity " +:+ quote (resource_value bundle "cpu")
                           +:+ ": " +:+ Error e)
    | Ok _, Err e => Panic ("invalid resource quantity " +:+ quote (resource_value bundle "memory")
                              +:+ ": " +:+ Error e)
    | Ok qc, Ok qm =>
        mret match s with
             | None => Err (ErrorString
                 "scheme is required to set owner reference and prevent orphaned jobs")
             | Some s =>
                 match ObjectKinds s bundle with
                 | Err err => Err (WrapError "failed to get GroupVersionKind for WerfBundle" err)
                 | Ok [] => Err (ErrorString
                     "no GroupVersionKind found for WerfBundle (scheme may not have WerfBundle registered)")
                 | Ok (g :: _) =>
                     Ok (job_literal bundle tag name args (getLogRetentionSeconds bundle)
                           qc qm qc qm [owner_of bundle g])
                 end
             end
    end.
Proof.
  unfold finish_build, getResourceLimit, mustParseResource.
  destruct (ParseQuantity (resource_value bundle "cpu")) as [qc|e]; [|done].
  destruct (ParseQuantity (resource_value bundle "memory")) as [qm|e]; [|done].
  cbn. destruct s as [s|]; [|done]. by destruct (ObjectKinds s bundle) as [[|g gs]|e].
Qed.

(** A limit of the spec: a default stands for one that is left out or empty. *)
Definition limit_of (limit : ResourceLimitsConfig → string) (fallback : string)
    (bundle : WerfBundle) : string :=
  match ResourceLimits (Converge (Spec bundle)) with
  | Some limits => if decide (limit limits = EmptyString) then fallback else limit limits
  | None => fallback
  end.

Lemma resource_value_cpu bundle : resource_value bundle "cpu" = limit_of CPU "1" bundle.
Proof. unfold resource_value, limit_of. by destruct (ResourceLimits _). Qed.

Lemma resource_value_memory bundle : resource_value bundle "memory" = limit_of Memory "1Gi" bundle.
Proof. unfold resource_value, limit_of. by destruct (ResourceLimits _). Qed.

(** Where the values of a built job come from. *)
Definition resolved (b : Builder) (bundle : WerfBundle) (t : list event)
    (values : gmap string string) : Prop :=
  let sources := ValuesFrom (Converge (Spec bundle)) in
  (sources = [] ∧ t = [] ∧ values = ∅) ∨
  (∃ r, valuesResolver b = Some r ∧
        exec (ResolveValues (Resolver := r) sources (Namespace (Meta bundle)) (target_of bundle))
          t (Done (Ok values))).

(** A job Build returned. *)
Definition built (b : Builder) (tag : string) (t : list event) (job : Job) : Prop :=
  ∃ bundle name values t1 t2 s g gs qc qm,
    werf b = Some bundle ∧ t = t1 ++ t2 ∧
    exec (jobName bundle tag) t1 (Done name) ∧
    resolved b bundle t2 values ∧
    scheme b = Some s ∧ ObjectKinds s bundle = Ok (g :: gs) ∧
    ParseQuantity (resource_value bundle "cpu") = Ok qc ∧
    ParseQuantity (resource_value bundle "memory") = Ok qm ∧
    job = job_literal bundle tag name (base_args bundle tag ++ GenerateSetFlags values)
            (getLogRetentionSeconds bundle) qc qm qc qm [owner_of bundle g].

(** The flags of a job read back, if no key has an equals sign. *)
Lemma job_literal_flags bundle tag name values ttl qc qm qc' qm' owners :
  (∀ k, is_Some (values !! k) → str_contains "=" k = false) →
  ExtractSetFlags (Some (job_literal bundle tag name (base_args bundle tag ++ GenerateSetFlags values)
                           ttl qc qm qc' qm' owners)) = escapeValue <$> values.
Proof.
  intros Hk. cbn [ExtractSetFlags job_literal job_Spec Template_Spec Containers c_Args].
  rewrite extract_flags_skip; [by apply extract_generated|].
  unfold base_args. rewrite !not_elem_of_cons. repeat split; try done.
  - intros E. assert (str_contains ":" "--set" = true) as Hc; [|done].
    rewrite E, !str_contains_app. cbn. by rewrite orb_true_r.
  - apply not_elem_of_nil.
Qed.

Lemma jobName_not_empty bundle tag t name :
  exec (jobName bundle tag) t (Done name) → name ≠ EmptyString.
Proof.
  assert (∀ s t, s +:+ "-" +:+ t ≠ EmptyString) as Hne by (by intros []).
  intros He. assert (wp any (jobName bundle tag) (λ _ o, ∀ n, o = Done n → n ≠ EmptyString)) as Hw.
  { unfold jobName. case_match; [done|]. unfold perform. prog_simpl. intros [bs|e] _;
      cbv beta iota zeta; repeat case_match; cbn [wp mret prog_ret]; intros ? [= <-]; first [apply Hne | by destruct (str_take _ _)]. }
  exact (wp_any _ _ _ _ Hw He name eq_refl).
Qed.

Lemma wp_finish_build legal s bundle tag name args (Q : list event → outcome (result Job) → Prop) :
  (∀ m, Q [] (Panicked m)) → (∀ e, Q [] (Done (Err e))) →
  (∀ s' g gs qc qm, s = Some s' → ObjectKinds s' bundle = Ok (g :: gs) →
     ParseQuantity (resource_value bundle "cpu") = Ok qc →
     ParseQuantity (resource_value bundle "memory") = Ok qm →
     Q [] (Done (Ok (job_literal bundle tag name args (getLogRetentionSeconds bundle)
                       qc qm qc qm [owner_of bundle g])))) →
  wp legal (finish_build s bundle tag name args) Q.
Proof.
  intros HP HE HJ. rewrite finish_build_cases.
  destruct (ParseQuantity (resource_value bundle "cpu")) as [qc|e] eqn:Ec; [|apply HP].
  destruct (ParseQuantity (resource_value bundle "memory")) as [qm|e] eqn:Em; [|apply HP].
  cbn. destruct s as [s|]; [|apply HE].
  destruct (ObjectKinds s bundle) as [[|g gs]|e] eqn:Eo; [apply HE| |apply HE].
  by eapply HJ.
Qed.

Lemma wp_Build b tag :
  wp any (Build b tag) (λ t o, ∀ job, o = Done (Ok job) → built b tag t job).
Proof.
  unfold Build. destruct (werf b) as [bundle|] eqn:Eb; [|done].
  eapply wp_call; [apply wp_self|]. intros t1 [name|m] H1; [|done]. cbn [after].
  destruct (decide (ValuesFrom (Converge (Spec bundle)) = [])) as [Es|Es].
  - apply wp_finish_build; [done..|].
    intros s g gs qc qm ? ? ? ? job [= <-].
    exists bundle, name, ∅, t1, [], s, g, gs, qc, qm.
    repeat (split; [done|]). split; [by left|]. repeat (split; [done|]).
    by rewrite app_nil_r.
  - destruct (valuesResolver b) as [r|] eqn:Er; [|done].
    eapply wp_call; [apply wp_self|]. intros t2 [[values|e]|m] H2; [|done..]. cbn [after].
    apply wp_finish_build; [done..|].
    intros s g gs qc qm ? ? ? ? job [= <-].
    exists bundle, name, values, t1, t2, s, g, gs, qc, qm.
    rewrite app_nil_r. repeat (split; [done|]). split; [right; by exists r|].
    repeat (split; [done|]). done.
Qed.

Lemma no_panic_jobName bundle tag : 2 ^ 28 <= fnv32a tag → no_panic (jobName bundle tag).
Proof.
  intros Hh. unfold jobName. rewrite tag_hash_length, bool_decide_false by lia.
  apply no_panic_perform. intros [bs|e]; repeat case_match; apply no_panic_ret.
Qed.

Lemma no_panic_Build b tag :
  2 ^ 28 <= fnv32a tag →
  (∀ bundle ty, werf b = Some bundle → ty ∈ ["cpu"; "memory"] →
     ∃ q, ParseQuantity (resource_value bundle ty) = Ok q) →
  (∀ r s n t, valuesResolver b = Some r → no_panic (ResolveValues (Resolver := r) s n t)) →
  no_panic (Build b tag).
Proof.
  intros Hh Hq Hr. unfold Build. destruct (werf b) as [bundle|] eqn:Eb; [|apply no_panic_ret].
  assert (∀ s name args, no_panic (finish_build s bundle tag name args)) as Hf.
  { intros s name args. rewrite finish_build_cases.
    destruct (Hq bundle "cpu") as [qc ->]; [done|by left|].
    destruct (Hq bundle "memory") as [qm ->]; [done|by right; left|]. apply no_panic_ret. }
  apply no_panic_bind; [by apply no_panic_jobName|].
  - intros name. case_decide; [apply Hf|].
    destruct (valuesResolver b) as [r|]; [|apply no_panic_ret].
    apply no_panic_bind; [by apply Hr|]. intros [v|e]; [apply Hf | apply no_panic_ret].
Qed.

End BuilderLemmas.

(** ** Properties *)

Section BuilderProperties.
Context `{Machinery}.

(** The job name.  A tag whose FNV-1a hash is below 2^28 has fewer than
    eight hexadecimal digits and the slice panics before any call.  Otherwise the
    name is the bundle's name cut at 235 bytes, the eight-digit hash and the
    eight-digit random part, at most 253 bytes long; if no random bytes can be
    read it is the name and the hash, uncut.  The bare hash-uuid form of the last
    line is never used. *)
Theorem jobName_correct bundle tag t o :
  exec (jobName bundle tag) t o → Forall go_ok t →
  (fnv32a tag < 2 ^ 28 ∧ t = [] ∧ ∃ m, o = Panicked m) ∨
  (2 ^ 28 <= fnv32a tag ∧
   ((∃ e, t = [Ev (CryptoRead 4) (Err e)] ∧
      o = Done (Name (Meta bundle) +:+ "-" +:+ format_x32 (fnv32a tag))) ∨
    (∃ bs, t = [Ev (CryptoRead 4) (Ok bs)] ∧
      o = Done (name_stem bundle tag +:+ "-" +:+ hex_encode bs) ∧
      str_len (name_stem bundle tag +:+ "-" +:+ hex_encode bs) <= 253))).
Proof.
  intros He Ht. destruct (wp_exec _ _ _ _ _ (wp_jobName bundle tag) He Ht)
    as [?|[Hh [?|(bs & Et & Hb & Ho)]]]; [by left | right; eauto |].
  right. split; [done|]. right. exists bs. split; [done|]. split; [done|].
  pose proof (name_stem_len bundle tag Hh).
  rewrite !str_len_app. change (str_len "-") with 1.
  assert (str_len (hex_encode bs) = 8); [|lia].
  unfold str_len. by rewrite hex_encode_length, Hb.
Qed.

(** The retention: absent or non-positive days give seven days; up to 24855
    days the TTL is exact; from 24856 to 49710 days the int32 product wraps
    around and the TTL is negative. *)
Theorem getLogRetentionSeconds_bounds bundle :
  match LogRetentionDays (Converge (Spec bundle)) with
  | None => getLogRetentionSeconds bundle = 7 * 86400
  | Some d =>
      (d <= 0 → getLogRetentionSeconds bundle = 7 * 86400) ∧
      (1 <= d <= 24855 → getLogRetentionSeconds bundle = d * 86400) ∧
      (24856 <= d <= 49710 → getLogRetentionSeconds bundle < 0)
  end.
Proof.
  unfold getLogRetentionSeconds.
  destruct (LogRetentionDays (Converge (Spec bundle))) as [d|]; [|reflexivity].
  split; [|split]; intros Hd.
  - rewrite Z.gtb_ltb. destruct (Z.ltb_spec 0 d); [lia|reflexivity].
  - rewrite Z.gtb_ltb. destruct (Z.ltb_spec 0 d); [|lia].
    rewrite (int32_small (d * 24)) by (unfold in_int32; lia).
    rewrite (int32_small (d * 24 * 60)) by (unfold in_int32; lia).
    rewrite int32_small by (unfold in_int32; lia). lia.
  - rewrite Z.gtb_ltb. destruct (Z.ltb_spec 0 d); [|lia].
    rewrite (int32_small (d * 24)) by (unfold in_int32; lia).
    rewrite (int32_small (d * 24 * 60)) by (unfold in_int32; lia).
    unfold wrap_s. change (32 - 1) with 31.
    replace (d * 24 * 60 * 60 + 2 ^ 31) with ((d * 86400 - 2 ^ 31) + 1 * 2 ^ 32) by lia.
    rewrite Z.mod_add by done. rewrite Z.mod_small by lia. lia.
Qed.

(** C21 A job that Build returns is named as jobName named it, carries the
    bundle's labels, runs in the target namespace under the bundle's service
    account and runs one container of the werf image, never restarted nor
    retried.  The container's CPU and memory limits are the spec's, or 1 and 1Gi
    where the spec leaves them out or empty, and its requests are its limits.  Its
    arguments deploy <url>:<tag>, and its --set flags read back to the resolved
    values, escaped for Helm, when no key has an equals sign.  It has the
    retention TTL and is owned by the bundle through a non-controller
    reference. *)
Theorem Build_job b bundle tag t job :
  exec (Build b tag) t (Done (Ok job)) → werf b = Some bundle →
  Namespace (job_Meta job) = target_of bundle ∧
  ps_ServiceAccountName (Template_Spec (job_Spec job))
    = ServiceAccountName (Converge (Spec bundle)) ∧
  RestartPolicy (Template_Spec (job_Spec job)) = "Never" ∧
  BackoffLimit (job_Spec job) = Some 0 ∧
  TTLSecondsAfterFinished (job_Spec job) = Some (getLogRetentionSeconds bundle) ∧
  Labels (job_Meta job) !! "werf.io/tag" = Some tag ∧
  Labels (job_Meta job) !! "werf.io/bundle" = Some (Name (Meta bundle)) ∧
  Template_Labels (job_Spec job) = Labels (job_Meta job) ∧
  (∃ owner, OwnerReferences (job_Meta job) = [owner] ∧ owner_UID owner = UID (Meta bundle) ∧
            owner_Name owner = Name (Meta bundle) ∧ owner_Controller owner = false) ∧
  ∃ c cpu memory values t1 t2,
    Containers (Template_Spec (job_Spec job)) = [c] ∧
    c_Name c = "werf" ∧ c_Image c = "ghcr.io/werf/werf:latest" ∧
    ParseQuantity (limit_of CPU "1" bundle) = Ok cpu ∧
    ParseQuantity (limit_of Memory "1Gi" bundle) = Ok memory ∧
    c_Limits c = {["cpu" := cpu; "memory" := memory]} ∧ c_Requests c = c_Limits c ∧
    take 3 (c_Args c) = ["converge"; "--log-color=false"; URL (Registry (Spec bundle)) +:+ ":" +:+ tag] ∧
    t = t1 ++ t2 ∧ exec (jobName bundle tag) t1 (Done (Name (job_Meta job))) ∧
    resolved b bundle t2 values ∧
    ((∀ k, is_Some (values !! k) → str_contains "=" k = false) →
     ExtractSetFlags (Some job) = escapeValue <$> values).
Proof.
  intros He Eb.
  destruct (wp_any _ _ _ _ (wp_Build b tag) He job eq_refl)
    as (bundle' & name & values & t1 & t2 & s & g & gs & qc & qm & Eb' & -> & Hn & Hr & _ & _ & Ec & Em & ->).
  rewrite Eb in Eb'. injection Eb' as <-. rewrite resource_value_cpu in Ec. rewrite resource_value_memory in Em.
  repeat (split; [reflexivity|]). split; [by eexists|].
  eexists _, qc, qm, values, t1, t2. split; [reflexivity|].
  do 2 (split; [reflexivity|]). do 2 (split; [done|]). do 4 (split; [reflexivity|]).
  do 2 (split; [done|]). apply job_literal_flags.
Qed.

(** A tag whose hash is below 2^28 - one tag in sixteen, v2.2.0 among them -
    cannot be deployed: Build panics on it, before any call, for every bundle. *)
Theorem Build_panics_on_short_hash b bundle tag t o :
  exec (Build b tag) t o → werf b = Some bundle → fnv32a tag < 2 ^ 28 →
  t = [] ∧ ∃ m, o = Panicked m.
Proof.
  intros He Eb Hh. by_wp He. unfold Build. rewrite Eb. unfold jobName.
  rewrite tag_hash_length, bool_decide_true by done. cbn. eauto.
Qed.

(** Apart from that, Build panics only on a resource limit that is not a
    quantity: with a hash of eight digits, limits that parse, and the operator's
    own resolver, every execution returns a job or an error. *)
Theorem Build_no_panic b tag t o :
  exec (Build b tag) t o →
  2 ^ 28 <= fnv32a tag →
  (∀ bundle ty, werf b = Some bundle → ty ∈ ["cpu"; "memory"] →
     ∃ q, ParseQuantity (resource_value bundle ty) = Ok q) →
  valuesResolver b = Some NewResolver ∨ valuesResolver b = None →
  ∃ r, o = Done r.
Proof.
  intros He Hh Hq Hr. refine (wp_any _ _ _ _ (no_panic_Build b tag Hh Hq _) He).
  intros r s n t' Er. destruct Hr as [Hr|Hr]; rewrite Hr in Er; [|done].
  injection Er as <-. apply no_panic_ResolveValues.
Qed.

(** Build refuses, with an error and no panic of its own, a nil bundle, a
    missing scheme, and values without a resolver. *)
Theorem Build_refuses b tag t job :
  exec (Build b tag) t (Done (Ok job)) →
  is_Some (werf b) ∧ is_Some (scheme b) ∧
  (∀ bundle, werf b = Some bundle → ValuesFrom (Converge (Spec bundle)) ≠ [] →
             is_Some (valuesResolver b)).
Proof.
  intros He.
  destruct (wp_any _ _ _ _ (wp_Build b tag) He job eq_refl)
    as (bundle & name & values & t1 & t2 & s & g & gs & qc & qm & Eb & _ & _ & Hr & Es & _).
  split; [by eexists|]. split; [by eexists|]. intros bundle' Eb' Hv.
  rewrite Eb in Eb'. injection Eb' as <-.
  destruct Hr as [[? _]|(r & Er & _)]; [done|by eexists].
Qed.

End BuilderProperties.

(** ** Witnesses *)

#[local] Existing Instance sample_machinery.

Definition sample_builder : Builder :=
  WithValuesResolver (Some NewResolver) (WithScheme (Some [werf_gvk]) (NewBuilder (Some sample_bundle))).

Definition sample_build : list event * outcome (result Job) :=
  run_with sample_answers (Build sample_builder "v1.0.0").

Definition sample_job : Job := ok_of (flags_job []) sample_build.2.

Lemma sample_build_ok : sample_build.2 = Done (Ok sample_job).
Proof. apply ok_of_spec. vm_compute. reflexivity. Qed.

Lemma sample_build_exec : exec (Build sample_builder "v1.0.0") sample_build.1 (Done (Ok sample_job)).
Proof. rewrite <- sample_build_ok. apply run_with_exec. Qed.

Lemma jobName_correct_witness :
  (run_with sample_answers (jobName sample_bundle "v1.0.0")).2 = Done "my-app-e4b60778-12345678" ∧
  str_len "my-app-e4b60778-12345678" <= 253.
Proof.
  pose proof (jobName_correct sample_bundle "v1.0.0" _ _ (run_with_exec sample_answers _)) as Hp.
  destruct Hp as [(Hh & _)|(_ & [(e & Et & _)|(bs & Et & Eo & Hl)])].
  - repeat constructor; vm_compute; done.
  - by vm_compute in Hh.
  - by vm_compute in Et.
  - assert (bs = [18; 52; 86; 120]) as ->.
    { symmetry. exact (f_equal (λ t, match t with [Ev (CryptoRead _) (Ok x)] => x | _ => [] end) Et). }
    split; [rewrite Eo; reflexivity | exact Hl].
Defined.

Lemma Build_job_witness :
  Namespace (job_Meta sample_job) = "default" ∧
  TTLSecondsAfterFinished (job_Spec sample_job) = Some 604800 ∧
  limit_of CPU "1" sample_bundle = "1" ∧
  ∃ c cpu, Containers (Template_Spec (job_Spec sample_job)) = [c] ∧
    ParseQuantity "1" = Ok cpu ∧ c_Requests c !! "cpu" = Some cpu.
Proof.
  destruct (Build_job _ sample_bundle _ _ _ sample_build_exec eq_refl)
    as (En & _ & _ & _ & Et & _ & _ & _ & _ & c & cpu & memory & _ & _ & _ & Hc & _ & _ & Hq & _ & El & Er & _).
  split; [rewrite En; reflexivity|]. split; [rewrite Et; reflexivity|]. split; [reflexivity|].
  exists c, cpu. split; [exact Hc|]. split; [exact Hq|]. rewrite Er, El. reflexivity.
Defined.

Lemma Build_panics_on_short_hash_witness :
  ∃ m, (run_with sample_answers (Build sample_builder "v2.2.0")).2 = Panicked m.
Proof.
  destruct (Build_panics_on_short_hash sample_builder sample_bundle "v2.2.0" _ _
              (run_with_exec sample_answers _)) as [_ Hm]; [reflexivity | | exact Hm].
  vm_compute. reflexivity.
Defined.

Lemma Build_no_panic_witness : ∃ r, sample_build.2 = Done r.
Proof.
  apply (Build_no_panic sample_builder "v1.0.0" sample_build.1).
  - apply run_with_exec.
  - vm_compute. discriminate.
  - intros bundle ty [= <-] Hty. repeat rewrite elem_of_cons in Hty.
    destruct Hty as [->|[->|Hty]]; [eexists; reflexivity..|by apply not_elem_of_nil in Hty].
  - by left.
Defined.

Lemma Build_refuses_witness : is_Some (scheme sample_builder).
Proof. apply (Build_refuses _ _ _ _ sample_build_exec). Defined.
