(* ===== verification/Admission.v ===== *)
(** * The names and labels of a job

    Kubernetes documents the form of the names of objects and of the values of
    labels.  This file states that form and determines which of the jobs that
    Build returns have it. *)
From S2P Require Import Prelude GoErrors Prog Api Kube Duration Samples Values Yaml Fetch JobBuilder.

(** ** The documented forms

    A DNS-1123 subdomain: at most 253 bytes, parts separated by dots, each of lower
    case letters, digits and dashes with a letter or digit at both ends.  A label
    value: at most 63 bytes, empty, or letters, digits, dashes, underscores and
    dots with a letter or digit at both ends.  Each is read by an automaton of
    four states. *)

Definition char_between (a b c : ascii) : bool :=
  (N_of_ascii a <=? N_of_ascii c)%N && (N_of_ascii c <=? N_of_ascii b)%N.

Definition lower_alnum (c : ascii) : bool := char_between "a" "z" c || is_digit c.
Definition alnum (c : ascii) : bool := lower_alnum c || char_between "A" "Z" c.

(** Before the first byte, after a letter or digit, after a sign, lost. *)
Inductive scan := Start | Letter | Sign | Wrong.

#[global] Instance scan_eq_dec : EqDecision scan.
Proof. solve_decision. Defined.

Definition name_step (q : scan) (c : ascii) : scan :=
  match q with
  | Wrong => Wrong
  | _ =>
      if lower_alnum c then Letter
      else match q with
           | Letter => if decide (c = "-"%char) then Sign else if decide (c = "."%char) then Start else Wrong
           | Sign => if decide (c = "-"%char) then Sign else Wrong
           | _ => Wrong
           end
  end.

Definition label_step (q : scan) (c : ascii) : scan :=
  match q with
  | Wrong => Wrong
  | _ =>
      if alnum c then Letter
      else match q with
           | Letter | Sign => if decide (c ∈ ["-"; "_"; "."]%char) then Sign else Wrong
           | _ => Wrong
           end
  end.

Fixpoint scanned (step : scan → ascii → scan) (q : scan) (s : string) : scan :=
  match s with
  | EmptyString => q
  | String c s => scanned step (step q c) s
  end.

Definition dns_subdomain (s : string) : bool :=
  (str_len s <=? 253) && bool_decide (scanned name_step Start s = Letter).

Definition label_value (s : string) : bool :=
  (str_len s <=? 63) && bool_decide (scanned label_step Start s ∈ [Start; Letter]).

(** A tag with which Build can make such a job: eight digits of hash, and a
    label value. *)
Definition deployable (tag : string) : bool := (2 ^ 28 <=? fnv32a tag) && label_value tag.

(** ** Lemmas *)

Lemma scanned_app step q s t : scanned step q (s +:+ t) = scanned step (scanned step q s) t.
Proof. revert q. induction s as [|c s IH]; intros q; [done|apply IH]. Qed.

Lemma name_step_alnum q c : q ≠ Wrong → lower_alnum c = true → name_step q c = Letter.
Proof. intros Hq Hc. unfold name_step. rewrite Hc. by destruct q. Qed.

Lemma scanned_alnum q s :
  q ≠ Wrong → str_forall lower_alnum s = true → s ≠ EmptyString → scanned name_step q s = Letter.
Proof.
  revert q. induction s as [|c s IH]; intros q Hq Hs Hne; [done|].
  apply andb_prop in Hs as [Hc Hs]. change (scanned name_step (name_step q c) s = Letter).
  rewrite name_step_alnum by done. destruct s as [|d s]; [done|]. by apply IH.
Qed.

(** A byte more of a name, seen as part of a label value. *)
Definition reads_as (q p : scan) : Prop :=
  match q with
  | Start => p = Start ∨ p = Sign
  | Wrong => True
  | q => p = q
  end.

Lemma reads_as_step q p c : reads_as q p → reads_as (name_step q c) (label_step p c).
Proof.
  intros Hq.
  assert (lower_alnum c = true → alnum c = true) as Ha by (unfold alnum; by intros ->).
  assert (∀ d, d ∈ ["-"; "."]%char → alnum d = false ∧ d ∈ ["-"; "_"; "."]%char) as Hs.
  { intros d. rewrite !elem_of_cons, elem_of_nil. intros [->|[->|[]]]; (split; [done|]);
      [by left|by right; right; left]. }
  destruct q; cbn in Hq; try done; [destruct Hq as [->| ->]|subst p|subst p];
    cbn [name_step label_step]; (destruct (lower_alnum c); [by rewrite Ha|]); try done.
  - destruct (decide (c = "-"%char)) as [->|]; [done|].
    destruct (decide (c = "."%char)) as [->|]; [right; done|done].
  - destruct (decide (c = "-"%char)) as [->|]; done.
Qed.

Lemma scanned_reads_as q p s :
  reads_as q p → reads_as (scanned name_step q s) (scanned label_step p s).
Proof. revert q p. induction s as [|c s IH]; intros q p Hq; [done|]. by apply IH, reads_as_step. Qed.

(** A short subdomain is a label value. *)
Lemma dns_label s : dns_subdomain s = true → str_len s <= 63 → label_value s = true.
Proof.
  intros [_ Hs%bool_decide_eq_true]%andb_prop Hl. apply andb_true_intro. split; [lia|].
  pose proof (scanned_reads_as Start Start s (or_introl eq_refl)) as Hr. rewrite Hs in Hr.
  apply bool_decide_eq_true. rewrite Hr. by right; left.
Qed.

Lemma hex_digit_alnum d : 0 <= d < 16 → lower_alnum (hex_digit d) = true.
Proof.
  intros Hd. assert (∃ n, (n < 16)%nat ∧ d = Z.of_nat n) as (n & Hn & ->) by (exists (Z.to_nat d); lia).
  do 16 (destruct n as [|n]; [done|]). lia.
Qed.

Lemma hex_fixed_alnum n z : str_forall lower_alnum (hex_fixed n z) = true.
Proof.
  induction n as [|n IH]; [done|]. cbn [hex_fixed str_forall]. rewrite IH, hex_digit_alnum; [done|].
  by apply Z.mod_pos_bound.
Qed.

Lemma hex_encode_alnum bs : str_forall lower_alnum (hex_encode bs) = true.
Proof.
  induction bs as [|b bs IH]; [done|]. cbn [hex_encode]. by rewrite str_forall_app, hex_fixed_alnum.
Qed.

Lemma strip_zeros_forall P s : str_forall P s = true → str_forall P (strip_zeros s) = true.
Proof.
  induction s as [|c s IH]; [done|]. intros Hs. destruct s as [|d s]; [done|].
  change (strip_zeros (String c (String d s)))
    with (if decide (c = "0"%char) then strip_zeros (String d s) else String c (String d s)).
  case_decide; [|done]. apply IH. by apply andb_prop in Hs as [_ Hs].
Qed.

Lemma format_x32_alnum z : str_forall lower_alnum (format_x32 z) = true.
Proof. apply strip_zeros_forall, hex_fixed_alnum. Qed.

(** A name continued by a dash and hexadecimal digits. *)
Lemma scanned_suffix s h :
  scanned name_step Start s = Letter → str_forall lower_alnum h = true → str_len h = 8 →
  scanned name_step Start (s +:+ "-" +:+ h) = Letter.
Proof.
  intros Hs Hh Hl. rewrite scanned_app, Hs. change ("-" +:+ h) with (String "-" h).
  cbn [scanned]. change (name_step Letter "-") with Sign. apply scanned_alnum; [done|done|].
  by intros ->.
Qed.

Section Admission.
Context `{Machinery}.

(** What the documentation asks of a job: its name is a subdomain of at most 63
    bytes, the values of its labels and of its pods' labels are label values. *)
Definition well_named (job : Job) : Prop :=
  dns_subdomain (Name (job_Meta job)) = true ∧ str_len (Name (job_Meta job)) <= 63 ∧
  map_Forall (λ _ v, label_value v = true) (Labels (job_Meta job)) ∧
  map_Forall (λ _ v, label_value v = true) (Template_Labels (job_Spec job)).

(** The answer to the request for random bytes, with which a build starts. *)
Definition random (t : list event) : bool :=
  match t with Ev (CryptoRead _) (Ok _) :: _ => true | _ => false end.

Lemma job_labels_named bundle tag :
  map_Forall (λ _ v, label_value v = true) (job_labels bundle tag) ↔
  label_value (Name (Meta bundle)) = true ∧ label_value tag = true.
Proof.
  unfold job_labels. split.
  - intros Hm. split; [exact (Hm "werf.io/bundle" _ eq_refl)|exact (Hm "werf.io/tag" _ eq_refl)].
  - intros [Hn Ht]. repeat (apply map_Forall_insert_2; [done|]). apply map_Forall_empty.
Qed.

(** No name is made of a short hash. *)
Lemma jobName_hash bundle tag t name :
  exec (jobName bundle tag) t (Done name) → 2 ^ 28 <= fnv32a tag.
Proof.
  intros He. apply Z.nlt_ge. intros Hh.
  assert (wp any (jobName bundle tag) (λ _ o, ∀ n, o ≠ Done n)) as Hw.
  { unfold jobName. by rewrite tag_hash_length, bool_decide_true. }
  exact (wp_any _ _ _ _ Hw He name eq_refl).
Qed.

(** The name of a job of a bundle whose own name is a subdomain. *)
Lemma jobName_named bundle tag t name :
  exec (jobName bundle tag) t (Done name) → Forall go_ok t →
  dns_subdomain (Name (Meta bundle)) = true →
  2 ^ 28 <= fnv32a tag ∧
  (dns_subdomain name = true ∧ str_len name <= 63 ↔
   str_len (Name (Meta bundle)) <= if random t then 45 else 54) ∧ t ≠ [].
Proof.
  intros He Ht [_ Hd%bool_decide_eq_true]%andb_prop.
  destruct (wp_exec _ _ _ _ _ (wp_jobName bundle tag) He Ht)
    as [(_ & _ & m & ?)|[Hh Hc]]; [done|]. split; [done|].
  pose proof (hash_len tag Hh) as Hl. pose proof (format_x32_alnum (fnv32a tag)) as Ha.
  assert (∀ s, dns_subdomain s = true ∧ str_len s <= 63 ↔
    scanned name_step Start s = Letter ∧ str_len s <= 63) as Hdns.
  { intros s. unfold dns_subdomain. rewrite andb_true_iff, bool_decide_eq_true, Z.leb_le. intuition lia. }
  rewrite Hdns.
  destruct Hc as [(e & -> & [= ->])|(bs & -> & Hb & [= ->])]; cbn [random]; (split; [|done]).
  - rewrite !str_len_app, Hl. change (str_len "-") with 1.
    rewrite scanned_suffix by done. split; [lia|]. by split; [done|lia].
  - assert (str_len (hex_encode bs) = 8) as Hu by (unfold str_len; by rewrite hex_encode_length, Hb).
    unfold name_stem. rewrite !str_len_app, Hl, Hu. change (str_len "-") with 1.
    destruct (Z.leb_spec (str_len (Name (Meta bundle))) 235) as [Hle|Hgt].
    + rewrite str_take_all by (unfold str_len in *; lia).
      rewrite scanned_suffix; [|by apply scanned_suffix|apply hex_encode_alnum|done].
      split; [lia|]. by split; [done|lia].
    + assert (str_len (str_take 235 (Name (Meta bundle))) = 235) as ->.
      { apply (str_take_len 235). lia. }
      split; lia.
Qed.

(** C40 Which jobs Kubernetes can take.  For a bundle whose name is a DNS
    subdomain, the names and labels of the job that Build returns have the
    documented form exactly if the tag is a label value - at most 63 bytes that
    start and end with a letter or digit - and the name of the bundle has at most
    45 bytes (54 if no random bytes could be read).  The cut to 253 bytes is no
    help: a name that needs it is refused. *)
Theorem Build_well_named b bundle tag t job :
  exec (Build b tag) t (Done (Ok job)) → Forall go_ok t → werf b = Some bundle →
  dns_subdomain (Name (Meta bundle)) = true →
  2 ^ 28 <= fnv32a tag ∧
  (well_named job ↔
   deployable tag = true ∧ str_len (Name (Meta bundle)) <= if random t then 45 else 54).
Proof.
  intros He Ht Eb Hd.
  destruct (wp_any _ _ _ _ (wp_Build b tag) He job eq_refl)
    as (bundle' & name & values & t1 & t2 & s & g & gs & qc & qm & Eb' & -> & Hn & _ & _ & _ & _ & _ & ->).
  rewrite Eb in Eb'. injection Eb' as <-. apply Forall_app in Ht as [Ht _].
  destruct (jobName_named _ _ _ _ Hn Ht Hd) as (Hh & Hname & Ht1). split; [done|].
  assert (random (t1 ++ t2) = random t1) as -> by (by destruct t1 as [|[[] a] t1]).
  unfold well_named, deployable. cbn [job_literal job_Meta job_Spec Name Labels Template_Labels].
  rewrite job_labels_named, andb_true_iff, Z.leb_le.
  pose proof (dns_label _ Hd) as Hlabel.
  assert (str_len (Name (Meta bundle)) <= (if random t1 then 45 else 54) →
    str_len (Name (Meta bundle)) <= 63) by (destruct (random t1); lia).
  naive_solver.
Qed.

End Admission.

(** ** Witness *)

#[local] Existing Instance sample_machinery.

(** v1.0.0 can be deployed; a tag that ends in a sign, and v2.2.0, whose hash is
    too short, can not. *)
Lemma Build_well_named_witness :
  well_named sample_job ∧ deployable "v1.0.0_" = false ∧ deployable "v2.2.0" = false.
Proof.
  split; [|by vm_compute].
  apply (Build_well_named sample_builder sample_bundle "v1.0.0" sample_build.1 sample_job).
  - exact sample_build_exec.
  - apply run_with_legal, sample_answers_go_ok.
  - reflexivity.
  - vm_compute. reflexivity.
  - split; vm_compute; [reflexivity|discriminate].
Defined.
