(* ===== verification/Logs.v ===== *)
(** * Capturing the logs of a job (internal/converge/logs.go)

    CaptureJobLogs and getPodLogs.  The three calls a stream takes (open, read
    to the end, close) are calls of the environment; the deferred Close is made
    whether the read succeeded or not. *)
From S2P Require Import Prelude GoErrors Prog Api Kube Samples.

Definition maxLogSize : Z := 1048576.

Definition truncation_notice : string :=
  "... (logs truncated - output exceeds 1MB) ..." +:+ String "010" EmptyString.

(** The separator between the logs of two pods. *)
Definition log_separator : string :=
  String "010" ("---" +:+ String "010" EmptyString).

Section Logs.
Context `{Machinery}.

Definition getPodLogs (pod : Pod) (container namespace : string) : prog (result string) :=
  let tailLines := 500 in
  let name := Name (pod_Meta pod) in
  stream ← perform (StreamLogs namespace name container tailLines);
  match stream with
  | Err err =>
      mret (Err (WrapError ("failed to get logs from pod " +:+ namespace +:+ "/" +:+ name) err))
  | Ok _ =>
      copied ← perform (ReadStream namespace name container);
      _ ← perform (CloseStream namespace name container);
      match copied with
      | Err err =>
          mret (Err (WrapError ("failed to read logs from pod " +:+ namespace +:+ "/" +:+ name) err))
      | Ok buf => mret (Ok buf)
      end
  end.

(** The loop over the pods; [allLogs] is the slice collected so far. *)
Fixpoint collect_logs (namespace : string) (allLogs : list string) (pods : list Pod)
    : prog (list string) :=
  match pods with
  | [] => mret allLogs
  | pod :: pods =>
      match pod_Containers pod with
      | [] => collect_logs namespace allLogs pods
      | c :: _ =>
          r ← getPodLogs pod (pc_Name c) namespace;
          match r with
          | Ok logs =>
              if decide (logs = EmptyString) then collect_logs namespace allLogs pods
              else collect_logs namespace (allLogs ++ [logs]) pods
          | Err _ => collect_logs namespace allLogs pods
          end
      end
  end.

(** [combined[len(combined)-maxLogSize:]] behind the notice, above the limit. *)
Definition truncate_logs (combined : string) : string :=
  if str_len combined >? maxLogSize
  then truncation_notice +:+ str_drop (Z.to_nat (str_len combined - maxLogSize)) combined
  else combined.

Definition CaptureJobLogs (jobName namespace : string) : prog (result string) :=
  pods ← perform (ListPods namespace {[ "batch.kubernetes.io/job-name" := jobName ]});
  match pods with
  | Err err => mret (Err (WrapError "failed to list pods for job" err))
  | Ok [] => mret (Err (ErrorString ("no pods found for job " +:+ jobName)))
  | Ok pods =>
      allLogs ← collect_logs namespace [] pods;
      match allLogs with
      | [] => mret (Err (ErrorString ("no logs found for job " +:+ jobName)))
      | _ => mret (Ok (truncate_logs (join log_separator allLogs)))
      end
  end.

(** ** What a trace of calls says about streams *)

(** The non-empty logs that were read, in order. *)
Definition read_log (e : event) : option string :=
  match e with
  | Ev (ReadStream _ _ _) (Ok s) => if decide (s = EmptyString) then None else Some s
  | _ => None
  end.

(** The streams a trace opened, and the ones it closed. *)
Definition opened (e : event) : option (string * string * string) :=
  match e with Ev (StreamLogs n p c _) (Ok _) => Some (n, p, c) | _ => None end.
Definition closed (e : event) : option (string * string * string) :=
  match e with Ev (CloseStream n p c) _ => Some (n, p, c) | _ => None end.

(** The only calls log capture makes. *)
Definition log_call (e : event) : Prop :=
  match e with
  | Ev (ListPods _ _) _ | Ev (StreamLogs _ _ _ _) _ | Ev (ReadStream _ _ _) _
  | Ev (CloseStream _ _ _) _ => True
  | _ => False
  end.

(** What the log capture of one pod, or of many, leaves behind. *)
Definition tidy (t : list event) : Prop :=
  Forall log_call t ∧ omap opened t = omap closed t.

(** ** Lemmas *)

Lemma tidy_nil : tidy [].
Proof. by split. Qed.

Lemma tidy_app t1 t2 : tidy t1 → tidy t2 → tidy (t1 ++ t2).
Proof.
  intros [H1 E1] [H2 E2]. split; [by apply Forall_app|]. by rewrite !omap_app, E1, E2.
Qed.

Lemma wp_getPodLogs pod container namespace :
  wp any (getPodLogs pod container namespace) (λ t o,
    tidy t ∧
    ((∃ e, o = Done (Err e) ∧ omap read_log t = []) ∨
     (∃ s, o = Done (Ok s) ∧ omap read_log t = if decide (s = EmptyString) then [] else [s]))).
Proof.
  unfold getPodLogs. prog_simpl. intros [u|e] _.
  - prog_simpl. intros copied _ cl _. destruct copied as [s|e]; prog_simpl.
    + split; [split; [by repeat constructor|done]|]. right. exists s. split; [done|].
      cbn. by case_decide.
    + split; [split; [by repeat constructor|done]|]. left. by exists (WrapError
        ("failed to read logs from pod " +:+ namespace +:+ "/" +:+ Name (pod_Meta pod)) e).
  - prog_simpl. split; [split; [by repeat constructor|done]|]. left. by eexists.
Qed.

Lemma wp_collect_logs namespace pods allLogs :
  wp any (collect_logs namespace allLogs pods) (λ t o,
    tidy t ∧ o = Done (allLogs ++ omap read_log t)).
Proof.
  revert allLogs. induction pods as [|pod pods IH]; intros allLogs; cbn [collect_logs].
  { prog_simpl. split; [apply tidy_nil|]. cbn. by rewrite app_nil_r. }
  destruct (pod_Containers pod) as [|c cs]; [apply IH|].
  eapply wp_call; [apply wp_getPodLogs|].
  intros t o [Ht [(e & -> & Er)|(s & -> & Er)]]; cbn [after].
  - eapply wp_mono; [apply IH|]. intros t' o' [Ht' ->]. split; [by apply tidy_app|].
    by rewrite omap_app, Er.
  - case_decide.
    + eapply wp_mono; [apply IH|]. intros t' o' [Ht' ->]. split; [by apply tidy_app|].
      by rewrite omap_app, Er.
    + eapply wp_mono; [apply IH|]. intros t' o' [Ht' ->]. split; [by apply tidy_app|].
      by rewrite omap_app, Er, <- app_assoc.
Qed.

Lemma no_panic_CaptureJobLogs jobName namespace : no_panic (CaptureJobLogs jobName namespace).
Proof.
  unfold CaptureJobLogs. apply no_panic_perform. intros [[|p pods]|e]; try apply no_panic_ret.
  eapply wp_call; [apply wp_collect_logs|]. intros t o [_ ->]. cbn [after].
  by case_match; eexists.
Qed.

(** The length of the truncated text. *)
Lemma truncate_logs_len s :
  str_len (truncate_logs s) <= maxLogSize + str_len truncation_notice ∧
  (maxLogSize < str_len s → str_len (truncate_logs s) = maxLogSize + str_len truncation_notice).
Proof.
  assert (0 <= str_len truncation_notice) by apply str_len_nonneg.
  unfold truncate_logs. rewrite Z.gtb_ltb.
  destruct (Z.ltb_spec maxLogSize (str_len s)) as [Hs|Hs]; [|lia].
  assert (str_len (str_drop (Z.to_nat (str_len s - maxLogSize)) s) = maxLogSize) as E.
  { unfold str_len in *. rewrite str_drop_length. unfold maxLogSize in *. lia. }
  rewrite str_len_app, E. lia.
Qed.

(** ** Properties *)

(** C39 What CaptureJobLogs returns is a function of what it read: an error if
    the pods cannot be listed, if there are none, or if no stream gave any text
    (an unreadable pod is skipped); otherwise the non-empty texts of the pods, in
    order, joined by the separator and truncated.  It never panics, calls nothing
    but the pod list and the log streams, and closes every stream it opened. *)
Theorem CaptureJobLogs_spec jobName namespace t o :
  exec (CaptureJobLogs jobName namespace) t o →
  ∃ pods t',
    t = Ev (ListPods namespace {[ "batch.kubernetes.io/job-name" := jobName ]}) pods :: t' ∧
    Forall log_call t' ∧ omap opened t' = omap closed t' ∧
    match pods with
    | Err e => t' = [] ∧ o = Done (Err (WrapError "failed to list pods for job" e))
    | Ok [] => t' = [] ∧ o = Done (Err (ErrorString ("no pods found for job " +:+ jobName)))
    | Ok _ =>
        o = Done match omap read_log t' with
                 | [] => Err (ErrorString ("no logs found for job " +:+ jobName))
                 | texts => Ok (truncate_logs (join log_separator texts))
                 end
    end.
Proof.
  intros He. by_wp He. unfold CaptureJobLogs. prog_simpl. intros [[|p pods]|e] _; prog_simpl.
  1, 3: by eexists _, [].
  eapply wp_call; [apply wp_collect_logs|]. intros t' o' [[Hc Ho] ->]. cbn [after].
  rewrite app_nil_l. destruct (omap read_log t') as [|s l] eqn:E; prog_simpl.
  - exists (Ok (p :: pods)), t'. rewrite app_nil_r, E. done.
  - exists (Ok (p :: pods)), t'. rewrite app_nil_r, E. done.
Qed.

(** The size of captured logs: a text that fits 1 MiB is returned whole;
    a longer one is cut to exactly its last 1 MiB and the notice is put in front,
    so that the result is longer than 1 MiB by the length of the notice. *)
Theorem truncate_logs_correct s :
  (str_len s <= maxLogSize → truncate_logs s = s) ∧
  (maxLogSize < str_len s →
   ∃ dropped kept, s = dropped +:+ kept ∧ str_len kept = maxLogSize ∧
     truncate_logs s = truncation_notice +:+ kept ∧
     str_len (truncate_logs s) = maxLogSize + 46).
Proof.
  split; intros Hs.
  - unfold truncate_logs. rewrite Z.gtb_ltb. by destruct (Z.ltb_spec maxLogSize (str_len s)); [lia|].
  - set (n := Z.to_nat (str_len s - maxLogSize)).
    exists (str_take n s), (str_drop n s). split; [by rewrite str_take_drop|].
    split; [|split].
    + subst n. unfold str_len in *. rewrite str_drop_length. unfold maxLogSize in *. lia.
    + unfold truncate_logs. rewrite Z.gtb_ltb.
      by destruct (Z.ltb_spec maxLogSize (str_len s)); [|lia].
    + by rewrite (proj2 (truncate_logs_len s)).
Qed.

End Logs.

(** ** Witnesses *)

#[local] Existing Instance sample_machinery.

Definition sample_pod (name : string) : Pod :=
  {| pod_Meta := {| Name := name; Namespace := "default"; UID := EmptyString; ResourceVersion := EmptyString; Labels := ∅;
                    Finalizers := []; DeletionTimestamp := None; OwnerReferences := [] |};
     pod_Containers := [{| pc_Name := "werf" |}] |}.

(** Two pods; the logs of the second cannot be read. *)
Definition pod_answers (c : kcall) : kans c :=
  match c with
  | ListPods _ _ => Ok [sample_pod "a"; sample_pod "b"; sample_pod "c"]
  | ReadStream _ "b" _ => Err server_error
  | ReadStream _ p _ => Ok ("log of " +:+ p)
  | c => sample_answers c
  end.

Lemma CaptureJobLogs_spec_witness :
  (run_with pod_answers (CaptureJobLogs "job" "default")).2
  = Done (Ok ("log of a" +:+ log_separator +:+ "log of c")).
Proof.
  destruct (CaptureJobLogs_spec "job" "default" _ _ (run_with_exec pod_answers _))
    as (pods & t' & Et & _ & _ & Eo).
  assert (pods = Ok [sample_pod "a"; sample_pod "b"; sample_pod "c"]) as ->.
  { symmetry. exact (f_equal (λ t, match t with Ev (ListPods _ _) r :: _ => r | _ => Ok [] end) Et). }
  assert (t' = tail (run_with pod_answers (CaptureJobLogs "job" "default")).1) as ->
    by (symmetry; exact (f_equal tail Et)).
  exact Eo.
Defined.

Lemma truncate_logs_correct_witness : truncate_logs "short" = "short".
Proof. apply (truncate_logs_correct "short"). vm_compute. discriminate. Defined.
