(* ===== verification/Rbac.v ===== *)
(** * Pre-flight validation (internal/rbac/validator.go) *)
From S2P Require Import Prelude GoErrors Prog Api Kube Samples.

Section Rbac.
Context `{Machinery}.

Definition ValidateServiceAccountExists (name namespace : string) : prog (option error) :=
  let saKey := {| key_Name := name; key_Namespace := namespace |} in
  r ← perform (GetServiceAccount saKey);
  match r with
  | Err err =>
      if IsNotFound err then
        mret (Some (ErrorString ("ServiceAccount '" +:+ name +:+ "' not found in namespace '"
                                   +:+ namespace +:+ "'")))
      else
        mret (Some (WrapError ("failed to get ServiceAccount '" +:+ name +:+ "' in namespace '"
                                 +:+ namespace +:+ "'") err))
  | Ok _ => mret None
  end.

(** The error for a failed lookup. *)
Definition account_error (name namespace : string) (err : error) : error :=
  if IsNotFound err then
    ErrorString ("ServiceAccount '" +:+ name +:+ "' not found in namespace '" +:+ namespace +:+ "'")
  else
    WrapError ("failed to get ServiceAccount '" +:+ name +:+ "' in namespace '"
                 +:+ namespace +:+ "'") err.

(** Every execution: one lookup, and no error exactly when it found the account. *)
Lemma wp_ValidateServiceAccountExists name namespace :
  wp any (ValidateServiceAccountExists name namespace) (λ t o,
    ∃ r : result unit,
      t = [Ev (GetServiceAccount {| key_Name := name; key_Namespace := namespace |}) r]
      ∧ o = Done match r with
                 | Ok _ => None
                 | Err err => Some (account_error name namespace err)
                 end).
Proof.
  unfold ValidateServiceAccountExists, account_error. prog_simpl.
  intros [u|e] _; [|destruct (IsNotFound e) eqn:E].
  - prog_simpl. by exists (Ok u).
  - prog_simpl. exists (Err e). by rewrite E.
  - prog_simpl. exists (Err e). by rewrite E.
Qed.

End Rbac.
