(* ===== verification/Registry.v ===== *)
(** * The registry client (internal/registry/client.go, etag_transport.go)

    The ETag transport, the OCI client over it, and the interface [RegistryClient]
    (the Go interface registry.Client) with the contract the controller relies
    on.

    go-containerregistry is code outside the repository: [name.NewRepository] and
    [remote.List] are fields of the class [RegistryLib].  remote.List reaches the
    network only through the transport it is given: it is a program whose only
    calls are requests to a transport, and [interp] runs it over one. *)
From S2P Require Import Prelude GoErrors Prog Api Kube Samples.

(** ** HTTP headers (net/http, net/textproto) *)

Abbreviation Header := (gmap string (list string)).

Definition upper (c : ascii) : ascii :=
  let n := N_of_ascii c in
  if (97 <=? n)%N && (n <=? 122)%N then ascii_of_N (n - 32) else c.
Definition lower (c : ascii) : ascii :=
  let n := N_of_ascii c in
  if (65 <=? n)%N && (n <=? 90)%N then ascii_of_N (n + 32) else c.

Fixpoint canonical (first : bool) (s : string) : string :=
  match s with
  | EmptyString => EmptyString
  | String c s =>
      String (if first then upper c else lower c) (canonical (bool_decide (c = "-"%char)) s)
  end.

(** textproto.CanonicalMIMEHeaderKey, on a key made of letters and hyphens. *)
Definition CanonicalHeaderKey (key : string) : string := canonical true key.

Definition Header_Set (key value : string) (h : Header) : Header :=
  <[CanonicalHeaderKey key := [value]]> h.

Definition Header_Get (key : string) (h : Header) : string :=
  match h !! CanonicalHeaderKey key with
  | Some (v :: _) => v
  | _ => EmptyString
  end.

(** http.StatusText, on the codes the transport reports. *)
Definition StatusText (code : Z) : string :=
  if code =? 401 then "Unauthorized"
  else if code =? 403 then "Forbidden"
  else if code =? 404 then "Not Found"
  else if code =? 500 then "Internal Server Error"
  else if code =? 502 then "Bad Gateway"
  else if code =? 503 then "Service Unavailable"
  else if code =? 504 then "Gateway Timeout"
  else EmptyString.

(** ** The ETag transport *)

Record etagRoundTripper := { lastETag : string; capturedETag : string }.

Definition newETagRoundTripper (last : string) : etagRoundTripper :=
  {| lastETag := last; capturedETag := EmptyString |}.

Definition CapturedETag (t : etagRoundTripper) : string := capturedETag t.

Definition set_capturedETag (etag : string) (t : etagRoundTripper) : etagRoundTripper :=
  {| lastETag := lastETag t; capturedETag := etag |}.

(** The error RoundTrip gives for a status code. *)
Definition http_error (code : Z) : error :=
  ErrorString ("HTTP " +:+ itoa code +:+ ": " +:+ StatusText code).

Definition status_error (code : Z) : option error :=
  if code =? 304 then Some NotModifiedError
  else if code =? 404 then Some (NotFoundError (http_error code))
  else if (code =? 401) || (code =? 403) then Some (AuthError (http_error code))
  else if (code =? 502) || (code =? 503) || (code =? 504) then Some (NetworkError (http_error code))
  else if code =? 500 then Some (NetworkError (http_error code))
  else None.

(** The validator header, set on the caller's request. *)
Definition with_validator (t : etagRoundTripper) (req : Request) : Request :=
  if decide (lastETag t = EmptyString) then req
  else {| req_URL := req_URL req;
          req_Header := Header_Set "If-None-Match" (lastETag t) (req_Header req) |}.

(** The ETag of a response replaces the captured one, unless it has none. *)
Definition capture (resp : Response) (t : etagRoundTripper) : etagRoundTripper :=
  let etag := Header_Get "ETag" (resp_Header resp) in
  if decide (etag = EmptyString) then t else set_capturedETag etag t.

(** What a RoundTrip returns: the response or error, the caller's request (whose
    headers it may have changed) and the transport. *)
Definition transport (S : Type) `{Machinery} : Type :=
  S → Request → prog (result Response * Request * S).

Section Transports.
Context `{Machinery}.

Definition RoundTrip : transport etagRoundTripper := λ t req,
  let req := with_validator t req in
  r ← perform (HttpRoundTrip req);
  match r with
  | Err err => mret (Err err, req, t)
  | Ok resp =>
      let t := capture resp t in
      match status_error (StatusCode resp) with
      | Some err => mret (Err err, req, t)
      | None => mret (Ok resp, req, t)
      end
  end.

(** http.DefaultTransport. *)
Definition DefaultTransport : transport unit := λ u req,
  r ← perform (HttpRoundTrip req);
  mret (r, req, u).

End Transports.

(** ** go-containerregistry *)

(** The calls of a program that talks to a transport; it sees its request again. *)
Definition http_sig : Sig :=
  {| call := Request; ans := λ _, (result Response * Request)%type |}.

Class RegistryLib := {
  Authenticator : Type;
  Repository : Type;
  NewRepository : string → result Repository;
  List : Repository → option Authenticator → @prog http_sig (result (list string));
}.

Section Client.
Context `{Machinery}.

(** A program over a transport, its requests answered by it in turn. *)
Fixpoint interp {S A} (rt : transport S) (p : @prog http_sig A) (s : S) : prog (A * S) :=
  match p with
  | Ret a => mret (a, s)
  | Panic msg => Panic msg
  | Do req k =>
      r ← rt s req;
      let '(res, req, s) := r in
      interp rt (k (res, req)) s
  end.

Context `{RegistryLib}.

(** registry.Client *)
Class RegistryClient := {
  ListTags : string → option Authenticator → prog (result (list string));
  GetLatestTag : string → option Authenticator → prog (result string);
  ListTagsWithETag : string → option Authenticator → string
                     → prog (list string * string * option error);
}.

(** ** OCIClient *)

Definition OCI_ListTags (repoURL : string) (auth : option Authenticator)
    : prog (result (list string)) :=
  match NewRepository repoURL with
  | Err err => mret (Err (WrapError "invalid repository URL" err))
  | Ok ref =>
      r ← interp DefaultTransport (List ref auth) tt;
      match r.1 with
      | Err err => mret (Err (WrapError "failed to list tags" err))
      | Ok tags => mret (Ok (sort_strings tags))
      end
  end.

Definition OCI_GetLatestTag (repoURL : string) (auth : option Authenticator)
    : prog (result string) :=
  r ← OCI_ListTags repoURL auth;
  match r with
  | Err err => mret (Err err)
  | Ok tags => mret (Ok (default EmptyString (last tags)))
  end.

(** The type assertion err.( *NotModifiedError) looks at the error itself only. *)
Definition OCI_ListTagsWithETag (repoURL : string) (auth : option Authenticator)
    (lastETag : string) : prog (list string * string * option error) :=
  match NewRepository repoURL with
  | Err err => mret ([], EmptyString, Some (WrapError "invalid repository URL" err))
  | Ok ref =>
      r ← interp RoundTrip (List ref auth) (newETagRoundTripper lastETag);
      let '(r, etagTransport) := r in
      match r with
      | Err err =>
          if is_not_modified err then mret ([], CapturedETag etagTransport, Some err)
          else mret ([], EmptyString, Some (WrapError "failed to list tags" err))
      | Ok tags => mret (sort_strings tags, CapturedETag etagTransport, None)
      end
  end.

Definition NewOCIClient : RegistryClient := {|
  ListTags := OCI_ListTags;
  GetLatestTag := OCI_GetLatestTag;
  ListTagsWithETag := OCI_ListTagsWithETag;
|}.

End Client.

(** GenerateFakeETag, the ETag of a simulated registry. *)
Definition GenerateFakeETag (tags : list string) : string :=
  match tags with
  | [] => dquote +:+ "empty" +:+ dquote
  | first :: _ =>
      dquote +:+ "tags-" +:+ itoa (Z.of_nat (length tags)) +:+ "-" +:+ first +:+ "-"
        +:+ default EmptyString (last tags) +:+ dquote
  end.

(** ** Specifications *)

(** The codes RoundTrip turns into errors. *)
Definition refused_codes : list Z := [304; 401; 403; 404; 500; 502; 503; 504].

Section Specs.
Context `{Machinery}.

(** What RoundTrip makes of the answer of the base transport. *)
Definition classify (r : result Response) : result Response :=
  match r with
  | Err e => Err e
  | Ok resp => match status_error (StatusCode resp) with
               | Some e => Err e
               | None => Ok resp
               end
  end.

(** The non-empty ETags a trace received, and the last of them. *)
Definition etag_of (e : event) : option string :=
  match e with
  | Ev (HttpRoundTrip _) (Ok resp) =>
      let etag := Header_Get "ETag" (resp_Header resp) in
      if decide (etag = EmptyString) then None else Some etag
  | _ => None
  end.

Definition last_etag (t : list event) : string := default EmptyString (last (omap etag_of t)).

(** The only calls the registry client makes. *)
Definition http_call (e : event) : Prop :=
  match e with Ev (HttpRoundTrip _) _ => True | _ => False end.

(** The call the ETag transport makes for a call of the library, and the answer
    the library sees for the one the network gave. *)
Definition served (last : string) (eh : @event http_sig) (e : event) : Prop :=
  ∃ req r, let req' := with_validator (newETagRoundTripper last) req in
    eh = @Ev http_sig req (classify r, req') ∧ e = Ev (HttpRoundTrip req') r.

(** What the operator relies on of a registry client: it only talks HTTP,
    returns, and a successful listing is sorted. *)
Class RegistryContract `{RegistryLib} (c : RegistryClient) := {
  ListTagsWithETag_contract : ∀ url auth etag,
    wp any (ListTagsWithETag (RegistryClient := c) url auth etag) (λ t o,
      Forall http_call t ∧
      ∃ tags newETag err, o = Done (tags, newETag, err) ∧ (err = None → Sorted str_le tags));
}.

(** go-containerregistry's List does not panic. *)
Class RegistryLibOk `{RegistryLib} := {
  List_no_panic : ∀ ref auth, no_panic (List ref auth);
}.

End Specs.

(** ** Lemmas *)

Lemma status_error_spec code :
  match status_error code with
  | None => code ∉ refused_codes
  | Some e => code ∈ refused_codes ∧
      ((code = 304 ∧ e = NotModifiedError) ∨
       (code = 404 ∧ e = NotFoundError (http_error code)) ∨
       (code ∈ [401; 403] ∧ e = AuthError (http_error code)) ∨
       (code ∈ [500; 502; 503; 504] ∧ e = NetworkError (http_error code)))
  end.
Proof.
  unfold refused_codes. destruct (decide (code ∈ refused_codes)) as [Hin|Hout].
  - unfold refused_codes in Hin.
    repeat (apply elem_of_cons in Hin as [->|Hin];
      [cbn; split; [set_solver|]; first [by left | right; first [by left | right; first [by left; set_solver | by right; set_solver]]]|]).
    by apply not_elem_of_nil in Hin.
  - unfold refused_codes in *. repeat (apply not_elem_of_cons in Hout as [? Hout]).
    unfold status_error.
    repeat match goal with |- context [code =? ?n] => destruct (Z.eqb_spec code n); [done|] end.
    cbn. set_solver.
Qed.

Section Lemmas.
Context `{Machinery}.

Lemma classify_error r e :
  classify r = Err e → r = Err e ∨ ∃ resp, r = Ok resp ∧ StatusCode resp ∈ refused_codes.
Proof.
  destruct r as [resp|e']; cbn; [|naive_solver].
  pose proof (status_error_spec (StatusCode resp)) as Hs.
  destruct (status_error (StatusCode resp)); [|done]. intros _. right. naive_solver.
Qed.

Lemma wp_RoundTrip t req :
  wp any (RoundTrip t req) (λ tr o, ∃ r,
    let req' := with_validator t req in
    tr = [Ev (HttpRoundTrip req') r] ∧
    o = Done (classify r, req',
              match r with Ok resp => capture resp t | Err _ => t end)).
Proof.
  unfold RoundTrip. prog_simpl. intros [resp|e] _; cbn [kans].
  - cbn [classify]. destruct (status_error (StatusCode resp)) as [e|] eqn:E; prog_simpl;
      exists (Ok resp); (split; [done|]); cbn; by rewrite E.
  - prog_simpl. by exists (Err e).
Qed.

(** A program run over a transport is an execution of the program, and an
    invariant that each round trip keeps is kept throughout. *)
Lemma wp_interp {S A} (rt : transport S) (I : list (@event http_sig) → list event → S → Prop) :
  (∀ th tr s req, I th tr s →
     wp any (rt s req) (λ t o, ∃ r q s', o = Done (r, q, s') ∧
       I (th ++ [@Ev http_sig req (r, q)]) (tr ++ t) s')) →
  ∀ (p : @prog http_sig A) s th tr, I th tr s →
    wp any (interp rt p s) (λ t o, ∃ th',
      match o with
      | Done (a, s') => exec p th' (Done a) ∧ I (th ++ th') (tr ++ t) s'
      | Panicked m => exec p th' (Panicked m) ∧ ∃ s', I (th ++ th') (tr ++ t) s'
      end).
Proof.
  intros Hrt p. induction p as [a|msg|req k IH]; intros s th tr Hi; cbn [interp].
  - exists []. rewrite !app_nil_r. split; [constructor | done].
  - exists []. rewrite !app_nil_r. split; [constructor | by eexists].
  - eapply wp_call; [by apply Hrt|]. intros t o (r & q & s' & -> & Hi'). cbn [after].
    eapply wp_mono; [by apply IH|]. intros t' o' (th' & Ho).
    exists (@Ev http_sig req (r, q) :: th'). destruct o' as [[a s'']|m].
    + destruct Ho as [He Hi'']. split; [by constructor|]. by rewrite <- !app_assoc in Hi''.
    + destruct Ho as (He & s'' & Hi''). rewrite <- !app_assoc in Hi''.
      split; [by constructor | by exists s''].
Qed.

(** The ETag transport over a whole listing. *)
Definition etag_inv (last : string) (th : list (@event http_sig)) (t : list event)
    (s : etagRoundTripper) : Prop :=
  lastETag s = last ∧ capturedETag s = last_etag t ∧ Forall2 (served last) th t.

Lemma capture_last_etag tr req resp s :
  capturedETag s = last_etag tr →
  capturedETag (capture resp s) = last_etag (tr ++ [Ev (HttpRoundTrip req) (Ok resp)]) ∧
  lastETag (capture resp s) = lastETag s.
Proof.
  intros E. unfold capture, last_etag. rewrite omap_app. cbn.
  case_decide; cbn; [by rewrite app_nil_r | by rewrite last_snoc].
Qed.

Lemma etag_inv_step last th tr s req :
  etag_inv last th tr s →
  wp any (RoundTrip s req) (λ t o, ∃ r q s', o = Done (r, q, s') ∧
    etag_inv last (th ++ [@Ev http_sig req (r, q)]) (tr ++ t) s').
Proof.
  intros (El & Ec & Hs). eapply wp_mono; [apply wp_RoundTrip|].
  intros t o (r & -> & ->). eexists _, _, _. split; [done|].
  assert (served last (@Ev http_sig req (classify r, with_validator s req))
            (Ev (HttpRoundTrip (with_validator s req)) r)) as Hv.
  { exists req, r. unfold with_validator. cbn. rewrite El. done. }
  destruct r as [resp|e].
  - destruct (capture_last_etag tr (with_validator s req) resp s Ec) as [E1 E2].
    split; [by rewrite E2|]. split; [done|]. apply Forall2_app; [done|]. by constructor.
  - split; [done|]. split.
    + rewrite Ec. unfold last_etag. rewrite omap_app. cbn. by rewrite app_nil_r.
    + apply Forall2_app; [done|]. by constructor.
Qed.

Lemma served_http last th t : Forall2 (served last) th t → Forall http_call t.
Proof. induction 1 as [|eh e th t (req & r & _ & ->)]; by constructor. Qed.

Context `{RegistryLib}.

(** Every execution of ListTagsWithETag, in terms of the library's. *)
Lemma wp_OCI_ListTagsWithETag url auth etag :
  wp any (OCI_ListTagsWithETag url auth etag) (λ t o,
    match NewRepository url with
    | Err err => t = [] ∧ o = Done ([], EmptyString, Some (WrapError "invalid repository URL" err))
    | Ok ref => ∃ th, Forall2 (served etag) th t ∧
        ((∃ m, o = Panicked m ∧ exec (List ref auth) th (Panicked m)) ∨
         ∃ r, exec (List ref auth) th (Done r) ∧
           o = Done match r with
                    | Ok tags => (sort_strings tags, last_etag t, None)
                    | Err NotModifiedError => ([], last_etag t, Some NotModifiedError)
                    | Err err => ([], EmptyString, Some (WrapError "failed to list tags" err))
                    end)
    end).
Proof.
  unfold OCI_ListTagsWithETag. destruct (NewRepository url) as [ref|err]; [|done].
  eapply wp_call.
  { eapply (wp_interp RoundTrip (etag_inv etag) _ (List ref auth) _ [] []).
    split; [done|]. split; [done|]. constructor. Unshelve. intros. by apply etag_inv_step. }
  intros t o (th & Ho). destruct o as [[r s]|m]; cbn [after].
  - destruct Ho as (He & _ & Ec & Hs).
    destruct r as [tags|err]; [|destruct err]; cbn; rewrite app_nil_r; exists th;
      (split; [exact Hs|]); right; unfold CapturedETag; rewrite ?Ec; by eexists.
  - destruct Ho as (He & s & _ & _ & Hs). exists th. split; [exact Hs|]. left. by exists m.
Qed.

(** The OCI client keeps the contract. *)
#[export] Instance OCI_contract `{!RegistryLibOk} : RegistryContract NewOCIClient.
Proof.
  split. intros url auth etag. eapply wp_mono; [apply wp_OCI_ListTagsWithETag|].
  intros t o Ho. destruct (NewRepository url) as [ref|err].
  - destruct Ho as (th & Hs & [(m & _ & He)|(r & _ & ->)]).
    + destruct (wp_any _ _ _ _ (List_no_panic ref auth) He) as [a Ha]. done.
    + split; [by eapply served_http|].
      destruct r as [tags|[]]; eexists _, _, _; (split; [done|]); try done.
      intros _. apply sort_strings_sorted.
  - destruct Ho as [-> ->]. split; [constructor|]. by eexists _, _, _.
Qed.

(** Every execution of ListTags that returns tags. *)
Lemma wp_OCI_ListTags url auth :
  wp any (OCI_ListTags url auth) (λ t o, ∀ tags, o = Done (Ok tags) →
    ∃ ref th libtags, NewRepository url = Ok ref ∧ exec (List ref auth) th (Done (Ok libtags)) ∧
      tags = sort_strings libtags).
Proof.
  unfold OCI_ListTags. destruct (NewRepository url) as [ref|err]; [|done].
  eapply wp_call.
  { apply (wp_interp DefaultTransport (λ _ _ _, True)) with (th := []) (tr := []); [|done].
    intros th tr [] req _. unfold DefaultTransport. prog_simpl. intros r _.
    by exists r, req, tt. }
  intros t o (th & Ho). destruct o as [[[libtags|e] []]|m]; cbn [after]; [|done..].
  destruct Ho as [He _]. prog_simpl. intros tags [= <-]. by exists ref, th, libtags.
Qed.

(** ** Properties *)


(** A successful ListTagsWithETag returns a sorted permutation of the tags
    the library listed over the ETag transport, so that the last tag is the
    greatest in byte order; every request of the listing went out with the
    validator; and the ETag returned is the last non-empty one received. *)
Theorem ListTagsWithETag_success url auth lastETag t tags etag :
  exec (ListTagsWithETag (RegistryClient := NewOCIClient) url auth lastETag) t
    (Done (tags, etag, None)) →
  Sorted str_le tags ∧ (∀ x, last tags = Some x → Forall (λ y, str_le y x) tags) ∧
  etag = last_etag t ∧
  ∃ ref th libtags, NewRepository url = Ok ref ∧ Forall2 (served lastETag) th t ∧
    exec (List ref auth) th (Done (Ok libtags)) ∧ tags ≡ₚ libtags.
Proof.
  intros He. pose proof (wp_any _ _ _ _ (wp_OCI_ListTagsWithETag url auth lastETag) He) as Hp.
  destruct (NewRepository url) as [ref|err]; [|by destruct Hp].
  destruct Hp as (th & Hs & [(m & ? & _)|(r & Hr & Eo)]); [done|].
  destruct r as [libtags|[]]; try discriminate Eo. injection Eo as -> ->.
  split; [apply sort_strings_sorted|].
  split; [intros x Hx; apply sorted_last_max; [apply sort_strings_sorted | done]|].
  split; [done|]. exists ref, th, libtags. by rewrite sort_strings_perm.
Qed.

(** C27 The errors of ListTagsWithETag.  It returns no tags with an error; the
    error is recognised by the controller's errors.As as "not modified" exactly
    when the library's error is, wrapped or not; but the type assertion sees the
    bare error only, so a wrapped 304 loses the captured ETag. *)
Theorem ListTagsWithETag_error url auth lastETag t tags etag e :
  exec (ListTagsWithETag (RegistryClient := NewOCIClient) url auth lastETag) t
    (Done (tags, etag, Some e)) →
  tags = [] ∧
  ((t = [] ∧ etag = EmptyString ∧ ∃ err, NewRepository url = Err err ∧
      e = WrapError "invalid repository URL" err) ∨
   ∃ ref th err, NewRepository url = Ok ref ∧ Forall2 (served lastETag) th t ∧
     exec (List ref auth) th (Done (Err err)) ∧
     As_NotModified e = As_NotModified err ∧
     etag = if is_not_modified err then last_etag t else EmptyString).
Proof.
  intros He. pose proof (wp_any _ _ _ _ (wp_OCI_ListTagsWithETag url auth lastETag) He) as Hp.
  destruct (NewRepository url) as [ref|err].
  - destruct Hp as (th & Hs & [(m & ? & _)|(r & Hr & Eo)]); [done|].
    destruct r as [libtags|err]; [done|].
    assert (tags = [] ∧ As_NotModified e = As_NotModified err ∧
            etag = if is_not_modified err then last_etag t else EmptyString) as (-> & E1 & E2).
    { destruct err; injection Eo as -> -> ->; done. }
    split; [done|]. right. by exists ref, th, err.
  - destruct Hp as [-> [= -> -> ->]]. split; [done|]. left.
    split; [done|]. split; [done|]. by exists err.
Qed.

(** GetLatestTag returns one of the listed tags, the greatest in byte order
    (not in version order), or the empty string when there is none. *)
Theorem GetLatestTag_maximum url auth t tag :
  exec (GetLatestTag (RegistryClient := NewOCIClient) url auth) t (Done (Ok tag)) →
  ∃ ref th libtags, NewRepository url = Ok ref ∧
    exec (List ref auth) th (Done (Ok libtags)) ∧
    ((libtags = [] ∧ tag = EmptyString) ∨
     (tag ∈ libtags ∧ Forall (λ y, str_le y tag) libtags)).
Proof.
  intros He. remember (Done (Ok tag)) as o eqn:Eo. revert Eo. by_wp He.
  cbn [GetLatestTag NewOCIClient]. unfold OCI_GetLatestTag.
  eapply wp_call; [apply wp_OCI_ListTags|]. intros t' [[tags|e]|m] Hp; prog_simpl; [|done..].
  intros [= <-]. destruct (Hp tags eq_refl) as (ref & th & libtags & Er & Hl & ->).
  exists ref, th, libtags. split; [done|]. split; [done|].
  pose proof (sort_strings_perm libtags) as Hperm.
  destruct (last (sort_strings libtags)) as [x|] eqn:El; cbn.
  - right. split.
    + rewrite <- Hperm. by apply last_Some_elem_of.
    + rewrite <- Hperm. apply sorted_last_max; [apply sort_strings_sorted | done].
  - left. split; [|done]. apply last_None in El. rewrite El in Hperm.
    by apply Permutation_nil in Hperm.
Qed.

End Lemmas.

(** Byte order is not version order; the examples of the comment on GetLatestTag
    are not ordered the way it says. *)
Example byte_order_of_versions :
  sort_strings ["v1.2.0"; "v1.10.0"; "v2.0.0"; "v1.99.0"] = ["v1.10.0"; "v1.2.0"; "v1.99.0"; "v2.0.0"].
Proof. reflexivity. Qed.

(** ** Witnesses *)

#[local] Existing Instance sample_machinery.

Fixpoint split_spaces (cur s : string) : list string :=
  match s with
  | EmptyString => if decide (cur = EmptyString) then [] else [cur]
  | String c s => if decide (c = " "%char) then cur :: split_spaces EmptyString s
                  else split_spaces (cur +:+ String c EmptyString) s
  end.

(** A listing in one request; the body holds the tags, an error of the transport
    is wrapped as net/http's Client does. *)
#[local] Instance sample_lib : RegistryLib := {|
  Authenticator := unit;
  Repository := string;
  NewRepository := λ s, if decide (s = EmptyString) then Err (Foreign 20 "a repository name must be specified")
                        else Ok s;
  List := λ ref _, @Do http_sig _ {| req_URL := ref +:+ "/tags/list"; req_Header := ∅ |}
            (λ a, match a.1 with
                  | Ok resp => Ret (Ok (split_spaces EmptyString (Body resp)))
                  | Err e => Ret (Err (ForeignWrap 21 ("Get: " +:+ Error e) e))
                  end);
|}.

#[local] Instance sample_lib_ok : RegistryLibOk.
Proof. split. intros ref auth [[resp|e] q] _; cbn; by eexists. Qed.

(** A server that answers with a code, an ETag and a body. *)
Definition http_answers (code : Z) (etag body : string) (c : kcall) : kans c :=
  match c with
  | HttpRoundTrip _ => Ok {| StatusCode := code; resp_Header := {[ "Etag" := [etag] ]}; Body := body |}
  | c => sample_answers c
  end.

Definition sample_transport : etagRoundTripper := newETagRoundTripper "old".


Lemma ListTagsWithETag_success_witness :
  let r := run_with (http_answers 200 "new" "v1.2.0 v1.10.0")
             (ListTagsWithETag (RegistryClient := NewOCIClient) "ghcr.io/org/bundle" None "old") in
  r.2 = Done (["v1.10.0"; "v1.2.0"], "new", None) ∧ last_etag r.1 = "new".
Proof.
  intros r. assert (r.2 = Done (["v1.10.0"; "v1.2.0"], "new", None)) as E by reflexivity.
  split; [exact E|]. symmetry. apply (ListTagsWithETag_success "ghcr.io/org/bundle" None "old" r.1
    ["v1.10.0"; "v1.2.0"] "new"). rewrite <- E. apply run_with_exec.
Defined.

Lemma ListTagsWithETag_error_witness :
  ∃ e, (run_with (http_answers 304 "new" EmptyString)
          (ListTagsWithETag (RegistryClient := NewOCIClient) "ghcr.io/org/bundle" None "old")).2
       = Done ([], EmptyString, Some e) ∧ As_NotModified e = true.
Proof.
  set (r := run_with _ _).
  pose (e := WrapError "failed to list tags"
               (ForeignWrap 21 ("Get: " +:+ Error NotModifiedError) NotModifiedError)).
  assert (r.2 = Done ([], EmptyString, Some e)) as E by reflexivity.
  exists e. split; [exact E|].
  destruct (ListTagsWithETag_error "ghcr.io/org/bundle" None "old" r.1 [] EmptyString e)
    as (_ & [(_ & _ & err & Hn & _)|(ref & th & err & _ & _ & _ & Ea & _)]).
  - rewrite <- E. apply run_with_exec.
  - discriminate Hn.
  - reflexivity.
Defined.

Lemma GetLatestTag_maximum_witness :
  let r := run_with (http_answers 200 "new" "v1.2.0 v1.10.0")
             (GetLatestTag (RegistryClient := NewOCIClient) "ghcr.io/org/bundle" None) in
  r.2 = Done (Ok "v1.2.0") ∧ ∃ ref, NewRepository "ghcr.io/org/bundle" = Ok ref.
Proof.
  intros r. assert (r.2 = Done (Ok "v1.2.0")) as E by reflexivity. split; [exact E|].
  destruct (GetLatestTag_maximum "ghcr.io/org/bundle" None r.1 "v1.2.0") as (ref & _ & _ & Hr & _).
  - rewrite <- E. apply run_with_exec.
  - by exists ref.
Defined.
