(* ===== verification/Controller.v ===== *)
(** * The reconciler (controllers/werfbundle_controller.go)

    Reconcile and its helpers.  A handler takes the bundle by pointer and changes
    it in place: here it takes the bundle and returns what it leaves behind where
    the caller goes on using it.  A successful Update or Status().Update replaces
    the object by the server's answer, as controller-runtime does; a failed one
    leaves it as it was.  Log lines are left out. *)
From S2P Require Import Prelude GoErrors Prog Api Kube Duration Backoff Values Yaml Fetch JobBuilder Logs Rbac Registry.

Definition finalizerName : string := "werf.io/finalizer".
Definition defaultPollInterval : Z := 15 * Minute.
Definition maxConsecutiveFailures : Z := 5.

(** The size up to which logs are kept in the status. *)
Definition maxStatusLogs : Z := 5120.

(** ctrl.Result *)
Record Result := { RequeueAfter : Z }.

(** [ctrl.Result{}, nil], [ctrl.Result{}, err] and [ctrl.Result{RequeueAfter: d}, nil]. *)
Definition stop : Result * option error := ({| RequeueAfter := 0 |}, None).
Definition fail (err : error) : Result * option error := ({| RequeueAfter := 0 |}, Some err).
Definition requeue (d : Z) : Result * option error := ({| RequeueAfter := d |}, None).

(** The delay after which a running job is looked at again. *)
Definition jobRecheck : Z := 5 * Second.

Section Controller.
Context `{Machinery} `{RegistryLib}.

(** WerfBundleReconciler; the embedded client and the clientset are the calls. *)
Record WerfBundleReconciler := {
  r_Scheme : option Scheme;
  r_RegistryClient : RegistryClient;
}.

(** ** Writing the status *)

(** [r.Status().Update(ctx, bundle)]. *)
Definition Status_Update (bundle : WerfBundle) : prog (WerfBundle * option error) :=
  r ← perform (StatusUpdate bundle);
  match r with
  | Ok stored => mret (stored, None)
  | Err err => mret (bundle, Some err)
  end.

(** [r.Update(ctx, bundle)]. *)
Definition Update (bundle : WerfBundle) : prog (WerfBundle * option error) :=
  r ← perform (UpdateBundle bundle);
  match r with
  | Ok stored => mret (stored, None)
  | Err err => mret (bundle, Some err)
  end.

(** The assignments of updateStatusSyncing. *)
Definition syncing (tag : string) (s : WerfBundleStatus) : WerfBundleStatus :=
  let s := set_Phase PhaseSyncing s in
  let s := if decide (tag = EmptyString) then s else set_LastAppliedTag tag s in
  set_LastSyncTime None (set_LastErrorMessage EmptyString s).

Definition updateStatusSyncing (bundle : WerfBundle) (tag : string)
    : prog (WerfBundle * option error) :=
  Status_Update (on_Status (syncing tag) bundle).

Definition synced (tag : string) (now : Z) (s : WerfBundleStatus) : WerfBundleStatus :=
  set_LastSyncTime (Some now)
    (set_LastErrorMessage EmptyString (set_LastAppliedTag tag (set_Phase PhaseSynced s))).

Definition updateStatusSynced (bundle : WerfBundle) (tag : string)
    : prog (WerfBundle * option error) :=
  now ← perform TimeNow;
  Status_Update (on_Status (synced tag now) bundle).

Definition failed (errMsg : string) (s : WerfBundleStatus) : WerfBundleStatus :=
  set_LastErrorMessage errMsg (set_Phase PhaseFailed s).

Definition updateStatusFailed (bundle : WerfBundle) (errMsg : string)
    : prog (WerfBundle * option error) :=
  Status_Update (on_Status (failed errMsg) bundle).

(** A status write, after which the handler stops: the write's error is
    returned, and [res] otherwise. *)
Definition then_return (write : prog (WerfBundle * option error))
    (res : Result * option error) : prog (Result * option error) :=
  w ← write;
  match w.2 with
  | Some err => mret (fail err)
  | None => mret res
  end.

(** ** Logs *)

Definition log_configmap_name (jobName : string) : string := jobName +:+ "-logs".

Definition log_configmap (bundle : WerfBundle) (jobName logs : string) : ConfigMap :=
  {| cm_Meta := {| Name := log_configmap_name jobName; Namespace := Namespace (Meta bundle);
                   UID := EmptyString; ResourceVersion := EmptyString; Labels := ∅;
                   Finalizers := []; DeletionTimestamp := None; OwnerReferences := [] |};
     cm_Data := {[ "output" := logs ]} |}.

Definition log_reference (jobName : string) : string :=
  "See ConfigMap " +:+ log_configmap_name jobName +:+ " for full logs".

Definition storeJobLogs (r : WerfBundleReconciler) (bundle : WerfBundle) (jobName logs : string)
    : prog (result string) :=
  if str_len logs <=? maxStatusLogs then mret (Ok logs)
  else
    let cm := log_configmap bundle jobName logs in
    match SetControllerReference bundle cm (r_Scheme r) with
    | Err err => mret (Err err)
    | Ok cm =>
        created ← perform (CreateConfigMap cm);
        match created with
        | Ok _ => mret (Ok (log_reference jobName))
        | Err err =>
            if IsAlreadyExists err then
              updated ← perform (UpdateConfigMap cm);
              match updated with
              | Ok _ => mret (Ok (log_reference jobName))
              | Err err => mret (Err err)
              end
            else mret (Err err)
        end
    end.

(** The capture of the logs on both ends of monitorJobCompletion: an error is
    only logged. *)
Definition capture_logs (r : WerfBundleReconciler) (bundle : WerfBundle) (job : Job)
    : prog WerfBundle :=
  captured ← CaptureJobLogs (Name (job_Meta job)) (Namespace (job_Meta job));
  match captured with
  | Err _ => mret bundle
  | Ok jobLogs =>
      stored ← storeJobLogs r bundle (Name (job_Meta job)) jobLogs;
      match stored with
      | Err _ => mret bundle
      | Ok statusLogs => mret (on_Status (set_LastJobLogs statusLogs) bundle)
      end
  end.

(** ** Jobs *)

(** [bundle.Status.LastJobStatus = status; bundle.Status.ActiveJobName = name]. *)
Definition job_state (status name : string) (s : WerfBundleStatus) : WerfBundleStatus :=
  set_ActiveJobName name (set_LastJobStatus status s).

Definition monitorJobCompletion (r : WerfBundleReconciler) (bundle : WerfBundle) (job : Job)
    (latestTag : string) : prog (Result * option error) :=
  if Succeeded (job_Status job) >? 0 then
    let bundle := on_Status (job_state JobStatusSucceeded EmptyString) bundle in
    bundle ← capture_logs r bundle job;
    then_return (updateStatusSynced bundle latestTag) stop
  else if Failed (job_Status job) >? 0 then
    let bundle := on_Status (job_state JobStatusFailed EmptyString) bundle in
    bundle ← capture_logs r bundle job;
    then_return (updateStatusFailed bundle "Job failed, see job logs for details") stop
  else mret (requeue jobRecheck).

(** From "No active job" on: the status is written before the job is built. *)
Definition createJob (r : WerfBundleReconciler) (bundle : WerfBundle) (latestTag : string)
    : prog (Result * option error) :=
  w ← updateStatusSyncing bundle latestTag;
  let '(bundle, werr) := w in
  match werr with
  | Some err => mret (fail err)
  | None =>
      let jobBuilder :=
        WithValuesResolver (Some NewResolver) (WithScheme (r_Scheme r) (NewBuilder (Some bundle))) in
      built ← Build jobBuilder latestTag;
      match built with
      | Err err =>
          then_return (updateStatusFailed bundle ("Failed to build Job: " +:+ Error err)) stop
      | Ok jobSpec =>
          created ← perform (CreateJob jobSpec);
          match created with
          | Err err =>
              then_return (updateStatusFailed bundle ("Failed to create Job: " +:+ Error err)) stop
          | Ok jobSpec =>
              let bundle :=
                on_Status (job_state JobStatusRunning (Name (job_Meta jobSpec))) bundle in
              then_return (Status_Update bundle) (requeue jobRecheck)
          end
      end
  end.

Definition ensureJobExists (r : WerfBundleReconciler) (bundle : WerfBundle) (latestTag : string)
    : prog (Result * option error) :=
  let targetNamespace := target_of bundle in
  if decide (ActiveJobName (Status bundle) = EmptyString) then createJob r bundle latestTag
  else
    let jobKey := {| key_Name := ActiveJobName (Status bundle); key_Namespace := targetNamespace |} in
    got ← perform (GetJob jobKey);
    match got with
    | Ok activeJob => monitorJobCompletion r bundle activeJob latestTag
    | Err err =>
        if IsNotFound err
        then createJob r (on_Status (set_ActiveJobName EmptyString) bundle) latestTag
        else mret (fail err)
    end.

(** ** Registry errors *)

Definition handleRegistryError (r : WerfBundleReconciler) (bundle : WerfBundle)
    (registryErr : error) (pollInterval : Z) : prog (Result * option error) :=
  if As_NotModified registryErr then
    requeueInterval ← AddJitter pollInterval;
    mret (requeue requeueInterval)
  else
    let failures := int32 (ConsecutiveFailures (Status bundle) + 1) in
    let bundle := on_Status (set_ConsecutiveFailures failures) bundle in
    now ← perform TimeNow;
    let bundle := on_Status (set_LastErrorTime (Some now)) bundle in
    if ConsecutiveFailures (Status bundle) >? maxConsecutiveFailures then
      let errMsg := "Registry error after " +:+ itoa maxConsecutiveFailures +:+ " retries: "
                      +:+ Error registryErr in
      then_return (updateStatusFailed bundle errMsg) stop
    else
      let backoff := CalculateBackoff (ConsecutiveFailures (Status bundle)) in
      let errMsg := "Registry error (attempt " +:+ itoa (ConsecutiveFailures (Status bundle)) +:+ "/"
                      +:+ itoa maxConsecutiveFailures +:+ "): " +:+ Error registryErr in
      then_return (updateStatusSyncing bundle errMsg) (requeue backoff).

(** ** The service account *)

(** [None] is the nil error.  The bundle changes only on the way to an error,
    after which the caller returns. *)
Definition validateServiceAccount (bundle : WerfBundle) : prog (option error) :=
  let targetNamespace := target_of bundle in
  err ← ValidateServiceAccountExists (ServiceAccountName (Converge (Spec bundle))) targetNamespace;
  match err with
  | None => mret None
  | Some err =>
      w ← updateStatusFailed bundle (Error err);
      match w.2 with
      | Some updateErr => mret (Some updateErr)
      | None => mret (Some (ErrorString "serviceaccount validation failed"))
      end
  end.

(** ** Reconcile *)

Definition poll_interval (bundle : WerfBundle) : Z :=
  let s := PollInterval (Registry (Spec bundle)) in
  if decide (s = EmptyString) then defaultPollInterval
  else match ParseDuration s with
       | Ok parsed => parsed
       | Err _ => defaultPollInterval
       end.

(** After a successful listing. *)
Definition polled (etag : string) (s : WerfBundleStatus) : WerfBundleStatus :=
  let s := if ConsecutiveFailures s >? 0 then set_ConsecutiveFailures 0 s else s in
  set_LastETag etag s.

(** The tags of the registry, from line 177 on. *)
Definition pollRegistry (r : WerfBundleReconciler) (bundle : WerfBundle)
    : prog (Result * option error) :=
  let pollInterval := poll_interval bundle in
  listed ← ListTagsWithETag (RegistryClient := r_RegistryClient r)
             (URL (Registry (Spec bundle))) None (LastETag (Status bundle));
  let '(tags, etag, err) := listed in
  match err with
  | Some err => handleRegistryError r bundle err pollInterval
  | None =>
      let bundle := on_Status (polled etag) bundle in
      match last tags with
      | None =>
          w ← (if decide (Phase (Status bundle) = EmptyString ∨ Phase (Status bundle) = PhaseFailed)
               then updateStatusSyncing bundle EmptyString
               else mret (bundle, None));
          match w.2 with
          | Some err => mret (fail err)
          | None =>
              requeueInterval ← AddJitter pollInterval;
              mret (requeue requeueInterval)
          end
      | Some latestTag =>
          if decide (LastAppliedTag (Status bundle) = latestTag) then
            if decide (Phase (Status bundle) = PhaseSynced) then mret stop
            else then_return (updateStatusSynced bundle latestTag) stop
          else ensureJobExists r bundle latestTag
      end
  end.

(** The checks between the finalizer and the registry, lines 135 to 164. *)
Definition checkAndPoll (r : WerfBundleReconciler) (bundle : WerfBundle)
    : prog (Result * option error) :=
  match ValidateCrossNamespaceDeployment bundle with
  | Some err => then_return (updateStatusFailed bundle (Error err)) stop
  | None =>
      let targetNamespace := target_of bundle in
      w ← (if decide (ResolvedTargetNamespace (Status bundle) = targetNamespace)
           then mret (bundle, None)
           else Status_Update (on_Status (set_ResolvedTargetNamespace targetNamespace) bundle));
      let '(bundle, werr) := w in
      match werr with
      | Some err => mret (fail err)
      | None =>
          if decide (ServiceAccountName (Converge (Spec bundle)) = EmptyString)
          then pollRegistry r bundle
          else
            err ← validateServiceAccount bundle;
            match err with
            | Some _ => mret stop
            | None => pollRegistry r bundle
            end
      end
  end.

Definition Reconcile (r : WerfBundleReconciler) (req : NamespacedName)
    : prog (Result * option error) :=
  got ← perform (GetBundle req);
  match got with
  | Err err => if IsNotFound err then mret stop else mret (fail err)
  | Ok bundle =>
      match DeletionTimestamp (Meta bundle) with
      | Some _ =>
          if ContainsFinalizer bundle finalizerName then
            then_return (Update (RemoveFinalizer bundle finalizerName)) stop
          else mret stop
      | None =>
          w ← (if ContainsFinalizer bundle finalizerName then mret (bundle, None)
               else Update (AddFinalizer bundle finalizerName));
          let '(bundle, werr) := w in
          match werr with
          | Some err => mret (fail err)
          | None => checkAndPoll r bundle
          end
      end
  end.

End Controller.
