(* ===== verification/Runs.v ===== *)
(** * The runs of the reconciler

    For each handler of Controller.v the relation of its runs: the calls it
    makes, in order, with their answers, and how it ends.  A constructor is one
    path through the code.  [Reconcile_runs] shows that every execution of
    Reconcile is such a run; the properties of Lifecycle.v and Safety.v are
    proved by cases on it. *)
From S2P Require Import Prelude GoErrors Prog Api Kube Duration Backoff Values Yaml Fetch JobBuilder Logs Rbac Registry Controller.

(** How a handler ends whose last call was a write. *)
Definition ends {A} (a : result A) (res : Result * option error)
    : outcome (Result * option error) :=
  match a with Ok _ => Done res | Err e => Done (fail e) end.

(** A successful poll changes the ETag and the failure counter only. *)
Lemma polled_fields etag s :
  Phase (polled etag s) = Phase s ∧ LastAppliedTag (polled etag s) = LastAppliedTag s ∧
  ActiveJobName (polled etag s) = ActiveJobName s ∧ LastJobStatus (polled etag s) = LastJobStatus s ∧
  LastErrorMessage (polled etag s) = LastErrorMessage s ∧ LastETag (polled etag s) = etag ∧
  LastJobLogs (polled etag s) = LastJobLogs s ∧
  ConsecutiveFailures (polled etag s) = Z.min 0 (ConsecutiveFailures s).
Proof.
  unfold polled. rewrite Z.gtb_ltb. destruct (Z.ltb_spec 0 (ConsecutiveFailures s)); cbn;
    repeat (split; [done|]); lia.
Qed.

Section Runs.
Context `{Machinery} `{RegistryLib} (r : WerfBundleReconciler).

Abbreviation final := (outcome (Result * option error)).

(** The builder createJob sets up. *)
Definition builder_for (b : WerfBundle) : Builder :=
  WithValuesResolver (Some NewResolver) (WithScheme (r_Scheme r) (NewBuilder (Some b))).

Inductive monitor_run (b : WerfBundle) (job : Job) (tag : string) : list event → final → Prop :=
| monitor_running :
    Succeeded (job_Status job) <= 0 → Failed (job_Status job) <= 0 →
    monitor_run b job tag [] (Done (requeue jobRecheck))
| monitor_succeeded tl b' now (a : result WerfBundle) :
    0 < Succeeded (job_Status job) →
    exec (capture_logs r (on_Status (job_state JobStatusSucceeded EmptyString) b) job) tl (Done b') →
    monitor_run b job tag
      (tl ++ [Ev TimeNow now; Ev (StatusUpdate (on_Status (synced tag now) b')) a]) (ends a stop)
| monitor_failed tl b' (a : result WerfBundle) :
    Succeeded (job_Status job) <= 0 → 0 < Failed (job_Status job) →
    exec (capture_logs r (on_Status (job_state JobStatusFailed EmptyString) b) job) tl (Done b') →
    monitor_run b job tag
      (tl ++ [Ev (StatusUpdate (on_Status (failed "Job failed, see job logs for details") b')) a])
      (ends a stop).

Inductive create_run (b : WerfBundle) (tag : string) : list event → final → Prop :=
| create_no_status e :
    create_run b tag [Ev (StatusUpdate (on_Status (syncing tag) b)) (Err e)] (Done (fail e))
| create_panic b1 tb m :
    exec (Build (builder_for b1) tag) tb (Panicked m) →
    create_run b tag (Ev (StatusUpdate (on_Status (syncing tag) b)) (Ok b1) :: tb) (Panicked m)
| create_no_job b1 tb e (a : result WerfBundle) :
    exec (Build (builder_for b1) tag) tb (Done (Err e)) →
    create_run b tag
      (Ev (StatusUpdate (on_Status (syncing tag) b)) (Ok b1) :: tb
       ++ [Ev (StatusUpdate (on_Status (failed ("Failed to build Job: " +:+ Error e)) b1)) a])
      (ends a stop)
| create_refused b1 tb job e (a : result WerfBundle) :
    exec (Build (builder_for b1) tag) tb (Done (Ok job)) →
    create_run b tag
      (Ev (StatusUpdate (on_Status (syncing tag) b)) (Ok b1) :: tb
       ++ [Ev (CreateJob job) (Err e);
           Ev (StatusUpdate (on_Status (failed ("Failed to create Job: " +:+ Error e)) b1)) a])
      (ends a stop)
| create_created b1 tb job job' (a : result WerfBundle) :
    exec (Build (builder_for b1) tag) tb (Done (Ok job)) →
    create_run b tag
      (Ev (StatusUpdate (on_Status (syncing tag) b)) (Ok b1) :: tb
       ++ [Ev (CreateJob job) (Ok job');
           Ev (StatusUpdate (on_Status (job_state JobStatusRunning (Name (job_Meta job'))) b1)) a])
      (ends a (requeue jobRecheck)).

(** The active job of a bundle. *)
Definition active_key (b : WerfBundle) : NamespacedName :=
  {| key_Name := ActiveJobName (Status b); key_Namespace := target_of b |}.

Inductive ensure_run (b : WerfBundle) (tag : string) : list event → final → Prop :=
| ensure_none t o :
    ActiveJobName (Status b) = EmptyString → create_run b tag t o → ensure_run b tag t o
| ensure_gone e t o :
    ActiveJobName (Status b) ≠ EmptyString → IsNotFound e = true →
    create_run (on_Status (set_ActiveJobName EmptyString) b) tag t o →
    ensure_run b tag (Ev (GetJob (active_key b)) (Err e) :: t) o
| ensure_error e :
    ActiveJobName (Status b) ≠ EmptyString → IsNotFound e = false →
    ensure_run b tag [Ev (GetJob (active_key b)) (Err e)] (Done (fail e))
| ensure_active job t o :
    ActiveJobName (Status b) ≠ EmptyString → monitor_run b job tag t o →
    ensure_run b tag (Ev (GetJob (active_key b)) (Ok job) :: t) o.

(** The delay drawn around a poll interval. *)
Inductive jitter_run (interval : Z) : list event → final → Prop :=
| jitter_delay tj d :
    exec (AddJitter interval) tj (Done d) → jitter_run interval tj (Done (requeue d))
| jitter_panic tj m :
    exec (AddJitter interval) tj (Panicked m) → jitter_run interval tj (Panicked m).

(** The bundle after a registry error: counted and dated. *)
Definition counted (now : Z) (b : WerfBundle) : WerfBundle :=
  on_Status (set_LastErrorTime (Some now))
    (on_Status (set_ConsecutiveFailures (int32 (ConsecutiveFailures (Status b) + 1))) b).

Definition give_up_message (e : error) : string :=
  "Registry error after " +:+ itoa maxConsecutiveFailures +:+ " retries: " +:+ Error e.
Definition retry_message (n : Z) (e : error) : string :=
  "Registry error (attempt " +:+ itoa n +:+ "/" +:+ itoa maxConsecutiveFailures +:+ "): " +:+ Error e.

Inductive error_run (b : WerfBundle) (e : error) (interval : Z) : list event → final → Prop :=
| error_not_modified t o :
    As_NotModified e = true → jitter_run interval t o → error_run b e interval t o
| error_give_up now (a : result WerfBundle) :
    As_NotModified e = false →
    maxConsecutiveFailures < int32 (ConsecutiveFailures (Status b) + 1) →
    error_run b e interval
      [Ev TimeNow now; Ev (StatusUpdate (on_Status (failed (give_up_message e)) (counted now b))) a]
      (ends a stop)
| error_retry now (a : result WerfBundle) n :
    As_NotModified e = false →
    n = int32 (ConsecutiveFailures (Status b) + 1) → n <= maxConsecutiveFailures →
    error_run b e interval
      [Ev TimeNow now; Ev (StatusUpdate (on_Status (syncing (retry_message n e)) (counted now b))) a]
      (ends a (requeue (CalculateBackoff n))).

(** The listing of the registry. *)
Definition listing (b : WerfBundle) : prog (list string * string * option error) :=
  ListTagsWithETag (RegistryClient := r_RegistryClient r)
    (URL (Registry (Spec b))) None (LastETag (Status b)).

Inductive poll_run (b : WerfBundle) : list event → final → Prop :=
| poll_panic th m :
    exec (listing b) th (Panicked m) → poll_run b th (Panicked m)
| poll_error th tags etag e t o :
    exec (listing b) th (Done (tags, etag, Some e)) →
    error_run b e (poll_interval b) t o →
    poll_run b (th ++ t) o
| poll_empty th etag t o :
    exec (listing b) th (Done ([], etag, None)) →
    Phase (Status b) ≠ EmptyString → Phase (Status b) ≠ PhaseFailed →
    jitter_run (poll_interval b) t o →
    poll_run b (th ++ t) o
| poll_empty_reset th etag b1 t o :
    exec (listing b) th (Done ([], etag, None)) →
    Phase (Status b) = EmptyString ∨ Phase (Status b) = PhaseFailed →
    jitter_run (poll_interval b) t o →
    poll_run b
      (th ++ Ev (StatusUpdate (on_Status (syncing EmptyString) (on_Status (polled etag) b))) (Ok b1) :: t) o
| poll_empty_error th etag e :
    exec (listing b) th (Done ([], etag, None)) →
    Phase (Status b) = EmptyString ∨ Phase (Status b) = PhaseFailed →
    poll_run b
      (th ++ [Ev (StatusUpdate (on_Status (syncing EmptyString) (on_Status (polled etag) b))) (Err e)])
      (Done (fail e))
| poll_current th tags etag :
    exec (listing b) th (Done (tags, etag, None)) →
    last tags = Some (LastAppliedTag (Status b)) → Phase (Status b) = PhaseSynced →
    poll_run b th (Done stop)
| poll_mark_synced th tags etag now (a : result WerfBundle) :
    exec (listing b) th (Done (tags, etag, None)) →
    last tags = Some (LastAppliedTag (Status b)) → Phase (Status b) ≠ PhaseSynced →
    poll_run b
      (th ++ [Ev TimeNow now;
              Ev (StatusUpdate (on_Status (synced (LastAppliedTag (Status b)) now)
                                  (on_Status (polled etag) b))) a])
      (ends a stop)
| poll_new th tags etag tag t o :
    exec (listing b) th (Done (tags, etag, None)) →
    last tags = Some tag → LastAppliedTag (Status b) ≠ tag →
    ensure_run (on_Status (polled etag) b) tag t o →
    poll_run b (th ++ t) o.

Definition account_key (b : WerfBundle) : NamespacedName :=
  {| key_Name := ServiceAccountName (Converge (Spec b)); key_Namespace := target_of b |}.

(** From the service account on. *)
Inductive account_run (b : WerfBundle) : list event → final → Prop :=
| account_default t o :
    ServiceAccountName (Converge (Spec b)) = EmptyString → poll_run b t o → account_run b t o
| account_found t o :
    ServiceAccountName (Converge (Spec b)) ≠ EmptyString → poll_run b t o →
    account_run b (Ev (GetServiceAccount (account_key b)) (Ok tt) :: t) o
| account_missing e (a : result WerfBundle) :
    ServiceAccountName (Converge (Spec b)) ≠ EmptyString →
    account_run b
      [Ev (GetServiceAccount (account_key b)) (Err e);
       Ev (StatusUpdate (on_Status (failed (Error
             (account_error (ServiceAccountName (Converge (Spec b))) (target_of b) e))) b)) a]
      (Done stop).

(** From the cross-namespace validation on. *)
Inductive check_run (b : WerfBundle) : list event → final → Prop :=
| check_invalid err (a : result WerfBundle) :
    ValidateCrossNamespaceDeployment b = Some err →
    check_run b [Ev (StatusUpdate (on_Status (failed (Error err)) b)) a] (ends a stop)
| check_resolved t o :
    ValidateCrossNamespaceDeployment b = None →
    ResolvedTargetNamespace (Status b) = target_of b →
    account_run b t o → check_run b t o
| check_resolve b1 t o :
    ValidateCrossNamespaceDeployment b = None →
    ResolvedTargetNamespace (Status b) ≠ target_of b →
    account_run b1 t o →
    check_run b
      (Ev (StatusUpdate (on_Status (set_ResolvedTargetNamespace (target_of b)) b)) (Ok b1) :: t) o
| check_resolve_error e :
    ValidateCrossNamespaceDeployment b = None →
    ResolvedTargetNamespace (Status b) ≠ target_of b →
    check_run b
      [Ev (StatusUpdate (on_Status (set_ResolvedTargetNamespace (target_of b)) b)) (Err e)]
      (Done (fail e)).

(** From the bundle that was read on. *)
Inductive read_run (b : WerfBundle) : list event → final → Prop :=
| read_deleted at_ :
    DeletionTimestamp (Meta b) = Some at_ → ContainsFinalizer b finalizerName = false →
    read_run b [] (Done stop)
| read_cleanup at_ (a : result WerfBundle) :
    DeletionTimestamp (Meta b) = Some at_ → ContainsFinalizer b finalizerName = true →
    read_run b [Ev (UpdateBundle (RemoveFinalizer b finalizerName)) a] (ends a stop)
| read_ready t o :
    DeletionTimestamp (Meta b) = None → ContainsFinalizer b finalizerName = true →
    check_run b t o → read_run b t o
| read_adopt b1 t o :
    DeletionTimestamp (Meta b) = None → ContainsFinalizer b finalizerName = false →
    check_run b1 t o →
    read_run b (Ev (UpdateBundle (AddFinalizer b finalizerName)) (Ok b1) :: t) o
| read_no_finalizer e :
    DeletionTimestamp (Meta b) = None → ContainsFinalizer b finalizerName = false →
    read_run b [Ev (UpdateBundle (AddFinalizer b finalizerName)) (Err e)] (Done (fail e)).

Inductive reconcile_run (req : NamespacedName) : list event → final → Prop :=
| reconcile_gone e :
    IsNotFound e = true → reconcile_run req [Ev (GetBundle req) (Err e)] (Done stop)
| reconcile_unreadable e :
    IsNotFound e = false → reconcile_run req [Ev (GetBundle req) (Err e)] (Done (fail e))
| reconcile_read b t o :
    read_run b t o → reconcile_run req (Ev (GetBundle req) (Ok b) :: t) o.

(** ** Every execution is a run *)

Lemma wp_Status_Update b :
  wp any (Status_Update b) (λ t o, ∃ a : result WerfBundle, t = [Ev (StatusUpdate b) a] ∧
    o = Done match a with Ok b' => (b', None) | Err e => (b, Some e) end).
Proof. intros [b'|e] _; cbn; by eexists. Qed.

Lemma wp_Update b :
  wp any (Update b) (λ t o, ∃ a : result WerfBundle, t = [Ev (UpdateBundle b) a] ∧
    o = Done match a with Ok b' => (b', None) | Err e => (b, Some e) end).
Proof. intros [b'|e] _; cbn; by eexists. Qed.

Lemma wp_then_return_status b res :
  wp any (then_return (Status_Update b) res) (λ t o, ∃ a : result WerfBundle,
    t = [Ev (StatusUpdate b) a] ∧ o = ends a res).
Proof.
  eapply wp_call; [apply wp_Status_Update|]. intros t o ([b'|e] & -> & ->); cbn; by eexists.
Qed.

Lemma wp_then_return_update b res :
  wp any (then_return (Update b) res) (λ t o, ∃ a : result WerfBundle,
    t = [Ev (UpdateBundle b) a] ∧ o = ends a res).
Proof.
  eapply wp_call; [apply wp_Update|]. intros t o ([b'|e] & -> & ->); cbn; by eexists.
Qed.

Lemma wp_then_return_synced b tag res :
  wp any (then_return (updateStatusSynced b tag) res) (λ t o, ∃ now (a : result WerfBundle),
    t = [Ev TimeNow now; Ev (StatusUpdate (on_Status (synced tag now) b)) a] ∧ o = ends a res).
Proof.
  intros now _. eapply wp_mono; [apply (wp_then_return_status (on_Status (synced tag now) b) res)|].
  intros t o (a & -> & ->). by exists now, a.
Qed.

Lemma capture_logs_done b job : no_panic (capture_logs r b job).
Proof.
  apply no_panic_bind; [apply no_panic_CaptureJobLogs|]. intros [logs|e]; [|apply no_panic_ret].
  apply no_panic_bind.
  - unfold storeJobLogs. repeat first [case_match | apply no_panic_ret | apply no_panic_perform; intros].
  - intros [s|e]; apply no_panic_ret.
Qed.

Lemma wp_capture_logs b job :
  wp any (capture_logs r b job) (λ t o, ∃ b', o = Done b' ∧ exec (capture_logs r b job) t (Done b')).
Proof.
  eapply wp_mono; [apply wp_conj; [apply capture_logs_done | apply wp_self]|].
  intros t o [[b' ->] He]. by exists b'.
Qed.

Lemma monitor_runs b job tag : wp any (monitorJobCompletion r b job tag) (monitor_run b job tag).
Proof.
  unfold monitorJobCompletion. rewrite !Z.gtb_ltb.
  destruct (Z.ltb_spec 0 (Succeeded (job_Status job))) as [Hs|Hs];
    [|destruct (Z.ltb_spec 0 (Failed (job_Status job))) as [Hf|Hf]].
  - eapply wp_call; [apply wp_capture_logs|]. intros t o (b' & -> & He). cbn [after].
    eapply wp_mono; [apply wp_then_return_synced|]. intros t' o' (now & a & -> & ->).
    by constructor.
  - eapply wp_call; [apply wp_capture_logs|]. intros t o (b' & -> & He). cbn [after].
    eapply wp_mono; [apply wp_then_return_status|]. intros t' o' (a & -> & ->).
    by constructor.
  - by constructor.
Qed.

Lemma create_runs b tag : wp any (createJob r b tag) (create_run b tag).
Proof.
  eapply wp_call; [apply wp_Status_Update|]. intros t o ([b1|e] & -> & ->); cbn [after]; [|constructor].
  eapply wp_call; [apply wp_self|]. intros tb [[job|e]|m] He; cbn [after].
  - intros [job'|e] _; cbn [after app].
    + eapply wp_mono; [apply wp_then_return_status|]. intros t o (a & -> & ->). by constructor.
    + eapply wp_mono; [apply wp_then_return_status|]. intros t o (a & -> & ->). by constructor.
  - eapply wp_mono; [apply wp_then_return_status|]. intros t o (a & -> & ->). by constructor.
  - by constructor.
Qed.

Lemma ensure_runs b tag : wp any (ensureJobExists r b tag) (ensure_run b tag).
Proof.
  unfold ensureJobExists. case_decide.
  - eapply wp_mono; [apply create_runs|]. intros t o Hr. by constructor.
  - intros [job|e] _; cbn.
    + eapply wp_mono; [apply monitor_runs|]. intros t o Hr. by constructor.
    + destruct (IsNotFound e) eqn:E; [|by constructor].
      eapply wp_mono; [apply create_runs|]. intros t o Hr. by constructor.
Qed.

Lemma jitter_runs interval :
  wp any (d ← AddJitter interval; mret (requeue d)) (jitter_run interval).
Proof.
  eapply wp_call; [apply wp_self|]. intros t [d|m] He; cbn; [rewrite app_nil_r|]; by constructor.
Qed.

Lemma error_runs b e interval :
  wp any (handleRegistryError r b e interval) (error_run b e interval).
Proof.
  unfold handleRegistryError. destruct (As_NotModified e) eqn:E.
  { eapply wp_mono; [apply jitter_runs|]. intros t o Hr. by constructor. }
  prog_simpl. intros now _. cbn [on_Status set_Status Status ConsecutiveFailures
    set_LastErrorTime set_ConsecutiveFailures]. rewrite Z.gtb_ltb.
  destruct (Z.ltb_spec maxConsecutiveFailures (int32 (ConsecutiveFailures (Status b) + 1))).
  - eapply wp_mono; [apply wp_then_return_status|]. intros t o (a & -> & ->). by constructor.
  - eapply wp_mono; [apply wp_then_return_status|]. intros t o (a & -> & ->). by constructor.
Qed.

Lemma poll_runs b : wp any (pollRegistry r b) (poll_run b).
Proof.
  unfold pollRegistry. eapply wp_call; [apply wp_self|].
  intros th [[[tags etag] [e|]]|m] He; cbn [after]; [| |by constructor].
  { eapply wp_mono; [apply error_runs|]. intros t o Hr. by econstructor. }
  pose proof (polled_fields etag (Status b)) as (Ep & Et & _).
  destruct (last tags) as [tag|] eqn:El.
  - case_decide as Ht.
    + change (LastAppliedTag (polled etag (Status b)) = tag) in Ht. rewrite Et in Ht.
      rewrite <- Ht in El |- *. case_decide as Hp.
      * change (Phase (polled etag (Status b)) = PhaseSynced) in Hp. rewrite Ep in Hp.
        prog_simpl. rewrite app_nil_r. by eapply poll_current.
      * change (Phase (polled etag (Status b)) ≠ PhaseSynced) in Hp. rewrite Ep in Hp.
        eapply wp_mono; [apply wp_then_return_synced|]. intros t o (now & a & -> & ->).
        by eapply poll_mark_synced.
    + change (LastAppliedTag (polled etag (Status b)) ≠ tag) in Ht. rewrite Et in Ht.
      eapply wp_mono; [apply ensure_runs|]. intros t o Hr. by eapply poll_new.
  - apply last_None in El as ->. case_decide as Hp;
      change (Phase (Status (on_Status (polled etag) b))) with (Phase (polled etag (Status b))) in Hp;
      rewrite Ep in Hp.
    + eapply wp_call; [apply wp_Status_Update|].
      intros t o ([b1|e] & -> & ->); cbn [after].
      * eapply wp_mono; [apply jitter_runs|]. intros t o Hr. by eapply poll_empty_reset.
      * by eapply poll_empty_error.
    + eapply wp_mono; [apply jitter_runs|]. intros t o Hr.
      eapply poll_empty; naive_solver.
Qed.

Lemma account_runs b :
  wp any (if decide (ServiceAccountName (Converge (Spec b)) = EmptyString) then pollRegistry r b
          else err ← validateServiceAccount b;
               match err with Some _ => mret stop | None => pollRegistry r b end)
    (account_run b).
Proof.
  case_decide.
  { eapply wp_mono; [apply poll_runs|]. intros t o Hr. by constructor. }
  unfold validateServiceAccount. apply wp_bind.
  eapply wp_call; [apply wp_ValidateServiceAccountExists|].
  intros t o ([[]|e] & -> & ->); cbn [after].
  - cbn. eapply wp_mono; [apply poll_runs|]. intros t o Hr. by constructor.
  - eapply wp_call; [apply wp_Status_Update|].
    intros t o ([b1|e1] & -> & ->); cbn; by apply account_missing.
Qed.

Lemma check_runs b : wp any (checkAndPoll r b) (check_run b).
Proof.
  unfold checkAndPoll. destruct (ValidateCrossNamespaceDeployment b) as [err|] eqn:Ev.
  { eapply wp_mono; [apply wp_then_return_status|]. intros t o (a & -> & ->). by constructor. }
  case_decide.
  - eapply wp_mono; [apply account_runs|]. intros t o Hr. by apply check_resolved.
  - eapply wp_call; [apply wp_Status_Update|]. intros t o ([b1|e] & -> & ->); cbn [after].
    + eapply wp_mono; [apply account_runs|]. intros t o Hr. by apply check_resolve.
    + by apply check_resolve_error.
Qed.

Lemma Reconcile_runs req : wp any (Reconcile r req) (reconcile_run req).
Proof.
  unfold Reconcile. prog_simpl. intros [b|e] _; prog_simpl.
  - destruct (DeletionTimestamp (Meta b)) as [at_|] eqn:Ed;
      destruct (ContainsFinalizer b finalizerName) eqn:Ef.
    + eapply wp_mono; [apply wp_then_return_update|]. intros t o (a & -> & ->).
      constructor. by econstructor.
    + constructor. by econstructor.
    + eapply wp_mono; [apply check_runs|]. intros t o Hr. constructor. by constructor.
    + eapply wp_call; [apply wp_Update|]. intros t o ([b1|e] & -> & ->); cbn [after].
      * eapply wp_mono; [apply check_runs|]. intros t o Hr. constructor. by apply read_adopt.
      * constructor. by apply read_no_finalizer.
  - destruct (IsNotFound e) eqn:E; by constructor.
Qed.

Lemma Reconcile_run req t o : exec (Reconcile r req) t o → reconcile_run req t o.
Proof. intros He. exact (wp_any _ _ _ _ (Reconcile_runs req) He). Qed.

(** The trace starts with the read of the bundle; its answer decides the rest. *)
Definition got (e : event) : option WerfBundle :=
  match e with Ev (GetBundle _) (Ok b) => Some b | _ => None end.

Lemma Reconcile_read req b t o :
  exec (Reconcile r req) (Ev (GetBundle req) (Ok b) :: t) o → read_run b t o.
Proof.
  intros He. apply Reconcile_run in He. remember (_ :: _) as l eqn:E.
  destruct He as [e He|e He|b' t' o' Hr]; pose proof (f_equal (λ l, head l ≫= got) E) as E1;
    pose proof (f_equal tail E) as E2; cbn in E1, E2; [done..|]. by simplify_eq.
Qed.

End Runs.
