(* ===== verification/Server.v ===== *)
(** * What the operator relies on of the API server and its client

    [server_ok] states the documented behaviour of the Kubernetes API for the
    calls the reconciler makes: an object read has the key asked for; an Update
    of the bundle leaves its status alone and a status update leaves the rest
    alone, and both are refused unless the object is still the one that was read
    (optimistic concurrency), so that the answer is the object written.
    [MachineryOk] states the documented behaviour of the controllerutil helpers.

    The second half bounds the calls of each component. *)
From S2P Require Import Prelude GoErrors Prog Api Kube Duration Backoff Values Yaml Fetch JobBuilder Logs Rbac Registry Controller Runs Samples.

(** Two versions of an object that differ in finalizers, labels or status only. *)
Definition same_object (b b' : WerfBundle) : Prop :=
  key_of (Meta b') = key_of (Meta b) ∧ UID (Meta b') = UID (Meta b) ∧
  DeletionTimestamp (Meta b') = DeletionTimestamp (Meta b) ∧ Spec b' = Spec b.

#[global] Instance same_object_equiv : Equivalence same_object.
Proof.
  unfold same_object. split.
  - intros b. done.
  - intros b b'. intuition congruence.
  - intros b1 b2 b3. intuition congruence.
Qed.

Lemma same_object_status f b : same_object b (on_Status f b).
Proof. done. Qed.

Lemma same_object_target b b' : same_object b b' → target_of b' = target_of b.
Proof.
  intros (Hk & _ & _ & Hs). unfold target_of. rewrite Hs.
  unfold key_of in Hk. by injection Hk as _ ->.
Qed.

Lemma same_object_namespace b b' : same_object b b' → Namespace (Meta b') = Namespace (Meta b).
Proof. intros (Hk & _). unfold key_of in Hk. by injection Hk as _ ->. Qed.

Lemma same_object_validate b b' :
  same_object b b' → ValidateCrossNamespaceDeployment b' = ValidateCrossNamespaceDeployment b.
Proof.
  intros Hb. unfold ValidateCrossNamespaceDeployment.
  rewrite (same_object_namespace _ _ Hb). destruct Hb as (_ & _ & _ & Hs). by rewrite Hs.
Qed.

Lemma same_object_interval b b' : same_object b b' → poll_interval b' = poll_interval b.
Proof. intros (_ & _ & _ & Hs). unfold poll_interval. by rewrite Hs. Qed.

Create HintDb same discriminated.
#[export] Hint Resolve same_object_status : same.

Section Server.
Context `{Machinery}.

Definition server_ok (e : event) : Prop :=
  match e with
  | Ev (GetBundle key) (Ok b) => key_of (Meta b) = key
  | Ev (UpdateBundle b) (Ok b') => same_object b b' ∧ Status b' = Status b
  | Ev (StatusUpdate b) (Ok b') => same_object b b' ∧ Status b' = Status b
  | Ev (GetJob key) (Ok j) => key_of (job_Meta j) = key
  | Ev (CreateJob j) (Ok j') => key_of (job_Meta j') = key_of (job_Meta j)
  | e => go_ok e
  end.

Class MachineryOk := {
  AddFinalizer_same b f :
    same_object b (AddFinalizer b f) ∧ Status (AddFinalizer b f) = Status b ∧
    ContainsFinalizer (AddFinalizer b f) f = true;
  AddFinalizer_version b f : ResourceVersion (Meta (AddFinalizer b f)) = ResourceVersion (Meta b);
  RemoveFinalizer_same b f :
    same_object b (RemoveFinalizer b f) ∧ Status (RemoveFinalizer b f) = Status b ∧
    ContainsFinalizer (RemoveFinalizer b f) f = false;
  RemoveFinalizer_version b f :
    ResourceVersion (Meta (RemoveFinalizer b f)) = ResourceVersion (Meta b);
  IsNotFound_plain msg : IsNotFound (ErrorString msg) = false;
  SetControllerReference_same b cm s cm' :
    SetControllerReference b cm s = Ok cm' →
    key_of (cm_Meta cm') = key_of (cm_Meta cm) ∧ cm_Data cm' = cm_Data cm;
}.

(** ** The calls of the value resolver and the job builder *)

(** A read of the resolver: one of the two namespaces, an object a source names. *)
Definition resolver_call (sources : list ValuesSource) (b t : string) (e : event) : Prop :=
  match e with
  | Ev (GetConfigMap k) _ =>
      (key_Namespace k = b ∨ key_Namespace k = t) ∧
      ∃ s ref, s ∈ sources ∧ ConfigMapRef s = Some ref ∧ key_Name k = ref_Name ref
  | Ev (GetSecret k) _ =>
      (key_Namespace k = b ∨ key_Namespace k = t) ∧
      ∃ s ref, s ∈ sources ∧ SecretRef s = Some ref ∧ key_Name k = ref_Name ref
  | Ev (RangeStrings _) _ | Ev (YamlUnmarshal _) _ => True
  | _ => False
  end.

Definition pure_call (e : event) : Prop :=
  match e with
  | Ev (RangeStrings _) _ | Ev (YamlUnmarshal _) _ => True
  | _ => False
  end.

Lemma calls_parseAndMerge data : calls pure_call (parseAndMergeConfigMapData data).
Proof.
  apply calls_perform; [done|]. intros docs. generalize (@nil data_map).
  induction docs as [|[key d] docs IH]; intros maps; cbn [parse_documents]; [apply calls_ret|].
  apply calls_bind.
  - unfold parseYAML. case_decide; [apply calls_ret|]. apply calls_perform; [done|].
    intros [v|e]; apply calls_ret.
  - intros [m|e]; [apply IH | apply calls_ret].
Qed.

Lemma calls_fetch_source i s sources b t p :
  s ∈ sources → fetch_source i s b t = inr p → calls (resolver_call sources b t) p.
Proof.
  intros Hs. unfold fetch_source.
  assert (∀ e, pure_call e → resolver_call sources b t e) as Hpure by (intros [[] a]; done).
  destruct (ConfigMapRef s) as [ref|] eqn:Er; [|destruct (SecretRef s) as [ref|] eqn:Er'];
    [case_decide; [done|] .. | done]; intros [= <-].
  - assert (∀ ns a, ns = b ∨ ns = t →
      resolver_call sources b t (Ev (GetConfigMap (named (ref_Name ref) ns)) a)) as Hget.
    { intros ns a Hns. split; [done|]. by exists s, ref. }
    apply calls_perform; [intros; apply Hget; by left|].
    intros [cm|e]; [eapply calls_mono; [exact Hpure | apply calls_parseAndMerge]|].
    repeat (case_match; try apply calls_ret).
    apply calls_perform; [intros; apply Hget; by right|].
    intros [cm|e']; [eapply calls_mono; [exact Hpure | apply calls_parseAndMerge]|].
    repeat (case_match; try apply calls_ret).
  - assert (∀ ns a, ns = b ∨ ns = t →
      resolver_call sources b t (Ev (GetSecret (named (ref_Name ref) ns)) a)) as Hget.
    { intros ns a Hns. split; [done|]. by exists s, ref. }
    apply calls_perform; [intros; apply Hget; by left|].
    intros [cm|e]; [eapply calls_mono; [exact Hpure | apply calls_parseAndMerge]|].
    repeat (case_match; try apply calls_ret).
    apply calls_perform; [intros; apply Hget; by right|].
    intros [cm|e']; [eapply calls_mono; [exact Hpure | apply calls_parseAndMerge]|].
    repeat (case_match; try apply calls_ret).
Qed.

Lemma calls_ResolveValues sources b t :
  calls (resolver_call sources b t) (ResolverImpl_ResolveValues sources b t).
Proof.
  unfold ResolverImpl_ResolveValues.
  assert (∀ l i acc, l ⊆ sources →
    calls (resolver_call sources b t) (resolve_from i l b t acc)) as Hl; [|by apply Hl].
  induction l as [|s l IH]; intros i acc Hin; cbn [resolve_from]; [apply calls_ret|].
  destruct (fetch_source i s b t) as [e|p] eqn:Ef; [apply calls_ret|].
  apply calls_bind; [eapply calls_fetch_source; [|exact Ef]; set_solver|].
  intros [m|e]; [apply IH; set_solver|]. case_match; [apply IH; set_solver | apply calls_ret].
Qed.

(** The calls Build makes for a bundle. *)
Definition build_call (bundle : WerfBundle) (e : event) : Prop :=
  match e with
  | Ev (CryptoRead _) _ => True
  | e => resolver_call (ValuesFrom (Converge (Spec bundle))) (Namespace (Meta bundle))
           (target_of bundle) e
  end.

Lemma calls_Build b bundle tag :
  werf b = Some bundle → (∀ r, valuesResolver b = Some r → r = NewResolver) →
  calls (build_call bundle) (Build b tag).
Proof.
  intros Hb Hr. unfold Build. rewrite Hb.
  assert (∀ s name args, calls (build_call bundle) (finish_build s bundle tag name args)) as Hf.
  { intros s name args. rewrite finish_build_cases. repeat case_match; first [apply calls_ret | apply calls_panic]. }
  apply calls_bind.
  - unfold jobName. case_match; [apply calls_panic|]. apply calls_perform; [done|].
    intros [bs|e]; repeat case_match; apply calls_ret.
  - intros name. case_decide; [apply Hf|].
    destruct (valuesResolver b) as [rv|]; [|apply calls_ret]. rewrite (Hr rv eq_refl).
    apply calls_bind.
    + eapply calls_mono; [|apply calls_ResolveValues]. intros [[] a]; done.
    + intros [v|e]; [apply Hf | apply calls_ret].
Qed.

(** ** The calls of log capture *)

Definition job_pods (name : string) : gmap string string :=
  {[ "batch.kubernetes.io/job-name" := name ]}.

Definition pod_log_call (name namespace : string) (e : event) : Prop :=
  match e with
  | Ev (ListPods ns sel) _ => ns = namespace ∧ sel = job_pods name
  | Ev (StreamLogs ns _ _ _) _ | Ev (ReadStream ns _ _) _
  | Ev (CloseStream ns _ _) _ => ns = namespace
  | _ => False
  end.

(** A listing of the trace [T] has a pod of this name with this first container. *)
Definition listed_pod (T : list event) (namespace pod container : string) : Prop :=
  ∃ sel pods p c cs, Ev (ListPods namespace sel) (Ok pods) ∈ T ∧ p ∈ pods ∧
    Name (pod_Meta p) = pod ∧ pod_Containers p = c :: cs ∧ pc_Name c = container.

(** The logs that are read are those of listed pods. *)
Definition listed_stream (T : list event) (e : event) : Prop :=
  match e with
  | Ev (StreamLogs ns pod c _) _ | Ev (ReadStream ns pod c) _ | Ev (CloseStream ns pod c) _ =>
      listed_pod T ns pod c
  | _ => True
  end.

Lemma listed_stream_mono T T' e : T ⊆ T' → listed_stream T e → listed_stream T' e.
Proof.
  intros HT. assert (∀ ns pod c, listed_pod T ns pod c → listed_pod T' ns pod c) as Hl.
  { intros ns pod c (sel & pods & p & c0 & cs & Hin & Hp). exists sel, pods, p, c0, cs. by split; [apply HT|]. }
  destruct e as [[] a]; try done; apply Hl.
Qed.

(** The calls for one listed pod after another. *)
Lemma calls_collect_logs (P : event → Prop) namespace pods acc :
  (∀ p c cs, p ∈ pods → pod_Containers p = c :: cs →
     (∀ a, P (Ev (StreamLogs namespace (Name (pod_Meta p)) (pc_Name c) 500) a)) ∧
     (∀ a, P (Ev (ReadStream namespace (Name (pod_Meta p)) (pc_Name c)) a)) ∧
     ∀ a, P (Ev (CloseStream namespace (Name (pod_Meta p)) (pc_Name c)) a)) →
  calls P (collect_logs namespace acc pods).
Proof.
  revert acc. induction pods as [|q pods IH]; intros acc HP; cbn [collect_logs]; [apply calls_ret|].
  assert (∀ acc, calls P (collect_logs namespace acc pods)) as Hrest
    by (intros acc'; apply IH; intros p c cs Hp; apply HP; by right).
  destruct (pod_Containers q) as [|c cs] eqn:Ec; [apply Hrest|].
  destruct (HP q c cs ltac:(by left) Ec) as (Hs & Hr & Hc). apply calls_bind.
  - apply calls_perform; [done|]. intros [u|e]; [|apply calls_ret].
    apply calls_perform; [done|]. intros copied. apply calls_perform; [done|].
    intros _. case_match; apply calls_ret.
  - intros [s|e]; [case_decide|]; apply Hrest.
Qed.

Lemma calls_CaptureJobLogs name namespace :
  calls (pod_log_call name namespace) (CaptureJobLogs name namespace).
Proof.
  apply calls_perform; [done|]. intros [[|p pods]|e]; [apply calls_ret| |apply calls_ret].
  apply calls_bind; [by apply calls_collect_logs|]. intros []; apply calls_ret.
Qed.

Lemma streams_CaptureJobLogs name namespace :
  wp any (CaptureJobLogs name namespace) (λ t _, Forall (listed_stream t) t).
Proof.
  unfold CaptureJobLogs, perform. prog_simpl. intros [pods|e] _; [|by repeat constructor].
  set (e := @Ev kube_sig (ListPods namespace (job_pods name)) (Ok pods)).
  assert (∀ acc, calls (listed_stream [e]) (collect_logs namespace acc pods)) as Hc.
  { intros acc. apply calls_collect_logs. intros p c cs Hp Ec.
    assert (listed_pod [e] namespace (Name (pod_Meta p)) (pc_Name c)) as Hl
      by (exists (job_pods name), pods, p, c, cs; by split; [left|]). done. }
  destruct pods as [|p pods]; [by repeat constructor|].
  eapply wp_call; [apply Hc|]. intros t [logs|m] Ht; cbn [after].
  1: destruct logs; prog_simpl; rewrite ?app_nil_r.
  all: constructor; [done|]; eapply Forall_impl; [exact Ht|]; intros e'; apply listed_stream_mono;
    intros x ->%list_elem_of_singleton; by left.
Qed.

Context `{!MachineryOk} `{RegistryLib} (r : WerfBundleReconciler).

(** Log capture also writes one ConfigMap, beside the bundle. *)
Definition capture_call (b : WerfBundle) (job : Job) (e : event) : Prop :=
  match e with
  | Ev (CreateConfigMap cm) _ | Ev (UpdateConfigMap cm) _ =>
      key_of (cm_Meta cm) = {| key_Name := log_configmap_name (Name (job_Meta job));
                               key_Namespace := Namespace (Meta b) |}
  | e => pod_log_call (Name (job_Meta job)) (Namespace (job_Meta job)) e
  end.

Lemma calls_capture_logs b job : calls (capture_call b job) (capture_logs r b job).
Proof.
  apply calls_bind.
  { eapply calls_mono; [|apply calls_CaptureJobLogs]. intros [[] a]; done. }
  intros [logs|e]; [|apply calls_ret].
  apply calls_bind; [|intros [s|e]; apply calls_ret].
  unfold storeJobLogs. case_match; [apply calls_ret|].
  destruct (SetControllerReference _ _ _) as [cm|e] eqn:Ec; [|apply calls_ret].
  apply SetControllerReference_same in Ec as [Ek _].
  apply calls_perform; [done|]. intros [cm'|e]; [apply calls_ret|].
  case_match; [|apply calls_ret]. apply calls_perform; [done|].
  intros [cm'|e']; apply calls_ret.
Qed.

Lemma streams_capture_logs b job t o :
  exec (capture_logs r b job) t o → Forall (listed_stream t) t.
Proof.
  intros He. assert (wp any (capture_logs r b job) (λ t _, Forall (listed_stream t) t)) as Hw;
    [|exact (wp_any _ _ _ _ Hw He)].
  eapply wp_call; [apply streams_CaptureJobLogs|].
  intros t1 [[logs|e]|m] Ht; cbn [after]; [|prog_simpl; by rewrite app_nil_r|done].
  assert (calls (λ e, match e with Ev (CreateConfigMap _) _ | Ev (UpdateConfigMap _) _ => True | _ => False end)
            (storeJobLogs r b (Name (job_Meta job)) logs)) as Hst.
  { unfold storeJobLogs. case_match; [apply calls_ret|].
    destruct (SetControllerReference _ _ _); [|apply calls_ret].
    apply calls_perform; [done|]. intros [cm'|e]; [apply calls_ret|].
    case_match; [|apply calls_ret]. apply calls_perform; [done|]. intros [cm'|e']; apply calls_ret. }
  eapply wp_call; [exact Hst|].
  assert (∀ t2, Forall (λ e, match e with Ev (CreateConfigMap _) _ | Ev (UpdateConfigMap _) _ => True | _ => False end) t2 →
    Forall (listed_stream (t1 ++ t2)) (t1 ++ t2)) as Happ.
  { intros t2 Ht2. apply Forall_app. split; (eapply Forall_impl; [eassumption|]).
    - intros e. apply listed_stream_mono. intros x Hx. apply elem_of_app. by left.
    - by intros [[] a]. }
  intros t2 [[s|e]|m] Ht2; cbn [after]; prog_simpl; rewrite ?app_nil_r; by apply Happ.
Qed.

Lemma calls_AddJitter (P : event → Prop) interval :
  (∀ n a, P (Ev (RandIntn n) a)) → calls P (AddJitter interval).
Proof.
  intros HP. unfold AddJitter. case_match; [apply calls_ret|].
  unfold rand_Intn. apply calls_bind; [|intros; apply calls_ret].
  case_match; [apply calls_panic|]. intros a _. by repeat constructor.
Qed.

Lemma jitter_calls (P : event → Prop) interval t o :
  (∀ n a, P (Ev (RandIntn n) a)) → jitter_run interval t o → Forall P t.
Proof.
  intros HP [tj d He|tj m He]; (eapply calls_exec; [by apply calls_AddJitter | exact He]).
Qed.

End Server.
