(* ===== verification/Scenarios.v ===== *)
(** * A cluster for the witnesses

    A reconciler over the sample libraries and an environment that answers every
    call of a reconciliation; not part of any theorem. *)
From S2P Require Import Prelude GoErrors Prog Api Kube Duration Backoff Values Yaml Fetch JobBuilder Logs Rbac Registry Controller Runs Server Samples.

#[local] Existing Instance sample_machinery.
#[local] Existing Instance sample_lib.
#[local] Existing Instance sample_lib_ok.

#[local] Instance sample_machinery_ok : MachineryOk.
Proof.
  split.
  - intros b f. cbn. destruct (decide (f ∈ Finalizers (Meta b))) as [Hf|Hf].
    + split; [done|]. split; [done|]. by apply bool_decide_true.
    + split; [done|]. split; [done|]. apply bool_decide_true. cbn. apply elem_of_app. right. by left.
  - intros b f. cbn. by case_decide.
  - intros b f. split; [done|]. split; [done|]. cbn. apply bool_decide_false.
    rewrite list_elem_of_filter. naive_solver.
  - done.
  - done.
  - intros b cm [s|] cm' [= <-]; done.
Qed.

Definition sample_reconciler : WerfBundleReconciler :=
  {| r_Scheme := Some [werf_gvk]; r_RegistryClient := NewOCIClient |}.

#[local] Instance sample_contract : RegistryContract (r_RegistryClient sample_reconciler).
Proof. exact OCI_contract. Qed.

(** The bundle is [b], the registry answers [code] with the tags of [body], and
    [job] is the only job, if there is one. *)
Definition cluster (b : WerfBundle) (code : Z) (body : string) (job : option Job) (c : kcall) : kans c :=
  match c with
  | GetBundle key =>
      if bool_decide (key_Name key = Name (Meta b) ∧ key_Namespace key = Namespace (Meta b))
      then Ok b else Err (not_found "werfbundles")
  | HttpRoundTrip _ => Ok {| StatusCode := code; resp_Header := {[ "Etag" := ["etag-1"] ]}; Body := body |}
  | GetJob key =>
      match job with
      | Some j => if bool_decide (key_Name key = Name (job_Meta j) ∧ key_Namespace key = Namespace (job_Meta j))
                  then Ok j else Err (not_found "jobs")
      | None => Err (not_found "jobs")
      end
  | c => sample_answers c
  end.

Lemma cluster_ok b code body job c : server_ok (Ev c (cluster b code body job c)).
Proof.
  destruct c; try exact I; cbn.
  - case_bool_decide as Hk; [|done]. destruct Hk, key; cbn in *; by subst.
  - done.
  - done.
  - destruct job as [j|]; [|done]. case_bool_decide as Hk; [|done]. destruct Hk, key; cbn in *; by subst.
  - done.
  - done.
  - lia.
  - apply (sample_answers_go_ok (CryptoRead n)).
Qed.

(** The sample bundle with a status. *)
Definition bundle_with (f : WerfBundleStatus → WerfBundleStatus) : WerfBundle :=
  on_Status f sample_bundle.

(** The job of the sample deployment, with a status. *)
Definition job_with (succeeded failures : Z) : Job :=
  {| job_Meta := {| Name := "my-app-e4b60778-12345678"; Namespace := "default"; UID := "uid-2";
                    ResourceVersion := EmptyString; Labels := ∅; Finalizers := []; DeletionTimestamp := None; OwnerReferences := [] |};
     job_Spec := job_Spec (flags_job []);
     job_Status := {| Succeeded := succeeded; Failed := failures |} |}.

(** A reconciliation starts with the read of its bundle. *)
Lemma run_read (f : ∀ c : kcall, kans c) r req b :
  f (GetBundle req) = Ok b →
  (run_with f (Reconcile r req)).1
  = Ev (GetBundle req) (Ok b) :: tail (run_with f (Reconcile r req)).1.
Proof.
  intros E. unfold run_with, answered, Reconcile, perform. cbn [mbind prog_bind run].
  rewrite E. cbn. by destruct (run _ _ _) as [[t o] w].
Qed.

Lemma run_read_exec (f : ∀ c : kcall, kans c) r req b :
  f (GetBundle req) = Ok b →
  exec (Reconcile r req) (Ev (GetBundle req) (Ok b) :: tail (run_with f (Reconcile r req)).1)
    (run_with f (Reconcile r req)).2.
Proof. intros E. rewrite <- (run_read _ _ _ _ E). apply run_with_exec. Qed.

Lemma run_read_legal (f : ∀ c : kcall, kans c) {A} (p : prog A) (legal : event → Prop) :
  (∀ c, legal (Ev c (f c))) → Forall legal (tail (run_with f p).1).
Proof.
  intros Hl. pose proof (run_with_legal f p legal Hl) as Ht.
  destruct (run_with f p).1; [constructor|]. by apply Forall_cons in Ht as [_ Ht].
Qed.

(** The reconciler [r] in this cluster. *)
Definition visit (r : WerfBundleReconciler) (b : WerfBundle) (code : Z) (body : string)
    (job : option Job) : list event * outcome (Result * option error) :=
  run_with (cluster b code body job) (Reconcile r sample_request).

Lemma visit_exec r b code body job :
  exec (Reconcile r sample_request) (visit r b code body job).1 (visit r b code body job).2.
Proof. apply run_with_exec. Qed.

Lemma visit_ok r b code body job : Forall server_ok (visit r b code body job).1.
Proof. apply run_with_legal. intros c. apply cluster_ok. Qed.

(** What follows the read of the bundle. *)
Lemma visit_read r b code body job :
  Name (Meta b) = "my-app" → Namespace (Meta b) = "default" →
  (visit r b code body job).1
  = Ev (GetBundle sample_request) (Ok b) :: tail (visit r b code body job).1.
Proof. intros Hn Hns. apply run_read. cbn. by rewrite Hn, Hns. Qed.

Lemma visit_read_exec r b code body job :
  Name (Meta b) = "my-app" → Namespace (Meta b) = "default" →
  exec (Reconcile r sample_request)
    (Ev (GetBundle sample_request) (Ok b) :: tail (visit r b code body job).1)
    (visit r b code body job).2.
Proof. intros Hn Hns. rewrite <- visit_read by done. apply visit_exec. Qed.

Lemma visit_read_ok r b code body job :
  Name (Meta b) = "my-app" → Namespace (Meta b) = "default" →
  Forall server_ok (Ev (GetBundle sample_request) (Ok b) :: tail (visit r b code body job).1).
Proof. intros Hn Hns. rewrite <- visit_read by done. apply visit_ok. Qed.

Definition reconciliation (b : WerfBundle) (code : Z) (body : string) (job : option Job)
    : list event * outcome (Result * option error) :=
  visit sample_reconciler b code body job.

Lemma reconciliation_exec b code body job :
  exec (Reconcile sample_reconciler sample_request) (reconciliation b code body job).1
    (reconciliation b code body job).2.
Proof. apply visit_exec. Qed.

Lemma reconciliation_ok b code body job : Forall server_ok (reconciliation b code body job).1.
Proof. apply visit_ok. Qed.

Lemma reconciliation_read_exec b code body job :
  Name (Meta b) = "my-app" → Namespace (Meta b) = "default" →
  exec (Reconcile sample_reconciler sample_request)
    (Ev (GetBundle sample_request) (Ok b) :: tail (reconciliation b code body job).1)
    (reconciliation b code body job).2.
Proof. apply visit_read_exec. Qed.

Lemma reconciliation_read_ok b code body job :
  Name (Meta b) = "my-app" → Namespace (Meta b) = "default" →
  Forall server_ok (Ev (GetBundle sample_request) (Ok b) :: tail (reconciliation b code body job).1).
Proof. apply visit_read_ok. Qed.

(** What a property says of a trace whose first call is known. *)
Lemma read_case (P : result WerfBundle → list event → Prop) req b t :
  (∃ a t', Ev (GetBundle req) (Ok b) :: t = Ev (GetBundle req) a :: t' ∧ P a t') → P (Ok b) t.
Proof.
  intros (a & t' & E & HP).
  pose proof (f_equal (λ t, match t with Ev (GetBundle _) x :: _ => x | _ => Err server_error end) E) as Ea.
  apply (f_equal tail) in E. cbn in E, Ea. by subst.
Qed.

(** The last call of a trace, if it is a status write. *)
Definition last_write (t : list event) : option (WerfBundle * result WerfBundle) :=
  match last t with
  | Some (Ev (StatusUpdate b) a) => Some (b, a)
  | _ => None
  end.

Definition written (t : list event) : WerfBundle :=
  match last_write t with Some (b, _) => b | None => sample_bundle end.

Definition write_answer (t : list event) : result WerfBundle :=
  match last_write t with Some (_, a) => a | None => Err server_error end.

Lemma written_elem t :
  bool_decide (is_Some (last_write t)) = true → Ev (StatusUpdate (written t)) (write_answer t) ∈ t.
Proof.
  intros Hb%bool_decide_eq_true. unfold written, write_answer, last_write in *.
  destruct (last t) as [[c a]|] eqn:El; [|by destruct Hb].
  destruct c; try by destruct Hb. by apply last_Some_elem_of.
Qed.
