(* ===== verification/Safety.v ===== *)
(** * What a reconciliation can do

    Safety of one call of Reconcile, whatever the API server, the registry and
    the pods answer: where it reads and writes, when it creates a job, how it
    can end. *)
From S2P Require Import Prelude GoErrors Prog Api Kube Duration Backoff Values Yaml Fetch JobBuilder Logs Rbac Registry Controller Runs Server Samples Scenarios.

(** No request to the registry. *)
Definition offline `{Machinery} (e : event) : Prop :=
  match e with Ev (HttpRoundTrip _) _ => False | _ => True end.

Definition asks `{Machinery} (e : event) : bool :=
  match e with Ev (HttpRoundTrip _) _ => true | _ => false end.

Lemma offline_asks `{Machinery} (t : list event) : Forall offline t → existsb asks t = false.
Proof. induction 1 as [|e t He _ IH]; [done|]. cbn. rewrite IH. by destruct e as [[] a]. Qed.

Lemma offline_http `{Machinery} e : offline e → http_call e → False.
Proof. by destruct e as [[] a]. Qed.

(** How a listing ends: with tags, an ETag and an error. *)
Abbreviation listing_result := (outcome (list string * string * option error)).

Section Safety.
Context `{Machinery} `{!MachineryOk} `{RegistryLib} (r : WerfBundleReconciler)
  `{!RegistryContract (r_RegistryClient r)}.

Abbreviation final := (outcome (Result * option error)).

Lemma sub_left {A} (t1 t2 T : list A) : t1 ++ t2 ⊆ T → t1 ⊆ T.
Proof. intros HT x Hx. apply HT, elem_of_app. by left. Qed.

Lemma sub_right {A} (t1 t2 T : list A) : t1 ++ t2 ⊆ T → t2 ⊆ T.
Proof. intros HT x Hx. apply HT, elem_of_app. by right. Qed.

Lemma sub_tail {A} e (t T : list A) : e :: t ⊆ T → t ⊆ T.
Proof. apply (sub_right [e]). Qed.

(** ** Confinement *)

(** The name of a job: that of the bundle, whole or cut at 235 bytes, and more. *)
Definition job_named (b : WerfBundle) (name : string) : Prop :=
  ∃ s, name = Name (Meta b) +:+ "-" +:+ s ∨ name = str_take 235 (Name (Meta b)) +:+ "-" +:+ s.

(** A new job of the bundle: in the target namespace, with a name, a label and an
    owner that tell whose it is. *)
Definition own_job (b : WerfBundle) (j : Job) : Prop :=
  Namespace (job_Meta j) = target_of b ∧ job_named b (Name (job_Meta j)) ∧
  Labels (job_Meta j) !! "werf.io/bundle" = Some (Name (Meta b)) ∧
  ∃ o, OwnerReferences (job_Meta j) = [o] ∧ owner_UID o = UID (Meta b) ∧ owner_Name o = Name (Meta b).

(** There is an active job, and this is the ConfigMap for its logs. *)
Definition log_configmap_key (b : WerfBundle) : NamespacedName :=
  {| key_Name := ActiveJobName (Status b) +:+ "-logs"; key_Namespace := Namespace (Meta b) |}.

Definition has_job (b : WerfBundle) : Prop := ActiveJobName (Status b) ≠ EmptyString.

(** The call is about the bundle itself, or about one object that the bundle's spec
    or status leads to: the service account, the active job, its pods among those
    that were listed in [T], the ConfigMap of its logs, a new job, or a source of
    values. *)
Definition confined (T : list event) (b : WerfBundle) (e : event) : Prop :=
  match e with
  | Ev (GetBundle key) _ => key = key_of (Meta b)
  | Ev (UpdateBundle b') _ | Ev (StatusUpdate b') _ => same_object b b'
  | Ev (GetServiceAccount k) _ => ServiceAccountName (Converge (Spec b)) ≠ EmptyString ∧ k = account_key b
  | Ev (GetJob k) _ => has_job b ∧ k = active_key b
  | Ev (CreateJob j) _ => own_job b j
  | Ev (CreateConfigMap cm) _ | Ev (UpdateConfigMap cm) _ =>
      has_job b ∧ key_of (cm_Meta cm) = log_configmap_key b
  | Ev (ListPods ns sel) _ => has_job b ∧ ns = target_of b ∧ sel = job_pods (ActiveJobName (Status b))
  | Ev (StreamLogs ns pod c _) _ | Ev (ReadStream ns pod c) _ | Ev (CloseStream ns pod c) _ =>
      has_job b ∧ ns = target_of b ∧ listed_pod T ns pod c
  | Ev (HttpRoundTrip _) _ | Ev TimeNow _ | Ev (RandIntn _) _ | Ev (CryptoRead _) _ => True
  | e => resolver_call (ValuesFrom (Converge (Spec b))) (Namespace (Meta b)) (target_of b) e
  end.

Lemma same_object_own_job b b' j : same_object b b' → own_job b' j → own_job b j.
Proof.
  intros Hb. unfold own_job, job_named. rewrite (same_object_target _ _ Hb).
  destruct Hb as (Ek & -> & _). by injection Ek as -> _.
Qed.

Lemma confined_same T b b' e :
  same_object b b' → ActiveJobName (Status b') = ActiveJobName (Status b) →
  confined T b' e → confined T b e.
Proof.
  intros Hb Ea. pose proof (same_object_target _ _ Hb) as Et.
  pose proof (same_object_namespace _ _ Hb) as En. pose proof (same_object_own_job b b') as Hj.
  destruct Hb as (Ek & Eu & Ed & Es).
  unfold confined, account_key, active_key, log_configmap_key, has_job.
  destruct e as [c a]. destruct c; rewrite ?Et, ?En, ?Es, ?Ek, ?Ea; try done.
  all: try (unfold same_object; intuition congruence). by apply Hj.
Qed.

Lemma confined_same_all T b b' t :
  same_object b b' → ActiveJobName (Status b') = ActiveJobName (Status b) →
  Forall (confined T b') t → Forall (confined T b) t.
Proof. intros Hb Ea Ht. eapply Forall_impl; [exact Ht|]. intros e. by apply confined_same. Qed.

Lemma listing_calls b : calls http_call (listing r b).
Proof.
  eapply wp_mono; [apply (ListTagsWithETag_contract (c := r_RegistryClient r))|]. by intros t o [Ht _].
Qed.

Lemma listing_done b th o :
  exec (listing r b) th o →
  ∃ tags etag err, o = Done (tags, etag, err) ∧ (err = None → Sorted str_le tags).
Proof.
  intros He. by destruct (wp_any _ _ _ _ (ListTagsWithETag_contract (c := r_RegistryClient r) _ _ _) He).
Qed.

(** ** The listing in a trace *)

(** In the calls [t] that follow the read of [b], the listing of the registry ends
    in [o]: it starts with the first request, if it makes any. *)
Definition listing_in (b : WerfBundle) (t : list event) (o : listing_result) : Prop :=
  ∃ pre th post, t = pre ++ th ++ post ∧ Forall offline pre ∧ exec (listing r b) th o.

(** The registry answers with a list whose greatest tag is [T]. *)
Definition lists (T : string) (b : WerfBundle) (t : list event) : Prop :=
  ∃ tags etag, listing_in b t (Done (tags, etag, None)) ∧ last tags = Some T.

Lemma listing_http b th o : exec (listing r b) th o → Forall http_call th.
Proof. intros He. eapply calls_exec, He. apply listing_calls. Qed.

Lemma listing_in_here b th s o : exec (listing r b) th o → listing_in b (th ++ s) o.
Proof. intros He. by exists [], th, s. Qed.

Lemma listing_in_app b b1 pre t o :
  listing r b1 = listing r b → Forall offline pre → listing_in b (pre ++ t) o ↔ listing_in b1 t o.
Proof.
  intros El Hp. induction Hp as [|e pre He _ IH].
  - unfold listing_in. by rewrite El.
  - rewrite <- IH. cbn. split; intros (pre1 & th & s & E & Ho1 & Hx).
    + destruct Ho1 as [|e1 pre1 He1 Ho1].
      * destruct th as [|e1 th]; [by exists [], [], (pre ++ t)|].
        injection E as -> _. by destruct (offline_http e1); [|apply listing_http, Forall_cons in Hx as [? _]].
      * injection E as -> E. by exists pre1, th, s.
    + exists (e :: pre1), th, s. by rewrite E; split; [|split; [constructor|]].
Qed.

(** ** Confinement of the handlers *)

Lemma listing_confined T b b' th o : exec (listing r b') th o → Forall (confined T b) th.
Proof.
  intros He. apply (calls_exec _ _ _ _ (listing_calls b')) in He.
  eapply Forall_impl; [exact He|]. intros [[] a]; done.
Qed.

Lemma build_confined T b0 b tag t o :
  same_object b0 b → exec (Build (builder_for r b) tag) t o → Forall (confined T b0) t.
Proof.
  intros Hb He. pose proof (same_object_target _ _ Hb) as Et.
  pose proof (same_object_namespace _ _ Hb) as En. destruct Hb as (_ & _ & _ & Es).
  eapply Forall_impl; [eapply calls_exec; [|exact He]; by apply calls_Build; [|intros rv [= <-]]|].
  intros [[] a]; cbn; rewrite ?Et, ?En, ?Es; done.
Qed.

Lemma build_meta b tag t job :
  exec (Build (builder_for r b) tag) t (Done (Ok job)) →
  Namespace (job_Meta job) = target_of b ∧ Labels (job_Meta job) !! "werf.io/tag" = Some tag.
Proof.
  intros He.
  destruct (wp_any _ _ _ _ (wp_Build _ _) He job eq_refl)
    as (b' & name & values & t1 & t2 & s & g & gs & qc & qm & [= <-] & _ & _ & _ & _ & _ & _ & _ & ->).
  done.
Qed.

(** The job belongs to the bundle and has a name. *)
Lemma build_identity b tag t job :
  exec (Build (builder_for r b) tag) t (Done (Ok job)) →
  Name (job_Meta job) ≠ EmptyString ∧
  ∃ o, OwnerReferences (job_Meta job) = [o] ∧ owner_UID o = UID (Meta b).
Proof.
  intros He.
  destruct (wp_any _ _ _ _ (wp_Build _ _) He job eq_refl)
    as (b' & name & values & t1 & t2 & s & g & gs & qc & qm & [= <-] & _ & Hn & _ & _ & _ & _ & _ & ->).
  split; [by eapply jobName_not_empty | by eexists].
Qed.

Lemma build_own b0 b tag t job :
  same_object b0 b → exec (Build (builder_for r b) tag) t (Done (Ok job)) → Forall server_ok t →
  own_job b0 job.
Proof.
  intros Hb He Ht. apply (same_object_own_job b0 b _ Hb).
  destruct (wp_any _ _ _ _ (wp_Build _ _) He job eq_refl)
    as (b' & name & values & t1 & t2 & s & g & gs & qc & qm & [= <-] & -> & Hn & _ & _ & _ & _ & _ & ->).
  split; [done|]. split; [|split; [done|by eexists]]. apply Forall_app in Ht as [Ht _]. cbn.
  assert (Forall go_ok t1) as Hgo by (eapply Forall_impl; [exact Ht|]; intros [[] a]; done).
  destruct (wp_exec _ _ _ _ _ (wp_jobName b tag) Hn Hgo)
    as [(_ & _ & m & ?)|(_ & [(e & _ & [= ->])|(bs & _ & _ & [= ->])])]; [done|..].
  - eexists. by left.
  - exists (format_x32 (fnv32a tag) +:+ "-" +:+ hex_encode bs). right. unfold name_stem.
    generalize (str_take 235 (Name (Meta b))). intros x. by rewrite <- !string_app_assoc.
Qed.

Lemma capture_confined T b b' job t o :
  same_object b b' → has_job b → key_of (job_Meta job) = active_key b → t ⊆ T →
  exec (capture_logs r b' job) t o → Forall (confined T b) t.
Proof.
  intros Hb Ha Hj HT He. pose proof (streams_capture_logs r b' job t o He) as Hst.
  pose proof (calls_exec _ _ _ _ (calls_capture_logs r b' job) He) as Hc.
  unfold key_of, active_key in Hj. injection Hj as En Ens.
  rewrite Forall_forall in Hst, Hc. apply Forall_forall. intros e Hin. specialize (Hst e Hin). specialize (Hc e Hin).
  apply (listed_stream_mono t T) in Hst; [|done].
  destruct e as [c a]; destruct c; cbn in *; rewrite ?En, ?Ens in Hc; try done.
  - split; [done|]. unfold log_configmap_key. by rewrite Hc, (same_object_namespace _ _ Hb).
  - split; [done|]. unfold log_configmap_key. by rewrite Hc, (same_object_namespace _ _ Hb).
Qed.

Lemma capture_same b job t b' :
  exec (capture_logs r b job) t (Done b') → same_object b b'.
Proof.
  intros He. assert (wp any (capture_logs r b job) (λ _ o, ∀ b', o = Done b' → same_object b b')) as Hw.
  { eapply wp_call; [apply wp_self|]. intros t1 [[logs|e]|m] _; cbn [after]; [| |done].
    - eapply wp_call; [apply wp_self|]. intros t2 [[s|e]|m] _; prog_simpl; by intros b2 [= <-].
    - prog_simpl. by intros b2 [= <-]. }
  exact (wp_any _ _ _ _ Hw He b' eq_refl).
Qed.

Lemma monitor_confined T b job tag t o :
  has_job b → key_of (job_Meta job) = active_key b → t ⊆ T →
  monitor_run r b job tag t o → Forall (confined T b) t.
Proof.
  intros Ha Hj HT Hr. destruct Hr as [Hs Hf|tl b' now a Hs He|tl b' a Hs Hf He]; [constructor|..].
  all: apply Forall_app; (split; [eapply (capture_confined T b _ job tl); [|done|done|by eapply sub_left|exact He]; done|]).
  all: each_event; [done..|]; apply (capture_same _ _ _ _ He).
Qed.

Lemma create_confined T b0 b tag t o :
  same_object b0 b → Forall server_ok t → create_run r b tag t o → Forall (confined T b0) t.
Proof.
  intros Hsame Ht Hr. destruct Hr as [e|b1 tb m He|b1 tb e a He|b1 tb job e a He|b1 tb job job' a He].
  1: by each_event.
  all: apply Forall_cons in Ht as [[Hb _] Ht]; (constructor; [exact Hsame|]);
    assert (same_object b0 b1) as Hb1 by (etransitivity; [exact Hsame|exact Hb]).
  1: by eapply build_confined.
  all: apply Forall_app; (split; [by eapply build_confined|]); apply Forall_app in Ht as [Ht _].
  all: each_event; try exact Hb1; by eapply build_own.
Qed.

Lemma ensure_confined T b tag t o :
  Forall server_ok t → t ⊆ T → ensure_run r b tag t o → Forall (confined T b) t.
Proof.
  intros Ht HT Hr. destruct Hr as [t o Ha Hr|e t o Ha He Hr|e Ha He|job t o Ha Hr].
  - by eapply create_confined.
  - apply Forall_cons in Ht as [_ Ht]. constructor; [done|]. by eapply create_confined in Hr.
  - by each_event.
  - apply Forall_cons in Ht as [Hj _]. constructor; [done|].
    eapply monitor_confined; [exact Ha|exact Hj|by eapply sub_tail|exact Hr].
Qed.

Lemma error_confined T b e interval t o : error_run b e interval t o → Forall (confined T b) t.
Proof.
  intros [t' o' He Hr|now a He Hn|now a n He Hn Hle].
  - by eapply jitter_calls.
  - by each_event.
  - by each_event.
Qed.

Lemma poll_confined T b t o :
  Forall server_ok t → t ⊆ T → poll_run r b t o → Forall (confined T b) t.
Proof.
  intros Ht HT Hr.
  destruct Hr as [th m He|th tags etag e t o He Hr|th etag t o He Hp1 Hp2 Hr|th etag b1 t o He Hp Hr
    |th etag e He Hp|th tags etag He Hl Hp|th tags etag now a He Hl Hp|th tags etag tag t o He Hl Hn Hr];
    pose proof (listing_confined T b b _ _ He) as Hth; try done;
    apply Forall_app; (split; [done|]); apply Forall_app in Ht as [_ Ht].
  - by eapply error_confined.
  - by eapply jitter_calls.
  - constructor; [done|]. by eapply jitter_calls.
  - by each_event.
  - by each_event.
  - apply (confined_same_all T b (on_Status (polled etag) b)); [done|apply polled_fields|].
    eapply ensure_confined; [done|by eapply sub_right|exact Hr].
Qed.

Lemma account_confined T b t o :
  Forall server_ok t → t ⊆ T → account_run r b t o → Forall (confined T b) t.
Proof.
  intros Ht HT Hr. destruct Hr as [t o Hs Hr|t o Hs Hr|e a Hs].
  - by eapply poll_confined.
  - apply Forall_cons in Ht as [_ Ht]. constructor; [done|].
    eapply poll_confined; [done|by eapply sub_tail|exact Hr].
  - by each_event.
Qed.

Lemma check_confined T b t o :
  Forall server_ok t → t ⊆ T → check_run r b t o → Forall (confined T b) t.
Proof.
  intros Ht HT Hr. destruct Hr as [err a Hv|t o Hv Hn Hr|b1 t o Hv Hn Hr|e Hv Hn].
  - by each_event.
  - by eapply account_confined.
  - apply Forall_cons in Ht as [[Hb Es] Ht]. constructor; [done|].
    apply (confined_same_all T b b1); [exact Hb|by rewrite Es|].
    eapply account_confined; [done|by eapply sub_tail|exact Hr].
  - by each_event.
Qed.

(** ** The way to the registry *)

(** A call on the bundle itself. *)
Definition early (e : event) : Prop :=
  match e with
  | Ev (GetBundle _) _ | Ev (UpdateBundle _) _ | Ev (StatusUpdate _) _ => True
  | _ => False
  end.

Lemma early_offline t : Forall early t → Forall offline t.
Proof. intros Ht. eapply Forall_impl; [exact Ht|]. by intros [[] a]. Qed.

Lemma set_Resolved_id s :
  set_ResolvedTargetNamespace (ResolvedTargetNamespace s) s = s.
Proof. by destruct s. Qed.

(** The bundle as it is when the service account is looked up: the one read, with
    its target namespace noted in the status. *)
Definition noted (b b1 : WerfBundle) : Prop :=
  same_object b b1 ∧ Status b1 = set_ResolvedTargetNamespace (target_of b) (Status b).

Lemma listing_same b b1 :
  same_object b b1 → LastETag (Status b1) = LastETag (Status b) → listing r b1 = listing r b.
Proof. intros (_ & _ & _ & Es) Ee. unfold listing. by rewrite Es, Ee. Qed.

Lemma listing_noted b b1 : noted b b1 → listing r b1 = listing r b.
Proof. intros [(_ & _ & _ & Es) Est]. unfold listing. by rewrite Es, Est. Qed.

Lemma check_split b t o :
  Forall server_ok t → check_run r b t o →
  Forall early t ∨
  (ValidateCrossNamespaceDeployment b = None ∧
   ∃ b1 pre post, t = pre ++ post ∧ Forall early pre ∧ noted b b1 ∧ Forall server_ok post ∧
     account_run r b1 post o).
Proof.
  intros Ht Hr. destruct Hr as [err a Hv|t o Hv Hn Hr|b1 t o Hv Hn Hr|e Hv Hn].
  - left. by each_event.
  - right. split; [done|]. exists b, [], t. split; [done|]. split; [by constructor|].
    split; [|done]. split; [done|]. rewrite <- Hn. by rewrite set_Resolved_id.
  - apply Forall_cons in Ht as [[Hb Es] Ht].
    right. split; [done|]. eexists b1, [_], t. split; [done|]. split; [by each_event|].
    split; [|done]. split; [exact Hb | exact Es].
  - left. by each_event.
Qed.

Lemma read_split b t o :
  Forall server_ok t → read_run r b t o →
  Forall early t ∨
  ∃ b1 pre post, t = pre ++ post ∧ Forall early pre ∧
    DeletionTimestamp (Meta b) = None ∧ ValidateCrossNamespaceDeployment b = None ∧
    noted b b1 ∧ Forall server_ok post ∧ account_run r b1 post o.
Proof.
  intros Ht Hr. destruct Hr as [d Hd Hf|d a Hd Hf|t o Hd Hf Hr|b1 t o Hd Hf Hr|e Hd Hf];
    try (left; by each_event).
  - destruct (check_split _ _ _ Ht Hr) as [He|(Hv & b1 & pre & post & -> & Hp & Hn & Hs & Ha)];
      [by left|]. right. by exists b1, pre, post.
  - apply Forall_cons in Ht as [[Hb Es] Ht].
    destruct (AddFinalizer_same b finalizerName) as (Hb0 & Es0 & _).
    assert (same_object b b1) as Hb1 by (etransitivity; [exact Hb0 | exact Hb]).
    assert (Status b1 = Status b) as Es1 by congruence.
    destruct (check_split _ _ _ Ht Hr) as [He|(Hv & b2 & pre & post & -> & Hp & [Hn Hn'] & Hs & Ha)].
    + left. by each_event.
    + right. eexists b2, (_ :: pre), post. split; [done|]. split; [by each_event|].
      split; [done|]. split; [by rewrite <- (same_object_validate _ _ Hb1)|].
      split; [|done]. split; [by etransitivity|].
      by rewrite Hn', (same_object_target _ _ Hb1), Es1.
Qed.

Lemma reconcile_split req t o :
  Forall server_ok t → reconcile_run r req t o →
  Forall early t ∨
  ∃ b b1 pre post, t = Ev (GetBundle req) (Ok b) :: pre ++ post ∧ Forall early pre ∧
    DeletionTimestamp (Meta b) = None ∧ ValidateCrossNamespaceDeployment b = None ∧
    noted b b1 ∧ Forall server_ok post ∧ account_run r b1 post o.
Proof.
  intros Ht Hr. destruct Hr as [e He|e He|b t o Hr]; [left; by each_event..|].
  apply Forall_cons in Ht as [_ Ht].
  destruct (read_split _ _ _ Ht Hr) as [He|(b1 & pre & post & -> & Hs)]; [left; by each_event|].
  right. by exists b, b1, pre, post.
Qed.

(** ** Job creation *)

Definition creates (e : event) : option Job :=
  match e with Ev (CreateJob j) _ => Some j | _ => None end.

Lemma calls_builder b tag : calls (build_call b) (Build (builder_for r b) tag).
Proof. apply calls_Build; [done|]. by intros rv [= <-]. Qed.

Lemma build_creates b tag t o : exec (Build (builder_for r b) tag) t o → omap creates t = [].
Proof.
  intros He. eapply omap_nothing, calls_exec; [|apply calls_builder|exact He]. by intros [[] a].
Qed.

Lemma capture_creates b job t o : exec (capture_logs r b job) t o → omap creates t = [].
Proof.
  intros He. eapply omap_nothing, calls_exec; [|apply calls_capture_logs|exact He].
  by intros [[] a].
Qed.

Lemma listing_creates b t o : exec (listing r b) t o → omap creates t = [].
Proof.
  intros He. eapply omap_nothing, calls_exec; [|apply listing_calls|exact He]. by intros [[] a].
Qed.

Lemma jitter_creates interval t o : jitter_run interval t o → omap creates t = [].
Proof.
  intros Hr. apply (omap_nothing _ (λ e, creates e = None)); [done|]. by eapply jitter_calls.
Qed.

Lemma create_creates b tag t o :
  Forall server_ok t → create_run r b tag t o →
  omap creates t = [] ∨
  ∃ j, omap creates t = [j] ∧ Namespace (job_Meta j) = target_of b ∧
       Labels (job_Meta j) !! "werf.io/tag" = Some tag.
Proof.
  intros Ht Hr. destruct Hr as [e|b1 tb m He|b1 tb e a He|b1 tb job e a He|b1 tb job job' a He].
  1: by left.
  all: apply Forall_cons in Ht as [[Hb _] _]; cbn; rewrite ?omap_app, (build_creates _ _ _ _ He).
  1, 2: by left.
  all: right; exists job; split; [done|]; destruct (build_meta _ _ _ _ He) as [-> ->];
    split; [by apply same_object_target | done].
Qed.

Lemma ensure_creates b tag t o :
  Forall server_ok t → ensure_run r b tag t o →
  omap creates t = [] ∨
  ∃ j, omap creates t = [j] ∧ Namespace (job_Meta j) = target_of b ∧
       Labels (job_Meta j) !! "werf.io/tag" = Some tag ∧
       (ActiveJobName (Status b) ≠ EmptyString →
        ∃ e, IsNotFound e = true ∧ Ev (GetJob (active_key b)) (Err e) ∈ t).
Proof.
  intros Ht Hr. destruct Hr as [t o Ha Hr|e t o Ha He Hr|e Ha He|job t o Ha Hr].
  - destruct (create_creates _ _ _ _ Ht Hr) as [Hc|(j & Hc & Hn & Hl)]; [by left|].
    right. by exists j.
  - apply Forall_cons in Ht as [_ Ht].
    destruct (create_creates _ _ _ _ Ht Hr) as [Hc|(j & Hc & Hn & Hl)]; [by left|].
    right. exists j. cbn. rewrite Hc. repeat (split; [done|]).
    intros _. exists e. split; [done|]. by left.
  - by left.
  - left. apply Forall_cons in Ht as [_ Ht]. cbn.
    destruct Hr as [Hs Hf|tl b' now a Hs He|tl b' a Hs Hf He]; [done|..];
      by rewrite omap_app, (capture_creates _ _ _ _ He).
Qed.

(** The listing of [t] offers a tag that is new to the bundle [b]. *)
Definition new_tag (b : WerfBundle) (t : list event) (tag : string) : Prop :=
  ∃ tags etag, listing_in b t (Done (tags, etag, None)) ∧
    last tags = Some tag ∧ Forall (λ x, str_le x tag) tags ∧ tag ≠ LastAppliedTag (Status b).

Lemma new_tag_here b th t tags etag tag :
  exec (listing r b) th (Done (tags, etag, None)) → last tags = Some tag → LastAppliedTag (Status b) ≠ tag →
  new_tag b (th ++ t) tag.
Proof.
  intros He Hl Hn. exists tags, etag. split; [by apply listing_in_here|]. split; [done|]. split; [|done].
  apply sorted_last_max; [|done].
  destruct (listing_done _ _ _ He) as (? & ? & ? & [= <- <- <-] & Hs). by apply Hs.
Qed.

Lemma new_tag_noted b b1 pre t tag :
  noted b b1 → Forall offline pre → new_tag b1 t tag → new_tag b (pre ++ t) tag.
Proof.
  intros Hn Hp (tags & etag & Hl & Hlast & Hmax & Hne). exists tags, etag.
  split; [by apply (listing_in_app b b1 pre t _ (listing_noted _ _ Hn) Hp)|].
  split; [done|]. split; [done|]. by rewrite (proj2 Hn) in Hne.
Qed.

Lemma poll_creates b t o :
  Forall server_ok t → poll_run r b t o →
  omap creates t = [] ∨
  ∃ j tag, omap creates t = [j] ∧ Namespace (job_Meta j) = target_of b ∧
       Labels (job_Meta j) !! "werf.io/tag" = Some tag ∧ new_tag b t tag ∧
       (ActiveJobName (Status b) ≠ EmptyString →
        ∃ e, IsNotFound e = true ∧ Ev (GetJob (active_key b)) (Err e) ∈ t).
Proof.
  intros Ht Hr.
  destruct Hr as [th m He|th tags etag e t o He Hr|th etag t o He Hp1 Hp2 Hr|th etag b1 t o He Hp Hr
    |th etag e He Hp|th tags etag He Hl Hp|th tags etag now a He Hl Hp|th tags etag tag t o He Hl Hn Hr];
    rewrite ?omap_app, (listing_creates _ _ _ He); try by left.
  - left. destruct Hr as [t' o' Hm Hr|now a Hm Hn|now a n Hm Hn Hle]; [|done..].
    by rewrite (jitter_creates _ _ _ Hr).
  - left. by rewrite (jitter_creates _ _ _ Hr).
  - left. cbn. by rewrite (jitter_creates _ _ _ Hr).
  - apply Forall_app in Ht as [_ Ht].
    destruct (ensure_creates _ _ _ _ Ht Hr) as [Hc|(j & Hc & Hns & Hl' & Ha)]; rewrite Hc; [by left|].
    right. exists j, tag. split; [done|]. split; [done|]. split; [done|]. split.
    + by eapply new_tag_here.
    + intros Hne. pose proof (polled_fields etag (Status b)) as (_ & _ & Ea & _).
      unfold active_key in *.
      change (Status (on_Status (polled etag) b)) with (polled etag (Status b)) in Ha.
      change (target_of (on_Status (polled etag) b)) with (target_of b) in Ha.
      rewrite Ea in Ha. destruct (Ha Hne) as (e & He1 & He2). exists e. split; [done|].
      apply elem_of_app. by right.
Qed.

Lemma noted_account b b1 : noted b b1 → account_key b1 = account_key b.
Proof.
  intros [Hb _]. unfold account_key. rewrite (same_object_target _ _ Hb).
  by rewrite (proj2 (proj2 (proj2 Hb))).
Qed.

(** The conditions on a job that the poll adds: its tag is new, the active job is
    gone, and it is that tag's job in the target namespace. *)
Definition guarded (b : WerfBundle) (t : list event) (j : Job) : Prop :=
  ∃ tag, new_tag b t tag ∧
    (ActiveJobName (Status b) ≠ EmptyString →
       ∃ e, IsNotFound e = true ∧ Ev (GetJob (active_key b)) (Err e) ∈ t) ∧
    Namespace (job_Meta j) = target_of b ∧ Labels (job_Meta j) !! "werf.io/tag" = Some tag.

Lemma poll_guarded b b1 pre t o :
  noted b b1 → Forall offline pre → Forall server_ok t → poll_run r b1 t o →
  omap creates t = [] ∨ ∃ j, omap creates t = [j] ∧ guarded b (pre ++ t) j.
Proof.
  intros Hnoted Hpre Hs Hr. pose proof Hnoted as [Hb Es].
  destruct (poll_creates _ _ _ Hs Hr) as [Hc|(j & tag & Hc & Hn & Hl & Hnew & Hact)]; [by left|].
  right. exists j. split; [done|]. exists tag.
  rewrite (same_object_target _ _ Hb) in Hn. split; [|split; [|done]].
  - by eapply new_tag_noted.
  - unfold active_key in *. rewrite Es, (same_object_target _ _ Hb) in Hact. cbn in Hact.
    intros Hne. destruct (Hact Hne) as (e & He1 & He2). exists e. split; [done|].
    apply elem_of_app. by right.
Qed.

(** ** Properties *)

(** C8 Confinement.  Every call of a reconciliation is about the bundle itself, or
    about one object that its spec or status leads to: the service account of the
    spec and the job that the status names, in the target namespace; the pods of
    that job, of which only those are read that were listed; the one ConfigMap
    that belongs to the logs of that job, beside the bundle; a new job, which
    carries the bundle's name and has the bundle as its owner; and as values the
    listed sources only, in the two namespaces. *)
Theorem Reconcile_confined req t o :
  exec (Reconcile r req) t o → Forall server_ok t →
  ∃ (a : result WerfBundle) t', t = Ev (GetBundle req) a :: t' ∧
    match a with
    | Err _ => t' = []
    | Ok b => Forall (confined t' b) t'
    end.
Proof.
  intros He Ht. apply Reconcile_run in He.
  destruct He as [e He|e He|b t o Hr]; eexists _, _; (split; [done|]); cbn; try done.
  apply Forall_cons in Ht as [_ Ht].
  destruct Hr as [d Hd Hf|d a Hd Hf|t o Hd Hf Hr|b1 t o Hd Hf Hr|e Hd Hf]; try done.
  - each_event. apply (RemoveFinalizer_same b finalizerName).
  - by eapply check_confined.
  - apply Forall_cons in Ht as [[Hb Es] Ht].
    destruct (AddFinalizer_same b finalizerName) as (Hb0 & Es0 & _).
    constructor; [exact Hb0|].
    eapply (confined_same_all _ b b1); [by etransitivity|by rewrite Es, Es0|].
    eapply check_confined; [done|by eapply sub_tail|exact Hr].
  - each_event. apply (AddFinalizer_same b finalizerName).
Qed.

(** C5 A reconciliation creates at most one job, and only when everything allows
    it: the bundle read is not being deleted and passes the cross-namespace
    validation; its service account, if it names one, was found in the target
    namespace; the registry was listed with the bundle's last ETag, and the
    greatest tag of the listing is not the one last applied; and the active job,
    if one is recorded, is gone.  The job is that tag's, in the target namespace. *)
Theorem Reconcile_job_guards req t o :
  exec (Reconcile r req) t o → Forall server_ok t →
  omap creates t = [] ∨
  ∃ b j, omap creates t = [j] ∧ head t = Some (Ev (GetBundle req) (Ok b)) ∧
    DeletionTimestamp (Meta b) = None ∧ ValidateCrossNamespaceDeployment b = None ∧
    (ServiceAccountName (Converge (Spec b)) ≠ EmptyString →
       Ev (GetServiceAccount (account_key b)) (Ok tt) ∈ t) ∧
    guarded b t j.
Proof.
  intros He Ht. apply Reconcile_run in He.
  destruct (reconcile_split _ _ _ Ht He)
    as [Hearly|(b & b1 & pre & post & -> & Hpre & Hd & Hv & Hn & Hs & Ha)].
  { left. eapply omap_nothing; [|exact Hearly]. by intros [[] a]. }
  assert (omap creates pre = []) as Epre by (eapply omap_nothing; [|exact Hpre]; by intros [[] a]).
  cbn. rewrite omap_app, Epre, app_nil_l.
  assert (account_key b1 = account_key b) as Ek by (by apply noted_account).
  assert (Spec b1 = Spec b) as Esp by apply Hn.
  assert (Forall offline (@Ev kube_sig (GetBundle req) (Ok b) :: pre)) as Hoff
    by (constructor; [done|]; by apply early_offline).
  destruct Ha as [post o Hsa Hr|post o Hsa Hr|e a Hsa]; [| |by left].
  - destruct (poll_guarded b b1 _ post o Hn Hoff Hs Hr) as [Hc|(j & Hc & Hg)]; [by left|].
    right. exists b, j. rewrite Esp in Hsa. by repeat (split; [done|]).
  - apply Forall_cons in Hs as [_ Hs]. rewrite Ek in *.
    destruct (poll_guarded b b1 ((@Ev kube_sig (GetBundle req) (Ok b) :: pre)
        ++ [@Ev kube_sig (GetServiceAccount (account_key b)) (Ok tt)]) post o Hn)
      as [Hc|(j & Hc & Hg)]; [by apply Forall_app; split; [|each_event]|done|done|by left|].
    rewrite <- app_assoc in Hg.
    right. exists b, j. repeat (split; [done|]). split; [|exact Hg].
    intros _. right. apply elem_of_app. right. by left.
Qed.

End Safety.

(** ** Witnesses *)

#[local] Existing Instance sample_machinery.
#[local] Existing Instance sample_machinery_ok.
#[local] Existing Instance sample_lib.
#[local] Existing Instance sample_contract.

(** The job of v1.0.0 has failed, and v1.1.0 has appeared. *)
Definition failed_sample : WerfBundle :=
  bundle_with (λ s, job_state JobStatusRunning "my-app-e4b60778-12345678" (syncing "v1.0.0" s)).
Definition one_pod (c : kcall) : kans c :=
  match c with
  | ListPods _ _ => Ok [sample_pod "my-app-e4b60778-12345678-x"]
  | ReadStream _ _ _ => Ok "the deployment has failed"
  | c => cluster failed_sample 200 "v1.1.0" (Some (job_with 0 1)) c
  end.
Definition failed_run : list event := tail (run_with one_pod (Reconcile sample_reconciler sample_request)).1.

Lemma failed_exec :
  exec (Reconcile sample_reconciler sample_request)
    (Ev (GetBundle sample_request) (Ok failed_sample) :: failed_run)
    (run_with one_pod (Reconcile sample_reconciler sample_request)).2.
Proof. exact (run_read_exec one_pod sample_reconciler sample_request failed_sample eq_refl). Qed.

Lemma failed_ok : Forall server_ok (Ev (GetBundle sample_request) (Ok failed_sample) :: failed_run).
Proof.
  constructor; [reflexivity|]. apply run_read_legal. intros c.
  destruct c; try exact (cluster_ok failed_sample 200 "v1.1.0" (Some (job_with 0 1)) _); done.
Qed.

Lemma failed_opens : (0 < length (omap opened failed_run))%nat.
Proof. apply Nat.ltb_lt. vm_compute. reflexivity. Qed.

(** Its logs are read. *)
Lemma Reconcile_confined_witness :
  Forall (confined failed_run failed_sample) failed_run ∧ (0 < length (omap opened failed_run))%nat.
Proof.
  split; [|exact failed_opens].
  exact (read_case (λ a t, match a with Ok b => Forall (confined t b) t | Err _ => t = [] end)
    sample_request failed_sample failed_run
    (Reconcile_confined sample_reconciler sample_request _ _ failed_exec failed_ok)).
Defined.

Lemma Reconcile_job_guards_witness :
  ∃ b j, omap creates (reconciliation sample_bundle 200 "v1.0.0" None).1 = [j] ∧
    guarded sample_reconciler b (reconciliation sample_bundle 200 "v1.0.0" None).1 j.
Proof.
  destruct (Reconcile_job_guards sample_reconciler sample_request _ _
    (reconciliation_exec sample_bundle 200 "v1.0.0" None) (reconciliation_ok _ _ _ _))
    as [E|(b & j & E & _ & _ & _ & _ & Hg)].
  - apply (f_equal length) in E. vm_compute in E. discriminate E.
  - by exists b, j.
Defined.
