(* ===== verification/Listing.v ===== *)
(** * The listing of a reconciliation

    A reconciliation asks the registry once, after its calls on the bundle and on
    the service account.  This file finds the listing in the trace of a
    reconciliation, so that what the registry offered is read off the calls that
    were made and need not be assumed of calls that were not. *)
From S2P Require Import Prelude GoErrors Prog Api Kube Duration Backoff Values Yaml Fetch JobBuilder Logs Rbac Registry Controller Runs Server Samples Scenarios Safety.

Section Listing.
Context `{Machinery} `{!MachineryOk} `{RegistryLib} (r : WerfBundleReconciler)
  `{!RegistryContract (r_RegistryClient r)}.


(** ** Executions that make requests only are determined by what they are answered *)

Definition http_answer (e : event) : option (result Response) :=
  match e with Ev (HttpRoundTrip _) a => Some a | _ => None end.

Lemma exec_determined {A} (p : prog A) t1 t2 o1 o2 s1 s2 :
  calls http_call p → exec p t1 o1 → exec p t2 o2 → t1 ++ s1 = t2 ++ s2 → t1 = t2 ∧ o1 = o2.
Proof.
  intros Hc He1. revert t2 Hc. induction He1 as [a|m|c k a t o He1 IH]; intros t2 Hc He2 E.
  - by inversion He2.
  - by inversion He2.
  - pose proof (calls_exec _ _ _ _ Hc (exec_do _ _ _ _ _ He1)) as [Hh _]%Forall_cons.
    destruct c; try done. apply exec_do_inv in He2 as (a2 & t2' & -> & He2). cbn in E.
    pose proof (f_equal (λ l, head l ≫= http_answer) E) as Ea. cbn in Ea. injection Ea as <-.
    injection E as E. destruct (IH t2') as [-> ->]; [|done..].
    eapply wp_mono; [exact (Hc a I)|]. cbn. by intros t1 o1 [_ Ht]%Forall_cons.
Qed.

(** Nothing but requests in [th], none before: [th] comes where the requests are. *)
Lemma offline_prefix pre1 pre2 th1 th2 s1 s2 :
  Forall offline pre1 → Forall offline pre2 → Forall http_call th1 → Forall http_call th2 →
  th1 ≠ [] → th2 ≠ [] → pre1 ++ th1 ++ s1 = pre2 ++ th2 ++ s2 → th1 ++ s1 = th2 ++ s2.
Proof.
  intros Ho1 Ho2 Ht1 Ht2 Hn1 Hn2. revert pre2 Ho2. induction Ho1 as [|e pre1 He _ IH]; intros pre2 Ho2 E.
  - destruct Ho2 as [|e pre2 He _]; [done|]. destruct Ht1 as [|e1 th1 Hh _]; [done|].
    cbn in E. injection E as -> _. by destruct (offline_http e).
  - destruct Ho2 as [|e2 pre2 He2 Ho2].
    + destruct Ht2 as [|e1 th2 Hh _]; [done|]. cbn in E. injection E as -> _. by destruct (offline_http e1).
    + cbn in E. injection E as _ E. by apply (IH pre2).
Qed.

(** There is one listing in a trace. *)
Lemma listing_in_unique b t o1 o2 : listing_in r b t o1 → listing_in r b t o2 → o1 = o2.
Proof.
  intros (pre1 & th1 & s1 & -> & Ho1 & He1) (pre2 & th2 & s2 & E & Ho2 & He2).
  pose proof (listing_http r _ _ _ He1) as Ht1. pose proof (listing_http r _ _ _ He2) as Ht2.
  destruct (listing r b) as [x|m|c k] eqn:El.
  1, 2: inversion He1; inversion He2; congruence.
  rewrite <- El in He1, He2.
  refine (proj2 (exec_determined (listing r b) th1 th2 o1 o2 s1 s2 (listing_calls r b) He1 He2 _)).
  rewrite El in He1, He2. apply (offline_prefix pre1 pre2); try done.
  - by inversion He1.
  - by inversion He2.
Qed.

(** ** The way to it *)

Lemma lists_app T b b1 pre t :
  listing r b1 = listing r b → Forall offline pre → lists r T b (pre ++ t) ↔ lists r T b1 t.
Proof. intros El Hp. unfold lists. by setoid_rewrite (listing_in_app r b b1 pre t _ El Hp). Qed.

Lemma new_tag_lists b t T tag : new_tag r b t tag → lists r T b t → tag = T.
Proof.
  intros (tags & etag & Hl & Hlast & _) (tags' & etag' & Hl' & HT).
  pose proof (listing_in_unique b t _ _ Hl Hl') as E. injection E as -> _. congruence.
Qed.

Lemma lists_after T b b1 e t :
  lists r T b (e :: t) → listing r b1 = listing r b → offline e → lists r T b1 t.
Proof. intros Hl El He. by apply (lists_app T b b1 [e] t El ltac:(by constructor)). Qed.

(** What the reconciliation lists is what the trace says. *)
Lemma lists_here T b th s o :
  lists r T b (th ++ s) → exec (listing r b) th o →
  ∃ tags etag, o = Done (tags, etag, None) ∧ last tags = Some T.
Proof.
  intros (tags & etag & Hl & HT) He. exists tags, etag. split; [|done].
  eapply listing_in_unique; [by apply listing_in_here|exact Hl].
Qed.

Lemma lists_whole T b th o :
  lists r T b th → exec (listing r b) th o → ∃ tags etag, o = Done (tags, etag, None) ∧ last tags = Some T.
Proof. intros Hl He. rewrite <- (app_nil_r th) in Hl. by eapply lists_here. Qed.

Lemma poll_listed b t o : poll_run r b t o → ∃ lo, listing_in r b t lo.
Proof.
  intros Hr.
  destruct Hr as [th m He|th tags etag e t o He Hr|th etag t o He Hp1 Hp2 Hr|th etag b1 t o He Hp Hr
    |th etag e He Hp|th tags etag He Hl Hp|th tags etag now a He Hl Hp|th tags etag tag t o He Hl Hn Hr].
  all: eexists; first [apply listing_in_here, He | rewrite <- (app_nil_r th); apply listing_in_here, He].
Qed.

(** A reconciliation that has read [b] makes no request at all, or comes to the
    poll. *)
Lemma read_poll b t o :
  Forall server_ok t → read_run r b t o →
  Forall offline t ∨
  ∃ b1 pre post, t = pre ++ post ∧ Forall offline pre ∧ noted b b1 ∧ Forall server_ok post ∧
    poll_run r b1 post o.
Proof.
  intros Ht Hr. destruct (read_split _ _ _ _ Ht Hr) as [He|(b1 & pre & post & -> & Hpre & _ & _ & Hn & Hs & Ha)];
    [left; by apply early_offline|]. apply early_offline in Hpre.
  destruct Ha as [t o Hsa Hr'|t o Hsa Hr'|e a Hsa].
  - right. by exists b1, pre, t.
  - right. apply Forall_cons in Hs as [_ Hs]. eexists b1, (pre ++ [_]), t.
    split; [by rewrite <- app_assoc|]. split; [apply Forall_app; by split; [|each_event]|done].
  - left. apply Forall_app. split; [done|]. by each_event.
Qed.

(** A reconciliation that makes a request has listed the registry. *)
Lemma read_listed b t o :
  Forall server_ok t → read_run r b t o → ¬ Forall offline t → ∃ lo, listing_in r b t lo.
Proof.
  intros Ht Hr Hoff. destruct (read_poll _ _ _ Ht Hr) as [?|(b1 & pre & post & -> & Hp & Hn & _ & Hpoll)];
    [done|]. destruct (poll_listed _ _ _ Hpoll) as [lo Hl]. exists lo.
  by apply (listing_in_app r b b1 pre post lo (listing_noted r _ _ Hn) Hp).
Qed.

(** ** Computing a listing *)

(** The requests are answered by [f]. *)
Definition answers_as (f : ∀ c : kcall, kans c) (e : event) : Prop :=
  match e with Ev (HttpRoundTrip q) a => a = f (HttpRoundTrip q) | _ => True end.

Lemma exec_answered {A} f (p : prog A) t o :
  calls http_call p → exec p t o → Forall (answers_as f) t → o = (@answered kube_sig _ f p).2.
Proof.
  intros Hc He. induction He as [a|m|c k a t o He IH]; intros Ht; [done..|].
  pose proof (calls_exec _ _ _ _ Hc (exec_do _ _ _ _ _ He)) as [Hh _]%Forall_cons.
  apply Forall_cons in Ht as [Ha Ht]. destruct c; try done. cbn in Ha. subst a.
  rewrite IH; [|eapply wp_mono; [exact (Hc _ I)|]; by intros t1 o1 [_ ?]%Forall_cons|done].
  unfold answered. cbn. by destruct (run _ tt _) as [[t1 o1] w1].
Qed.

Lemma listing_answered f b t lo :
  listing_in r b t lo → Forall (answers_as f) t → lo = (@answered kube_sig _ f (listing r b)).2.
Proof.
  intros (pre & th & s & -> & _ & Hex) Hf. apply (exec_answered f _ th); [apply (listing_calls r)|done|].
  by apply Forall_app in Hf as [_ [Hf _]%Forall_app].
Qed.

Lemma listing_computed f b t o req :
  exec (Reconcile r req) (Ev (GetBundle req) (Ok b) :: t) o → Forall server_ok t →
  Forall (answers_as f) t → existsb asks t = true →
  listing_in r b t (@answered kube_sig _ f (listing r b)).2.
Proof.
  intros He%Reconcile_read Hs Hf Hx. destruct (read_listed b t o Hs He) as [lo Hl].
  - intros Hoff. apply existsb_exists in Hx as (e & Hin & Hh). apply list_elem_of_In in Hin.
    rewrite Forall_forall in Hoff. specialize (Hoff e Hin). by destruct e as [[] a].
  - by rewrite <- (listing_answered f b t lo Hl Hf).
Qed.

(** The greatest tag of a listing that has succeeded. *)
Definition greatest (o : listing_result) : option string :=
  match o with Done (tags, _, None) => last tags | _ => None end.

Lemma greatest_lists f b t T lo :
  listing_in r b t lo → Forall (answers_as f) t →
  greatest (@answered kube_sig _ f (listing r b)).2 = Some T → lists r T b t.
Proof.
  intros Hl Hf. rewrite <- (listing_answered f b t lo Hl Hf).
  destruct lo as [[[tags etag] [e|]]|m]; try done. intros HT. by exists tags, etag.
Qed.

End Listing.

(** ** For the witnesses *)

#[local] Existing Instance sample_machinery.
#[local] Existing Instance sample_machinery_ok.
#[local] Existing Instance sample_lib.
#[local] Existing Instance sample_contract.

(** A reconciliation against an environment without state. *)
Lemma run_lists (f : ∀ c : kcall, kans c) b T :
  f (GetBundle sample_request) = Ok b → (∀ c, server_ok (Ev c (f c))) →
  existsb asks (tail (run_with f (Reconcile sample_reconciler sample_request)).1) = true →
  greatest (@answered kube_sig _ f (listing sample_reconciler b)).2 = Some T →
  lists sample_reconciler T b (tail (run_with f (Reconcile sample_reconciler sample_request)).1).
Proof.
  intros Hb Hs Hx HT.
  assert (Forall (answers_as f) (tail (run_with f (Reconcile sample_reconciler sample_request)).1)) as Hf
    by (apply run_read_legal; by intros []).
  eapply (greatest_lists sample_reconciler f); [|exact Hf|exact HT].
  eapply (listing_computed sample_reconciler); [by apply run_read_exec|by apply run_read_legal|exact Hf|exact Hx].
Qed.
