(* ===== verification/Delivery.v ===== *)
(** * What a created job deploys

    From the spec of the bundle, the tags of the registry and the ConfigMaps and
    Secrets of the cluster to the arguments of the job: the composition of the
    reconciler, the job builder and the values resolver. *)
From S2P Require Import Prelude GoErrors Prog Api Kube Duration Backoff Values Yaml Fetch JobBuilder Logs Rbac Registry Controller Runs Server Samples Scenarios Safety Listing.

Section Delivery.
Context `{Machinery} `{!MachineryOk} `{RegistryLib} (r : WerfBundleReconciler)
  `{!RegistryContract (r_RegistryClient r)}.

(** ** Where a created job comes from *)

(** [j] was built in the trace [t] with the tag [tag], for the object [b]. *)
Definition built_for (b : WerfBundle) (t : list event) (tag : string) (j : Job) : Prop :=
  ∃ b1 tb, same_object b b1 ∧ tb ⊆ t ∧ exec (Build (builder_for r b1) tag) tb (Done (Ok j)).

Lemma built_for_mono b b' t t' tag j :
  same_object b' b → t ⊆ t' → built_for b t tag j → built_for b' t' tag j.
Proof.
  intros Hb Ht (b1 & tb & Hb1 & Hsub & He). exists b1, tb.
  split; [by etransitivity|]. split; [by etransitivity|done].
Qed.

Lemma create_built b tag t o j :
  Forall server_ok t → create_run r b tag t o → j ∈ omap creates t → built_for b t tag j.
Proof.
  intros Ht Hr Hj. destruct Hr as [e|b1 tb m He|b1 tb e a He|b1 tb job e a He|b1 tb job job' a He];
    [by apply not_elem_of_nil in Hj|..];
    apply Forall_cons in Ht as [[Hb _] _]; cbn in Hj; rewrite ?omap_app, (build_creates r _ _ _ _ He) in Hj;
    [by apply not_elem_of_nil in Hj..|apply list_elem_of_singleton in Hj as ->|apply list_elem_of_singleton in Hj as ->];
    exists b1, tb; (split; [exact Hb|]); (split; [set_solver|done]).
Qed.

Lemma ensure_built b tag t o j :
  Forall server_ok t → ensure_run r b tag t o → j ∈ omap creates t → built_for b t tag j.
Proof.
  intros Ht Hr Hj. destruct Hr as [t o Ha Hr|e t o Ha He Hr|e Ha He|job t o Ha Hr].
  - by eapply create_built.
  - apply Forall_cons in Ht as [_ Ht].
    eapply built_for_mono; [| |exact (create_built _ _ _ _ _ Ht Hr Hj)]; [|set_solver].
    apply same_object_status.
  - by apply not_elem_of_nil in Hj.
  - destruct Hr as [Hs Hf|tl b' now a Hs He|tl b' a Hs Hf He]; cbn in Hj;
      rewrite ?omap_app, ?(capture_creates r _ _ _ _ He) in Hj; by apply not_elem_of_nil in Hj.
Qed.

Lemma poll_built b t o j :
  Forall server_ok t → poll_run r b t o → j ∈ omap creates t →
  ∃ tag, new_tag r b t tag ∧ built_for b t tag j.
Proof.
  intros Ht Hr Hj.
  destruct Hr as [th m He|th tags etag e t o He Hr|th etag t o He Hp1 Hp2 Hr|th etag b1 t o He Hp Hr
    |th etag e He Hp|th tags etag He Hl Hp|th tags etag now a He Hl Hp|th tags etag tag t o He Hl Hn Hr];
    rewrite ?omap_app, (listing_creates r _ _ _ He) in Hj; try by apply not_elem_of_nil in Hj.
  - exfalso. destruct Hr as [t' o' Hm Hr|now a Hm Hn|now a n Hm Hn Hle]; cbn in Hj;
      rewrite ?(jitter_creates _ _ _ Hr) in Hj; by apply not_elem_of_nil in Hj.
  - rewrite (jitter_creates _ _ _ Hr) in Hj. by apply not_elem_of_nil in Hj.
  - cbn in Hj. rewrite (jitter_creates _ _ _ Hr) in Hj. by apply not_elem_of_nil in Hj.
  - apply Forall_app in Ht as [_ Ht]. exists tag. split.
    + by eapply new_tag_here.
    + eapply built_for_mono; [| |exact (ensure_built _ _ _ _ _ Ht Hr Hj)]; [|set_solver].
      apply same_object_status.
Qed.

(** Every job a reconciliation sends to the API server was built during it, for
    the bundle it read, with the greatest tag of a listing. *)
Lemma Reconcile_built req b t o j :
  exec (Reconcile r req) (Ev (GetBundle req) (Ok b) :: t) o → Forall server_ok t →
  j ∈ omap creates t → ∃ tag, new_tag r b t tag ∧ built_for b t tag j.
Proof.
  intros He Ht Hj. apply Reconcile_read in He.
  destruct (read_split r _ _ _ Ht He) as [Hearly|(b1 & pre & post & -> & Hpre & _ & _ & Hn & Hs & Ha)].
  { exfalso. rewrite (omap_nothing creates early t) in Hj; [by apply not_elem_of_nil in Hj| |done].
    by intros [[] a]. }
  assert (omap creates pre = []) as Epre by (eapply omap_nothing; [|exact Hpre]; by intros [[] a]).
  rewrite omap_app, Epre in Hj. cbn in Hj.
  apply early_offline in Hpre.
  assert (∀ p t o, Forall offline p → Forall server_ok t → poll_run r b1 t o → j ∈ omap creates t →
    ∃ tag, new_tag r b (p ++ t) tag ∧ built_for b (p ++ t) tag j) as Hpoll.
  { intros p t' o' Hoff Ht' Hp Hj'. destruct (poll_built _ _ _ _ Ht' Hp Hj') as (tag & Hnew & Hb).
    exists tag. split; [by eapply new_tag_noted|].
    eapply built_for_mono; [apply Hn| |exact Hb]. intros x Hx. apply elem_of_app. by right. }
  destruct Ha as [post o Hsa Hr|post o Hsa Hr|e a Hsa].
  - by eapply Hpoll.
  - apply Forall_cons in Hs as [_ Hs].
    rewrite cons_middle, app_assoc. apply (Hpoll _ post o); [|done..].
    apply Forall_app. split; [done|by each_event].
  - by apply not_elem_of_nil in Hj.
Qed.

(** ** What it deploys *)

(** What the spec of [b] asks of the job for [tag], in the cluster of [snap]: to
    run in the target namespace under the bundle's account, in one container that
    deploys the tag with the values the specification of Fetch.v computes for the
    bundle's sources.  Read back, the flags are these values, escaped, unless a key
    contains an equals sign. *)
Definition delivers (snap : Snapshot) (b : WerfBundle) (tag : string) (j : Job) : Prop :=
  Namespace (job_Meta j) = target_of b ∧
  ps_ServiceAccountName (Template_Spec (job_Spec j)) = ServiceAccountName (Converge (Spec b)) ∧
  ∃ c values, Containers (Template_Spec (job_Spec j)) = [c] ∧
    resolve_spec snap 0 (ValuesFrom (Converge (Spec b))) (Namespace (Meta b)) (target_of b) [] = Ok values ∧
    c_Args c = ["converge"; "--log-color=false"; URL (Registry (Spec b)) +:+ ":" +:+ tag]
                 ++ GenerateSetFlags values ∧
    ((∀ k, is_Some (values !! k) → str_contains "=" k = false) →
     ExtractSetFlags (Some j) = escapeValue <$> values).

Definition sources_clean (snap : Snapshot) (b : WerfBundle) : Prop :=
  Forall (source_clean snap (Namespace (Meta b)) (target_of b)) (ValuesFrom (Converge (Spec b))).

Lemma delivers_same snap b b' tag j : same_object b b' → delivers snap b' tag j → delivers snap b tag j.
Proof.
  intros Hb. unfold delivers. rewrite (same_object_target _ _ Hb), (same_object_namespace _ _ Hb).
  destruct Hb as (_ & _ & _ & Hs). by rewrite Hs.
Qed.

(** The values of a job are those of the specification. *)
Lemma build_delivers snap b tag t j :
  exec (Build (builder_for r b) tag) t (Done (Ok j)) → Forall (agrees snap) t → sources_clean snap b →
  delivers snap b tag j.
Proof.
  intros He Ht Hc.
  destruct (wp_any _ _ _ _ (wp_Build _ _) He j eq_refl)
    as (b' & name & values & t1 & t2 & s & g & gs & qc & qm & [= <-] & -> & Hn & Hr & _ & _ & _ & _ & ->).
  split; [done|]. split; [done|]. eexists _, values. split; [done|]. split.
  - destruct Hr as [(Hs & _ & ->)|(rv & [= <-] & Hr)]; [by rewrite Hs|].
    apply Forall_app in Ht as [_ Ht].
    pose proof (wp_exec _ _ _ _ _ (wp_resolve_from snap 0 _ _ _ [] Hc) Hr Ht) as Ho.
    by injection Ho as ->.
  - split; [done|]. apply job_literal_flags.
Qed.

Lemma built_delivers snap b t tag j :
  built_for b t tag j → Forall (agrees snap) t → sources_clean snap b → delivers snap b tag j.
Proof.
  intros (b1 & tb & Hb & Hsub & Hbuild) Ha Hc. apply (delivers_same snap b b1 tag j Hb).
  apply (build_delivers snap b1 tag tb); [done| |].
  { apply Forall_forall. intros e Hin. rewrite Forall_forall in Ha. by apply Ha, Hsub. }
  unfold sources_clean in *. rewrite (same_object_target _ _ Hb), (same_object_namespace _ _ Hb).
  destruct Hb as (_ & _ & _ & Hs). by rewrite Hs.
Qed.

(** C6 Delivery, from the spec to the job.  Let the ConfigMaps and Secrets a
    reconciliation reads be those of one snapshot of the cluster, whose documents
    decode and do not contradict each other.  Then every job
    the reconciliation sends to the API server deploys the greatest tag of the
    listing with exactly the values the specification computes in that snapshot,
    which it does without an error, in the bundle's target namespace and under its
    account - whatever the orders in which Go ranges over maps. *)
Theorem Reconcile_delivers snap req b t o j :
  exec (Reconcile r req) (Ev (GetBundle req) (Ok b) :: t) o →
  Forall server_ok t → Forall (agrees snap) t → sources_clean snap b →
  j ∈ omap creates t →
  ∃ tag, new_tag r b t tag ∧ delivers snap b tag j.
Proof.
  intros He Ht Ha Hc Hj. destruct (Reconcile_built req b t o j He Ht Hj) as (tag & Hnew & Hb).
  exists tag. split; [done|by eapply built_delivers].
Qed.

End Delivery.

(** ** Witness *)

#[local] Existing Instance sample_machinery.
#[local] Existing Instance sample_machinery_ok.
#[local] Existing Instance sample_lib.
#[local] Existing Instance sample_contract.

(** A bundle deployed to another namespace with the values of the snapshot of
    Fetch.v: two ConfigMaps, one in each namespace, and a missing optional Secret. *)
Definition valued_bundle : WerfBundle :=
  {| Meta := sample_meta;
     Spec := {| Registry := Registry sample_spec;
                Converge := {| ServiceAccountName := "deployer"; TargetNamespace := "prod";
                               ResourceLimits := None; LogRetentionDays := None;
                               ValuesFrom := sample_sources |} |};
     Status := zero_status |}.

Definition valued_answers (c : kcall) : kans c :=
  match c with
  | GetBundle key => if bool_decide (key = sample_request) then Ok valued_bundle else Err (not_found "werfbundles")
  | HttpRoundTrip _ => Ok {| StatusCode := 200; resp_Header := {[ "Etag" := ["etag-1"] ]}; Body := "v1.0.0" |}
  | c => snapshot_answers c
  end.

Definition valued_run : list event := tail (run_with valued_answers (Reconcile sample_reconciler sample_request)).1.

(** The job of the run. *)
Definition created_job (t : list event) : Job :=
  match omap creates t with j :: _ => j | [] => flags_job [] end.

Lemma created_job_elem t : length (omap creates t) = 1%nat → created_job t ∈ omap creates t.
Proof. unfold created_job. destruct (omap creates t); [done|]. intros _. by left. Qed.

Lemma valued_exec :
  exec (Reconcile sample_reconciler sample_request) (Ev (GetBundle sample_request) (Ok valued_bundle) :: valued_run)
    (run_with valued_answers (Reconcile sample_reconciler sample_request)).2.
Proof. by apply run_read_exec. Qed.

Lemma valued_server_ok c : server_ok (Ev c (valued_answers c)).
Proof.
  destruct c; try exact I; try exact (sample_answers_go_ok _);
    cbn; try done. case_bool_decide as Hk; [by rewrite Hk|done].
Qed.

Lemma valued_ok : Forall server_ok valued_run.
Proof. apply run_read_legal, valued_server_ok. Qed.

Lemma valued_lists : lists sample_reconciler "v1.0.0" valued_bundle valued_run.
Proof. apply run_lists; [done|apply valued_server_ok|vm_compute; reflexivity..]. Qed.

Lemma valued_agrees : Forall (agrees sample_snapshot) valued_run.
Proof.
  apply run_read_legal. intros c. destruct c; try exact I; try done; cbn; [by case_decide|done].
Qed.

Lemma Reconcile_delivers_witness :
  delivers sample_snapshot valued_bundle "v1.0.0" (created_job valued_run) ∧
  ExtractSetFlags (Some (created_job valued_run)) = {["k" := "2"; "l" := "x"]}.
Proof.
  destruct (Reconcile_delivers sample_reconciler sample_snapshot sample_request valued_bundle valued_run _
    (created_job valued_run) valued_exec valued_ok valued_agrees) as (tag & Hnew & Hd).
  - exact sample_sources_clean.
  - apply created_job_elem. vm_compute. reflexivity.
  - pose proof (new_tag_lists _ _ _ _ _ Hnew valued_lists) as ->. split; [done|].
    destruct Hd as (_ & _ & c & values & _ & Hres & _ & Hflags).
    assert (values = {["k" := "2"; "l" := "x"]}) as ->.
    { enough (Ok values = Ok {["k" := "2"; "l" := "x"]}) as E by (by injection E).
      rewrite <- Hres. vm_compute. reflexivity. }
    rewrite Hflags; [vm_compute; reflexivity|].
    by intros k [v [[<- _]|[_ [<- _]%lookup_singleton_Some]]%lookup_insert_Some].
Defined.
