(* ===== verification/Lifecycle.v ===== *)
(** * The life of a bundle

    How a reconciliation ends and what it writes: errors and requeues, the
    finalizer, the schema of the status, the retry policy, the end of a job. *)
From S2P Require Import Prelude GoErrors Prog Api Kube Duration Backoff Values Yaml Fetch JobBuilder Logs Rbac Registry Controller Runs Server Safety Samples Scenarios.

(** ** Poll intervals *)

Lemma ParseDuration_range s d : ParseDuration s = Ok d → d < 2 ^ 63.
Proof.
  unfold ParseDuration. destruct (match s with String "-" r => _ | _ => _ end) as [neg r].
  case_decide; [intros [= <-]; lia|]. case_decide; [done|].
  destruct (parse_loop _ _ _ _) as [d'|e]; [|done]. destruct neg.
  - intros [= <-]. apply int64_range.
  - rewrite Z.gtb_ltb. destruct (Z.ltb_spec (2 ^ 63 - 1) d'); [done|]. intros [= <-]. lia.
Qed.

Lemma poll_interval_range b : poll_interval b < 2 ^ 63.
Proof.
  unfold poll_interval. case_decide; [vm_compute; done|].
  destruct (ParseDuration _) as [d|e] eqn:E; [by apply ParseDuration_range in E | vm_compute; done].
Qed.

#[export] Hint Resolve poll_interval_range : goint.

(** ** The status schema *)

(** A status the CRD accepts, with room for one more failure. *)
Definition room (s : WerfBundleStatus) : Prop :=
  status_valid s = true ∧ ConsecutiveFailures s <= 5.

Lemma status_valid_spec s :
  status_valid s = true ↔
  phase_valid (Phase s) = true ∧ job_status_valid (LastJobStatus s) = true ∧
  0 <= ConsecutiveFailures s <= 6.
Proof.
  unfold status_valid. rewrite !andb_true_iff, !Z.leb_le. tauto.
Qed.

Lemma room_valid s : room s → status_valid s = true.
Proof. by intros [Hs _]. Qed.

Lemma syncing_fields tag s :
  Phase (syncing tag s) = PhaseSyncing ∧ LastJobStatus (syncing tag s) = LastJobStatus s ∧
  ConsecutiveFailures (syncing tag s) = ConsecutiveFailures s ∧
  ActiveJobName (syncing tag s) = ActiveJobName s ∧ LastETag (syncing tag s) = LastETag s ∧
  LastErrorMessage (syncing tag s) = EmptyString ∧
  LastAppliedTag (syncing tag s) = if decide (tag = EmptyString) then LastAppliedTag s else tag.
Proof. unfold syncing. by case_decide. Qed.

Section Schema.
Variable s : WerfBundleStatus.
Hypothesis Hs : room s.

Lemma room_syncing tag : room (syncing tag s).
Proof.
  pose proof (syncing_fields tag s) as (Ep & Ej & Ec & _). unfold room in *.
  rewrite status_valid_spec in Hs |- *. rewrite Ep, Ej, Ec. intuition.
Qed.

Lemma room_synced tag now : room (synced tag now s).
Proof. unfold room in *. rewrite status_valid_spec in Hs |- *. cbn. intuition. Qed.

Lemma room_failed msg : room (failed msg s).
Proof. unfold room in *. rewrite status_valid_spec in Hs |- *. cbn. intuition. Qed.

Lemma room_polled etag : room (polled etag s).
Proof.
  pose proof (polled_fields etag s) as (Ep & _ & _ & Ej & _ & _ & _ & Ec). unfold room in *.
  rewrite status_valid_spec in Hs |- *. rewrite Ep, Ej, Ec. intuition lia.
Qed.

Lemma room_job status name :
  job_status_valid status = true → room (job_state status name s).
Proof. intros Hj. unfold room in *. rewrite status_valid_spec in Hs |- *. cbn. intuition. Qed.

Lemma room_active name : room (set_ActiveJobName name s).
Proof. unfold room in *. rewrite status_valid_spec in Hs |- *. cbn. intuition. Qed.

Lemma room_logs logs : room (set_LastJobLogs logs s).
Proof. unfold room in *. rewrite status_valid_spec in Hs |- *. cbn. intuition. Qed.

Lemma room_resolved ns : room (set_ResolvedTargetNamespace ns s).
Proof. unfold room in *. rewrite status_valid_spec in Hs |- *. cbn. intuition. Qed.

(** One failure more is still valid, and on the retry path there is still room. *)
Lemma int32_failures : int32 (ConsecutiveFailures s + 1) = ConsecutiveFailures s + 1.
Proof.
  destruct Hs as [Hv Hr]. apply status_valid_spec in Hv as (_ & _ & Hc).
  apply int32_small. unfold in_int32. lia.
Qed.

End Schema.

Create HintDb room discriminated.
#[export] Hint Resolve room_syncing room_synced room_failed room_polled room_job room_active
  room_logs room_resolved room_valid : room.

(** Closes "this status is valid" goals. *)
Ltac room := cbn [on_Status set_Status Status]; auto 8 with room.

Section Lifecycle.
Context `{Machinery} `{!MachineryOk} `{RegistryLib} (r : WerfBundleReconciler)
  `{!RegistryContract (r_RegistryClient r)}.

Abbreviation final := (outcome (Result * option error)).

(** ** Captured logs *)

(** What storing logs answers: the logs, or a reference to the ConfigMap. *)
Definition kept_logs (name logs s : string) : Prop :=
  (s = logs ∧ str_len logs <= maxStatusLogs) ∨
  (s = log_reference name ∧ maxStatusLogs < str_len logs).

Lemma wp_storeJobLogs b name logs :
  wp any (storeJobLogs r b name logs) (λ t o,
    (str_len logs <= maxStatusLogs ∧ t = [] ∧ o = Done (Ok logs)) ∨
    (maxStatusLogs < str_len logs ∧
     match SetControllerReference b (log_configmap b name logs) (r_Scheme r) with
     | Err e => t = [] ∧ o = Done (Err e)
     | Ok cm =>
         ∃ a : result ConfigMap,
           match a with
           | Ok _ => t = [Ev (CreateConfigMap cm) a] ∧ o = Done (Ok (log_reference name))
           | Err e =>
               if IsAlreadyExists e then
                 ∃ a' : result ConfigMap, t = [Ev (CreateConfigMap cm) a; Ev (UpdateConfigMap cm) a'] ∧
                   o = Done match a' with Ok _ => Ok (log_reference name) | Err e => Err e end
               else t = [Ev (CreateConfigMap cm) a] ∧ o = Done (Err e)
           end
     end)).
Proof.
  unfold storeJobLogs. destruct (Z.leb_spec (str_len logs) maxStatusLogs) as [Hl|Hl].
  { by left. }
  destruct (SetControllerReference _ _ _) as [cm|e]; [|by right].
  prog_simpl. intros [cm1|e] _; prog_simpl.
  - right. split; [done|]. by exists (Ok cm1).
  - destruct (IsAlreadyExists e) eqn:E; prog_simpl.
    + intros [cm2|e2] _; prog_simpl; right; (split; [done|]); exists (Err e); rewrite E;
        [by exists (Ok cm2) | by exists (Err e2)].
    + right. split; [done|]. exists (Err e). by rewrite E.
Qed.

(** The bundle after log capture: as it was, or with logs of bounded size. *)
Definition captured (b : WerfBundle) (job : Job) (b' : WerfBundle) : Prop :=
  b' = b ∨ ∃ s logs, b' = on_Status (set_LastJobLogs s) b ∧ kept_logs (Name (job_Meta job)) logs s.

Lemma capture_captured b job t b' : exec (capture_logs r b job) t (Done b') → captured b job b'.
Proof.
  intros He. assert (wp any (capture_logs r b job) (λ _ o, ∀ b', o = Done b' → captured b job b')) as Hw;
    [|exact (wp_any _ _ _ _ Hw He b' eq_refl)].
  eapply wp_call; [apply wp_self|]. intros t1 [[logs|e]|m] _; cbn [after]; [|by intros b2 [= <-]; left|done].
  eapply wp_call; [apply wp_storeJobLogs|]. intros t2 o Ho.
  assert (∀ s, o = Done (Ok s) → kept_logs (Name (job_Meta job)) logs s) as Hk.
  { intros s ->. destruct Ho as [(Hl & _ & [= ->])|(Hl & Ho)]; [by left|]. right.
    split; [|done]. destruct (SetControllerReference _ _ _) as [cm|e]; [|by destruct Ho].
    destruct Ho as [[cm'|e] Ho]; [by destruct Ho as [_ [= ->]]|].
    destruct (IsAlreadyExists e); [|by destruct Ho].
    destruct Ho as ([cm'|e'] & _ & Ho); by simplify_eq. }
  destruct o as [[s|e]|m]; prog_simpl; [| |done].
  - intros b2 [= <-]. right. exists s, logs. split; [done|]. by apply Hk.
  - intros b2 [= <-]. by left.
Qed.

(** ** Status writes *)

Definition valid_write (e : event) : Prop :=
  match e with Ev (StatusUpdate b) _ => status_valid (Status b) = true | _ => True end.

Lemma capture_writes b job t o : exec (capture_logs r b job) t o → Forall valid_write t.
Proof.
  intros He. eapply Forall_impl; [eapply calls_exec; [apply calls_capture_logs|exact He]|].
  by intros [[] a].
Qed.

Lemma build_writes b tag t o : exec (Build (builder_for r b) tag) t o → Forall valid_write t.
Proof.
  intros He. eapply Forall_impl; [eapply calls_exec; [apply calls_builder|exact He]|].
  by intros [[] a].
Qed.

Lemma listing_writes b t o : exec (listing r b) t o → Forall valid_write t.
Proof.
  intros He. eapply Forall_impl; [exact (calls_exec _ _ _ _ (listing_calls r b) He)|].
  by intros [[] a].
Qed.

Lemma captured_room b job b' : captured b job b' → room (Status b) → room (Status b').
Proof. intros [->|(s & logs & -> & _)] Hr; [done|]. by apply room_logs. Qed.

Lemma monitor_writes b job tag t o :
  room (Status b) → monitor_run r b job tag t o → Forall valid_write t.
Proof.
  intros Hr [Hs Hf|tl b' now a Hs He|tl b' a Hs Hf He]; [constructor|..];
    (apply Forall_app; split; [by eapply capture_writes|]);
    assert (room (Status b'))
      by (eapply captured_room; [by eapply capture_captured | room; by apply room_job]);
    each_event; cbn [valid_write]; room.
Qed.

Lemma create_writes b tag t o :
  Forall server_ok t → room (Status b) → create_run r b tag t o → Forall valid_write t.
Proof.
  intros Ht Hb Hr. destruct Hr as [e|b1 tb m He|b1 tb e a He|b1 tb job e a He|b1 tb job job' a He].
  1: each_event; cbn [valid_write]; room.
  all: apply Forall_cons in Ht as [[_ Es] _];
    assert (room (Status b1)) as Hb1 by (rewrite Es; room);
    constructor; [cbn [valid_write]; room|].
  1: by eapply build_writes.
  all: apply Forall_app; split; [by eapply build_writes|]; each_event; cbn [valid_write]; room.
Qed.

Lemma ensure_writes b tag t o :
  Forall server_ok t → room (Status b) → ensure_run r b tag t o → Forall valid_write t.
Proof.
  intros Ht Hb Hr. destruct Hr as [t o Ha Hr|e t o Ha He Hr|e Ha He|job t o Ha Hr].
  - by eapply create_writes.
  - apply Forall_cons in Ht as [_ Ht]. constructor; [done|].
    eapply create_writes; [done| |done]. room.
  - by each_event.
  - constructor; [done|]. by eapply monitor_writes.
Qed.

Lemma error_writes b e interval t o :
  room (Status b) → error_run b e interval t o → Forall valid_write t.
Proof.
  intros Hb. pose proof (int32_failures _ Hb) as Hi. pose proof Hb as [Hv Hr].
  apply status_valid_spec in Hv as (Hp & Hj & Hc).
  intros [t' o' He Hr'|now a He Hn|now a n He -> Hle].
  - by eapply jitter_calls.
  - each_event; [done|]. cbn. rewrite Hi. apply status_valid_spec. cbn. intuition lia.
  - each_event; [done|]. apply status_valid_spec.
    pose proof (syncing_fields (retry_message (int32 (ConsecutiveFailures (Status b) + 1)) e)
      (Status (counted now b))) as (Ep & Ej & Ec & _). cbn [on_Status set_Status Status] in *.
    rewrite Ep, Ej, Ec. cbn. rewrite Hi. intuition lia.
Qed.

Lemma poll_writes b t o :
  Forall server_ok t → room (Status b) → poll_run r b t o → Forall valid_write t.
Proof.
  intros Ht Hb Hr.
  destruct Hr as [th m He|th tags etag e t o He Hr|th etag t o He Hp1 Hp2 Hr|th etag b1 t o He Hp Hr
    |th etag e He Hp|th tags etag He Hl Hp|th tags etag now a He Hl Hp|th tags etag tag t o He Hl Hn Hr];
    pose proof (listing_writes _ _ _ He) as Hth; try done;
    apply Forall_app; (split; [done|]); apply Forall_app in Ht as [_ Ht].
  - by eapply error_writes.
  - by eapply jitter_calls.
  - constructor; [cbn [valid_write]; room|]. by eapply jitter_calls.
  - each_event; cbn [valid_write]; room.
  - each_event; [done|]. cbn [valid_write]. room.
  - eapply ensure_writes; [done| |exact Hr]. room.
Qed.

Lemma account_writes b t o :
  Forall server_ok t → room (Status b) → account_run r b t o → Forall valid_write t.
Proof.
  intros Ht Hb Hr. destruct Hr as [t o Hs Hr|t o Hs Hr|e a Hs].
  - by eapply poll_writes.
  - apply Forall_cons in Ht as [_ Ht]. constructor; [done|]. by eapply poll_writes.
  - each_event; [done|]. cbn [valid_write]. room.
Qed.

Lemma check_writes b t o :
  Forall server_ok t → room (Status b) → check_run r b t o → Forall valid_write t.
Proof.
  intros Ht Hb Hr. destruct Hr as [err a Hv|t o Hv Hn Hr|b1 t o Hv Hn Hr|e Hv Hn].
  - each_event; cbn [valid_write]; room.
  - by eapply account_writes.
  - apply Forall_cons in Ht as [[_ Es] Ht]. constructor; [cbn [valid_write]; room|].
    eapply account_writes; [done| |exact Hr]. rewrite Es. room.
  - each_event; cbn [valid_write]; room.
Qed.

(** ** How a reconciliation ends *)

(** The event is a failed call whose error Reconcile reports. *)
Definition failed_with (ev : event) (e : error) : Prop :=
  match ev with
  | Ev (GetBundle _) (Err e') | Ev (GetJob _) (Err e') => e' = e ∧ IsNotFound e = false
  | Ev (UpdateBundle _) (Err e') | Ev (StatusUpdate _) (Err e') => e' = e
  | _ => False
  end.

(** [res] and [err] are what the trace says: an error is that of the last call,
    and asks for no delay of its own; no error means the last call did not fail. *)
Definition reports (t : list event) (o : final) : Prop :=
  match o with
  | Done (res, Some e) => RequeueAfter res = 0 ∧ ∃ ev, last t = Some ev ∧ failed_with ev e
  | Done (res, None) => ∀ ev e, last t = Some ev → ¬ failed_with ev e
  | Panicked _ => True
  end.

(** The one exception: the status could not be set to Failed after the service
    account was not found. *)
Definition swallowed (t : list event) : Prop :=
  ∃ pre k e b e', t = pre ++ [Ev (GetServiceAccount k) (Err e); Ev (StatusUpdate b) (Err e')].

Definition harmless (ev : event) : Prop := ∀ e, ¬ failed_with ev e.

Lemma reports_app pre t o :
  Forall harmless pre → reports t o → reports (pre ++ t) o.
Proof.
  intros Hp. unfold reports. rewrite last_app. destruct o as [[res [e|]]|m]; [..|done].
  - intros (Hr & ev & -> & Hf). split; [done|]. by exists ev.
  - intros Ht ev e. destruct (last t) as [ev'|] eqn:El; [by apply Ht|].
    intros Hl. apply last_Some_elem_of in Hl. rewrite Forall_forall in Hp. by apply Hp.
Qed.

Lemma reports_cons ev t o : harmless ev → reports t o → reports (ev :: t) o.
Proof. intros He. apply (reports_app [ev]). by each_event. Qed.

Lemma reports_ends pre b (a : result WerfBundle) d :
  reports (pre ++ [Ev (StatusUpdate b) a]) (ends a ({| RequeueAfter := d |}, None)).
Proof.
  unfold reports. rewrite last_snoc. destruct a as [b'|e]; cbn.
  - intros ev e [= <-] [].
  - split; [done|]. by eexists.
Qed.

Lemma capture_harmless b job t o : exec (capture_logs r b job) t o → Forall harmless t.
Proof.
  intros He. eapply Forall_impl; [eapply calls_exec; [apply calls_capture_logs|exact He]|].
  intros [[] a] Hc e Hf; first [exact Hf | destruct Hc].
Qed.

Lemma build_harmless b tag t o : exec (Build (builder_for r b) tag) t o → Forall harmless t.
Proof.
  intros He. eapply Forall_impl; [eapply calls_exec; [apply calls_builder|exact He]|].
  intros [[] a] Hc e Hf; first [exact Hf | destruct Hc].
Qed.

Lemma listing_harmless b t o : exec (listing r b) t o → Forall harmless t.
Proof.
  intros He. eapply Forall_impl; [exact (calls_exec _ _ _ _ (listing_calls r b) He)|].
  intros [[] a] Hc e Hf; first [exact Hf | destruct Hc].
Qed.

Lemma jitter_reports interval t o : jitter_run interval t o → reports t o.
Proof.
  intros Hr. assert (Forall harmless t) as Ht by (eapply jitter_calls; [|exact Hr]; intros n a e []).
  destruct Hr as [tj d He|tj m He]; [|done]. intros ev e Hl.
  apply last_Some_elem_of in Hl. rewrite Forall_forall in Ht. by apply Ht.
Qed.

Lemma monitor_reports b job tag t o : monitor_run r b job tag t o → reports t o.
Proof.
  intros [Hs Hf|tl b' now a Hs He|tl b' a Hs Hf He]; [done|..].
  - apply (reports_app tl); [by eapply capture_harmless|]. apply (reports_ends [_]).
  - apply (reports_app tl); [by eapply capture_harmless|]. apply (reports_ends []).
Qed.

Lemma create_reports b tag t o : create_run r b tag t o → reports t o.
Proof.
  intros [e|b1 tb m He|b1 tb e a He|b1 tb job e a He|b1 tb job job' a He]; [|done|..].
  - split; [done|]. by eexists.
  - apply reports_cons; [intros e' []|]. apply reports_app; [by eapply build_harmless|].
    apply (reports_ends []).
  - apply reports_cons; [intros e' []|]. apply reports_app; [by eapply build_harmless|].
    apply (reports_ends [_]).
  - apply reports_cons; [intros e' []|]. apply reports_app; [by eapply build_harmless|].
    apply (reports_ends [_]).
Qed.

Lemma ensure_reports b tag t o : ensure_run r b tag t o → reports t o.
Proof.
  intros [t' o' Ha Hr|e t' o' Ha He Hr|e Ha He|job t' o' Ha Hr].
  - by eapply create_reports.
  - apply reports_cons; [|by eapply create_reports]. intros e' [-> He']. congruence.
  - split; [done|]. by eexists.
  - apply reports_cons; [intros e []|]. by eapply monitor_reports.
Qed.

Lemma poll_reports b t o : poll_run r b t o → reports t o.
Proof.
  intros [th m He|th tags etag e t' o' He Hr|th etag t' o' He Hp1 Hp2 Hr|th etag b1 t' o' He Hp Hr
    |th etag e He Hp|th tags etag He Hl Hp|th tags etag now a He Hl Hp|th tags etag tag t' o' He Hl Hn Hr];
    pose proof (listing_harmless _ _ _ He) as Hth; try done;
    try (apply reports_app; [done|]).
  - destruct Hr as [t'' o'' Hm Hr|now a Hm Hn|now a n Hm Hn Hle]; [by eapply jitter_reports|..];
      apply (reports_ends [_]).
  - by eapply jitter_reports.
  - apply reports_cons; [intros e []|]. by eapply jitter_reports.
  - split; [done|]. by eexists.
  - rewrite <- (app_nil_r th). apply reports_app; [done|]. by intros ev e.
  - apply (reports_ends [_]).
  - by eapply ensure_reports.
Qed.

Lemma account_reports b t o : account_run r b t o → reports t o ∨ o = Done stop ∧ swallowed t.
Proof.
  intros [t' o' Hs Hr|t' o' Hs Hr|e [b'|e'] Hs].
  - left. by eapply poll_reports.
  - left. apply reports_cons; [intros e []|]. by eapply poll_reports.
  - left. intros ev e' [= <-] [].
  - right. split; [done|]. by eexists [], _, _, _, _.
Qed.

Lemma check_reports b t o : check_run r b t o → reports t o ∨ o = Done stop ∧ swallowed t.
Proof.
  intros [err a Hv|t' o' Hv Hn Hr|b1 t' o' Hv Hn Hr|e Hv Hn].
  - left. apply (reports_ends []).
  - by eapply account_reports.
  - destruct (account_reports _ _ _ Hr) as [Hp|(-> & pre & k & e & b' & e' & ->)].
    + left. apply reports_cons; [intros e [] | done].
    + right. split; [done|]. by eexists (_ :: pre), k, e, b', e'.
  - left. split; [done|]. by eexists.
Qed.

Lemma read_reports b t o : read_run r b t o → reports t o ∨ o = Done stop ∧ swallowed t.
Proof.
  intros [d Hd Hf|d [b'|e'] Hd Hf|t' o' Hd Hf Hr|b1 t' o' Hd Hf Hr|e Hd Hf].
  - by left.
  - left. intros ev e' [= <-] [].
  - left. split; [done|]. by eexists.
  - by eapply check_reports.
  - destruct (check_reports _ _ _ Hr) as [Hp|(-> & pre & k & e & b' & e' & ->)].
    + left. apply reports_cons; [intros e [] | done].
    + right. split; [done|]. by eexists (_ :: pre), k, e, b', e'.
  - left. split; [done|]. by eexists.
Qed.

(** ** Properties *)

(** C24 Errors.  Reconcile returns an error exactly when its last call failed: a
    read of the bundle or the active job other than "not found", or a write of
    the bundle or its status; the error is that call's, and nothing is done after
    it.  One failure is not reported: the status write after a service account
    that was not found. *)
Theorem Reconcile_errors req t o :
  exec (Reconcile r req) t o →
  reports t o ∨ (o = Done stop ∧ swallowed t).
Proof.
  intros He. apply Reconcile_run in He. destruct He as [e He|e He|b t o Hr].
  - left. intros ev e' [= <-] [-> He']. congruence.
  - left. split; [done|]. by eexists.
  - destruct (read_reports _ _ _ Hr) as [Hp|(-> & pre & k & e & b' & e' & ->)].
    + left. apply reports_cons; [intros e [] | done].
    + right. split; [done|]. by eexists (_ :: pre), k, e, b', e'.
Qed.

(** C35 The finalizer.  A bundle being deleted is only ever released: its
    finalizer, if there, is removed and nothing else is called.  A live bundle
    without the finalizer gets it before anything else is done; if that write
    fails nothing else is called. *)
Theorem Reconcile_finalizer req b t o :
  exec (Reconcile r req) (Ev (GetBundle req) (Ok b) :: t) o →
  (DeletionTimestamp (Meta b) ≠ None →
     (ContainsFinalizer b finalizerName = false ∧ t = [] ∧ o = Done stop) ∨
     (∃ b' (a : result WerfBundle), t = [Ev (UpdateBundle b') a] ∧ o = ends a stop ∧
        same_object b b' ∧ ContainsFinalizer b' finalizerName = false)) ∧
  (DeletionTimestamp (Meta b) = None → ContainsFinalizer b finalizerName = false →
     ∃ b' (a : result WerfBundle) t', t = Ev (UpdateBundle b') a :: t' ∧
       same_object b b' ∧ ContainsFinalizer b' finalizerName = true ∧
       match a with Err e => t' = [] ∧ o = Done (fail e) | Ok _ => True end).
Proof.
  intros He. apply Reconcile_read in He.
  destruct He as [d Hd Hf|d a Hd Hf|t o Hd Hf Hr|b1 t o Hd Hf Hr|e Hd Hf]; split; try congruence.
  - intros _. by left.
  - intros _. right. pose proof (RemoveFinalizer_same b finalizerName) as (Hs & _ & Hc).
    by eexists _, _.
  - intros _ _. pose proof (AddFinalizer_same b finalizerName) as (Hs & _ & Hc).
    by eexists _, (Ok b1), t.
  - intros _ _. pose proof (AddFinalizer_same b finalizerName) as (Hs & _ & Hc).
    by eexists _, (Err e), [].
Qed.

(** Cross-namespace deployments.  A live bundle that targets another namespace
    and names no service account is marked Failed, with both namespaces in the
    message, and that is all: no lookup, no poll, no job, no requeue. *)
Theorem Reconcile_cross_namespace req b t o :
  exec (Reconcile r req) (Ev (GetBundle req) (Ok b) :: t) o →
  DeletionTimestamp (Meta b) = None → ContainsFinalizer b finalizerName = true →
  cross_namespace b → ServiceAccountName (Converge (Spec b)) = EmptyString →
  ∃ b' (a : result WerfBundle), t = [Ev (StatusUpdate b') a] ∧ o = ends a stop ∧
    same_object b b' ∧ Phase (Status b') = PhaseFailed ∧
    LastAppliedTag (Status b') = LastAppliedTag (Status b) ∧
    LastErrorMessage (Status b') =
      "serviceAccountName is required for cross-namespace deployment from "
        +:+ Namespace (Meta b) +:+ " to " +:+ target_of b.
Proof.
  intros He Hd Hf Hc Hsa. apply Reconcile_read in He.
  destruct (ValidateCrossNamespaceDeployment b) as [err|] eqn:Ev;
    [|by destruct (proj1 (validate_cross_namespace_none b) Ev Hc)].
  assert (check_run r b t o) as Hr by (destruct He; congruence).
  destruct Hr as [err' a Hv|t o Hv Hn Hr|b1 t o Hv Hn Hr|e Hv Hn]; try congruence.
  eexists _, a. split; [done|]. split; [done|]. split; [done|]. split; [done|]. split; [done|].
  unfold ValidateCrossNamespaceDeployment, target_of, GetTargetNamespace in *.
  repeat case_decide; simplify_eq/=; congruence.
Qed.

(** C23 The schema of the status.  Every status Reconcile writes is one the CRD
    accepts, if the status it read is, with at most five failures counted. *)
Theorem Reconcile_status_valid req b t o :
  exec (Reconcile r req) (Ev (GetBundle req) (Ok b) :: t) o →
  Forall server_ok (Ev (GetBundle req) (Ok b) :: t) →
  status_valid (Status b) = true → ConsecutiveFailures (Status b) <= 5 →
  Forall valid_write t.
Proof.
  intros He Ht Hv Hc. assert (room (Status b)) as Hb by done. apply Reconcile_read in He.
  apply Forall_cons in Ht as [_ Ht].
  destruct He as [d Hd Hf|d a Hd Hf|t o Hd Hf Hr|b1 t o Hd Hf Hr|e Hd Hf]; [by each_event..| | |by each_event].
  - by eapply check_writes.
  - apply Forall_cons in Ht as [[_ Es] Ht]. constructor; [done|].
    eapply check_writes; [done| |done]. rewrite Es.
    by rewrite (proj1 (proj2 (AddFinalizer_same b finalizerName))).
Qed.

End Lifecycle.

(** ** Witnesses *)

#[local] Existing Instance sample_machinery.
#[local] Existing Instance sample_machinery_ok.
#[local] Existing Instance sample_lib.
#[local] Existing Instance sample_contract.

Lemma Reconcile_errors_witness :
  reports (reconciliation sample_bundle 200 "v1.0.0" None).1
    (reconciliation sample_bundle 200 "v1.0.0" None).2.
Proof.
  destruct (Reconcile_errors sample_reconciler sample_request _ _
    (reconciliation_exec sample_bundle 200 "v1.0.0" None)) as [Hr|[Eo _]]; [exact Hr|].
  vm_compute in Eo. discriminate Eo.
Defined.

Definition deleted_bundle : WerfBundle :=
  {| Meta := {| Name := "my-app"; Namespace := "default"; UID := "uid-1"; ResourceVersion := EmptyString; Labels := ∅;
                Finalizers := [finalizerName]; DeletionTimestamp := Some 1700000000;
                OwnerReferences := [] |};
     Spec := sample_spec; Status := zero_status |}.

Lemma Reconcile_finalizer_witness :
  ∃ b' (a : result WerfBundle),
    tail (reconciliation deleted_bundle 200 "v1.0.0" None).1 = [Ev (UpdateBundle b') a] ∧
    ContainsFinalizer b' finalizerName = false.
Proof.
  destruct (Reconcile_finalizer sample_reconciler sample_request deleted_bundle _ _
    (reconciliation_read_exec deleted_bundle 200 "v1.0.0" None eq_refl eq_refl)) as [Hd _].
  destruct Hd as [(Hf & _)|(b' & a & E & _ & _ & Hf)]; [discriminate|discriminate Hf|].
  by exists b', a.
Defined.

Definition cross_bundle : WerfBundle :=
  {| Meta := sample_meta;
     Spec := {| Registry := Registry sample_spec;
                Converge := {| ServiceAccountName := EmptyString; TargetNamespace := "prod";
                               ResourceLimits := None; LogRetentionDays := None; ValuesFrom := [] |} |};
     Status := zero_status |}.

Lemma Reconcile_cross_namespace_witness :
  ∃ b' (a : result WerfBundle),
    tail (reconciliation cross_bundle 200 "v1.0.0" None).1 = [Ev (StatusUpdate b') a] ∧
    Phase (Status b') = PhaseFailed.
Proof.
  destruct (Reconcile_cross_namespace sample_reconciler sample_request cross_bundle _ _
    (reconciliation_read_exec cross_bundle 200 "v1.0.0" None eq_refl eq_refl))
    as (b' & a & E & _ & _ & Hp & _); try reflexivity; [discriminate|]. by exists b', a.
Defined.

Lemma Reconcile_status_valid_witness :
  Forall valid_write (tail (reconciliation sample_bundle 500 EmptyString None).1).
Proof.
  apply (Reconcile_status_valid sample_reconciler sample_request sample_bundle _
    (reconciliation sample_bundle 500 EmptyString None).2).
  - by apply reconciliation_read_exec.
  - by apply reconciliation_read_ok.
  - reflexivity.
  - vm_compute. discriminate.
Defined.
