(* ===== verification/Policy.v ===== *)
(** * The policies of the reconciler

    The retry policy, the delays, the causes of a panic, the end of a job, and
    what the phase Synced says. *)
From S2P Require Import Prelude GoErrors Prog Api Kube Duration Backoff Values Yaml Fetch JobBuilder Logs Rbac Registry Controller Runs Server Safety Listing Lifecycle Samples Scenarios.

Section Policy.
Context `{Machinery} `{!MachineryOk} `{RegistryLib} (r : WerfBundleReconciler)
  `{!RegistryContract (r_RegistryClient r)}.

Abbreviation final := (outcome (Result * option error)).

Lemma server_go e : server_ok e → go_ok e.
Proof. destruct e as [c a]; destruct c; try done; by destruct a. Qed.

(** ** Delays *)

(** What a jittered requeue can be. *)
Definition jittered (interval d : Z) : Prop :=
  (interval <= 0 ∧ d = interval) ∨
  (10 <= interval ∧ (interval < 2 ^ 62 →
     interval - interval / 10 <= d < interval + interval / 10)).

Lemma jitter_jittered b t res err :
  Forall server_ok t → jitter_run (poll_interval b) t (Done (res, err)) →
  err = None ∧ jittered (poll_interval b) (RequeueAfter res).
Proof.
  intros Ht Hr. remember (Done (res, err)) as o eqn:Eo.
  destruct Hr as [tj d He|tj m He]; [|done]. injection Eo as <- <-. split; [done|]. cbn.
  assert (Forall go_ok tj) as Hg by (eapply Forall_impl; [exact Ht | apply server_go]).
  destruct (wp_any _ _ _ _ (wp_AddJitter_all _ (poll_interval_range b)) He)
    as [(Hi & _ & [= ->])|[(_ & _ & ?)|[Hi _]]]; [by left|done|].
  right. split; [done|]. intros Hb.
  assert (poll_interval b + poll_interval b / 10 < 2 ^ 63) as Hb'.
  { assert (poll_interval b / 10 <= poll_interval b) by (apply Z.div_le_upper_bound; lia). lia. }
  destruct (wp_exec _ _ _ _ _ (wp_AddJitter _ Hi Hb') He Hg) as (_ & d' & [= <-] & Hd). done.
Qed.

(** ** Panics *)

Lemma jitter_panics b t m :
  jitter_run (poll_interval b) t (Panicked m) → 1 <= poll_interval b < 10.
Proof.
  intros Hr. remember (Panicked m) as o eqn:Eo. destruct Hr as [tj d He|tj m' He]; [done|].
  by destruct (wp_any _ _ _ _ (wp_AddJitter_all _ (poll_interval_range b)) He)
    as [(_ & _ & ?)|[(? & _ & _)|(_ & n & _ & ?)]].
Qed.

(** The job of [b] for [tag] cannot be built: the hash of the tag has fewer than
    eight digits, or a resource limit is no quantity. *)
Definition unbuildable (b : WerfBundle) (tag : string) : Prop :=
  fnv32a tag < 2 ^ 28 ∨
  ∃ e, ParseQuantity (limit_of CPU "1" b) = Err e ∨ ParseQuantity (limit_of Memory "1Gi" b) = Err e.

(** The listing found nothing to do. *)
Definition nothing_new (o : listing_result) : Prop :=
  (∃ etag, o = Done ([], etag, None)) ∨
  ∃ tags etag e, o = Done (tags, etag, Some e) ∧ As_NotModified e = true.

(** The causes of a panic in the calls [t] that follow the read of [b]. *)
Definition panic_cause (b : WerfBundle) (t : list event) : Prop :=
  (1 <= poll_interval b < 10 ∧ ∃ lo, listing_in r b t lo ∧ nothing_new lo) ∨
  ∃ tag, new_tag r b t tag ∧ unbuildable b tag.

Lemma unbuildable_same b b' tag : same_object b b' → unbuildable b' tag → unbuildable b tag.
Proof.
  intros (_ & _ & _ & Es). unfold unbuildable, limit_of. by rewrite Es.
Qed.

Lemma panic_cause_like b b1 pre t :
  same_object b b1 → LastAppliedTag (Status b1) = LastAppliedTag (Status b) →
  LastETag (Status b1) = LastETag (Status b) → Forall offline pre →
  panic_cause b1 t → panic_cause b (pre ++ t).
Proof.
  intros Hs Ea Ee Hp. pose proof (listing_same r b b1 Hs Ee) as El.
  intros [[Hi (lo & Hl & Hlo)]|(tag & (tags & etag & Hl & Hlast & Hmax & Hne) & Hb)].
  - left. rewrite <- (same_object_interval _ _ Hs). split; [done|]. exists lo.
    split; [|done]. by apply (listing_in_app r b b1 pre t lo El Hp).
  - right. exists tag. split; [|by eapply unbuildable_same]. exists tags, etag.
    split; [by apply (listing_in_app r b b1 pre t _ El Hp)|]. by rewrite Ea in Hne.
Qed.

Lemma build_panics b tag t m :
  exec (Build (builder_for r b) tag) t (Panicked m) →
  unbuildable b tag.
Proof.
  intros He. destruct (Z.lt_ge_cases (fnv32a tag) (2 ^ 28)) as [|Hh]; [by left|]. right.
  destruct (ParseQuantity (limit_of CPU "1" b)) as [qc|e] eqn:Ec; [|exists e; by left].
  destruct (ParseQuantity (limit_of Memory "1Gi" b)) as [qm|e] eqn:Em; [|exists e; by right].
  assert (no_panic (Build (builder_for r b) tag)) as Hn.
  { apply no_panic_Build; [done| |].
    - intros b' ty [= <-] Hty. rewrite elem_of_cons, list_elem_of_singleton in Hty.
      destruct Hty as [->| ->]; rewrite ?resource_value_cpu, ?resource_value_memory; by eexists.
    - intros rv s n t' [= <-]. apply no_panic_ResolveValues. }
  by destruct (wp_any _ _ _ _ Hn He).
Qed.

Lemma create_panics b tag t m :
  Forall server_ok t → create_run r b tag t (Panicked m) → unbuildable b tag.
Proof.
  intros Ht Hr. remember (Panicked m) as o eqn:Eo.
  destruct Hr as [e|b1 tb m' He|b1 tb e [b'|e'] He|b1 tb job e [b'|e'] He|b1 tb job job' [b'|e'] He];
    try done. apply Forall_cons in Ht as [[Hb _] _].
  eapply (unbuildable_same _ b1); [exact Hb|by eapply build_panics].
Qed.

Lemma ensure_panics b tag t m :
  Forall server_ok t → ensure_run r b tag t (Panicked m) → unbuildable b tag.
Proof.
  intros Ht Hr. remember (Panicked m) as o eqn:Eo.
  destruct Hr as [t o Ha Hr|e t o Ha He Hr|e Ha He|job t o Ha Hr]; subst; [| |done|].
  - by eapply create_panics.
  - apply Forall_cons in Ht as [_ Ht]. by apply (create_panics _ _ _ _ Ht) in Hr.
  - remember (Panicked m) as o eqn:Eo.
    by destruct Hr as [Hs Hf|tl b' now [b2|e] Hs He|tl b' [b2|e] Hs Hf He].
Qed.

Lemma poll_panics b t m :
  Forall server_ok t → poll_run r b t (Panicked m) → panic_cause b t.
Proof.
  intros Ht Hr. remember (Panicked m) as o eqn:Eo.
  destruct Hr as [th m' He|th tags etag e t o He Hr|th etag t o He Hp1 Hp2 Hr|th etag b1 t o He Hp Hr
    |th etag e He Hp|th tags etag He Hl Hp|th tags etag now [b'|e] He Hl Hp|th tags etag tag t o He Hl Hn Hr];
    subst; try done; try (apply Forall_app in Ht as [_ Ht]).
  - destruct (listing_done _ _ _ _ He) as (? & ? & ? & ? & _). done.
  - remember (Panicked m) as o eqn:Eo.
    destruct Hr as [t o Hm Hr|now [b'|e'] Hm Hn|now [b'|e'] n Hm Hn Hle]; try done.
    subst. left. split; [by eapply jitter_panics|]. eexists. split; [by apply listing_in_here|].
    right. by eexists _, _, _.
  - left. split; [by eapply jitter_panics|]. eexists. split; [by apply listing_in_here|]. left. by eexists.
  - left. split; [by eapply jitter_panics|]. eexists. split; [by apply listing_in_here|]. left. by eexists.
  - right. exists tag. split; [by eapply new_tag_here|]. by apply ensure_panics in Hr.
Qed.

(** Whatever panics, panics in the poll. *)
Lemma account_panics b t m :
  Forall server_ok t → account_run r b t (Panicked m) → panic_cause b t.
Proof.
  intros Ht Ha. remember (Panicked m) as o eqn:Eo.
  destruct Ha as [t o Hs Ha|t o Hs Ha|e a Hs]; subst; [by eapply poll_panics| |done].
  apply Forall_cons in Ht as [_ Ht]. apply poll_panics in Ha; [|done].
  by apply (panic_cause_like b b [_] t); [| | |each_event|].
Qed.

Lemma check_panics b t m :
  Forall server_ok t → check_run r b t (Panicked m) → panic_cause b t.
Proof.
  intros Ht Hr. remember (Panicked m) as o eqn:Eo.
  destruct Hr as [err [b'|e] Hv|t o Hv Hn Hr|b1 t o Hv Hn Hr|e Hv Hn]; try done; subst.
  - by eapply account_panics.
  - apply Forall_cons in Ht as [[Hb Es] Ht].
    apply (panic_cause_like b b1 [_] t); [exact Hb|by rewrite Es..|by each_event|by eapply account_panics].
Qed.

Lemma read_panics b t m :
  Forall server_ok t → read_run r b t (Panicked m) → panic_cause b t.
Proof.
  intros Ht Hr. remember (Panicked m) as o eqn:Eo.
  destruct Hr as [d Hd Hf|d [b'|e'] Hd Hf|t o Hd Hf Hr|b1 t o Hd Hf Hr|e Hd Hf]; try done; subst o.
  - by eapply check_panics.
  - apply Forall_cons in Ht as [[Hb Es] Ht].
    destruct (AddFinalizer_same b finalizerName) as (Hb0 & Es0 & _).
    apply (panic_cause_like b b1 [_] t); [by etransitivity|congruence..|by each_event|by eapply check_panics].
Qed.

(** One registry error, handled: the calls, what is written, how it ends. *)
Definition handled (b : WerfBundle) (e : error) (now : Z) (b' : WerfBundle) (a : result WerfBundle)
    (o : final) : Prop :=
  let n := ConsecutiveFailures (Status b) + 1 in
  same_object b b' ∧ ConsecutiveFailures (Status b') = n ∧ LastErrorTime (Status b') = Some now ∧
  if n <=? maxConsecutiveFailures then
    o = ends a (requeue (backoff_spec n)) ∧ Phase (Status b') = PhaseSyncing ∧
    LastAppliedTag (Status b') = retry_message n e ∧ LastErrorMessage (Status b') = EmptyString
  else
    o = ends a stop ∧ Phase (Status b') = PhaseFailed ∧
    LastAppliedTag (Status b') = LastAppliedTag (Status b) ∧
    LastErrorMessage (Status b') = give_up_message e.

Lemma error_handled b e interval t o :
  exec (handleRegistryError r b e interval) t o → room (Status b) → As_NotModified e = false →
  ∃ now b' (a : result WerfBundle),
    t = [Ev TimeNow now; Ev (StatusUpdate b') a] ∧ handled b e now b' a o.
Proof.
  intros He Hb Hm. pose proof (int32_failures _ Hb) as Hi.
  destruct Hb as [Hv Hle]. apply status_valid_spec in Hv as (_ & _ & Hc).
  unfold handled.
  destruct (wp_any _ _ _ _ (error_runs r b e interval) He)
    as [t o Hm' Hr|now a Hm' Hn|now a n Hm' -> Hn]; [congruence|..]; rewrite Hi in Hn;
    exists now; eexists; exists a; (split; [done|]); (split; [done|]).
  - destruct (Z.leb_spec (ConsecutiveFailures (Status b) + 1) maxConsecutiveFailures); [lia|].
    cbn. by rewrite Hi.
  - destruct (Z.leb_spec (ConsecutiveFailures (Status b) + 1) maxConsecutiveFailures); [|lia].
    rewrite Hi. unfold maxConsecutiveFailures in *. rewrite CalculateBackoff_spec by lia. cbn. by rewrite Hi.
Qed.

(** A retried error, in the terms of the code. *)
Lemma retried b e interval t o :
  exec (handleRegistryError r b e interval) t o → room (Status b) → As_NotModified e = false →
  ConsecutiveFailures (Status b) < maxConsecutiveFailures →
  ∃ now (a : result WerfBundle), t = [Ev TimeNow now;
    Ev (StatusUpdate (on_Status (syncing (retry_message (ConsecutiveFailures (Status b) + 1) e)) (counted now b))) a].
Proof.
  intros He Hb Hm Hc. pose proof (int32_failures _ Hb) as Hi.
  destruct (wp_any _ _ _ _ (error_runs r b e interval) He)
    as [t o Hm' Hr|now a Hm' Hn|now a n Hm' -> Hn]; [congruence|lia|]. rewrite Hi. by exists now, a.
Qed.

(** The write that follows a call is known by the trace. *)
Definition second_write (t : list event) : option (WerfBundle * result WerfBundle) :=
  match t with
  | [_; Ev (StatusUpdate b) a] => Some (b, a)
  | _ => None
  end.

(** A run of registry errors: each is handled, its write accepted, and the next
    reconciliation sees the status the previous one wrote. *)
Inductive outage : WerfBundle → list Result → WerfBundle → Prop :=
| outage_over b : outage b [] b
| outage_error b e interval now b' b1 res rs b2 :
    As_NotModified e = false →
    exec (handleRegistryError r b e interval)
      [Ev TimeNow now; Ev (StatusUpdate b') (Ok b1)] (Done (res, None)) →
    Status b1 = Status b' → outage b1 rs b2 → outage b (res :: rs) b2.

(** The delays between the polls, from the first failure to the sixth. *)
Definition schedule : list Z := [1 * Minute; 2 * Minute; 4 * Minute; 8 * Minute; 8 * Minute; 0].

(** The phase after the [n]-th failure. *)
Definition phase_after (n : Z) : string :=
  if n <=? maxConsecutiveFailures then PhaseSyncing else PhaseFailed.

(** One accepted error. *)
Lemma outage_step b e interval now b' b1 res n :
  As_NotModified e = false →
  exec (handleRegistryError r b e interval)
    [Ev TimeNow now; Ev (StatusUpdate b') (Ok b1)] (Done (res, None)) →
  Status b1 = Status b' → room (Status b) → ConsecutiveFailures (Status b) + 1 = n →
  ConsecutiveFailures (Status b1) = n ∧ Phase (Status b1) = phase_after n ∧
  status_valid (Status b1) = true ∧
  RequeueAfter res = (if n <=? maxConsecutiveFailures then backoff_spec n else 0).
Proof.
  intros Hm He Es Hb En.
  pose proof (error_writes b e interval _ _ Hb (wp_any _ _ _ _ (error_runs r b e interval) He)) as Hw.
  apply Forall_cons in Hw as [_ Hw]. apply Forall_cons in Hw as [Hw _].
  destruct (error_handled _ _ _ _ _ He Hb Hm) as (now' & b0 & a0 & Et & _ & Hc & _ & Hh).
  apply (f_equal second_write) in Et. injection Et as <- <-. rewrite Es. rewrite En in *.
  unfold phase_after. destruct (n <=? maxConsecutiveFailures);
    destruct Hh as (Ho & Hp & _); injection Ho as ->; done.
Qed.

(** The schedule from the [k]-th failure on. *)
Lemma outage_from b rs b' k :
  outage b rs b' → status_valid (Status b) = true →
  ConsecutiveFailures (Status b) = Z.of_nat k → (length rs + k <= 6)%nat →
  RequeueAfter <$> rs = take (length rs) (drop k schedule) ∧
  ConsecutiveFailures (Status b') = Z.of_nat (length rs + k) ∧ status_valid (Status b') = true ∧
  (rs ≠ [] → Phase (Status b') = phase_after (Z.of_nat (length rs + k))).
Proof.
  intros Ho. revert k. induction Ho as [b|b e interval now b' b1 res rs b2 Hm He Es Ho IH];
    intros k Hv Hc Hl; [done|]. cbn [length] in Hl.
  assert (room (Status b)) as Hb by (split; [done|lia]).
  destruct (outage_step _ _ _ _ _ _ _ (Z.of_nat (S k)) Hm He Es Hb ltac:(lia)) as (Hc1 & Hp1 & Hv1 & Hd).
  destruct (IH (S k) Hv1 Hc1 ltac:(lia)) as (E1 & E2 & E3 & E4).
  replace (length rs + S k)%nat with (length (res :: rs) + k)%nat in * by (cbn; lia).
  split; [|split; [done|split; [done|]]].
  - cbn [fmap list_fmap length]. rewrite E1, Hd.
    assert (k < 6)%nat as Hk by lia. clear - Hk.
    do 6 (destruct k as [|k]; [reflexivity|]). lia.
  - intros _. destruct rs as [|res' rs]; [|by apply E4].
    inversion Ho; subst. rewrite Hp1. done.
Qed.

(** ** Properties *)

(** C25 The causes of a panic.  If a reconciliation panics, it has read a bundle
    and listed its registry; and either the poll interval is 1 to 9 nanoseconds and
    the listing was empty or answered "not modified", or its greatest tag is not the
    one last applied and cannot be deployed, because the hash of that tag has fewer
    than eight digits or a resource limit is no quantity.  Nothing else makes
    Reconcile panic, whatever the API server, the registry and the pods answer. *)
Theorem Reconcile_panics req t m :
  exec (Reconcile r req) t (Panicked m) → Forall server_ok t →
  ∃ b t', t = Ev (GetBundle req) (Ok b) :: t' ∧ panic_cause b t'.
Proof.
  intros He Ht. apply Reconcile_run in He. remember (Panicked m) as o eqn:Eo.
  destruct He as [e He|e He|b t o Hr]; [done..|]. exists b, t. split; [done|].
  apply Forall_cons in Ht as [_ Ht]. subst o. by eapply read_panics.
Qed.


(** The counter's bound is one short.  A bundle that is already Failed with
    six failures and polled again writes a count of seven on a further error,
    which the CRD's maximum of six rejects. *)
Theorem seventh_failure_invalid b e interval t o :
  exec (handleRegistryError r b e interval) t o →
  As_NotModified e = false → ConsecutiveFailures (Status b) = 6 →
  ∃ now b' (a : result WerfBundle), t = [Ev TimeNow now; Ev (StatusUpdate b') a] ∧
    o = ends a stop ∧ ConsecutiveFailures (Status b') = 7 ∧ status_valid (Status b') = false.
Proof.
  intros He Hm Hc.
  destruct (wp_any _ _ _ _ (error_runs r b e interval) He)
    as [t o Hm' Hr|now a Hm' Hn|now a n Hm' -> Hn]; [congruence| |by rewrite Hc in Hn].
  exists now; eexists; exists a. split; [done|]. split; [done|].
  set (b' := on_Status _ _).
  assert (ConsecutiveFailures (Status b') = 7) as E7.
  { change (int32 (ConsecutiveFailures (Status b) + 1) = 7). by rewrite Hc. }
  split; [exact E7|]. unfold status_valid. rewrite E7. by rewrite andb_false_r.
Qed.


End Policy.

(** ** Witnesses *)

#[local] Existing Instance sample_machinery.
#[local] Existing Instance sample_machinery_ok.
#[local] Existing Instance sample_lib.
#[local] Existing Instance sample_contract.

(** v2.2.0 hashes to seven hexadecimal digits. *)
Definition short_hash : list event * outcome (Result * option error) :=
  reconciliation sample_bundle 200 "v2.2.0" None.

Definition panic_message (o : outcome (Result * option error)) : string :=
  match o with Panicked m => m | Done _ => EmptyString end.

Lemma short_hash_panics : short_hash.2 = Panicked (panic_message short_hash.2).
Proof. vm_compute. reflexivity. Qed.

Lemma Reconcile_panics_witness :
  ∃ b t', short_hash.1 = Ev (GetBundle sample_request) (Ok b) :: t' ∧ panic_cause sample_reconciler b t'.
Proof.
  apply (Reconcile_panics sample_reconciler sample_request short_hash.1 (panic_message short_hash.2)).
  - rewrite <- short_hash_panics. apply reconciliation_exec.
  - apply reconciliation_ok.
Defined.

Definition one_error (b : WerfBundle) : list event * outcome (Result * option error) :=
  run_with sample_answers (handleRegistryError sample_reconciler b server_error (15 * Minute)).

Lemma one_error_exec b :
  exec (handleRegistryError sample_reconciler b server_error (15 * Minute)) (one_error b).1 (one_error b).2.
Proof. apply run_with_exec. Qed.


Lemma seventh_failure_invalid_witness :
  ∃ now b' (a : result WerfBundle),
    (one_error (bundle_with (set_ConsecutiveFailures 6))).1 = [Ev TimeNow now; Ev (StatusUpdate b') a] ∧
    status_valid (Status b') = false.
Proof.
  destruct (seventh_failure_invalid sample_reconciler (bundle_with (set_ConsecutiveFailures 6))
    server_error (15 * Minute) _ _ (one_error_exec _)) as (now & b' & a & E & _ & _ & Hv); [done..|].
  by exists now, b', a.
Defined.

(** One failure, accepted. *)
Definition after_one : WerfBundle :=
  on_Status (syncing (retry_message 1 server_error)) (counted 1700000000 sample_bundle).

