(* ===== verification/Jobs.v ===== *)
(** * Delays, the end of a job, and the phase Synced *)
From S2P Require Import Prelude GoErrors Prog Api Kube Duration Backoff Values Yaml Fetch JobBuilder Logs Rbac Registry Controller Runs Server Safety Listing Lifecycle Policy Samples Scenarios.

Section Jobs.
Context `{Machinery} `{!MachineryOk} `{RegistryLib} (r : WerfBundleReconciler)
  `{!RegistryContract (r_RegistryClient r)}.

Abbreviation final := (outcome (Result * option error)).

(** ** Requeue delays *)

(** The delays a reconciliation of [b] can ask for; 0 is "none". *)
Definition delay_ok (b : WerfBundle) (d : Z) : Prop :=
  d = 0 ∨ d = jobRecheck ∨ (∃ n, 1 <= n <= 5 ∧ d = backoff_spec n) ∨ jittered (poll_interval b) d.

Definition requeues (b : WerfBundle) (o : final) : Prop :=
  match o with Done (res, _) => delay_ok b (RequeueAfter res) | Panicked _ => True end.

Lemma requeues_ends b {A} (a : result A) d : delay_ok b d → requeues b (ends a ({| RequeueAfter := d |}, None)).
Proof. destruct a; [done|]. intros _. by left. Qed.

Lemma requeues_jitter b t o :
  Forall server_ok t → jitter_run (poll_interval b) t o → requeues b o.
Proof.
  intros Ht Hr. destruct o as [[res err]|m]; [|done].
  destruct (jitter_jittered _ _ _ _ Ht Hr) as [_ Hj]. by do 3 right.
Qed.

Lemma requeues_monitor b b0 job tag t o : monitor_run r b job tag t o → requeues b0 o.
Proof.
  intros [Hs Hf|tl b' now a Hs He|tl b' a Hs Hf He]; [by right; left|..];
    apply requeues_ends; by left.
Qed.

Lemma requeues_create b b0 tag t o : create_run r b tag t o → requeues b0 o.
Proof.
  intros [e|b1 tb m He|b1 tb e a He|b1 tb job e a He|b1 tb job job' a He];
    [by left|done|apply requeues_ends..]; [by left|by left|by right; left].
Qed.

Lemma requeues_ensure b b0 tag t o : ensure_run r b tag t o → requeues b0 o.
Proof.
  intros [t' o' Ha Hr|e t' o' Ha He Hr|e Ha He|job t' o' Ha Hr].
  - by eapply requeues_create.
  - by eapply requeues_create.
  - by left.
  - by eapply requeues_monitor.
Qed.

Lemma requeues_poll b b0 t o :
  Forall server_ok t → room (Status b) → poll_interval b = poll_interval b0 →
  poll_run r b t o → requeues b0 o.
Proof.
  intros Ht Hb Ei Hr.
  destruct Hr as [th m He|th tags etag e t o He Hr|th etag t o He Hp1 Hp2 Hr|th etag b1 t o He Hp Hr
    |th etag e He Hp|th tags etag He Hl Hp|th tags etag now a He Hl Hp|th tags etag tag t o He Hl Hn Hr];
    try (apply Forall_app in Ht as [_ Ht]).
  - done.
  - rewrite Ei in Hr. destruct Hr as [t o Hm Hr|now a Hm Hn|now a n Hm -> Hn].
    + by eapply requeues_jitter.
    + apply requeues_ends. by left.
    + apply requeues_ends. right. right. left. rewrite (int32_failures _ Hb) in *.
      destruct Hb as [Hv Hle]. apply status_valid_spec in Hv as (_ & _ & Hc).
      unfold maxConsecutiveFailures in *. eexists. split; [|apply CalculateBackoff_spec]; lia.
  - rewrite Ei in Hr. by eapply requeues_jitter.
  - rewrite Ei in Hr. apply Forall_cons in Ht as [_ Ht]. by eapply requeues_jitter.
  - by left.
  - by left.
  - apply requeues_ends. by left.
  - by eapply requeues_ensure.
Qed.

Lemma requeues_check b b0 t o :
  Forall server_ok t → room (Status b) → poll_interval b = poll_interval b0 →
  check_run r b t o → requeues b0 o.
Proof.
  intros Ht Hb Ei Hr.
  assert (∀ b1 t' o', room (Status b1) → poll_interval b1 = poll_interval b0 →
    Forall server_ok t' → account_run r b1 t' o' → requeues b0 o') as Hacc.
  { intros b1 t' o' Hb1 Ei1 Ht' Ha. destruct Ha as [t' o' Hs Ha|t' o' Hs Ha|e a Hs].
    - by eapply requeues_poll.
    - apply Forall_cons in Ht' as [_ Ht']. by eapply (requeues_poll b1).
    - by left. }
  destruct Hr as [err a Hv|t o Hv Hn Hr|b1 t o Hv Hn Hr|e Hv Hn].
  - apply requeues_ends. by left.
  - by eapply Hacc.
  - apply Forall_cons in Ht as [[Hs Es] Ht]. eapply (Hacc b1); [| |done|done].
    + rewrite Es. room.
    + by rewrite (same_object_interval _ _ Hs).
  - by left.
Qed.

(** ** What Synced says *)

(** A write of the phase Synced records the greatest tag [tag] of the registry. *)
Definition synced_write (P : string → Prop) (e : event) : Prop :=
  match e with
  | Ev (StatusUpdate b) _ => Phase (Status b) = PhaseSynced → P (LastAppliedTag (Status b))
  | _ => True
  end.

Lemma build_synced P b tag t o :
  exec (Build (builder_for r b) tag) t o → Forall (synced_write P) t.
Proof.
  intros He. eapply Forall_impl; [exact (calls_exec _ _ _ _ (calls_builder r b tag) He)|]. by intros [[] a].
Qed.

Lemma capture_synced P b job t o : exec (capture_logs r b job) t o → Forall (synced_write P) t.
Proof.
  intros He. eapply Forall_impl; [exact (calls_exec _ _ _ _ (calls_capture_logs r b job) He)|].
  by intros [[] a].
Qed.

Lemma listing_synced P b t o : exec (listing r b) t o → Forall (synced_write P) t.
Proof.
  intros He. eapply Forall_impl; [exact (calls_exec _ _ _ _ (listing_calls r b) He)|]. by intros [[] a].
Qed.

Lemma monitor_synced (P : string → Prop) b job tag t o :
  (0 < Succeeded (job_Status job) → P tag) →
  monitor_run r b job tag t o → Forall (synced_write P) t.
Proof.
  intros HP [Hs Hf|tl b' now a Hs He|tl b' a Hs Hf He]; [constructor|..];
    (apply Forall_app; split; [by eapply capture_synced|]); each_event; try done.
  intros _. by apply HP.
Qed.

Lemma create_synced P b tag t o :
  Forall server_ok t → create_run r b tag t o → Forall (synced_write P) t.
Proof.
  pose proof (syncing_fields tag (Status b)) as (Ep & _).
  assert (∀ a : result WerfBundle,
    synced_write P (Ev (StatusUpdate (on_Status (syncing tag) b)) a)) as Hw.
  { intros a Hp. change (Phase (syncing tag (Status b)) = PhaseSynced) in Hp. by rewrite Ep in Hp. }
  intros Ht Hr. destruct Hr as [e|b1 tb m He|b1 tb e a He|b1 tb job e a He|b1 tb job job' a He].
  1: each_event; apply Hw.
  all: apply Forall_cons in Ht as [[_ Es] _]; constructor; [apply Hw|].
  1: by eapply build_synced.
  all: apply Forall_app; split; [by eapply build_synced|]; each_event; try done.
  cbn [synced_write]. change (Phase (Status b1) = PhaseSynced → P (LastAppliedTag (Status b1))).
  rewrite Es. cbn [on_Status set_Status Status]. by rewrite Ep.
Qed.

Lemma ensure_synced (P : string → Prop) b tag t o :
  Forall server_ok t →
  (∀ job : Job, Ev (GetJob (active_key b)) (Ok job) ∈ t → 0 < Succeeded (job_Status job) → P tag) →
  ensure_run r b tag t o → Forall (synced_write P) t.
Proof.
  intros Ht HP Hr. destruct Hr as [t o Ha Hr|e t o Ha He Hr|e Ha He|job t o Ha Hr].
  - by eapply create_synced.
  - apply Forall_cons in Ht as [_ Ht]. constructor; [done|]. by eapply create_synced.
  - by each_event.
  - constructor; [done|]. eapply monitor_synced; [|exact Hr]. apply HP. by left.
Qed.

(** A tag a listing of [t] has as its greatest. *)
Definition listed (b : WerfBundle) (t : list event) (tag : string) : Prop :=
  ∃ th tags etag, exec (listing r b) th (Done (tags, etag, None)) ∧ th ⊆ t ∧
    last tags = Some tag ∧ Forall (λ x, str_le x tag) tags.

(** What the controller knows when it writes Synced with [tag]. *)
Definition synced_because (b : WerfBundle) (t : list event) (tag : string) : Prop :=
  listed b t tag ∧
  (tag = LastAppliedTag (Status b) ∨
   ∃ job : Job, Ev (GetJob (active_key b)) (Ok job) ∈ t ∧ 0 < Succeeded (job_Status job)).

Lemma listing_listed b th tags etag tag t :
  exec (listing r b) th (Done (tags, etag, None)) → th ⊆ t → last tags = Some tag → listed b t tag.
Proof.
  intros He Ht Hl. exists th, tags, etag. repeat (split; [done|]). apply sorted_last_max; [|done].
  destruct (listing_done _ _ _ _ He) as (? & ? & ? & [= <- <- <-] & Hs). by apply Hs.
Qed.

Lemma poll_synced b t T o :
  Forall server_ok t → t ⊆ T → poll_run r b t o → Forall (synced_write (synced_because b T)) t.
Proof.
  intros Ht HT Hr.
  assert (∀ etag e, synced_write (synced_because b T)
    (Ev (StatusUpdate (on_Status (syncing EmptyString) (on_Status (polled etag) b))) e)) as Hsy by done.
  destruct Hr as [th m He|th tags etag e t o He Hr|th etag t o He Hp1 Hp2 Hr|th etag b1 t o He Hp Hr
    |th etag e He Hp|th tags etag He Hl Hp|th tags etag now a He Hl Hp|th tags etag tag t o He Hl Hn Hr];
    pose proof (listing_synced (synced_because b T) _ _ _ He) as Hth; try done;
    apply Forall_app; (split; [done|]); apply Forall_app in Ht as [_ Ht].
  - destruct Hr as [t o Hm Hr|now a Hm Hn|now a n Hm Hn Hle]; [by eapply jitter_calls| |].
    + by each_event.
    + each_event; [done|]. intros Hp.
      pose proof (syncing_fields (retry_message n e) (Status (counted now b))) as (Ep & _).
      change (Phase (syncing (retry_message n e) (Status (counted now b))) = PhaseSynced) in Hp.
      by rewrite Ep in Hp.
  - by eapply jitter_calls.
  - constructor; [done|]. by eapply jitter_calls.
  - by each_event.
  - each_event; [done|]. intros _. split; [|by left]. eapply listing_listed; [done| |done]. set_solver.
  - eapply ensure_synced; [done| |exact Hr]. intros job Hj Hs.
    split; [eapply listing_listed; [done| |done]; set_solver|]. right. exists job. split; [|done].
    pose proof (polled_fields etag (Status b)) as (_ & _ & Ea & _).
    assert (active_key (on_Status (polled etag) b) = active_key b) as Ek.
    { unfold active_key. change (Status (on_Status (polled etag) b)) with (polled etag (Status b)).
      by rewrite Ea. }
    rewrite Ek in Hj. set_solver.
Qed.

Lemma synced_because_same b b1 t tag :
  same_object b b1 → LastETag (Status b1) = LastETag (Status b) →
  LastAppliedTag (Status b1) = LastAppliedTag (Status b) →
  ActiveJobName (Status b1) = ActiveJobName (Status b) →
  synced_because b1 t tag → synced_because b t tag.
Proof.
  intros Hb El Et Ea. unfold synced_because, listed, active_key, listing.
  rewrite El, Et, Ea, (same_object_target _ _ Hb).
  by rewrite (proj2 (proj2 (proj2 Hb))).
Qed.

Lemma synced_write_mono (P Q : string → Prop) t :
  (∀ x, P x → Q x) → Forall (synced_write P) t → Forall (synced_write Q) t.
Proof.
  intros HPQ Ht. eapply Forall_impl; [exact Ht|]. intros [[] a] He; try done.
  intros Hp. by apply HPQ, He.
Qed.

Lemma account_synced b t T o :
  Forall server_ok t → t ⊆ T → account_run r b t o → Forall (synced_write (synced_because b T)) t.
Proof.
  intros Ht HT Hr. destruct Hr as [t o Hs Hr|t o Hs Hr|e a Hs].
  - by eapply poll_synced.
  - apply Forall_cons in Ht as [_ Ht]. constructor; [done|]. eapply poll_synced; [done| |done]. set_solver.
  - by each_event.
Qed.

Lemma check_synced b t T o :
  Forall server_ok t → t ⊆ T → Phase (Status b) ≠ PhaseSynced →
  check_run r b t o → Forall (synced_write (synced_because b T)) t.
Proof.
  intros Ht HT Hp Hr. destruct Hr as [err a Hv|t o Hv Hn Hr|b1 t o Hv Hn Hr|e Hv Hn].
  - by each_event.
  - by eapply account_synced.
  - apply Forall_cons in Ht as [[Hs Es] Ht]. constructor; [done|].
    eapply synced_write_mono; [|eapply (account_synced b1 t T); [done|set_solver|done]].
    intros x. apply synced_because_same; [done|by rewrite Es..].
  - by each_event.
Qed.

(** ** Properties *)

(** C36 The delays.  A reconciliation asks for no delay, for five seconds (a job
    is running), for a backoff of at most eight minutes (a registry error), or
    for the poll interval with a jitter of at most 10% (nothing new); a poll
    interval that is zero or negative is returned as it is. *)
Theorem Reconcile_requeue req b t res err :
  exec (Reconcile r req) (Ev (GetBundle req) (Ok b) :: t) (Done (res, err)) →
  Forall server_ok (Ev (GetBundle req) (Ok b) :: t) →
  status_valid (Status b) = true → ConsecutiveFailures (Status b) <= 5 →
  delay_ok b (RequeueAfter res).
Proof.
  intros He Ht Hv Hc. assert (room (Status b)) as Hb by done. apply Reconcile_read in He.
  apply Forall_cons in Ht as [_ Ht]. change (requeues b (Done (res, err))). revert He.
  generalize (Done (res, err)) as o. intros o He.
  destruct He as [d Hd Hf|d a Hd Hf|t o Hd Hf Hr|b1 t o Hd Hf Hr|e Hd Hf].
  - by left.
  - apply requeues_ends. by left.
  - by eapply requeues_check.
  - apply Forall_cons in Ht as [[Hs Es] Ht].
    pose proof (AddFinalizer_same b finalizerName) as (Hs0 & Es0 & _).
    eapply (requeues_check b1); [done| | |exact Hr]; [by rewrite Es, Es0|].
    apply same_object_interval. by etransitivity.
  - by left.
Qed.

(** C22 What Synced means.  When a reconciliation turns a bundle Synced, the tag
    it records is the greatest of the registry's list, and either that tag was
    already recorded as the last applied one, or the active job was found to
    have succeeded - the job of whichever tag it was started for. *)
Theorem Reconcile_synced req b t o b' (a : result WerfBundle) :
  exec (Reconcile r req) (Ev (GetBundle req) (Ok b) :: t) o →
  Forall server_ok (Ev (GetBundle req) (Ok b) :: t) →
  Phase (Status b) ≠ PhaseSynced →
  Ev (StatusUpdate b') a ∈ t → Phase (Status b') = PhaseSynced →
  synced_because b t (LastAppliedTag (Status b')).
Proof.
  intros He Ht Hp Hin Hp'. apply Reconcile_read in He. apply Forall_cons in Ht as [_ Ht].
  assert (Forall (synced_write (synced_because b t)) t) as Hall; [|rewrite Forall_forall in Hall;
    by apply (Hall _ Hin)].
  clear Hin. destruct He as [d Hd Hf|d a' Hd Hf|t o Hd Hf Hr|b1 t o Hd Hf Hr|e Hd Hf]; try by each_event.
  - by eapply check_synced.
  - apply Forall_cons in Ht as [[Hs Es] Ht].
    pose proof (AddFinalizer_same b finalizerName) as (Hs0 & Es0 & _). rewrite Es0 in Es.
    constructor; [done|].
    eapply synced_write_mono.
    + intros x. apply (synced_because_same b b1); [by etransitivity|by rewrite Es..].
    + eapply check_synced; [done| |by rewrite Es|done]. set_solver.
Qed.

(** C37 A tag that is already recorded as applied ends the reconciliation: if the
    greatest tag of the poll's listing is that tag, the bundle is marked Synced if
    it was not, no job is looked at - not even the active one - and no further poll
    is asked for. *)
Theorem pollRegistry_current b t o :
  exec (pollRegistry r b) t o → lists r (LastAppliedTag (Status b)) b t →
  ∃ th, Forall http_call th ∧
    ((Phase (Status b) = PhaseSynced ∧ t = th ∧ o = Done stop) ∨
     (Phase (Status b) ≠ PhaseSynced ∧ ∃ now b' (a : result WerfBundle),
        t = th ++ [Ev TimeNow now; Ev (StatusUpdate b') a] ∧ o = ends a stop ∧
        Phase (Status b') = PhaseSynced ∧ LastAppliedTag (Status b') = LastAppliedTag (Status b) ∧
        ActiveJobName (Status b') = ActiveJobName (Status b) ∧
        LastJobStatus (Status b') = LastJobStatus (Status b))).
Proof.
  intros He HL. apply (wp_any _ _ _ _ (poll_runs r b)) in He.
  destruct He as [th m He|th tags etag e t o He Hr|th etag t o He Hp1 Hp2 Hr|th etag b1 t o He Hp Hr
    |th etag e He Hp|th tags etag He Hl Hp|th tags etag now a He Hl Hp|th tags etag tag t o He Hl Hn Hr];
    (destruct (lists_here r _ b _ _ _ HL He) as (tags' & etag' & Eo & Hl')
     || destruct (lists_whole r _ b _ _ HL He) as (tags' & etag' & Eo & Hl')); simplify_eq;
    exists th; (split; [exact (calls_exec _ _ _ _ (listing_calls r b) He)|]).
  - by left.
  - right. split; [done|]. exists now; eexists; exists a. split; [done|]. split; [done|].
    pose proof (polled_fields etag' (Status b)) as (_ & _ & Ea & Ej & _).
    split; [done|]. split; [done|]. by split.
Qed.

(** C20 Watching a job.  A job that has neither succeeded nor failed is looked at
    again after five seconds, and nothing is written.  Otherwise exactly one
    status is written, at the end: the active job is cleared, its result
    recorded, with Synced and the tag or Failed and the tag unchanged; the logs
    in the status are the job's, at most 5120 bytes, or a reference to the
    ConfigMap that holds them, or are unchanged if they could not be had. *)
Theorem monitorJobCompletion_correct b job tag t o :
  exec (monitorJobCompletion r b job tag) t o →
  let s := job_Status job in
  (Succeeded s <= 0 ∧ Failed s <= 0 ∧ t = [] ∧ o = Done (requeue jobRecheck)) ∨
  ∃ tl b' (a : result WerfBundle),
    t = tl ++ [Ev (StatusUpdate b') a] ∧ o = ends a stop ∧ same_object b b' ∧
    Forall (λ e, match e with Ev (StatusUpdate _) _ => False | _ => True end) tl ∧
    ActiveJobName (Status b') = EmptyString ∧
    (LastJobLogs (Status b') = LastJobLogs (Status b) ∨
     ∃ logs, kept_logs (Name (job_Meta job)) logs (LastJobLogs (Status b'))) ∧
    ((0 < Succeeded s ∧ Phase (Status b') = PhaseSynced ∧ LastAppliedTag (Status b') = tag ∧
      LastJobStatus (Status b') = JobStatusSucceeded ∧ LastErrorMessage (Status b') = EmptyString) ∨
     (Succeeded s <= 0 ∧ 0 < Failed s ∧ Phase (Status b') = PhaseFailed ∧
      LastAppliedTag (Status b') = LastAppliedTag (Status b) ∧
      LastJobStatus (Status b') = JobStatusFailed ∧
      LastErrorMessage (Status b') = "Job failed, see job logs for details")).
Proof.
  intros He s. apply (wp_any _ _ _ _ (monitor_runs r b job tag)) in He.
  destruct He as [Hs Hf|tl b' now a Hs He|tl b' a Hs Hf He]; [by left|..]; right.
  all: assert (Forall (λ e, match e with Ev (StatusUpdate _) _ => False | _ => True end) tl) as Hq
    by (eapply Forall_impl; [exact (calls_exec _ _ _ _ (calls_capture_logs r _ job) He)|]; by intros [[] ?]).
  all: pose proof (capture_captured _ _ _ _ _ He) as Hcap.
  - exists (tl ++ [@Ev kube_sig TimeNow now]); eexists; exists a. split; [by rewrite <- app_assoc|].
    split; [done|]. split; [apply (capture_same _ _ _ _ _ He)|].
    split; [apply Forall_app; split; [done|by each_event]|].
    destruct Hcap as [->|(x & logs & -> & Hk)]; (split; [done|]); (split; [|by left]);
      [by left | right; by exists logs].
  - exists tl; eexists; exists a. split; [done|]. split; [done|].
    split; [apply (capture_same _ _ _ _ _ He)|]. split; [done|].
    destruct Hcap as [->|(x & logs & -> & Hk)]; (split; [done|]); (split; [|by right]);
      [by left | right; by exists logs].
Qed.

(** Storing logs.  Up to 5120 bytes the logs are the answer and nothing is
    called; longer ones go whole, under "output", into a ConfigMap named after
    the job beside the bundle, created or - if it exists already - updated, and
    the answer is a reference to it; a refused write is reported. *)
Theorem storeJobLogs_correct b name logs t o :
  exec (storeJobLogs r b name logs) t o →
  (str_len logs <= maxStatusLogs ∧ t = [] ∧ o = Done (Ok logs)) ∨
  (maxStatusLogs < str_len logs ∧
   ((t = [] ∧ ∃ e, SetControllerReference b (log_configmap b name logs) (r_Scheme r) = Err e ∧
       o = Done (Err e)) ∨
    ∃ cm, Name (cm_Meta cm) = name +:+ "-logs" ∧ Namespace (cm_Meta cm) = Namespace (Meta b) ∧
      cm_Data cm = {[ "output" := logs ]} ∧
      ((∃ stored, t = [Ev (CreateConfigMap cm) (Ok stored)] ∧ o = Done (Ok (log_reference name))) ∨
       (∃ e, t = [Ev (CreateConfigMap cm) (Err e)] ∧ IsAlreadyExists e = false ∧ o = Done (Err e)) ∨
       (∃ e (a : result ConfigMap), t = [Ev (CreateConfigMap cm) (Err e); Ev (UpdateConfigMap cm) a] ∧
          IsAlreadyExists e = true ∧
          o = Done match a with Ok _ => Ok (log_reference name) | Err e' => Err e' end)))).
Proof.
  intros He. destruct (wp_any _ _ _ _ (wp_storeJobLogs r b name logs) He) as [?|[Hl Hs]]; [by left|].
  right. split; [done|].
  destruct (SetControllerReference _ _ _) as [cm|e] eqn:Ec; [|left; destruct Hs; eauto].
  right. destruct (SetControllerReference_same _ _ _ _ Ec) as [Ek Ed].
  exists cm. unfold key_of in Ek. injection Ek as -> ->.
  split; [done|]. split; [done|]. split; [done|].
  destruct Hs as [[stored|e] Hs]; [left; by exists stored|].
  destruct (IsAlreadyExists e) eqn:E; [|right; left; exists e; by destruct Hs].
  right. right. destruct Hs as (a & -> & ->). by exists e, a.
Qed.

End Jobs.

(** ** Witnesses *)

#[local] Existing Instance sample_machinery.
#[local] Existing Instance sample_machinery_ok.
#[local] Existing Instance sample_lib.
#[local] Existing Instance sample_contract.

Lemma Reconcile_requeue_witness :
  delay_ok sample_bundle jobRecheck.
Proof.
  assert ((reconciliation sample_bundle 200 "v1.0.0" None).2 = Done (requeue jobRecheck)) as E
    by (vm_compute; reflexivity).
  apply (Reconcile_requeue sample_reconciler sample_request sample_bundle
    (tail (reconciliation sample_bundle 200 "v1.0.0" None).1) {| RequeueAfter := jobRecheck |} None).
  - change ({| RequeueAfter := jobRecheck |}, None) with (requeue jobRecheck). rewrite <- E.
    by apply reconciliation_read_exec.
  - by apply reconciliation_read_ok.
  - reflexivity.
  - vm_compute. discriminate.
Defined.

(** The job of v1.0.0 has succeeded; meanwhile the registry has v1.0.1. *)
Definition running_bundle : WerfBundle :=
  bundle_with (λ s, job_state JobStatusRunning "my-app-e4b60778-12345678" (syncing "v1.0.0" s)).

Definition job_done : list event * outcome (Result * option error) :=
  reconciliation running_bundle 200 "v1.0.0 v1.0.1" (Some (job_with 1 0)).

Lemma job_done_write :
  Ev (StatusUpdate (written (tail job_done.1))) (write_answer (tail job_done.1)) ∈ tail job_done.1.
Proof. apply written_elem. vm_compute. reflexivity. Qed.

Lemma Reconcile_synced_witness :
  LastAppliedTag (Status (written (tail job_done.1))) = "v1.0.1" ∧
  synced_because sample_reconciler running_bundle (tail job_done.1) "v1.0.1".
Proof.
  assert (LastAppliedTag (Status (written (tail job_done.1))) = "v1.0.1") as E
    by (vm_compute; reflexivity).
  split; [exact E|]. rewrite <- E.
  apply (Reconcile_synced sample_reconciler sample_request running_bundle _ job_done.2
    (written (tail job_done.1)) (write_answer (tail job_done.1))).
  - by apply reconciliation_read_exec.
  - by apply reconciliation_read_ok.
  - discriminate.
  - exact job_done_write.
  - vm_compute. reflexivity.
Defined.

(** The registry has v1.0.0, whose job is the active one. *)
Definition current_poll : list event * outcome (Result * option error) :=
  run_with (cluster running_bundle 200 "v1.0.0" None) (pollRegistry sample_reconciler running_bundle).

Lemma pollRegistry_current_witness :
  ∃ th now b' (a : result WerfBundle), current_poll.1 = th ++ [Ev TimeNow now; Ev (StatusUpdate b') a] ∧
    Phase (Status b') = PhaseSynced ∧ LastJobStatus (Status b') = JobStatusRunning.
Proof.
  pose proof (run_with_exec (cluster running_bundle 200 "v1.0.0" None)
    (pollRegistry sample_reconciler running_bundle)) as He.
  destruct (pollRegistry_current sample_reconciler running_bundle current_poll.1 _ He)
    as (th & _ & [(Hp & _)|(_ & now & b' & a & E & _ & Hp & _ & _ & Hj)]).
  - apply (wp_any _ _ _ _ (poll_runs sample_reconciler running_bundle)) in He.
    apply poll_listed in He as [lo Hl].
    apply (greatest_lists _ (cluster running_bundle 200 "v1.0.0" None) _ _ _ lo Hl).
    + apply run_with_legal. by intros [].
    + vm_compute. reflexivity.
  - discriminate Hp.
  - exists th, now, b', a. split; [exact E|]. split; [exact Hp|exact Hj].
Defined.

Lemma monitorJobCompletion_correct_witness :
  let t := (run_with pod_answers
    (monitorJobCompletion sample_reconciler running_bundle (job_with 0 1) "v1.0.0")).1 in
  ∃ tl b' (a : result WerfBundle), t = tl ++ [Ev (StatusUpdate b') a] ∧
    Phase (Status b') = PhaseFailed ∧ ActiveJobName (Status b') = EmptyString.
Proof.
  intros t. destruct (monitorJobCompletion_correct sample_reconciler running_bundle (job_with 0 1) "v1.0.0" t _
    (run_with_exec pod_answers _)) as [(_ & Hf & _)|(tl & b' & a & E & _ & _ & _ & Ha & _ & [Hs|Hf])].
  - cbn in Hf. lia.
  - destruct Hs as [Hs _]. cbn in Hs. lia.
  - exists tl, b', a. split; [exact E|]. split; [apply Hf|exact Ha].
Defined.

Lemma storeJobLogs_correct_witness :
  (run_with sample_answers (storeJobLogs sample_reconciler sample_bundle "job" "short log")).2
  = Done (Ok "short log").
Proof.
  destruct (storeJobLogs_correct sample_reconciler sample_bundle "job" "short log" _ _
    (run_with_exec sample_answers _)) as [(_ & _ & Eo)|(Hl & _)]; [exact Eo|].
  vm_compute in Hl. discriminate Hl.
Defined.

