(* ===== verification/System.v ===== *)
(** * The operator and its cluster

    The reconciler as one process among others.  The world keeps every version
    of the bundle the API server has stored and the jobs of the cluster; users
    edit and delete the bundle, jobs run, end and are removed, at any moment,
    between any two calls of a reconciliation.  A read of the bundle may return
    any earlier version, since it comes from the informer's cache, and so may a
    read of a job: it may say anything about the job but its name.  A write is
    accepted only for the version that is current; a call that fails may have
    taken effect.  The process may stop between any two calls.

    How careful users, cluster and operator are is left open: it is a parameter,
    the class [Conduct], over which most theorems about whole systems are
    quantified.  One of its instances, [orderly], is the conduct under which at
    most one job of a bundle runs at a time; the theorems that need it say so.

    Not represented: two reconciliations of one bundle at the same time
    (controller-runtime never runs them). *)
From S2P Require Import Prelude GoErrors Prog Api Kube Duration Backoff Values Yaml Fetch JobBuilder Logs Rbac Registry Controller Runs Server Samples Scenarios Safety Lifecycle.

#[global] Instance NamespacedName_countable : Countable NamespacedName.
Proof.
  refine (inj_countable' (λ k, (key_Name k, key_Namespace k))
    (λ p, {| key_Name := p.1; key_Namespace := p.2 |}) _). by intros [].
Defined.

Abbreviation version b := (ResourceVersion (Meta b)).

Section World.
Context `{Machinery}.

(** ** Jobs *)

(** A job has one pod and no retries: one success or one failure ends it. *)
Definition finished (j : Job) : bool :=
  (0 <? Succeeded (job_Status j)) || (0 <? Failed (job_Status j)).

(** The job belongs to the bundle with the UID [u]. *)
Definition owned (u : string) (j : Job) : bool :=
  existsb (λ o, bool_decide (owner_UID o = u)) (OwnerReferences (job_Meta j)).

(** ** Worlds *)

Record world := {
  w_bundle : option WerfBundle;
  w_versions : gmap string WerfBundle;
  w_jobs : gmap NamespacedName Job;
}.

(** The bundle's current version becomes [b]. *)
Definition put (b : WerfBundle) (w : world) : world :=
  {| w_bundle := Some b; w_versions := <[version b := b]> (w_versions w); w_jobs := w_jobs w |}.

Definition drop_bundle (w : world) : world :=
  {| w_bundle := None; w_versions := w_versions w; w_jobs := w_jobs w |}.

Definition with_jobs (jobs : gmap NamespacedName Job) (w : world) : world :=
  {| w_bundle := w_bundle w; w_versions := w_versions w; w_jobs := jobs |}.

(** An unfinished job of the bundle [u]. *)
Definition live (w : world) (u : string) (k : NamespacedName) : Prop :=
  ∃ j, w_jobs w !! k = Some j ∧ owned u j = true ∧ finished j = false.

(** [b] is a version of the bundle the API server has stored. *)
Definition known (w : world) (b : WerfBundle) : Prop := w_versions w !! version b = Some b.

(** ** The API server *)

(** The server stores [b] as [b'], a version it has not used before. *)
Definition stores (w : world) (b b' : WerfBundle) (w' : world) : Prop :=
  (∃ cur, w_bundle w = Some cur ∧ version cur = version b) ∧
  same_object b b' ∧ Status b' = Status b ∧ w_versions w !! version b' = None ∧
  w' = put b' w.

(** An update that leaves a deleted bundle without finalizers removes it. *)
Definition updates (w : world) (b b' : WerfBundle) (w' : world) : Prop :=
  stores w b b' w' ∨
  DeletionTimestamp (Meta b) ≠ None ∧ ∃ w1, stores w b b' w1 ∧ w' = drop_bundle w1.

(** The server stores the job [j] as [j']. *)
Definition adds_job (w : world) (j j' : Job) (w' : world) : Prop :=
  w_jobs w !! key_of (job_Meta j) = None ∧ key_of (job_Meta j') = key_of (job_Meta j) ∧
  w' = with_jobs (<[key_of (job_Meta j) := j']> (w_jobs w)) w.

(** What an answer says of the world, and what the call makes of it.  A call that
    is answered by an error may have been carried out all the same.  A read of a
    job need not agree with the jobs there are. *)
Definition serve (w : world) (e : event) (w' : world) : Prop :=
  match e with
  | Ev (GetBundle key) (Ok b) => known w b ∧ key_of (Meta b) = key ∧ w' = w
  | Ev (UpdateBundle b) (Ok b') => updates w b b' w'
  | Ev (UpdateBundle b) (Err _) => w' = w ∨ ∃ b', updates w b b' w'
  | Ev (StatusUpdate b) (Ok b') => stores w b b' w'
  | Ev (StatusUpdate b) (Err _) => w' = w ∨ ∃ b', stores w b b' w'
  | Ev (GetJob key) (Ok j) => key_of (job_Meta j) = key ∧ w' = w
  | Ev (CreateJob j) (Ok j') => adds_job w j j' w'
  | Ev (CreateJob j) (Err _) => w' = w ∨ ∃ j', adds_job w j j' w'
  | e => go_ok e ∧ w' = w
  end.

(** A user's change of the bundle: anything but the status. *)
Definition edited (b b' : WerfBundle) : Prop :=
  key_of (Meta b') = key_of (Meta b) ∧ UID (Meta b') = UID (Meta b) ∧ Status b' = Status b.

(** ** Conduct *)

(** What is assumed of everyone, beyond what the API server and the Go language
    guarantee: of the edits users make, of the answers to the operator's calls, of
    the reconciliations that run to their end, and of those that are cut short
    after the calls [t], with [t'] still to come. *)
Class Conduct := {
  edit_ok : world → WerfBundle → WerfBundle → Prop;
  answer_ok : world → event → world → Prop;
  run_ok : list event → Prop;
  cut_ok : list event → list event → Prop;
}.

(** Nothing is assumed. *)
Definition unrestrained : Conduct :=
  {| edit_ok := λ _ _ _, True; answer_ok := λ _ _ _, True; run_ok := λ _, True; cut_ok := λ _ _, True |}.

(** The namespace the bundle deploys to is left alone while a job is unfinished. *)
Definition careful (w : world) (b b' : WerfBundle) : Prop :=
  target_of b' = target_of b ∨ ∀ k, ¬ live w (UID (Meta b)) k.

(** A job that is not found is not there; the end of a job is not made up; a job
    whose creation fails is not created. *)
Definition accurate (w : world) (e : event) (w' : world) : Prop :=
  match e with
  | Ev (GetJob key) (Ok j) =>
      ∀ j0, w_jobs w !! key = Some j0 → finished j = true → finished j0 = true
  | Ev (GetJob key) (Err e) => IsNotFound e = true → w_jobs w !! key = None
  | Ev (CreateJob _) (Err _) => w' = w
  | _ => True
  end.

(** A job that is created is recorded: the reconciliation gets as far as its
    last call, the status write that names the job, and that write is accepted. *)
Definition accepted (e : event) : Prop :=
  match e with Ev (StatusUpdate _) (Ok _) => True | _ => False end.

Definition recorded (t : list event) : Prop :=
  ∀ j j', Ev (CreateJob j) (Ok j') ∈ t → ∃ e, last t = Some e ∧ accepted e.

(** Users are careful, reads and creations of jobs accurate, created jobs recorded;
    the process is not stopped between the creation and the record. *)
Definition orderly : Conduct :=
  {| edit_ok := careful; answer_ok := accurate; run_ok := recorded;
     cut_ok := λ t _, omap creates t = [] |}.

(** ** Everyone else *)

Context {conduct : Conduct}.

Inductive evolves (w : world) : world → Prop :=
| evolve_edit b b' :
    w_bundle w = Some b → edited b b' → edit_ok w b b' → w_versions w !! version b' = None →
    evolves w (put b' w)
| evolve_delete : evolves w (drop_bundle w)
| evolve_create b :
    w_bundle w = None → Status b = zero_status → w_versions w !! version b = None →
    (∀ b', known w b' → UID (Meta b') ≠ UID (Meta b)) →
    (∀ k j, w_jobs w !! k = Some j → owned (UID (Meta b)) j = false) → evolves w (put b w)
| evolve_job k j j' :
    w_jobs w !! k = Some j → OwnerReferences (job_Meta j') = OwnerReferences (job_Meta j) →
    key_of (job_Meta j') = key_of (job_Meta j) → (finished j = true → finished j' = true) →
    evolves w (with_jobs (<[k := j']> (w_jobs w)) w)
| evolve_job_removed k : evolves w (with_jobs (delete k (w_jobs w)) w)
| evolve_other_job k j :
    w_jobs w !! k = None → (∀ b, known w b → owned (UID (Meta b)) j = false) →
    evolves w (with_jobs (<[k := j]> (w_jobs w)) w).

(** The calls of a trace, answered in this world. *)
Inductive served : world → list event → world → Prop :=
| served_nil w w' : rtc evolves w w' → served w [] w'
| served_cons w w1 e w2 t w' :
    rtc evolves w w1 → serve w1 e w2 → answer_ok w1 e w2 → served w2 t w' → served w (e :: t) w'.

Lemma served_app w t1 t2 w' :
  served w (t1 ++ t2) w' → ∃ w1, served w t1 w1 ∧ served w1 t2 w'.
Proof.
  revert w. induction t1 as [|e t1 IH]; intros w Hs; cbn in *.
  - exists w. split; [by constructor | done].
  - inversion Hs as [|? w1 ? w2 ? ? Hw1 He Hacc Ht]; subst.
    destruct (IH _ Ht) as (w3 & H1 & H2). exists w3. split; [|done]. by econstructor.
Qed.

Lemma stores_ok w b b' w' : stores w b b' w' → same_object b b' ∧ Status b' = Status b.
Proof. by intros (_ & Hb & Hs & _). Qed.

Lemma serve_ok w e w' : serve w e w' → server_ok e.
Proof.
  destruct e as [c a]; destruct c; try (by intros [Hg _]); destruct a as [x|x]; try done.
  - by intros (_ & Hk & _).
  - intros [Hs|(_ & w1 & Hs & _)]; by eapply stores_ok.
  - by intros Hs%stores_ok.
  - by intros [Hk _].
  - by intros (_ & Hk & _).
Qed.

Lemma served_server_ok w t w' : served w t w' → Forall server_ok t.
Proof. induction 1 as [|? ? ? ? ? ? _ He _ IH]; constructor; [by eapply serve_ok | done]. Qed.

(** ** The invariant

    Versions are told apart by their ResourceVersion, the current one is among
    them, and the only job of the bundle that may be unfinished is the one its
    status names. *)
Record versioned (w : world) : Prop := {
  versioned_key v b : w_versions w !! v = Some b → version b = v;
  versioned_current b : w_bundle w = Some b → known w b;
}.

Record sound (w : world) : Prop := {
  sound_versioned : versioned w;
  sound_active b k :
    w_bundle w = Some b → live w (UID (Meta b)) k →
    ActiveJobName (Status b) ≠ EmptyString ∧ k = active_key b;
}.

(** What later worlds keep: the versions stored, and that a job of a known
    bundle that has ended, or is gone, does not come back. *)
Definition later (w w' : world) : Prop :=
  (∀ b, known w b → known w' b) ∧
  (∀ b k, known w b → live w' (UID (Meta b)) k → live w (UID (Meta b)) k).

#[export] Instance later_preorder : PreOrder later.
Proof.
  split.
  - by intros w.
  - intros w1 w2 w3 [Hk1 Hl1] [Hk2 Hl2]. split; [auto|]. intros b k Hb Hl. by apply Hl1, Hl2; [|apply Hk1|].
Qed.

(** Two known versions with the same ResourceVersion are the same. *)
Lemma known_eq w b b' : known w b → known w b' → version b = version b' → b = b'.
Proof. unfold known. intros Hb Hb' E. rewrite E in Hb. congruence. Qed.

Lemma later_put w b : w_versions w !! version b = None → later w (put b w).
Proof.
  intros Hn. split; [|done]. unfold known. intros b' Hb'. cbn.
  rewrite lookup_insert_ne; [done|]. intros E. rewrite E in Hn. congruence.
Qed.

Lemma known_put w b : known (put b w) b.
Proof. apply lookup_insert_eq. Qed.

Lemma versioned_put w b : versioned w → w_versions w !! version b = None → versioned (put b w).
Proof.
  intros [Hv Hc] Hn. split; cbn.
  - intros v b'. rewrite lookup_insert_Some. intros [[E <-]|[_ Hl]]; [done | by apply Hv].
  - intros ? [= <-]. apply known_put.
Qed.

Lemma sound_put w b :
  versioned w → w_versions w !! version b = None →
  (∀ k, live w (UID (Meta b)) k → ActiveJobName (Status b) ≠ EmptyString ∧ k = active_key b) →
  sound (put b w).
Proof.
  intros Hv Hn Hb. split; [by apply versioned_put|]. intros ? k [= <-] Hl. by apply Hb.
Qed.

(** Fewer unfinished jobs, the same bundle. *)
Lemma sound_jobs w jobs :
  sound w → later w (with_jobs jobs w) → sound (with_jobs jobs w).
Proof.
  intros [[Hv Hc] Ha] [_ Hl]. split; [done|]. intros b k Hb Hk. cbn in Hb.
  apply Ha; [done|]. by apply Hl; [apply Hc|].
Qed.

Lemma sound_drop w : sound w → sound (drop_bundle w).
Proof. by intros [[Hv Hc] Ha]. Qed.

Lemma evolves_later w w' : evolves w w' → later w w'.
Proof.
  intros Hw. destruct Hw as [b b' Hb He Hc Hn| |b Hb Hs Hn Hu Hj|k j j' Hj Ho Hk Hf|k|k j Hn Ho].
  - by apply later_put.
  - done.
  - by apply later_put.
  - split; [done|]. intros b k' Hb (j1 & Hj1 & Ho1 & Hf1). cbn in Hj1.
    apply lookup_insert_Some in Hj1 as [[-> <-]|[_ Hj1]]; [|by exists j1].
    exists j. split; [done|]. split; [unfold owned in *; by rewrite <- Ho|].
    destruct (finished j); [by rewrite Hf in Hf1 | done].
  - split; [done|]. intros b k' Hb (j1 & Hj1 & Ho1 & Hf1). cbn in Hj1.
    apply lookup_delete_Some in Hj1 as [_ Hj1]. by exists j1.
  - split; [done|]. intros b k' Hb (j1 & Hj1 & Ho1 & Hf1). cbn in Hj1.
    apply lookup_insert_Some in Hj1 as [[-> <-]|[_ Hj1]]; [|by exists j1].
    by rewrite Ho in Ho1.
Qed.

Lemma evolved_later w w' : rtc evolves w w' → later w w'.
Proof. induction 1 as [w|w1 w2 w3 H12 _ IH]; [done|]. etransitivity; [by apply evolves_later|done]. Qed.

Lemma evolved_versioned w w' : rtc evolves w w' → versioned w → versioned w'.
Proof.
  induction 1 as [w|w1 w2 w3 H12 _ IH]; [done|]. intros [Hv Hc]. apply IH.
  destruct H12; try (split; done); by apply versioned_put.
Qed.

End World.

(** What happens under one conduct happens under any that asks for less. *)
Lemma evolves_milder `{Machinery} (c1 c2 : Conduct) w w' :
  (∀ w b b', edit_ok (Conduct := c1) w b b' → edit_ok (Conduct := c2) w b b') →
  evolves (conduct := c1) w w' → evolves (conduct := c2) w w'.
Proof.
  intros Hc Hw. destruct Hw as [b b' Hb He Hok Hn| |b Hb Es Hn Hu Hj|k j j' Hj Ho Hk Hf|k|k j Hn Ho].
  - by eapply evolve_edit, Hn; [|..|apply Hc].
  - apply evolve_delete.
  - by apply evolve_create.
  - by eapply evolve_job.
  - apply evolve_job_removed.
  - by apply evolve_other_job.
Qed.

Lemma served_milder `{Machinery} (c1 c2 : Conduct) w t w' :
  (∀ w b b', edit_ok (Conduct := c1) w b b' → edit_ok (Conduct := c2) w b b') →
  (∀ w e w', answer_ok (Conduct := c1) w e w' → answer_ok (Conduct := c2) w e w') →
  served (conduct := c1) w t w' → served (conduct := c2) w t w'.
Proof.
  intros He Ha Hs. induction Hs as [w w' Hw|w w1 e w2 t w' Hw Hse Hacc _ IH]; econstructor; eauto;
    (eapply rtc_subrel; [|exact Hw]); intros x y; by apply evolves_milder.
Qed.

(** ** Order is kept

    From here to the end of the file, everyone's conduct is [orderly], except where
    another one is named. *)
Section Order.
Context `{Machinery}.
#[local] Existing Instance orderly.

Lemma evolves_sound w w' : evolves w w' → sound w → sound w'.
Proof.
  intros Hw Hs. pose proof (evolves_later _ _ Hw) as Hl. pose proof (sound_versioned _ Hs) as Hv.
  destruct Hw as [b b' Hb (Hk & Hu & Es) Hc Hn| |b Hb Es Hn Hu Hj|k j j' Hj Ho Hk Hf|k|k j Hn Ho].
  - apply sound_put; [done..|]. intros k. rewrite Hu. intros Hlive.
    destruct Hc as [Et|Hc]; [|by destruct (Hc k)]. unfold active_key. rewrite Es, Et.
    by apply (sound_active _ Hs).
  - by apply sound_drop.
  - apply sound_put; [done..|]. intros k (j & Hlj & Ho & _). by rewrite (Hj _ _ Hlj) in Ho.
  - by apply sound_jobs.
  - by apply sound_jobs.
  - by apply sound_jobs.
Qed.

Lemma evolved w w' : rtc evolves w w' → later w w' ∧ (sound w → sound w').
Proof.
  intros Hw. split; [by apply evolved_later|]. induction Hw; [done|]. eauto using evolves_sound.
Qed.

(** ** The calls of a reconciliation *)

(** A call that changes neither the bundle nor the jobs. *)
Definition calm (e : event) : Prop :=
  match e with
  | Ev (UpdateBundle _) _ | Ev (StatusUpdate _) _ | Ev (CreateJob _) _ => False
  | _ => True
  end.

Lemma serve_calm w e w' : calm e → serve w e w' → w' = w.
Proof.
  destruct e as [c a]; destruct c; try done; try (by intros _ [_ ?]); destruct a; try done.
  all: cbn; naive_solver.
Qed.

Lemma served_calm w t w' :
  Forall calm t → served w t w' → later w w' ∧ (sound w → sound w').
Proof.
  intros Ht Hs. induction Hs as [w w' Hw|w w1 e w2 t w' Hw He Hacc Hs IH]; [by apply evolved|].
  apply Forall_cons in Ht as [Hc Ht]. apply (serve_calm _ _ _ Hc) in He as ->.
  destruct (evolved _ _ Hw) as [Hl1 Hs1], (IH Ht) as [Hl2 Hs2].
  split; [by etransitivity | auto].
Qed.

(** [b] has been made of the version [b0] by changes of the status. *)
Definition derived (b0 b : WerfBundle) : Prop := same_object b0 b ∧ version b = version b0.

Lemma derived_refl b : derived b b.
Proof. done. Qed.

Lemma derived_status b0 b f : derived b0 b → derived b0 (on_Status f b).
Proof. done. Qed.

Lemma derived_target b0 b : derived b0 b → target_of b = target_of b0.
Proof. intros [Hb _]. by apply same_object_target. Qed.

Lemma stores_current w b0 b b' w' :
  versioned w → known w b0 → derived b0 b → stores w b b' w' →
  w_bundle w = Some b0 ∧ same_object b0 b' ∧ Status b' = Status b ∧ w' = put b' w ∧ later w w'.
Proof.
  intros Hs Hk [Hb Ev] ((cur & Hcur & Ecur) & Hb' & Es & Hn & ->).
  assert (cur = b0) as ->.
  { apply (known_eq w); [by apply versioned_current | done|]. by rewrite Ecur. }
  split; [done|]. split; [by etransitivity|]. split; [done|]. split; [done|]. by apply later_put.
Qed.

(** The jobs that may be unfinished when [b0] is the current bundle. *)
Definition allowed (w : world) (b0 b : WerfBundle) : Prop :=
  w_bundle w = Some b0 → ∀ k, live w (UID (Meta b0)) k →
  ActiveJobName (Status b) ≠ EmptyString ∧ k = active_key b.

Lemma allowed_same w b0 b :
  sound w → derived b0 b → ActiveJobName (Status b) = ActiveJobName (Status b0) → allowed w b0 b.
Proof.
  intros Hs Hd Ea Hb k Hk. unfold active_key. rewrite Ea, (derived_target _ _ Hd).
  by apply (sound_active _ Hs).
Qed.

(** The bundle [b'] that a write returns, as far as the caller knows it. *)
Definition written_as (b0 b b' : WerfBundle) (w w' : world) : Prop :=
  w_bundle w = Some b0 ∧ w_bundle w' = Some b' ∧ known w' b' ∧ same_object b0 b' ∧
  Status b' = Status b.

Lemma stores_sound w b0 b b' w' :
  versioned w → known w b0 → derived b0 b → allowed w b0 b → stores w b b' w' →
  sound w' ∧ later w w' ∧ written_as b0 b b' w w'.
Proof.
  intros Hs Hk Hd Ha Hst. pose proof Hst as (_ & _ & _ & Hn & _).
  destruct (stores_current _ _ _ _ _ Hs Hk Hd Hst) as (Hb & Hb' & Es & -> & Hl).
  split; [|split; [done|]].
  - apply sound_put; [done..|]. intros k. rewrite (proj1 (proj2 Hb')). intros Hlive.
    unfold active_key. rewrite Es, (same_object_target _ _ Hb'), <- (derived_target _ _ Hd).
    by apply Ha.
  - split; [done|]. split; [done|]. split; [apply known_put|]. done.
Qed.

Lemma serve_status w b0 b a w' :
  sound w → known w b0 → derived b0 b → allowed w b0 b →
  serve w (Ev (StatusUpdate b) a) w' →
  sound w' ∧ later w w' ∧ ∀ b', a = Ok b' → written_as b0 b b' w w'.
Proof.
  intros Hs Hk Hd Ha He. destruct a as [b'|e].
  - destruct (stores_sound _ _ _ _ _ (sound_versioned _ Hs) Hk Hd Ha He) as (H1 & H2 & H3).
    split; [done|]. split; [done|]. by intros ? [= <-].
  - destruct He as [->|[b' He]]; [done|].
    by destruct (stores_sound _ _ _ _ _ (sound_versioned _ Hs) Hk Hd Ha He) as (H1 & H2 & H3).
Qed.

Lemma serve_update w b0 b a w' :
  sound w → known w b0 → derived b0 b → allowed w b0 b →
  serve w (Ev (UpdateBundle b) a) w' →
  sound w' ∧ later w w' ∧
  ∀ b', a = Ok b' → DeletionTimestamp (Meta b) = None → written_as b0 b b' w w'.
Proof.
  intros Hs Hk Hd Ha He.
  assert (∀ b', updates w b b' w' → sound w' ∧ later w w' ∧
    (DeletionTimestamp (Meta b) = None → written_as b0 b b' w w')) as Hu.
  { intros b' [Hst|(Hdel & w1 & Hst & ->)];
      destruct (stores_sound _ _ _ _ _ (sound_versioned _ Hs) Hk Hd Ha Hst) as (H1 & H2 & H3); [done|].
    split; [by apply sound_drop | done]. }
  destruct a as [b'|e].
  - destruct (Hu _ He) as (H1 & H2 & H3). split; [done|]. split; [done|]. by intros ? [= <-].
  - destruct He as [->|[b' He]]; [done|]. by destruct (Hu _ He) as (H1 & H2 & H3).
Qed.

End Order.

Section Reconciled.
Context `{Machinery} `{!MachineryOk} `{RegistryLib} (r : WerfBundleReconciler)
  `{!RegistryContract (r_RegistryClient r)}.
#[local] Existing Instance orderly.

(** ** One reconciliation *)

Lemma recorded_app t1 t2 : t2 ≠ [] → recorded (t1 ++ t2) → recorded t2.
Proof.
  intros Hne Hr j j' Hj. destruct (Hr j j') as (e & E & Ha).
  { apply elem_of_app. by right. }
  exists e. rewrite last_app in E. destruct (last t2) eqn:El; [done|].
  apply last_None in El as ->. done.
Qed.

Lemma recorded_cons e t : t ≠ [] → recorded (e :: t) → recorded t.
Proof. intros Hne. by apply (recorded_app [e]). Qed.

Lemma served_status w b0 b a t w' :
  sound w → known w b0 → derived b0 b →
  served w (Ev (StatusUpdate b) a :: t) w' →
  (∀ w1, later w w1 → sound w1 → allowed w1 b0 b) →
  ∃ w2, sound w2 ∧ later w w2 ∧ served w2 t w' ∧
    ∀ b', a = Ok b' → ∃ w1, later w w1 ∧ sound w1 ∧ written_as b0 b b' w1 w2.
Proof.
  intros Hs Hk Hd Hsv Ha. inversion Hsv as [|? w1 ? w2 ? ? Hw1 He Hacc Ht]; subst.
  destruct (evolved _ _ Hw1) as [Hl1 Hs1]. specialize (Hs1 Hs).
  destruct (serve_status w1 b0 b a w2) as (Hs2 & Hl2 & Hb); [done|by apply Hl1|done|by apply Ha|done|].
  exists w2. split; [done|]. split; [by etransitivity|]. split; [done|].
  intros b' E. exists w1. auto.
Qed.

Lemma served_end w w' : sound w → served w [] w' → sound w'.
Proof. intros Hs Hsv. by apply (served_calm w [] w'). Qed.

(** No job of the bundle [b0] is unfinished, now or later, unless the bundle is
    changed first. *)
Definition idle (w : world) (b0 : WerfBundle) : Prop :=
  ∀ w1, later w w1 → sound w1 → w_bundle w1 = Some b0 → ∀ k, ¬ live w1 (UID (Meta b0)) k.

Lemma idle_later w w1 b0 : later w w1 → idle w b0 → idle w1 b0.
Proof. intros Hl Hi w2 Hl2. apply Hi. by etransitivity. Qed.

Lemma idle_none w b0 : ActiveJobName (Status b0) = EmptyString → idle w b0.
Proof. intros Ea w1 _ Hs Hb k Hk. by destruct (sound_active _ Hs _ _ Hb Hk). Qed.

Lemma idle_done w b0 :
  known w b0 → (∀ j, w_jobs w !! active_key b0 = Some j → finished j = true) → idle w b0.
Proof.
  intros Hk Hj w1 Hl Hs Hb k Hlive. destruct (sound_active _ Hs _ _ Hb Hlive) as [_ ->].
  apply Hl in Hlive; [|done]. destruct Hlive as (j & Hlj & _ & Hf). by rewrite (Hj _ Hlj) in Hf.
Qed.

(** A write at the end of a run keeps the name of the active job, or is made when
    no job is unfinished. *)
Lemma served_last w b0 b f a w' :
  sound w → known w b0 → derived b0 b → served w [Ev (StatusUpdate (on_Status f b)) a] w' →
  ActiveJobName (f (Status b)) = ActiveJobName (Status b0) ∨ idle w b0 → sound w'.
Proof.
  intros Hs Hk Hd%(derived_status _ _ f) Hsv Ha.
  destruct (served_status _ b0 _ _ _ _ Hs Hk Hd Hsv) as (w2 & Hs2 & _ & Hend & _).
  - intros w1 Hl Hs1. destruct Ha as [Ea|Hi]; [by apply allowed_same|].
    intros Hb k Hlive. by destruct (Hi _ Hl Hs1 Hb k).
  - by eapply served_end.
Qed.

Lemma calm_build b tag t o : exec (Build (builder_for r b) tag) t o → Forall calm t.
Proof.
  intros He. eapply calls_exec; [|exact He]. eapply calls_mono; [|apply calls_builder]. by intros [[] a].
Qed.

Lemma calm_capture b job t o : exec (capture_logs r b job) t o → Forall calm t.
Proof.
  intros He. eapply calls_exec; [|exact He]. eapply calls_mono; [|apply calls_capture_logs].
  by intros [[] a].
Qed.

Lemma calm_listing b t o : exec (listing r b) t o → Forall calm t.
Proof.
  intros He. eapply calls_exec; [|exact He]. eapply calls_mono; [|apply (listing_calls r)].
  by intros [[] a].
Qed.

Lemma calm_jitter interval t o : jitter_run interval t o → Forall calm t.
Proof. by apply jitter_calls. Qed.

(** The write that records a new job. *)
Lemma served_recorded w b1 job job' b' w' :
  sound w → known w b1 → (∀ k, ¬ live w (UID (Meta b1)) k) →
  key_of (job_Meta job') = key_of (job_Meta job) → Namespace (job_Meta job) = target_of b1 →
  Name (job_Meta job) ≠ EmptyString →
  served (with_jobs (<[key_of (job_Meta job) := job']> (w_jobs w)) w)
    [Ev (StatusUpdate (on_Status (job_state JobStatusRunning (Name (job_Meta job'))) b1)) (Ok b')] w' →
  sound w'.
Proof.
  intros Hs Hk Hno Ekey En Hname Hsv.
  set (w0 := with_jobs (<[key_of (job_Meta job) := job']> (w_jobs w)) w) in *.
  assert (∀ k, live w0 (UID (Meta b1)) k → k = key_of (job_Meta job)) as Hone.
  { intros k (j & Hj & Hlive). subst w0. cbn in Hj. apply lookup_insert_Some in Hj as [[<- _]|[_ Hj]]; [done|].
    destruct (Hno k). by exists j. }
  assert (active_key (on_Status (job_state JobStatusRunning (Name (job_Meta job'))) b1)
          = key_of (job_Meta job)) as Eact.
  { rewrite <- Ekey. unfold active_key, key_of. cbn. f_equal.
    injection Ekey as _ ->. by rewrite En. }
  inversion Hsv as [|? w1 ? w2 ? ? Hw1 He Hacc Ht]; subst.
  destruct (evolved _ _ Hw1) as [Hl1 _].
  assert (versioned w1) as Hv.
  { apply (evolved_versioned _ _ Hw1). by destruct Hs as [[Hv Hc] _]. }
  eapply served_end; [|exact Ht].
  refine (proj1 (stores_sound w1 b1 _ b' w2 Hv (proj1 Hl1 b1 Hk) _ _ He)); [done|].
  intros _ k Hlive. apply Hl1, Hone in Hlive as ->; [|exact Hk]. rewrite Eact.
  split; [|done]. cbn. by injection Ekey as -> _.
Qed.

(** createJob, started when no job of the bundle is unfinished. *)
Lemma create_sound w b0 b tag t o w' :
  sound w → known w b0 → derived b0 b → ActiveJobName (Status b) = EmptyString → idle w b0 →
  create_run r b tag t o → served w t w' → recorded t → sound w'.
Proof.
  intros Hs Hk Hd Ea Hi Hr Hsv Hrec.
  assert (∀ w1, later w w1 → sound w1 → allowed w1 b0 (on_Status (syncing tag) b)) as Ha.
  { intros w1 Hl Hs1 Hb k Hlive. by destruct (Hi _ Hl Hs1 Hb k). }
  pose proof (syncing_fields tag (Status b)) as (_ & _ & _ & Hact & _).
  destruct Hr as [e|b1 tb m He|b1 tb e a He|b1 tb job e a He|b1 tb job job' a He];
    destruct (served_status _ b0 _ _ _ _ Hs Hk (derived_status _ _ _ Hd) Hsv Ha)
      as (w2 & Hs2 & Hl2 & Ht & Hw); [by eapply served_end|..];
    destruct (Hw _ eq_refl) as (w1 & Hl1 & Hs1 & Hb0 & Hb1 & Hk1 & Hsame & Es);
    assert (ActiveJobName (Status b1) = EmptyString) as Ea1 by (rewrite Es; by etransitivity).
  { apply (served_calm w2 tb w'); [by eapply calm_build | done..]. }
  all: apply served_app in Ht as (w3 & Ht & Hend);
    destruct (served_calm w2 tb w3) as [Hl3 Hs3]; [by eapply calm_build | done|].
  - eapply (served_last w3 b1); [by apply Hs3|by apply Hl3|exact (derived_refl b1)|exact Hend|by left].
  - inversion Hend as [|? w4 ? w5 ? ? Hw4 E4 Hacc4 Hend']; subst. change (w5 = w4) in Hacc4. subst w5.
    destruct (evolved _ _ Hw4) as [Hl4 Hs4].
    eapply (served_last w4 b1); [by apply Hs4, Hs3|by apply Hl4, Hl3|exact (derived_refl b1)|exact Hend'|by left].
  - inversion Hend as [|? w4 ? w5 ? ? Hw4 E4 Hacc4 Hend']; subst. destruct E4 as (Hfree & Ekey & ->).
    destruct (evolved _ _ Hw4) as [Hl4 Hs4].
    assert (later w2 w4) as Hl by (by etransitivity).
    destruct (build_meta _ _ _ _ _ He) as [En _], (build_identity _ _ _ _ _ He) as [Hname _].
    destruct (Hrec job job') as (e & El & Hacc); [set_solver|].
    rewrite app_comm_cons, last_app in El. cbn in El. injection El as <-.
    destruct a as [b2|]; [|done].
    eapply (served_recorded w4 b1 job job'); [by apply Hs4, Hs3|by apply Hl| |done..].
    intros k Hlive. apply Hl in Hlive; [|done]. by apply (idle_none w2 b1 Ea1 w2) in Hlive.
Qed.

(** A call that is not a write, and what follows it. *)
Lemma served_read w e t w' :
  calm e → sound w → served w (e :: t) w' →
  ∃ w1, later w w1 ∧ sound w1 ∧ (serve w1 e w1 ∧ accurate w1 e w1) ∧ served w1 t w'.
Proof.
  intros Hc Hs Hsv. inversion Hsv as [|? w1 ? w2 ? ? Hw1 He Hacc Ht]; subst.
  destruct (evolved _ _ Hw1) as [Hl1 Hs1]. pose proof (serve_calm _ _ _ Hc He) as ->.
  exists w1. auto.
Qed.

Lemma monitor_sound w b0 b job tag t o w' :
  sound w → known w b0 → derived b0 b → ActiveJobName (Status b) = ActiveJobName (Status b0) →
  (∀ j, w_jobs w !! active_key b0 = Some j → finished job = true → finished j = true) →
  monitor_run r b job tag t o → served w t w' → sound w'.
Proof.
  intros Hs Hk Hd Ea Hj Hr Hsv.
  assert (finished job = true → idle w b0) as Hi.
  { intros Hf. apply idle_done; [done|]. intros j E. by apply Hj. }
  destruct Hr as [Hsu Hf|tl b' now a Hsu He|tl b' a Hsu Hf He]; [by eapply served_end|..].
  all: assert (idle w b0) as Hidle by (apply Hi; unfold finished; destruct (job_Status job);
    cbn in *; lia).
  all: apply served_app in Hsv as (w1 & Hsv & Hend);
    destruct (served_calm w tl w1) as [Hl1 Hs1]; [by eapply calm_capture | done|].
  all: assert (derived b0 b') as Hd' by
    (destruct (capture_captured _ _ _ _ _ He) as [->|(l & logs & -> & _)]; exact Hd).
  - apply served_read in Hend as (w2 & Hl2 & Hs2 & _ & Hend); [|done|by apply Hs1].
    eapply (served_last w2 b0); [done|by apply Hl2, Hl1|exact Hd'|exact Hend|].
    right. apply (idle_later w); [by etransitivity | done].
  - eapply (served_last w1 b0); [by apply Hs1|by apply Hl1|exact Hd'|exact Hend|].
    right. by apply (idle_later w).
Qed.

Lemma ensure_sound w b0 b tag t o w' :
  sound w → known w b0 → derived b0 b → ActiveJobName (Status b) = ActiveJobName (Status b0) →
  ensure_run r b tag t o → served w t w' → recorded t → sound w'.
Proof.
  intros Hs Hk Hd Ea Hr Hsv Hrec.
  assert (active_key b = active_key b0) as Ekey.
  { unfold active_key. by rewrite Ea, (derived_target _ _ Hd). }
  destruct Hr as [t o Ha Hr|e t o Ha He Hr|e Ha He|job t o Ha Hr].
  - eapply create_sound; [done..| |exact Hr|done|done]. apply idle_none. congruence.
  - apply served_read in Hsv as (w1 & Hl1 & Hs1 & [_ Hj] & Hsv); [|done|done].
    destruct (decide (t = [])) as [->|Ht]; [by eapply served_end|].
    eapply (create_sound w1 b0 (on_Status (set_ActiveJobName EmptyString) b));
      [exact Hs1|by apply Hl1|exact Hd|done| |exact Hr|exact Hsv|].
    + apply idle_done; [by apply Hl1|]. intros j Hj'. rewrite <- Ekey, (Hj He) in Hj'. done.
    + by eapply recorded_cons.
  - apply served_read in Hsv as (w1 & Hl1 & Hs1 & _ & Hsv); [|done|done]. by eapply served_end.
  - apply served_read in Hsv as (w1 & Hl1 & Hs1 & [_ Hj] & Hsv); [|done|done].
    rewrite Ekey in Hj. eapply monitor_sound; [exact Hs1|by apply Hl1|exact Hd|exact Ea|done..].
Qed.

Lemma error_sound w b0 b e interval t o w' :
  sound w → known w b0 → derived b0 b → ActiveJobName (Status b) = ActiveJobName (Status b0) →
  error_run b e interval t o → served w t w' → sound w'.
Proof.
  intros Hs Hk Hd Ea Hr Hsv. destruct Hr as [t o He Hr|now a He Hn|now a n He Hn Hle].
  - apply (served_calm w t w'); [by eapply calm_jitter | done..].
  - apply served_read in Hsv as (w1 & Hl1 & Hs1 & _ & Hsv); [|done|done].
    eapply (served_last w1 b0 (counted now b)); [done|by apply Hl1|exact Hd|exact Hsv|by left].
  - apply served_read in Hsv as (w1 & Hl1 & Hs1 & _ & Hsv); [|done|done].
    eapply (served_last w1 b0 (counted now b)); [done|by apply Hl1|exact Hd|exact Hsv|].
    left. pose proof (syncing_fields (retry_message n e) (Status (counted now b))) as (_ & _ & _ & -> & _).
    exact Ea.
Qed.

Lemma poll_sound w b t o w' :
  sound w → known w b → poll_run r b t o → served w t w' → recorded t → sound w'.
Proof.
  intros Hs Hk Hr Hsv Hrec.
  assert (∀ etag, derived b (on_Status (polled etag) b)) as Hd by done.
  assert (∀ etag, ActiveJobName (polled etag (Status b)) = ActiveJobName (Status b)) as Ea
    by (intros etag; apply polled_fields).
  destruct Hr as [th m He|th tags etag e t o He Hr|th etag t o He Hp1 Hp2 Hr|th etag b1 t o He Hp Hr
    |th etag e He Hp|th tags etag He Hl Hp|th tags etag now a He Hl Hp|th tags etag tag t o He Hl Hn Hr];
    pose proof (calm_listing _ _ _ He) as Hth;
    try (by apply (served_calm w th w'));
    apply served_app in Hsv as (w1 & Hsv & Ht); destruct (served_calm w th w1 Hth Hsv) as [Hl1 Hs1];
    specialize (Hs1 Hs); apply (proj1 Hl1) in Hk.
  - by eapply (error_sound w1 b b); [done..|exact Hr|].
  - apply (served_calm w1 t w'); [by eapply calm_jitter | done..].
  - destruct (served_status w1 b _ _ _ _ Hs1 Hk (derived_status _ _ (syncing EmptyString) (Hd etag)) Ht)
      as (w2 & Hs2 & _ & Hend & _).
    { intros w2 _ Hs2. apply allowed_same; [done..|].
      pose proof (syncing_fields EmptyString (polled etag (Status b))) as (_ & _ & _ & E & _).
      by etransitivity. }
    apply (served_calm w2 t w'); [by eapply calm_jitter | done..].
  - eapply (served_last w1 b (on_Status (polled etag) b)); [done|done|done|exact Ht|left].
    pose proof (syncing_fields EmptyString (polled etag (Status b))) as (_ & _ & _ & E & _).
    by etransitivity.
  - apply served_read in Ht as (w2 & Hl2 & Hs2 & _ & Ht); [|done|done].
    eapply (served_last w2 b (on_Status (polled etag) b)); [done|by apply Hl2|done|exact Ht|left].
    apply Ea.
  - destruct (decide (t = [])) as [->|Hne]; [by eapply served_end|].
    eapply (ensure_sound w1 b (on_Status (polled etag) b)); [done..|apply Ea|exact Hr|done|].
    by eapply recorded_app.
Qed.

Lemma account_sound w b t o w' :
  sound w → known w b → account_run r b t o → served w t w' → recorded t → sound w'.
Proof.
  intros Hs Hk Hr Hsv Hrec. destruct Hr as [t o Hsa Hr|t o Hsa Hr|e a Hsa].
  - by eapply poll_sound.
  - apply served_read in Hsv as (w1 & Hl1 & Hs1 & _ & Hsv); [|done|done].
    destruct (decide (t = [])) as [->|Hne]; [by eapply served_end|].
    eapply poll_sound; [exact Hs1|by apply Hl1|exact Hr|done|]. by eapply recorded_cons.
  - apply served_read in Hsv as (w1 & Hl1 & Hs1 & _ & Hsv); [|done|done].
    eapply (served_last w1 b b); [done|by apply Hl1|done|exact Hsv|by left].
Qed.

Lemma check_sound w b t o w' :
  sound w → known w b → check_run r b t o → served w t w' → recorded t → sound w'.
Proof.
  intros Hs Hk Hr Hsv Hrec. destruct Hr as [err a Hv|t o Hv Hn Hr|b1 t o Hv Hn Hr|e Hv Hn].
  - eapply (served_last w b b); [done|done|done|exact Hsv|by left].
  - by eapply account_sound.
  - destruct (served_status w b _ _ _ _ Hs Hk (derived_status _ _ _ (derived_refl b)) Hsv)
      as (w2 & Hs2 & _ & Ht & Hw); [intros w1 _ Hs1; by apply allowed_same|].
    destruct (Hw _ eq_refl) as (w1 & _ & _ & _ & _ & Hk2 & _).
    destruct (decide (t = [])) as [->|Hne]; [by eapply served_end|].
    eapply account_sound; [exact Hs2|exact Hk2|exact Hr|done|]. by eapply recorded_cons.
  - eapply (served_last w b b); [done|done|done|exact Hsv|by left].
Qed.

Lemma served_update w b a t w' :
  sound w → known w b → ∀ b1, derived b b1 → Status b1 = Status b →
  served w (Ev (UpdateBundle b1) a :: t) w' →
  ∃ w2, sound w2 ∧ served w2 t w' ∧
    ∀ b', a = Ok b' → DeletionTimestamp (Meta b) = None → known w2 b'.
Proof.
  intros Hs Hk b1 Hd Es Hsv. inversion Hsv as [|? w1 ? w2 ? ? Hw1 He Hacc Ht]; subst.
  destruct (evolved _ _ Hw1) as [Hl1 Hs1]. specialize (Hs1 Hs).
  destruct (serve_update w1 b b1 a w2) as (Hs2 & _ & Hb); [done|by apply Hl1|done| |done|].
  { apply allowed_same; [done..|]. by rewrite Es. }
  exists w2. split; [done|]. split; [done|]. intros b' Ea Hn.
  destruct (Hb b' Ea) as (_ & _ & Hk' & _); [|done]. by rewrite (proj1 (proj2 (proj2 (proj1 Hd)))).
Qed.

Lemma read_sound w b t o w' :
  sound w → known w b → read_run r b t o → served w t w' → recorded t → sound w'.
Proof.
  intros Hs Hk Hr Hsv Hrec.
  destruct (AddFinalizer_same b finalizerName) as (Ha & Eas & _).
  destruct (RemoveFinalizer_same b finalizerName) as (Hrm & Ers & _).
  assert (derived b (AddFinalizer b finalizerName)) as Hda by (split; [done | apply AddFinalizer_version]).
  assert (derived b (RemoveFinalizer b finalizerName)) as Hdr
    by (split; [done | apply RemoveFinalizer_version]).
  destruct Hr as [d Hd Hf|d a Hd Hf|t o Hd Hf Hr|b1 t o Hd Hf Hr|e Hd Hf].
  - by eapply served_end.
  - destruct (served_update w b a [] w' Hs Hk _ Hdr Ers Hsv) as (w2 & Hs2 & Ht & _). by eapply served_end.
  - by eapply check_sound.
  - destruct (served_update w b (Ok b1) t w' Hs Hk _ Hda Eas Hsv) as (w2 & Hs2 & Ht & Hb).
    destruct (decide (t = [])) as [->|Hne]; [by eapply served_end|].
    eapply check_sound; [exact Hs2|by apply Hb|exact Hr|done|]. by eapply recorded_cons.
  - destruct (served_update w b (Err e) [] w' Hs Hk _ Hda Eas Hsv) as (w2 & Hs2 & Ht & _).
    by eapply served_end.
Qed.

Lemma reconcile_sound w req t o w' :
  sound w → exec (Reconcile r req) t o → served w t w' → recorded t → sound w'.
Proof.
  intros Hs He Hsv Hrec. apply Reconcile_run in He.
  destruct He as [e He|e He|b t o Hr].
  1, 2: apply served_read in Hsv as (w1 & Hl1 & Hs1 & _ & Hsv); [|done|done]; by eapply served_end.
  apply served_read in Hsv as (w1 & Hl1 & Hs1 & [(Hk & _ & _) _] & Hsv); [|done|done].
  destruct (decide (t = [])) as [->|Hne]; [by eapply served_end|].
  eapply read_sound; [exact Hs1|exact Hk|exact Hr|done|]. by eapply recorded_cons.
Qed.

(** ** Crashes *)

(** An answer that lets a call come to nothing. *)
Definition refusal (c : kcall) : kans c :=
  match c with
  | GetBundle _ | UpdateBundle _ | StatusUpdate _ => Err (ErrorString "refused")
  | GetServiceAccount _ => Err (ErrorString "refused")
  | GetJob _ | CreateJob _ => Err (ErrorString "refused")
  | GetConfigMap _ | CreateConfigMap _ | UpdateConfigMap _ => Err (ErrorString "refused")
  | GetSecret _ => Err (ErrorString "refused")
  | ListPods _ _ => Err (ErrorString "refused")
  | StreamLogs _ _ _ _ => Err (ErrorString "refused")
  | ReadStream _ _ _ => Err (ErrorString "refused")
  | CloseStream _ _ _ => None
  | HttpRoundTrip _ => Err (ErrorString "refused")
  | YamlUnmarshal _ => Err (ErrorString "refused")
  | RangeStrings m => map_to_list m
  | TimeNow => 0
  | RandIntn _ => 0
  | CryptoRead _ => Err (ErrorString "refused")
  end.

Lemma serve_refusal w c : serve w (Ev c (refusal c)) w ∧ accurate w (Ev c (refusal c)) w.
Proof.
  destruct c; cbn; (split; [|try done]); try done; try (by left); try (split; [|done]); try done; try lia.
  by rewrite IsNotFound_plain.
Qed.

(** A process that stops after some calls could have gone on, with answers the
    server may give. *)
Lemma crash_goes_on {A} (p : prog A) t t' o :
  exec p (t ++ t') o → ∃ t2 o2, exec p (t ++ t2) o2 ∧ Forall server_ok t2.
Proof.
  intros He. destruct (exec_prefix _ _ _ _ He) as [q Hq].
  exists (@answered kube_sig _ refusal q).1, (@answered kube_sig _ refusal q).2.
  split; [apply Hq, answered_exec|]. apply answered_legal.
  intros []; try done; cbn. apply Permutation_refl.
Qed.

(** A process that stops after some calls leaves the world as one whose other
    calls came to nothing does. *)
Lemma crash_completes {A} (p : prog A) w t t' o w' :
  exec p (t ++ t') o → served w t w' →
  ∃ t2 o2, exec p (t ++ t2) o2 ∧ served w (t ++ t2) w' ∧
    Forall (λ e, ∃ c, e = Ev c (refusal c)) t2.
Proof.
  intros He Hsv. destruct (exec_prefix _ _ _ _ He) as [q Hq].
  exists (@answered kube_sig _ refusal q).1, (@answered kube_sig _ refusal q).2.
  split; [apply Hq, answered_exec|].
  assert (Forall (λ e, ∃ c, e = Ev c (refusal c)) (@answered kube_sig _ refusal q).1) as Hall
    by (apply answered_legal; eauto).
  split; [|done]. clear He Hq. revert Hall. generalize (@answered kube_sig _ refusal q).1. intros t2 Hall.
  assert (served w' t2 w') as H2.
  { induction Hall as [|e t2 [c ->] _ IH]; [by constructor|].
    econstructor; [done | apply serve_refusal | apply serve_refusal | done]. }
  clear Hall. induction Hsv as [w w' Hw|w w1 e w2 t w' Hw1 Hse Hacc _ IH]; cbn.
  - inversion H2 as [? ? Hw'|? w1 e w2 ? ? Hw1 Hse Hacc Ht]; subst.
    + constructor. by etransitivity.
    + eapply served_cons; [|exact Hse|exact Hacc|exact Ht]. by etransitivity.
  - eapply served_cons; [exact Hw1|exact Hse|exact Hacc|by apply IH].
Qed.

End Reconciled.

(** ** Reachable worlds *)

Section Steps.
Context `{Machinery} `{RegistryLib} {conduct : Conduct} (r : WerfBundleReconciler).

(** A step of the system: someone else's; a reconciliation; or one that is cut
    short by a crash. *)
Inductive step (w : world) : world → Prop :=
| step_evolve w' : evolves w w' → step w w'
| step_reconcile req t o w' :
    exec (Reconcile r req) t o → served w t w' → run_ok t → step w w'
| step_crash req t t' o w' :
    exec (Reconcile r req) (t ++ t') o → served w t w' → cut_ok t t' → step w w'.

(** Before anything has been stored. *)
Definition initial (w : world) : Prop := w_bundle w = None ∧ w_versions w = ∅.

Lemma initial_versioned w : initial w → versioned w.
Proof.
  intros [Hb Hv]. split.
  - intros v b. by rewrite Hv, lookup_empty.
  - intros b. by rewrite Hb.
Qed.

End Steps.

Section Reachable.
Context `{Machinery} `{!MachineryOk} `{RegistryLib} (r : WerfBundleReconciler)
  `{!RegistryContract (r_RegistryClient r)}.
#[local] Existing Instance orderly.

Lemma refused_creates t :
  Forall (λ e, ∃ c, e = Ev c (refusal c)) t → ∀ j j', Ev (CreateJob j) (Ok j') ∉ t.
Proof.
  intros Ht j j' Hin. rewrite Forall_forall in Ht. destruct (Ht _ Hin) as [c Hc].
  pose proof (f_equal (λ e, match e with Ev (CreateJob _) (Ok _) => true | _ => false end) Hc) as E.
  destruct c; discriminate E.
Qed.

Lemma step_sound w w' : step r w w' → sound w → sound w'.
Proof.
  intros Hst Hs. destruct Hst as [w' Hw|req t o w' He Hsv Hrec|req t t' o w' He Hsv Hc].
  - by eapply evolves_sound.
  - by eapply reconcile_sound.
  - destruct (crash_completes _ _ _ _ _ _ He Hsv) as (t2 & o2 & He2 & Hsv2 & Ht2).
    apply (reconcile_sound r w req (t ++ t2) o2 w' Hs He2 Hsv2).
    intros j j' [Hin|Hin]%elem_of_app; [|by destruct (refused_creates _ Ht2 j j')].
    assert (j ∈ omap creates t) as Hj by (apply list_elem_of_omap; by eexists).
    rewrite Hc in Hj. by apply not_elem_of_nil in Hj.
Qed.

Lemma initial_sound w : initial w → sound w.
Proof.
  intros Hi. split; [by apply initial_versioned|]. destruct Hi as [Hb _]. intros b k. by rewrite Hb.
Qed.

Lemma reachable_sound w0 w : initial w0 → rtc (step r) w0 w → sound w.
Proof.
  intros Hi Hr. apply initial_sound in Hi. induction Hr as [w|w0 w1 w2 H01 _ IH]; [done|].
  apply IH. by eapply step_sound.
Qed.

End Reachable.
