(* ===== verification/Chains.v ===== *)
(** * The writes of a reconciliation

    Each write of the bundle starts from the version that was read, or from the
    answer to the write before; after a write that is refused there is no other.
    Together with the server's check of versions this carries a property of the
    stored bundle through concurrent reconciliations and edits. *)
From S2P Require Import Prelude GoErrors Prog Api Kube Duration Backoff Values Yaml Fetch JobBuilder Logs Rbac Registry Controller Runs Server Samples Scenarios Safety Lifecycle System.

Section Chains.
Context `{Machinery}.

(** The bundle a call writes, and the answer. *)
Definition write_of (e : event) : option (WerfBundle * result WerfBundle) :=
  match e with
  | Ev (UpdateBundle b) a => Some (b, a)
  | Ev (StatusUpdate b) a => Some (b, a)
  | _ => None
  end.

(** The writes of a trace, the first of them made of [b]. *)
Inductive chain_of : WerfBundle → list event → Prop :=
| chain_nil b : chain_of b []
| chain_other b e t : write_of e = None → chain_of b t → chain_of b (e :: t)
| chain_accepted b b1 b2 e t :
    write_of e = Some (b1, Ok b2) → derived b b1 → chain_of b2 t → chain_of b (e :: t)
| chain_refused b b1 err e :
    write_of e = Some (b1, Err err) → derived b b1 → chain_of b [e].

Lemma chain_app b t1 t2 :
  Forall (λ e, write_of e = None) t1 → chain_of b t2 → chain_of b (t1 ++ t2).
Proof. intros H1 H2. induction H1 as [|e t1 He _ IH]; [done|]. by apply chain_other. Qed.

Lemma chain_last b f b1 a :
  derived b b1 → chain_of b [Ev (StatusUpdate (on_Status f b1)) a].
Proof.
  intros Hd. destruct a as [b2|e].
  - eapply chain_accepted; [done|exact Hd|constructor].
  - eapply chain_refused; [done|exact Hd].
Qed.

(** The chain of a bundle is the chain of what has been made of it. *)
Lemma chain_derived b b1 t : derived b b1 → chain_of b1 t → chain_of b t.
Proof.
  intros Hd Hc. induction Hc as [b1|b1 e t He _ IH|b1 b2 b3 e t He Hd2 Hc _|b1 b2 err e He Hd2].
  - constructor.
  - apply chain_other; [done|by apply IH].
  - eapply chain_accepted; [done| |exact Hc]. destruct Hd, Hd2. split; [by etransitivity|congruence].
  - eapply chain_refused; [done|]. destruct Hd, Hd2. split; [by etransitivity|congruence].
Qed.

(** The chain of the calls that were made before a crash. *)
Lemma chain_prefix b t t' : chain_of b (t ++ t') → chain_of b t.
Proof.
  intros Hc. remember (t ++ t') as l eqn:El. revert t El.
  induction Hc as [b|b e l He _ IH|b b1 b2 e l He Hd _ IH|b b1 err e He Hd]; intros t El;
    (destruct t as [|e0 t]; [constructor|]); try done; injection El as <- El.
  - apply chain_other; [done|by apply IH].
  - eapply chain_accepted; [done|exact Hd|by apply IH].
  - symmetry in El. apply app_eq_nil in El as [-> ->]. by eapply chain_refused.
Qed.

(** Every write of a chain is a version of the same bundle. *)
Lemma chain_same b t :
  chain_of b t → Forall server_ok t →
  ∀ e b1 a, e ∈ t → write_of e = Some (b1, a) → same_object b b1.
Proof.
  intros Hc Ht. induction Hc as [b|b e t He _ IH|b b1 b2 e t He Hd _ IH|b b1 err e He Hd];
    intros e' b' a' Hin He'.
  - by apply not_elem_of_nil in Hin.
  - apply Forall_cons in Ht as [_ Ht]. apply elem_of_cons in Hin as [->|Hin]; [congruence|]. by eapply IH.
  - apply Forall_cons in Ht as [Hok Ht]. apply elem_of_cons in Hin as [->|Hin].
    + rewrite He in He'. injection He' as <- _. apply Hd.
    + assert (same_object b1 b2) as H12.
      { destruct e as [[] a]; try done; cbn in He; injection He as -> ->; apply Hok. }
      etransitivity; [apply Hd|]. etransitivity; [exact H12|]. by eapply IH.
  - apply list_elem_of_singleton in Hin as ->. rewrite He in He'. injection He' as <- _. apply Hd.
Qed.

End Chains.

Section Runs.
Context `{Machinery} `{!MachineryOk} `{RegistryLib} (r : WerfBundleReconciler)
  `{!RegistryContract (r_RegistryClient r)}.

Lemma calm_writes t : Forall calm t → Forall (λ e, write_of e = None) t.
Proof. intros Ht. eapply Forall_impl; [exact Ht|]. intros [[] a]; done. Qed.

(** The status of a write is related to [s]. *)
Definition written (R : WerfBundleStatus → WerfBundleStatus → Prop) (s : WerfBundleStatus) (e : event) : Prop :=
  match write_of e with Some (b, _) => R s (Status b) | None => True end.

Lemma written_calm R s t : Forall calm t → Forall (written R s) t.
Proof.
  intros Ht. eapply Forall_impl; [exact (calm_writes _ Ht)|]. intros e He. unfold written. by rewrite He.
Qed.

Lemma written_more R `{!Transitive R} s s' t : R s s' → Forall (written R s') t → Forall (written R s) t.
Proof.
  intros Hs Ht. eapply Forall_impl; [exact Ht|]. intros e. unfold written.
  destruct (write_of e) as [[b a]|]; [|done]. by etransitivity.
Qed.

Lemma written_in R s t e b a : Forall (written R s) t → e ∈ t → write_of e = Some (b, a) → R s (Status b).
Proof.
  rewrite Forall_forall. intros Ht Hin He. specialize (Ht e Hin). unfold written in Ht. by rewrite He in Ht.
Qed.

Lemma monitor_chain b job tag t o : monitor_run r b job tag t o → chain_of b t.
Proof.
  intros Hr. destruct Hr as [Hs Hf|tl b' now a Hs He|tl b' a Hs Hf He]; [constructor|..].
  all: apply chain_app; [eapply calm_writes, calm_capture, He|].
  all: assert (derived b b') as Hd by
    (destruct (capture_captured _ _ _ _ _ He) as [->|(l & logs & -> & _)]; done).
  - apply chain_other; [done|]. by apply chain_last.
  - by apply chain_last.
Qed.

Lemma create_chain b tag t o : create_run r b tag t o → chain_of b t.
Proof.
  intros Hr. destruct Hr as [e|b1 tb m He|b1 tb e a He|b1 tb job e a He|b1 tb job job' a He];
    [by apply chain_last|..].
  all: eapply chain_accepted; [done|done|].
  1: rewrite <- (app_nil_r tb).
  all: apply chain_app; [eapply calm_writes, calm_build, He|].
  - constructor.
  - by apply chain_last.
  - apply chain_other; [done|]. by apply chain_last.
  - apply chain_other; [done|]. by apply chain_last.
Qed.

Lemma ensure_chain b tag t o : ensure_run r b tag t o → chain_of b t.
Proof.
  intros Hr. destruct Hr as [t o Ha Hr|e t o Ha He Hr|e Ha He|job t o Ha Hr].
  - by eapply create_chain.
  - apply chain_other; [done|].
    eapply (chain_derived _ (on_Status (set_ActiveJobName EmptyString) b)); [done|].
    by eapply create_chain.
  - by apply chain_other; [|constructor].
  - apply chain_other; [done|]. by eapply monitor_chain.
Qed.

Lemma jitter_chain b interval t o : jitter_run interval t o → chain_of b t.
Proof.
  intros Hr. rewrite <- (app_nil_r t). apply chain_app; [|constructor].
  by eapply calm_writes, calm_jitter.
Qed.

Lemma error_chain b e interval t o : error_run b e interval t o → chain_of b t.
Proof.
  intros Hr. destruct Hr as [t o He Hr|now a He Hn|now a n He Hn Hle]; [by eapply jitter_chain|..];
    (apply chain_other; [done|]); by apply chain_last.
Qed.

Lemma poll_chain b t o : poll_run r b t o → chain_of b t.
Proof.
  intros Hr.
  destruct Hr as [th m He|th tags etag e t o He Hr|th etag t o He Hp1 Hp2 Hr|th etag b1 t o He Hp Hr
    |th etag e He Hp|th tags etag He Hl Hp|th tags etag now a He Hl Hp|th tags etag tag t o He Hl Hn Hr];
    try (rewrite <- (app_nil_r th)); rewrite ?app_nil_r;
    pose proof (calm_writes _ (calm_listing _ _ _ _ He)) as Hth.
  all: try (rewrite <- (app_nil_r th); by apply chain_app; [|constructor]).
  all: apply chain_app; [done|].
  - by eapply error_chain.
  - by eapply jitter_chain.
  - eapply chain_accepted; [done|done|]. by eapply jitter_chain.
  - by apply (chain_last _ _ (on_Status (polled etag) b)).
  - apply chain_other; [done|]. by apply (chain_last _ _ (on_Status (polled etag) b)).
  - eapply (chain_derived _ (on_Status (polled etag) b)); [done|]. by eapply ensure_chain.
Qed.

Lemma account_chain b t o : account_run r b t o → chain_of b t.
Proof.
  intros Hr. destruct Hr as [t o Hs Hr|t o Hs Hr|e a Hs].
  - by eapply poll_chain.
  - apply chain_other; [done|]. by eapply poll_chain.
  - apply chain_other; [done|]. by apply chain_last.
Qed.

Lemma check_chain b t o : check_run r b t o → chain_of b t.
Proof.
  intros Hr. destruct Hr as [err a Hv|t o Hv Hn Hr|b1 t o Hv Hn Hr|e Hv Hn].
  - by apply chain_last.
  - by eapply account_chain.
  - eapply chain_accepted; [done|done|]. by eapply account_chain.
  - by apply chain_last.
Qed.

Lemma read_chain b t o : read_run r b t o → chain_of b t.
Proof.
  intros Hr.
  assert (derived b (AddFinalizer b finalizerName)) as Ha
    by (split; [apply AddFinalizer_same | apply AddFinalizer_version]).
  assert (derived b (RemoveFinalizer b finalizerName)) as Hrm
    by (split; [apply RemoveFinalizer_same | apply RemoveFinalizer_version]).
  destruct Hr as [d Hd Hf|d a Hd Hf|t o Hd Hf Hr|b1 t o Hd Hf Hr|e Hd Hf].
  - constructor.
  - destruct a as [b1|e]; [eapply chain_accepted; [done|done|constructor] | by eapply chain_refused].
  - by eapply check_chain.
  - eapply chain_accepted; [done|done|]. by eapply check_chain.
  - by eapply chain_refused.
Qed.

(** C10 Optimistic concurrency.  Every write of the bundle that a reconciliation
    makes, of its metadata or of its status, is made of the version it read or of
    the answer to its previous write of the bundle, never of anything older, so
    that the server's check of versions catches every change in between; after a
    write of the bundle that is refused nothing else is called. *)
Theorem Reconcile_chained req t o :
  exec (Reconcile r req) t o →
  ∃ (a : result WerfBundle) t', t = Ev (GetBundle req) a :: t' ∧
    match a with Ok b => chain_of b t' | Err _ => t' = [] end.
Proof.
  intros He. apply Reconcile_run in He. destruct He as [e He|e He|b t o Hr].
  - by exists (Err e), [].
  - by exists (Err e), [].
  - exists (Ok b), t. split; [done|]. by eapply read_chain.
Qed.

End Runs.

(** ** Properties of the stored bundle

    A property of the stored bundle that users cannot change by their edits is
    kept by a reconciliation whose writes keep it, whatever happens meanwhile.  If
    it is about the bundle with the UID of one known version, the [base], it need
    not hold of the bundles created after that one is gone. *)
Section Invariant.
Context `{Machinery} {conduct : Conduct}.
Variables (base : option WerfBundle) (Q : WerfBundle → Prop).
Hypothesis Q_edited : ∀ b b', edited b b' → Q b → Q b'.
Hypothesis Q_stored : ∀ b b', same_object b b' → Status b' = Status b → Q b → Q b'.
Hypothesis Q_created : ∀ b,
  Status b = zero_status → (∀ b0, base = Some b0 → UID (Meta b) ≠ UID (Meta b0)) → Q b.

Definition holds (w : world) : Prop :=
  versioned w ∧ (∀ b0, base = Some b0 → known w b0) ∧ ∀ b, w_bundle w = Some b → Q b.

Lemma holds_put w b : holds w → w_versions w !! version b = None → Q b → holds (put b w).
Proof.
  intros (Hv & Hk & Hq) Hn Hb. split; [by apply versioned_put|].
  split; [intros b0 E; by apply later_put, Hk|]. by intros ? [= <-].
Qed.

Lemma evolves_holds w w' : evolves w w' → holds w → holds w'.
Proof.
  intros Hw Hh. pose proof Hh as (Hv & Hk & Hq).
  destruct Hw as [b b' Hb He Hc Hn| |b Hb Es Hn Hu Hj|k j j' Hj Ho Hkj Hf|k|k j Hn Ho].
  - apply holds_put; [done..|]. eapply Q_edited; [exact He|by apply Hq].
  - split; [|done]. by destruct Hv.
  - apply holds_put; [done..|]. apply Q_created; [done|].
    intros b0 Eb Eu. by destruct (Hu b0 (Hk b0 Eb)).
  - split; [|done]. by destruct Hv.
  - split; [|done]. by destruct Hv.
  - split; [|done]. by destruct Hv.
Qed.

Lemma evolved_holds w w' : rtc evolves w w' → holds w → holds w'.
Proof. induction 1; [done|]. eauto using evolves_holds. Qed.

Lemma stores_holds w b0 b b' w' :
  holds w → known w b0 → derived b0 b → (Q b0 → Q b) → stores w b b' w' →
  holds w' ∧ known w' b' ∧ Q b0 ∧ Q b'.
Proof.
  intros Hh Hk Hd Hb Hst. pose proof Hh as (Hv & _ & Hq).
  destruct (stores_current _ _ _ _ _ Hv Hk Hd Hst) as (Hcur & Hsame & Es & Ew & _).
  destruct Hst as (_ & Hb' & _ & Hn & _).
  assert (Q b0) as Hq0 by (by apply Hq).
  assert (Q b') as Hq' by (by apply (Q_stored b b'); [..|apply Hb]).
  subst w'. split; [by apply holds_put|]. split; [apply known_put|]. done.
Qed.

Lemma drop_holds w : holds w → holds (drop_bundle w).
Proof. intros ([Hv Hc] & Hk & Hq). by split. Qed.

(** A write, accepted or not. *)
Lemma write_holds w b0 e b a w' :
  holds w → known w b0 → derived b0 b → (Q b0 → Q b) →
  write_of e = Some (b, a) → serve w e w' →
  holds w' ∧ ∀ b', a = Ok b' → known w' b' ∧ Q b0 ∧ Q b'.
Proof.
  intros Hh Hk Hd Hb He Hs.
  assert (∀ b', updates w b b' w' → holds w' ∧ known w' b' ∧ Q b0 ∧ Q b') as Hu.
  { intros b' [Hst|(_ & w1 & Hst & ->)];
      destruct (stores_holds _ _ _ _ _ Hh Hk Hd Hb Hst) as (H1 & H2 & H3); [done|].
    split; [by apply drop_holds|done]. }
  assert (∀ b', stores w b b' w' → holds w' ∧ known w' b' ∧ Q b0 ∧ Q b') as Hst
    by (intros b' Hst; by eapply stores_holds).
  destruct e as [[] ans]; try done; cbn in He; injection He as -> ->; destruct a as [b1|err].
  - destruct (Hu _ Hs) as (H1 & H2). split; [done|]. by intros ? [= <-].
  - destruct Hs as [->|[b1 Hs]]; [done|]. by destruct (Hu _ Hs).
  - destruct (Hst _ Hs) as (H1 & H2). split; [done|]. by intros ? [= <-].
  - destruct Hs as [->|[b1 Hs]]; [done|]. by destruct (Hst _ Hs).
Qed.

(** A call that is no write changes neither the bundle nor the versions. *)
Lemma other_world w e w' : write_of e = None → serve w e w' → ∃ jobs, w' = with_jobs jobs w.
Proof.
  assert (∃ jobs, w = with_jobs jobs w) as Hw by (exists (w_jobs w); by destruct w).
  assert (∀ j j', adds_job w j j' w' → ∃ jobs, w' = with_jobs jobs w) as Hadd
    by (intros j j' (_ & _ & ->); by eexists).
  intros He Hs. destruct e as [c a]; destruct c; try done; try (by destruct Hs as [_ ->]);
    destruct a; try done; try (by destruct Hs as [_ ->]).
  - by destruct Hs as (_ & _ & ->).
  - by eapply Hadd.
  - destruct Hs as [->|[j' Hs]]; [done|by eapply Hadd].
Qed.

Lemma other_holds w e w' : write_of e = None → serve w e w' → holds w → holds w'.
Proof.
  intros He Hs ([Hv Hc] & Hk & Hq). destruct (other_world _ _ _ He Hs) as [jobs ->]. by split.
Qed.

Lemma known_other w e w' b : write_of e = None → serve w e w' → known w b → known w' b.
Proof. intros He Hs. by destruct (other_world _ _ _ He Hs) as [jobs ->]. Qed.

Lemma chain_holds w b0 t w' :
  holds w → known w b0 → chain_of b0 t →
  (Q b0 → ∀ e b a, e ∈ t → write_of e = Some (b, a) → Q b) →
  served w t w' → holds w'.
Proof.
  intros Hh Hk Hc HQ Hsv. revert w Hh Hk Hsv.
  induction Hc as [b0|b0 e t He Hc IH|b0 b1 b2 e t He Hd Hc IH|b0 b1 err e He Hd];
    intros w Hh Hk Hsv; inversion Hsv as [? ? Hw|? w1 ? w2 ? ? Hw1 Hse Hacc Ht]; subst.
  { by eapply evolved_holds. }
  all: pose proof (evolved_holds _ _ Hw1 Hh) as Hh1;
    pose proof (proj1 (evolved_later _ _ Hw1) _ Hk) as Hk1.
  - apply (IH) with w2; [|by eapply other_holds|by eapply known_other|done].
    intros Hq e' b a Hin. apply (HQ Hq). by right.
  - destruct (write_holds w1 b0 e b1 (Ok b2) w2) as [Hh2 Hb]; [done..| |done|done|].
    { intros Hq. apply (HQ Hq e b1 (Ok b2)); [by left|done]. }
    destruct (Hb b2 eq_refl) as (Hk2 & Hq0 & Hq2).
    apply (IH) with w2; [|done..]. intros _ e' b a Hin. apply (HQ Hq0). by right.
  - destruct (write_holds w1 b0 e b1 (Err err) w2) as [Hh2 _]; [done..| |done|done|].
    { intros Hq. apply (HQ Hq e b1 (Err err)); [by left|done]. }
    inversion Ht; subst. by eapply evolved_holds.
Qed.

(** ** Steps of the system *)

(** A condition [P] on the calls of a reconciliation, which those that run to their
    end satisfy, and those that are cut short could have satisfied. *)
Context `{!MachineryOk} `{RegistryLib} (r : WerfBundleReconciler)
  `{!RegistryContract (r_RegistryClient r)}.
Variable P : list event → Prop.
Hypothesis P_run : ∀ t, run_ok t → P t.
Hypothesis P_cut : ∀ req t t' o, exec (Reconcile r req) (t ++ t') o → cut_ok t t' →
  ∃ t2 o2, exec (Reconcile r req) (t ++ t2) o2 ∧ Forall server_ok t2 ∧ P (t ++ t2).
Hypothesis Q_written : ∀ req b t o,
  read_run r b t o → Forall server_ok t → P (Ev (GetBundle req) (Ok b) :: t) → Q b →
  ∀ e b' a, e ∈ t → write_of e = Some (b', a) → Q b'.

(** The calls [t] of a reconciliation that might have gone on with [t2]. *)
Lemma begun_holds w req t t2 o w' :
  exec (Reconcile r req) (t ++ t2) o → Forall server_ok t2 → P (t ++ t2) →
  served w t w' → holds w → holds w'.
Proof.
  intros He Hs2 HP Hsv Hh. pose proof (served_server_ok _ _ _ Hsv) as Hok.
  destruct t as [|e t]; [inversion Hsv; subst; by eapply evolved_holds|].
  apply Forall_cons in Hok as [_ Hok]. cbn in He, HP. apply Reconcile_run in He.
  inversion Hsv as [|? w1 ? w2 ? ? Hw1 Hse Hacc Ht]; subst.
  pose proof (evolved_holds _ _ Hw1 Hh) as Hh1.
  remember (e :: t ++ t2) as l eqn:El.
  destruct He as [err Hn|err Hn|b l o Hr]; injection El as <- El.
  1, 2: symmetry in El; apply app_eq_nil in El as [-> ->]; inversion Ht; subst;
    destruct Hse as [_ ->]; by eapply evolved_holds.
  subst l. destruct Hse as (Hk & _ & ->). eapply (chain_holds w1 b t); [done|done| | |exact Ht].
  - apply (chain_prefix b t t2). exact (read_chain r _ _ _ Hr).
  - intros Hq e' b' a' Hin. apply (Q_written req b (t ++ t2) o Hr); [by apply Forall_app|done|done|].
    apply elem_of_app. by left.
Qed.

Lemma reconcile_holds w req t o w' :
  exec (Reconcile r req) t o → P t → served w t w' → holds w → holds w'.
Proof. intros He HP. apply (begun_holds w req t [] o w'); by rewrite ?app_nil_r. Qed.

Lemma step_holds w w' : step r w w' → holds w → holds w'.
Proof.
  intros Hst. destruct Hst as [w' Hw|req t o w' He Hsv Hrun|req t t' o w' He Hsv Hcut].
  - by apply evolves_holds.
  - eapply reconcile_holds; [exact He|by apply P_run|done].
  - destruct (P_cut _ _ _ _ He Hcut) as (t2 & o2 & He2 & Hs2 & HP). by eapply begun_holds.
Qed.

Lemma steps_holds w w' : rtc (step r) w w' → holds w → holds w'.
Proof. induction 1; [done|]. eauto using step_holds. Qed.

End Invariant.

(** In whatever way everyone behaves, the versions are kept apart. *)
Section Versions.
Context `{Machinery} `{!MachineryOk} `{RegistryLib} {conduct : Conduct} (r : WerfBundleReconciler)
  `{!RegistryContract (r_RegistryClient r)}.

(** The condition on reconciliations that all of them satisfy. *)
Lemma unconditional req t t' o :
  exec (Reconcile r req) (t ++ t') o → cut_ok t t' →
  ∃ t2 o2, exec (Reconcile r req) (t ++ t2) o2 ∧ Forall server_ok t2 ∧ True.
Proof. intros He _. destruct (crash_goes_on _ _ _ _ He) as (t2 & o2 & He2 & Hs2). by exists t2, o2. Qed.

Lemma versioned_holds w : versioned w → holds None (λ _, True) w.
Proof. done. Qed.

Lemma reachable_versioned w0 w : initial w0 → rtc (step r) w0 w → versioned w.
Proof.
  intros Hi%initial_versioned Hr.
  assert (holds None (λ _, True) w) as (Hv & _); [|done].
  by apply (steps_holds None (λ _, True) ltac:(done) ltac:(done) ltac:(done) r (λ _, True)
    ltac:(done) unconditional ltac:(done) w0 w Hr).
Qed.

Lemma begun_versioned w req t t2 o w' :
  exec (Reconcile r req) (t ++ t2) o → served w t w' → versioned w → versioned w'.
Proof.
  intros He Hsv Hv. destruct (crash_goes_on _ _ _ _ He) as (t3 & o3 & He3 & Hs3).
  by apply (begun_holds None (λ _, True) ltac:(done) ltac:(done) ltac:(done) r (λ _, True)
    ltac:(done) w req t t3 o3 w' He3 Hs3 I Hsv).
Qed.

End Versions.

(** ** Witness *)

#[local] Existing Instance sample_machinery.
#[local] Existing Instance sample_machinery_ok.
#[local] Existing Instance sample_lib.
#[local] Existing Instance sample_contract.

Lemma Reconcile_chained_witness :
  chain_of sample_bundle (tail (reconciliation sample_bundle 200 "v1.0.0" None).1) ∧
  (0 < length (omap write_of (tail (reconciliation sample_bundle 200 "v1.0.0" None).1)))%nat.
Proof.
  split; [|apply Nat.ltb_lt; vm_compute; reflexivity].
  destruct (Reconcile_chained sample_reconciler sample_request _ _
    (reconciliation_read_exec sample_bundle 200 "v1.0.0" None eq_refl eq_refl)) as (a & t' & E & Hc).
  assert (a = Ok sample_bundle) as ->.
  { symmetry. exact (f_equal (λ t, match t with Ev (GetBundle _) x :: _ => x | _ => Err server_error end) E). }
  apply (f_equal tail) in E. cbn [tail] in E. rewrite E. exact Hc.
Defined.
