(* ===== verification/Convergence.v ===== *)
(** * Where the reconciliations lead

    When nothing fails and the registry keeps offering one tag, the operator
    comes to rest: a measure on the status decreases with every reconciliation,
    and a bundle at rest is left as it is. *)
From S2P Require Import Prelude GoErrors Prog Api Kube Duration Backoff Values Yaml Fetch JobBuilder Logs Rbac Registry Controller Runs Server Samples Scenarios Safety Listing Lifecycle Jobs System Chains.

Section Convergence.
Context `{Machinery} `{!MachineryOk} `{RegistryLib} (r : WerfBundleReconciler)
  `{!RegistryContract (r_RegistryClient r)}.

(** The bundle a trace leaves behind: the answer to its last write. *)
Definition leave (b : WerfBundle) (e : event) : WerfBundle :=
  match write_of e with Some (_, Ok b') => b' | _ => b end.

Definition leaves (b : WerfBundle) (t : list event) : WerfBundle := foldl leave b t.

(** Reads and writes succeed, and a job that is looked at has ended. *)
Definition faultless (e : event) : bool :=
  match e with
  | Ev (GetBundle _) (Err _) | Ev (UpdateBundle _) (Err _) | Ev (StatusUpdate _) (Err _)
  | Ev (GetServiceAccount _) (Err _) => false
  | Ev (GetJob _) (Ok j) => finished j
  | Ev (GetJob _) (Err e) => IsNotFound e
  | _ => true
  end.

Definition valid (b : WerfBundle) : Prop :=
  DeletionTimestamp (Meta b) = None ∧ ValidateCrossNamespaceDeployment b = None.

(** One reconciliation of [b] to which the registry offers [T] as the greatest tag,
    its calls, and the bundle it leaves. *)
Definition pass (T : string) (b : WerfBundle) (t : list event) (b' : WerfBundle) : Prop :=
  ∃ req o, exec (Reconcile r req) (Ev (GetBundle req) (Ok b) :: t) o ∧
    Forall server_ok t ∧ forallb faultless t = true ∧ lists r T b t ∧ b' = leaves b t.

(** How many reconciliations [T] is away. *)
Definition distance (T : string) (b : WerfBundle) : nat :=
  if decide (LastAppliedTag (Status b) = T) then
    if decide (Phase (Status b) = PhaseSynced) then 0 else 1
  else if decide (ActiveJobName (Status b) = EmptyString) then 2 else 3.

Lemma distance_status T b b' : Status b' = Status b → distance T b' = distance T b.
Proof. unfold distance. by intros ->. Qed.

Lemma distance_noted T b x :
  Status x = set_ResolvedTargetNamespace (target_of b) (Status b) → distance T x = distance T b.
Proof. unfold distance. by intros ->. Qed.

Lemma distance_polled T etag b : distance T (on_Status (polled etag) b) = distance T b.
Proof.
  destruct (polled_fields etag (Status b)) as (Ep & Et & Ea & _). unfold distance.
  cbn [on_Status set_Status Status]. by rewrite Ep, Et, Ea.
Qed.

Lemma distance_applied T b : LastAppliedTag (Status b) = T → (distance T b <= 1)%nat.
Proof. intros E. unfold distance. rewrite decide_True by done. case_decide; lia. Qed.

Lemma distance_waiting T b :
  LastAppliedTag (Status b) ≠ T → ActiveJobName (Status b) ≠ EmptyString → distance T b = 3%nat.
Proof. intros Hl Ha. unfold distance. by rewrite !decide_False. Qed.

Lemma distance_free T b :
  LastAppliedTag (Status b) ≠ T → ActiveJobName (Status b) = EmptyString → distance T b = 2%nat.
Proof. intros Hl Ha. unfold distance. by rewrite decide_False, decide_True. Qed.

Lemma leaves_app b t1 t2 : leaves b (t1 ++ t2) = leaves (leaves b t1) t2.
Proof. apply foldl_app. Qed.

Lemma leaves_accepted b x b1 t : leaves b (Ev (StatusUpdate x) (Ok b1) :: t) = leaves b1 t.
Proof. done. Qed.

Lemma leaves_calm b t : Forall calm t → leaves b t = b.
Proof.
  intros Ht%calm_writes. induction Ht as [|e t He _ IH]; [done|]. cbn. unfold leave at 2. by rewrite He.
Qed.

(** The part of the status the measure does not look at is kept by the chain of
    writes: a reconciliation of [b] leaves the target namespace noted. *)
Definition reaches (T : string) (b x : WerfBundle) : Prop :=
  same_object b x ∧ ResolvedTargetNamespace (Status x) = ResolvedTargetNamespace (Status b) ∧
  (distance T x <= pred (distance T b))%nat.

(** The tag is recorded before anything else is done, and stays. *)
Definition applies (T : string) (b x : WerfBundle) : Prop :=
  same_object b x ∧ ResolvedTargetNamespace (Status x) = ResolvedTargetNamespace (Status b) ∧
  LastAppliedTag (Status x) = T.

Lemma applies_write T b f b1 a :
  LastAppliedTag (f (Status b)) = T →
  ResolvedTargetNamespace (f (Status b)) = ResolvedTargetNamespace (Status b) →
  server_ok (Ev (StatusUpdate (on_Status f b)) a) → a = Ok b1 →
  applies T b b1.
Proof.
  intros ET ER Hok ->. destruct Hok as [Hs Es]. split; [exact Hs|]. by rewrite Es.
Qed.

Lemma applies_trans T b b1 x : applies T b b1 → applies T b1 x → applies T b x.
Proof.
  intros (Hs & Er & _) (Hs' & Er' & Et'). split; [by etransitivity|]. split; [congruence|done].
Qed.

Lemma applies_reaches T b x : LastAppliedTag (Status b) ≠ T → applies T b x → reaches T b x.
Proof.
  intros Hb (Hs & Er & Et). split; [done|]. split; [done|].
  pose proof (distance_applied T x Et). unfold distance at 2. rewrite decide_False by done.
  case_decide; lia.
Qed.

(** One last write, whatever was written before it. *)
Lemma applies_last T x b f a :
  Forall server_ok [Ev (StatusUpdate (on_Status f b)) a] →
  forallb faultless [Ev (StatusUpdate (on_Status f b)) a] = true →
  LastAppliedTag (f (Status b)) = T →
  ResolvedTargetNamespace (f (Status b)) = ResolvedTargetNamespace (Status b) →
  applies T b (leaves x [Ev (StatusUpdate (on_Status f b)) a]).
Proof.
  intros [Hok _]%Forall_cons Hf ET ER. destruct a as [b1|e]; [|done].
  exact (applies_write T b f b1 _ ET ER Hok eq_refl).
Qed.

Lemma create_applies T x b t o :
  T ≠ EmptyString → create_run r b T t o → Forall server_ok t → forallb faultless t = true →
  applies T b (leaves x t).
Proof.
  intros HT Hr Hok Hf.
  pose proof (syncing_fields T (Status b)) as (_ & _ & _ & _ & _ & _ & Et).
  rewrite decide_False in Et by done.
  assert (ResolvedTargetNamespace (syncing T (Status b)) = ResolvedTargetNamespace (Status b)) as Er
    by (unfold syncing; by case_decide).
  destruct Hr as [e|b1 tb m He|b1 tb e a He|b1 tb job e a He|b1 tb job job' a He]; [done|..];
    apply Forall_cons in Hok as [Hok1 Hok]; cbn in Hf;
    pose proof (applies_write T b _ b1 _ Et Er Hok1 eq_refl) as Ha;
    (eapply applies_trans; [exact Ha|]); rewrite leaves_accepted.
  1: by rewrite (leaves_calm b1 tb (calm_build _ _ _ _ _ He)); destruct Ha as (? & ? & ?).
  all: rewrite leaves_app, (leaves_calm b1 tb (calm_build _ _ _ _ _ He));
    apply Forall_app in Hok as [_ Hok]; rewrite forallb_app in Hf; apply andb_prop in Hf as [_ Hf];
    pose proof (proj2 (proj2 Ha)) as E1.
  - by apply applies_last.
  - apply Forall_cons in Hok as [_ Hok]. exact (applies_last T b1 b1 _ a Hok Hf E1 eq_refl).
  - apply Forall_cons in Hok as [_ Hok]. exact (applies_last T b1 b1 _ a Hok Hf E1 eq_refl).
Qed.

(** The write at the end of a job: of the bundle as log capture left it. *)
Lemma captured_end x b b0 job tl b' t f a :
  exec (capture_logs r b0 job) tl (Done b') → same_object b b0 →
  Forall server_ok (tl ++ t ++ [Ev (StatusUpdate (on_Status f b')) a]) →
  forallb faultless (tl ++ t ++ [Ev (StatusUpdate (on_Status f b')) a]) = true →
  same_object b (leaves x (tl ++ t ++ [Ev (StatusUpdate (on_Status f b')) a])) ∧
  Status (leaves x (tl ++ t ++ [Ev (StatusUpdate (on_Status f b')) a])) = f (Status b') ∧
  (b' = b0 ∨ ∃ s, b' = on_Status (set_LastJobLogs s) b0).
Proof.
  intros He Hb Hok Hf. rewrite app_assoc in *. rewrite leaves_app.
  rewrite forallb_app in Hf. apply andb_prop in Hf as [_ Hf].
  apply Forall_app in Hok as [_ [Hok _]%Forall_cons].
  destruct a as [b2|e]; [|done]. destruct Hok as [Hs Es].
  destruct (capture_captured _ _ _ _ _ He) as [->|(s & logs & -> & _)].
  - split; [by etransitivity|]. split; [exact Es|by left].
  - split; [by etransitivity|]. split; [exact Es|right; by exists s].
Qed.

Lemma monitor_reaches T x b job t o :
  LastAppliedTag (Status b) ≠ T → ActiveJobName (Status b) ≠ EmptyString → finished job = true →
  monitor_run r b job T t o → Forall server_ok t → forallb faultless t = true →
  reaches T b (leaves x t).
Proof.
  intros Hb Ha Hj Hr Hok Hf. unfold finished in Hj.
  destruct Hr as [Hs Hf0|tl b' now a Hs He|tl b' a Hs Hf0 He].
  - exfalso. destruct (job_Status job); cbn in *. lia.
  - destruct (captured_end x b _ job tl b' [@Ev kube_sig TimeNow now] (synced T now) a He) as (Hs' & Es & Hb'); [done..|].
    apply applies_reaches; [done|]. split; [exact Hs'|].
    cbn [app] in Es. rewrite Es. by destruct Hb' as [->|[s ->]].
  - destruct (captured_end x b _ job tl b' [] (failed "Job failed, see job logs for details") a He) as (Hs' & Es & Hb'); [done..|].
    cbn [app] in Es. split; [exact Hs'|].
    assert (LastAppliedTag (Status b') = LastAppliedTag (Status b) ∧
      ActiveJobName (Status b') = EmptyString ∧
      ResolvedTargetNamespace (Status b') = ResolvedTargetNamespace (Status b)) as (El & Ea & Er)
      by (destruct Hb' as [->|[s ->]]; done).
    rewrite (distance_waiting T b), distance_free by (rewrite ?Es; cbn; congruence).
    split; [rewrite Es; exact Er | done].
Qed.

Lemma ensure_reaches T x b t o :
  T ≠ EmptyString → LastAppliedTag (Status b) ≠ T →
  ensure_run r b T t o → Forall server_ok t → forallb faultless t = true →
  reaches T b (leaves x t).
Proof.
  intros HT Hb Hr Hok Hf. destruct Hr as [t o Ha Hr|e t o Ha He Hr|e Ha He|job t o Ha Hr].
  - apply applies_reaches; [done|]. by eapply create_applies.
  - apply applies_reaches; [done|]. apply Forall_cons in Hok as [_ Hok].
    cbn in Hf. apply andb_prop in Hf as [_ Hf].
    exact (create_applies T x (on_Status (set_ActiveJobName EmptyString) b) t o HT Hr Hok Hf).
  - cbn in Hf. by rewrite He in Hf.
  - apply Forall_cons in Hok as [_ Hok]. cbn in Hf. apply andb_prop in Hf as [Hj Hf].
    exact (monitor_reaches T x b job t o Hb Ha Hj Hr Hok Hf).
Qed.

Lemma poll_reaches T b t o :
  lists r T b t → T ≠ EmptyString → poll_run r b t o → Forall server_ok t → forallb faultless t = true →
  reaches T b (leaves b t).
Proof.
  intros HL HT Hr Hok Hf.
  destruct Hr as [th m He|th tags etag e t o He Hr|th etag t o He Hp1 Hp2 Hr|th etag b1 t o He Hp Hr
    |th etag e He Hp|th tags etag He Hl Hp|th tags etag now a He Hl Hp|th tags etag tag t o He Hl Hn Hr];
    (destruct (lists_here r T b _ _ _ HL He) as (tags' & etag' & E & Hlast)
     || destruct (lists_whole r T b _ _ HL He) as (tags' & etag' & E & Hlast)); try done; injection E as <- <-; try done;
    pose proof (calm_listing _ _ _ _ He) as Hth; rewrite ?leaves_app, (leaves_calm b th Hth);
    rewrite Hl in Hlast; injection Hlast as Hlast.
  - split; [done|]. split; [done|]. unfold distance. rewrite !decide_True by done. lia.
  - apply Forall_app in Hok as [_ [_ Hok]%Forall_cons].
    rewrite forallb_app in Hf. apply andb_prop in Hf as [_ Hf].
    destruct a as [b1|e]; [|done]. apply Forall_cons in Hok as [[Hs Es] _].
    destruct (polled_fields etag (Status b)) as (Ep & Et & Ea & Ej & Em & Ee & El & Ec).
    split; [exact Hs|]. cbn [leaves foldl leave write_of].
    split; [rewrite Es; cbn; unfold polled; by case_match|].
    unfold distance at 1. rewrite Es, !decide_True by done. lia.
  - subst tag. apply Forall_app in Hok as [_ Hok].
    rewrite forallb_app in Hf. apply andb_prop in Hf as [_ Hf].
    destruct (polled_fields etag (Status b)) as (Ep & Et & Ea & _).
    destruct (ensure_reaches T b (on_Status (polled etag) b) t o) as (Hs & Er & Hd); [done| |done..|].
    { change (LastAppliedTag (polled etag (Status b)) ≠ T). by rewrite Et. }
    split; [exact Hs|]. split; [rewrite Er; cbn; unfold polled; by case_match|].
    by rewrite distance_polled in Hd.
Qed.

Lemma account_reaches T b t o :
  lists r T b t → T ≠ EmptyString → account_run r b t o → Forall server_ok t →
  forallb faultless t = true → reaches T b (leaves b t).
Proof.
  intros HL HT Hr Hok Hf. destruct Hr as [t o Hs Hr|t o Hs Hr|e a Hs]; [|..|done].
  - by eapply poll_reaches.
  - apply Forall_cons in Hok as [_ Hok]. refine (poll_reaches T b t o _ HT Hr Hok Hf).
    by apply (lists_after r T b b) in HL.
Qed.

(** Nearer to [T], with the target namespace noted. *)
Definition nearer (T : string) (b x : WerfBundle) : Prop :=
  same_object b x ∧ ResolvedTargetNamespace (Status x) = target_of x ∧
  (distance T x <= pred (distance T b))%nat.

Lemma check_nearer T b t o :
  lists r T b t → T ≠ EmptyString → ValidateCrossNamespaceDeployment b = None →
  check_run r b t o → Forall server_ok t → forallb faultless t = true → nearer T b (leaves b t).
Proof.
  intros HL HT Hv Hr Hok Hf. destruct Hr as [err a Hv'|t o Hv' Hn Hr|b1 t o Hv' Hn Hr|e Hv' Hn];
    [congruence| | |done].
  - destruct (account_reaches T b t o) as (Hs & Er & Hd); [done..|].
    split; [done|]. split; [|done]. by rewrite Er, Hn, (same_object_target _ _ Hs).
  - apply Forall_cons in Hok as [[Hs Es] Hok]. rewrite leaves_accepted.
    destruct (account_reaches T b1 t o) as (Hs' & Er & Hd);
      [apply (lists_after r T b b1) in HL; [done|exact (listing_noted r b b1 (conj Hs Es))|done]|done..|].
    assert (same_object b b1) as Hb1 by exact Hs.
    split; [by etransitivity|]. split.
    + rewrite Er, Es, (same_object_target _ _ Hs'). by rewrite (same_object_target _ _ Hb1).
    + by rewrite <- (distance_noted T b b1).
Qed.

Lemma read_nearer T b t o :
  lists r T b t → T ≠ EmptyString → valid b →
  read_run r b t o → Forall server_ok t → forallb faultless t = true → nearer T b (leaves b t).
Proof.
  intros HL HT [Hd Hv] Hr Hok Hf.
  destruct Hr as [d Hd' Hf'|d a Hd' Hf'|t o Hd' Hf' Hr|b1 t o Hd' Hf' Hr|e Hd' Hf']; try congruence.
  - by eapply check_nearer.
  - apply Forall_cons in Hok as [[Hs Es] Hok].
    destruct (AddFinalizer_same b finalizerName) as (Hsa & Esa & _).
    assert (same_object b b1) as Hb1 by (by etransitivity).
    destruct (check_nearer T b1 t o) as (Hs' & Er & Hdist);
      [apply (lists_after r T b b1) in HL; [done|by apply listing_same; [|congruence]|done]|done| |done..|].
    { by rewrite (same_object_validate _ _ Hb1). }
    split; [by etransitivity|]. split; [exact Er|]. by rewrite <- (distance_status T b b1) by congruence.
  - done.
Qed.

(** ** At rest *)

Definition at_rest (T : string) (b : WerfBundle) : Prop :=
  Phase (Status b) = PhaseSynced ∧ LastAppliedTag (Status b) = T ∧
  ResolvedTargetNamespace (Status b) = target_of b.

Lemma distance_zero T b :
  distance T b = 0%nat → Phase (Status b) = PhaseSynced ∧ LastAppliedTag (Status b) = T.
Proof. unfold distance. repeat case_decide; done. Qed.

(** No status is written and no job created. *)
Definition idle_call (e : event) : Prop :=
  match e with Ev (StatusUpdate _) _ | Ev (CreateJob _) _ => False | _ => True end.

Lemma poll_idle T b t o :
  lists r T b t → Phase (Status b) = PhaseSynced → LastAppliedTag (Status b) = T →
  poll_run r b t o → Forall idle_call t.
Proof.
  intros HL Hp0 Ht0 Hr.
  destruct Hr as [th m He|th tags etag e t o He Hr|th etag t o He Hp1 Hp2 Hr|th etag b1 t o He Hp Hr
    |th etag e He Hp|th tags etag He Hl Hp|th tags etag now a He Hl Hp|th tags etag tag t o He Hl Hn Hr];
    (destruct (lists_here r T b _ _ _ HL He) as (tags' & etag' & E & Hlast)
     || destruct (lists_whole r T b _ _ HL He) as (tags' & etag' & E & Hlast)); try done; injection E as <- <-; try done.
  - eapply calls_exec; [|exact He]. eapply calls_mono; [|apply (listing_calls r)]. by intros [[] a].
  - congruence.
Qed.

Lemma check_idle T b t o :
  lists r T b t → valid b → at_rest T b → check_run r b t o → forallb faultless t = true →
  Forall idle_call t.
Proof.
  intros HL [Hd Hv] (Hp & Ht & Hres) Hr Hf.
  destruct Hr as [err a Hv'|t o Hv' Hn Hr|b1 t o Hv' Hn Hr|e Hv' Hn]; try congruence.
  destruct Hr as [t o Hs Hr|t o Hs Hr|e a Hs]; [| |done].
  - by eapply poll_idle.
  - constructor; [done|]. apply (lists_after r T b b) in HL; [|done..]. by eapply poll_idle.
Qed.

Lemma read_idle T b t o :
  lists r T b t → valid b → at_rest T b → read_run r b t o → Forall server_ok t →
  forallb faultless t = true → Forall idle_call t.
Proof.
  intros HL [Hd Hv] (Hp & Ht & Hres) Hr Hok Hf.
  destruct Hr as [d Hd' Hf'|d a Hd' Hf'|t o Hd' Hf' Hr|b1 t o Hd' Hf' Hr|e Hd' Hf']; try congruence.
  - by eapply check_idle.
  - apply Forall_cons in Hok as [[Hs Es] Hok]. constructor; [done|].
    destruct (AddFinalizer_same b finalizerName) as (Hsa & Esa & _).
    assert (same_object b b1) as Hb1 by (by etransitivity). rewrite Esa in Es.
    eapply (check_idle T b1); [| | |exact Hr|done].
    + apply (lists_after r T b b1) in HL; [done|by apply listing_same; [|congruence]|done].
    + split; [by rewrite (proj1 (proj2 (proj2 Hb1)))|by rewrite (same_object_validate _ _ Hb1)].
    + split; [by rewrite Es|]. split; [by rewrite Es|]. by rewrite Es, (same_object_target _ _ Hb1).
  - by each_event.
Qed.

(** ** Convergence *)

Inductive passes (T : string) : nat → WerfBundle → WerfBundle → Prop :=
| passes_none b : passes T 0 b b
| passes_more n b t b1 b' : pass T b t b1 → passes T n b1 b' → passes T (S n) b b'.

Lemma pass_nearer T b t b' :
  T ≠ EmptyString → valid b → pass T b t b' → nearer T b b' ∧ valid b'.
Proof.
  intros HT Hv (req & o & He & Hok & Hf & HL & ->). apply Reconcile_read in He.
  destruct (read_nearer T b t o) as (Hs & Er & Hd); [done..|].
  split; [done|]. destruct Hv as [Hdel Hval].
  split; [by rewrite (proj1 (proj2 (proj2 Hs)))|by rewrite (same_object_validate _ _ Hs)].
Qed.

Lemma passes_nearer T n b b' :
  T ≠ EmptyString → valid b → passes T n b b' →
  valid b' ∧ (distance T b' <= distance T b - n)%nat ∧
  ((0 < n)%nat → ResolvedTargetNamespace (Status b') = target_of b').
Proof.
  intros HT Hv Hn. induction Hn as [b|n b t b1 b' Hp Hn IH].
  - split; [done|]. split; [lia|]. lia.
  - destruct (pass_nearer T b t b1 HT Hv Hp) as [(Hs & Er & Hd) Hv1].
    destruct (IH Hv1) as (Hv' & Hd' & Hr'). split; [done|]. split; [lia|]. intros _.
    destruct Hn as [b1|n b1 t1 b2 b' Hp1 Hn]; [done|]. apply Hr'. lia.
Qed.


End Convergence.

(** ** Witness *)

#[local] Existing Instance sample_machinery.
#[local] Existing Instance sample_machinery_ok.
#[local] Existing Instance sample_lib.
#[local] Existing Instance sample_contract.

(** The registry has v1.0.0; the bundle has an older tag and its job has failed. *)
Definition staged (b : WerfBundle) : list event * outcome (Result * option error) :=
  visit sample_reconciler b 200 "v1.0.0" (Some (job_with 0 1)).
Definition stage (n : nat) : WerfBundle :=
  Nat.iter n (λ b, leaves b (tail (staged b).1))
    (bundle_with (λ s, job_state JobStatusRunning "my-app-e4b60778-12345678" (syncing "v0.9.0" s))).

Lemma stage_pass n :
  Name (Meta (stage n)) = "my-app" → Namespace (Meta (stage n)) = "default" →
  forallb faultless (tail (staged (stage n)).1) = true → existsb asks (tail (staged (stage n)).1) = true →
  greatest (@answered kube_sig _ (cluster (stage n) 200 "v1.0.0" (Some (job_with 0 1)))
              (listing sample_reconciler (stage n))).2 = Some "v1.0.0" →
  pass sample_reconciler "v1.0.0" (stage n) (tail (staged (stage n)).1) (stage (S n)).
Proof.
  intros Hn Hns Hf Hx HT. eexists sample_request, _. split; [by apply visit_read_exec|].
  split; [by eapply Forall_inv_tail, visit_read_ok|]. split; [done|]. split; [|done].
  apply run_lists; [|intros c; apply cluster_ok|done|done]. cbn. by rewrite Hn, Hns.
Qed.

