(* ===== verification/Progress.v ===== *)
(** * A new tag is deployed

    The counterpart of Safety.v and Delivery.v, which say when a job may be created
    and what it deploys: under which conditions one is. *)
From S2P Require Import Prelude GoErrors Prog Api Kube Duration Backoff Values Yaml Fetch JobBuilder Logs Rbac Registry Controller Runs Server Samples Scenarios Safety Listing Delivery Lifecycle Policy Jobs System Chains Convergence.

Section Progress.
Context `{Machinery} `{!MachineryOk} `{RegistryLib} (r : WerfBundleReconciler)
  `{!RegistryContract (r_RegistryClient r)}.

(** The scheme of the manager has the kind of the bundle. *)
Definition knows_bundles : Prop :=
  ∃ s, r_Scheme r = Some s ∧ ∀ b, ∃ g gs, ObjectKinds s b = Ok (g :: gs).

(** The limits are quantities, and the values of the sources can be computed. *)
Definition buildable (snap : Snapshot) (b : WerfBundle) : Prop :=
  (∀ ty, ty ∈ ["cpu"; "memory"] → ∃ q, ParseQuantity (resource_value b ty) = Ok q) ∧
  sources_clean snap b ∧
  ∃ values, resolve_spec snap 0 (ValuesFrom (Converge (Spec b))) (Namespace (Meta b)) (target_of b) []
            = Ok values.

Lemma buildable_same snap b b' : same_object b b' → buildable snap b → buildable snap b'.
Proof.
  intros Hb. unfold buildable, sources_clean, resource_value.
  rewrite (same_object_target _ _ Hb), (same_object_namespace _ _ Hb).
  destruct Hb as (_ & _ & _ & Hs). by rewrite Hs.
Qed.

Lemma build_succeeds snap b T t o :
  2 ^ 28 <= fnv32a T → knows_bundles → buildable snap b →
  exec (Build (builder_for r b) T) t o → Forall (agrees snap) t → ∃ j, o = Done (Ok j).
Proof.
  intros Hh (s & Es & Hk) (Hq & Hc & values & Hv) He Ht.
  assert (∀ name args, ∃ j, finish_build (r_Scheme r) b T name args = mret (Ok j)) as Hfinish.
  { intros name args. rewrite finish_build_cases, Es.
    destruct (Hq "cpu") as [qc ->]; [by left|]. destruct (Hq "memory") as [qm ->]; [by right; left|].
    destruct (Hk b) as (g & gs & ->). by eexists. }
  refine (wp_exec (agrees snap) _ (λ _ o, ∃ j, o = Done (Ok j)) t o _ He Ht). clear t o He Ht.
  unfold Build. cbn [builder_for werf scheme WithValuesResolver WithScheme NewBuilder valuesResolver].
  eapply wp_call; [eapply wp_legal_mono, (no_panic_jobName b T Hh); done|].
  intros t1 o1 [name ->]. cbn [after].
  case_decide as Hs; [destruct (Hfinish name (base_args b T)) as [j ->]; by exists j|].
  eapply wp_call; [exact (wp_resolve_from snap 0 _ _ _ [] Hc)|]. intros t2 o2 ->. cbn [after].
  rewrite Hv. destruct (Hfinish name (base_args b T ++ GenerateSetFlags values)) as [j ->]. by exists j.
Qed.

(** ** The way to the job *)

Section Way.
Context (snap : Snapshot) (T : string) (Hh : 2 ^ 28 <= fnv32a T) (Hk : knows_bundles).

(** Nothing stands in the way: live, valid, idle, with another tag recorded. *)
Definition waiting (b : WerfBundle) : Prop :=
  valid b ∧ ActiveJobName (Status b) = EmptyString ∧ LastAppliedTag (Status b) ≠ T ∧ buildable snap b.

Definition smooth (t : list event) : Prop :=
  Forall server_ok t ∧ Forall (agrees snap) t ∧ forallb faultless t = true.

Lemma smooth_cons e t : smooth (e :: t) → server_ok e ∧ faultless e = true ∧ smooth t.
Proof.
  intros ([Hs1 Hs]%Forall_cons & [_ Ha]%Forall_cons & [Hf1 Hf]%andb_prop). done.
Qed.

Lemma smooth_app t1 t2 : smooth (t1 ++ t2) → smooth t1 ∧ smooth t2.
Proof.
  intros ([Hs1 Hs2]%Forall_app & [Ha1 Ha2]%Forall_app & Hf).
  rewrite forallb_app in Hf. by apply andb_prop in Hf as [Hf1 Hf2].
Qed.

Lemma waiting_same b b' :
  same_object b b' → ActiveJobName (Status b') = ActiveJobName (Status b) →
  LastAppliedTag (Status b') = LastAppliedTag (Status b) → waiting b → waiting b'.
Proof.
  intros Hb Ea Et ([Hd Hv] & Ha & Ht & Hbuild). split; [|split; [congruence|split; [congruence|]]].
  - split; [by rewrite (proj1 (proj2 (proj2 Hb)))|by rewrite (same_object_validate _ _ Hb)].
  - by eapply buildable_same.
Qed.

Lemma create_sends b t o :
  buildable snap b → smooth t → create_run r b T t o → ∃ j, omap creates t = [j].
Proof.
  intros Hb Ht Hr. destruct Hr as [e|b1 tb m He|b1 tb e a He|b1 tb job e a He|b1 tb job job' a He];
    [by destruct Ht as (_ & _ & ?)|..];
    apply smooth_cons in Ht as ([Hs _] & _ & Ht); apply (buildable_same snap b b1 Hs) in Hb;
    cbn; rewrite ?omap_app, (build_creates r _ _ _ _ He).
  1: destruct (build_succeeds snap b1 T tb _ Hh Hk Hb He) as [j ?]; [apply Ht|done].
  all: apply smooth_app in Ht as [Ht _];
    destruct (build_succeeds snap b1 T tb _ Hh Hk Hb He) as [j ?]; [apply Ht|]; try done; by eexists.
Qed.

Lemma poll_sends b t o :
  lists r T b t → waiting b → smooth t → poll_run r b t o → ∃ j, omap creates t = [j].
Proof.
  intros HL Hw Ht Hr.
  destruct Hr as [th m He|th tags etag e t o He Hr|th etag t o He Hp1 Hp2 Hr|th etag b1 t o He Hp Hr
    |th etag e He Hp|th tags etag He Hl Hp|th tags etag now a He Hl Hp|th tags etag tag t o He Hl Hn Hr];
    (destruct (lists_here r T b _ _ _ HL He) as (tags' & etag' & E & Hlast)
     || destruct (lists_whole r T b _ _ HL He) as (tags' & etag' & E & Hlast)); try done; injection E as <- <-; try done;
    rewrite Hl in Hlast; injection Hlast as Hlast.
  - by destruct Hw as (_ & _ & ? & _).
  - by destruct Hw as (_ & _ & ? & _).
  - subst tag. apply smooth_app in Ht as [_ Ht]. rewrite omap_app, (listing_creates r _ _ _ He).
    destruct (polled_fields etag (Status b)) as (_ & _ & Ea & _). destruct Hw as (_ & Hact & _ & Hb).
    destruct Hr as [t o Ha Hr|e t o Ha _ Hr|e Ha _|job t o Ha Hr];
      [|by destruct Ha; exact (eq_trans Ea Hact)..].
    apply (create_sends (on_Status (polled etag) b) t o); [|done..]. exact Hb.
Qed.

Lemma account_sends b t o :
  lists r T b t → waiting b → smooth t → account_run r b t o → ∃ j, omap creates t = [j].
Proof.
  intros HL Hw Ht Hr. destruct Hr as [t o Hs Ha|t o Hs Ha|e a Hs]; [by eapply poll_sends|..].
  - apply smooth_cons in Ht as (_ & _ & Ht). apply (lists_after r T b b) in HL; [|done..].
    by apply (poll_sends b t o).
  - by apply smooth_cons in Ht as (_ & ? & _).
Qed.

Lemma check_sends b t o :
  lists r T b t → waiting b → smooth t → check_run r b t o → ∃ j, omap creates t = [j].
Proof.
  intros HL Hw Ht Hr. destruct Hr as [err a Hv|t o Hv Hn Ha|b1 t o Hv Hn Ha|e Hv Hn].
  - destruct Hw as ([_ Hv'] & _). congruence.
  - by eapply account_sends.
  - apply smooth_cons in Ht as ([Hs Es] & _ & Ht). apply (account_sends b1 t o); [| |done..].
    + apply (lists_after r T b b1) in HL; [done|exact (listing_noted r b b1 (conj Hs Es))|done].
    + eapply waiting_same; [exact Hs|by rewrite Es..|done].
  - by apply smooth_cons in Ht as (_ & ? & _).
Qed.

Lemma read_sends b t o :
  lists r T b t → waiting b → smooth t → read_run r b t o → ∃ j, omap creates t = [j].
Proof.
  intros HL Hw Ht Hr.
  destruct Hr as [d Hd Hf|d a Hd Hf|t o Hd Hf Hr|b1 t o Hd Hf Hr|e Hd Hf];
    try (destruct Hw as ([? _] & _); congruence).
  - by eapply check_sends.
  - apply smooth_cons in Ht as ([Hs Es] & _ & Ht).
    destruct (AddFinalizer_same b finalizerName) as (Hsa & Esa & _).
    assert (same_object b b1) as Hb1 by (by etransitivity).
    apply (check_sends b1 t o); [| |done..].
    + apply (lists_after r T b b1) in HL; [done|by apply listing_same; [|congruence]|done].
    + eapply waiting_same; [exact Hb1|rewrite Es, Esa; done..|done].
  - by apply smooth_cons in Ht as (_ & ? & _).
Qed.

(** The job that is sent deploys the tag that is listed. *)
Lemma reconcile_sends req b t o :
  exec (Reconcile r req) (Ev (GetBundle req) (Ok b) :: t) o →
  lists r T b t → waiting b → smooth t → ∃ j, omap creates t = [j] ∧ delivers snap b T j.
Proof.
  intros He HL Hw Ht. pose proof He as Hr. apply Reconcile_read in Hr.
  destruct (read_sends b t o HL Hw Ht Hr) as [j Hj]. exists j. split; [done|].
  destruct Ht as (Hs & Ha & _).
  destruct (Reconcile_built r req b t o j He Hs) as (tag & Hnew & Hb); [rewrite Hj; by left|].
  rewrite (new_tag_lists r b t T tag Hnew HL) in Hb.
  apply (built_delivers r snap b t T j Hb Ha), Hw.
Qed.

End Way.

(** C7 A new tag is deployed.  A reconciliation that finds a live, valid bundle
    without an active job, and whose listing offers as the greatest tag one that is
    not the one recorded, sends exactly one job to the API server, the one that
    deploys that tag with the values of the snapshot - provided its reads and writes
    of the bundle and of the account succeed, the scheme has the kind of the bundle,
    the limits are quantities, the values can be computed and the hash of the tag
    has eight digits.  No order of a map and no random byte keeps it from
    doing so. *)
Theorem Reconcile_deploys snap T req b t o :
  2 ^ 28 <= fnv32a T → knows_bundles → waiting snap T b →
  exec (Reconcile r req) (Ev (GetBundle req) (Ok b) :: t) o → lists r T b t → smooth snap t →
  ∃ j, omap creates t = [j] ∧ delivers snap b T j.
Proof. intros Hh Hk Hw He HL Ht. by eapply reconcile_sends. Qed.

(** C38 A registry error deploys the same tag again.  After a registry error that is
    retried, the last applied tag is the error's text: the next reconciliation of
    the bundle as that status write left it, to which the registry offers any
    greatest tag - also the one deployed before the error - sends exactly one job
    to the API server, one that deploys that tag, under the conditions on the
    reconciliation of C7: the bundle valid and without an active job, reads and
    writes that succeed, values, limits and a hash that can be used. *)
Theorem retry_redeploys snap b e interval now b' b1 o T req t o' :
  exec (handleRegistryError r b e interval) [Ev TimeNow now; Ev (StatusUpdate b') (Ok b1)] o →
  room (Status b) → As_NotModified e = false → ConsecutiveFailures (Status b) < 5 →
  server_ok (Ev (StatusUpdate b') (Ok b1)) →
  valid b → ActiveJobName (Status b) = EmptyString → buildable snap b → knows_bundles →
  2 ^ 28 <= fnv32a T → T ≠ retry_message (ConsecutiveFailures (Status b) + 1) e →
  exec (Reconcile r req) (Ev (GetBundle req) (Ok b1) :: t) o' → lists r T b1 t → smooth snap t →
  LastAppliedTag (Status b1) = retry_message (ConsecutiveFailures (Status b) + 1) e ∧
  ∃ j, omap creates t = [j] ∧ delivers snap b1 T j.
Proof.
  intros He Hb Hm Hc [Hs1 Es1] Hv Ha Hbuild Hk Hh HT Hr HL Ht.
  assert (same_object b b' ∧ ActiveJobName (Status b') = ActiveJobName (Status b) ∧
    LastAppliedTag (Status b') = retry_message (ConsecutiveFailures (Status b) + 1) e) as (Hs & Ea & Et).
  { destruct (retried r b e interval _ _ He Hb Hm Hc) as (now' & a & E).
    apply (f_equal second_write) in E. injection E as -> _. split; [done|].
    pose proof (syncing_fields (retry_message (ConsecutiveFailures (Status b) + 1) e)
      (Status (counted now' b))) as (_ & _ & _ & Ea & _ & _ & Et).
    split; [exact Ea|]. by rewrite decide_False in Et. }
  assert (LastAppliedTag (Status b1) = retry_message (ConsecutiveFailures (Status b) + 1) e) as Et1
    by congruence.
  assert (same_object b b1) as Hsame by (by etransitivity).
  split; [done|]. eapply reconcile_sends; [done|done|exact Hr|done| |done].
  split; [|split; [congruence|split; [congruence|]]].
  - destruct Hv as [Hd Hv].
    split; [by rewrite (proj1 (proj2 (proj2 Hsame)))|by rewrite (same_object_validate _ _ Hsame)].
  - by eapply buildable_same.
Qed.

End Progress.

(** ** Witness *)

#[local] Existing Instance sample_machinery.
#[local] Existing Instance sample_machinery_ok.
#[local] Existing Instance sample_lib.
#[local] Existing Instance sample_contract.

Lemma sample_knows : knows_bundles sample_reconciler.
Proof. exists [werf_gvk]. split; [done|]. intros b. by eexists _, _. Qed.

Lemma valued_buildable : buildable sample_snapshot valued_bundle.
Proof.
  split; [|split].
  - intros ty Hty. repeat rewrite elem_of_cons in Hty.
    destruct Hty as [->|[->|Hty]]; [eexists; reflexivity..|by apply not_elem_of_nil in Hty].
  - exact sample_sources_clean.
  - eexists. vm_compute. reflexivity.
Qed.

Lemma Reconcile_deploys_witness :
  ∃ j, omap creates valued_run = [j] ∧ delivers sample_snapshot valued_bundle "v1.0.0" j.
Proof.
  eapply (Reconcile_deploys sample_reconciler sample_snapshot "v1.0.0" sample_request valued_bundle valued_run).
  - vm_compute. discriminate.
  - exact sample_knows.
  - split; [split; reflexivity|]. split; [done|]. split; [discriminate|]. exact valued_buildable.
  - exact valued_exec.
  - exact valued_lists.
  - split; [exact valued_ok|]. split; [exact valued_agrees|]. vm_compute. reflexivity.
Defined.

(** The bundle is deployed at v1.0.0 and Synced; one poll fails, and the next
    succeeds. *)
Definition synced_bundle : WerfBundle := on_Status (synced "v1.0.0" 1699990000) valued_bundle.
Definition after_error : WerfBundle :=
  on_Status (syncing (retry_message 1 server_error)) (counted 1700000000 synced_bundle).
Definition recovered_answers (c : kcall) : kans c :=
  match c with
  | GetBundle key => if bool_decide (key = sample_request) then Ok after_error else Err (not_found "werfbundles")
  | c => valued_answers c
  end.
Definition recovered_run : list event :=
  tail (run_with recovered_answers (Reconcile sample_reconciler sample_request)).1.

Lemma recovered_ok c : server_ok (Ev c (recovered_answers c)).
Proof.
  destruct c; try exact (valued_server_ok _). cbn. case_bool_decide as Hk; [by rewrite Hk|done].
Qed.

Lemma recovered_lists : lists sample_reconciler "v1.0.0" after_error recovered_run.
Proof. apply run_lists; [done|apply recovered_ok|vm_compute; reflexivity..]. Qed.

Lemma recovered_smooth : smooth sample_snapshot recovered_run.
Proof.
  split; [by apply run_read_legal, recovered_ok|]. split; [|vm_compute; reflexivity].
  apply run_read_legal. intros c. destruct c; try exact I; try done; cbn; [by case_decide|done].
Qed.

Lemma retry_redeploys_witness :
  LastAppliedTag (Status synced_bundle) = "v1.0.0" ∧
  ∃ j, omap creates recovered_run = [j] ∧ delivers sample_snapshot after_error "v1.0.0" j.
Proof.
  split; [reflexivity|].
  refine (proj2 (retry_redeploys sample_reconciler sample_snapshot synced_bundle server_error (15 * Minute)
    1700000000 after_error after_error _ "v1.0.0" sample_request recovered_run _
    (run_with_exec sample_answers (handleRegistryError sample_reconciler synced_bundle server_error (15 * Minute)))
    _ eq_refl eq_refl _ _ eq_refl _ _ _ _ (run_read_exec recovered_answers _ sample_request after_error eq_refl)
    recovered_lists recovered_smooth)).
  - split; [reflexivity|]. vm_compute. discriminate.
  - by split.
  - by split.
  - exact (buildable_same sample_snapshot valued_bundle synced_bundle ltac:(done) valued_buildable).
  - exact sample_knows.
  - vm_compute. discriminate.
  - discriminate.
Defined.
