(* ===== verification/Undeployable.v ===== *)
(** * Tags that cannot be deployed

    What becomes of a tag for which no job can be made: its hash is too short for
    the job's name, or it is no label value and the API server refuses the job. *)
From S2P Require Import Prelude GoErrors Prog Api Kube Duration Backoff Values Yaml Fetch JobBuilder Admission Logs Rbac Registry Controller Runs Server Samples Scenarios Safety Listing Delivery Lifecycle Jobs System Chains Convergence.

Section Undeployable.
Context `{Machinery} `{!MachineryOk} `{RegistryLib} (r : WerfBundleReconciler)
  `{!RegistryContract (r_RegistryClient r)}.

(** The API server takes only jobs whose names and labels have the documented
    form. *)
Definition admission (e : event) : Prop :=
  match e with Ev (CreateJob job) (Ok _) => well_named job | _ => True end.

Definition accepted (e : event) : Prop :=
  match e with Ev (CreateJob _) (Ok _) => True | _ => False end.

(** A build is made with a hash of eight digits, and has the tag as a label. *)
Lemma build_deployable b T t job :
  exec (Build (builder_for r b) T) t (Done (Ok job)) → well_named job → deployable T = true.
Proof.
  intros He (_ & _ & Hl & _).
  destruct (wp_any _ _ _ _ (wp_Build _ _) He job eq_refl)
    as (b' & name & values & t1 & t2 & s & g & gs & qc & qm & _ & _ & Hn & _ & _ & _ & _ & _ & ->).
  apply andb_true_intro. split; [|exact (Hl "werf.io/tag" _ eq_refl)].
  apply Z.leb_le. exact (jobName_hash _ _ _ _ Hn).
Qed.

(** A reconciliation that lists such a tag gets no job accepted. *)
Lemma pass_refused T b t b' :
  deployable T = false → pass r T b t b' → Forall admission t → Forall (λ e, ¬ accepted e) t.
Proof.
  intros HT (req & o & He & Hok & _ & HL & _) Ha. apply Forall_forall. intros e Hin.
  destruct e as [[] a]; cbn; try tauto. destruct a as [job'|err]; [|tauto]. intros _.
  rewrite Forall_forall in Ha. specialize (Ha _ Hin). cbn in Ha.
  destruct (Reconcile_built r req b t o j He Hok) as (tag & Hnew & b1 & tb & _ & _ & Hb).
  { apply list_elem_of_omap. eexists. by split; [exact Hin|]. }
  rewrite (new_tag_lists r b t T tag Hnew HL) in Hb.
  by rewrite (build_deployable _ _ _ _ Hb Ha) in HT.
Qed.

(** ** Reconciliations of such a tag *)

(** Reconciliations as in Convergence.v, with all their calls. *)
Inductive journey (T : string) : nat → WerfBundle → list event → WerfBundle → Prop :=
| journey_none b : journey T 0 b [] b
| journey_more n b t b1 ts b' :
    pass r T b t b1 → journey T n b1 ts b' → journey T (S n) b (t ++ ts) b'.

Lemma journey_passes T n b ts b' : journey T n b ts b' → passes r T n b b'.
Proof. induction 1 as [b|n b t b1 ts b' Hp _ IH]; [constructor|]. by eapply passes_more. Qed.

Lemma journey_refused T n b ts b' :
  deployable T = false → journey T n b ts b' → Forall admission ts →
  Forall (λ e, ¬ accepted e) ts.
Proof.
  intros HT Hj Ha. induction Hj as [b|n b t b1 ts b' Hp _ IH]; [constructor|].
  apply Forall_app in Ha as [Ha1 Ha]. apply Forall_app. split; [by eapply pass_refused|by apply IH].
Qed.

(** C14 Synced without a job.  Let the registry offer a tag that cannot be
    deployed, because it is longer than 63 bytes or ends in a sign and the API
    server refuses its jobs, or because its hash is too short and every build
    panics.  If nothing else fails during three reconciliations of the bundle - the
    listing offers that tag, reads and writes of the bundle and of the account
    succeed, a job that is looked at has ended - then it is Synced with that tag as
    the one last applied, although no job was ever accepted. *)
Theorem undeployable_synced T n b ts b' :
  T ≠ EmptyString → deployable T = false → valid b → (3 <= n)%nat →
  journey T n b ts b' → Forall admission ts →
  Phase (Status b') = PhaseSynced ∧ LastAppliedTag (Status b') = T ∧
  Forall (λ e, ¬ accepted e) ts.
Proof.
  intros HT Hd Hv Hn Hj Ha.
  destruct (passes_nearer r T n b b' HT Hv (journey_passes _ _ _ _ _ Hj)) as (_ & Hdist & _).
  assert (distance T b <= 3)%nat by (unfold distance; repeat case_decide; lia).
  destruct (distance_zero T b') as [Ep Et]; [lia|]. split; [done|]. split; [done|].
  by apply (journey_refused T n b ts b').
Qed.

End Undeployable.

(** ** Witness *)

#[local] Existing Instance sample_machinery.
#[local] Existing Instance sample_machinery_ok.
#[local] Existing Instance sample_lib.
#[local] Existing Instance sample_contract.

(** A registry that has v1.0.0_, which ends in a sign, and an API server that
    refuses its jobs. *)
Definition refusing (b : WerfBundle) (c : kcall) : kans c :=
  match c with
  | CreateJob _ => Err (Foreign 422 "Job is invalid: metadata.labels: Invalid value")
  | c => cluster b 200 "v1.0.0_" None c
  end.

Definition refused (b : WerfBundle) : list event * outcome (Result * option error) :=
  run_with (refusing b) (Reconcile sample_reconciler sample_request).

Definition refusals (n : nat) : WerfBundle :=
  Nat.iter n (λ b, leaves b (tail (refused b).1)) (bundle_with (synced "v0.9.0" 1699990000)).

Lemma refusing_ok b c : server_ok (Ev c (refusing b c)).
Proof. destruct c; try exact (cluster_ok b 200 "v1.0.0_" None _). done. Qed.

Lemma refused_pass n :
  Name (Meta (refusals n)) = "my-app" → Namespace (Meta (refusals n)) = "default" →
  forallb faultless (tail (refused (refusals n)).1) = true →
  existsb asks (tail (refused (refusals n)).1) = true →
  greatest (@answered kube_sig _ (refusing (refusals n)) (listing sample_reconciler (refusals n))).2 = Some "v1.0.0_" →
  pass sample_reconciler "v1.0.0_" (refusals n) (tail (refused (refusals n)).1) (refusals (S n)).
Proof.
  intros Hn Hns Hf Hx HT.
  assert (refusing (refusals n) (GetBundle sample_request) = Ok (refusals n)) as Hb by (cbn; by rewrite Hn, Hns).
  eexists sample_request, _. split; [by apply run_read_exec|].
  split; [apply run_read_legal, refusing_ok|]. split; [done|]. split; [|done].
  by apply run_lists; [|apply refusing_ok| |].
Qed.

Lemma refused_admission b : Forall admission (tail (refused b).1).
Proof. apply run_read_legal. by intros []. Qed.

(** v0.9.0 is deployed; then v1.0.0_ appears. *)
Lemma undeployable_synced_witness :
  Phase (Status (refusals 1)) = PhaseFailed ∧
  Phase (Status (refusals 3)) = PhaseSynced ∧ LastAppliedTag (Status (refusals 3)) = "v1.0.0_".
Proof.
  split; [vm_compute; reflexivity|].
  pose (ts := tail (refused (refusals 0)).1 ++ tail (refused (refusals 1)).1
                ++ tail (refused (refusals 2)).1 ++ []).
  assert (journey sample_reconciler "v1.0.0_" 3 (refusals 0) ts (refusals 3)) as Hj
    by (do 3 (eapply journey_more; [apply refused_pass; vm_compute; reflexivity|]); constructor).
  destruct (undeployable_synced sample_reconciler "v1.0.0_" 3 (refusals 0) ts (refusals 3))
    as (Hp & Ht & _); [| | | |exact Hj| |by split].
  - discriminate.
  - vm_compute. reflexivity.
  - split; reflexivity.
  - lia.
  - repeat (apply Forall_app; split; [apply refused_admission|]). constructor.
Defined.
