(* ===== verification/Polling.v ===== *)
(** * Whether a bundle is looked at again

    controller-runtime reconciles a bundle again if the reconciliation returned an
    error or asked for a delay; otherwise only an event brings it back.  So a
    reconciliation that does neither must leave the bundle at rest. *)
From S2P Require Import Prelude GoErrors Prog Api Kube Duration Backoff Values Yaml Fetch JobBuilder Logs Rbac Registry Controller Runs Server Safety Lifecycle Policy Jobs Samples Scenarios System Chains Convergence.

Section Polling.
Context `{Machinery} `{!MachineryOk} `{RegistryLib} (r : WerfBundleReconciler)
  `{!RegistryContract (r_RegistryClient r)}.

Abbreviation final := (outcome (Result * option error)).

(** A counter the CRD accepts. *)
Definition countable (s : WerfBundleStatus) : Prop := 0 <= ConsecutiveFailures s <= 6.

(** The bundle [x] waits for nothing the operator would have to see to. *)
Definition settled (x : WerfBundle) : Prop :=
  Phase (Status x) = PhaseSynced ∨ Phase (Status x) = PhaseFailed.

(** Not asked for again, the bundle that is left is settled; the exception is the
    lost status write of a failed account check. *)
Definition comes_back (x : WerfBundle) (t : list event) (o : final) : Prop :=
  match o with
  | Done (res, None) => 0 < RequeueAfter res ∨ settled (leaves x t) ∨ swallowed t
  | _ => True
  end.

Lemma comes_back_app x t1 t2 o : comes_back (leaves x t1) t2 o → comes_back x (t1 ++ t2) o.
Proof.
  destruct o as [[res [e|]]|m]; cbn; [done| |done]. rewrite leaves_app.
  intros [Hd|[Hs|(pre & k & e & b & e' & ->)]]; [by left|by right; left|].
  right. right. exists (t1 ++ pre), k, e, b, e'. by rewrite app_assoc.
Qed.

Lemma comes_back_calm x t1 t2 o : Forall calm t1 → comes_back x t2 o → comes_back x (t1 ++ t2) o.
Proof. intros Ht Hc. apply comes_back_app. by rewrite (leaves_calm x t1 Ht). Qed.

Lemma comes_back_cons x e t o : comes_back (leave x e) t o → comes_back x (e :: t) o.
Proof. apply (comes_back_app x [e]). Qed.

(** A status write with which the reconciliation ends. *)
Lemma comes_back_ends x b f (a : result WerfBundle) res :
  server_ok (Ev (StatusUpdate (on_Status f b)) a) →
  0 < res ∨ Phase (f (Status b)) = PhaseSynced ∨ Phase (f (Status b)) = PhaseFailed →
  comes_back x [Ev (StatusUpdate (on_Status f b)) a] (ends a (requeue res)).
Proof.
  destruct a as [b'|e]; [|done]. intros [_ Es] [Hr|Hp]; [by left|]. right. left.
  unfold settled, leaves, leave. cbn. by rewrite Es.
Qed.

Lemma jitter_comes_back x b t o :
  0 < poll_interval b < 2 ^ 62 → Forall server_ok t → jitter_run (poll_interval b) t o →
  comes_back x t o.
Proof.
  intros Hi Ht Hr. destruct o as [[res [e|]]|m]; [done| |done].
  destruct (jitter_jittered _ _ _ _ Ht Hr) as [_ [[? _]|[H10 Hj]]]; [lia|]. left.
  specialize (Hj ltac:(lia)). assert (poll_interval b / 10 < poll_interval b); [|lia].
  apply Z.div_lt; lia.
Qed.

Lemma monitor_comes_back x b job tag t o :
  Forall server_ok t → monitor_run r b job tag t o → comes_back x t o.
Proof.
  intros Ht Hr. destruct Hr as [Hs Hf|tl b' now a Hs He|tl b' a Hs Hf He]; [by left|..];
    apply Forall_app in Ht as [_ Ht]; (apply comes_back_calm; [by eapply calm_capture|]).
  - apply Forall_cons in Ht as [_ Ht]. apply comes_back_cons.
    apply (comes_back_ends x _ _ _ 0); [by apply Forall_cons in Ht as [? _]|by right; left].
  - apply (comes_back_ends x _ _ _ 0); [by apply Forall_cons in Ht as [? _]|by right; right].
Qed.

Lemma create_comes_back x b tag t o :
  Forall server_ok t → create_run r b tag t o → comes_back x t o.
Proof.
  intros Ht Hr. destruct Hr as [e|b1 tb m He|b1 tb e a He|b1 tb job e a He|b1 tb job job' a He];
    [done|done|..]; apply Forall_cons in Ht as [_ Ht]; apply comes_back_cons;
    apply Forall_app in Ht as [_ Ht]; (apply comes_back_calm; [by eapply calm_build|]).
  - apply (comes_back_ends _ _ _ _ 0); [by apply Forall_cons in Ht as [? _]|by right; right].
  - apply Forall_cons in Ht as [_ Ht]. apply comes_back_cons.
    apply (comes_back_ends _ _ _ _ 0); [by apply Forall_cons in Ht as [? _]|by right; right].
  - apply Forall_cons in Ht as [_ Ht]. apply comes_back_cons.
    apply (comes_back_ends _ _ _ _ jobRecheck); [by apply Forall_cons in Ht as [? _]|by left].
Qed.

Lemma ensure_comes_back x b tag t o :
  Forall server_ok t → ensure_run r b tag t o → comes_back x t o.
Proof.
  intros Ht Hr. destruct Hr as [t o Ha Hr|e t o Ha He Hr|e Ha He|job t o Ha Hr].
  - by eapply create_comes_back.
  - apply Forall_cons in Ht as [_ Ht]. apply comes_back_cons. by eapply create_comes_back.
  - done.
  - apply Forall_cons in Ht as [_ Ht]. apply comes_back_cons. by eapply monitor_comes_back.
Qed.

Lemma error_comes_back x b e t o :
  countable (Status b) → 0 < poll_interval b < 2 ^ 62 → Forall server_ok t →
  error_run b e (poll_interval b) t o → comes_back x t o.
Proof.
  intros Hb Hi Ht Hr. destruct Hr as [t o He Hr|now a He Hn|now a n He -> Hn].
  - by eapply jitter_comes_back.
  - apply Forall_cons in Ht as [_ Ht]. apply comes_back_cons.
    apply (comes_back_ends _ _ _ _ 0); [by apply Forall_cons in Ht as [? _]|by right; right].
  - apply Forall_cons in Ht as [_ Ht]. apply comes_back_cons.
    apply (comes_back_ends _ _ _ _ (CalculateBackoff _)); [by apply Forall_cons in Ht as [? _]|left].
    unfold countable in Hb. rewrite int32_small in * by (unfold in_int32; lia).
    rewrite CalculateBackoff_spec by lia. pose proof (backoff_spec_bounds (ConsecutiveFailures (Status b) + 1)).
    assert (0 < 30 * Second) by reflexivity. lia.
Qed.

Lemma poll_comes_back b t o :
  countable (Status b) → 0 < poll_interval b < 2 ^ 62 → Forall server_ok t →
  poll_run r b t o → comes_back b t o.
Proof.
  intros Hb Hi Ht Hr.
  destruct Hr as [th m He|th tags etag e t o He Hr|th etag t o He Hp1 Hp2 Hr|th etag b1 t o He Hp Hr
    |th etag e He Hp|th tags etag He Hl Hp|th tags etag now a He Hl Hp|th tags etag tag t o He Hl Hn Hr];
    try (apply Forall_app in Ht as [_ Ht]); pose proof (calm_listing _ _ _ _ He) as Hth; [done|..].
  all: try (apply comes_back_calm; [done|]).
  - by eapply error_comes_back.
  - by eapply jitter_comes_back.
  - apply Forall_cons in Ht as [_ Ht]. apply comes_back_cons. by eapply jitter_comes_back.
  - done.
  - right. left. rewrite (leaves_calm b th Hth). by left.
  - apply Forall_cons in Ht as [_ Ht]. apply comes_back_cons.
    apply (comes_back_ends _ _ _ _ 0); [by apply Forall_cons in Ht as [? _]|by right; left].
  - by eapply ensure_comes_back.
Qed.

Lemma account_comes_back b t o :
  countable (Status b) → 0 < poll_interval b < 2 ^ 62 → Forall server_ok t →
  account_run r b t o → comes_back b t o.
Proof.
  intros Hb Hi Ht Hr. destruct Hr as [t o Hs Hr|t o Hs Hr|e a Hs].
  - by eapply poll_comes_back.
  - apply Forall_cons in Ht as [_ Ht]. apply comes_back_cons. by eapply poll_comes_back.
  - destruct a as [b1|e1].
    + apply Forall_cons in Ht as [_ Ht]. apply Forall_cons in Ht as [[_ Es] _].
      right. left. right. unfold leaves, leave. cbn. by rewrite Es.
    + right. right. by exists [], (account_key b), e, (on_Status (failed (Error
        (account_error (ServiceAccountName (Converge (Spec b))) (target_of b) e))) b), e1.
Qed.

Lemma check_comes_back b t o :
  countable (Status b) → 0 < poll_interval b < 2 ^ 62 → Forall server_ok t →
  check_run r b t o → comes_back b t o.
Proof.
  intros Hb Hi Ht Hr. destruct Hr as [err a Hv|t o Hv Hn Hr|b1 t o Hv Hn Hr|e Hv Hn].
  - apply (comes_back_ends _ _ _ _ 0); [by apply Forall_cons in Ht as [? _]|by right; right].
  - by eapply account_comes_back.
  - apply Forall_cons in Ht as [[Hs Es] Ht]. apply comes_back_cons. cbn [leave write_of].
    eapply account_comes_back; [|by rewrite (same_object_interval _ _ Hs)|done..].
    unfold countable in *. by rewrite Es.
  - done.
Qed.

(** ** Properties *)

Lemma read_comes_back b t o :
  DeletionTimestamp (Meta b) = None → countable (Status b) → 0 < poll_interval b < 2 ^ 62 →
  Forall server_ok t → read_run r b t o → comes_back b t o.
Proof.
  intros Hd Hb Hi Ht He.
  destruct He as [d Hd'|d a Hd'|t o _ Hf He|b1 t o _ Hf He|e _ Hf]; [congruence..| | |done].
  - by eapply check_comes_back.
  - apply Forall_cons in Ht as [[Hs Es] Ht]. apply comes_back_cons. cbn [leave write_of].
    pose proof (AddFinalizer_same b finalizerName) as (Hs0 & Es0 & _).
    eapply check_comes_back; [by rewrite Es, Es0| |done|done].
    by rewrite (same_object_interval b b1) by (by etransitivity).
Qed.

(** A reconciliation of a live bundle that returns no error and asks for no delay
    - so that nothing but an event brings it back - leaves the bundle Synced or
    Failed, for every poll interval that is positive (and below 146 years); the one
    exception is the status write that fails after the account check. *)
Theorem Reconcile_comes_back req b t res :
  exec (Reconcile r req) (Ev (GetBundle req) (Ok b) :: t) (Done (res, None)) →
  Forall server_ok t → DeletionTimestamp (Meta b) = None → status_valid (Status b) = true →
  0 < poll_interval b < 2 ^ 62 → RequeueAfter res <= 0 →
  Phase (Status (leaves b t)) = PhaseSynced ∨ Phase (Status (leaves b t)) = PhaseFailed ∨ swallowed t.
Proof.
  intros He Ht Hd Hv Hi Hr. apply Reconcile_read in He. apply status_valid_spec in Hv as (_ & _ & Hc).
  destruct (read_comes_back b t _ Hd Hc Hi Ht He) as [?|[[?|?]|?]]; [lia|by left|by right; left|by right; right].
Qed.

End Polling.

(** ** Witnesses *)

#[local] Existing Instance sample_machinery.
#[local] Existing Instance sample_machinery_ok.
#[local] Existing Instance sample_lib.
#[local] Existing Instance sample_contract.

Lemma Reconcile_comes_back_witness :
  Phase (Status (leaves running_bundle (tail job_done.1))) = PhaseSynced ∨
  Phase (Status (leaves running_bundle (tail job_done.1))) = PhaseFailed ∨
  swallowed (tail job_done.1).
Proof.
  assert (job_done.2 = Done stop) as E by (vm_compute; reflexivity).
  apply (Reconcile_comes_back sample_reconciler sample_request running_bundle
    (tail job_done.1) {| RequeueAfter := 0 |}).
  - change ({| RequeueAfter := 0 |}, None) with stop. rewrite <- E. by apply reconciliation_read_exec.
  - exact (Forall_inv_tail (reconciliation_read_ok running_bundle _ _ _ eq_refl eq_refl)).
  - reflexivity.
  - reflexivity.
  - vm_compute. split; reflexivity.
  - vm_compute. discriminate.
Defined.

(** The interval "0s", which the CRD accepts: a bundle that is still Syncing is
    not polled again. *)
Definition idle_bundle : WerfBundle :=
  {| Meta := Meta sample_bundle;
     Spec := {| Registry := {| URL := "ghcr.io/org/bundle"; Registry_SecretRef := None; PollInterval := "0s" |};
                Converge := Converge sample_spec |};
     Status := set_Phase PhaseSyncing zero_status |}.

Lemma zero_interval_forgotten :
  (reconciliation idle_bundle 200 EmptyString None).2 = Done (requeue 0) ∧
  Phase (Status (leaves idle_bundle (tail (reconciliation idle_bundle 200 EmptyString None).1)))
  = PhaseSyncing.
Proof. split; vm_compute; reflexivity. Qed.
