(* ===== verification/Cluster.v ===== *)
(** * An executable cluster

    A server and users for the witnesses about whole systems: functions of the
    world, each of whose answers and edits System.v allows; not part of any
    theorem. *)
From S2P Require Import Prelude GoErrors Prog Api Kube Duration Backoff Values Yaml Fetch JobBuilder Logs Rbac Registry Controller Runs Server Samples Scenarios Safety Listing Lifecycle System.

#[local] Existing Instance sample_machinery.
#[local] Existing Instance sample_machinery_ok.
#[local] Existing Instance sample_lib.
#[local] Existing Instance sample_contract.
#[local] Existing Instance orderly.

Definition with_version (v : string) (b : WerfBundle) : WerfBundle :=
  {| Meta := {| Name := Name (Meta b); Namespace := Namespace (Meta b); UID := UID (Meta b);
                ResourceVersion := v; Labels := Labels (Meta b); Finalizers := Finalizers (Meta b);
                DeletionTimestamp := DeletionTimestamp (Meta b);
                OwnerReferences := OwnerReferences (Meta b) |};
     Spec := Spec b; Status := Status b |}.

(** The next version number. *)
Definition next_version (w : world) : string := itoa (Z.of_nat (size (w_versions w)) + 1).

Definition conflict : error := Foreign 409 "the object has been modified".

Definition store (w : world) (b : WerfBundle) : result WerfBundle * world :=
  match w_bundle w with
  | Some cur =>
      if decide (version cur = version b ∧ w_versions w !! next_version w = None)
      then let b' := with_version (next_version w) b in (Ok b', put b' w)
      else (Err conflict, w)
  | None => (Err (not_found "werfbundles"), w)
  end.

(** A registry with these tags, whose ETag names them; it honours If-None-Match. *)
Definition registry (tags : string) (req : Request) : Response :=
  let etag := "etag of " +:+ tags in
  {| StatusCode := if decide (req_Header req !! "If-None-Match" = Some [etag]) then 304 else 200;
     resp_Header := {[ "Etag" := [etag] ]}; Body := tags |}.

Definition api (tags : string) (w : world) (c : kcall) : kans c * world :=
  match c with
  | GetBundle key =>
      match w_bundle w with
      | Some cur =>
          match w_versions w !! version cur with
          | Some b => if decide (version b = version cur ∧ key_of (Meta b) = key)
                      then (Ok b, w) else (Err (not_found "werfbundles"), w)
          | None => (Err server_error, w)
          end
      | None => (Err (not_found "werfbundles"), w)
      end
  | UpdateBundle b => store w b
  | StatusUpdate b => store w b
  | GetJob key =>
      match w_jobs w !! key with
      | Some j => if decide (key_of (job_Meta j) = key) then (Ok j, w) else (Err server_error, w)
      | None => (Err (not_found "jobs"), w)
      end
  | CreateJob j =>
      match w_jobs w !! key_of (job_Meta j) with
      | Some _ => (Err (already_exists "jobs"), w)
      | None => (Ok j, with_jobs (<[key_of (job_Meta j) := j]> (w_jobs w)) w)
      end
  | HttpRoundTrip req => (Ok (registry tags req), w)
  | c => (sample_answers c, w)
  end.

Lemma store_serves w b b' w' : store w b = (Ok b', w') → stores w b b' w'.
Proof.
  unfold store. destruct (w_bundle w) as [cur|] eqn:Ec; [|done].
  destruct (decide _) as [[Ev Hn]|]; [|done]. intros [= <- <-].
  split; [by exists cur|]. by split.
Qed.

Lemma store_refuses w b e w' : store w b = (Err e, w') → w' = w.
Proof. unfold store. repeat case_match; intros [=]; congruence. Qed.

Lemma serve_api tags w c : serve w (Ev c (api tags w c).1) (api tags w c).2.
Proof.
  pose proof (sample_answers_go_ok c) as Hgo.
  destruct c; try exact (conj Hgo eq_refl).
  - unfold api. destruct (w_bundle w) as [cur|]; [|done].
    destruct (w_versions w !! version cur) as [b|] eqn:El; [|done].
    destruct (decide _) as [[Ev Ek]|]; [|done]. split; [|done]. unfold known. by rewrite Ev.
  - unfold api. destruct (store w b) as [[b'|e] w'] eqn:Es.
    + left. by apply store_serves.
    + left. by eapply store_refuses.
  - unfold api. destruct (store w b) as [[b'|e] w'] eqn:Es.
    + by apply store_serves.
    + left. by eapply store_refuses.
  - unfold api. destruct (w_jobs w !! key) as [j|]; [|done]. by destruct (decide _).
  - unfold api. destruct (w_jobs w !! key_of (job_Meta j)) as [j'|] eqn:Ej; [by left|done].
Qed.

(** This server tells the truth about jobs. *)
Lemma api_accurate tags w c : accurate w (Ev c (api tags w c).1) (api tags w c).2.
Proof.
  destruct c; try done.
  - unfold api. destruct (w_jobs w !! key) as [j|] eqn:Ej; [|by intros _].
    destruct (decide _); cbn; [|done]. rewrite Ej. by intros j0 [= <-].
  - unfold api. by destruct (w_jobs w !! key_of (job_Meta j)) as [j'|].
Qed.

(** Reading the current version. *)
Lemma api_read tags w req b :
  versioned w → w_bundle w = Some b → key_of (Meta b) = req → api tags w (GetBundle req) = (Ok b, w).
Proof.
  intros Hv Hb Hk. unfold api. rewrite Hb. pose proof (versioned_current _ Hv _ Hb) as Hkn.
  unfold known in Hkn. rewrite Hkn. by rewrite decide_True.
Qed.

(** A run against this server, the user acting as [f] says before each call. *)
Definition play {A} (tags : string) (f : world → kcall → world) (w : world) (p : prog A)
    : list event * outcome A * world :=
  run (λ w c, api tags (f w c) c) w p.

Lemma play_served {A} tags f w (p : prog A) :
  (∀ w c, rtc evolves w (f w c)) → served w (play tags f w p).1.1 (play tags f w p).2.
Proof.
  intros Hf. unfold play. revert w. induction p as [a|m|c k IH]; intros w; cbn [run].
  - by constructor.
  - by constructor.
  - pose proof (serve_api tags (f w c) c) as Hs. pose proof (api_accurate tags (f w c) c) as Ha.
    destruct (api tags (f w c) c) as [a w1]. specialize (IH a w1).
    destruct (run _ w1 (k a)) as [[t o] w2]. econstructor; [apply Hf|exact Hs|exact Ha|exact IH].
Qed.

Lemma play_exec {A} tags f w (p : prog A) : exec p (play tags f w p).1.1 (play tags f w p).1.2.
Proof.
  unfold play. destruct (run _ w p) as [[t o] w'] eqn:E. by eapply run_exec.
Qed.

(** Its registry answers as it does in any world. *)
Lemma play_requests {A} tags f w (p : prog A) :
  Forall (answers_as (λ c, (api tags w c).1)) (play tags f w p).1.1.
Proof.
  unfold play. generalize w at 1. intros w0. revert w. induction p as [a|m|c k IH]; intros w; cbn [run]; [constructor..|].
  assert (answers_as (λ c, (api tags w0 c).1) (Ev c (api tags (f w c) c).1)) as Ha by by destruct c.
  destruct (api tags (f w c) c) as [a w1]. specialize (IH a w1).
  destruct (run _ w1 (k a)) as [[t o] w2]. by constructor.
Qed.

(** Nobody acts. *)
Definition quiet (w : world) (c : kcall) : world := w.

(** The first call, and what follows. *)
Lemma play_first {A} tags w c (k : kans c → prog A) a :
  api tags w c = (a, w) →
  let p := play tags quiet w (Do c k) in
  exec (Do c k) (Ev c a :: tail p.1.1) p.1.2 ∧ served w (tail p.1.1) p.2.
Proof.
  intros Ea. pose proof (play_exec tags quiet w (k a)) as He.
  pose proof (play_served tags quiet w (k a) (λ w c, rtc_refl _ w)) as Hsv.
  unfold play in *. cbn [run]. change (quiet w c) with w. rewrite Ea.
  destruct (run _ w (k a)) as [[t o] w2]. by split; [constructor|].
Qed.

Lemma play_read (r : WerfBundleReconciler) tags w req b :
  api tags w (GetBundle req) = (Ok b, w) →
  let p := play tags quiet w (Reconcile r req) in
  exec (Reconcile r req) (Ev (GetBundle req) (Ok b) :: tail p.1.1) p.1.2 ∧
  serve w (Ev (GetBundle req) (Ok b)) w ∧ served w (tail p.1.1) p.2.
Proof.
  intros Ea. pose proof (serve_api tags w (GetBundle req)) as Hs. rewrite Ea in Hs.
  assert (∃ k, Reconcile r req = Do (GetBundle req) k) as (k & ->) by by eexists.
  destruct (play_first tags w (GetBundle req) k (Ok b) Ea) as [He Hsv]. by split.
Qed.

Lemma play_read_eq (r : WerfBundleReconciler) tags w req b :
  api tags w (GetBundle req) = (Ok b, w) →
  (play tags quiet w (Reconcile r req)).1.1
  = Ev (GetBundle req) (Ok b) :: tail (play tags quiet w (Reconcile r req)).1.1.
Proof.
  intros Ea. assert (∃ k, Reconcile r req = Do (GetBundle req) k) as (k & ->) by by eexists.
  unfold play. cbn [run]. change (quiet w (GetBundle req)) with w. rewrite Ea.
  by destruct (run _ w (k (Ok b))) as [[t o] w2].
Qed.

(** The listing of the bundle [b] against a registry with these tags, and the one
    of a reconciliation. *)
Definition listing_of (r : WerfBundleReconciler) (tags : string) (w : world) (b : WerfBundle) : listing_result :=
  (@answered kube_sig _ (λ c, (api tags w c).1) (listing r b)).2.

Lemma play_listing (r : WerfBundleReconciler) `{!RegistryContract (r_RegistryClient r)} tags w req b :
  api tags w (GetBundle req) = (Ok b, w) →
  let t := tail (play tags quiet w (Reconcile r req)).1.1 in
  existsb asks t = true → listing_in r b t (listing_of r tags w b).
Proof.
  intros Ea. destruct (play_read r tags w req b Ea) as (He & _ & Hsv). cbv zeta in *. intros Hx.
  eapply (listing_computed r); [exact He|by eapply served_server_ok| |exact Hx].
  pose proof (play_requests tags quiet w (Reconcile r req)) as Ha.
  rewrite (play_read_eq r tags w req b Ea) in Ha. by apply Forall_cons in Ha as [_ Ha].
Qed.

(** A user saves the bundle, unchanged, just before the job is recorded. *)
Definition meddle (w : world) (c : kcall) : world :=
  match c, w_bundle w with
  | StatusUpdate b, Some cur =>
      if decide (LastJobStatus (Status b) = JobStatusRunning ∧ w_versions w !! next_version w = None)
      then put (with_version (next_version w) cur) w else w
  | _, _ => w
  end.

Lemma meddle_evolves w c : rtc evolves w (meddle w c).
Proof.
  unfold meddle. destruct c; try done. destruct (w_bundle w) as [cur|] eqn:Eb; [|done].
  destruct (decide _) as [[_ Hn]|]; [|done]. apply rtc_once. eapply evolve_edit; [done|done|by left|done].
Qed.

(** The job [k] fails. *)
Definition fail_job (k : NamespacedName) (w : world) : world :=
  match w_jobs w !! k with
  | Some j => with_jobs (<[k := {| job_Meta := job_Meta j; job_Spec := job_Spec j;
                                   job_Status := {| Succeeded := 0; Failed := 1 |} |}]> (w_jobs w)) w
  | None => w
  end.

Lemma fail_job_evolves k w : rtc evolves w (fail_job k w).
Proof.
  unfold fail_job. destruct (w_jobs w !! k) as [j|] eqn:Ej; [|done].
  apply rtc_once. by eapply evolve_job.
Qed.

(** [recorded], as a test. *)
Definition creation (e : event) : bool :=
  match e with Ev (CreateJob _) (Ok _) => true | _ => false end.

Definition recordedb (t : list event) : bool :=
  negb (existsb creation t)
  || match last t with Some (Ev (StatusUpdate _) (Ok _)) => true | _ => false end.

Lemma recordedb_spec t : recordedb t = true → recorded t.
Proof.
  unfold recordedb. intros [Hn|Hl]%orb_prop j j' Hin.
  - apply negb_true_iff, not_true_iff_false in Hn. destruct Hn. apply existsb_exists.
    exists (@Ev kube_sig (CreateJob j) (Ok j')). split; [by apply list_elem_of_In|done].
  - destruct (last t) as [e|]; [|done]. exists e. split; [done|].
    destruct e as [[] a]; try done. by destruct a.
Qed.

(** A reconciliation nobody disturbs is a step. *)
Lemma play_step (r : WerfBundleReconciler) tags w req :
  recordedb (play tags quiet w (Reconcile r req)).1.1 = true →
  step r w (play tags quiet w (Reconcile r req)).2.
Proof.
  intros Hr. eapply step_reconcile; [apply play_exec|by apply play_served|by apply recordedb_spec].
Qed.

(** ** A history

    Nothing; then the sample bundle; then its first reconciliation. *)
Definition nothing : world := {| w_bundle := None; w_versions := ∅; w_jobs := ∅ |}.
Definition submitted : world := put sample_bundle nothing.

Lemma submitted_evolves : evolves nothing submitted.
Proof. by apply evolve_create. Qed.

Definition started (r : WerfBundleReconciler) (tags : string) : world :=
  (play tags quiet submitted (Reconcile r sample_request)).2.

(** The name of the job of v1.0.0. *)
Definition first_key : NamespacedName :=
  {| key_Name := "my-app-e4b60778-12345678"; key_Namespace := "default" |}.

Lemma started_reachable (r : WerfBundleReconciler) tags :
  recordedb (play tags quiet submitted (Reconcile r sample_request)).1.1 = true →
  rtc (step r) nothing (started r tags).
Proof.
  intros Hr. eapply rtc_l; [apply step_evolve, submitted_evolves|].
  apply rtc_once. by apply play_step.
Qed.

(** The bundle stored in a world. *)
Definition stored (w : world) : WerfBundle := default sample_bundle (w_bundle w).

Lemma stored_some w : bool_decide (is_Some (w_bundle w)) = true → w_bundle w = Some (stored w).
Proof. intros [b Hb]%bool_decide_eq_true. unfold stored. by rewrite Hb. Qed.
