(* ===== verification/Queue.v ===== *)
(** * The operator and its work queue

    controller-runtime starts a reconciliation when one is due: because the bundle
    was created, deleted or changed in a way the event filter lets through, because
    the last reconciliation failed or asked for a delay, or because the process has
    just started.  This file adds that queue to the system of System.v. *)
From S2P Require Import Prelude GoErrors Prog Api Kube Duration Backoff Values Yaml Fetch JobBuilder Logs Rbac Registry Controller Runs Server Samples Scenarios Safety Lifecycle Policy Jobs System Chains Convergence Polling Cluster.

Section Queue.
Context `{Machinery} `{!MachineryOk} `{RegistryLib} {conduct : Conduct} (r : WerfBundleReconciler)
  `{!RegistryContract (r_RegistryClient r)}.

(** The cluster, and whether a reconciliation of the bundle is due. *)
Record queued := { q_world : world; q_due : bool }.

(** What GenerationChangedPredicate lets through: a new bundle, a change of the
    spec, a deletion; not a change of the status, and nothing a job does. *)
Definition noticed (w w' : world) : Prop :=
  ∃ b', w_bundle w' = Some b' ∧
    ∀ b, w_bundle w = Some b →
      UID (Meta b') ≠ UID (Meta b) ∨ Spec b' ≠ Spec b ∨
      DeletionTimestamp (Meta b') ≠ DeletionTimestamp (Meta b).

(** The answer to the read with which a reconciliation starts: the informer has
    caught up with the cluster. *)
Definition current (w : world) (a : result WerfBundle) : Prop :=
  match a with
  | Ok b => w_bundle w = Some b
  | Err e => IsNotFound e = true → w_bundle w = None
  end.

(** The bundle satisfies the CRD, its poll interval is positive. *)
Definition regular (a : result WerfBundle) : Prop :=
  match a with
  | Ok b => status_valid (Status b) = true ∧ 0 < poll_interval b < 2 ^ 62
  | Err _ => True
  end.

(** What controller-runtime puts back into the queue. *)
Definition asks_again (o : outcome (Result * option error)) : Prop :=
  match o with
  | Done (res, None) => 0 < RequeueAfter res
  | Done (_, Some _) => True
  | Panicked _ => True
  end.

(** Others act; or a reconciliation that is due runs, while others act; or it is
    cut short, and the process starts again. *)
Inductive qstep (q : queued) : queued → Prop :=
| qstep_other w' due :
    evolves (q_world q) w' → (q_due q = true → due = true) → (noticed (q_world q) w' → due = true) →
    qstep q {| q_world := w'; q_due := due |}
| qstep_reconcile req a t o w' due :
    q_due q = true → current (q_world q) a → regular a →
    exec (Reconcile r req) (Ev (GetBundle req) a :: t) o →
    serve (q_world q) (Ev (GetBundle req) a) (q_world q) →
    answer_ok (q_world q) (Ev (GetBundle req) a) (q_world q) → served (q_world q) t w' → ¬ swallowed t →
    (asks_again o → due = true) → (noticed (q_world q) w' → due = true) →
    qstep q {| q_world := w'; q_due := due |}
| qstep_crash req t t' o w' :
    exec (Reconcile r req) (t ++ t') o → served (q_world q) t w' →
    qstep q {| q_world := w'; q_due := true |}.

(** A live bundle on its way is due. *)
Definition attended (q : queued) : Prop :=
  q_due q = true ∨
  ∀ b, w_bundle (q_world q) = Some b → DeletionTimestamp (Meta b) = None → settled b.

(** ** What a reconciliation leaves in the cluster *)

(** The bundle of the world, if it is still [b], has the status of [b]. *)
Definition tracks (w : world) (b : WerfBundle) : Prop :=
  ∀ x, w_bundle w = Some x → UID (Meta x) = UID (Meta b) → Status x = Status b.

Lemma evolved_tracks w w' b : rtc evolves w w' → known w b → tracks w b → tracks w' b.
Proof.
  induction 1 as [w|w1 w2 w3 H12 _ IH]; [done|]. intros Hk Ht.
  apply IH; [by apply (proj1 (evolves_later _ _ H12))|].
  destruct H12 as [b0 b' Hb (_ & Hu & Es) Hc Hn| |b0 Hb Es Hn Hu Hj|k j j' Hj Ho Hkj Hf|k|k j Hn Ho]; try done.
  - intros x [= <-] Eu. rewrite Es. apply Ht; congruence.
  - intros x [= <-] Eu. by destruct (Hu b Hk).
Qed.

Lemma tracks_write w b1 b2 e w' :
  write_of e = Some (b1, Ok b2) → serve w e w' → tracks w' b2.
Proof.
  assert (∀ w', stores w b1 b2 w' → tracks w' b2) as Hst.
  { intros w1 (_ & _ & _ & _ & ->) x [= <-] _. done. }
  intros He Hs. destruct e as [[] ans]; try done; cbn in He; injection He as -> ->.
  - destruct Hs as [Hs|(_ & w1 & _ & ->)]; [by apply Hst|done].
  - by apply Hst.
Qed.

Lemma known_write w b1 b2 e w' :
  write_of e = Some (b1, Ok b2) → serve w e w' → known w' b2.
Proof.
  assert (∀ w', stores w b1 b2 w' → known w' b2) as Hst.
  { intros w1 (_ & _ & _ & _ & ->). apply known_put. }
  intros He Hs. destruct e as [[] ans]; try done; cbn in He; injection He as -> ->.
  - destruct Hs as [Hs|(_ & w1 & Hs & ->)]; [by apply Hst|]. exact (Hst _ Hs).
  - by apply Hst.
Qed.

Lemma other_bundle w e w' : write_of e = None → serve w e w' → w_bundle w' = w_bundle w.
Proof. intros He Hs. by destruct (other_world _ _ _ He Hs) as [jobs ->]. Qed.

(** If no write was refused, the cluster has what the reconciliation left. *)
Lemma chain_tracks w b t w' :
  chain_of b t → (∀ e b1 err, last t = Some e → write_of e ≠ Some (b1, Err err)) →
  known w b → tracks w b → served w t w' →
  ∀ x, w_bundle w' = Some x → UID (Meta x) = UID (Meta (leaves b t)) → Status x = Status (leaves b t).
Proof.
  intros Hc Hl Hk Ht Hsv. revert w Hk Ht Hsv.
  induction Hc as [b|b e t He Hc IH|b b1 b2 e t He Hd Hc IH|b b1 err e He Hd]; intros w Hk Ht Hsv;
    inversion Hsv as [? ? Hw|? w1 ? w2 ? ? Hw1 Hse Hacc Hsv']; subst.
  { exact (evolved_tracks _ _ _ Hw Hk Ht). }
  all: pose proof (evolved_tracks _ _ _ Hw1 Hk Ht) as Ht1;
    pose proof (proj1 (evolved_later _ _ Hw1) _ Hk) as Hk1.
  - assert (leaves b (e :: t) = leaves b t) as -> by (unfold leaves, leave; cbn; by rewrite He).
    apply (IH) with w2; [|by eapply known_other| |done].
    + intros e' b' err' El. apply Hl. destruct t; [done|exact El].
    + intros x Hx. apply Ht1. by rewrite <- (other_bundle _ _ _ He Hse).
  - assert (leaves b (e :: t) = leaves b2 t) as -> by (unfold leaves, leave; cbn; by rewrite He).
    apply (IH) with w2; [|by eapply known_write|by eapply tracks_write|done].
    intros e' b' err' El. apply Hl. destruct t; [done|exact El].
  - by destruct (Hl e b1 err eq_refl).
Qed.

Lemma qstep_versioned q q' : qstep q q' → versioned (q_world q) → versioned (q_world q').
Proof.
  intros Hq Hv. destruct Hq as [w' due Hw _ _|req a t o w' due _ _ _ He Hs Ha Hsv _ _ _|req t t' o w' He Hsv].
  - apply (evolved_versioned _ _ (rtc_once _ _ Hw) Hv).
  - eapply (begun_versioned r _ req (@Ev kube_sig (GetBundle req) a :: t) []); [by rewrite app_nil_r| |exact Hv].
    by econstructor.
  - by eapply (begun_versioned r).
Qed.

(** An undisturbed bundle is the one that was there. *)
Lemma not_noticed w w' b b' :
  ¬ noticed w w' → w_bundle w = Some b → w_bundle w' = Some b' →
  UID (Meta b') = UID (Meta b) ∧ DeletionTimestamp (Meta b') = DeletionTimestamp (Meta b).
Proof.
  intros Hn Hb Hb'. destruct (decide (UID (Meta b') = UID (Meta b))) as [Eu|Hu].
  - destruct (decide (DeletionTimestamp (Meta b') = DeletionTimestamp (Meta b))) as [Ed|Hd]; [done|].
    destruct Hn. exists b'. split; [done|]. rewrite Hb. intros ? [= <-]. by right; right.
  - destruct Hn. exists b'. split; [done|]. rewrite Hb. intros ? [= <-]. by left.
Qed.

Lemma other_attended q w' due :
  evolves (q_world q) w' → (q_due q = true → due = true) → (noticed (q_world q) w' → due = true) →
  attended q → attended {| q_world := w'; q_due := due |}.
Proof.
  intros Hw Hd Hn [Hq|Hq]; [left; by apply Hd|].
  destruct due; [by left|right]. cbn. intros x Hx Hlive.
  assert (¬ noticed (q_world q) w') as Hno by (by intros ?%Hn).
  destruct (w_bundle (q_world q)) as [b|] eqn:Eb.
  - destruct (not_noticed _ _ _ _ Hno Eb Hx) as [Eu Ed]. specialize (Hq b eq_refl ltac:(congruence)).
    destruct Hw as [b0 b' Hb (_ & _ & Es) Hc _| |b0 Hb _ _ _ _|k j j' _ _ _ _|k|k j _ _]; cbn in Hx;
      simplify_eq; try done.
    unfold settled. by rewrite Es.
  - destruct Hno. exists x. split; [done|]. by rewrite Eb.
Qed.

Lemma leaves_uid b t : chain_of b t → Forall server_ok t → UID (Meta (leaves b t)) = UID (Meta b).
Proof.
  intros Hc. induction Hc as [b|b e t He Hc IH|b b1 b2 e t He Hd Hc IH|b b1 err e He Hd]; intros Hok.
  - done.
  - apply Forall_cons in Hok as [_ Hok]. unfold leaves, leave in *. cbn. rewrite He. by apply IH.
  - apply Forall_cons in Hok as [He' Hok].
    assert (leaves b (e :: t) = leaves b2 t) as -> by (unfold leaves, leave; cbn; by rewrite He).
    rewrite (IH Hok). destruct Hd as [(_ & E1 & _) _].
    assert (same_object b1 b2) as (_ & E2 & _)
      by (destruct e as [[] ans]; try done; cbn in He; injection He as -> ->; apply He').
    congruence.
  - unfold leaves, leave. cbn. by rewrite He.
Qed.

(** A reconciliation whose first read fails. *)
Definition unread (e : event) : option error :=
  match e with Ev (GetBundle _) (Err err) => Some err | _ => None end.

Lemma Reconcile_unread req err t o :
  exec (Reconcile r req) (Ev (GetBundle req) (Err err) :: t) o →
  (IsNotFound err = true ∧ t = [] ∧ o = Done stop) ∨ ∃ e, o = Done (fail e).
Proof.
  intros He. apply Reconcile_run in He. remember (_ :: _) as l eqn:El.
  destruct He as [e Hn|e Hn|b t' o Hr]; apply (f_equal (λ l, (omap unread (take 1 l), tail l))) in El;
    cbn in El; [|right; by exists e|by injection El].
  left. by injection El as -> ->.
Qed.

Lemma reconcile_attended q req a t o w' due :
  versioned (q_world q) → current (q_world q) a → regular a →
  exec (Reconcile r req) (Ev (GetBundle req) a :: t) o → served (q_world q) t w' → ¬ swallowed t →
  (asks_again o → due = true) → (noticed (q_world q) w' → due = true) →
  attended {| q_world := w'; q_due := due |}.
Proof.
  intros Hv Hcur Hreg He Hsv Hsw Ho Hn. destruct due; [by left|right]. cbn. intros x Hx Hlive.
  assert (¬ noticed (q_world q) w') as Hno by (by intros ?%Hn).
  assert (¬ asks_again o) as Hnot by (by intros ?%Ho).
  pose proof (served_server_ok _ _ _ Hsv) as Hok.
  destruct a as [b|err].
  - cbn in Hcur, Hreg. destruct o as [[res [e|]]|m]; try (by destruct Hnot). destruct Hreg as [Hst Hi]. apply status_valid_spec in Hst as (_ & _ & Hc).
    destruct (not_noticed _ _ _ _ Hno Hcur Hx) as [Eu Ed]. apply Reconcile_read in He.
    pose proof (read_chain r _ _ _ He) as Hch.
    assert (∀ e b1 err, last t = Some e → write_of e ≠ Some (b1, Err err)) as Hacc.
    { intros e b1 err Hl Hw. destruct (read_reports r _ _ _ He) as [Hrep|[_ Hsw']]; [|done].
      apply (Hrep e err Hl). destruct e as [[] ans]; try done; cbn in Hw; by injection Hw as -> ->. }
    assert (Status x = Status (leaves b t)) as Es.
    { eapply (chain_tracks _ _ _ _ Hch Hacc (versioned_current _ Hv _ Hcur));
        [|exact Hsv|exact Hx|by rewrite (leaves_uid _ _ Hch Hok)].
      intros y Hy _. congruence. }
    unfold settled. rewrite Es.
    assert (DeletionTimestamp (Meta b) = None) as Hd by congruence.
    pose proof (read_comes_back r b t _ Hd Hc Hi Hok He) as Hcb. by destruct Hcb as [?|[?|?]].
  - apply Reconcile_unread in He as [(He & -> & ->)|(e & ->)]; [|by destruct Hnot].
    inversion Hsv as [? ? Hw|]; subst. destruct Hno. exists x. split; [done|]. by rewrite Hcur.
Qed.

Lemma qstep_attended q q' :
  qstep q q' → versioned (q_world q) ∧ attended q → versioned (q_world q') ∧ attended q'.
Proof.
  intros Hq [Hv Ha]. split; [by eapply qstep_versioned|].
  destruct Hq as [w' due Hw Hd Hn|req a t o w' due _ Hcur Hreg He _ _ Hsv Hsw Ho Hn|req t t' o w' He Hsv].
  - by eapply other_attended.
  - by eapply reconcile_attended.
  - by left.
Qed.

Lemma qsteps_attended q q' :
  rtc qstep q q' → versioned (q_world q) ∧ attended q → versioned (q_world q') ∧ attended q'.
Proof. induction 1; [done|]. eauto using qstep_attended. Qed.

(** C4 No bundle is forgotten.  Whatever users and the cluster do, and however
    often the process crashes, a live bundle that is neither Synced nor Failed
    always has a reconciliation coming: it is due in the work queue, as
    controller-runtime fills it.  Of the reconciliations that are not cut short this
    needs that the read they start with is up to date; that the status they read
    satisfies the markers of the CRD and the poll interval of the spec is positive
    and less than 2^62 ns; and that, if the service account is looked up and not
    found, the status write that follows succeeds ([current], [regular],
    [swallowed]).  Any other call may fail. *)
Theorem never_forgotten q0 q b :
  initial (q_world q0) → rtc qstep q0 q →
  w_bundle (q_world q) = Some b → DeletionTimestamp (Meta b) = None →
  Phase (Status b) ≠ PhaseSynced → Phase (Status b) ≠ PhaseFailed →
  q_due q = true.
Proof.
  intros Hi Hs Hb Hd Hp1 Hp2.
  assert (versioned (q_world q0) ∧ attended q0) as Hq0.
  { split; [by apply initial_versioned|right]. intros x Hx. destruct Hi as [Hi _]. congruence. }
  destruct (qsteps_attended _ _ Hs Hq0) as [_ [?|Ha]]; [done|]. by destruct (Ha b Hb Hd).
Qed.

End Queue.

(** ** Witness *)

#[local] Existing Instance sample_machinery.
#[local] Existing Instance sample_machinery_ok.
#[local] Existing Instance sample_lib.
#[local] Existing Instance sample_contract.
#[local] Existing Instance orderly.

(** The bundle is created, and its first reconciliation starts a job. *)
Lemma never_forgotten_witness :
  Phase (Status (stored (started sample_reconciler "v1.0.0"))) = PhaseSyncing ∧
  q_due {| q_world := started sample_reconciler "v1.0.0"; q_due := true |} = true.
Proof.
  split; [vm_compute; reflexivity|].
  destruct (play_read sample_reconciler "v1.0.0" submitted sample_request sample_bundle)
    as (He & Hs & Hsv); [vm_compute; reflexivity|].
  apply (never_forgotten sample_reconciler {| q_world := nothing; q_due := false |} _
           (stored (started sample_reconciler "v1.0.0"))).
  - split; reflexivity.
  - eapply rtc_l; [apply (qstep_other _ _ submitted true); [apply submitted_evolves|done|done]|].
    apply rtc_once.
    refine (qstep_reconcile _ {| q_world := submitted; q_due := true |} sample_request (Ok sample_bundle)
      _ _ _ true eq_refl eq_refl _ He Hs I Hsv _ (λ _, eq_refl) (λ _, eq_refl)).
    + split; [reflexivity|vm_compute; split; reflexivity].
    + intros (pre & k & e & b & e' & E). apply (f_equal last) in E.
      rewrite (last_app pre) in E. cbn [last] in E.
      apply (f_equal (λ e, e ≫= write_of)) in E. vm_compute in E. discriminate E.
  - apply stored_some. vm_compute. reflexivity.
  - reflexivity.
  - vm_compute. discriminate.
  - vm_compute. discriminate.
Defined.
