(* ===== verification/Conditional.v ===== *)
(** * Conditional polling

    The reconciler and the OCI client together: the ETag of the status goes out
    with every request of the next poll, and comes back into the status with the
    first write after a successful listing. *)
From S2P Require Import Prelude GoErrors Prog Api Kube Duration Backoff Values Yaml Fetch JobBuilder Logs Rbac Registry Controller Runs Server Samples Scenarios Safety Listing Lifecycle System Chains.

(** The request carries the ETag [etag], if there is one. *)
Definition conditional `{Machinery} (etag : string) (e : event) : Prop :=
  match e with
  | Ev (HttpRoundTrip req) _ =>
      etag ≠ EmptyString → req_Header req !! "If-None-Match" = Some [etag]
  | _ => True
  end.

Section Conditional.
Context `{Machinery} `{!MachineryOk} `{RegistryLib} (r : WerfBundleReconciler)
  `{!RegistryContract (r_RegistryClient r)}.

(** Neither a request nor a change of the ETag. *)
Definition keeps_etag (s s' : WerfBundleStatus) : Prop := LastETag s' = LastETag s.

#[local] Instance keeps_etag_preorder : PreOrder keeps_etag.
Proof. unfold keeps_etag. split; [by intros s|]. intros s1 s2 s3. congruence. Qed.

Lemma syncing_etag tag s : keeps_etag s (syncing tag s).
Proof. apply syncing_fields. Qed.

Definition plain (s : WerfBundleStatus) (t : list event) : Prop :=
  Forall offline t ∧ Forall (written keeps_etag s) t.

Lemma plain_calm s t : Forall offline t → Forall calm t → plain s t.
Proof. intros Ho Hc. split; [done|by apply written_calm]. Qed.

Lemma plain_nil s : plain s [].
Proof. done. Qed.

Lemma plain_cons s e t : offline e → written keeps_etag s e → plain s t → plain s (e :: t).
Proof. intros He Hw [Ho Ht]. by split; constructor. Qed.

Lemma plain_app s t1 t2 : plain s t1 → plain s t2 → plain s (t1 ++ t2).
Proof. intros [Ho1 Hw1] [Ho2 Hw2]. by split; apply Forall_app. Qed.

Lemma plain_more s s' t : keeps_etag s s' → plain s' t → plain s t.
Proof. intros Hs [Ho Ht]. split; [done|]. by apply (written_more keeps_etag s s'). Qed.

Lemma plain_write s b a : keeps_etag s (Status b) → plain s [Ev (StatusUpdate b) a].
Proof. intros Hs. by repeat constructor. Qed.

Lemma plain_build s b tag t o : exec (Build (builder_for r b) tag) t o → plain s t.
Proof.
  intros He. apply plain_calm; [|by eapply calm_build].
  eapply Forall_impl; [by eapply calls_exec, He; apply calls_builder|]. by intros [[] a].
Qed.

Lemma plain_capture s b job t o : exec (capture_logs r b job) t o → plain s t.
Proof.
  intros He. apply plain_calm; [|by eapply calm_capture].
  eapply Forall_impl; [by eapply calls_exec, He; apply calls_capture_logs|]. by intros [[] a].
Qed.

Lemma plain_jitter s interval t o : jitter_run interval t o → plain s t.
Proof. intros Hr. apply plain_calm; [by eapply jitter_calls|by eapply calm_jitter]. Qed.

Lemma monitor_plain b job tag t o : monitor_run r b job tag t o → plain (Status b) t.
Proof.
  intros Hr. destruct Hr as [Hs Hf|tl b' now a Hs He|tl b' a Hs Hf He]; [apply plain_nil|..];
    (apply plain_app; [by eapply plain_capture|]);
    apply capture_captured in He as [->|(l & logs & -> & _)].
  1, 2: apply plain_cons; [done|done|].
  all: by apply plain_write.
Qed.

Lemma create_plain b tag t o :
  Forall server_ok t → create_run r b tag t o → plain (Status b) t.
Proof.
  intros Hok Hr. pose proof (syncing_etag tag (Status b)) as Ee.
  destruct Hr as [e|b1 tb m He|b1 tb e a He|b1 tb job e a He|b1 tb job job' a He];
    [by apply plain_write|..]; apply Forall_cons in Hok as [[_ Es] _];
    (apply plain_cons; [done|exact Ee|]);
    apply (plain_more _ (Status b1)); try (by rewrite Es); [by eapply plain_build|..];
    (apply plain_app; [by eapply plain_build|]);
    first [by apply plain_write | apply plain_cons; [done|done|]; by apply plain_write].
Qed.

Lemma ensure_plain b tag t o :
  Forall server_ok t → ensure_run r b tag t o → plain (Status b) t.
Proof.
  intros Hok Hr. destruct Hr as [t o Ha Hr|e t o Ha He Hr|e Ha He|job t o Ha Hr].
  - by eapply create_plain.
  - apply Forall_cons in Hok as [_ Hok]. apply plain_cons; [done|done|].
    by apply (create_plain (on_Status (set_ActiveJobName EmptyString) b) tag t o).
  - by apply plain_cons.
  - apply plain_cons; [done|done|]. by eapply monitor_plain.
Qed.

Lemma error_plain b e interval t o : error_run b e interval t o → plain (Status b) t.
Proof.
  intros Hr. destruct Hr as [t o He Hr|now a He Hn|now a n He -> Hn].
  - by eapply plain_jitter.
  - apply plain_cons; [done|done|]. by apply plain_write.
  - apply plain_cons; [done|done|]. apply plain_write. exact (syncing_etag _ (Status (counted now b))).
Qed.

(** ** The listing *)

Hypothesis Hoci : r_RegistryClient r = NewOCIClient.

Lemma listing_conditional b th o :
  exec (listing r b) th o →
  Forall (conditional (LastETag (Status b))) th ∧
  ∀ tags etag, o = Done (tags, etag, None) → etag = last_etag th.
Proof.
  unfold listing. rewrite Hoci. intros He.
  pose proof (wp_any _ _ _ _ (wp_OCI_ListTagsWithETag _ _ _) He) as Hp.
  destruct (NewRepository _) as [ref|err]; [|by destruct Hp as [-> ->]].
  destruct Hp as (tl & Hs & Ho). split.
  - clear He Ho. induction Hs as [|eh e tl th (q & a & _ & ->) _ IH]; constructor; [|exact IH].
    intros Hne. unfold with_validator, Header_Set. cbn. rewrite decide_False by done. apply lookup_insert_eq.
  - intros tags etag ->. destruct Ho as [(m & ? & _)|(x & _ & Eo)]; [done|].
    destruct x as [libtags|[]]; try discriminate Eo. by injection Eo as -> ->.
Qed.

(** ** A reconciliation *)

(** The ETag that the status has after the listing: the one the registry sent last,
    if the listing succeeds. *)
Definition etag_after (b : WerfBundle) (o : listing_result) : string :=
  match o with Done (_, etag, None) => etag | _ => LastETag (Status b) end.

(** The calls [t] that follow the read of [b]: one listing at most, with calls
    before it that keep the ETag of the status and calls after it that write the
    new one. *)
Definition lists_once (b : WerfBundle) (t : list event) : Prop :=
  plain (Status b) t ∨
  ∃ pre th post o s, t = pre ++ th ++ post ∧ plain (Status b) pre ∧ exec (listing r b) th o ∧
    LastETag s = etag_after b o ∧ plain s post.

(** Calls before the listing. *)
Lemma lists_once_after b b1 t1 t2 :
  plain (Status b) t1 → listing r b1 = listing r b → LastETag (Status b1) = LastETag (Status b) →
  lists_once b1 t2 → lists_once b (t1 ++ t2).
Proof.
  intros Hp El Ek [Ht|(pre & th & post & o & s & -> & Hpre & Hth & Es & Hpost)].
  - left. apply plain_app; [done|]. by apply (plain_more _ (Status b1)).
  - right. exists (t1 ++ pre), th, post, o, s. split; [by rewrite <- app_assoc|].
    split; [apply plain_app; [done|by apply (plain_more _ (Status b1))]|].
    split; [by rewrite <- El|]. split; [|done]. rewrite Es. unfold etag_after. by rewrite Ek.
Qed.

Lemma lists_once_here b th o s t :
  exec (listing r b) th o → LastETag s = etag_after b o → plain s t → lists_once b (th ++ t).
Proof. intros He Es Ht. right. by exists [], th, t, o, s. Qed.

Lemma polled_etag etag s : LastETag (polled etag s) = etag.
Proof. apply polled_fields. Qed.

Lemma poll_lists_once b t o : Forall server_ok t → poll_run r b t o → lists_once b t.
Proof.
  intros Hok Hr.
  destruct Hr as [th m He|th tags etag e t o He Hr|th etag t o He Hp1 Hp2 Hr|th etag b1 t o He Hp Hr
    |th etag e He Hp|th tags etag He Hl Hp|th tags etag now a He Hl Hp|th tags etag tag t o He Hl Hn Hr];
    try (apply Forall_app in Hok as [_ Hok]).
  - rewrite <- (app_nil_r th). by apply (lists_once_here b th _ (Status b) [] He).
  - apply (lists_once_here b th _ (Status b) t He); [done|by eapply error_plain].
  - apply (lists_once_here b th _ (polled etag (Status b)) t He); [apply polled_etag|by eapply plain_jitter].
  - apply (lists_once_here b th _ (polled etag (Status b)) _ He); [apply polled_etag|].
    apply plain_cons; [done|exact (syncing_etag _ _)|by eapply plain_jitter].
  - apply (lists_once_here b th _ (polled etag (Status b)) _ He); [apply polled_etag|].
    apply plain_write. exact (syncing_etag _ _).
  - rewrite <- (app_nil_r th). apply (lists_once_here b th _ (polled etag (Status b)) [] He); [apply polled_etag|done].
  - apply (lists_once_here b th _ (polled etag (Status b)) _ He); [apply polled_etag|].
    apply plain_cons; [done|done|]. by apply plain_write.
  - apply (lists_once_here b th _ (polled etag (Status b)) t He); [apply polled_etag|by eapply ensure_plain in Hr].
Qed.

Lemma account_lists_once b t o : Forall server_ok t → account_run r b t o → lists_once b t.
Proof.
  intros Hok Hr. destruct Hr as [t o Hs Hr|t o Hs Hr|e a Hs].
  - by eapply poll_lists_once.
  - apply Forall_cons in Hok as [_ Hok].
    apply (lists_once_after b b [_]); [by repeat constructor|done|done|by eapply poll_lists_once].
  - left. apply plain_cons; [done|done|]. by apply plain_write.
Qed.

Lemma check_lists_once b t o : Forall server_ok t → check_run r b t o → lists_once b t.
Proof.
  intros Hok Hr. destruct Hr as [err a Hv|t o Hv Hn Hr|b1 t o Hv Hn Hr|e Hv Hn].
  - left. by apply plain_write.
  - by eapply account_lists_once.
  - apply Forall_cons in Hok as [[Hs Es] Hok]. apply (lists_once_after b b1 [_]); [by apply plain_write|..].
    + by apply listing_same; [|rewrite Es].
    + by rewrite Es.
    + by eapply account_lists_once.
  - left. by apply plain_write.
Qed.

Lemma read_lists_once b t o : Forall server_ok t → read_run r b t o → lists_once b t.
Proof.
  intros Hok Hr.
  destruct (AddFinalizer_same b finalizerName) as (Hsa & Ea & _).
  pose proof (proj1 (proj2 (RemoveFinalizer_same b finalizerName))) as Er.
  assert (∀ x a, Status x = Status b → plain (Status b) [Ev (UpdateBundle x) a]) as Hup.
  { intros x a Es. apply plain_cons; [done| |apply plain_nil]. unfold written, keeps_etag. cbn. by rewrite Es. }
  destruct Hr as [d Hd Hf|d a Hd Hf|t o Hd Hf Hr|b1 t o Hd Hf Hr|e Hd Hf].
  - left. apply plain_nil.
  - left. by apply Hup.
  - by eapply check_lists_once.
  - apply Forall_cons in Hok as [[Hs Es] Hok].
    apply (lists_once_after b b1 [_]); [by apply Hup|..].
    + apply listing_same; [by etransitivity|congruence].
    + congruence.
    + by eapply check_lists_once.
  - left. by apply Hup.
Qed.

(** ** Properties *)

Lemma plain_writes s t x a : plain s t → Ev (StatusUpdate x) a ∈ t → LastETag (Status x) = LastETag s.
Proof. intros [_ Hw] Hin. exact (written_in _ _ _ _ _ a Hw Hin eq_refl). Qed.

(** C28 Conditional polling.  With the OCI client, a reconciliation lists its
    registry at most once.  Every request of the listing carries the ETag of the
    status that was read in If-None-Match, if that status has one (without one the
    client adds no condition).  The status writes before the listing keep that ETag;
    those after it have the one the listing returned if it succeeded, which is the
    last non-empty one the registry sent in answer to its requests (or none), and
    the old one if it failed. *)
Theorem Reconcile_conditional req b t o :
  exec (Reconcile r req) (Ev (GetBundle req) (Ok b) :: t) o → Forall server_ok t →
  (Forall offline t ∧ ∀ x a, Ev (StatusUpdate x) a ∈ t → LastETag (Status x) = LastETag (Status b)) ∨
  ∃ pre th post lo, t = pre ++ th ++ post ∧ exec (listing r b) th lo ∧
    Forall offline pre ∧ Forall offline post ∧
    (∀ q a, Ev (HttpRoundTrip q) a ∈ th → LastETag (Status b) ≠ EmptyString →
       req_Header q !! "If-None-Match" = Some [LastETag (Status b)]) ∧
    (∀ x a, Ev (StatusUpdate x) a ∈ pre → LastETag (Status x) = LastETag (Status b)) ∧
    ∀ x a, Ev (StatusUpdate x) a ∈ post →
      match lo with
      | Done (_, etag, None) => LastETag (Status x) = etag ∧ etag = last_etag th
      | _ => LastETag (Status x) = LastETag (Status b)
      end.
Proof.
  intros He%Reconcile_read Hok.
  destruct (read_lists_once b t o Hok He) as [Hp|(pre & th & post & lo & s & -> & Hpre & Hth & Es & Hpost)].
  - left. split; [apply Hp|]. intros x a. by apply plain_writes.
  - right. exists pre, th, post, lo. destruct (listing_conditional b th lo Hth) as [Hc Hl].
    rewrite Forall_forall in Hc.
    split; [done|]. split; [done|]. split; [apply Hpre|]. split; [apply Hpost|].
    split; [intros q a Hin; exact (Hc _ Hin)|]. split; [intros x a; by apply plain_writes|].
    intros x a Hin. apply (plain_writes _ _ _ _ Hpost) in Hin. rewrite Hin, Es. unfold etag_after.
    destruct lo as [[[tags etag] [e|]]|m]; [done| |done]. split; [done|]. by apply (Hl tags).
Qed.

End Conditional.

(** ** Witnesses *)

#[local] Existing Instance sample_machinery.
#[local] Existing Instance sample_machinery_ok.
#[local] Existing Instance sample_lib.
#[local] Existing Instance sample_contract.

(** A bundle that has been polled before. *)
Definition polled_bundle : WerfBundle := bundle_with (polled "etag-0").
Definition second_poll : list event * outcome (Result * option error) :=
  reconciliation polled_bundle 200 "v1.0.0" None.

Lemma second_poll_ok : Forall server_ok (tail second_poll.1).
Proof. exact (Forall_inv_tail (reconciliation_read_ok polled_bundle 200 "v1.0.0" None eq_refl eq_refl)). Qed.

Lemma Reconcile_conditional_witness :
  ∃ pre th post lo, tail second_poll.1 = pre ++ th ++ post ∧
    (∀ q a, Ev (HttpRoundTrip q) a ∈ th → req_Header q !! "If-None-Match" = Some ["etag-0"]) ∧
    lo = Done (["v1.0.0"], "etag-1", None : option error).
Proof.
  destruct (Reconcile_conditional sample_reconciler eq_refl sample_request polled_bundle
    (tail second_poll.1) second_poll.2 (reconciliation_read_exec polled_bundle 200 "v1.0.0" None eq_refl eq_refl)
    second_poll_ok) as [[Ho _]|(pre & th & post & lo & E & Hth & Hpre & _ & Hq & _)].
  - exfalso. assert (existsb asks (tail second_poll.1) = true) as Hx by (vm_compute; reflexivity).
    by rewrite (offline_asks _ Ho) in Hx.
  - exists pre, th, post, lo. split; [exact E|]. split.
    + intros q a Hin. exact (Hq q a Hin ltac:(discriminate)).
    + assert (listing_in sample_reconciler polled_bundle (tail second_poll.1) lo) as Hl by (by exists pre, th, post).
      rewrite (listing_answered sample_reconciler (cluster polled_bundle 200 "v1.0.0" None) _ _ _ Hl).
      * vm_compute. reflexivity.
      * apply run_read_legal. by intros [].
Defined.
