(* ===== verification/Machine.v ===== *)
(** * The deployment machine

    What the status of a bundle is meant to be: a small machine that starts a
    deployment, launches its job, and ends well or badly.  A status shows a state
    of the machine if its fields agree with each other; the theorem is that the
    operator, in its cluster, refines the machine. *)
From S2P Require Import Prelude GoErrors Prog Api Kube Duration Backoff Values Yaml Fetch JobBuilder Logs Rbac Registry Controller Runs Server Samples Scenarios Safety Lifecycle System Chains Cluster.

(** ** States *)

Inductive stage :=
| Created
| Working
| UpToDate (at_ : Z)
| Broken (why : string) (synced_at : option Z).

#[global] Instance stage_eq_dec : EqDecision stage.
Proof. solve_decision. Defined.

Record deployment := {
  d_stage : stage;
  d_tag : string;
  d_job : option string;
  d_outcome : string;
  d_failures : Z;
}.

Definition created : deployment :=
  {| d_stage := Created; d_tag := EmptyString; d_job := None; d_outcome := EmptyString; d_failures := 0 |}.

(** ** Moves *)

(** An empty tag is not noted. *)
Definition noted (T tag : string) : string := if decide (T = EmptyString) then tag else T.

Definition stale (g : stage) : option Z :=
  match g with UpToDate t => Some t | Broken _ t => t | _ => None end.

Inductive move : deployment → deployment → Prop :=
| move_listed g T j o n : move (Build_deployment g T j o n) (Build_deployment g T j o (Z.min 0 n))
| move_forget g T j o n : move (Build_deployment g T (Some j) o n) (Build_deployment g T None o n)
| move_begin g T T' o n :
    move (Build_deployment g T None o n) (Build_deployment Working (noted T' T) None o n)
| move_launch T j o n :
    j ≠ EmptyString →
    move (Build_deployment Working T None o n) (Build_deployment Working T (Some j) JobStatusRunning n)
| move_succeed g T j o n T' t :
    move (Build_deployment g T (Some j) o n)
         (Build_deployment (UpToDate t) T' None JobStatusSucceeded n)
| move_job_fails g T j o n why :
    why ≠ EmptyString →
    move (Build_deployment g T (Some j) o n)
         (Build_deployment (Broken why (stale g)) T None JobStatusFailed n)
| move_confirm g T j o n t :
    (∀ t', g ≠ UpToDate t') →
    move (Build_deployment g T j o n) (Build_deployment (UpToDate t) T j o n)
| move_wait g T j o n :
    g = Created ∨ (∃ why t, g = Broken why t) →
    move (Build_deployment g T j o n) (Build_deployment Working T j o n)
| move_retry g T j o n why :
    int32 (n + 1) <= maxConsecutiveFailures → why ≠ EmptyString →
    move (Build_deployment g T j o n) (Build_deployment Working why j o (int32 (n + 1)))
| move_give_up g T j o n why :
    maxConsecutiveFailures < int32 (n + 1) → why ≠ EmptyString →
    move (Build_deployment g T j o n) (Build_deployment (Broken why (stale g)) T j o (int32 (n + 1)))
| move_reject g T j o n why :
    why ≠ EmptyString →
    move (Build_deployment g T j o n) (Build_deployment (Broken why (stale g)) T j o n).

(** ** What a status shows *)

Definition stage_phase (g : stage) : string :=
  match g with
  | Created => EmptyString
  | Working => PhaseSyncing
  | UpToDate _ => PhaseSynced
  | Broken _ _ => PhaseFailed
  end.

Definition stage_message (g : stage) : string := match g with Broken why _ => why | _ => EmptyString end.

(** The fields agree with the state [d] and, through it, with each other. *)
Record shows (s : WerfBundleStatus) (d : deployment) : Prop := {
  shows_phase : Phase s = stage_phase (d_stage d);
  shows_message : LastErrorMessage s = stage_message (d_stage d);
  shows_time : LastSyncTime s = stale (d_stage d);
  shows_tag : LastAppliedTag s = d_tag d;
  shows_job : ActiveJobName s = default EmptyString (d_job d);
  shows_outcome : LastJobStatus s = d_outcome d;
  shows_failures : ConsecutiveFailures s = d_failures d;
  shows_why why t : d_stage d = Broken why t → why ≠ EmptyString;
  shows_running j : d_job d = Some j → j ≠ EmptyString ∧ d_outcome d = JobStatusRunning;
  shows_created : d_stage d = Created → d_job d = None ∧ d_tag d = EmptyString ∧ d_outcome d = EmptyString;
}.

(** The status [s'] is where the machine can move from what [s] shows. *)
Definition moves (s s' : WerfBundleStatus) : Prop :=
  ∀ d, shows s d → ∃ d', rtc move d d' ∧ shows s' d'.

#[global] Instance moves_preorder : PreOrder moves.
Proof.
  split.
  - intros s d Hd. by exists d.
  - intros s1 s2 s3 H12 H23 d Hd. destruct (H12 d Hd) as (d2 & Hm2 & Hd2).
    destruct (H23 d2 Hd2) as (d3 & Hm3 & Hd3). exists d3. split; [by etransitivity|done].
Qed.

Lemma created_shows : shows zero_status created.
Proof. by split. Qed.

(** One move is enough for most of the operator's changes. *)
Ltac agree := split; cbn in *; first [assumption|congruence|intros; simplify_eq/=; by eauto|idtac].
Ltac moved m := eexists; split; [apply rtc_once; apply m|agree].

Lemma moves_polled etag s : moves s (polled etag s).
Proof.
  pose proof (polled_fields etag s) as (Ep & Et & Ea & Ej & Em & _ & _ & Ec).
  intros [g T j o n] [H1 H2 H3 H4 H5 H6 H7 H8 H9 H10]. cbn in *.
  assert (LastSyncTime (polled etag s) = LastSyncTime s) as Es by (unfold polled; by case_match).
  moved move_listed.
Qed.

(** What the machine does not look at. *)
Lemma shows_same s s' d :
  Phase s' = Phase s → LastErrorMessage s' = LastErrorMessage s → LastSyncTime s' = LastSyncTime s →
  LastAppliedTag s' = LastAppliedTag s → ActiveJobName s' = ActiveJobName s →
  LastJobStatus s' = LastJobStatus s → ConsecutiveFailures s' = ConsecutiveFailures s →
  shows s d → shows s' d.
Proof. intros E1 E2 E3 E4 E5 E6 E7 [H1 H2 H3 H4 H5 H6 H7 H8 H9 H10]. split; congruence || done. Qed.

Lemma moves_resolved ns s : moves s (set_ResolvedTargetNamespace ns s).
Proof. intros d Hd. exists d. split; [done|]. by eapply shows_same, Hd. Qed.

Lemma moves_logs logs s s' : moves s s' → moves s (set_LastJobLogs logs s').
Proof.
  intros Hs d Hd. destruct (Hs d Hd) as (d' & Hm & Hd'). exists d'. split; [done|].
  by eapply shows_same, Hd'.
Qed.

Lemma moves_forget s : ActiveJobName s ≠ EmptyString → moves s (set_ActiveJobName EmptyString s).
Proof.
  intros Ha [g T [j|] o n] [H1 H2 H3 H4 H5 H6 H7 H8 H9 H10]; cbn in *; [|congruence].
  moved move_forget. intros Eg. by destruct (H10 Eg).
Qed.

(** No job is running. *)
Lemma shows_idle s d : shows s d → ActiveJobName s = EmptyString → d_job d = None.
Proof.
  intros Hd Ea. destruct (d_job d) as [j|] eqn:Ej; [|done].
  destruct (shows_running _ _ Hd j Ej) as [Hj _]. pose proof (shows_job _ _ Hd) as E.
  rewrite Ea, Ej in E. cbn in E. congruence.
Qed.

(** A job is. *)
Lemma shows_busy s d : shows s d → ActiveJobName s ≠ EmptyString → ∃ j, d_job d = Some j.
Proof.
  intros Hd Ea. destruct (d_job d) as [j|] eqn:Ej; [by exists j|].
  pose proof (shows_job _ _ Hd) as E. by rewrite Ej in E.
Qed.

Lemma moves_begin tag s : ActiveJobName s = EmptyString → moves s (syncing tag s).
Proof.
  intros Ha [g T j o n] Hd. pose proof (shows_idle _ _ Hd Ha) as Ej. cbn in Ej. subst j.
  destruct Hd as [H1 H2 H3 H4 H5 H6 H7 H8 H9 H10]. cbn in *.
  pose proof (syncing_fields tag s) as (E1 & E2 & E3 & E4 & _ & E6 & E7).
  exists (Build_deployment Working (noted tag T) None o n).
  split; [apply rtc_once, move_begin|]. unfold noted. agree.
Qed.

Lemma moves_wait s :
  Phase s = EmptyString ∨ Phase s = PhaseFailed → moves s (syncing EmptyString s).
Proof.
  intros Hp [g T j o n] [H1 H2 H3 H4 H5 H6 H7 H8 H9 H10]. cbn in *.
  pose proof (syncing_fields EmptyString s) as (E1 & E2 & E3 & E4 & _ & E6 & E7). cbn in E7.
  exists (Build_deployment Working T j o n). split.
  - apply rtc_once, move_wait. rewrite H1 in Hp. destruct g; [by left|by destruct Hp..|right; by eexists _, _].
  - agree.
Qed.

Lemma moves_launch j s :
  Phase s = PhaseSyncing → ActiveJobName s = EmptyString → j ≠ EmptyString →
  moves s (job_state JobStatusRunning j s).
Proof.
  intros Hp Ha Hj [g T j0 o n] Hd. pose proof (shows_idle _ _ Hd Ha) as Ej. cbn in Ej. subst j0.
  destruct Hd as [H1 H2 H3 H4 H5 H6 H7 H8 H9 H10]. cbn in *.
  assert (g = Working) as -> by (rewrite H1 in Hp; by destruct g).
  exists (Build_deployment Working T (Some j) JobStatusRunning n).
  split; [by apply rtc_once, move_launch|agree].
Qed.

Lemma moves_confirm now s : Phase s ≠ PhaseSynced → moves s (synced (LastAppliedTag s) now s).
Proof.
  intros Hp [g T j o n] [H1 H2 H3 H4 H5 H6 H7 H8 H9 H10]. cbn in *.
  eexists. split; [apply rtc_once, (move_confirm _ _ _ _ _ now)|agree].
  intros t ->. by rewrite H1 in Hp.
Qed.

Lemma moves_succeed tag now s :
  ActiveJobName s ≠ EmptyString → moves s (synced tag now (job_state JobStatusSucceeded EmptyString s)).
Proof.
  intros Ha [g T j o n] Hd. destruct (shows_busy _ _ Hd Ha) as [j0 Ej]. cbn in Ej. subst j.
  destruct Hd as [H1 H2 H3 H4 H5 H6 H7 H8 H9 H10]. cbn in *.
  eexists. split; [apply rtc_once, (move_succeed _ _ _ _ _ tag now)|agree].
Qed.

Lemma moves_job_fails why s :
  ActiveJobName s ≠ EmptyString → why ≠ EmptyString →
  moves s (failed why (job_state JobStatusFailed EmptyString s)).
Proof.
  intros Ha Hw [g T j o n] Hd. destruct (shows_busy _ _ Hd Ha) as [j0 Ej]. cbn in Ej. subst j.
  destruct Hd as [H1 H2 H3 H4 H5 H6 H7 H8 H9 H10]. cbn in *.
  eexists. split; [by apply rtc_once, (move_job_fails _ _ _ _ _ why)|agree].
Qed.

Lemma moves_reject why s : why ≠ EmptyString → moves s (failed why s).
Proof.
  intros Hw [g T j o n] [H1 H2 H3 H4 H5 H6 H7 H8 H9 H10]. cbn in *.
  eexists. split; [by apply rtc_once, (move_reject _ _ _ _ _ why)|agree].
Qed.

Lemma moves_retry why now b :
  int32 (ConsecutiveFailures (Status b) + 1) <= maxConsecutiveFailures → why ≠ EmptyString →
  moves (Status b) (syncing why (Status (counted now b))).
Proof.
  intros Hn Hw [g T j o n] [H1 H2 H3 H4 H5 H6 H7 H8 H9 H10]. cbn in *.
  pose proof (syncing_fields why (Status (counted now b))) as (E1 & E2 & E3 & E4 & _ & E6 & E7).
  cbn in *. rewrite decide_False in E7 by done. rewrite H7 in Hn.
  eexists. split; [by apply rtc_once, (move_retry _ _ _ _ _ why)|agree].
  unfold syncing. by case_decide.
Qed.

Lemma moves_give_up why now b :
  maxConsecutiveFailures < int32 (ConsecutiveFailures (Status b) + 1) → why ≠ EmptyString →
  moves (Status b) (failed why (Status (counted now b))).
Proof.
  intros Hn Hw [g T j o n] [H1 H2 H3 H4 H5 H6 H7 H8 H9 H10]. cbn in *. rewrite H7 in Hn.
  eexists. split; [by apply rtc_once, (move_give_up _ _ _ _ _ why)|agree].
Qed.

(** ** A reconciliation moves the machine *)

Section Reconciled.
Context `{Machinery} `{!MachineryOk} `{RegistryLib} {conduct : Conduct} (r : WerfBundleReconciler)
  `{!RegistryContract (r_RegistryClient r)}.

Lemma monitor_moves b job tag t o :
  ActiveJobName (Status b) ≠ EmptyString → monitor_run r b job tag t o →
  Forall (written moves (Status b)) t.
Proof.
  intros Ha Hr. destruct Hr as [Hs Hf|tl b' now a Hs He|tl b' a Hs Hf He]; [constructor|..].
  all: apply Forall_app; (split; [by eapply written_calm, calm_capture|]).
  all: apply capture_captured in He as [->|(l & logs & -> & _)]; each_event; try done.
  - by apply moves_succeed.
  - apply (moves_logs l _ (synced tag now (job_state JobStatusSucceeded EmptyString (Status b)))).
    by apply moves_succeed.
  - by apply moves_job_fails.
  - by apply (moves_logs l _ (failed _ (job_state JobStatusFailed EmptyString (Status b)))), moves_job_fails.
Qed.

Lemma create_moves b tag t o :
  ActiveJobName (Status b) = EmptyString → Forall server_ok t → create_run r b tag t o →
  Forall (written moves (Status b)) t.
Proof.
  intros Ha Hok Hr. pose proof (syncing_fields tag (Status b)) as (Ep & _ & _ & Ea & _).
  assert (moves (Status b) (syncing tag (Status b))) as Hb by (by apply moves_begin).
  destruct Hr as [e|b1 tb m He|b1 tb e a He|b1 tb job e a He|b1 tb job job' a He];
    [by each_event|..]; apply Forall_cons in Hok as [[_ Es] Hok]; (constructor; [done|]);
    pose proof (written_calm moves (Status b1) _ (calm_build _ _ _ _ _ He)) as Htb;
    apply (written_more moves _ (Status b1)); try (by rewrite Es); [done|..];
    apply Forall_app; (split; [done|]); apply Forall_app in Hok as [_ Hok]; each_event; try done.
  - by apply moves_reject.
  - by apply moves_reject.
  - apply Forall_cons in Hok as [Hk _]. apply moves_launch; [by rewrite Es|by rewrite Es; etransitivity|].
    injection Hk as -> _. by eapply build_identity.
Qed.

Lemma ensure_moves b tag t o :
  Forall server_ok t → ensure_run r b tag t o → Forall (written moves (Status b)) t.
Proof.
  intros Hok Hr. destruct Hr as [t o Ha Hr|e t o Ha He Hr|e Ha He|job t o Ha Hr].
  - by eapply create_moves.
  - apply Forall_cons in Hok as [_ Hok]. constructor; [done|].
    eapply (written_more moves _ _ t (moves_forget _ Ha)). by eapply create_moves in Hr.
  - by each_event.
  - constructor; [done|]. by eapply monitor_moves.
Qed.

Lemma error_moves b e interval t o :
  error_run b e interval t o → Forall (written moves (Status b)) t.
Proof.
  intros Hr. destruct Hr as [t o He Hr|now a He Hn|now a n He -> Hn].
  - by eapply written_calm, calm_jitter.
  - each_event; [done|]. by apply moves_give_up.
  - each_event; [done|]. by apply moves_retry.
Qed.

Lemma poll_moves b t o :
  Forall server_ok t → poll_run r b t o → Forall (written moves (Status b)) t.
Proof.
  intros Hok Hr. pose proof (λ etag, moves_polled etag (Status b)) as Hpo.
  pose proof (λ etag, polled_fields etag (Status b)) as Hf.
  destruct Hr as [th m He|th tags etag e t o He Hr|th etag t o He Hp1 Hp2 Hr|th etag b1 t o He Hp Hr
    |th etag e He Hp|th tags etag He Hl Hp|th tags etag now a He Hl Hp|th tags etag tag t o He Hl Hn Hr];
    pose proof (written_calm moves (Status b) _ (calm_listing _ _ _ _ He)) as Hth; try done;
    apply Forall_app; (split; [done|]); apply Forall_app in Hok as [_ Hok];
    try destruct (Hf etag) as (Ep & Et & _).
  - by eapply error_moves.
  - by eapply written_calm, calm_jitter.
  - constructor; [|by eapply written_calm, calm_jitter].
    refine (transitivity (Hpo etag) _). apply moves_wait. by rewrite Ep.
  - each_event. refine (transitivity (Hpo etag) _). apply moves_wait. by rewrite Ep.
  - each_event; [done|]. refine (transitivity (Hpo etag) _). cbn. rewrite <- Et.
    apply moves_confirm. by rewrite Ep.
  - apply (written_more moves _ _ t (Hpo etag)). by eapply ensure_moves in Hr.
Qed.

Lemma account_moves b t o :
  Forall server_ok t → account_run r b t o → Forall (written moves (Status b)) t.
Proof.
  intros Hok Hr. destruct Hr as [t o Hs Hr|t o Hs Hr|e a Hs].
  - by eapply poll_moves.
  - apply Forall_cons in Hok as [_ Hok]. constructor; [done|]. by eapply poll_moves.
  - each_event; [done|]. apply moves_reject. unfold account_error. by case_match.
Qed.

Lemma check_moves b t o :
  Forall server_ok t → check_run r b t o → Forall (written moves (Status b)) t.
Proof.
  intros Hok Hr. destruct Hr as [err a Hv|t o Hv Hn Hr|b1 t o Hv Hn Hr|e Hv Hn].
  - each_event. apply moves_reject. unfold ValidateCrossNamespaceDeployment in Hv.
    repeat case_decide; by simplify_eq.
  - by eapply account_moves.
  - apply Forall_cons in Hok as [[_ Es] Hok]. constructor; [apply moves_resolved|].
    apply (written_more moves _ (Status b1)); [rewrite Es; apply moves_resolved|by eapply account_moves].
  - each_event. apply moves_resolved.
Qed.

Lemma read_moves b t o :
  Forall server_ok t → read_run r b t o → Forall (written moves (Status b)) t.
Proof.
  intros Hok Hr.
  pose proof (proj1 (proj2 (AddFinalizer_same b finalizerName))) as Ea.
  pose proof (proj1 (proj2 (RemoveFinalizer_same b finalizerName))) as Er.
  destruct Hr as [d Hd Hf|d a Hd Hf|t o Hd Hf Hr|b1 t o Hd Hf Hr|e Hd Hf].
  - constructor.
  - each_event. unfold written. cbn. by rewrite Er.
  - by eapply check_moves.
  - apply Forall_cons in Hok as [[_ Es] Hok]. constructor; [unfold written; cbn; by rewrite Ea|].
    apply (written_more moves _ (Status b1)); [by rewrite Es, Ea|by eapply check_moves].
  - each_event. unfold written. cbn. by rewrite Ea.
Qed.

(** ** Reachable worlds *)

(** The status shows a state the machine can reach. *)
Definition shown (b : WerfBundle) : Prop := ∃ d, rtc move created d ∧ shows (Status b) d.

Lemma shown_status b b' : Status b' = Status b → shown b → shown b'.
Proof. unfold shown. by intros ->. Qed.

Lemma reachable_shown w0 w b : initial w0 → rtc (step r) w0 w → w_bundle w = Some b → shown b.
Proof.
  intros Hi Hr Hb. pose proof (initial_versioned _ Hi) as Hv.
  assert (holds None shown w) as (_ & _ & Hq); [|by apply Hq].
  eapply (steps_holds None shown) with (P := λ _, True); [..|exact Hr|].
  - intros x x' (_ & _ & Es). by apply shown_status.
  - intros x x' _ Es. by apply shown_status.
  - intros x Es _. exists created. split; [done|]. rewrite Es. apply created_shows.
  - exact _.
  - exact _.
  - done.
  - apply unconditional.
  - intros req x t o Hx Hok _ (d & Hm & Hd) e x' a Hin He.
    destruct (written_in moves _ _ _ _ _ (read_moves x t o Hok Hx) Hin He d Hd) as (d' & Hm' & Hd').
    exists d'. split; [by etransitivity|done].
  - split; [done|]. split; [done|]. destruct Hi as [Hn _]. intros x. by rewrite Hn.
Qed.

(** C2 Refinement of the deployment machine.  In every reachable world the status
    of the bundle shows a state the machine reaches from its creation; and from
    that world to any later one, as long as it is the same bundle, the status
    goes where the machine can move: whatever users and jobs do meanwhile, a job
    is launched only in phase Syncing when none is active, it ends only if it is
    active, and a failure carries its reason. *)
Theorem operator_refines w0 w w' b b' :
  initial w0 → rtc (step r) w0 w → w_bundle w = Some b →
  rtc (step r) w w' → w_bundle w' = Some b' → UID (Meta b') = UID (Meta b) →
  ∃ d d', rtc move created d ∧ shows (Status b) d ∧ rtc move d d' ∧ shows (Status b') d'.
Proof.
  intros Hi Hr0 Hb Hr1 Hb' Eu.
  destruct (reachable_shown _ _ _ Hi Hr0 Hb) as (d & Hm & Hd).
  pose proof (reachable_versioned r _ _ Hi Hr0) as Hv.
  set (Q x := UID (Meta x) = UID (Meta b) → moves (Status b) (Status x)).
  assert (holds (Some b) Q w') as (_ & _ & Hq).
  { eapply (steps_holds (Some b) Q) with (P := λ _, True); [..|exact Hr1|].
    - intros x x' (_ & Ex & Es) Hx. unfold Q. by rewrite Ex, Es.
    - intros x x' (_ & Ex & _) Es Hx. unfold Q. by rewrite Ex, Es.
    - intros x _ Hx Ex. by destruct (Hx b eq_refl).
    - exact _.
    - exact _.
    - done.
    - apply unconditional.
    - intros req x t o Hx Hok _ Hq e x' a Hin He Ex.
      destruct (chain_same _ _ (read_chain _ _ _ _ Hx) Hok _ _ _ Hin He) as (_ & Ex' & _).
      etransitivity; [apply Hq; congruence|].
      exact (written_in moves _ _ _ _ _ (read_moves x t o Hok Hx) Hin He).
    - split; [done|]. split; [intros ? [= <-]; by apply versioned_current|].
      intros x Hx _. rewrite Hb in Hx. by injection Hx as <-. }
  destruct (Hq b' Hb' Eu d Hd) as (d' & Hm' & Hd'). by exists d, d'.
Qed.

Lemma move_outcome d : rtc move created d → job_status_valid (d_outcome d) = true.
Proof.
  intros Hm. eapply (rtc_ind_r (λ d, job_status_valid (d_outcome d) = true) created); [reflexivity| |exact Hm].
  intros d1 d2 _ Hd IH. destruct Hd; cbn in *; first [exact IH|reflexivity].
Qed.

(** C9 A consistent status.  In every reachable world the fields of the status
    agree with each other: the phase is one of the four; it is Failed exactly if
    there is an error message; a Synced bundle has a time of synchronisation and
    a Syncing one has none; an active job is noted as running; and before the
    first phase nothing is noted. *)
Theorem status_consistent w0 w b :
  initial w0 → rtc (step r) w0 w → w_bundle w = Some b →
  let s := Status b in
  phase_valid (Phase s) = true ∧ job_status_valid (LastJobStatus s) = true ∧
  (Phase s = PhaseFailed ↔ LastErrorMessage s ≠ EmptyString) ∧
  (Phase s = PhaseSynced → is_Some (LastSyncTime s)) ∧
  (Phase s = PhaseSyncing → LastSyncTime s = None) ∧
  (ActiveJobName s ≠ EmptyString → LastJobStatus s = JobStatusRunning) ∧
  (Phase s = EmptyString →
     LastAppliedTag s = EmptyString ∧ ActiveJobName s = EmptyString ∧
     LastJobStatus s = EmptyString ∧ LastSyncTime s = None).
Proof.
  intros Hi Hr Hb. cbv zeta. destruct (reachable_shown _ _ _ Hi Hr Hb) as (d & Hm & Hd).
  apply move_outcome in Hm. pose proof (shows_busy _ _ Hd) as Hbusy.
  destruct Hd as [E1 E2 E3 E4 E5 E6 _ Hwhy Hrun Hnew].
  rewrite E1, E2, E3, E4, E6.
  destruct d as [g T j o n]; cbn in *. split; [by destruct g|]. split; [done|].
  split; [destruct g; cbn; naive_solver|]. split; [by destruct g; cbn; eauto|].
  split; [by destruct g|]. split.
  - intros Hj. destruct (Hbusy Hj) as [k Ek]. by apply (Hrun k Ek).
  - destruct g; try done. intros _. by destruct (Hnew eq_refl) as (-> & -> & ->).
Qed.

End Reconciled.

(** ** Witnesses *)

#[local] Existing Instance sample_machinery.
#[local] Existing Instance sample_machinery_ok.
#[local] Existing Instance sample_lib.
#[local] Existing Instance sample_contract.
#[local] Existing Instance orderly.

Lemma submitted_reachable (r : WerfBundleReconciler) : rtc (step r) nothing submitted.
Proof. apply rtc_once, step_evolve, submitted_evolves. Qed.

(** From the bundle's creation to its first job. *)
Lemma operator_refines_witness :
  ActiveJobName (Status (stored (started sample_reconciler "v1.0.0"))) = key_Name first_key ∧
  ∃ d d', rtc move created d ∧ shows (Status (stored submitted)) d ∧
    rtc move d d' ∧ shows (Status (stored (started sample_reconciler "v1.0.0"))) d'.
Proof.
  split; [vm_compute; reflexivity|].
  eapply (operator_refines sample_reconciler nothing submitted (started sample_reconciler "v1.0.0")).
  - split; reflexivity.
  - apply submitted_reachable.
  - apply stored_some. vm_compute. reflexivity.
  - apply rtc_once, play_step. vm_compute. reflexivity.
  - apply stored_some. vm_compute. reflexivity.
  - vm_compute. reflexivity.
Defined.

Lemma status_consistent_witness :
  LastSyncTime (Status (stored (started sample_reconciler "v1.0.0"))) = None ∧
  LastJobStatus (Status (stored (started sample_reconciler "v1.0.0"))) = JobStatusRunning.
Proof.
  refine (match status_consistent sample_reconciler nothing (started sample_reconciler "v1.0.0")
            (stored (started sample_reconciler "v1.0.0")) _ _ _ with
          | conj _ (conj _ (conj _ (conj _ (conj Hsync (conj Hjob _))))) => conj (Hsync _) (Hjob _)
          end).
  - split; reflexivity.
  - apply started_reachable. vm_compute. reflexivity.
  - apply stored_some. vm_compute. reflexivity.
  - vm_compute. reflexivity.
  - vm_compute. discriminate.
Defined.
