(* ===== verification/Deployments.v ===== *)
(** * Deployments over time

    Properties of the operator together with its cluster: which jobs run, what
    becomes of their outcome, where the reconciliations lead. *)
From S2P Require Import Prelude GoErrors Prog Api Kube Duration Backoff Values Yaml Fetch JobBuilder Logs Rbac Registry Controller Runs Server Samples Scenarios Safety Listing Lifecycle Jobs System Chains Cluster.

Section Deployments.
Context `{Machinery} `{!MachineryOk} `{RegistryLib} (r : WerfBundleReconciler)
  `{!RegistryContract (r_RegistryClient r)}.

(** C1 Mutual exclusion.  In every world the operator can reach together with the
    users and the cluster - edits, deletions and job progress at any moment, stale
    reads of the bundle, failed calls, crashes - at most one job of the bundle is
    unfinished, and it is the one the status names.  This holds under the conduct
    [orderly], which is four conditions: users do not change the namespace deployed
    to while a job is unfinished; a job that a read does not find is not there, and
    one it finds ended has ended; a job whose creation is answered by an error has
    not been created; and a job that is created is recorded, that is, neither a
    crash nor a refused write comes between its creation and the status write that
    names it. *)
Theorem one_unfinished_job w0 w b k :
  initial w0 → rtc (step (conduct := orderly) r) w0 w →
  w_bundle w = Some b → live w (UID (Meta b)) k →
  ActiveJobName (Status b) ≠ EmptyString ∧ k = active_key b.
Proof. intros Hi Hr. apply (reachable_sound r) in Hr; [|done]. by apply sound_active. Qed.

(** ** The outcome of a job *)

(** The status still says the same of the deployment. *)
Definition same_deployment (s s' : WerfBundleStatus) : Prop :=
  LastAppliedTag s' = LastAppliedTag s ∧ ActiveJobName s' = ActiveJobName s ∧
  LastJobStatus s' = LastJobStatus s.

#[local] Instance same_deployment_preorder : PreOrder same_deployment.
Proof. unfold same_deployment. split; [by intros s|]. intros s1 s2 s3. intuition congruence. Qed.

(** ** What every reconciliation preserves

    A relation on statuses that the writes before the poll respect, and on bundles
    in a [good] status also those of a poll whose listing is as [offered], holds
    between the status of a world and that of any later one, as long as all
    listings are like that. *)

(** The listing of the reconciliation with the calls [t], to which the ETag of the
    status is sent, ends as [offered] says. *)
Definition listing_as (offered : string → listing_result → Prop) (b : WerfBundle) (t : list event) : Prop :=
  ∀ o, listing_in r b t o → offered (LastETag (Status b)) o.

Definition listings_as (offered : string → listing_result → Prop) (t : list event) : Prop :=
  match t with Ev (GetBundle _) (Ok b) :: t => listing_as offered b t | _ => True end.

(** Nothing is assumed of anyone but the registry: the listings of the
    reconciliations end as [offered] says, also those of reconciliations that are
    cut short, had they gone on. *)
Definition while_offered (offered : string → listing_result → Prop) : Conduct :=
  {| edit_ok := λ _ _ _, True; answer_ok := λ _ _ _, True; run_ok := listings_as offered;
     cut_ok := λ t t', Forall server_ok t' ∧ listings_as offered (t ++ t') |}.

Section Preserving.
Context (R : WerfBundleStatus → WerfBundleStatus → Prop) `{!PreOrder R}.
Context (good : WerfBundleStatus → Prop) (offered : string → listing_result → Prop).
Hypothesis good_R : ∀ s s', R s s' → good s → good s'.
Hypothesis R_failed : ∀ m s, R s (failed m s).
Hypothesis R_resolved : ∀ ns s, R s (set_ResolvedTargetNamespace ns s).
Hypothesis R_poll : ∀ b t o,
  good (Status b) → listing_as offered b t → poll_run r b t o → Forall (written R (Status b)) t.

(** Calls before the poll that leave the listing as it is. *)
Lemma listing_as_app b b1 pre t :
  Spec b1 = Spec b → LastETag (Status b1) = LastETag (Status b) → Forall offline pre →
  listing_as offered b (pre ++ t) → listing_as offered b1 t.
Proof.
  intros Es Ee Hp Hl o Ho. rewrite Ee. apply Hl. apply (listing_in_app r b b1); [|done|done].
  unfold listing. by rewrite Es, Ee.
Qed.

Lemma account_preserves b t o :
  good (Status b) → listing_as offered b t → account_run r b t o → Forall (written R (Status b)) t.
Proof.
  intros Hb Hl Hr. destruct Hr as [t o Hs Hr|t o Hs Hr|e a Hs].
  - by eapply R_poll.
  - constructor; [done|]. eapply R_poll; [done| |exact Hr].
    eapply (listing_as_app b b [_]); [done|done| |exact Hl]. by each_event.
  - each_event; [done|]. apply R_failed.
Qed.

Lemma check_preserves b t o :
  Forall server_ok t → good (Status b) → listing_as offered b t → check_run r b t o →
  Forall (written R (Status b)) t.
Proof.
  intros Ht Hb Hl Hr. pose proof (R_resolved (target_of b) (Status b)) as HR.
  destruct Hr as [err a Hv|t o Hv Hn Hr|b1 t o Hv Hn Hr|e Hv Hn].
  - each_event. apply R_failed.
  - by eapply account_preserves.
  - apply Forall_cons in Ht as [[(_ & _ & _ & Esp) Es] Ht]. constructor; [exact HR|].
    apply (written_more R _ (Status b1)); [by rewrite Es|].
    eapply account_preserves; [|eapply (listing_as_app b b1 [_]); [exact Esp|by rewrite Es| |exact Hl]|exact Hr].
    + rewrite Es. by eapply good_R.
    + by each_event.
  - each_event. exact HR.
Qed.

Lemma read_preserves b t o :
  Forall server_ok t → good (Status b) → listing_as offered b t → read_run r b t o →
  Forall (written R (Status b)) t.
Proof.
  intros Ht Hb Hl Hr.
  destruct (AddFinalizer_same b finalizerName) as ((_ & _ & _ & Ea') & Ea & _).
  pose proof (proj1 (proj2 (RemoveFinalizer_same b finalizerName))) as Er.
  destruct Hr as [d Hd Hf|d a Hd Hf|t o Hd Hf Hr|b1 t o Hd Hf Hr|e Hd Hf].
  - constructor.
  - each_event. unfold written. cbn. by rewrite Er.
  - by eapply check_preserves.
  - apply Forall_cons in Ht as [[(_ & _ & _ & Esp) Es] Ht]. constructor; [unfold written; cbn; by rewrite Ea|].
    apply (written_more R _ (Status b1)); [by rewrite Es, Ea|].
    eapply check_preserves; [exact Ht| |eapply (listing_as_app b b1 [_]); [|by rewrite Es, Ea| |exact Hl]|exact Hr].
    + by rewrite Es, Ea.
    + by rewrite Esp.
    + by each_event.
  - each_event. unfold written. cbn. by rewrite Ea.
Qed.

(** The bundle is another one, or its status is related to that of [b]. *)
Definition related (b x : WerfBundle) : Prop := UID (Meta x) = UID (Meta b) → R (Status b) (Status x).

Lemma related_written b x t o :
  good (Status b) → read_run r x t o → Forall server_ok t → listing_as offered x t → related b x →
  ∀ e x' a, e ∈ t → write_of e = Some (x', a) → related b x'.
Proof.
  intros Hb Hr Hok Hl Hx e x' a Hin He Eu.
  destruct (chain_same _ _ (read_chain _ _ _ _ Hr) Hok _ _ _ Hin He) as (_ & Eu' & _).
  pose proof (Hx ltac:(congruence)) as HR. etransitivity; [exact HR|].
  eapply (written_in R); [|exact Hin|exact He].
  apply (read_preserves x t o Hok); [by eapply good_R|done|done].
Qed.

Lemma steps_preserve {c : Conduct} w0 w w' b b' :
  initial w0 → rtc (step r) w0 w → rtc (step (conduct := while_offered offered) r) w w' →
  w_bundle w = Some b → good (Status b) → w_bundle w' = Some b' → UID (Meta b') = UID (Meta b) →
  R (Status b) (Status b').
Proof.
  intros Hi Hr0 Hr1 Hb Hg Hb' Eu. pose proof (reachable_versioned r _ _ Hi Hr0) as Hv.
  assert (holds (Some b) (related b) w) as Hh.
  { split; [done|]. split; [intros ? [= <-]; by apply versioned_current|]. intros x Hx. rewrite Hb in Hx.
    injection Hx as <-. by intros _. }
  assert (holds (Some b) (related b) w') as (_ & _ & Hq).
  { eapply (steps_holds (conduct := while_offered offered) (Some b) (related b))
      with (P := listings_as offered); [..|exact Hr1|exact Hh].
    - intros x x' (_ & Ex & Es) Hx. unfold related. rewrite Ex, Es. exact Hx.
    - intros x x' (_ & Ex & _) Es Hx. unfold related. rewrite Ex, Es. exact Hx.
    - intros x _ Hx E. by destruct (Hx b eq_refl).
    - exact _.
    - exact _.
    - done.
    - intros req t t' o He [Hs HP]. by exists t', o.
    - intros req x t o Hr Hok HP Hx. by eapply related_written. }
  by apply (Hq b' Hb').
Qed.
End Preserving.

(** The registry goes on offering the tag [T], or answers that nothing has changed. *)
Definition offers (T : string) (o : listing_result) : Prop :=
  (∃ tags etag, o = Done (tags, etag, None) ∧ last tags = Some T) ∨
  (∃ tags etag e, o = Done (tags, etag, Some e) ∧ As_NotModified e = true).

Lemma poll_keeps T b t o :
  listing_as (λ _, offers T) b t → LastAppliedTag (Status b) = T → poll_run r b t o →
  Forall (written same_deployment (Status b)) t.
Proof.
  intros HT Hb Hr. pose proof (polled_fields) as Hp.
  destruct Hr as [th m He|th tags etag e t o He Hr|th etag t o He Hp1 Hp2 Hr|th etag b1 t o He Hp0 Hr
    |th etag e He Hp0|th tags etag He Hl Hp0|th tags etag now a He Hl Hp0|th tags etag tag t o He Hl Hn Hr];
    pose proof (written_calm same_deployment (Status b) _ (calm_listing _ _ _ _ He)) as Hth; try done;
    apply Forall_app; (split; [done|]);
    destruct (HT _ (listing_in_here r b _ _ _ He)) as [(tags' & etag' & E & Hlast)|(tags' & etag' & e' & E & Hm)];
    try done; injection E as <- <-; try done.
  - subst e'. destruct Hr as [t o _ Hr|now a He' _|now a n He' _ _]; [|congruence..].
    by eapply written_calm, calm_jitter.
  - each_event; [done|]. destruct (Hp etag (Status b)) as (_ & _ & Ea & Ej & _). by split.
  - congruence.
Qed.

(** C11 The outcome of a job is not recorded.  Once a tag is noted as applied - which
    happens before its job exists - and as long as the listings of the
    reconciliations go on offering it, or are answered "not modified", no
    reconciliation, in whatever world it runs, changes the name of the active job
    or the job status: whether the job succeeds or fails is never seen. *)
Theorem outcome_not_recorded {c : Conduct} T w0 w w' b b' :
  initial w0 → rtc (step r) w0 w → rtc (step (conduct := while_offered (λ _, offers T)) r) w w' →
  w_bundle w = Some b → LastAppliedTag (Status b) = T →
  w_bundle w' = Some b' → UID (Meta b') = UID (Meta b) →
  LastAppliedTag (Status b') = T ∧ ActiveJobName (Status b') = ActiveJobName (Status b) ∧
  LastJobStatus (Status b') = LastJobStatus (Status b).
Proof.
  intros Hi Hr0 Hr1 Hb ET Hb' Eu. rewrite <- ET.
  refine (steps_preserve same_deployment (λ s, LastAppliedTag s = T) (λ _, offers T) _ _ _ _ w0 w w' b b'
            Hi Hr0 Hr1 Hb ET Hb' Eu); try done.
  - intros s s' (Es & _). by rewrite Es.
  - intros x t o Hx Hl. by eapply poll_keeps.
Qed.

End Deployments.

(** ** Witnesses *)

#[local] Existing Instance sample_machinery.
#[local] Existing Instance sample_machinery_ok.
#[local] Existing Instance sample_lib.
#[local] Existing Instance sample_contract.
#[local] Existing Instance orderly.

Definition livek (w : world) (u : string) (k : NamespacedName) : bool :=
  match w_jobs w !! k with Some j => owned u j && negb (finished j) | None => false end.

Lemma livek_spec w u k : livek w u k = true → live w u k.
Proof.
  unfold livek, live. destruct (w_jobs w !! k) as [j|]; [|done].
  intros [Ho Hf%negb_true_iff]%andb_prop. by exists j.
Qed.

Lemma one_unfinished_job_witness :
  live (started sample_reconciler "v1.0.0") "uid-1" first_key ∧
  first_key = active_key (stored (started sample_reconciler "v1.0.0")).
Proof.
  assert (live (started sample_reconciler "v1.0.0") "uid-1" first_key) as Hl
    by (apply livek_spec; vm_compute; reflexivity).
  split; [exact Hl|].
  refine (proj2 (one_unfinished_job sample_reconciler nothing (started sample_reconciler "v1.0.0") _ _ _ _ _ _)).
  - split; reflexivity.
  - apply started_reachable. vm_compute. reflexivity.
  - apply stored_some. vm_compute. reflexivity.
  - exact Hl.
Defined.

(** Reconciliations nobody disturbs, and the world's own steps, while the registry
    has these tags. *)
Lemma play_offered (offered : string → listing_result → Prop) tags w b :
  rtc (step sample_reconciler) nothing w → w_bundle w = Some b → key_of (Meta b) = sample_request →
  existsb asks (tail (play tags quiet w (Reconcile sample_reconciler sample_request)).1.1) = true →
  offered (LastETag (Status b)) (listing_of sample_reconciler tags w b) →
  step (conduct := while_offered sample_reconciler offered) sample_reconciler w
    (play tags quiet w (Reconcile sample_reconciler sample_request)).2.
Proof.
  intros Hr Hb Hk Hx Ho.
  assert (api tags w (GetBundle sample_request) = (Ok b, w)) as Ea
    by (apply api_read; [by eapply (reachable_versioned sample_reconciler nothing)|done|done]).
  eapply step_reconcile; [apply play_exec|..].
  - by eapply (served_milder orderly), play_served.
  - pose proof (play_listing sample_reconciler tags w sample_request b Ea Hx) as Hl.
    rewrite (play_read_eq sample_reconciler tags w sample_request b Ea). intros lo Hlo.
    by rewrite (listing_in_unique sample_reconciler _ _ _ _ Hlo Hl).
Qed.

Lemma evolves_offered (offered : string → listing_result → Prop) w w' :
  rtc evolves w w' →
  rtc (step (conduct := while_offered sample_reconciler offered) sample_reconciler) w w'.
Proof.
  intros Hw. eapply rtc_subrel; [|exact Hw]. intros x y Hxy.
  by apply step_evolve, (evolves_milder orderly).
Qed.

(** The job fails; then v0.9.0 appears beside v1.0.0, and the next reconciliation
    marks the bundle Synced. *)
Definition ended_world : world := fail_job first_key (started sample_reconciler "v1.0.0").
Definition settling : list event * outcome (Result * option error) * world :=
  play "v0.9.0 v1.0.0" quiet ended_world (Reconcile sample_reconciler sample_request).

Lemma outcome_not_recorded_witness :
  Phase (Status (stored settling.2)) = PhaseSynced ∧
  LastJobStatus (Status (stored settling.2)) = JobStatusRunning.
Proof.
  split; [vm_compute; reflexivity|].
  transitivity (LastJobStatus (Status (stored (started sample_reconciler "v1.0.0"))));
    [|vm_compute; reflexivity].
  refine (proj2 (proj2 (outcome_not_recorded sample_reconciler "v1.0.0" nothing
    (started sample_reconciler "v1.0.0") settling.2 _ _ _ _ _ _ _ _ _))).
  - split; reflexivity.
  - apply started_reachable. vm_compute. reflexivity.
  - etransitivity; [apply evolves_offered, (fail_job_evolves first_key)|].
    apply rtc_once, (play_offered _ "v0.9.0 v1.0.0" ended_world (stored ended_world)).
    + transitivity (started sample_reconciler "v1.0.0"); [apply started_reachable; vm_compute; reflexivity|].
      eapply rtc_subrel; [|apply (fail_job_evolves first_key)]. intros x y. apply step_evolve.
    + apply stored_some. vm_compute. reflexivity.
    + vm_compute. reflexivity.
    + vm_compute. reflexivity.
    + left. eexists _, _. split; vm_compute; reflexivity.
  - apply stored_some. vm_compute. reflexivity.
  - vm_compute. reflexivity.
  - apply stored_some. vm_compute. reflexivity.
  - vm_compute. reflexivity.
Defined.

(** Two reconciliations: the first is disturbed, the second finds a newer tag. *)
Definition reconcile_sample : prog (Result * option error) :=
  Reconcile sample_reconciler sample_request.
Definition disturbed : list event * outcome (Result * option error) * world :=
  play "v1.0.0" meddle submitted reconcile_sample.
Definition newer_tag : list event * outcome (Result * option error) * world :=
  play "v1.0.0 v1.1.0" quiet disturbed.2 reconcile_sample.

Definition second_key : NamespacedName :=
  {| key_Name := "my-app-4b926c5f-12345678"; key_Namespace := "default" |}.


(** A user moves the deployment to the namespace prod, with an account for it. *)
Definition moved_to_prod (w : world) : WerfBundle :=
  let b := with_version (next_version w) (stored w) in
  {| Meta := Meta b;
     Spec := {| Registry := Registry (Spec b);
                Converge := {| ServiceAccountName := "deployer"; TargetNamespace := "prod";
                               ResourceLimits := None; LogRetentionDays := Some 7; ValuesFrom := [] |} |};
     Status := Status b |}.

Definition first_job_running : world := started sample_reconciler "v1.0.0".
Definition retargeted : list event * outcome (Result * option error) * world :=
  play "v1.0.0 v1.1.0" quiet (put (moved_to_prod first_job_running) first_job_running) reconcile_sample.

Definition prod_key : NamespacedName :=
  {| key_Name := "my-app-4b926c5f-12345678"; key_Namespace := "prod" |}.

(** C16 Care is needed.  In a world the operator has reached with everyone's care, a
    user changes the target namespace while a job is running; the next
    reconciliation that finds a newer tag looks for the job in the new namespace,
    takes it for gone, and starts a second one, although it records every job it
    creates. *)
Theorem retargeted_job_duplicated :
  ∃ w b b' t o w' x k k',
    rtc (step sample_reconciler) nothing w ∧ w_bundle w = Some b ∧
    edited b b' ∧ w_versions w !! version b' = None ∧
    exec (Reconcile sample_reconciler sample_request) t o ∧ served (put b' w) t w' ∧ recorded t ∧
    w_bundle w' = Some x ∧ k ≠ k' ∧ live w' (UID (Meta x)) k ∧ live w' (UID (Meta x)) k'.
Proof.
  exists first_job_running, (stored first_job_running), (moved_to_prod first_job_running),
    retargeted.1.1, retargeted.1.2, retargeted.2, (stored retargeted.2), first_key, prod_key.
  split; [apply started_reachable; vm_compute; reflexivity|].
  split; [apply stored_some; vm_compute; reflexivity|]. split; [done|].
  split; [vm_compute; reflexivity|].
  split; [exact (play_exec "v1.0.0 v1.1.0" quiet (put (moved_to_prod first_job_running) first_job_running) reconcile_sample)|].
  split; [exact (play_served "v1.0.0 v1.1.0" quiet (put (moved_to_prod first_job_running) first_job_running) reconcile_sample (λ w c, rtc_refl _ w))|].
  split; [apply recordedb_spec; vm_compute; reflexivity|].
  split; [apply stored_some; vm_compute; reflexivity|]. split; [discriminate|].
  split; apply livek_spec; vm_compute; reflexivity.
Qed.

(** ** Answers that are not accurate *)

(** As [orderly], with another condition on the answers. *)
Definition with_answers (answers : world → event → world → Prop) : Conduct :=
  {| edit_ok := careful; answer_ok := answers; run_ok := recorded;
     cut_ok := λ t _, omap creates t = [] |}.

(** A job that is not found may be there. *)
Definition misses_jobs (w : world) (e : event) (w' : world) : Prop :=
  match e with Ev (GetJob _) (Err _) => True | _ => accurate w e w' end.

(** A job whose creation fails may have been created. *)
Definition loses_replies (w : world) (e : event) (w' : world) : Prop :=
  match e with Ev (CreateJob _) (Err _) => True | _ => accurate w e w' end.

(** Servers that do so. *)
Definition missing_jobs (tags : string) (w : world) (c : kcall) : kans c * world :=
  match c with GetJob _ => (Err (not_found "jobs"), w) | c => api tags w c end.
Definition losing_replies (tags : string) (w : world) (c : kcall) : kans c * world :=
  match c with CreateJob j => (Err server_error, (api tags w (CreateJob j)).2) | c => api tags w c end.

Lemma missing_jobs_serves tags w c :
  serve w (Ev c (missing_jobs tags w c).1) (missing_jobs tags w c).2 ∧
  misses_jobs w (Ev c (missing_jobs tags w c).1) (missing_jobs tags w c).2.
Proof.
  destruct c; try (split; [apply (serve_api tags w)|exact (api_accurate tags w _)]). done.
Qed.

Lemma losing_replies_serves tags w c :
  serve w (Ev c (losing_replies tags w c).1) (losing_replies tags w c).2 ∧
  loses_replies w (Ev c (losing_replies tags w c).1) (losing_replies tags w c).2.
Proof.
  pose proof (serve_api tags w c) as Hs. pose proof (api_accurate tags w c) as Ha.
  destruct c; try done.
  split; [|done]. unfold losing_replies in *. cbn [fst snd]. unfold api in *.
  destruct (w_jobs w !! key_of (job_Meta j)) as [j'|] eqn:Ej; cbn in *; [by left|right; by exists j].
Qed.

Lemma run_served {conduct : Conduct} {A} (srv : world → ∀ c : kcall, kans c * world) w (p : prog A) :
  (∀ w c, serve w (Ev c (srv w c).1) (srv w c).2 ∧ answer_ok w (Ev c (srv w c).1) (srv w c).2) →
  served (conduct := conduct) w (@run kube_sig _ _ srv w p).1.1 (@run kube_sig _ _ srv w p).2.
Proof.
  intros Hs. revert w. induction p as [a|m|c k IH]; intros w; cbn [run]; [by constructor..|].
  destruct (Hs w c) as [Hsv Ha]. destruct (srv w c) as [a w1]. specialize (IH a w1).
  destruct (run _ w1 (k a)) as [[t o] w2]. by eapply served_cons.
Qed.

Lemma run_step answers (srv : world → ∀ c : kcall, kans c * world) w :
  (∀ w c, serve w (Ev c (srv w c).1) (srv w c).2 ∧ answers w (Ev c (srv w c).1) (srv w c).2) →
  recordedb (@run kube_sig _ _ srv w reconcile_sample).1.1 = true →
  step (conduct := with_answers answers) sample_reconciler w (@run kube_sig _ _ srv w reconcile_sample).2.
Proof.
  intros Hs Hr%recordedb_spec.
  pose proof (run_served (conduct := with_answers answers) srv w reconcile_sample Hs) as Hsv.
  destruct (@run kube_sig _ _ srv w reconcile_sample) as [[t o] w'] eqn:E.
  eapply step_reconcile; [by eapply run_exec|exact Hsv|exact Hr].
Qed.

(** The second of two reconciliations against such servers. *)
Definition missed : list event * outcome (Result * option error) * world :=
  @run kube_sig _ _ (missing_jobs "v1.0.0 v1.1.0") first_job_running reconcile_sample.
Definition unanswered : list event * outcome (Result * option error) * world :=
  @run kube_sig _ _ (losing_replies "v1.0.0") submitted reconcile_sample.
Definition after_unanswered : list event * outcome (Result * option error) * world :=
  @run kube_sig _ _ (losing_replies "v1.1.0") unanswered.2 reconcile_sample.

(** C29 Accuracy is needed.  Careful users and recorded jobs are not enough for one
    job at a time.  If a read of the active job may miss a job that exists, as the
    cached client's may, the reconciliation that finds the next tag starts a second
    job beside the first; and so does the one after a reconciliation whose creation
    of a job was carried out although it was answered by an error. *)
Theorem inaccurate_answers_duplicate :
  (∃ w b k k', rtc (step (conduct := with_answers misses_jobs) sample_reconciler) nothing w ∧
     w_bundle w = Some b ∧ k ≠ k' ∧ live w (UID (Meta b)) k ∧ live w (UID (Meta b)) k') ∧
  (∃ w b k k', rtc (step (conduct := with_answers loses_replies) sample_reconciler) nothing w ∧
     w_bundle w = Some b ∧ k ≠ k' ∧ live w (UID (Meta b)) k ∧ live w (UID (Meta b)) k').
Proof.
  split.
  - exists missed.2, (stored missed.2), first_key, second_key. split.
    + eapply rtc_l; [by apply step_evolve, (evolves_milder orderly), submitted_evolves|].
      transitivity first_job_running; apply rtc_once.
      * apply (run_step misses_jobs (api "v1.0.0") submitted); [|vm_compute; reflexivity].
        intros w c. split; [apply (serve_api "v1.0.0")|].
        pose proof (api_accurate "v1.0.0" w c) as Ha. unfold misses_jobs. by destruct c; repeat case_match.
      * apply (run_step misses_jobs (missing_jobs "v1.0.0 v1.1.0") first_job_running);
          [apply missing_jobs_serves|vm_compute; reflexivity].
    + split; [apply stored_some; vm_compute; reflexivity|]. split; [discriminate|].
      split; apply livek_spec; vm_compute; reflexivity.
  - exists after_unanswered.2, (stored after_unanswered.2), first_key, second_key. split.
    + eapply rtc_l; [by apply step_evolve, (evolves_milder orderly), submitted_evolves|].
      transitivity unanswered.2; apply rtc_once.
      * apply (run_step loses_replies (losing_replies "v1.0.0") submitted);
          [apply losing_replies_serves|vm_compute; reflexivity].
      * apply (run_step loses_replies (losing_replies "v1.1.0") unanswered.2);
          [apply losing_replies_serves|vm_compute; reflexivity].
    + split; [apply stored_some; vm_compute; reflexivity|]. split; [discriminate|].
      split; apply livek_spec; vm_compute; reflexivity.
Qed.
