(* ===== verification/Unchanged.v ===== *)
(** * Registries that answer "not modified"

    What becomes of a deployment when the registry honours the ETag the operator
    has recorded: the answer 304 ends a poll before the active job is looked at. *)
From S2P Require Import Prelude GoErrors Prog Api Kube Duration Backoff Values Yaml Fetch JobBuilder Logs Rbac Registry Controller Runs Server Samples Scenarios Safety Listing Lifecycle Jobs System Chains Cluster Deployments.

Section Unchanged.
Context `{Machinery} `{!MachineryOk} `{RegistryLib} (r : WerfBundleReconciler)
  `{!RegistryContract (r_RegistryClient r)}.

(** The answer to a listing is that nothing has changed. *)
Definition not_modified (o : listing_result) : Prop :=
  ∃ tags etag e, o = Done (tags, etag, Some e) ∧ As_NotModified e = true.

(** To a listing that sends the ETag [etag] it is. *)
Definition unchanged (etag sent : string) (o : listing_result) : Prop := sent = etag → not_modified o.

(** All that the status says of the deployment, and that it is not Synced. *)
Definition stuck (s s' : WerfBundleStatus) : Prop :=
  (LastETag s' = LastETag s ∧ LastAppliedTag s' = LastAppliedTag s) ∧
  (ActiveJobName s' = ActiveJobName s ∧ LastJobStatus s' = LastJobStatus s ∧
   LastJobLogs s' = LastJobLogs s) ∧
  (Phase s' = Phase s ∨ Phase s' = PhaseFailed).

#[local] Instance stuck_preorder : PreOrder stuck.
Proof.
  unfold stuck. split; [intros s; auto|].
  intros s1 s2 s3 ([-> ->] & (-> & -> & ->) & Hp) ([-> ->] & (-> & -> & ->) & Hp').
  split_and!; try done. destruct Hp' as [->|]; auto.
Qed.

(** A poll that is answered so is over. *)
Lemma poll_ends b t o :
  (∀ lo, listing_in r b t lo → not_modified lo) → poll_run r b t o →
  ∃ th tj, t = th ++ tj ∧ Forall http_call th ∧ jitter_run (poll_interval b) tj o.
Proof.
  intros Hu Hr.
  destruct Hr as [th m He|th tags etag' e t o He Hr|th etag' t o He Hp1 Hp2 Hr|th etag' b1 t o He Hp0 Hr
    |th etag' e He Hp0|th tags etag' He Hl Hp0|th tags etag' now a He Hl Hp0|th tags etag' tag t o He Hl Hn Hr].
  1, 6: pose proof (listing_in_here r b _ [] _ He) as Hl0; rewrite app_nil_r in Hl0;
    by destruct (Hu _ Hl0) as (tags' & etag'' & e' & E & Hm).
  all: destruct (Hu _ (listing_in_here r b _ _ _ He)) as (tags' & etag'' & e' & E & Hm); try done.
  injection E as <- <- <-. exists th, t. split; [done|]. split; [by eapply listing_http|].
  by destruct Hr as [t o _ Hr|now a He' _|now a n He' _ _]; [|congruence..].
Qed.

Lemma poll_stuck etag b t o :
  listing_as r (unchanged etag) b t → LastETag (Status b) = etag → poll_run r b t o →
  Forall (written stuck (Status b)) t.
Proof.
  intros Hu Hb Hr. destruct (poll_ends b t o) as (th & tj & -> & Hth & Hj); [|done|].
  - intros lo Hlo. by apply (Hu lo Hlo).
  - apply Forall_app. split; [|by eapply written_calm, calm_jitter].
    apply written_calm. eapply Forall_impl; [exact Hth|]. by intros [[] a].
Qed.

(** A call about a job. *)
Definition about_jobs (e : event) : Prop :=
  match e with Ev (GetJob _) _ | Ev (CreateJob _) _ | Ev (ListPods _ _) _ => True | _ => False end.

Lemma read_looks_away b t o :
  Forall server_ok t → (∀ lo, listing_in r b t lo → not_modified lo) → read_run r b t o →
  Forall (λ e, ¬ about_jobs e) t.
Proof.
  intros Hok Hu Hr.
  destruct (read_split r b t o Hok Hr) as [He|(b1 & pre & post & -> & Hpre & _ & _ & Hn & Hs & Ha)].
  { eapply Forall_impl; [exact He|]. intros [[] a]; cbn; tauto. }
  assert (Forall offline pre) as Hoff by (eapply Forall_impl; [exact Hpre|]; by intros [[] a]).
  apply Forall_app. split; [eapply Forall_impl; [exact Hpre|]; intros [[] a]; cbn; tauto|].
  assert (∀ lo, listing_in r b1 post lo → not_modified lo) as Hu1.
  { intros lo Hlo. apply Hu. by apply (listing_in_app r b b1 pre post lo (listing_noted r _ _ Hn)). }
  assert (∀ t o, (∀ lo, listing_in r b1 t lo → not_modified lo) → poll_run r b1 t o →
            Forall (λ e, ¬ about_jobs e) t) as Hp.
  { intros t1 o1 Hu2 Hr1. destruct (poll_ends b1 t1 o1 Hu2 Hr1) as (th & tj & -> & Hth & Hj).
    apply Forall_app. split.
    - eapply Forall_impl; [exact Hth|]. intros [[] a]; cbn; tauto.
    - eapply jitter_calls, Hj. by intros n a []. }
  destruct Ha as [t o Hsa Hr'|t o Hsa Hr'|e a Hsa].
  - by eapply Hp.
  - constructor; [by intros []|]. eapply Hp; [|exact Hr'].
    intros lo Hlo. apply Hu1. by apply (listing_in_app r b1 b1 [_]); [|each_event|].
  - each_event; by intros [].
Qed.

(** C12 A deployment that is never confirmed.  While the registry answers "not
    modified" to the ETag of the status - which the operator records as it starts
    a deployment - the job may succeed or fail, but the status keeps naming it as
    the active one with the job status and the logs it had, and the bundle does not
    become Synced, in whatever world the reconciliations run: a reconciliation of
    such a bundle looks neither at the job nor at its pods. *)
Theorem never_confirmed {c : Conduct} etag w0 w w' b b' :
  initial w0 → rtc (step r) w0 w → rtc (step (conduct := while_offered r (unchanged etag)) r) w w' →
  w_bundle w = Some b → LastETag (Status b) = etag → Phase (Status b) ≠ PhaseSynced →
  w_bundle w' = Some b' → UID (Meta b') = UID (Meta b) →
  (Phase (Status b') ≠ PhaseSynced ∧ LastAppliedTag (Status b') = LastAppliedTag (Status b) ∧
   ActiveJobName (Status b') = ActiveJobName (Status b) ∧
   LastJobStatus (Status b') = LastJobStatus (Status b) ∧
   LastJobLogs (Status b') = LastJobLogs (Status b)) ∧
  LastETag (Status b') = etag ∧
  ∀ req t o, exec (Reconcile r req) (Ev (GetBundle req) (Ok b') :: t) o → Forall server_ok t →
    listing_as r (unchanged etag) b' t → Forall (λ e, ¬ about_jobs e) t.
Proof.
  intros Hi Hr0 Hr1 Hb Eb Hp Hb' Eu.
  assert (stuck (Status b) (Status b')) as ([Ee Et] & (Ej & Es & El) & Hph).
  { refine (steps_preserve r stuck (λ s, LastETag s = etag) (unchanged etag) _ _ _ _ w0 w w' b b'
              Hi Hr0 Hr1 Hb Eb Hb' Eu).
    - intros s s' ([Es _] & _). by rewrite Es.
    - intros m s. unfold stuck. cbn. auto.
    - intros ns s. unfold stuck. cbn. auto.
    - intros x t o Hx Hl. by eapply poll_stuck. }
  split; [|split; [congruence|]].
  - split_and!; try done. destruct Hph as [->| ->]; [done|discriminate].
  - intros req t o He Hok Hl. eapply read_looks_away; [done| |by eapply Reconcile_read].
    intros lo Hlo. apply (Hl lo Hlo). congruence.
Qed.

End Unchanged.

(** ** Witnesses *)

#[local] Existing Instance sample_machinery.
#[local] Existing Instance sample_machinery_ok.
#[local] Existing Instance sample_lib.
#[local] Existing Instance sample_contract.
#[local] Existing Instance orderly.

(** The job [k] succeeds. *)
Definition complete_job (k : NamespacedName) (w : world) : world :=
  match w_jobs w !! k with
  | Some j => with_jobs (<[k := {| job_Meta := job_Meta j; job_Spec := job_Spec j;
                                   job_Status := {| Succeeded := 1; Failed := 0 |} |}]> (w_jobs w)) w
  | None => w
  end.

Lemma complete_job_evolves k w : rtc evolves w (complete_job k w).
Proof.
  unfold complete_job. destruct (w_jobs w !! k) as [j|] eqn:Ej; [|done].
  apply rtc_once. by eapply evolve_job.
Qed.

(** v1.0.0 is deployed and its job succeeds; the registry honours ETags. *)
Definition deployed : world := complete_job first_key (started sample_reconciler "v1.0.0").
Definition polled_again : world :=
  (play "v1.0.0" quiet deployed (Reconcile sample_reconciler sample_request)).2.
Definition next_tag : world :=
  (play "v1.0.0 v1.1.0" quiet polled_again (Reconcile sample_reconciler sample_request)).2.

Lemma deployed_reachable : rtc (step sample_reconciler) nothing deployed.
Proof.
  etransitivity; [apply (started_reachable sample_reconciler "v1.0.0"); vm_compute; reflexivity|].
  eapply rtc_subrel; [|apply (complete_job_evolves first_key)]. intros x y. apply step_evolve.
Qed.

(** C13 A tag that is never deployed.  The operator and a registry that honours
    ETags: v1.0.0 is deployed and its job succeeds; the next poll is answered "not
    modified", and the bundle stays Syncing; when v1.1.0 appears, the operator
    finds the job of v1.0.0, takes its success for the new tag's and reports v1.1.0
    as deployed, although the only job there ever was is that of v1.0.0. *)
Theorem skipped_tag :
  rtc (step sample_reconciler) nothing deployed ∧
  step sample_reconciler deployed polled_again ∧ step sample_reconciler polled_again next_tag ∧
  (∃ b, w_bundle polled_again = Some b ∧ Phase (Status b) = PhaseSyncing ∧
        LastAppliedTag (Status b) = "v1.0.0" ∧ LastJobStatus (Status b) = JobStatusRunning) ∧
  (∃ b, w_bundle next_tag = Some b ∧ Phase (Status b) = PhaseSynced ∧
        LastAppliedTag (Status b) = "v1.1.0" ∧ LastJobStatus (Status b) = JobStatusSucceeded) ∧
  ∀ k j, w_jobs next_tag !! k = Some j → Labels (job_Meta j) !! "werf.io/tag" = Some "v1.0.0".
Proof.
  split_and!.
  - apply deployed_reachable.
  - apply play_step. vm_compute. reflexivity.
  - apply play_step. vm_compute. reflexivity.
  - exists (stored polled_again). split; [apply stored_some; vm_compute; reflexivity|].
    vm_compute. auto.
  - exists (stored next_tag). split; [apply stored_some; vm_compute; reflexivity|].
    vm_compute. auto.
  - intros k j Hj.
    assert (map_Forall (λ _ j, bool_decide (Labels (job_Meta j) !! "werf.io/tag" = Some "v1.0.0") = true)
              (w_jobs next_tag)) as Hall
      by (apply (bool_decide_unpack _); vm_compute; reflexivity).
    by apply Hall, bool_decide_eq_true in Hj.
Qed.

Lemma never_confirmed_witness :
  Phase (Status (stored polled_again)) ≠ PhaseSynced ∧
  LastJobStatus (Status (stored polled_again)) = JobStatusRunning.
Proof.
  destruct (never_confirmed sample_reconciler "etag of v1.0.0" nothing (started sample_reconciler "v1.0.0")
    polled_again (stored (started sample_reconciler "v1.0.0")) (stored polled_again))
    as ((Hp & _ & _ & Hj & _) & _).
  - split; reflexivity.
  - apply started_reachable. vm_compute. reflexivity.
  - transitivity deployed; [apply evolves_offered, (complete_job_evolves first_key)|].
    apply rtc_once, (play_offered _ "v1.0.0" deployed (stored deployed)).
    + exact deployed_reachable.
    + apply stored_some. vm_compute. reflexivity.
    + vm_compute. reflexivity.
    + vm_compute. reflexivity.
    + intros _. eexists _, _, _. split; vm_compute; reflexivity.
  - apply stored_some. vm_compute. reflexivity.
  - vm_compute. reflexivity.
  - vm_compute. discriminate.
  - apply stored_some. vm_compute. reflexivity.
  - vm_compute. reflexivity.
  - split; [exact Hp|]. rewrite Hj. vm_compute. reflexivity.
Defined.
