(* ===== verification/Flags.v ===== *)
(** * The command line (cmd/main.go and Go's flag package)

    The flags of the manager and flag.Parse on them: one pass over the arguments,
    which ends the process at the first that is wrong.  zap and controller-runtime
    declare flags of their own on the same command line: a parameter. *)
From S2P Require Import Prelude GoErrors.

(** The variables main declares for its flags. *)
Record flags := {
  metricsAddr : string;
  probeAddr : string;
  enableLeaderElection : bool;
  secureMetrics : bool;
  webhookCertPath : string;
  webhookCertName : string;
  webhookCertKey : string;
  metricsCertPath : string;
  metricsCertName : string;
  metricsCertKey : string;
  enableHTTP2 : bool;
}.

(** The defaults of the StringVar and BoolVar calls. *)
Definition default_flags : flags :=
  {| metricsAddr := "0"; probeAddr := ":8081"; enableLeaderElection := false;
     secureMetrics := true; webhookCertPath := EmptyString; webhookCertName := "tls.crt";
     webhookCertKey := "tls.key"; metricsCertPath := EmptyString; metricsCertName := "tls.crt";
     metricsCertKey := "tls.key"; enableHTTP2 := false |}.

(** A flag: what its Set method does to the variables, and IsBoolFlag. *)
Inductive binding :=
| StringVar (set : string → flags → flags)
| BoolVar (set : bool → flags → flags)
| Foreign_flag (is_bool : bool) (accepts : string → bool).

Definition is_bool_flag (b : binding) : bool :=
  match b with StringVar _ => false | BoolVar _ => true | Foreign_flag is_bool _ => is_bool end.

(** strconv.ParseBool *)
Definition ParseBool (s : string) : option bool :=
  if bool_decide (s ∈ ["1"; "t"; "T"; "true"; "TRUE"; "True"]) then Some true
  else if bool_decide (s ∈ ["0"; "f"; "F"; "false"; "FALSE"; "False"]) then Some false
  else None.

(** flag.Value.Set; [None] is its error. *)
Definition Set_flag (b : binding) (v : string) (f : flags) : option flags :=
  match b with
  | StringVar set => Some (set v f)
  | BoolVar set => match ParseBool v with Some x => Some (set x f) | None => None end
  | Foreign_flag _ accepts => if accepts v then Some f else None
  end.

(** The flags of main, in the order of their declaration. *)
Definition declared : list (string * binding) :=
  [("metrics-bind-address", StringVar (λ x f,
      {| metricsAddr := x; probeAddr := probeAddr f; enableLeaderElection := enableLeaderElection f;
         secureMetrics := secureMetrics f; webhookCertPath := webhookCertPath f;
         webhookCertName := webhookCertName f; webhookCertKey := webhookCertKey f;
         metricsCertPath := metricsCertPath f; metricsCertName := metricsCertName f;
         metricsCertKey := metricsCertKey f; enableHTTP2 := enableHTTP2 f |}));
   ("health-probe-bind-address", StringVar (λ x f,
      {| metricsAddr := metricsAddr f; probeAddr := x; enableLeaderElection := enableLeaderElection f;
         secureMetrics := secureMetrics f; webhookCertPath := webhookCertPath f;
         webhookCertName := webhookCertName f; webhookCertKey := webhookCertKey f;
         metricsCertPath := metricsCertPath f; metricsCertName := metricsCertName f;
         metricsCertKey := metricsCertKey f; enableHTTP2 := enableHTTP2 f |}));
   ("leader-elect", BoolVar (λ x f,
      {| metricsAddr := metricsAddr f; probeAddr := probeAddr f; enableLeaderElection := x;
         secureMetrics := secureMetrics f; webhookCertPath := webhookCertPath f;
         webhookCertName := webhookCertName f; webhookCertKey := webhookCertKey f;
         metricsCertPath := metricsCertPath f; metricsCertName := metricsCertName f;
         metricsCertKey := metricsCertKey f; enableHTTP2 := enableHTTP2 f |}));
   ("metrics-secure", BoolVar (λ x f,
      {| metricsAddr := metricsAddr f; probeAddr := probeAddr f; enableLeaderElection := enableLeaderElection f;
         secureMetrics := x; webhookCertPath := webhookCertPath f;
         webhookCertName := webhookCertName f; webhookCertKey := webhookCertKey f;
         metricsCertPath := metricsCertPath f; metricsCertName := metricsCertName f;
         metricsCertKey := metricsCertKey f; enableHTTP2 := enableHTTP2 f |}));
   ("webhook-cert-path", StringVar (λ x f,
      {| metricsAddr := metricsAddr f; probeAddr := probeAddr f; enableLeaderElection := enableLeaderElection f;
         secureMetrics := secureMetrics f; webhookCertPath := x;
         webhookCertName := webhookCertName f; webhookCertKey := webhookCertKey f;
         metricsCertPath := metricsCertPath f; metricsCertName := metricsCertName f;
         metricsCertKey := metricsCertKey f; enableHTTP2 := enableHTTP2 f |}));
   ("webhook-cert-name", StringVar (λ x f,
      {| metricsAddr := metricsAddr f; probeAddr := probeAddr f; enableLeaderElection := enableLeaderElection f;
         secureMetrics := secureMetrics f; webhookCertPath := webhookCertPath f;
         webhookCertName := x; webhookCertKey := webhookCertKey f;
         metricsCertPath := metricsCertPath f; metricsCertName := metricsCertName f;
         metricsCertKey := metricsCertKey f; enableHTTP2 := enableHTTP2 f |}));
   ("webhook-cert-key", StringVar (λ x f,
      {| metricsAddr := metricsAddr f; probeAddr := probeAddr f; enableLeaderElection := enableLeaderElection f;
         secureMetrics := secureMetrics f; webhookCertPath := webhookCertPath f;
         webhookCertName := webhookCertName f; webhookCertKey := x;
         metricsCertPath := metricsCertPath f; metricsCertName := metricsCertName f;
         metricsCertKey := metricsCertKey f; enableHTTP2 := enableHTTP2 f |}));
   ("metrics-cert-path", StringVar (λ x f,
      {| metricsAddr := metricsAddr f; probeAddr := probeAddr f; enableLeaderElection := enableLeaderElection f;
         secureMetrics := secureMetrics f; webhookCertPath := webhookCertPath f;
         webhookCertName := webhookCertName f; webhookCertKey := webhookCertKey f;
         metricsCertPath := x; metricsCertName := metricsCertName f;
         metricsCertKey := metricsCertKey f; enableHTTP2 := enableHTTP2 f |}));
   ("metrics-cert-name", StringVar (λ x f,
      {| metricsAddr := metricsAddr f; probeAddr := probeAddr f; enableLeaderElection := enableLeaderElection f;
         secureMetrics := secureMetrics f; webhookCertPath := webhookCertPath f;
         webhookCertName := webhookCertName f; webhookCertKey := webhookCertKey f;
         metricsCertPath := metricsCertPath f; metricsCertName := x;
         metricsCertKey := metricsCertKey f; enableHTTP2 := enableHTTP2 f |}));
   ("metrics-cert-key", StringVar (λ x f,
      {| metricsAddr := metricsAddr f; probeAddr := probeAddr f; enableLeaderElection := enableLeaderElection f;
         secureMetrics := secureMetrics f; webhookCertPath := webhookCertPath f;
         webhookCertName := webhookCertName f; webhookCertKey := webhookCertKey f;
         metricsCertPath := metricsCertPath f; metricsCertName := metricsCertName f;
         metricsCertKey := x; enableHTTP2 := enableHTTP2 f |}));
   ("enable-http2", BoolVar (λ x f,
      {| metricsAddr := metricsAddr f; probeAddr := probeAddr f; enableLeaderElection := enableLeaderElection f;
         secureMetrics := secureMetrics f; webhookCertPath := webhookCertPath f;
         webhookCertName := webhookCertName f; webhookCertKey := webhookCertKey f;
         metricsCertPath := metricsCertPath f; metricsCertName := metricsCertName f;
         metricsCertKey := metricsCertKey f; enableHTTP2 := x |}))].

(** The flags other packages declare: name, IsBoolFlag, and the values Set takes. *)
Class ForeignFlags := {
  foreign_flags : list (string * (bool * (string → bool)));
}.

(** ** Parsing *)

(** What an argument is: the first steps of parseOne. *)
Inductive argument :=
| NotAFlag
| Terminator
| BadSyntax
| FlagArg (name : string) (value : option string).

Definition split_name (name : string) : argument :=
  match split_once "=" name with
  | Some (name, value) => FlagArg name (Some value)
  | None => FlagArg name None
  end.

(** The name after the dashes. *)
Definition flag_name (name : string) : argument :=
  match name with
  | EmptyString => BadSyntax
  | String c _ => if decide (c = "-"%char ∨ c = "="%char) then BadSyntax else split_name name
  end.

Definition classify (s : string) : argument :=
  match s with
  | String "-" EmptyString => NotAFlag
  | String "-" (String "-" EmptyString) => Terminator
  | String "-" (String "-" name) => flag_name name
  | String "-" name => flag_name name
  | _ => NotAFlag
  end.

(** The end of flag.Parse: the variables and the arguments left, or os.Exit. *)
Inductive parsed :=
| Parsed (f : flags) (rest : list string)
| Exits (code : Z).

Fixpoint assoc {A} (name : string) (l : list (string * A)) : option A :=
  match l with
  | [] => None
  | (k, a) :: l => if decide (k = name) then Some a else assoc name l
  end.

Section Parse.
Context `{ForeignFlags}.

Definition formal (name : string) : option binding :=
  match assoc name declared with
  | Some b => Some b
  | None => match assoc name foreign_flags with
            | Some (is_bool, accepts) => Some (Foreign_flag is_bool accepts)
            | None => None
            end
  end.

(** FlagSet.Parse with ExitOnError. *)
Fixpoint Parse (args : list string) (f : flags) : parsed :=
  match args with
  | [] => Parsed f []
  | s :: rest =>
      match classify s with
      | NotAFlag => Parsed f args
      | Terminator => Parsed f rest
      | BadSyntax => Exits 2
      | FlagArg name value =>
          match formal name with
          | None => Exits (if decide (name = "help" ∨ name = "h") then 0 else 2)
          | Some b =>
              match value with
              | Some v => match Set_flag b v f with Some f => Parse rest f | None => Exits 2 end
              | None =>
                  if is_bool_flag b then
                    match Set_flag b "true" f with Some f => Parse rest f | None => Exits 2 end
                  else
                    match rest with
                    | [] => Exits 2
                    | v :: rest =>
                        match Set_flag b v f with Some f => Parse rest f | None => Exits 2 end
                    end
              end
          end
      end
  end.

(** The command line that says what [f] is. *)
Definition show_bool (b : bool) : string := if b then "true" else "false".

Definition render (f : flags) : list string :=
  ["--metrics-bind-address=" +:+ metricsAddr f; "--health-probe-bind-address=" +:+ probeAddr f;
   "--leader-elect=" +:+ show_bool (enableLeaderElection f);
   "--metrics-secure=" +:+ show_bool (secureMetrics f);
   "--webhook-cert-path=" +:+ webhookCertPath f; "--webhook-cert-name=" +:+ webhookCertName f;
   "--webhook-cert-key=" +:+ webhookCertKey f; "--metrics-cert-path=" +:+ metricsCertPath f;
   "--metrics-cert-name=" +:+ metricsCertName f; "--metrics-cert-key=" +:+ metricsCertKey f;
   "--enable-http2=" +:+ show_bool (enableHTTP2 f)].

(** ** Properties *)

(** Flags round trip.  The command line that spells out every flag is parsed
    back to exactly these values, whatever the variables were before, and leaves
    no arguments. *)
Theorem flags_roundtrip f f0 : Parse (render f) f0 = Parsed f [].
Proof.
  destruct f as [? ? [] [] ? ? ? ? ? ? []]; reflexivity.
Qed.

End Parse.
