(* ===== verification/Main.v ===== *)
(** * The manager's entry point (cmd/main.go, SetupWithManager, groupversion_info.go)

    main builds the options of the two HTTPS servers and of the manager from the
    flags, wires the reconciler and starts the manager; the first step that fails
    ends the process.  What it calls of controller-runtime, client-go and the
    signal package are the calls of a signature of their own; their types are
    parameters.  Log lines and the logger are left out. *)
From S2P Require Import Prelude GoErrors Prog Api Kube Duration Fetch JobBuilder Logs Registry Controller Runs Server Samples Scenarios System Flags.

(** ** Scheme registration *)

Record GroupVersion_ := { gv_Group : string; gv_Version : string }.

Definition GroupVersion : GroupVersion_ := {| gv_Group := "werf.io"; gv_Version := "v1alpha1" |}.

(** The types SchemeBuilder.Register names in init. *)
Definition registered_types : list string := ["WerfBundle"; "WerfBundleList"].

(** ** The servers *)

(** controller-runtime and client-go, as far as main sees them; [TLSRest] is the
    rest of a tls.Config. *)
Class ManagerLib `{Machinery} := {
  TLSRest : Type;
  RestConfig : Type;
  Clientset : Type;
  Client : Type;
  Manager : Type;
  FilterProvider : Type;
  WithAuthenticationAndAuthorization : FilterProvider;
  NewScheme : Scheme;
  GetConfig : Manager → RestConfig;
  GetClient : Manager → Client;
  GetScheme : Manager → Scheme;
}.

Section Main.
Context `{Machinery} `{RegistryLib} `{!ManagerLib} `{ForeignFlags}.

(** tls.Config *)
Record TLSConfig := { NextProtos : list string; tls_rest : TLSRest }.

Definition disableHTTP2 (c : TLSConfig) : TLSConfig :=
  {| NextProtos := ["http/1.1"]; tls_rest := tls_rest c |}.

(** What a server does with its options: it applies them in order. *)
Definition configure (opts : list (TLSConfig → TLSConfig)) (c : TLSConfig) : TLSConfig :=
  foldl (λ c f, f c) c opts.

(** webhook.Options *)
Record WebhookOptions := {
  wh_TLSOpts : list (TLSConfig → TLSConfig);
  wh_CertDir : string;
  wh_CertName : string;
  wh_KeyName : string;
}.

(** metricsserver.Options *)
Record MetricsOptions := {
  BindAddress : string;
  SecureServing : bool;
  FilterProvider_ : option FilterProvider;
  ms_TLSOpts : list (TLSConfig → TLSConfig);
  ms_CertDir : string;
  ms_CertName : string;
  ms_KeyName : string;
}.

(** ctrl.Options *)
Record ManagerOptions := {
  mo_Scheme : Scheme;
  Metrics : MetricsOptions;
  WebhookServer : WebhookOptions;
  HealthProbeBindAddress : string;
  LeaderElection : bool;
  LeaderElectionID : string;
}.

Definition tlsOpts (f : flags) : list (TLSConfig → TLSConfig) :=
  if enableHTTP2 f then [] else [disableHTTP2].

Definition webhookServerOptions (f : flags) : WebhookOptions :=
  if 0 <? str_len (webhookCertPath f) then
    {| wh_TLSOpts := tlsOpts f; wh_CertDir := webhookCertPath f;
       wh_CertName := webhookCertName f; wh_KeyName := webhookCertKey f |}
  else
    {| wh_TLSOpts := tlsOpts f; wh_CertDir := EmptyString; wh_CertName := EmptyString;
       wh_KeyName := EmptyString |}.

Definition metricsServerOptions (f : flags) : MetricsOptions :=
  let filter := if secureMetrics f then Some WithAuthenticationAndAuthorization else None in
  if 0 <? str_len (metricsCertPath f) then
    {| BindAddress := metricsAddr f; SecureServing := secureMetrics f; FilterProvider_ := filter;
       ms_TLSOpts := tlsOpts f; ms_CertDir := metricsCertPath f;
       ms_CertName := metricsCertName f; ms_KeyName := metricsCertKey f |}
  else
    {| BindAddress := metricsAddr f; SecureServing := secureMetrics f; FilterProvider_ := filter;
       ms_TLSOpts := tlsOpts f; ms_CertDir := EmptyString; ms_CertName := EmptyString;
       ms_KeyName := EmptyString |}.

Definition managerOptions (scheme : Scheme) (f : flags) : ManagerOptions :=
  {| mo_Scheme := scheme; Metrics := metricsServerOptions f;
     WebhookServer := webhookServerOptions f; HealthProbeBindAddress := probeAddr f;
     LeaderElection := enableLeaderElection f; LeaderElectionID := "247e2318.werf.io" |}.

(** ** The controller *)

(** WerfBundleReconciler with the fields Controller.v leaves to its calls. *)
Record WiredReconciler := {
  wr_Client : Client;
  wr_Scheme : Scheme;
  wr_RegistryClient : RegistryClient;
  wr_Clientset : option Clientset;
}.

(** The reconciler as Controller.v has it: its client and clientset are the calls. *)
Definition core (w : WiredReconciler) : WerfBundleReconciler :=
  {| r_Scheme := Some (wr_Scheme w); r_RegistryClient := wr_RegistryClient w |}.

Inductive predicate := GenerationChangedPredicate.

(** The controller that SetupWithManager's builder describes. *)
Record controller := {
  ctl_For : string;
  ctl_Owns : list string;
  ctl_EventFilter : list predicate;
  ctl_Reconciler : WiredReconciler;
}.

(** ** Calls *)

Inductive mcall :=
| ClientGoAddToScheme (s : Scheme)
| BuilderAddToScheme (gv : GroupVersion_) (types : list string) (s : Scheme)
| GetConfigOrDie
| NewManager (cfg : RestConfig) (opts : ManagerOptions)
| NewForConfig (cfg : RestConfig)
| Complete (mgr : Manager) (c : controller)
| AddHealthzCheck (mgr : Manager) (name : string)
| AddReadyzCheck (mgr : Manager) (name : string)
| Start (mgr : Manager).

(** AddToScheme changes the scheme in place: the answer is what it has become.
    GetConfigOrDie ends the process where it finds no configuration. *)
Definition mans (c : mcall) : Type :=
  match c with
  | ClientGoAddToScheme _ | BuilderAddToScheme _ _ _ => result Scheme
  | GetConfigOrDie => result RestConfig
  | NewManager _ _ => result Manager
  | NewForConfig _ => result Clientset
  | Complete _ _ | AddHealthzCheck _ _ | AddReadyzCheck _ _ | Start _ => option error
  end.

Definition main_sig : Sig := {| call := mcall; ans := mans |}.
#[local] Existing Instance main_sig.

(** ** SetupWithManager *)

Definition with_Clientset (c : Clientset) (r : WiredReconciler) : WiredReconciler :=
  {| wr_Client := wr_Client r; wr_Scheme := wr_Scheme r;
     wr_RegistryClient := wr_RegistryClient r; wr_Clientset := Some c |}.

Definition complete (mgr : Manager) (r : WiredReconciler) : @prog main_sig (option error) :=
  perform (Complete mgr {| ctl_For := "WerfBundle"; ctl_Owns := ["Job"];
                           ctl_EventFilter := [GenerationChangedPredicate];
                           ctl_Reconciler := r |}).

Definition SetupWithManager (r : WiredReconciler) (mgr : Manager) : @prog main_sig (option error) :=
  match wr_Clientset r with
  | Some _ => complete mgr r
  | None =>
      clientset ← perform (NewForConfig (GetConfig mgr));
      match clientset with
      | Err err => mret (Some (WrapError "failed to create Kubernetes clientset" err))
      | Ok clientset => complete mgr (with_Clientset clientset r)
      end
  end.

(** ** main *)

(** init: utilruntime.Must panics on an error. *)
Definition init : @prog main_sig Scheme :=
  s ← perform (ClientGoAddToScheme NewScheme);
  match s with
  | Err err => Panic (Error err)
  | Ok s =>
      s ← perform (BuilderAddToScheme GroupVersion registered_types s);
      match s with
      | Err err => Panic (Error err)
      | Ok s => mret s
      end
  end.

(** From the manager on; the result is the exit status. *)
Definition run_manager (mgr : Manager) : @prog main_sig Z :=
  clientset ← perform (NewForConfig (GetConfig mgr));
  match clientset with
  | Err _ => mret 1
  | Ok clientset =>
      err ← SetupWithManager {| wr_Client := GetClient mgr; wr_Scheme := GetScheme mgr;
                                wr_RegistryClient := NewOCIClient;
                                wr_Clientset := Some clientset |} mgr;
      match err with
      | Some _ => mret 1
      | None =>
          err ← perform (AddHealthzCheck mgr "healthz");
          match err with
          | Some _ => mret 1
          | None =>
              err ← perform (AddReadyzCheck mgr "readyz");
              match err with
              | Some _ => mret 1
              | None =>
                  err ← perform (Start mgr);
                  match err with Some _ => mret 1 | None => mret 0 end
              end
          end
      end
  end.

Definition main (args : list string) : @prog main_sig Z :=
  scheme ← init;
  match Parse args default_flags with
  | Exits code => mret code
  | Parsed f _ =>
      cfg ← perform GetConfigOrDie;
      match cfg with
      | Err _ => mret 1
      | Ok cfg =>
          mgr ← perform (NewManager cfg (managerOptions scheme f));
          match mgr with
          | Err _ => mret 1
          | Ok mgr => run_manager mgr
          end
      end
  end.

(** ** Properties *)

(** The call did what it was asked for. *)
Definition succeeds (e : event) : bool :=
  match e with
  | Ev (ClientGoAddToScheme _) (Ok _) | Ev (BuilderAddToScheme _ _ _) (Ok _)
  | Ev GetConfigOrDie (Ok _) | Ev (NewManager _ _) (Ok _) | Ev (NewForConfig _) (Ok _)
  | Ev (Complete _ _) None | Ev (AddHealthzCheck _ _) None | Ev (AddReadyzCheck _ _) None
  | Ev (Start _) None => true
  | _ => false
  end.

(** The error of a call that failed while the scheme was filled. *)
Definition failure (e : event) : string :=
  match e with
  | Ev (ClientGoAddToScheme _) (Err err) | Ev (BuilderAddToScheme _ _ _) (Err err) => Error err
  | _ => EmptyString
  end.

Inductive stage :=
| client_go_types | own_types | configuration | manager | clientset | controller_
| healthz | readyz | start.

Definition stage_of (c : mcall) : stage :=
  match c with
  | ClientGoAddToScheme _ => client_go_types
  | BuilderAddToScheme _ _ _ => own_types
  | GetConfigOrDie => configuration
  | NewManager _ _ => manager
  | NewForConfig _ => clientset
  | Complete _ _ => controller_
  | AddHealthzCheck _ _ => healthz
  | AddReadyzCheck _ _ => readyz
  | Start _ => start
  end.

Definition plan : list stage :=
  [client_go_types; own_types; configuration; manager; clientset; controller_; healthz; readyz; start].

Definition stages (t : list event) : list stage := (λ e, stage_of (ev_call e)) <$> t.

(** How a run of main ends, by its calls: some bad argument, all nine stages, or
    the stage that failed, as the last one. *)
Inductive main_run (args : list string) : list event → outcome Z → Prop :=
| main_arguments t code :
    Parse args default_flags = Exits code → stages t = take 2 plan → forallb succeeds t = true →
    main_run args t (Done code)
| main_ran t : stages t = plan → forallb succeeds t = true → main_run args t (Done 0)
| main_failed t e o :
    stages t = take (length t) plan → last t = Some e → succeeds e = false →
    forallb succeeds (removelast t) = true →
    o = (if decide (length t <= 2)%nat then Panicked (failure e) else Done 1) →
    main_run args t o.

Lemma main_runs args : wp any (main args) (main_run args).
Proof.
  unfold main, init. intros [s|e] _; [|by eapply main_failed].
  intros [s'|e] _; [|by eapply main_failed].
  prog_simpl. destruct (Parse args default_flags) as [f rest|code] eqn:Ep; [|by eapply main_arguments].
  intros [cfg|e] _; [|by eapply main_failed].
  intros [mgr|e] _; [|by eapply main_failed].
  intros [cs|e] _; [|by eapply main_failed].
  do 4 (intros [e|] _; [by eapply main_failed|]). by apply main_ran.
Qed.

(** C32 The manager's start.  main calls its nine stages in order and stops at the
    first that fails, with exit status 1 (a panic while the scheme is filled);
    the manager is started only when everything before has succeeded, and the
    status is 0 only when Start has returned without an error; on a bad command
    line nothing beyond the scheme has been touched. *)
Theorem main_exit args t o : exec (main args) t o → main_run args t o.
Proof. intros He. exact (wp_any _ _ _ _ (main_runs args) He). Qed.

(** What the manager is made with, and what is registered with it. *)
Definition wired (args : list string) (t : list event) (e : event) : Prop :=
  match e with
  | Ev (NewManager cfg opts) _ =>
      ∃ s f rest, Parse args default_flags = Parsed f rest ∧ opts = managerOptions s f
  | Ev (Complete mgr c) _ =>
      ctl_For c = "WerfBundle" ∧ ctl_Owns c = ["Job"] ∧
      ctl_EventFilter c = [GenerationChangedPredicate] ∧
      wr_Client (ctl_Reconciler c) = GetClient mgr ∧ wr_Scheme (ctl_Reconciler c) = GetScheme mgr ∧
      wr_RegistryClient (ctl_Reconciler c) = NewOCIClient ∧
      ∃ cs, wr_Clientset (ctl_Reconciler c) = Some cs ∧ Ev (NewForConfig (GetConfig mgr)) (Ok cs) ∈ t
  | _ => True
  end.

(** The clientset is the answer to the fifth call. *)
Ltac wire := do 6 (split; [reflexivity|]); eexists; split; [reflexivity|]; do 4 right; left.

Lemma wired_runs args : wp any (main args) (λ t _, Forall (wired args t) t).
Proof.
  unfold main, init. intros [s|e] _; [|by each_event].
  intros [s'|e] _; [|by each_event].
  prog_simpl. destruct (Parse args default_flags) as [f rest|code] eqn:Ep; [|by each_event].
  intros [cfg|e] _; [|by each_event].
  assert (∀ t a, wired args t (Ev (NewManager cfg (managerOptions s' f)) a)) as Hmgr
    by (intros t a; by exists s', f, rest).
  intros [mgr|e] _; [|by each_event].
  intros [cs|e] _; [|by each_event].
  do 4 (intros [err|] _; [each_event; try done; wire|]). each_event; try done; wire.
Qed.

(** The servers.  The manager is made with the options the flags describe:
    unless HTTP/2 is enabled both servers offer HTTP/1.1 only, whatever their
    configuration was; the metrics endpoint is filtered by authentication and
    authorisation exactly if it is served securely; each server gets the
    certificate files of its own flags if a directory is given, and none
    otherwise. *)
Theorem main_servers args t o cfg opts a :
  exec (main args) t o → Ev (NewManager cfg opts) a ∈ t →
  ∃ f rest, Parse args default_flags = Parsed f rest ∧
    (∀ c, let protos := if enableHTTP2 f then NextProtos c else ["http/1.1"] in
       NextProtos (configure (wh_TLSOpts (WebhookServer opts)) c) = protos ∧
       NextProtos (configure (ms_TLSOpts (Metrics opts)) c) = protos) ∧
    SecureServing (Metrics opts) = secureMetrics f ∧
    (is_Some (FilterProvider_ (Metrics opts)) ↔ secureMetrics f = true) ∧
    (wh_CertDir (WebhookServer opts), wh_CertName (WebhookServer opts), wh_KeyName (WebhookServer opts))
    = (if decide (webhookCertPath f = EmptyString) then (EmptyString, EmptyString, EmptyString)
       else (webhookCertPath f, webhookCertName f, webhookCertKey f)) ∧
    (ms_CertDir (Metrics opts), ms_CertName (Metrics opts), ms_KeyName (Metrics opts))
    = (if decide (metricsCertPath f = EmptyString) then (EmptyString, EmptyString, EmptyString)
       else (metricsCertPath f, metricsCertName f, metricsCertKey f)) ∧
    LeaderElection opts = enableLeaderElection f ∧ HealthProbeBindAddress opts = probeAddr f ∧
    BindAddress (Metrics opts) = metricsAddr f.
Proof.
  intros He Hin. pose proof (wp_any _ _ _ _ (wired_runs args) He) as Hw.
  rewrite Forall_forall in Hw. destruct (Hw _ Hin) as (s & f & rest & Ep & ->).
  exists f, rest. split; [done|]. unfold managerOptions, metricsServerOptions, webhookServerOptions, tlsOpts.
  cbn [WebhookServer Metrics LeaderElection HealthProbeBindAddress].
  assert (∀ x, (0 <? str_len x) = negb (bool_decide (x = EmptyString))) as Hlen.
  { intros [|c x]; [done|]. rewrite str_len_cons. pose proof (str_len_nonneg x).
    rewrite bool_decide_false by done. apply Z.ltb_lt. lia. }
  rewrite !Hlen. split; [|repeat split].
  - intros c. destruct (enableHTTP2 f), (bool_decide (webhookCertPath f = EmptyString)),
      (bool_decide (metricsCertPath f = EmptyString)); done.
  - by destruct (negb _).
  - destruct (negb _); cbn; case_match; intros Hs; [done|by destruct Hs|done|by destruct Hs].
  - intros ->. destruct (negb _); by eexists.
  - case_bool_decide; cbn; [by rewrite decide_True | by rewrite decide_False].
  - case_bool_decide; cbn; [by rewrite decide_True | by rewrite decide_False].
  - by destruct (negb _).
Qed.

(** C30 What main registers.  The one controller main registers is for bundles and
    the jobs they own, with the generation filter; its reconciler has the manager's
    client and scheme, a clientset, and the OCI client as its registry client, which
    keeps the contract that all theorems about reconciliations rely on.  So they
    hold of it; spelled out for one of them: if users are careful, answers about jobs
    accurate and created jobs recorded ([orderly]), every unfinished job of a bundle
    is the one its status names. *)
Theorem main_registers `{!MachineryOk} `{!RegistryLibOk} args t o mgr c a :
  exec (main args) t o → Ev (Complete mgr c) a ∈ t →
  ctl_For c = "WerfBundle" ∧ ctl_Owns c = ["Job"] ∧
  ctl_EventFilter c = [GenerationChangedPredicate] ∧
  wr_Client (ctl_Reconciler c) = GetClient mgr ∧
  is_Some (wr_Clientset (ctl_Reconciler c)) ∧
  r_Scheme (core (ctl_Reconciler c)) = Some (GetScheme mgr) ∧
  r_RegistryClient (core (ctl_Reconciler c)) = NewOCIClient ∧
  RegistryContract (r_RegistryClient (core (ctl_Reconciler c))) ∧
  ∀ w0 w b k, initial w0 → rtc (step (conduct := orderly) (core (ctl_Reconciler c))) w0 w →
    w_bundle w = Some b → live w (UID (Meta b)) k →
    ActiveJobName (Status b) ≠ EmptyString ∧ k = active_key b.
Proof.
  intros He Hin. pose proof (wp_any _ _ _ _ (wired_runs args) He) as Hw.
  rewrite Forall_forall in Hw. destruct (Hw _ Hin) as (Hf & Ho & Hp & Hc & Hs & Hr & cs & Hcs & _).
  assert (r_RegistryClient (core (ctl_Reconciler c)) = NewOCIClient) as Hr' by (cbn; by rewrite Hr).
  assert (RegistryContract (r_RegistryClient (core (ctl_Reconciler c)))) as Hcon
    by (rewrite Hr'; apply OCI_contract).
  do 4 (split; [done|]). split; [by eexists|]. split; [cbn; by rewrite Hs|]. do 2 (split; [done|]).
  intros w0 w b k Hi Hst Hb Hl. eapply (sound_active w); [|done..]. by eapply reachable_sound.
Qed.

(** SetupWithManager.  A reconciler without a clientset gets one made from the
    manager's configuration, or the error of making it, wrapped, and then nothing
    is registered; a clientset that is set is kept.  The error is otherwise the
    registration's. *)
Theorem SetupWithManager_correct r mgr t o :
  exec (SetupWithManager r mgr) t o →
  (∃ err, wr_Clientset r = None ∧ t = [Ev (NewForConfig (GetConfig mgr)) (Err err)] ∧
     o = Done (Some (WrapError "failed to create Kubernetes clientset" err))) ∨
  ∃ pre c a, t = pre ++ [Ev (Complete mgr c) a] ∧ o = Done a ∧
    wr_Client (ctl_Reconciler c) = wr_Client r ∧ wr_Scheme (ctl_Reconciler c) = wr_Scheme r ∧
    wr_RegistryClient (ctl_Reconciler c) = wr_RegistryClient r ∧
    match wr_Clientset r with
    | Some cs => pre = [] ∧ wr_Clientset (ctl_Reconciler c) = Some cs
    | None => ∃ cs, pre = [Ev (NewForConfig (GetConfig mgr)) (Ok cs)] ∧
                wr_Clientset (ctl_Reconciler c) = Some cs
    end.
Proof.
  intros He. by_wp He. unfold SetupWithManager. destruct (wr_Clientset r) as [cs|] eqn:Ec.
  - intros a _. right. eexists [], _, a. split; [done|]. by repeat (split; [done|]).
  - intros [cs|err] _; [|left; by eexists]. intros a _. right. eexists [_], _, a.
    split; [done|]. do 4 (split; [done|]). by exists cs.
Qed.

End Main.

(** ** Witnesses *)

#[local] Existing Instance sample_machinery.
#[local] Existing Instance sample_machinery_ok.
#[local] Existing Instance sample_lib.
#[local] Existing Instance sample_lib_ok.

#[local] Instance sample_flags : ForeignFlags :=
  {| foreign_flags := [("kubeconfig", (false, λ _, true)); ("zap-devel", (true, λ v, bool_decide (is_Some (ParseBool v))))] |}.

Definition empty_scheme : @Scheme sample_machinery := @nil GroupVersionKind.

#[local] Instance sample_manager : ManagerLib :=
  {| TLSRest := unit; RestConfig := unit; Clientset := unit; Client := unit; Manager := Scheme;
     FilterProvider := unit; WithAuthenticationAndAuthorization := tt; NewScheme := empty_scheme;
     GetConfig := λ _, tt; GetClient := λ _, tt; GetScheme := λ s, s |}.

(** Everything works. *)
Definition sample_mans (c : mcall) : mans c :=
  match c with
  | ClientGoAddToScheme s => Ok s
  | BuilderAddToScheme gv types s =>
      Ok (((λ kind, {| gvk_Group := gv_Group gv; gvk_Version := gv_Version gv; gvk_Kind := kind |})
             <$> types) ++ s)
  | GetConfigOrDie => Ok tt
  | NewManager cfg opts => Ok (mo_Scheme opts)
  | NewForConfig _ => Ok tt
  | Complete _ _ => None
  | AddHealthzCheck _ _ => None
  | AddReadyzCheck _ _ => None
  | Start _ => None
  end.

Definition sample_main (args : list string) : list (@event main_sig) * outcome Z :=
  @answered main_sig Z sample_mans (main args).

Lemma sample_main_exec args :
  @exec main_sig Z (main args) (sample_main args).1 (sample_main args).2.
Proof. apply (@answered_exec main_sig Z sample_mans). Qed.

Definition sample_args : list string := ["--leader-elect"; "-metrics-bind-address"; ":8443"; "--zap-devel=false"].

Lemma main_exit_witness :
  main_run sample_args (sample_main sample_args).1 (Done 0) ∧
  stages (sample_main sample_args).1 = plan.
Proof.
  split; [|vm_compute; reflexivity].
  assert ((sample_main sample_args).2 = Done 0) as E by (vm_compute; reflexivity).
  rewrite <- E. apply main_exit, sample_main_exec.
Defined.

Lemma sample_stages : stages (sample_main sample_args).1 = plan.
Proof. vm_compute. reflexivity. Qed.

(** The call of a stage. *)
Lemma stage_elem (t : list (@event main_sig)) i s :
  stages t !! i = Some s → ∃ e, e ∈ t ∧ stage_of (ev_call e) = s.
Proof.
  unfold stages. rewrite list_lookup_fmap. intros Hi.
  destruct (t !! i) as [e|] eqn:Ee; [|done]. exists e. split; [by eapply list_elem_of_lookup_2|].
  by injection Hi.
Qed.

Lemma main_servers_witness :
  ∃ opts, NextProtos (configure (ms_TLSOpts (Metrics opts)) {| NextProtos := ["h2"]; tls_rest := tt |})
            = ["http/1.1"] ∧ is_Some (FilterProvider_ (Metrics opts)) ∧
          BindAddress (Metrics opts) = ":8443" ∧ LeaderElection opts = true.
Proof.
  destruct (stage_elem (sample_main sample_args).1 3 manager) as ([call a] & Hin & Es);
    [by rewrite sample_stages|]. destruct call as [| | |cfg opts| | | | |]; try discriminate Es.
  destruct (main_servers sample_args _ _ cfg opts a (sample_main_exec sample_args))
    as (f & rest & Ep & Hc & _ & Hf & _ & _ & Hl & _ & Hb); [exact Hin|].
  vm_compute in Ep. injection Ep as <- <-.
  exists opts. split; [exact (proj2 (Hc {| NextProtos := ["h2"]; tls_rest := tt |}))|].
  split; [by apply Hf|]. by split.
Defined.

Lemma main_registers_witness :
  ∃ c : controller, ctl_For c = "WerfBundle" ∧ is_Some (wr_Clientset (ctl_Reconciler c)).
Proof.
  destruct (stage_elem (sample_main sample_args).1 5 controller_) as ([call a] & Hin & Es);
    [by rewrite sample_stages|]. destruct call as [| | | | |mgr c| | |]; try discriminate Es.
  destruct (main_registers sample_args _ _ mgr c a (sample_main_exec sample_args))
    as (Hf & _ & _ & _ & Hc & _); [exact Hin|].
  exists c. by split.
Defined.

(** Without a clientset, and no configuration to make one from. *)
Definition bare_reconciler : WiredReconciler :=
  {| wr_Client := tt; wr_Scheme := empty_scheme; wr_RegistryClient := NewOCIClient; wr_Clientset := None |}.

Lemma SetupWithManager_correct_witness :
  ∃ c cs, (@answered main_sig _ sample_mans (SetupWithManager bare_reconciler empty_scheme)).1
    = [@Ev main_sig (NewForConfig tt) (Ok cs); @Ev main_sig (Complete empty_scheme c) None] ∧
    wr_Clientset (ctl_Reconciler c) = Some cs.
Proof.
  destruct (SetupWithManager_correct bare_reconciler empty_scheme _ _
    (@answered_exec main_sig _ sample_mans (SetupWithManager bare_reconciler empty_scheme)))
    as [(err & _ & Et & _)|(pre & c & a & Et & Eo & _ & _ & _ & cs & -> & Ec)].
  - apply (f_equal length) in Et. vm_compute in Et. discriminate Et.
  - exists c, cs. split; [|exact Ec]. rewrite Et. vm_compute in Eo. by injection Eo as <-.
Defined.
