(* ===== verification/Heap.v ===== *)
(** * Memory for pointers and slices

    The deep copies of the API types are about which memory two values share, so
    they are modelled over a heap: a location holds a variable of one of the types
    the API structs point to.  A Go function on this memory is a state
    transformer that fails where Go would panic.  apimachinery's own metadata
    types are parameters: their values, and the cells they point to. *)
From S2P Require Import Prelude Api.

Abbreviation loc := positive.

(** ** Values in memory *)

(** A slice: its array, the index of its first element, its length. *)
Record slice := { s_array : loc; s_off : nat; s_len : nat }.

(** The structs with pointers and slices in them; nil is [None]. *)
Record ValuesSource_m := {
  m_ConfigMapRef : option loc;
  m_SecretRef : option loc;
  m_Optional : bool;
}.

Record RegistryConfig_m := {
  m_URL : string;
  m_Registry_SecretRef : option loc;
  m_PollInterval : string;
}.

Record ConvergeConfig_m := {
  m_ServiceAccountName : string;
  m_TargetNamespace : string;
  m_ResourceLimits : option loc;
  m_LogRetentionDays : option loc;
  m_ValuesFrom : option slice;
}.

Record WerfBundleSpec_m := { m_Registry : RegistryConfig_m; m_Converge : ConvergeConfig_m }.

Record WerfBundleStatus_m := {
  m_Phase : string;
  m_LastAppliedTag : string;
  m_LastSyncTime : option loc;
  m_LastErrorMessage : string;
  m_LastETag : string;
  m_ConsecutiveFailures : Z;
  m_LastErrorTime : option loc;
  m_ActiveJobName : string;
  m_LastJobStatus : string;
  m_LastJobLogs : string;
  m_ResolvedTargetNamespace : string;
}.

(** metav1.Time *)
Record Time := { unix : Z }.

Class MetaTypes := {
  TypeMeta : Type;
  ObjectMeta_m : Type;
  ListMeta_m : Type;
  ForeignCell : Type;
}.

Section Memory.
Context `{MetaTypes}.

Record WerfBundle_m := {
  m_TypeMeta : TypeMeta;
  m_ObjectMeta : ObjectMeta_m;
  m_Spec : WerfBundleSpec_m;
  m_Status : WerfBundleStatus_m;
}.

Record WerfBundleList_m := {
  m_List_TypeMeta : TypeMeta;
  m_ListMeta : ListMeta_m;
  m_Items : option slice;
}.

(** A variable or an array, by the type it has been allocated with. *)
Inductive cell :=
| CInt32 (z : Z)
| CTime (t : Time)
| CReference (r : LocalObjectReference)
| CResourceLimits (r : ResourceLimitsConfig)
| CValuesSource (s : ValuesSource_m)
| CRegistry (c : RegistryConfig_m)
| CConverge (c : ConvergeConfig_m)
| CSpec (s : WerfBundleSpec_m)
| CStatus (s : WerfBundleStatus_m)
| CBundle (b : WerfBundle_m)
| CBundleList (l : WerfBundleList_m)
| CSources (a : list ValuesSource_m)
| CBundles (a : list WerfBundle_m)
| CForeign (c : ForeignCell).

Abbreviation heap := (gmap loc cell).

(** ** Typed access *)

(** The type [A] of a cell. *)
Class Cell (A : Type) := {
  to_cell : A → cell;
  of_cell : cell → option A;
  of_to_cell a : of_cell (to_cell a) = Some a;
}.

#[global] Program Instance int32_cell : Cell Z :=
  {| to_cell := CInt32; of_cell c := match c with CInt32 z => Some z | _ => None end |}.
Solve All Obligations with done.
#[global] Program Instance time_cell : Cell Time :=
  {| to_cell := CTime; of_cell c := match c with CTime z => Some z | _ => None end |}.
Solve All Obligations with done.
#[global] Program Instance foreign_cell : Cell ForeignCell :=
  {| to_cell := CForeign; of_cell c := match c with CForeign z => Some z | _ => None end |}.
Solve All Obligations with done.
#[global] Program Instance reference_cell : Cell LocalObjectReference :=
  {| to_cell := CReference; of_cell c := match c with CReference z => Some z | _ => None end |}.
Solve All Obligations with done.
#[global] Program Instance limits_cell : Cell ResourceLimitsConfig :=
  {| to_cell := CResourceLimits; of_cell c := match c with CResourceLimits z => Some z | _ => None end |}.
Solve All Obligations with done.
#[global] Program Instance source_cell : Cell ValuesSource_m :=
  {| to_cell := CValuesSource; of_cell c := match c with CValuesSource z => Some z | _ => None end |}.
Solve All Obligations with done.
#[global] Program Instance registry_cell : Cell RegistryConfig_m :=
  {| to_cell := CRegistry; of_cell c := match c with CRegistry z => Some z | _ => None end |}.
Solve All Obligations with done.
#[global] Program Instance converge_cell : Cell ConvergeConfig_m :=
  {| to_cell := CConverge; of_cell c := match c with CConverge z => Some z | _ => None end |}.
Solve All Obligations with done.
#[global] Program Instance spec_cell : Cell WerfBundleSpec_m :=
  {| to_cell := CSpec; of_cell c := match c with CSpec z => Some z | _ => None end |}.
Solve All Obligations with done.
#[global] Program Instance status_cell : Cell WerfBundleStatus_m :=
  {| to_cell := CStatus; of_cell c := match c with CStatus z => Some z | _ => None end |}.
Solve All Obligations with done.
#[global] Program Instance bundle_cell : Cell WerfBundle_m :=
  {| to_cell := CBundle; of_cell c := match c with CBundle z => Some z | _ => None end |}.
Solve All Obligations with done.
#[global] Program Instance list_cell : Cell WerfBundleList_m :=
  {| to_cell := CBundleList; of_cell c := match c with CBundleList z => Some z | _ => None end |}.
Solve All Obligations with done.
#[global] Program Instance sources_cell : Cell (list ValuesSource_m) :=
  {| to_cell := CSources; of_cell c := match c with CSources z => Some z | _ => None end |}.
Solve All Obligations with done.
#[global] Program Instance bundles_cell : Cell (list WerfBundle_m) :=
  {| to_cell := CBundles; of_cell c := match c with CBundles z => Some z | _ => None end |}.
Solve All Obligations with done.

(** ** Programs *)

Definition mem (A : Type) : Type := heap → option (A * heap).

#[global] Instance mem_ret : MRet mem := λ A a h, Some (a, h).
#[global] Instance mem_bind : MBind mem := λ A B f p h,
  match p h with Some (a, h) => f a h | None => None end.

(** The content of a variable: [*p]. *)
Definition peek `{Cell A} (h : heap) (l : loc) : option A := h !! l ≫= of_cell.

Definition load `{Cell A} (l : loc) : mem A := λ h,
  match peek h l with Some a => Some (a, h) | None => None end.

(** A new variable, with its content. *)
Definition new `{Cell A} (a : A) : mem loc := λ h,
  let l := fresh (dom h) in Some (l, <[l := to_cell a]> h).

(** The elements of a slice. *)
Definition elements_of `{Cell (list A)} (h : heap) (s : slice) : option (list A) :=
  a ← peek (A := list A) h (s_array s);
  if decide (s_off s + s_len s <= length a)%nat then Some (take (s_len s) (drop (s_off s) a)) else None.

Definition load_slice `{Cell (list A)} (s : slice) : mem (list A) := λ h,
  match elements_of h s with Some l => Some (l, h) | None => None end.

(** A new array and the slice that is all of it. *)
Definition new_slice `{Cell (list A)} (l : list A) : mem slice :=
  a ← new l; mret {| s_array := a; s_off := 0; s_len := length l |}.

Fixpoint map_mem {A B} (f : A → mem B) (l : list A) : mem (list B) :=
  match l with
  | [] => mret []
  | a :: l => b ← f a; bs ← map_mem f l; mret (b :: bs)
  end.

(** ** Copies *)

(** [f] copies what [den] says of a value: into new memory, all of it, where it
    says the same; the old memory is untouched. *)
Definition copies {A V} (den : heap → A → option V) (f : A → mem A) : Prop :=
  ∀ h a v, den h a = Some v →
    ∃ a' hn, hn ##ₘ h ∧ f a h = Some (a', h ∪ hn) ∧ den hn a' = Some v.

(** More memory does not change what a value says. *)
Definition monotone {A V} (den : heap → A → option V) : Prop :=
  ∀ h h' a v, h ⊆ h' → den h a = Some v → den h' a = Some v.

Lemma peek_monotone `{Cell A} : monotone (peek (A := A)).
Proof.
  intros h h' l a Hh. unfold peek. destruct (h !! l) as [c|] eqn:El; [|done].
  by rewrite (lookup_weaken _ _ _ _ El Hh).
Qed.

Lemma elements_monotone `{Cell (list A)} : monotone (elements_of (A := A)).
Proof.
  intros h h' s l Hh. unfold elements_of. cbn.
  destruct (peek h (s_array s)) as [a|] eqn:Ea; [|done]. by rewrite (peek_monotone _ _ _ _ Hh Ea).
Qed.

Lemma mapM_monotone {A V} (den : heap → A → option V) :
  monotone den → monotone (λ h l, mapM (den h) l).
Proof.
  intros Hd h h' l. induction l as [|a l IH]; intros vs Hh; cbn; [done|].
  destruct (den h a) as [v|] eqn:Ea; [|done]. cbn. rewrite (Hd _ _ _ _ Hh Ea). cbn.
  destruct (mapM (den h) l) as [vs'|] eqn:El; [|done]. by rewrite (IH vs' Hh eq_refl).
Qed.

(** A copy made after others have been made. *)
Lemma copies_more {A V} (den : heap → A → option V) f h hn a v :
  monotone den → copies den f → hn ##ₘ h → den h a = Some v →
  ∃ a' hn', hn' ##ₘ h ∧ hn ⊆ hn' ∧ f a (h ∪ hn) = Some (a', h ∪ hn') ∧ den hn' a' = Some v.
Proof.
  intros Hm Hc Hd Ha.
  destruct (Hc (h ∪ hn) a v) as (a' & hc & Hdc & Ef & Ha').
  { eapply Hm; [apply map_union_subseteq_l|done]. }
  apply map_disjoint_union_r in Hdc as [Hdc Hdcn].
  exists a', (hn ∪ hc). split; [by apply map_disjoint_union_l_2|].
  split; [apply map_union_subseteq_l|]. split; [by rewrite map_union_assoc|].
  eapply Hm; [|exact Ha']. by apply map_union_subseteq_r.
Qed.

(** A new variable, after other copies. *)
Lemma new_more `{Cell A} h hn (a : A) :
  hn ##ₘ h →
  ∃ l hn', hn' ##ₘ h ∧ hn ⊆ hn' ∧ new a (h ∪ hn) = Some (l, h ∪ hn') ∧ peek hn' l = Some a.
Proof.
  intros Hd. set (l := fresh (dom (h ∪ hn))). exists l, (<[l := to_cell a]> hn).
  assert ((h ∪ hn) !! l = None) as Hl by (apply not_elem_of_dom, is_fresh).
  apply lookup_union_None in Hl as [Hlh Hln].
  split; [by apply map_disjoint_insert_l_2|]. split; [by apply insert_subseteq|].
  split; [unfold new; by rewrite <- insert_union_r|].
  unfold peek. rewrite lookup_insert_eq. apply of_to_cell.
Qed.

Lemma map_mem_more {A V} (den : heap → A → option V) f h hn l vs :
  monotone den → copies den f → hn ##ₘ h → mapM (den h) l = Some vs →
  ∃ l' hn', hn' ##ₘ h ∧ hn ⊆ hn' ∧ map_mem f l (h ∪ hn) = Some (l', h ∪ hn') ∧
    mapM (den hn') l' = Some vs ∧ length l' = length l.
Proof.
  intros Hm Hc. revert hn vs. induction l as [|a l IH]; intros hn vs Hd; cbn.
  - intros [= <-]. by exists [], hn.
  - destruct (den h a) as [v|] eqn:Ea; [|done]. cbn.
    destruct (mapM (den h) l) as [vs'|] eqn:El; [|done]. intros [= <-].
    destruct (copies_more den f h hn a v Hm Hc Hd Ea) as (a' & hn1 & Hd1 & Hs1 & E1 & Ha').
    destruct (IH hn1 vs' Hd1 eq_refl) as (l' & hn2 & Hd2 & Hs2 & E2 & Hl' & Hlen).
    exists (a' :: l'), hn2. split; [done|]. split; [by etransitivity|].
    unfold mbind, mem_bind, mret, mem_ret. rewrite E1, E2. split; [done|]. cbn.
    rewrite (Hm _ _ _ _ Hs2 Ha'). cbn. rewrite Hl'. cbn. by rewrite Hlen.
Qed.

End Memory.

Abbreviation heap := (gmap loc cell).

(** Runs a program whose first steps are known. *)
Ltac mem_steps := unfold mbind, mem_bind, mret, mem_ret in *.

(** The fields of a struct, read one after the other. *)
Ltac read_field H E :=
  match type of H with
  | context [mbind _ ?x] => destruct x eqn:E; cbn [mbind option_bind] in H; [|discriminate H]
  end.
