(* ===== verification/DeepCopy.v ===== *)
(** * Deep copies (api/v1alpha1/zz_generated.deepcopy.go)

    Each DeepCopyInto takes the struct behind its receiver and returns what it
    writes behind [out]; a variable or an array it makes with new or make appears
    with its final content.  The theorems: a copy says the same as the original,
    lies in memory of its own, and neither can be changed through the other. *)
From S2P Require Import Prelude Api Heap.

(** ** apimachinery's metadata *)

Section Library.
Context `{MetaTypes}.

(** The time in a variable of type metav1.Time. *)
Definition time_at (h : heap) (l : loc) : option Z :=
  t ← peek (A := Time) h l; Some (unix t).

Class MetaLib := {
  ListMeta : Type;
  objectmeta_at : heap → ObjectMeta_m → option ObjectMeta;
  listmeta_at : heap → ListMeta_m → option ListMeta;
  ObjectMeta_DeepCopyInto : ObjectMeta_m → mem ObjectMeta_m;
  ListMeta_DeepCopyInto : ListMeta_m → mem ListMeta_m;
  Time_DeepCopy : loc → mem loc;
}.

(** What the operator relies on: these copies are copies. *)
Class MetaLibOk `{MetaLib} := {
  objectmeta_monotone : monotone objectmeta_at;
  listmeta_monotone : monotone listmeta_at;
  objectmeta_copies : copies objectmeta_at ObjectMeta_DeepCopyInto;
  listmeta_copies : copies listmeta_at ListMeta_DeepCopyInto;
  time_copies : copies time_at Time_DeepCopy;
}.

End Library.

Section DeepCopy.
Context `{MetaTypes} `{!MetaLib}.

(** ** The generated blocks *)

(** [if in.F != nil { *out = new(T); **out = **in }] *)
Definition copy_pointer `{!Cell A} (p : option loc) : mem (option loc) :=
  match p with
  | None => mret None
  | Some l => v ← load l; l' ← new v; mret (Some l')
  end.

(** [if in.F != nil { *out = in.F.DeepCopy() }] *)
Definition copy_time (p : option loc) : mem (option loc) :=
  match p with
  | None => mret None
  | Some l => l' ← Time_DeepCopy l; mret (Some l')
  end.

(** [if in.F != nil { *out = make([]T, len( *in )); for i := range *in { ... } }] *)
Definition copy_slice `{!Cell (list A)} (DeepCopyInto : A → mem A) (s : option slice) : mem (option slice) :=
  match s with
  | None => mret None
  | Some s => l ← load_slice s; l' ← map_mem DeepCopyInto l; s' ← new_slice l'; mret (Some s')
  end.

(** [if in == nil { return nil }; out := new(T); in.DeepCopyInto(out); return out] *)
Definition deep_copy `{!Cell A} (DeepCopyInto : A → mem A) (p : option loc) : mem (option loc) :=
  match p with
  | None => mret None
  | Some l => v ← load l; v' ← DeepCopyInto v; l' ← new v'; mret (Some l')
  end.

(** ** The functions *)

Definition ResourceLimitsConfig_DeepCopyInto (in_ : ResourceLimitsConfig) : mem ResourceLimitsConfig :=
  mret in_.

Definition ResourceLimitsConfig_DeepCopy : option loc → mem (option loc) :=
  deep_copy ResourceLimitsConfig_DeepCopyInto.

Definition ValuesSource_DeepCopyInto (in_ : ValuesSource_m) : mem ValuesSource_m :=
  configMapRef ← copy_pointer (A := LocalObjectReference) (m_ConfigMapRef in_);
  secretRef ← copy_pointer (A := LocalObjectReference) (m_SecretRef in_);
  mret {| m_ConfigMapRef := configMapRef; m_SecretRef := secretRef; m_Optional := m_Optional in_ |}.

Definition ValuesSource_DeepCopy : option loc → mem (option loc) :=
  deep_copy ValuesSource_DeepCopyInto.

Definition RegistryConfig_DeepCopyInto (in_ : RegistryConfig_m) : mem RegistryConfig_m :=
  secretRef ← copy_pointer (A := LocalObjectReference) (m_Registry_SecretRef in_);
  mret {| m_URL := m_URL in_; m_Registry_SecretRef := secretRef; m_PollInterval := m_PollInterval in_ |}.

Definition RegistryConfig_DeepCopy : option loc → mem (option loc) :=
  deep_copy RegistryConfig_DeepCopyInto.

Definition ConvergeConfig_DeepCopyInto (in_ : ConvergeConfig_m) : mem ConvergeConfig_m :=
  resourceLimits ← copy_pointer (A := ResourceLimitsConfig) (m_ResourceLimits in_);
  logRetentionDays ← copy_pointer (A := Z) (m_LogRetentionDays in_);
  valuesFrom ← copy_slice ValuesSource_DeepCopyInto (m_ValuesFrom in_);
  mret {| m_ServiceAccountName := m_ServiceAccountName in_; m_TargetNamespace := m_TargetNamespace in_;
          m_ResourceLimits := resourceLimits; m_LogRetentionDays := logRetentionDays;
          m_ValuesFrom := valuesFrom |}.

Definition ConvergeConfig_DeepCopy : option loc → mem (option loc) :=
  deep_copy ConvergeConfig_DeepCopyInto.

Definition WerfBundleSpec_DeepCopyInto (in_ : WerfBundleSpec_m) : mem WerfBundleSpec_m :=
  registry ← RegistryConfig_DeepCopyInto (m_Registry in_);
  converge ← ConvergeConfig_DeepCopyInto (m_Converge in_);
  mret {| m_Registry := registry; m_Converge := converge |}.

Definition WerfBundleSpec_DeepCopy : option loc → mem (option loc) :=
  deep_copy WerfBundleSpec_DeepCopyInto.

Definition WerfBundleStatus_DeepCopyInto (in_ : WerfBundleStatus_m) : mem WerfBundleStatus_m :=
  lastSyncTime ← copy_time (m_LastSyncTime in_);
  lastErrorTime ← copy_time (m_LastErrorTime in_);
  mret {| m_Phase := m_Phase in_; m_LastAppliedTag := m_LastAppliedTag in_;
          m_LastSyncTime := lastSyncTime; m_LastErrorMessage := m_LastErrorMessage in_;
          m_LastETag := m_LastETag in_; m_ConsecutiveFailures := m_ConsecutiveFailures in_;
          m_LastErrorTime := lastErrorTime; m_ActiveJobName := m_ActiveJobName in_;
          m_LastJobStatus := m_LastJobStatus in_; m_LastJobLogs := m_LastJobLogs in_;
          m_ResolvedTargetNamespace := m_ResolvedTargetNamespace in_ |}.

Definition WerfBundleStatus_DeepCopy : option loc → mem (option loc) :=
  deep_copy WerfBundleStatus_DeepCopyInto.

Definition WerfBundle_DeepCopyInto (in_ : WerfBundle_m) : mem WerfBundle_m :=
  objectMeta ← ObjectMeta_DeepCopyInto (m_ObjectMeta in_);
  spec ← WerfBundleSpec_DeepCopyInto (m_Spec in_);
  status ← WerfBundleStatus_DeepCopyInto (m_Status in_);
  mret {| m_TypeMeta := m_TypeMeta in_; m_ObjectMeta := objectMeta; m_Spec := spec; m_Status := status |}.

Definition WerfBundle_DeepCopy : option loc → mem (option loc) :=
  deep_copy WerfBundle_DeepCopyInto.

Definition WerfBundleList_DeepCopyInto (in_ : WerfBundleList_m) : mem WerfBundleList_m :=
  listMeta ← ListMeta_DeepCopyInto (m_ListMeta in_);
  items ← copy_slice WerfBundle_DeepCopyInto (m_Items in_);
  mret {| m_List_TypeMeta := m_List_TypeMeta in_; m_ListMeta := listMeta; m_Items := items |}.

Definition WerfBundleList_DeepCopy : option loc → mem (option loc) :=
  deep_copy WerfBundleList_DeepCopyInto.

(** A runtime.Object; the nil interface is [None]. *)
Inductive Object :=
| BundleObject (p : loc)
| BundleListObject (p : loc).

(** [if c := in.DeepCopy(); c != nil { return c }; return nil] *)
Definition WerfBundle_DeepCopyObject (p : option loc) : mem (option Object) :=
  c ← WerfBundle_DeepCopy p;
  match c with Some c => mret (Some (BundleObject c)) | None => mret None end.

Definition WerfBundleList_DeepCopyObject (p : option loc) : mem (option Object) :=
  c ← WerfBundleList_DeepCopy p;
  match c with Some c => mret (Some (BundleListObject c)) | None => mret None end.

(** ** What the memory says

    The values of Api.v, read from memory; [None] where a pointer leads nowhere
    or to something of another type. *)

Definition pointer_at `{!Cell A} (h : heap) (p : option loc) : option (option A) :=
  match p with None => Some None | Some l => v ← peek h l; Some (Some v) end.

Definition time_pointer_at (h : heap) (p : option loc) : option (option Z) :=
  match p with None => Some None | Some l => v ← time_at h l; Some (Some v) end.

(** A slice: its elements, or [None] for nil. *)
Definition slice_at {V} `{!Cell (list A)} (at_ : heap → A → option V) (h : heap) (s : option slice)
    : option (option (list V)) :=
  match s with
  | None => Some None
  | Some s => l ← elements_of h s; vs ← mapM (at_ h) l; Some (Some vs)
  end.

Definition limits_at (h : heap) (m : ResourceLimitsConfig) : option ResourceLimitsConfig := Some m.

Definition source_at (h : heap) (m : ValuesSource_m) : option ValuesSource :=
  c ← pointer_at h (m_ConfigMapRef m);
  s ← pointer_at h (m_SecretRef m);
  Some {| ConfigMapRef := c; SecretRef := s; Optional := m_Optional m |}.

Definition registry_at (h : heap) (m : RegistryConfig_m) : option RegistryConfig :=
  s ← pointer_at h (m_Registry_SecretRef m);
  Some {| URL := m_URL m; Registry_SecretRef := s; PollInterval := m_PollInterval m |}.

(** The record of Api.v does not tell a nil ValuesFrom from an empty one: the
    first component does. *)
Definition converge_at (h : heap) (m : ConvergeConfig_m) : option (bool * ConvergeConfig) :=
  r ← pointer_at h (m_ResourceLimits m);
  d ← pointer_at h (m_LogRetentionDays m);
  v ← slice_at source_at h (m_ValuesFrom m);
  Some (bool_decide (v = None),
    {| ServiceAccountName := m_ServiceAccountName m; TargetNamespace := m_TargetNamespace m;
       ResourceLimits := r; LogRetentionDays := d; ValuesFrom := default [] v |}).

Definition spec_at (h : heap) (m : WerfBundleSpec_m) : option (bool * WerfBundleSpec) :=
  r ← registry_at h (m_Registry m);
  c ← converge_at h (m_Converge m);
  Some (c.1, {| Registry := r; Converge := c.2 |}).

Definition status_at (h : heap) (m : WerfBundleStatus_m) : option WerfBundleStatus :=
  s ← time_pointer_at h (m_LastSyncTime m);
  e ← time_pointer_at h (m_LastErrorTime m);
  Some {| Phase := m_Phase m; LastAppliedTag := m_LastAppliedTag m; LastSyncTime := s;
          LastErrorMessage := m_LastErrorMessage m; LastETag := m_LastETag m;
          ConsecutiveFailures := m_ConsecutiveFailures m; LastErrorTime := e;
          ActiveJobName := m_ActiveJobName m; LastJobStatus := m_LastJobStatus m;
          LastJobLogs := m_LastJobLogs m;
          ResolvedTargetNamespace := m_ResolvedTargetNamespace m |}.

(** A bundle: its type, whether ValuesFrom is nil, and the value of Api.v. *)
Record bundle_value := { v_Type : TypeMeta; v_NilValues : bool; v_Bundle : WerfBundle }.

Definition bundle_at (h : heap) (m : WerfBundle_m) : option bundle_value :=
  o ← objectmeta_at h (m_ObjectMeta m);
  s ← spec_at h (m_Spec m);
  t ← status_at h (m_Status m);
  Some {| v_Type := m_TypeMeta m; v_NilValues := s.1;
          v_Bundle := {| Meta := o; Spec := s.2; Status := t |} |}.

(** A list: its type and metadata, and its items, or [None] for nil. *)
Record list_value := { v_ListType : TypeMeta; v_ListMeta : ListMeta; v_Items : option (list bundle_value) }.

Definition list_at (h : heap) (m : WerfBundleList_m) : option list_value :=
  o ← listmeta_at h (m_ListMeta m);
  i ← slice_at bundle_at h (m_Items m);
  Some {| v_ListType := m_List_TypeMeta m; v_ListMeta := o; v_Items := i |}.

(** Behind a pointer. *)
Definition behind {V} `{!Cell A} (at_ : heap → A → option V) (h : heap) (l : loc) : option V :=
  a ← peek h l; at_ h a.

(** ** Lemmas *)

Lemma pointer_monotone `{!Cell A} : monotone (pointer_at (A := A)).
Proof.
  intros h h' [l|] v Hh; cbn; [|done].
  destruct (peek h l) as [a|] eqn:Ea; [|done]. by rewrite (peek_monotone _ _ _ _ Hh Ea).
Qed.

Lemma time_monotone : monotone time_at.
Proof.
  intros h h' l t Hh. unfold time_at. destruct (peek h l) as [c|] eqn:El; [|done].
  by rewrite (peek_monotone _ _ _ _ Hh El).
Qed.

Lemma time_pointer_monotone : monotone time_pointer_at.
Proof.
  intros h h' [l|] v Hh; cbn; [|done].
  destruct (time_at h l) as [a|] eqn:Ea; [|done]. by rewrite (time_monotone _ _ _ _ Hh Ea).
Qed.

Lemma slice_monotone {V} `{!Cell (list A)} (at_ : heap → A → option V) :
  monotone at_ → monotone (slice_at at_).
Proof.
  intros Hm h h' [s|] v Hh; cbn; [|done].
  destruct (elements_of h s) as [l|] eqn:El; [|done]. rewrite (elements_monotone _ _ _ _ Hh El). cbn.
  destruct (mapM (at_ h) l) as [vs|] eqn:Ev; [|done]. by rewrite (mapM_monotone at_ Hm _ _ _ _ Hh Ev).
Qed.

Lemma copies_pointer `{!Cell A} : copies (pointer_at (A := A)) copy_pointer.
Proof.
  intros h [l|] v; cbn.
  - destruct (peek h l) as [a|] eqn:Ea; [|done]. intros [= <-].
    destruct (new_more h ∅ a) as (l' & hn & Hd & _ & En & Hp); [apply map_disjoint_empty_l|].
    rewrite map_union_empty in En. exists (Some l'), hn. split; [done|].
    mem_steps. unfold load. rewrite Ea, En. split; [done|]. cbn. by rewrite Hp.
  - intros [= <-]. exists None, ∅. split; [apply map_disjoint_empty_l|].
    by rewrite map_union_empty.
Qed.

Context `{!MetaLibOk}.

(** A copy in the middle of a program: started with the new memory [hn], it ends
    with more of it. *)
Definition copies_on {A V} (den : heap → A → option V) (f : A → mem A) : Prop :=
  ∀ h hn a v, hn ##ₘ h → den h a = Some v →
    ∃ a' hn', hn' ##ₘ h ∧ hn ⊆ hn' ∧ f a (h ∪ hn) = Some (a', h ∪ hn') ∧ den hn' a' = Some v.

Lemma copies_on_copies {A V} (den : heap → A → option V) f : copies_on den f → copies den f.
Proof.
  intros Hc h a v Ha. destruct (Hc h ∅ a v) as (a' & hn & Hd & _ & Ef & Hv); [apply map_disjoint_empty_l|done|].
  rewrite map_union_empty in Ef. by exists a', hn.
Qed.

Lemma on_copies {A V} (den : heap → A → option V) f : monotone den → copies den f → copies_on den f.
Proof. intros Hm Hc h hn a v Hd Ha. by apply copies_more. Qed.

Lemma pointer_on `{!Cell A} : copies_on (pointer_at (A := A)) copy_pointer.
Proof. apply on_copies; [apply pointer_monotone | apply copies_pointer]. Qed.

Lemma time_on : copies_on time_pointer_at copy_time.
Proof.
  intros h hn [l|] v Hd; cbn.
  - destruct (time_at h l) as [t|] eqn:Et; [|done]. intros [= <-].
    destruct (copies_more _ _ h hn l t time_monotone time_copies Hd Et) as (l' & hn' & Hd' & Hs & Ef & Hv).
    exists (Some l'), hn'. mem_steps. rewrite Ef. split; [done|]. split; [done|]. split; [done|].
    cbn. by rewrite Hv.
  - intros [= <-]. by exists None, hn.
Qed.

Lemma slice_on {V} `{!Cell (list A)} (at_ : heap → A → option V) f :
  monotone at_ → copies at_ f → copies_on (slice_at at_) (copy_slice f).
Proof.
  intros Hm Hc h hn [s|] v Hd; cbn.
  - destruct (elements_of h s) as [l|] eqn:El; [|done]. cbn.
    destruct (mapM (at_ h) l) as [vs|] eqn:Ev; [|done]. intros [= <-].
    assert (elements_of (h ∪ hn) s = Some l) as El'
      by (eapply elements_monotone; [apply map_union_subseteq_l|done]).
    destruct (map_mem_more at_ f h hn l vs Hm Hc Hd Ev) as (l' & h1 & Hd1 & Hs1 & E1 & Hl & _).
    destruct (new_more h h1 l' Hd1) as (p & h2 & Hd2 & Hs2 & E2 & Hp).
    eexists (Some {| s_array := p; s_off := 0; s_len := length l' |}), h2.
    split; [done|]. split; [by etransitivity|]. mem_steps. unfold load_slice, new_slice. mem_steps.
    rewrite El', E1, E2. split; [done|]. cbn. unfold elements_of. cbn. rewrite Hp. cbn.
    rewrite decide_True by done. cbn. rewrite drop_0, take_ge by done. cbn.
    by rewrite (mapM_monotone at_ Hm _ _ _ _ Hs2 Hl).
  - intros [= <-]. by exists None, hn.
Qed.

(** The copy of a field. *)
Ltac copy_field lem Hd E x hn Hd' Hs Ef Hv :=
  destruct (lem _ _ _ _ Hd E) as (x & hn & Hd' & Hs & Ef & Hv).

Lemma source_monotone : monotone source_at.
Proof.
  intros h h' m v Hh Hv. unfold source_at in *. read_field Hv E1. read_field Hv E2.
  by rewrite (pointer_monotone _ _ _ _ Hh E1), (pointer_monotone _ _ _ _ Hh E2).
Qed.

Lemma source_on : copies_on source_at ValuesSource_DeepCopyInto.
Proof.
  intros h hn m v Hd Hv. unfold source_at in Hv. read_field Hv E1. read_field Hv E2.
  injection Hv as <-.
  copy_field (pointer_on (A := LocalObjectReference)) Hd E1 c h1 Hd1 Hs1 F1 A1.
  copy_field (pointer_on (A := LocalObjectReference)) Hd1 E2 s h2 Hd2 Hs2 F2 A2.
  eexists _, h2. split; [done|]. split; [by etransitivity|].
  unfold ValuesSource_DeepCopyInto. mem_steps. rewrite F1, F2. split; [done|].
  unfold source_at. cbn. rewrite (pointer_monotone _ _ _ _ Hs2 A1), A2. done.
Qed.

Lemma registry_monotone : monotone registry_at.
Proof.
  intros h h' m v Hh Hv. unfold registry_at in *. read_field Hv E1.
  by rewrite (pointer_monotone _ _ _ _ Hh E1).
Qed.

Lemma registry_on : copies_on registry_at RegistryConfig_DeepCopyInto.
Proof.
  intros h hn m v Hd Hv. unfold registry_at in Hv. read_field Hv E1. injection Hv as <-.
  copy_field (pointer_on (A := LocalObjectReference)) Hd E1 c h1 Hd1 Hs1 F1 A1.
  eexists _, h1. split; [done|]. split; [done|].
  unfold RegistryConfig_DeepCopyInto. mem_steps. rewrite F1. split; [done|].
  unfold registry_at. cbn. by rewrite A1.
Qed.

Lemma sources_monotone : monotone (slice_at source_at).
Proof. apply slice_monotone, source_monotone. Qed.

Lemma sources_on : copies_on (slice_at source_at) (copy_slice ValuesSource_DeepCopyInto).
Proof. apply slice_on; [apply source_monotone | apply copies_on_copies, source_on]. Qed.

Lemma converge_monotone : monotone converge_at.
Proof.
  intros h h' m v Hh Hv. unfold converge_at in *. read_field Hv E1. read_field Hv E2. read_field Hv E3.
  by rewrite (pointer_monotone _ _ _ _ Hh E1), (pointer_monotone _ _ _ _ Hh E2),
    (sources_monotone _ _ _ _ Hh E3).
Qed.

Lemma converge_on : copies_on converge_at ConvergeConfig_DeepCopyInto.
Proof.
  intros h hn m v Hd Hv. unfold converge_at in Hv. read_field Hv E1. read_field Hv E2. read_field Hv E3.
  injection Hv as <-.
  copy_field (pointer_on (A := ResourceLimitsConfig)) Hd E1 c h1 Hd1 Hs1 F1 A1.
  copy_field (pointer_on (A := Z)) Hd1 E2 d h2 Hd2 Hs2 F2 A2.
  copy_field sources_on Hd2 E3 s h3 Hd3 Hs3 F3 A3.
  assert (h1 ⊆ h3) as Hs13 by (by etransitivity).
  eexists _, h3. split; [done|]. split; [by etransitivity|].
  unfold ConvergeConfig_DeepCopyInto. mem_steps. rewrite F1, F2, F3. split; [done|].
  unfold converge_at. cbn.
  by rewrite (pointer_monotone _ _ _ _ Hs13 A1), (pointer_monotone _ _ _ _ Hs3 A2), A3.
Qed.

Lemma spec_monotone : monotone spec_at.
Proof.
  intros h h' m v Hh Hv. unfold spec_at in *. read_field Hv E1. read_field Hv E2.
  by rewrite (registry_monotone _ _ _ _ Hh E1), (converge_monotone _ _ _ _ Hh E2).
Qed.

Lemma spec_on : copies_on spec_at WerfBundleSpec_DeepCopyInto.
Proof.
  intros h hn m v Hd Hv. unfold spec_at in Hv. read_field Hv E1. read_field Hv E2. injection Hv as <-.
  copy_field registry_on Hd E1 x h1 Hd1 Hs1 F1 A1. copy_field converge_on Hd1 E2 c h2 Hd2 Hs2 F2 A2.
  eexists _, h2. split; [done|]. split; [by etransitivity|].
  unfold WerfBundleSpec_DeepCopyInto. mem_steps. rewrite F1, F2. split; [done|].
  unfold spec_at. cbn. by rewrite (registry_monotone _ _ _ _ Hs2 A1), A2.
Qed.

Lemma status_monotone : monotone status_at.
Proof.
  intros h h' m v Hh Hv. unfold status_at in *. read_field Hv E1. read_field Hv E2.
  by rewrite (time_pointer_monotone _ _ _ _ Hh E1), (time_pointer_monotone _ _ _ _ Hh E2).
Qed.

Lemma status_on : copies_on status_at WerfBundleStatus_DeepCopyInto.
Proof.
  intros h hn m v Hd Hv. unfold status_at in Hv. read_field Hv E1. read_field Hv E2. injection Hv as <-.
  copy_field time_on Hd E1 x h1 Hd1 Hs1 F1 A1. copy_field time_on Hd1 E2 c h2 Hd2 Hs2 F2 A2.
  eexists _, h2. split; [done|]. split; [by etransitivity|].
  unfold WerfBundleStatus_DeepCopyInto. mem_steps. rewrite F1, F2. split; [done|].
  unfold status_at. cbn. by rewrite (time_pointer_monotone _ _ _ _ Hs2 A1), A2.
Qed.

Lemma bundle_monotone : monotone bundle_at.
Proof.
  intros h h' m v Hh Hv. unfold bundle_at in *. read_field Hv E1. read_field Hv E2. read_field Hv E3.
  by rewrite (objectmeta_monotone _ _ _ _ Hh E1), (spec_monotone _ _ _ _ Hh E2),
    (status_monotone _ _ _ _ Hh E3).
Qed.

Lemma bundle_on : copies_on bundle_at WerfBundle_DeepCopyInto.
Proof.
  intros h hn m v Hd Hv. unfold bundle_at in Hv. read_field Hv E1. read_field Hv E2. read_field Hv E3.
  injection Hv as <-.
  copy_field (on_copies _ _ objectmeta_monotone objectmeta_copies) Hd E1 x h1 Hd1 Hs1 F1 A1.
  copy_field spec_on Hd1 E2 c h2 Hd2 Hs2 F2 A2. copy_field status_on Hd2 E3 s h3 Hd3 Hs3 F3 A3.
  assert (h1 ⊆ h3) as Hs13 by (by etransitivity).
  eexists _, h3. split; [done|]. split; [by etransitivity|].
  unfold WerfBundle_DeepCopyInto. mem_steps. rewrite F1, F2, F3. split; [done|].
  unfold bundle_at. cbn.
  by rewrite (objectmeta_monotone _ _ _ _ Hs13 A1), (spec_monotone _ _ _ _ Hs3 A2), A3.
Qed.

Lemma list_monotone : monotone list_at.
Proof.
  intros h h' m v Hh Hv. unfold list_at in *. read_field Hv E1. read_field Hv E2.
  by rewrite (listmeta_monotone _ _ _ _ Hh E1), (slice_monotone _ bundle_monotone _ _ _ _ Hh E2).
Qed.

Lemma list_on : copies_on list_at WerfBundleList_DeepCopyInto.
Proof.
  intros h hn m v Hd Hv. unfold list_at in Hv. read_field Hv E1. read_field Hv E2. injection Hv as <-.
  copy_field (on_copies _ _ listmeta_monotone listmeta_copies) Hd E1 x h1 Hd1 Hs1 F1 A1.
  copy_field (slice_on _ _ bundle_monotone (copies_on_copies _ _ bundle_on)) Hd1 E2 c h2 Hd2 Hs2 F2 A2.
  eexists _, h2. split; [done|]. split; [by etransitivity|].
  unfold WerfBundleList_DeepCopyInto. mem_steps. rewrite F1, F2. split; [done|].
  unfold list_at. cbn. by rewrite (listmeta_monotone _ _ _ _ Hs2 A1), A2.
Qed.

Lemma limits_on : copies_on limits_at ResourceLimitsConfig_DeepCopyInto.
Proof. intros h hn m v Hd [= <-]. by exists m, hn. Qed.

(** ** DeepCopy *)

Lemma behind_monotone {V} `{!Cell A} (at_ : heap → A → option V) : monotone at_ → monotone (behind at_).
Proof.
  intros Hm h h' l v Hh. unfold behind. destruct (peek h l) as [a|] eqn:Ea; [|done].
  rewrite (peek_monotone _ _ _ _ Hh Ea). cbn. by apply Hm.
Qed.

(** A copy that is independent of its original: they say the same, and each goes
    on saying it whatever is written to the memory of the other. *)
Definition independent {V} (at_ : heap → loc → option V) (h : heap) (l : loc) (v : V)
    (h' : heap) (l' : loc) : Prop :=
  (l' ∉ dom h) ∧ h ⊆ h' ∧
  (∀ h2, (∀ k, k ∈ dom h → h2 !! k = h' !! k) → at_ h2 l = Some v) ∧
  (∀ h2, (∀ k, k ∉ dom h → h2 !! k = h' !! k) → at_ h2 l' = Some v).

Lemma deep_copy_independent {V} `{!Cell A} (at_ : heap → A → option V) f h l v :
  monotone at_ → copies_on at_ f → behind at_ h l = Some v →
  ∃ l' h', deep_copy f (Some l) h = Some (Some l', h') ∧ independent (behind at_) h l v h' l'.
Proof.
  intros Hm Hc Hv. pose proof Hv as Hb. unfold behind in Hv.
  destruct (peek h l) as [a|] eqn:Ea; [|done]. cbn in Hv.
  destruct (Hc h ∅ a v) as (a' & h1 & Hd1 & _ & E1 & Hv1); [apply map_disjoint_empty_l|done|].
  rewrite map_union_empty in E1.
  destruct (new_more h h1 a' Hd1) as (l' & h2 & Hd2 & Hs2 & E2 & Hp).
  exists l', (h ∪ h2). unfold deep_copy. mem_steps. unfold load. rewrite Ea, E1, E2. split; [done|].
  assert (behind at_ h2 l' = Some v) as Hv2.
  { unfold behind. rewrite Hp. cbn. by apply (Hm _ _ _ _ Hs2). }
  assert (∀ k c, h2 !! k = Some c → k ∉ dom h) as Hout.
  { intros k c Hk. apply not_elem_of_dom. by apply (map_disjoint_Some_l h2 h k c). }
  split.
  { unfold peek in Hp. destruct (h2 !! l') as [c|] eqn:El; [|done]. by eapply Hout. }
  split; [apply map_union_subseteq_l|]. split.
  - intros h3 H3. eapply (behind_monotone at_ Hm h); [|exact Hb]. apply map_subseteq_spec.
    intros k c Hk. rewrite H3 by (by eapply elem_of_dom_2). by apply lookup_union_Some_l.
  - intros h3 H3. eapply (behind_monotone at_ Hm h2); [|exact Hv2]. apply map_subseteq_spec.
    intros k c Hk. rewrite H3 by (by eapply Hout). by apply lookup_union_Some_r.
Qed.

(** ** Properties *)

(** C31 Deep copies of the API objects.  For a bundle, or a list of bundles, in
    memory, DeepCopyObject succeeds and returns an object of the same kind that
    says the same, nil slices included; it lies in new memory and the old memory
    is as it was; and the two are independent: whatever is written to the memory
    of one, the other still says what it said.  The copy of nil is the nil
    interface. *)
Theorem DeepCopyObject_independent :
  (∀ h l v, behind bundle_at h l = Some v →
     ∃ l' h', WerfBundle_DeepCopyObject (Some l) h = Some (Some (BundleObject l'), h') ∧
       independent (behind bundle_at) h l v h' l') ∧
  (∀ h l v, behind list_at h l = Some v →
     ∃ l' h', WerfBundleList_DeepCopyObject (Some l) h = Some (Some (BundleListObject l'), h') ∧
       independent (behind list_at) h l v h' l') ∧
  (∀ h, WerfBundle_DeepCopyObject None h = Some (None, h) ∧
        WerfBundleList_DeepCopyObject None h = Some (None, h)).
Proof.
  split; [|split; [|done]]; intros h l v Hv.
  - destruct (deep_copy_independent bundle_at _ h l v bundle_monotone bundle_on Hv) as (l' & h' & E & Hi).
    exists l', h'. unfold WerfBundle_DeepCopyObject, WerfBundle_DeepCopy. mem_steps. by rewrite E.
  - destruct (deep_copy_independent list_at _ h l v list_monotone list_on Hv) as (l' & h' & E & Hi).
    exists l', h'. unfold WerfBundleList_DeepCopyObject, WerfBundleList_DeepCopy. mem_steps. by rewrite E.
Qed.

(** [f] copies what [at_] reads, independently, and maps nil to nil. *)
Definition copier {V} `{!Cell A} (at_ : heap → A → option V) (f : option loc → mem (option loc)) : Prop :=
  (∀ h l v, behind at_ h l = Some v →
     ∃ l' h', f (Some l) h = Some (Some l', h') ∧ independent (behind at_) h l v h' l') ∧
  ∀ h, f None h = Some (None, h).

(** Deep copies of the parts.  The DeepCopy of every struct of the API - the
    spec and the status, the registry and converge configurations, a values
    source, the resource limits - returns an independent copy, and nil for nil. *)
Theorem DeepCopy_independent :
  copier spec_at WerfBundleSpec_DeepCopy ∧ copier status_at WerfBundleStatus_DeepCopy ∧
  copier registry_at RegistryConfig_DeepCopy ∧ copier converge_at ConvergeConfig_DeepCopy ∧
  copier source_at ValuesSource_DeepCopy ∧ copier limits_at ResourceLimitsConfig_DeepCopy.
Proof.
  repeat split; try done; intros h l v Hv; apply deep_copy_independent; try exact Hv.
  all: first [exact spec_monotone|exact spec_on|exact status_monotone|exact status_on
    |exact registry_monotone|exact registry_on|exact converge_monotone|exact converge_on
    |exact source_monotone|exact source_on|exact limits_on|by intros h1 h2 m x _].
Qed.

End DeepCopy.

(** ** A memory with a bundle in it *)

Module Sample.

(** Metadata whose labels, alone, lie behind a pointer. *)
#[local] Instance types : MetaTypes := {|
  TypeMeta := string;
  ObjectMeta_m := ObjectMeta * option loc;
  ListMeta_m := string;
  ForeignCell := gmap string string;
|}.

Definition with_labels (m : ObjectMeta) (l : gmap string string) : ObjectMeta :=
  {| Name := Name m; Namespace := Namespace m; UID := UID m; ResourceVersion := ResourceVersion m;
     Labels := l; Finalizers := Finalizers m; DeletionTimestamp := DeletionTimestamp m;
     OwnerReferences := OwnerReferences m |}.

Definition labelled_at (h : heap) (m : ObjectMeta * option loc) : option ObjectMeta :=
  l ← pointer_at (A := gmap string string) h m.2; Some (with_labels m.1 (default ∅ l)).

Definition copy_labelled (m : ObjectMeta * option loc) : mem (ObjectMeta * option loc) :=
  l ← copy_pointer (A := gmap string string) m.2; mret (m.1, l).

#[local] Instance lib : MetaLib := {|
  ListMeta := string;
  objectmeta_at := labelled_at;
  listmeta_at h m := Some m;
  ObjectMeta_DeepCopyInto := copy_labelled;
  ListMeta_DeepCopyInto m := mret m;
  Time_DeepCopy l := t ← load (A := Time) l; new t;
|}.

Lemma labelled_copies : copies labelled_at copy_labelled.
Proof.
  intros h [m p] v Hv. unfold labelled_at in Hv. cbn in Hv. read_field Hv E. injection Hv as <-.
  destruct (copies_pointer _ _ _ E) as (p' & hn & Hd & Ef & Hp).
  exists (m, p'), hn. split; [done|]. unfold copy_labelled. mem_steps. cbn. rewrite Ef.
  split; [done|]. unfold labelled_at. cbn. by rewrite Hp.
Qed.

Lemma load_new_copies : copies time_at (λ l, t ← load (A := Time) l; new t).
Proof.
  intros h l v Hv. unfold time_at in Hv. read_field Hv E. injection Hv as <-.
  destruct (new_more h ∅ t) as (l' & hn & Hd & _ & En & Hp); [apply map_disjoint_empty_l|].
  rewrite map_union_empty in En. exists l', hn. split; [done|].
  mem_steps. unfold load. rewrite E, En. split; [done|]. unfold time_at. by rewrite Hp.
Qed.

#[local] Instance lib_ok : MetaLibOk.
Proof.
  split.
  - intros h h' [m p] v Hh Hv. cbn in *. unfold labelled_at in *. read_field Hv E.
    by rewrite (pointer_monotone _ _ _ _ Hh E).
  - intros h h' m v _ Hv. exact Hv.
  - exact labelled_copies.
  - intros h m v [= <-]. exists m, ∅. split; [apply map_disjoint_empty_l|].
    cbn. by rewrite map_union_empty.
  - exact load_new_copies.
Qed.

Definition source_m : ValuesSource_m :=
  {| m_ConfigMapRef := Some 4%positive; m_SecretRef := None; m_Optional := true |}.

Definition spec_m : WerfBundleSpec_m := {|
  m_Registry := {| m_URL := "registry.example/app"; m_Registry_SecretRef := None; m_PollInterval := "15m" |};
  m_Converge := {|
    m_ServiceAccountName := "deployer"; m_TargetNamespace := "prod"; m_ResourceLimits := None;
    m_LogRetentionDays := Some 1%positive;
    m_ValuesFrom := Some {| s_array := 3%positive; s_off := 1; s_len := 1 |};
  |};
|}.

Definition status_m : WerfBundleStatus_m := {|
  m_Phase := "Synced"; m_LastAppliedTag := "v1"; m_LastSyncTime := Some 2%positive;
  m_LastErrorMessage := ""; m_LastETag := ""; m_ConsecutiveFailures := 0; m_LastErrorTime := None;
  m_ActiveJobName := ""; m_LastJobStatus := "Succeeded"; m_LastJobLogs := "";
  m_ResolvedTargetNamespace := "prod";
|}.

Definition bundle_m : WerfBundle_m := {|
  m_TypeMeta := "WerfBundle";
  m_ObjectMeta := ({| Name := "app"; Namespace := "team"; UID := "u1"; ResourceVersion := "7"; Labels := ∅;
                      Finalizers := []; DeletionTimestamp := None; OwnerReferences := [] |}, Some 5%positive);
  m_Spec := spec_m; m_Status := status_m;
|}.

Definition memory : heap := list_to_map [
  (1%positive, CInt32 30);
  (2%positive, CTime {| unix := 1000 |});
  (3%positive, CSources [source_m; source_m]);
  (4%positive, CReference {| ref_Name := "values" |});
  (5%positive, CForeign ({["tier" := "web"]} : ForeignCell));
  (6%positive, CBundle bundle_m);
  (7%positive, CBundles [bundle_m; bundle_m]);
  (8%positive, CBundleList {| m_List_TypeMeta := "WerfBundleList"; m_ListMeta := "12";
                 m_Items := Some {| s_array := 7%positive; s_off := 0; s_len := 2 |} |});
  (9%positive, CSpec spec_m)].

(** ** Witnesses *)

Lemma DeepCopyObject_independent_witness :
  ∃ v l' h', behind bundle_at memory 6%positive = Some v ∧
    LogRetentionDays (Converge (Spec (v_Bundle v))) = Some 30 ∧
    WerfBundle_DeepCopyObject (Some 6%positive) memory = Some (Some (BundleObject l'), h') ∧
    independent (behind bundle_at) memory 6%positive v h' l'.
Proof.
  destruct (behind bundle_at memory 6%positive) as [v|] eqn:Hv; [|vm_compute in Hv; discriminate].
  destruct (proj1 DeepCopyObject_independent memory 6%positive v Hv) as (l' & h' & E & Hi).
  exists v, l', h'. split; [done|]. split; [|by split].
  vm_compute in Hv. by injection Hv as <-.
Defined.

Lemma DeepCopy_independent_witness :
  ∃ v l' h', behind spec_at memory 9%positive = Some v ∧
    map ConfigMapRef (ValuesFrom (Converge v.2)) = [Some {| ref_Name := "values" |}] ∧
    WerfBundleSpec_DeepCopy (Some 9%positive) memory = Some (Some l', h') ∧
    independent (behind spec_at) memory 9%positive v h' l'.
Proof.
  destruct (behind spec_at memory 9%positive) as [v|] eqn:Hv; [|vm_compute in Hv; discriminate].
  destruct (proj1 (proj1 DeepCopy_independent) memory 9%positive v Hv) as (l' & h' & E & Hi).
  exists v, l', h'. split; [done|]. split; [|by split].
  vm_compute in Hv. by injection Hv as <-.
Defined.

End Sample.
